(* ===== verification/_CoqProject ===== *)
-Q . S2P
Prelude.v
Errors.v
Toolkit.v
Byteslice.v
Ring.v
LinkedList.v
Elastic.v
Hashkit.v
Commands.v
Codec.v
Message.v
Forest.v
CodecC.v
CodecS.v
Pool.v
Cluster.v
Topology.v
AuthIp.v
World.v
Conn.v
EventLoop.v
Pipelining.v
Timeouts.v
Server.v
Routing.v
LockFreeQueue.v
TaskPool.v
Polling.v
Table.v
LoopTable.v
Queues.v
LoopQueues.v
Pollers.v
Registration.v
Syscalls.v
Wakeup.v
RedisConn.v
RedisClient.v
RingPool.v
Options.v
Sockets.v
Engine.v
Reachable.v
Lifecycle.v
Stats.v
Web.v
Logging.v
Main.v
