(* ===== verification/Prelude.v ===== *)
(** * rcproxy, verified

    rcproxy is a proxy for Redis Cluster: clients speak to it as to one Redis server, and it
    sends every command to the node that owns its key.  It is one event loop on
    top of a network library (a descendant of gnet).  This library models the
    proxy's own logic in Rocq and proves what makes it correct.

    ** How the program works, and where it is modelled

    A client's bytes are read into the loop's buffer ([Conn], from
    [core/connection.go]) and decoded into a message with one fragment per slot
    ([CodecC], from [core/codec_c.go]; the slot is the CRC16 of [Hashkit], the command
    tables are [Commands]).  The event handler ([Server], from [core/server])
    picks a server for each fragment from the slot table that [Cluster]
    ([core/cluster.go]) fills from CLUSTER NODES, takes a connection from that
    server's pool ([Pool], [core/redis_pool.go]) and queues the fragment on it.  A
    task of the poller writes the queued fragments in one batch
    ([handleWriteSignal] in [EventLoop], from [core/connection.go]).  Replies
    are framed and paired with the waiting fragments, and assembled into the
    reply of the message ([CodecS], [core/codec_s.go]); when every message of a client
    is done, its replies are written in order ([answer] in [EventLoop], from
    [core/eventloop.go]).

    - [Prelude], [Errors], [Toolkit]: results of Go code, machine integers, slices,
      error values, and the helpers of [core/internal/toolkit] and [core/pkg/utils].
    - [Byteslice], [Ring], [LinkedList], [Elastic], [RingPool]: the buffers and
      their pools ([core/pkg/buffer], [core/pkg/pool]).
    - [Hashkit], [Commands], [Codec], [Message], [CodecC], [CodecS]: the protocol
      ([core/pkg/hashkit], [core/codec], [core/message.go], [core/codec_c.go],
      [core/codec_s.go]).  [Forest] has lemmas on several queues in one heap.
    - [Pool], [Cluster], [Topology], [AuthIp], [RedisConn], [RedisClient]: the connection
      pools, the topology and how it follows CLUSTER NODES, the address whitelist
      ([core/authip]) and the synchronous client with which nodes are probed
      ([core/pkg/redis]).
    - [World], [Conn], [EventLoop], [Server], [Polling]: the state of the loop, connections, the
      loop ([core/eventloop.go], [core/acceptor.go], [core/engine.go]), the event
      handler, and the rounds of the poller ([core/internal/netpoll]).
    - [Pollers], [Registration], [Syscalls]: the other three builds of the poller (epoll with
      attachments, kqueue with and without) as instances of the same loop, the
      calls with which each of the four asks its kernel for events, and the wrappers
      below them: the memory layout of an event on each architecture, the [iovec]
      arrays, error numbers ([core/internal/io], [defs_*.go], [syscall_*.go]).
    - [Options], [Sockets], [Engine]: from the configuration file to a running
      loop: the options ([config], [core/options.go], [core/server/options.go]),
      the listening socket ([core/internal/socket], [core/listener.go]), opening the
      poller, the pools of the configured servers and the connections made in
      advance ([core/engine.go], [core/gnet.go]).
    - [LockFreeQueue], [TaskPool], [Wakeup], [Lifecycle]: the concurrent parts, the
      task queue and its records ([core/internal/queue]), the protocol that wakes the
      poller, and the shutdown over a once, a condition, a wait group and a flag
      ([core/engine.go], [core/gnet.go]), with every atomic access as one step of some
      thread.
    - [Stats], [Web], [Logging]: what the proxy reports ([core/stats.go], [web],
      [core/pkg/logging]).
    - [Main]: flags, the banner's build data and the order of the start ([main.go]).
    - [Table], [LoopTable], [Queues], [LoopQueues]: no code of their own; the
      invariants of the connection table and of the queues of fragments, kept by every
      operation, the handler, the ticker and every round of the loop.
    - [Reachable]: the engine from its start, its rounds interleaved with new topologies
      and probes of the servers, and the invariants in every state it reaches.

    State is passed explicitly.  One record, [World], is the state of the loop;
    connections, messages and fragments live in heaps, because queues, owners and peers
    share them.  Go's [error] is the type [Errors.error]; a Go panic is the
    result [Panic], so a theorem that concludes with [Ok] also says that nothing
    panics.  A w-bit integer is a [Z] with its wrap-around written out wherever
    it can occur.

    ** What is outside

    The kernel, the clock, [sync.Pool] and randomness are operations of the class
    [World.Env], whose laws are what the manual pages promise: a write accepts a
    prefix of its bytes or reports an error, a read leaves the other direction
    alone.  The kernels that the start-up talks to are classes of the same kind:
    [Sockets.SockKernel] (the table of open sockets), [Registration.EpollKernel] and
    [Registration.KqueueKernel] (what a registration does to the interest in a
    descriptor), each with an instance.  The concurrent hash map, the red-black tree of timeouts, the order
    in which Go ranges over a map, [sort.Sort] and the YAML parser are classes or
    parameters with their documented behaviour, each with an instance that the
    witnesses use.  The callbacks of the event handler are the classes
    [ConnHandler] and [LoopHandler]; the theorems of [Conn] and [EventLoop] hold for
    every handler with the laws [ConnHandlerLaws], and [Server] shows that the proxy's own
    handler has them.

    ** What the theorems show

    - Buffers: every script of operations of a ring or elastic
      buffer behaves as one FIFO byte queue up to its end or to the first of a few
      named hazards, where the code itself breaks the queue (a full ring that
      [WriteByte] does not grow, an empty reader read into an empty buffer, a writer
      that takes nothing, a wrapped ring that is rewound); the pools hand out clean
      buffers.
    - Protocol: complete requests decode to exactly the fragments of their slots,
      proper prefixes wait, replies are framed on every input without panic, and the
      replies of a split request give the right answer in any order of arrival.
    - Routing: [Routing] shows that each fragment of a request reaches the queue of a
      server of its slot exactly once, writes only the master, reads also its slaves, and
      what a fragment that has no server does to the others; [Topology] when a change of the
      cluster is noticed and that the slot table is the one CLUSTER NODES printed.
    - Ordering: [Conn] and [Pipelining] show that bytes, requests and replies keep their
      order through partial writes and arbitrarily cut reads, and that replies
      are paired with their requests; and, since the kernel may answer anything, what is
      sent when a write fails or a registration is refused half-way.
    - Time and failure: [Timeouts], [Server] and [RedisClient] show what happens when requests time out,
      servers close, or a peer sends something unexpected.
    - Access: [AuthIp] shows whom the whitelist admits after any sequence of reloads.
    - Concurrency: the task queue is linearizable: every history of calls and returns is one
      of an atomic FIFO queue; no wake-up is
      lost by any of the four pollers as long as the wake-up can be written ([Wakeup]), and
      recycled task records are never shared.
    - The whole loop: [Reachable] shows of every state that a started engine reaches, in any
      interleaving, that the connection table holds exactly the open connections and the
      counters count them, that the queues of fragments and messages are well-formed,
      disjoint lists and the tree of timeouts holds only fragments that wait, and
      that the loops over them end without a panic;
      [LoopTable] that a loop that ends leaves no connection open; [Pollers] that the same holds of the other
      builds and that dispatch by attachment is dispatch by descriptor;
      [Registration] that any two of the four builds leave the same interest with their
      kernels after the same calls; [Syscalls] that what a poller stores in an event is what it reads back.
    - Start and stop: [Options] shows that whatever the file holds, the loop gets
      sizes it can work with; [Sockets] that addresses survive the translation to
      socket addresses and back; [Engine] that a failed start leaves no descriptor open,
      that a start establishes the invariant of [Table], and what the descriptors of an
      engine are from start to end; [Lifecycle] that a shutdown that is reported is complete,
      that one that is noticed takes a bounded number of steps and ends, unless the loop is
      at work on events or cannot be woken, and that a
      signal that comes too early is lost; [Main] in which order the program starts its
      parts and on which errors it exits.

    Several theorems state behaviour the authors cannot have meant (a reply that
    stops the loop, a request that panics the proxy, requests stranded by a
    closing server, a ban the wrong way round); they are proved of the
    definitions as the code is.

    ** Fuel

    Loops that are not structural take fuel, and [OutOfFuel] marks a shortage.
    Decoders get the number of buffered bytes, since every call reads at least one;
    loops over queues get the length of the queue; the theorems prove that this is
    enough.  The one loop that has no such bound, the loop over the replies of
    a server, is shown to run out of any fuel on some inputs ([Timeouts]).

    ** Not modelled, and why

    [core/pkg/pool/bytebuffer] is a list of aliases of a third-party package.  The
    routes of [web/init.go], JSON and the rotation of log files are libraries.  The rest
    of what is left are methods that no part of the proxy calls: the close with a
    callback, the socket options of an open connection, and [ReceiveContext] of the
    redis client.  The kernel behind the wrappers of
    [Syscalls] is a parameter.  The topology goroutine takes
    its steps between rounds of the loop: the unsynchronised reads of the topology while
    it is being written are outside this model. *)

From stdpp Require Export base tactics numbers list gmap strings.
From Stdlib Require Export Lia.
Global Open Scope Z_scope.

(** ** Results of Go code

    [Ok v] is a normal return, [Panic] a Go run-time panic (index or slice
    bounds, [make] with a negative length, nil dereference, an explicit
    [panic]), [OutOfFuel] marks a model recursion that was given too little
    fuel; every total-correctness theorem shows that it does not occur. *)

Inductive res (A : Type) : Type :=
  | Ok (a : A)
  | Panic
  | OutOfFuel.
Arguments Ok {A} a.
Arguments Panic {A}.
Arguments OutOfFuel {A}.

#[export] Instance res_ret : MRet res := fun A a => Ok a.
#[export] Instance res_bind : MBind res := fun A B f m =>
  match m with Ok a => f a | Panic => Panic | OutOfFuel => OutOfFuel end.
#[export] Instance res_fmap : FMap res := fun A B f m =>
  match m with Ok a => Ok (f a) | Panic => Panic | OutOfFuel => OutOfFuel end.

Lemma res_bind_Ok {A B} (f : A -> res B) a : (Ok a ≫= f) = f a.
Proof. reflexivity. Qed.

Lemma res_bind_inv {A B} (f : A -> res B) m b :
  (m ≫= f) = Ok b -> exists a, m = Ok a /\ f a = Ok b.
Proof. destruct m as [a| |]; simpl; try discriminate. eauto. Qed.

(** Two computations agree: both return, with related results, or both fail the
    same way. *)
Definition res_rel {A B} (R : A -> B -> Prop) (x : res A) (y : res B) : Prop :=
  match x, y with
  | Ok a, Ok b => R a b
  | Panic, Panic | OutOfFuel, OutOfFuel => True
  | _, _ => False
  end.

Lemma res_rel_bind {A B C D} (R : A -> B -> Prop) (Q : C -> D -> Prop) x y f g :
  res_rel R x y -> (forall a b, R a b -> res_rel Q (f a) (g b)) -> res_rel Q (x ≫= f) (y ≫= g).
Proof. destruct x, y; simpl; intros HR Hf; naive_solver. Qed.

Lemma res_rel_refl {A} (x : res A) : res_rel eq x x.
Proof. by destruct x. Qed.

(** ** Machine integers *)

Definition wrap64 (n : Z) : Z := (n + 2 ^ 63) `mod` 2 ^ 64 - 2 ^ 63.
Definition wrap32 (n : Z) : Z := (n + 2 ^ 31) `mod` 2 ^ 32 - 2 ^ 31.
Definition uwrap64 (n : Z) : Z := n `mod` 2 ^ 64.
Definition uwrap32 (n : Z) : Z := n `mod` 2 ^ 32.

Lemma wrap64_id n : - 2 ^ 63 <= n < 2 ^ 63 -> wrap64 n = n.
Proof. intros H. unfold wrap64. rewrite Z.mod_small; lia. Qed.

Lemma wrap32_id n : - 2 ^ 31 <= n < 2 ^ 31 -> wrap32 n = n.
Proof. intros H. unfold wrap32. rewrite Z.mod_small; lia. Qed.
Lemma wrap32_add a d : wrap32 (wrap32 a + d) = wrap32 (a + d).
Proof.
  unfold wrap32. f_equal.
  replace ((a + 2 ^ 31) `mod` 2 ^ 32 - 2 ^ 31 + d + 2 ^ 31) with ((a + 2 ^ 31) `mod` 2 ^ 32 + d) by lia.
  rewrite Zplus_mod_idemp_l. f_equal. lia.
Qed.

Lemma wrap64_range n : - 2 ^ 63 <= wrap64 n < 2 ^ 63.
Proof. unfold wrap64. pose proof (Z.mod_pos_bound (n + 2 ^ 63) (2 ^ 64)). lia. Qed.

Lemma uwrap32_range n : 0 <= uwrap32 n < 2 ^ 32.
Proof. apply Z.mod_pos_bound. lia. Qed.

(** ** Slices

    A Go slice is the list of its elements; a byte is the integer of its
    value and a string the list of its bytes. *)

Abbreviation bytes := (list Z).

Definition len {A} (l : list A) : Z := Z.of_nat (length l).

(** The elements of [l] from [i] (inclusive) to [j] (exclusive). *)
Definition subl {A} (l : list A) (i j : Z) : list A :=
  take (Z.to_nat (j - i)) (drop (Z.to_nat i) l).

(** [l[i:j]] with the bounds check of the language. *)
Definition slice {A} (l : list A) (i j : Z) : res (list A) :=
  if (0 <=? i) && (i <=? j) && (j <=? len l) then Ok (subl l i j) else Panic.

(** [l[i]] with the bounds check of the language. *)
Definition index {A} (l : list A) (i : Z) : res A :=
  if 0 <=? i then
    match l !! Z.to_nat i with Some x => Ok x | None => Panic end
  else Panic.

(** [copy(dst[off:], src)]: overwrite as much of [dst] from [off] as [src] covers. *)
Definition copy_at {A} (dst : list A) (off : Z) (src : list A) : list A :=
  let k := Z.min (len dst - off) (len src) in
  subl dst 0 off ++ subl src 0 k ++ subl dst (off + k) (len dst).

(** [dst[i] = x] with the bounds check of the language. *)
Definition set_index {A} (dst : list A) (i : Z) (x : A) : res (list A) :=
  if (0 <=? i) && (i <? len dst) then Ok (<[Z.to_nat i := x]> dst) else Panic.

(** A string literal as bytes. *)
Fixpoint str (s : string) : bytes :=
  match s with
  | String.EmptyString => []
  | String.String c s => Z.of_N (Ascii.N_of_ascii c) :: str s
  end.

(** ** Lengths and windows of lists *)

Section windows.
Context {A : Type}.
Implicit Types l : list A.

Lemma len_nonneg l : 0 <= len l.
Proof. unfold len. lia. Qed.

Lemma len_nil : len (@nil A) = 0.
Proof. reflexivity. Qed.

Lemma len_cons x l : len (x :: l) = 1 + len l.
Proof. unfold len. simpl. lia. Qed.

Lemma len_app l1 l2 : len (l1 ++ l2) = len l1 + len l2.
Proof. unfold len. rewrite length_app. lia. Qed.

Lemma len_0_nil l : len l = 0 -> l = [].
Proof. unfold len. destruct l; simpl; [done|lia]. Qed.

Lemma len_subl l i j : 0 <= i <= j -> j <= len l -> len (subl l i j) = j - i.
Proof. unfold len, subl. intros. rewrite length_take, length_drop. lia. Qed.

Lemma subl_full l : subl l 0 (len l) = l.
Proof. unfold subl, len. rewrite drop_0. apply take_ge. lia. Qed.

Lemma subl_nil l i j : j <= i -> subl l i j = [].
Proof. intros. unfold subl. by replace (Z.to_nat (j - i)) with 0%nat by lia. Qed.

Lemma subl_split l i j k : 0 <= i <= j -> j <= k -> subl l i j ++ subl l j k = subl l i k.
Proof.
  intros. unfold subl.
  replace (Z.to_nat (k - i)) with (Z.to_nat (j - i) + Z.to_nat (k - j))%nat by lia.
  replace (Z.to_nat j) with (Z.to_nat i + Z.to_nat (j - i))%nat by lia.
  rewrite <- drop_drop, take_take_drop. done.
Qed.

Lemma subl_app_l l1 l2 i j : 0 <= i -> j <= len l1 -> subl (l1 ++ l2) i j = subl l1 i j.
Proof.
  unfold subl, len. intros. destruct (decide (j <= i)).
  { by replace (Z.to_nat (j - i)) with 0%nat by lia. }
  rewrite drop_app_le by lia. apply take_app_le. rewrite length_drop. lia.
Qed.

Lemma subl_app_r l1 l2 i j :
  len l1 <= i -> subl (l1 ++ l2) i j = subl l2 (i - len l1) (j - len l1).
Proof.
  unfold subl, len. intros. rewrite drop_app_ge by lia. f_equal; [lia|]. f_equal. lia.
Qed.

Lemma subl_head l1 l2 : subl (l1 ++ l2) 0 (len l1) = l1.
Proof. rewrite subl_app_l by lia. apply subl_full. Qed.

Lemma subl_tail l1 l2 : subl (l1 ++ l2) (len l1) (len (l1 ++ l2)) = l2.
Proof.
  rewrite subl_app_r by lia. rewrite len_app.
  replace (len l1 - len l1) with 0 by lia.
  replace (len l1 + len l2 - len l1) with (len l2) by lia. apply subl_full.
Qed.

(** The window [i, j) of a window that starts at [a]. *)
Lemma subl_subl l a b i j :
  0 <= a -> 0 <= i -> a + j <= b -> subl (subl l a b) i j = subl l (a + i) (a + j).
Proof.
  intros. unfold subl. destruct (decide (j <= i)).
  { replace (Z.to_nat (j - i)) with 0%nat by lia.
    by replace (Z.to_nat (a + j - (a + i))) with 0%nat by lia. }
  rewrite skipn_firstn_comm, take_take, drop_drop. f_equal; [lia|]. f_equal. lia.
Qed.

(** The window [i, j) of a concatenation, piece by piece. *)
Lemma subl_app l1 l2 i j :
  0 <= i <= j ->
  subl (l1 ++ l2) i j =
    subl l1 i (Z.min j (len l1)) ++ subl l2 (Z.max 0 (i - len l1)) (j - len l1).
Proof.
  intros. pose proof (len_nonneg l1). destruct (decide (j <= len l1)).
  { rewrite subl_app_l by lia. rewrite (subl_nil l2) by lia.
    by rewrite Z.min_l, app_nil_r by lia. }
  rewrite (Z.min_r j) by lia. destruct (decide (len l1 <= i)).
  { rewrite subl_app_r, (subl_nil l1) by lia. by rewrite Z.max_r by lia. }
  rewrite <- (subl_split _ i (len l1) j) by lia.
  rewrite subl_app_l, subl_app_r by lia. do 2 f_equal; lia.
Qed.

Lemma subl_lookup_cons l i j :
  0 <= i < j -> j <= len l ->
  exists x, l !! Z.to_nat i = Some x /\ subl l i j = x :: subl l (i + 1) j.
Proof.
  unfold len. intros. destruct (lookup_lt_is_Some_2 l (Z.to_nat i)) as [x Hx]; [lia|].
  exists x. split; [done|]. unfold subl.
  rewrite (drop_S l x (Z.to_nat i)) by done.
  replace (Z.to_nat (j - i)) with (S (Z.to_nat (j - (i + 1)))) by lia.
  rewrite firstn_cons. by replace (Z.to_nat (i + 1)) with (S (Z.to_nat i)) by lia.
Qed.

(** Windows as [take] and [drop] of the list library. *)
Lemma subl_take l n : subl l 0 n = take (Z.to_nat n) l.
Proof. unfold subl. by rewrite Z.sub_0_r, drop_0. Qed.

Lemma subl_drop l n : 0 <= n -> subl l n (len l) = drop (Z.to_nat n) l.
Proof. intros. unfold subl, len. apply take_ge. rewrite length_drop. lia. Qed.

Lemma slice_Ok l i j : 0 <= i <= j -> j <= len l -> slice l i j = Ok (subl l i j).
Proof.
  intros. unfold slice.
  rewrite (proj2 (Z.leb_le 0 i)), (proj2 (Z.leb_le i j)), (proj2 (Z.leb_le j (len l))) by lia.
  done.
Qed.

Lemma slice_inv l i j m :
  slice l i j = Ok m -> 0 <= i <= j /\ j <= len l /\ m = subl l i j.
Proof.
  unfold slice. intros H.
  destruct (0 <=? i) eqn:E1, (i <=? j) eqn:E2, (j <=? len l) eqn:E3;
    simpl in H; simplify_eq; split_and!; solve [lia | done].
Qed.

Lemma index_Ok l i x : 0 <= i -> l !! Z.to_nat i = Some x -> index l i = Ok x.
Proof. intros Hi Hx. unfold index. rewrite (proj2 (Z.leb_le 0 i)) by lia. by rewrite Hx. Qed.

Lemma index_in_range l i : 0 <= i < len l -> exists x, index l i = Ok x.
Proof.
  unfold len. intros. destruct (lookup_lt_is_Some_2 l (Z.to_nat i)) as [x Hx]; [lia|].
  exists x. apply index_Ok; [lia|done].
Qed.

Lemma len_copy_at (dst src : list A) off :
  0 <= off <= len dst -> len (copy_at dst off src) = len dst.
Proof.
  intros. unfold copy_at. pose proof (len_nonneg src).
  rewrite !len_app, !len_subl by lia. lia.
Qed.

Lemma copy_at_fits (dst src : list A) off :
  0 <= off -> off + len src <= len dst ->
  copy_at dst off src = subl dst 0 off ++ src ++ subl dst (off + len src) (len dst).
Proof.
  intros. unfold copy_at. rewrite Z.min_r by lia. by rewrite subl_full.
Qed.

Lemma copy_at_before (dst src : list A) off i j :
  0 <= i -> j <= off <= len dst -> subl (copy_at dst off src) i j = subl dst i j.
Proof.
  intros. unfold copy_at. destruct (decide (j <= i)).
  { by rewrite !subl_nil by lia. }
  rewrite subl_app_l by (rewrite ?len_subl; lia).
  rewrite subl_subl by lia. by rewrite !Z.add_0_l.
Qed.

Lemma copy_at_within (dst src : list A) off :
  0 <= off -> off + len src <= len dst ->
  subl (copy_at dst off src) off (off + len src) = src.
Proof.
  intros. pose proof (len_nonneg src). rewrite copy_at_fits by lia.
  rewrite subl_app_r by (rewrite len_subl; lia). rewrite len_subl by lia.
  replace (off - (off - 0)) with 0 by lia.
  replace (off + len src - (off - 0)) with (len src) by lia. apply subl_head.
Qed.

Lemma copy_at_after (dst src : list A) off i j :
  0 <= off -> off + len src <= i -> j <= len dst -> i <= len dst ->
  subl (copy_at dst off src) i j = subl dst i j.
Proof.
  intros. pose proof (len_nonneg src). rewrite copy_at_fits by lia.
  rewrite subl_app_r by (rewrite len_subl; lia). rewrite len_subl by lia.
  rewrite subl_app_r by lia.
  rewrite subl_subl by lia. f_equal; lia.
Qed.
End windows.

Create Rewrite HintDb lens.
#[export] Hint Rewrite @len_app @len_nil @len_cons : lens.

(** ** Automation

    [case_if] splits on a boolean test of the goal and closes the branches
    whose tests contradict the context; [bind_inv] opens a hypothesis that a
    monadic computation returned normally. *)

Ltac case_if :=
  match goal with
  | |- context [if ?b then _ else _] =>
      lazymatch type of b with bool => destruct b eqn:? end
  end; try lia.

Ltac case_if_in H :=
  match type of H with
  | context [if ?b then _ else _] =>
      lazymatch type of b with bool => destruct b eqn:? end
  end; try lia.

Ltac bind_inv H :=
  let a := fresh "a" in let Ha := fresh "Ha" in
  apply res_bind_inv in H as (a & Ha & H).

(** [slice_step] runs the leading bounds-checked slice of the goal, the side
    condition being arithmetic. *)
Ltac slice_step :=
  match goal with
  | |- context [slice ?l ?i ?j ≫= ?f] =>
      rewrite (slice_Ok l i j) by lia; rewrite res_bind_Ok
  end.

Create HintDb rc.
#[export] Hint Resolve len_nonneg : rc.

(** Closes [x ∉ l] for a concrete list. *)
Ltac not_in :=
  let H := fresh in
  intros H; apply list_elem_of_In in H; vm_compute in H; intuition discriminate.

(** ** Map iteration

    [range] over a Go map visits every entry once, in an order that may differ
    from one execution to the next; the order of one execution is the
    parameter. *)
Class MapRange := {
  range : forall {V : Type}, gmap Z V -> list (Z * V);
  range_perm : forall {V : Type} (m : gmap Z V), range m ≡ₚ map_to_list m;
}.

Definition sorted_range : MapRange := {|
  range V m := map_to_list m;
  range_perm V m := Permutation_refl _;
|}.
