(* ===== verification/Errors.v ===== *)
(** * Error values

    The sentinel errors the components return and compare:
    [core/pkg/errors/errors.go], the errors of [core/codec/codec.go] and the
    standard library's [io] errors.  Go compares them by identity; each
    sentinel is a constructor here.  Also the reader over given bytes and the writer that
    takes a part of each chunk, with which the scripts of the buffers are run. *)

From S2P Require Import Prelude.

(** The sentinel errors of [core/pkg/errors/errors.go]. *)
Inductive engine_error : Set :=
  | ErrEngineShutdown
  | ErrEngineInShutdown
  | ErrAcceptSocket
  | ErrUnsupportedProtocol
  | ErrUnsupportedTCPProtocol
  | ErrUnsupportedOp
  | ErrNegativeSize
  | ErrIncompletePacket
  | ErrInvalidFixedLength
  | ErrUnexpectedEOF
  | ErrUnsupportedLength
  | ErrTooLessLength.

(** The sentinel errors of [core/codec/codec.go]. *)
Inductive codec_error : Set :=
  | ErrCRNotFound
  | ErrLFNotFound
  | BadLine
  | ShortLine
  | EmptyLine
  | Continue
  | MovedOrAsk
  | AddrNotFound
  | UnKnownProxyPool
  | UnKnownProxyPoolConn
  | ErrInvalidResp
  | ErrInvalidInitializing.

(** Errors of the standard library packages the code returns as they are. *)
Inductive io_error : Set :=
  | EOF
  | ErrShortWrite
  | ErrShortBuffer
  | ErrSyntax
  | ErrRange.

(** A Go [error] value.  [EText] is an error made on the spot with
    [errors.New], which compares equal to no sentinel; [EReply] is a value of
    the type [codec.Error], whose string is an RESP error line. *)
Inductive error : Set :=
  | EEngine (e : engine_error)
  | ECodec (e : codec_error)
  | EIo (e : io_error)
  | ErrIsEmpty
  | ESys (errno : Z)
  | EReply (e : bytes)
  | EText (s : bytes).

#[export] Instance engine_error_eq_dec : EqDecision engine_error.
Proof. solve_decision. Defined.
#[export] Instance codec_error_eq_dec : EqDecision codec_error.
Proof. solve_decision. Defined.
#[export] Instance io_error_eq_dec : EqDecision io_error.
Proof. solve_decision. Defined.
#[export] Instance error_eq_dec : EqDecision error.
Proof. solve_decision. Defined.

(** ** Readers and writers in memory

    What the buffers read from and write to in scripts of operations. *)

(** A reader over the bytes [s], as [bytes.Reader]: it fills the destination while
    it has bytes, and reports the end of the input after that. *)
Definition mem_reader (s : bytes) (n : Z) : bytes * (Z * bytes * option error) :=
  match s with
  | [] => ([], (0, [], Some (EIo EOF)))
  | _ => (drop (Z.to_nat n) s, (len (take (Z.to_nat n) s), take (Z.to_nat n) s, None))
  end.

(** A writer that takes at most [k] bytes of each chunk, records them, and answers
    with [err]. *)
Definition give_writer (k : Z) (err : option error) (s c : bytes) : bytes * (Z * option error) :=
  let m := Z.max 0 (Z.min k (len c)) in (s ++ subl c 0 m, (m, err)).
