(* ===== verification/Toolkit.v ===== *)
(** * Integer and formatting helpers

    [core/internal/toolkit/math.go] (powers of two by bit smearing on 64-bit
    integers) and [core/pkg/utils/utils.go] (log formatting). *)

From S2P Require Import Prelude.

(** ** [math.go] *)

(** [bitsize] is 64 on the platforms the proxy is built for. *)
Definition bitsize : Z := 64.
Definition maxintHeadBit : Z := Z.shiftl 1 (bitsize - 2).

Definition IsPowerOfTwo (n : Z) : bool := Z.land n (wrap64 (n - 1)) =? 0.

Definition fillBits (n : Z) : Z :=
  let n := Z.lor n (Z.shiftr n 1) in
  let n := Z.lor n (Z.shiftr n 2) in
  let n := Z.lor n (Z.shiftr n 4) in
  let n := Z.lor n (Z.shiftr n 8) in
  let n := Z.lor n (Z.shiftr n 16) in
  Z.lor n (Z.shiftr n 32).

Definition CeilToPowerOfTwo (n : Z) : res Z :=
  if negb (Z.land n maxintHeadBit =? 0) && (maxintHeadBit <? n) then Panic
  else if n <=? 2 then Ok 2
  else
    let n := wrap64 (n - 1) in
    let n := fillBits n in
    Ok (wrap64 (n + 1)).

Definition FloorToPowerOfTwo (n : Z) : Z :=
  if n <=? 2 then 2
  else
    let n := fillBits n in
    let n := Z.shiftr n 1 in
    wrap64 (n + 1).

(** [smeared n m w]: bit [i] of [m] is set exactly when some bit of [n] in
    the window [i, i + w) is. *)
Definition smeared (n m w : Z) : Prop :=
  forall i, 0 <= i ->
    Z.testbit m i = true <-> exists j, i <= j < i + w /\ Z.testbit n j = true.

Lemma smeared_refl n : smeared n n 1.
Proof.
  intros i Hi. split.
  - intros H. exists i. split; [lia|done].
  - intros (j & Hj & H). by replace i with j by lia.
Qed.

Lemma smeared_step n m w : 0 < w -> smeared n m w -> smeared n (Z.lor m (Z.shiftr m w)) (2 * w).
Proof.
  intros Hw Hs i Hi. rewrite Z.lor_spec, Z.shiftr_spec, orb_true_iff by lia.
  rewrite (Hs i), (Hs (i + w)) by lia. split.
  - intros [(j & Hj & H)|(j & Hj & H)]; exists j; split; done || lia.
  - intros (j & Hj & H). destruct (decide (j < i + w)).
    + left. exists j. split; [lia|done].
    + right. exists j. split; [lia|done].
Qed.

Lemma fillBits_smeared n : smeared n (fillBits n) 64.
Proof.
  unfold fillBits. apply (smeared_step _ _ 32); [lia|].
  apply (smeared_step _ _ 16); [lia|]. apply (smeared_step _ _ 8); [lia|].
  apply (smeared_step _ _ 4); [lia|]. apply (smeared_step _ _ 2); [lia|].
  apply (smeared_step _ _ 1); [lia|]. apply smeared_refl.
Qed.

(** Smearing the bits of a positive 63-bit integer gives all ones below its
    leading bit. *)
Lemma fillBits_ones n : 0 < n < 2 ^ 63 -> fillBits n = 2 ^ (Z.log2 n + 1) - 1.
Proof.
  intros Hn. pose proof (Z.log2_spec n ltac:(lia)) as Hl.
  assert (0 <= Z.log2 n < 63) as Hb.
  { split; [apply Z.log2_nonneg|]. apply Z.log2_lt_pow2; lia. }
  replace (2 ^ (Z.log2 n + 1) - 1) with (Z.ones (Z.log2 n + 1)) by (rewrite Z.ones_equiv; lia).
  apply Z.bits_inj'. intros i Hi. apply eq_true_iff_eq.
  rewrite (fillBits_smeared n i Hi), Z.testbit_ones_nonneg, Z.ltb_lt by lia. split.
  - intros (j & Hj & H). destruct (decide (i < Z.log2 n + 1)); [done|].
    rewrite Z.bits_above_log2 in H by lia. done.
  - intros H. exists (Z.log2 n). split; [lia|]. apply Z.bit_log2. lia.
Qed.

(** Rounding up: the result is the least power of two that is at least [n]. *)
Lemma CeilToPowerOfTwo_spec n :
  2 < n <= 2 ^ 62 ->
  exists k, CeilToPowerOfTwo n = Ok (2 ^ k) /\ 0 <= k <= 62 /\ 2 ^ (k - 1) < n <= 2 ^ k.
Proof.
  intros Hn. exists (Z.log2 (n - 1) + 1).
  pose proof (Z.log2_spec (n - 1) ltac:(lia)) as Hl.
  assert (0 <= Z.log2 (n - 1) < 62).
  { split; [apply Z.log2_nonneg|]. apply Z.log2_lt_pow2; lia. }
  assert (2 ^ (Z.log2 (n - 1) + 1) <= 2 ^ 62) by (apply Z.pow_le_mono_r; lia).
  unfold CeilToPowerOfTwo. change maxintHeadBit with (2 ^ 62).
  replace (2 ^ 62 <? n) with false by lia. rewrite andb_false_r.
  replace (n <=? 2) with false by lia.
  rewrite (wrap64_id (n - 1)), fillBits_ones, wrap64_id by lia.
  split; [f_equal; lia|]. split; [lia|].
  replace (Z.log2 (n - 1) + 1 - 1) with (Z.log2 (n - 1)) by lia.
  change (Z.succ (Z.log2 (n - 1))) with (Z.log2 (n - 1) + 1) in Hl. lia.
Qed.

(** Rounding down: the result is the greatest power of two that is at most [n]. *)
Lemma FloorToPowerOfTwo_spec n :
  2 < n < 2 ^ 63 ->
  exists k, FloorToPowerOfTwo n = 2 ^ k /\ 0 < k /\ 2 ^ k <= n < 2 ^ (k + 1).
Proof.
  intros Hn. exists (Z.log2 n).
  pose proof (Z.log2_spec n ltac:(lia)) as Hl.
  assert (0 < Z.log2 n < 63) as Hb.
  { split; [|apply Z.log2_lt_pow2; lia]. apply Z.log2_pos. lia. }
  unfold FloorToPowerOfTwo. replace (n <=? 2) with false by lia.
  rewrite fillBits_ones by lia. rewrite Z.shiftr_div_pow2, Z.pow_1_r by lia.
  rewrite Z.pow_add_r in * by lia.
  replace ((2 ^ Z.log2 n * 2 ^ 1 - 1) / 2) with (2 ^ Z.log2 n - 1).
  2:{ apply Z.div_unique with (r := 1); lia. }
  rewrite wrap64_id by lia. rewrite Z.pow_succ_r in Hl by lia. lia.
Qed.

(** A positive integer passes the test exactly when it is a power of two. *)
Lemma IsPowerOfTwo_pow2 k : 0 <= k < 63 -> IsPowerOfTwo (2 ^ k) = true.
Proof.
  intros Hk. unfold IsPowerOfTwo.
  assert (0 < 2 ^ k < 2 ^ 63) by (split; [lia|apply Z.pow_lt_mono_r; lia]).
  rewrite wrap64_id by lia. apply Z.eqb_eq.
  replace (2 ^ k - 1) with (Z.ones k) by (rewrite Z.ones_equiv; lia).
  rewrite Z.land_ones, Z.mod_same; lia.
Qed.

(** ** [utils.go] *)

(** [FormatRedisRESPMessages]: CR and LF become dots in the log. *)
Definition FormatRedisRESPMessages (resp : bytes) : bytes :=
  map (fun v => if (v =? 13) || (v =? 10) then 46 else v) resp.

Definition FormatRedisIovRESPMessages (respList : list bytes) : bytes :=
  concat (map (fun resp => map (fun v => if (v =? 13) || (v =? 10) then 46 else v) resp) respList).
