(* ===== verification/Byteslice.v ===== *)
(** * The byte-slice pool

    [core/pkg/pool/byteslice/byteslice.go]: size classes of recycled arrays,
    handed out through hand-built slice headers.  The safety property is that
    the capacity written in such a header never exceeds the array behind it. *)

From S2P Require Import Prelude.

(** A Go slice header: the memory from its data pointer to the end of the
    underlying array, its length and its capacity. *)
Record gslice := GSlice { arr : bytes; slen : Z; scap : Z }.

(** The header stays within the memory it points to. *)
Definition gslice_ok (s : gslice) : Prop := 0 <= slen s <= scap s /\ scap s <= len (arr s).

(** The bytes a slice shows. *)
Definition visible (s : gslice) : bytes := subl (arr s) 0 (slen s).

(** [make([]byte, n)]. *)
Definition make_bytes (n : Z) : bytes := replicate (Z.to_nat n) 0.

Definition MaxInt32 : Z := 2 ^ 31 - 1.

(** [bits.Len32]: the number of bits needed to represent a 32-bit word. *)
Definition Len32 (n : Z) : Z := if n =? 0 then 0 else Z.log2 n + 1.

(** [index]: the size class of a 32-bit size. *)
Definition index_of (n : Z) : Z := Len32 (uwrap32 (n - 1)).

(** The arrays stored per size class ([pools [32]sync.Pool]). *)
Abbreviation Pool := (gmap Z (list bytes)).

(** [(p *Pool) Get].  A [sync.Pool] may hand out any stored item or none;
    [choice] is what it does in this call. *)
Definition Get (p : Pool) (choice : option nat) (size : Z) : gslice * Pool :=
  if size <=? 0 then (GSlice [] 0 0, p)
  else if MaxInt32 <? size then (GSlice (make_bytes size) size size, p)
  else
    let idx := index_of (uwrap32 size) in
    let stored := default [] (p !! idx) in
    match (i ← choice; stored !! i) with
    | None => (GSlice (make_bytes (Z.shiftl 1 idx)) size (Z.shiftl 1 idx), p)
    | Some a =>
        (GSlice a size (Z.shiftl 1 idx),
         <[idx := delete (default 0%nat choice) stored]> p)
    end.

(** [(p *Pool) Put]: a slice that did not come from [Get] goes to the class below. *)
Definition Put (p : Pool) (buf : gslice) : Pool :=
  let size := scap buf in
  if (size =? 0) || (MaxInt32 <? size) then p
  else
    let idx := index_of (uwrap32 size) in
    let idx := if negb (size =? Z.shiftl 1 idx) then uwrap32 (idx - 1) else idx in
    <[idx := arr buf :: default [] (p !! idx)]> p.

(** Every array of class [idx] has at least [2 ^ idx] bytes. *)
Definition pool_ok (p : Pool) : Prop :=
  forall idx l a, p !! idx = Some l -> a ∈ l -> 2 ^ idx <= len a.

Lemma index_of_spec n : 1 <= n < 2 ^ 31 ->
  0 <= index_of n <= 31 /\ n <= 2 ^ index_of n /\ (n <> 2 ^ index_of n -> 2 ^ (index_of n - 1) <= n).
Proof.
  intros Hn. unfold index_of, uwrap32. rewrite Z.mod_small by lia. unfold Len32. case_if.
  pose proof (Z.log2_spec (n - 1) ltac:(lia)). pose proof (Z.log2_nonneg (n - 1)).
  assert (Z.log2 (n - 1) < 31) by (apply Z.log2_lt_pow2; lia).
  replace (Z.log2 (n - 1) + 1 - 1) with (Z.log2 (n - 1)) by lia.
  replace (Z.log2 (n - 1) + 1) with (Z.succ (Z.log2 (n - 1))) by lia. lia.
Qed.

Lemma len_make_bytes n : 0 <= n -> len (make_bytes n) = n.
Proof. intros. unfold len, make_bytes. rewrite length_replicate. lia. Qed.

Lemma Get_safe p choice size s p' :
  pool_ok p -> Get p choice size = (s, p') ->
  gslice_ok s /\ (0 < size -> slen s = size) /\ pool_ok p'.
Proof.
  intros Hp. unfold Get. case_if.
  { intros [= <- <-]. unfold gslice_ok, len. simpl. split_and!; done || lia. }
  case_if.
  { intros [= <- <-]. unfold gslice_ok. simpl. rewrite len_make_bytes by lia.
    split_and!; done || lia. }
  unfold MaxInt32 in *. unfold uwrap32. rewrite Z.mod_small by lia.
  destruct (index_of_spec size) as (Hi & Hle & _); [lia|].
  rewrite Z.shiftl_1_l.
  destruct (choice ≫= _) as [a|] eqn:Ha; intros [= <- <-]; unfold gslice_ok; simpl.
  - destruct choice as [c|]; simpl in Ha; [|done].
    destruct (p !! index_of size) as [l|] eqn:Hl; simpl in Ha; [|done].
    assert (a ∈ l) as Hin by (apply list_elem_of_lookup; eauto).
    pose proof (Hp _ _ _ Hl Hin). simpl. split_and!; [lia..|].
    intros idx l' a' Hl' Ha'. destruct (decide (idx = index_of size)) as [->|Hne].
    + rewrite lookup_insert_eq in Hl'. simplify_eq.
      apply (Hp _ _ _ Hl). by eapply list_elem_of_delete_inv.
    + rewrite lookup_insert_ne in Hl' by done. eauto.
  - rewrite len_make_bytes by lia. split_and!; done || lia.
Qed.

Lemma Put_ok p s : pool_ok p -> gslice_ok s -> pool_ok (Put p s).
Proof.
  intros Hp [Hs Hc]. unfold Put. case_if; [done|]. apply orb_false_iff in Heqb as [? ?].
  unfold MaxInt32, uwrap32 in *. rewrite !(Z.mod_small (scap s)) by lia.
  destruct (index_of_spec (scap s)) as (Hi & Hle & Hge); [lia|].
  rewrite Z.shiftl_1_l. intros idx l a. case_if.
  - assert (index_of (scap s) <> 0).
    { intros E. rewrite E in *. simpl in *. lia. }
    rewrite Z.mod_small by lia.
    destruct (decide (idx = index_of (scap s) - 1)) as [->|Hne].
    + rewrite lookup_insert_eq. intros [= <-] [->|Ha]%elem_of_cons; [lia|].
      destruct (p !! _) eqn:E; simpl in Ha; [by eapply Hp|by apply elem_of_nil in Ha].
    + rewrite lookup_insert_ne by done. apply Hp.
  - destruct (decide (idx = index_of (scap s))) as [->|Hne].
    + rewrite lookup_insert_eq. intros [= <-] [->|Ha]%elem_of_cons; [lia|].
      destruct (p !! _) eqn:E; simpl in Ha; [by eapply Hp|by apply elem_of_nil in Ha].
    + rewrite lookup_insert_ne by done. apply Hp.
Qed.

(** ** What the pool promises to its clients

    A client asks for [n] bytes and gets [n] bytes of arbitrary content. *)
Class BytePool := {
  bsGet : Z -> bytes;
  bsGet_len : forall n, 0 < n -> len (bsGet n) = n;
}.

Lemma Get_visible p choice n : pool_ok p -> 0 < n -> len (visible (Get p choice n).1) = n.
Proof.
  intros Hp Hn. destruct (Get p choice n) as [s p'] eqn:E.
  destruct (Get_safe _ _ _ _ _ Hp E) as ([? ?] & Hl & _). simpl. unfold visible.
  rewrite len_subl; rewrite Hl in * by done; lia.
Qed.

(** The pool in any sound state is such an allocator. *)
#[export] Instance byteslice_pool (p : Pool) (choice : option nat) (Hp : pool_ok p) : BytePool := {|
  bsGet n := visible (Get p choice n).1;
  bsGet_len n := Get_visible p choice n Hp;
|}.

Lemma pool_ok_empty : pool_ok ∅.
Proof. intros idx l a H. by rewrite lookup_empty in H. Qed.

(** The allocator of a pool that holds nothing yet. *)
Definition empty_pool : BytePool := byteslice_pool ∅ None pool_ok_empty.

(** ** Strings without copying

    [core/internal/toolkit/byteconv.go] reinterprets headers: the string of a
    slice shares its bytes, and the slice of a string ends where the string does,
    so that it can be given to [Put]. *)
Definition BytesToString (b : gslice) : bytes := visible b.
Definition StringToBytes (s : bytes) : gslice := GSlice s (len s) (len s).

Lemma StringToBytes_ok s : gslice_ok (StringToBytes s) /\ BytesToString (StringToBytes s) = s.
Proof.
  pose proof (len_nonneg s). split; [unfold gslice_ok; simpl; lia|]. unfold BytesToString, visible. simpl. apply subl_full.
Qed.
