(* ===== verification/Ring.v ===== *)
(** * The ring buffer

    [core/pkg/buffer/ring/ring_buffer.go] and [ring_buffer_unix.go].  A
    circular byte buffer with read and write positions and an emptiness flag
    that disambiguates [r = w].  The abstraction is the FIFO sequence of
    buffered bytes ([contents]); every operation is shown to act on it as the
    queue operation its comment promises, without a bounds panic, outside the
    inputs named by [hazard], on which the code panics or loses its place.

    The scratch field [bs] (two slice headers for [readv]) carries no state
    and is not a field of the model. *)

From S2P Require Import Prelude Errors Toolkit Byteslice.

Definition MinRead : Z := 512.
Definition DefaultBufferSize : Z := 1024.
Definition bufferGrowThreshold : Z := 4 * 1024.

Record Buffer := mkBuffer {
  buf : bytes;
  size : Z;
  r : Z;         (* next position to read *)
  w : Z;         (* next position to write *)
  isEmpty : bool;
}.

Definition New (sz : Z) : res Buffer :=
  if sz =? 0 then Ok (mkBuffer [] 0 0 0 true)
  else
    sz ← CeilToPowerOfTwo sz;
    Ok (mkBuffer (make_bytes sz) sz 0 0 true).

Definition Reset (rb : Buffer) : Buffer := mkBuffer (buf rb) (size rb) 0 0 true.
Definition set_r (rb : Buffer) (x : Z) : Buffer :=
  mkBuffer (buf rb) (size rb) x (w rb) (isEmpty rb).
Definition set_w (rb : Buffer) (x : Z) : Buffer :=
  mkBuffer (buf rb) (size rb) (r rb) x (isEmpty rb).
Definition set_empty (rb : Buffer) (x : bool) : Buffer :=
  mkBuffer (buf rb) (size rb) (r rb) (w rb) x.
Definition set_buf (rb : Buffer) (b : bytes) : Buffer :=
  mkBuffer b (size rb) (r rb) (w rb) (isEmpty rb).

(** [peekAll]: head and tail parts of everything that is buffered. *)
Definition peekAll (rb : Buffer) : res (bytes * bytes) :=
  if isEmpty rb then Ok ([], [])
  else if r rb <? w rb then
    head ← slice (buf rb) (r rb) (w rb);
    Ok (head, [])
  else
    head ← slice (buf rb) (r rb) (len (buf rb));
    if negb (w rb =? 0) then
      tail ← slice (buf rb) 0 (w rb);
      Ok (head, tail)
    else Ok (head, []).

Definition Peek (rb : Buffer) (n : Z) : res (bytes * bytes) :=
  if isEmpty rb then Ok ([], [])
  else if n <=? 0 then peekAll rb
  else if r rb <? w rb then
    let m := w rb - r rb in
    let m := if n <? m then n else m in
    head ← slice (buf rb) (r rb) (r rb + m);
    Ok (head, [])
  else
    let m := size rb - r rb + w rb in
    let m := if n <? m then n else m in
    if r rb + m <=? size rb then
      head ← slice (buf rb) (r rb) (r rb + m);
      Ok (head, [])
    else
      let c1 := size rb - r rb in
      head ← slice (buf rb) (r rb) (len (buf rb));
      let c2 := m - c1 in
      tail ← slice (buf rb) 0 c2;
      Ok (head, tail).

Definition Buffered (rb : Buffer) : Z :=
  if r rb =? w rb then
    if isEmpty rb then 0 else size rb
  else if r rb <? w rb then w rb - r rb
  else size rb - r rb + w rb.

Definition Len (rb : Buffer) : Z := len (buf rb).
Definition Cap (rb : Buffer) : Z := size rb.

Definition Available (rb : Buffer) : Z :=
  if r rb =? w rb then
    if isEmpty rb then size rb else 0
  else if w rb <? r rb then r rb - w rb
  else size rb - w rb + r rb.

Definition IsFull (rb : Buffer) : bool := (r rb =? w rb) && negb (isEmpty rb).
Definition IsEmpty (rb : Buffer) : bool := isEmpty rb.

(** [a % b] of Go (truncated, panics on zero). *)
Definition gorem (a b : Z) : res Z := if b =? 0 then Panic else Ok (Z.rem a b).

Definition Discard (rb : Buffer) (n : Z) : res (Z * Buffer) :=
  if n <=? 0 then Ok (0, rb)
  else
    let discarded := Buffered rb in
    if n <? discarded then
      r' ← gorem (r rb + n) (size rb);
      Ok (n, set_r rb r')
    else Ok (discarded, Reset rb).

(** [Read]: fills [p] and returns it with the count, the error and the buffer. *)
Definition Read (rb : Buffer) (p : bytes) : res (bytes * Z * option error * Buffer) :=
  if len p =? 0 then Ok (p, 0, None, rb)
  else if isEmpty rb then Ok (p, 0, Some ErrIsEmpty, rb)
  else if r rb <? w rb then
    let n := w rb - r rb in
    let n := if len p <? n then len p else n in
    chunk ← slice (buf rb) (r rb) (r rb + n);
    let p := copy_at p 0 chunk in
    let rb := set_r rb (r rb + n) in
    let rb := if r rb =? w rb then Reset rb else rb in
    Ok (p, n, None, rb)
  else
    let n := size rb - r rb + w rb in
    let n := if len p <? n then len p else n in
    p ← (if r rb + n <=? size rb then
           chunk ← slice (buf rb) (r rb) (r rb + n);
           Ok (copy_at p 0 chunk)
         else
           let c1 := size rb - r rb in
           chunk ← slice (buf rb) (r rb) (len (buf rb));
           let p := copy_at p 0 chunk in
           let c2 := n - c1 in
           chunk ← slice (buf rb) 0 c2;
           if c1 <=? len p then Ok (copy_at p c1 chunk) else Panic);
    r' ← gorem (r rb + n) (size rb);
    let rb := set_r rb r' in
    let rb := if r rb =? w rb then Reset rb else rb in
    Ok (p, n, None, rb).

Definition ReadByte (rb : Buffer) : res (Z * option error * Buffer) :=
  if isEmpty rb then Ok (0, Some ErrIsEmpty, rb)
  else
    b ← index (buf rb) (r rb);
    let rb := set_r rb (r rb + 1) in
    let rb := if r rb =? size rb then set_r rb 0 else rb in
    let rb := if r rb =? w rb then Reset rb else rb in
    Ok (b, None, rb).

(** The loop of [grow] that adds a quarter until [newCap] is reached. *)
Fixpoint grow_loop (fuel : nat) (n newCap : Z) : res Z :=
  match fuel with
  | O => OutOfFuel
  | S fuel =>
      if (0 <? n) && (n <? newCap) then grow_loop fuel (wrap64 (n + Z.quot n 4)) newCap
      else Ok n
  end.

(** The capacity policy of [grow].  From [bufferGrowThreshold] on, four
    rounds of the quarter loop double the size, which bounds [newCap]. *)
Definition grow_cap (n newCap : Z) : res Z :=
  if n =? 0 then
    if newCap <=? DefaultBufferSize then Ok DefaultBufferSize
    else CeilToPowerOfTwo newCap
  else
    let doubleCap := wrap64 (n + n) in
    if newCap <=? doubleCap then
      if n <? bufferGrowThreshold then Ok doubleCap
      else
        n ← grow_loop 6 n newCap;
        if 0 <? n then Ok n else Ok newCap
    else Ok newCap.

Section alloc.
Context `{BytePool}.

(** [grow]: the old buffer goes back to the pool, which does not touch the
    new one. *)
Definition grow (rb : Buffer) (newCap : Z) : res Buffer :=
  newCap ← grow_cap (size rb) newCap;
  let newBuf := bsGet newCap in
  let oldLen := Buffered rb in
  '(newBuf, _, _, rb) ← Read rb newBuf;
  let rb := mkBuffer newBuf newCap 0 oldLen (isEmpty rb) in
  Ok (if 0 <? w rb then set_empty rb false else rb).

Definition Write (rb : Buffer) (p : bytes) : res (Z * Buffer) :=
  let n := len p in
  if n =? 0 then Ok (n, rb)
  else
    let free := Available rb in
    rb ← (if free <? n then grow rb (size rb + n - free) else Ok rb);
    rb ← (if r rb <=? w rb then
            let c1 := size rb - w rb in
            if n <=? c1 then
              _ ← slice (buf rb) (w rb) (len (buf rb));
              Ok (set_w (set_buf rb (copy_at (buf rb) (w rb) p)) (w rb + n))
            else
              _ ← slice (buf rb) (w rb) (len (buf rb));
              p1 ← slice p 0 c1;
              let b := copy_at (buf rb) (w rb) p1 in
              let c2 := n - c1 in
              p2 ← slice p c1 (len p);
              Ok (set_w (set_buf rb (copy_at b 0 p2)) c2)
          else
            _ ← slice (buf rb) (w rb) (len (buf rb));
            Ok (set_w (set_buf rb (copy_at (buf rb) (w rb) p)) (w rb + n)));
    let rb := if w rb =? size rb then set_w rb 0 else rb in
    Ok (n, set_empty rb false).

Definition WriteByte (rb : Buffer) (c : Z) : res Buffer :=
  rb ← (if Available rb <? 1 then grow rb 1 else Ok rb);
  b ← set_index (buf rb) (w rb) c;
  let rb := set_w (set_buf rb b) (w rb + 1) in
  let rb := if w rb =? size rb then set_w rb 0 else rb in
  Ok (set_empty rb false).

Definition WriteString (rb : Buffer) (s : bytes) : res (Z * Buffer) := Write rb s.

(** [Bytes]: a copy of everything that is buffered. *)
Definition Bytes (rb : Buffer) : res bytes :=
  if isEmpty rb then Ok []
  else if w rb =? r rb then
    a ← slice (buf rb) (r rb) (len (buf rb));
    b ← slice (buf rb) 0 (w rb);
    Ok (a ++ b)
  else if r rb <? w rb then slice (buf rb) (r rb) (w rb)
  else
    a ← slice (buf rb) (r rb) (len (buf rb));
    if negb (w rb =? 0) then
      b ← slice (buf rb) 0 (w rb);
      Ok (a ++ b)
    else Ok a.

(** [CopyFromSocket]: [rd] is the socket, what a read of the given size returns
    ([readv] for the two-part case): the count, the bytes it stored, the error. *)
Definition CopyFromSocket (rb : Buffer) (rd : Z -> Z * bytes * option error)
    : res (Z * option error * Buffer) :=
  if r rb =? w rb then
    if negb (isEmpty rb) then
      rb ← grow rb (size rb + Z.quot (size rb) 2);
      dst ← slice (buf rb) (w rb) (len (buf rb));
      let '(n, data, err) := rd (len dst) in
      let rb := set_buf rb (copy_at (buf rb) (w rb) data) in
      if 0 <? n then
        w' ← gorem (w rb + n) (size rb); Ok (n, err, set_w rb w')
      else Ok (n, err, rb)
    else
      let rb := set_r (set_w rb 0) 0 in
      let '(n, data, err) := rd (len (buf rb)) in
      let rb := set_buf rb (copy_at (buf rb) 0 data) in
      if 0 <? n then
        w' ← gorem (w rb + n) (size rb); Ok (n, err, set_empty (set_w rb w') false)
      else Ok (n, err, rb)
  else if w rb <? r rb then
    dst ← slice (buf rb) (w rb) (r rb);
    let '(n, data, err) := rd (len dst) in
    let rb := set_buf rb (copy_at (buf rb) (w rb) data) in
    if 0 <? n then
      w' ← gorem (w rb + n) (size rb); Ok (n, err, set_w rb w')
    else Ok (n, err, rb)
  else
    d0 ← slice (buf rb) (w rb) (len (buf rb));
    d1 ← slice (buf rb) 0 (r rb);
    let '(n, data, err) := rd (len d0 + len d1) in
    let b := copy_at (buf rb) (w rb) (subl data 0 (len d0)) in
    let rb := set_buf rb (copy_at b 0 (subl data (len d0) (len data))) in
    if 0 <? n then
      w' ← gorem (w rb + n) (size rb); Ok (n, err, set_w rb w')
    else Ok (n, err, rb).

(** [Rewind]: moves the data to the front of the memory. *)
Definition Rewind (rb : Buffer) : res (Z * Buffer) :=
  if IsEmpty rb then Ok (0, Reset rb)
  else if w rb =? 0 then
    if r rb <? size rb - r rb then
      rb ← grow rb (size rb + size rb - r rb);
      Ok (size rb - r rb, rb)
    else
      src ← slice (buf rb) (r rb) (len (buf rb));
      let n := Z.min (len (buf rb)) (len src) in
      Ok (n, mkBuffer (copy_at (buf rb) 0 src) (size rb) 0 n (isEmpty rb))
  else if size rb - w rb <? DefaultBufferSize then
    if r rb <? w rb - r rb then
      rb ← grow rb (size rb + w rb - r rb);
      Ok (w rb - r rb, rb)
    else
      src ← slice (buf rb) (r rb) (w rb);
      let n := Z.min (len (buf rb)) (len src) in
      Ok (n, mkBuffer (copy_at (buf rb) 0 src) (size rb) 0 n (isEmpty rb))
  else Ok (0, rb).
End alloc.

(** ** Well-formedness and the abstract queue *)

(** The buffered bytes, oldest first. *)
Definition contents (rb : Buffer) : bytes :=
  if isEmpty rb then []
  else if r rb <? w rb then subl (buf rb) (r rb) (w rb)
  else subl (buf rb) (r rb) (size rb) ++ subl (buf rb) 0 (w rb).

(** Sizes stay below this bound, so that the sums of the code do not wrap. *)
Definition max_size : Z := 2 ^ 60.

Record wf (rb : Buffer) : Prop := {
  wf_len : len (buf rb) = size rb;
  wf_size : 0 <= size rb <= max_size;
  wf_r : 0 <= r rb < Z.max 1 (size rb);
  wf_w : 0 <= w rb < Z.max 1 (size rb);
  wf_empty : isEmpty rb = true -> r rb = w rb;
  wf_nonempty : isEmpty rb = false -> 0 < size rb;
}.

Ltac ring_facts Hwf :=
  let H1 := fresh "Hlen" in let H2 := fresh "Hsize" in let H3 := fresh "Hr" in
  let H4 := fresh "Hw" in let H5 := fresh "Hemp" in let H6 := fresh "Hne" in
  destruct Hwf as [H1 H2 H3 H4 H5 H6]; unfold max_size in *.

Lemma len_contents rb : wf rb -> len (contents rb) = Buffered rb.
Proof.
  intros Hwf. ring_facts Hwf. unfold contents, Buffered.
  destruct (isEmpty rb) eqn:E.
  { rewrite Hemp by done. by rewrite Z.eqb_refl. }
  specialize (Hne eq_refl). case_if.
  - rewrite len_subl by lia. case_if. 
  - rewrite len_app, !len_subl by lia. repeat case_if.
Qed.

Lemma Buffered_bounds rb : wf rb -> 0 <= Buffered rb <= size rb.
Proof.
  intros Hwf. ring_facts Hwf. unfold Buffered. destruct (isEmpty rb) eqn:E; repeat case_if.
Qed.

Lemma Available_Buffered rb : wf rb -> Available rb = size rb - Buffered rb.
Proof.
  intros Hwf. ring_facts Hwf. unfold Available, Buffered. destruct (isEmpty rb) eqn:E; repeat case_if.
Qed.

Lemma Buffered_empty rb : wf rb -> isEmpty rb = true -> Buffered rb = 0.
Proof. intros Hwf E. ring_facts Hwf. unfold Buffered. rewrite E, Hemp by done. case_if. Qed.

Lemma Buffered_nonempty rb : wf rb -> isEmpty rb = false -> 0 < Buffered rb.
Proof.
  intros Hwf E. ring_facts Hwf. unfold Buffered. specialize (Hne E). rewrite E. repeat case_if.
Qed.

Lemma wf_Reset rb : wf rb -> wf (Reset rb).
Proof. intros Hwf. ring_facts Hwf. split; simpl; unfold max_size; lia || done. Qed.

Lemma contents_Reset rb : contents (Reset rb) = [].
Proof. reflexivity. Qed.

Lemma CeilToPowerOfTwo_bound sz : 0 < sz <= max_size ->
  exists c, CeilToPowerOfTwo sz = Ok c /\ sz <= c <= Z.min max_size (2 * sz) /\ 0 < c.
Proof.
  unfold max_size. intros Hsz. destruct (decide (sz <= 2)).
  { exists 2. unfold CeilToPowerOfTwo. change maxintHeadBit with (2 ^ 62).
    replace (2 ^ 62 <? sz) with false by lia. rewrite andb_false_r. case_if.
    split_and!; done || lia. }
  destruct (CeilToPowerOfTwo_spec sz) as (k & Hk & Hkr & Hle); [lia|].
  assert (2 ^ k = 2 * 2 ^ (k - 1)).
  { rewrite <- Z.pow_succ_r; [f_equal; lia|]. destruct (decide (k = 0)) as [->|]; lia. }
  assert (2 ^ k <= 2 ^ 60).
  { destruct (decide (k <= 60)); [apply Z.pow_le_mono_r; lia|].
    assert (2 ^ 60 <= 2 ^ (k - 1)) by (apply Z.pow_le_mono_r; lia). lia. }
  exists (2 ^ k). split_and!; done || lia.
Qed.

Lemma New_spec sz : 0 <= sz <= max_size ->
  exists rb, New sz = Ok rb /\ wf rb /\ contents rb = [] /\ sz <= size rb <= 2 * Z.max 1 sz.
Proof.
  unfold New. intros Hsz. case_if.
  { eexists. split; [done|]. split; [|split; [done|simpl; lia]].
    split; simpl; unfold max_size; try done; lia. }
  destruct (CeilToPowerOfTwo_bound sz) as (c & -> & Hc); [lia|].
  eexists. split; [done|]. split; [|split; [done|simpl; lia]].
  split; simpl; try done; rewrite ?len_make_bytes; lia.
Qed.

(** ** Reading side *)

(** Advancing the read position by [n < Buffered] drops [n] bytes. *)
Lemma contents_advance rb n r' :
  wf rb -> isEmpty rb = false -> 0 <= n < Buffered rb ->
  r' = (if r rb + n <? size rb then r rb + n else r rb + n - size rb) ->
  wf (set_r rb r') /\ contents (set_r rb r') = subl (contents rb) n (len (contents rb)).
Proof.
  intros Hwf E Hn Hr'. rewrite len_contents by done. ring_facts Hwf.
  specialize (Hne E). unfold Buffered in *. rewrite E in *. split.
  { split; simpl; unfold max_size; try done; try congruence. repeat case_if_in Hn; repeat case_if_in Hr'. }
  unfold contents. simpl. rewrite E. repeat case_if_in Hn; repeat case_if_in Hr'; subst r'.
  - replace (r rb <? w rb) with false by lia. replace (r rb + n <? w rb) with false by lia.
    rewrite (subl_app (subl _ _ _)), len_subl, !subl_subl by lia. f_equal; f_equal; lia.
  - replace (r rb <? w rb) with false by lia.
    destruct (r rb + n - size rb <? w rb) eqn:E2; [|lia].
    rewrite subl_app_r, len_subl, subl_subl by (rewrite ?len_subl; lia). f_equal; lia.
  - replace (r rb <? w rb) with true by lia. replace (r rb + n <? w rb) with true by lia.
    rewrite subl_subl by lia. f_equal; lia.
  - replace (r rb <? w rb) with false by lia. replace (r rb + n <? w rb) with false by lia.
    rewrite (subl_app (subl _ _ _)), len_subl, !subl_subl by lia. f_equal; f_equal; lia.
  - replace (r rb <? w rb) with false by lia.
    destruct (r rb + n - size rb <? w rb) eqn:E2; [|lia].
    rewrite subl_app_r, len_subl, subl_subl by (rewrite ?len_subl; lia). f_equal; lia.
Qed.

Lemma gorem_advance a n s :
  0 <= a < s -> 0 <= n <= s -> gorem (a + n) s = Ok (if a + n <? s then a + n else a + n - s).
Proof.
  intros. unfold gorem. replace (s =? 0) with false by lia. f_equal.
  rewrite Z.rem_mod_nonneg by lia. case_if.
  - apply Z.mod_small. lia.
  - symmetry. apply Z.mod_unique with (q := 1); lia.
Qed.

Lemma peekAll_spec rb :
  wf rb -> exists h t, peekAll rb = Ok (h, t) /\ h ++ t = contents rb.
Proof.
  intros Hwf. ring_facts Hwf. unfold peekAll, contents. destruct (isEmpty rb) eqn:E; [eauto|].
  specialize (Hne eq_refl). case_if.
  { slice_step. eexists _, _. split; [done|]. by rewrite app_nil_r. }
  slice_step. rewrite Hlen. case_if.
  - slice_step. eauto.
  - replace (w rb) with 0 by lia. eexists _, _. split; [done|]. by rewrite (subl_nil _ 0).
Qed.

Lemma ring_Peek_spec rb n :
  wf rb -> exists h t, Peek rb n = Ok (h, t) /\
    h ++ t = if n <=? 0 then contents rb else subl (contents rb) 0 (Z.min n (Buffered rb)).
Proof.
  intros Hwf. unfold Peek. destruct (isEmpty rb) eqn:E.
  { eexists _, _. split; [done|]. unfold contents. rewrite E. case_if; [done|].
    by rewrite subl_nil by (rewrite Buffered_empty by done; lia). }
  case_if; [by apply peekAll_spec|].
  pose proof (len_contents rb Hwf) as Hc. pose proof (Buffered_nonempty rb Hwf E) as Hb.
  ring_facts Hwf. specialize (Hne E).
  unfold contents, Buffered in *. rewrite E in *. case_if.
  - replace (r rb =? w rb) with false in * by lia. rewrite slice_Ok by (case_if; lia).
    eexists _, _. split; [done|]. rewrite app_nil_r, subl_subl by lia. f_equal; repeat case_if; lia.
  - set (m := size rb - r rb + w rb) in *.
    assert ((if r rb =? w rb then size rb else m) = m) as Hm by (unfold m; case_if).
    rewrite Hm in *. replace (if n <? m then n else m) with (Z.min n m) by (case_if; lia).
    rewrite (subl_app (subl _ _ _)) by lia. rewrite len_subl by lia. case_if.
    + slice_step. eexists _, _. split; [done|].
      rewrite !subl_subl by lia. rewrite (subl_nil _ (0 + _)) by lia. do 2 f_equal; lia.
    + slice_step. slice_step. eexists _, _. split; [done|].
      rewrite !subl_subl by lia. f_equal; f_equal; lia.
Qed.

Lemma ring_Discard_spec rb n :
  wf rb -> exists rb',
    Discard rb n = Ok (Z.max 0 (Z.min n (Buffered rb)), rb') /\ wf rb' /\ size rb' = size rb /\
    contents rb' = subl (contents rb) (Z.max 0 (Z.min n (Buffered rb))) (len (contents rb)).
Proof.
  intros Hwf. pose proof (Buffered_bounds rb Hwf) as Hb. unfold Discard. case_if.
  { exists rb. replace (Z.max 0 _) with 0 by lia. by rewrite subl_full. }
  case_if.
  - destruct (isEmpty rb) eqn:E; [rewrite Buffered_empty in *; done || lia|].
    pose proof (wf_nonempty rb Hwf E). pose proof (wf_r rb Hwf).
    rewrite gorem_advance by lia. simpl.
    destruct (contents_advance rb n _ Hwf E ltac:(lia) eq_refl) as [Hw' Hc'].
    eexists. split; [repeat f_equal; lia|]. split; [done|]. split; [done|].
    rewrite Hc'. f_equal. lia.
  - exists (Reset rb). split; [repeat f_equal; lia|]. split; [by apply wf_Reset|].
    split; [done|]. rewrite len_contents, contents_Reset, subl_nil; done || lia.
Qed.

(** Writing a chunk over the start of the destination of [Read]. *)
Lemma copy_at_0 (p c : bytes) : len c <= len p -> copy_at p 0 c = c ++ subl p (len c) (len p).
Proof. intros. rewrite copy_at_fits by lia. by rewrite (subl_nil _ 0), app_nil_l by lia. Qed.

Lemma copy_at_two (p a b : bytes) :
  len a + len b <= len p ->
  copy_at (copy_at p 0 a) (len a) b = copy_at p 0 (a ++ b).
Proof.
  intros. pose proof (len_nonneg a). pose proof (len_nonneg b).
  rewrite (copy_at_0 p a), (copy_at_0 p (a ++ b)) by (rewrite ?len_app; lia).
  rewrite copy_at_fits; [|lia|rewrite len_app, len_subl; lia].
  rewrite subl_head. rewrite <- app_assoc. do 2 f_equal.
  rewrite subl_app_r by lia. rewrite !len_app, len_subl by lia.
  rewrite subl_subl by lia. f_equal; lia.
Qed.

(** Emptying the ring or advancing by [n], in one statement. *)
Lemma advance_or_reset rb n r' :
  wf rb -> isEmpty rb = false -> 0 < n <= Buffered rb ->
  r' = (if r rb + n <? size rb then r rb + n else r rb + n - size rb) ->
  let rb' := if r' =? w rb then Reset (set_r rb r') else set_r rb r' in
  wf rb' /\ size rb' = size rb /\ contents rb' = subl (contents rb) n (len (contents rb)).
Proof.
  intros Hwf E Hn Hr'. destruct (decide (n = Buffered rb)) as [->|].
  - assert (r' = w rb) as ->.
    { ring_facts Hwf. specialize (Hne E). unfold Buffered in *. rewrite E in *.
      repeat case_if_in Hn; repeat case_if_in Hr'. }
    rewrite Z.eqb_refl. simpl. split; [|split; [done|]].
    + ring_facts Hwf. split; simpl; unfold max_size; done || lia.
    + rewrite len_contents, subl_nil by done || lia. done.
  - destruct (contents_advance rb n r' Hwf E) as [Hw' Hc']; [lia|done|].
    replace (r' =? w rb) with false; [done|].
    ring_facts Hwf. specialize (Hne E). unfold Buffered in *. rewrite E in *.
    repeat case_if_in Hn; repeat case_if_in Hr'.
Qed.

Lemma ring_Read_spec rb p :
  wf rb -> isEmpty rb = false -> 0 < len p ->
  let n := Z.min (len p) (Buffered rb) in
  exists rb', Read rb p = Ok (copy_at p 0 (subl (contents rb) 0 n), n, None, rb') /\
    wf rb' /\ size rb' = size rb /\ contents rb' = subl (contents rb) n (len (contents rb)).
Proof.
  intros Hwf E Hp n. pose proof (Buffered_nonempty rb Hwf E) as Hb.
  pose proof (advance_or_reset rb n _ Hwf E ltac:(lia) eq_refl) as Hadv.
  pose proof (Buffered_bounds rb Hwf) as Hbs.
  ring_facts Hwf. specialize (Hne E). unfold Read. rewrite E.
  replace (len p =? 0) with false by lia. case_if.
  - assert (Buffered rb = w rb - r rb) as HB by (unfold Buffered; rewrite E; repeat case_if).
    replace (if len p <? w rb - r rb then len p else w rb - r rb) with n by (case_if; lia).
    slice_step. simpl. replace (r rb + n <? size rb) with true in Hadv by lia. simpl in Hadv.
    eexists. split; [|exact Hadv]. do 5 f_equal. unfold contents. rewrite E.
    replace (r rb <? w rb) with true. rewrite subl_subl by lia. f_equal; lia.
  - assert (Buffered rb = size rb - r rb + w rb) as HB by (unfold Buffered; rewrite E; repeat case_if).
    replace (if len p <? _ then len p else _) with n by (case_if; lia).
    rewrite gorem_advance by lia.
    assert (contents rb = subl (buf rb) (r rb) (size rb) ++ subl (buf rb) 0 (w rb)) as Hc.
    { unfold contents. rewrite E. by replace (r rb <? w rb) with false. }
    destruct (r rb + n <=? size rb) eqn:E2.
    + slice_step. simpl. eexists. split; [|exact Hadv]. do 5 f_equal.
      rewrite Hc, subl_app_l, subl_subl by (rewrite ?len_subl; lia). f_equal; lia.
    + do 2 slice_step. rewrite len_copy_at by lia.
      replace (size rb - r rb <=? len p) with true by lia. simpl.
      eexists. split; [|exact Hadv]. do 4 f_equal.
      replace (size rb - r rb) with (len (subl (buf rb) (r rb) (len (buf rb)))) at 1
        by (rewrite len_subl; lia).
      rewrite copy_at_two by (rewrite !len_subl; lia). f_equal.
      rewrite Hc, (subl_app (subl _ _ _)), len_subl, !subl_subl by lia. f_equal; f_equal; lia.
Qed.

Lemma Read_size rb p d n err rb' : Read rb p = Ok (d, n, err, rb') -> size rb' = size rb.
Proof.
  assert (forall rb0 x, size (if r (set_r rb0 x) =? w (set_r rb0 x) then Reset (set_r rb0 x) else set_r rb0 x) = size rb0) as Hs.
  { intros rb0 x. by case_if. }
  unfold Read. case_if; [by intros [= _ _ _ <-]|]. destruct (isEmpty rb); [by intros [= _ _ _ <-]|]. case_if.
  - intros (c & _ & Hr)%res_bind_inv. injection Hr as _ _ _ <-. apply Hs.
  - intros (c & _ & Hr)%res_bind_inv. apply res_bind_inv in Hr as (r' & _ & Hr). injection Hr as _ _ _ <-. apply Hs.
Qed.

Lemma ReadByte_spec rb :
  wf rb -> isEmpty rb = false -> exists b rest rb',
    contents rb = b :: rest /\ ReadByte rb = Ok (b, None, rb') /\
    wf rb' /\ size rb' = size rb /\ contents rb' = rest.
Proof.
  intros Hwf E. pose proof (Buffered_nonempty rb Hwf E) as Hb.
  pose proof (advance_or_reset rb 1 _ Hwf E ltac:(lia) eq_refl) as Hadv.
  pose proof (len_contents rb Hwf) as Hlc.
  ring_facts Hwf. specialize (Hne E). unfold ReadByte. rewrite E.
  destruct (subl_lookup_cons (buf rb) (r rb) (size rb)) as (b & Hb1 & Hb2); [lia..|].
  exists b, (subl (contents rb) 1 (len (contents rb))). rewrite (index_Ok _ _ b) by (done || lia).
  simpl. eexists. split; [|split; [reflexivity|]].
  - assert (exists l, contents rb = b :: l) as [l Hl].
    { unfold contents. rewrite E. case_if.
      - destruct (subl_lookup_cons (buf rb) (r rb) (w rb)) as (b' & Hb1' & ->); [lia..|].
        simplify_eq. eauto.
      - rewrite Hb2. simpl. eauto. }
    rewrite Hl. f_equal. symmetry. exact (subl_tail [b] l).
  - destruct (r rb + 1 =? size rb) eqn:E1; simpl.
    + replace (r rb + 1 <? size rb) with false in Hadv by lia.
      replace (r rb + 1 - size rb) with 0 in Hadv by lia. exact Hadv.
    + replace (r rb + 1 <? size rb) with true in Hadv by lia. exact Hadv.
Qed.

Lemma Bytes_spec rb : wf rb -> Bytes rb = Ok (contents rb).
Proof.
  intros Hwf. ring_facts Hwf. unfold Bytes, contents. destruct (isEmpty rb) eqn:E; [done|].
  specialize (Hne eq_refl). case_if.
  { replace (r rb <? w rb) with false by lia. do 2 slice_step. by rewrite Hlen. }
  case_if; [by rewrite slice_Ok by lia|]. slice_step. rewrite Hlen. case_if.
  - by slice_step.
  - replace (w rb) with 0 by lia. by rewrite (subl_nil _ 0), app_nil_r by lia.
Qed.

(** ** Growing *)

(** One round of the loop: from [bufferGrowThreshold] on a quarter is at
    least 1024 bytes. *)
Lemma grow_step n : 4096 <= n <= max_size ->
  wrap64 (n + Z.quot n 4) = n + n / 4 /\ 5 * n - 3 <= 4 * (n + n / 4) <= 5 * n.
Proof.
  unfold max_size. intros Hn. rewrite Z.quot_div_nonneg by lia.
  pose proof (Z.div_mod n 4 ltac:(lia)). pose proof (Z.mod_pos_bound n 4 ltac:(lia)).
  rewrite wrap64_id by lia. lia.
Qed.

(** The loop ends with a capacity between the request and the bound, and the
    fuel it is given is enough: [k] rounds multiply by [(5/4)^k] up to the
    truncation. *)
Lemma grow_loop_spec fuel n newCap :
  4096 <= n <= max_size -> newCap <= 2 ^ 59 ->
  4 ^ Z.of_nat fuel * newCap < 5 ^ Z.of_nat fuel * (n - 4) ->
  exists c, grow_loop (S fuel) n newCap = Ok c /\ newCap <= c <= max_size /\
    n <= c <= Z.max n (2 * newCap).
Proof.
  revert n. induction fuel as [|fuel IH]; intros n Hn Hcap Hf.
  { change (4 ^ Z.of_nat 0) with 1 in Hf. change (5 ^ Z.of_nat 0) with 1 in Hf.
    simpl. case_if. exists n. split_and!; done || lia. }
  change (grow_loop (S (S fuel)) n newCap) with
    (if (0 <? n) && (n <? newCap) then grow_loop (S fuel) (wrap64 (n + Z.quot n 4)) newCap
     else Ok n).
  destruct ((0 <? n) && (n <? newCap)) eqn:E.
  2:{ exists n. split_and!; [done|lia..]. }
  destruct (grow_step n Hn) as [-> Hs]. unfold max_size in *.
  rewrite Nat2Z.inj_succ, !Z.pow_succ_r in Hf by lia.
  assert (0 < 5 ^ Z.of_nat fuel) by lia. assert (0 < 4 ^ Z.of_nat fuel) by lia.
  destruct (IH (n + n / 4)) as (c & Hc & ? & ?); [lia|lia| |exists c; split_and!; done || lia].
  nia.
Qed.

Lemma grow_cap_spec n newCap :
  0 <= n <= max_size -> 0 < newCap <= 2 ^ 59 ->
  exists c, grow_cap n newCap = Ok c /\ newCap <= c <= max_size /\
    n <= c <= Z.max n (Z.max 8192 (2 * newCap)) /\
    (n < bufferGrowThreshold -> n < c).
Proof.
  unfold grow_cap, bufferGrowThreshold, DefaultBufferSize. intros Hn Hc.
  pose proof Hn as Hn'. unfold max_size in Hn'. case_if.
  { case_if; [exists 1024; unfold max_size; split_and!; done || lia|].
    destruct (CeilToPowerOfTwo_bound newCap) as (c & -> & Hc'); [unfold max_size; lia|].
    exists c. split_and!; done || lia. }
  rewrite (wrap64_id (n + n)) by lia. case_if.
  2:{ exists newCap. unfold max_size. split_and!; done || lia. }
  case_if.
  { exists (n + n). unfold max_size. split_and!; done || lia. }
  destruct (grow_loop_spec 5 n newCap) as (c & -> & ? & ?); [lia|lia| |].
  { change (4 ^ Z.of_nat 5) with 1024. change (5 ^ Z.of_nat 5) with 3125. lia. }
  simpl. replace (0 <? c) with true by lia. exists c. split_and!; done || lia.
Qed.

Section grow_write.
Context `{BytePool}.

(** Growing keeps the contents and moves them to the front.  When the new
    capacity exceeds what is buffered, the result is well formed. *)
Lemma grow_spec rb newCap :
  wf rb -> 0 < newCap <= 2 ^ 59 -> Buffered rb < newCap \/ size rb < bufferGrowThreshold ->
  exists rb', grow rb newCap = Ok rb' /\ wf rb' /\ contents rb' = contents rb /\
    newCap <= size rb' <= Z.max (size rb) (Z.max 8192 (2 * newCap)) /\
    r rb' = 0 /\ w rb' = Buffered rb.
Proof.
  intros Hwf Hcap Hb. pose proof (Buffered_bounds rb Hwf) as Hbs.
  destruct (grow_cap_spec (size rb) newCap) as (c & Hc & Hcc & Hsz & Hlt);
    [apply Hwf|done|].
  unfold grow. rewrite Hc. simpl.
  pose proof (bsGet_len c ltac:(lia)) as Hg.
  assert (Buffered rb < c) as Hbc by (destruct Hb; lia). destruct (isEmpty rb) eqn:E.
  - pose proof (Buffered_empty rb Hwf E) as HB. unfold Read. rewrite E.
    replace (len (bsGet c) =? 0) with false by lia. simpl. rewrite HB. simpl.
    eexists. split; [done|]. unfold contents. simpl. rewrite E.
    split_and!; try done; try lia. split; simpl; try congruence; lia.
  - pose proof (Buffered_nonempty rb Hwf E) as HB.
    assert (0 < len (bsGet c)) as Hg0 by lia.
    destruct (ring_Read_spec rb (bsGet c) Hwf E Hg0) as (rb' & -> & _).
    rewrite Hg. rewrite Z.min_r by lia. simpl. replace (0 <? Buffered rb) with true by lia.
    pose proof (len_contents rb Hwf) as Hlc.
    replace (subl (contents rb) 0 (Buffered rb)) with (contents rb)
      by (by rewrite <- Hlc, subl_full).
    assert (len (copy_at (bsGet c) 0 (contents rb)) = c) as Hl
      by (rewrite len_copy_at; lia).
    eexists. split; [done|]. simpl. split_and!; try done; try lia.
    + split; simpl; try done; lia.
    + unfold contents at 1. simpl. replace (0 <? Buffered rb) with true by lia.
      rewrite <- Hlc. apply (copy_at_within _ _ 0); lia.
Qed.

(** Storing [p] behind the contents, with room for it. *)
Lemma contents_store rb p b :
  wf rb -> 0 < len p <= Available rb -> len b = size rb ->
  (forall i j, 0 <= i <= j -> j <= size rb ->
     (if r rb <=? w rb then r rb <= i /\ j <= w rb
      else j <= w rb \/ r rb <= i) -> isEmpty rb = false -> subl b i j = subl (buf rb) i j) ->
  (if w rb + len p <=? size rb then subl b (w rb) (w rb + len p) = p
   else subl b (w rb) (size rb) ++ subl b 0 (w rb + len p - size rb) = p) ->
  let rb' := mkBuffer b (size rb) (r rb)
    (if w rb + len p <? size rb then w rb + len p else w rb + len p - size rb) false in
  wf rb' /\ contents rb' = contents rb ++ p.
Proof.
  intros Hwf Hp Hlb Hkeep Hnew rb'. ring_facts Hwf.
  assert (0 < size rb) as Hpos.
  { unfold Available in Hp. repeat case_if_in Hp. }
  split.
  { subst rb'. split; simpl; unfold max_size; try done; [].
    unfold Available in Hp. repeat case_if; repeat case_if_in Hp; lia. }
  subst rb'. unfold contents at 1. simpl. unfold contents, Available in *.
  destruct (isEmpty rb) eqn:E.
  - specialize (Hemp eq_refl). rewrite Hemp in *. rewrite Z.eqb_refl in Hp. rewrite app_nil_l.
    destruct (w rb + len p <? size rb) eqn:E1.
    + replace (w rb + len p <=? size rb) with true in Hnew by lia. case_if. done.
    + replace (w rb <? w rb + len p - size rb) with false by lia.
      destruct (w rb + len p <=? size rb) eqn:E2; [|done].
      rewrite (subl_nil _ 0), app_nil_r by lia.
        replace (w rb + len p) with (size rb) in Hnew by lia. exact Hnew.
  - specialize (Hkeep) with (4 := eq_refl).
    destruct (r rb =? w rb) eqn:E0; [lia|].
    destruct (w rb <? r rb) eqn:E1.
    + replace (r rb <? w rb) with false by lia. replace (r rb <=? w rb) with false in Hkeep by lia.
      replace (w rb + len p <? size rb) with true by lia.
      replace (w rb + len p <=? size rb) with true in Hnew by lia.
      replace (r rb <? w rb + len p) with false by lia.
      rewrite <- (subl_split b 0 (w rb) (w rb + len p)), Hnew, app_assoc by lia.
      rewrite !Hkeep by lia. done.
    + replace (r rb <? w rb) with true by lia. replace (r rb <=? w rb) with true in Hkeep by lia.
      destruct (w rb + len p <? size rb) eqn:E2.
      * replace (w rb + len p <=? size rb) with true in Hnew by lia. case_if.
        rewrite <- (subl_split b (r rb) (w rb) (w rb + len p)), Hnew by lia.
        rewrite Hkeep by lia. done.
      * replace (r rb <? w rb + len p - size rb) with false by lia.
        rewrite <- (subl_split b (r rb) (w rb) (size rb)), (Hkeep (r rb) (w rb)) by lia.
        rewrite <- app_assoc. f_equal.
        destruct (w rb + len p <=? size rb) eqn:E3; [|done].
        rewrite (subl_nil _ 0), app_nil_r by lia.
        replace (w rb + len p) with (size rb) in Hnew by lia. exact Hnew.
Qed.
(** Storing [p] in one piece at the write position. *)
Lemma store_here rb p :
  wf rb -> 0 < len p <= Available rb -> (r rb <= w rb -> len p <= size rb - w rb) ->
  let rb' := mkBuffer (copy_at (buf rb) (w rb) p) (size rb) (r rb)
    (if w rb + len p <? size rb then w rb + len p else w rb + len p - size rb) false in
  wf rb' /\ contents rb' = contents rb ++ p.
Proof.
  intros Hwf Hp Hone. pose proof (wf_len rb Hwf). pose proof (wf_w rb Hwf). pose proof (wf_r rb Hwf).
  assert (Hav := Hp). unfold Available in Hav.
  assert (w rb + len p <= size rb) as Hfit by (destruct (decide (r rb <= w rb)); [lia|repeat case_if_in Hav]).
  apply contents_store; [done|done|rewrite len_copy_at; lia| |].
  - intros i j Hij Hj Hk Hne. case_if_in Hk; [apply copy_at_before; lia|].
    repeat case_if_in Hav; destruct Hk; first [apply copy_at_before; lia|apply copy_at_after; lia].
  - replace (w rb + len p <=? size rb) with true by lia. apply copy_at_within; lia.
Qed.

(** Storing [p] in two pieces, at the write position and at the start. *)
Lemma store_two rb p :
  wf rb -> 0 < len p <= Available rb -> r rb <= w rb -> size rb - w rb < len p ->
  let c1 := size rb - w rb in
  let rb' := mkBuffer (copy_at (copy_at (buf rb) (w rb) (subl p 0 c1)) 0 (subl p c1 (len p))) (size rb) (r rb)
    (w rb + len p - size rb) false in
  wf rb' /\ contents rb' = contents rb ++ p.
Proof.
  intros Hwf Hp Hrw Htwo c1. pose proof (contents_store rb p) as Hst. specialize Hst with (1 := Hwf) (2 := Hp).
  pose proof (wf_len rb Hwf) as Hlen. pose proof (wf_w rb Hwf) as Hw. pose proof (wf_r rb Hwf) as Hr.
  set (b := copy_at (buf rb) (w rb) (subl p 0 c1)). assert (Hav := Hp). unfold Available in Hav.
  assert (0 < size rb) as Hpos by (repeat case_if_in Hav).
  assert (len b = size rb) as Hlb by (subst b; rewrite len_copy_at; lia).
  assert (len (subl p c1 (len p)) = len p - c1) as Hl2 by (rewrite len_subl; lia).
  assert (len p - c1 <= r rb) as Hfit by (repeat case_if_in Hav).
  destruct (Hst (copy_at b 0 (subl p c1 (len p)))) as [Hw' Hc'].
  - rewrite len_copy_at; lia.
  - intros i j Hij Hj Hk Hne. replace (r rb <=? w rb) with true in Hk by lia.
    rewrite copy_at_after by lia. apply copy_at_before; lia.
  - replace (w rb + len p <=? size rb) with false by lia.
    rewrite copy_at_after by lia.
    replace (w rb + len p - size rb) with (0 + len (subl p c1 (len p))) by lia.
    rewrite copy_at_within by lia. subst b.
    replace (subl (copy_at _ _ _) (w rb) (size rb)) with (subl p 0 c1).
    { rewrite subl_split by lia. apply subl_full. }
    symmetry. replace (size rb) with (w rb + len (subl p 0 c1)) at 1 by (rewrite len_subl; lia).
    apply copy_at_within; rewrite ?len_subl; lia.
  - by replace (w rb + len p <? size rb) with false in * by lia.
Qed.
End grow_write.

Section writing.
Context `{BytePool}.

(** The part of [Write] behind the growth check. *)
Lemma Write_fits rb p :
  wf rb -> 0 < len p <= Available rb ->
  exists rb', Write rb p = Ok (len p, rb') /\ wf rb' /\ size rb' = size rb /\
    contents rb' = contents rb ++ p.
Proof.
  intros Hwf Hp. pose proof (store_here rb p Hwf Hp) as Hone. pose proof (store_two rb p Hwf Hp) as Htwo.
  unfold Write. replace (len p =? 0) with false by lia.
  replace (Available rb <? len p) with false by lia. rewrite res_bind_Ok.
  pose proof (wf_len rb Hwf) as Hlen. pose proof (wf_w rb Hwf) as Hw. pose proof (wf_r rb Hwf) as Hr.
  assert (0 < size rb) as Hpos.
  { pose proof (Buffered_bounds rb Hwf). pose proof (Available_Buffered rb Hwf). lia. }
  assert (Hav := Hp). unfold Available in Hav. case_if; [destruct (len p <=? size rb - w rb) eqn:E2|].
  - destruct Hone as [Hw' Hc']; [lia|]. slice_step. simpl. eexists. split; [reflexivity|].
    destruct (w rb + len p =? size rb) eqn:E3; simpl.
    + replace (w rb + len p <? size rb) with false in * by lia.
      replace (w rb + len p - size rb) with 0 in * by lia. done.
    + replace (w rb + len p <? size rb) with true in * by lia. done.
  - destruct Htwo as [Hw' Hc']; [lia|lia|]. repeat slice_step. simpl. eexists. split; [reflexivity|].
    replace (len p - (size rb - w rb)) with (w rb + len p - size rb) by lia.
    pose proof (wf_w _ Hw') as Hwb. simpl in Hwb. by replace (w rb + len p - size rb =? size rb) with false by lia.
  - destruct Hone as [Hw' Hc']; [lia|]. slice_step. simpl. eexists. split; [reflexivity|].
    assert (w rb + len p <= r rb) by (repeat case_if_in Hav).
    replace (w rb + len p =? size rb) with false by lia. simpl. by replace (w rb + len p <? size rb) with true in * by lia.
Qed.

(** Appending: [Write] never fails and adds [p] behind the contents, growing
    the memory when it has to. *)
Lemma ring_Write_spec rb p :
  wf rb -> size rb + len p <= 2 ^ 59 ->
  exists rb', Write rb p = Ok (len p, rb') /\ wf rb' /\ contents rb' = contents rb ++ p /\
    size rb <= size rb' <= Z.max (size rb) (Z.max 8192 (2 * (Buffered rb + len p))).
Proof.
  intros Hwf Hsz. destruct (decide (len p = 0)) as [Hp|Hp].
  { exists rb. unfold Write. rewrite Hp. simpl. apply len_0_nil in Hp as ->.
    rewrite app_nil_r. split_and!; done || lia. }
  pose proof (len_nonneg p). destruct (decide (len p <= Available rb)).
  { destruct (Write_fits rb p) as (rb' & ? & ? & ? & ?); [done|lia|]. exists rb'.
    split_and!; done || lia. }
  pose proof (Available_Buffered rb Hwf) as Ha. pose proof (Buffered_bounds rb Hwf) as Hb.
  destruct (grow_spec rb (size rb + len p - Available rb)) as (g & Hg & Hwfg & Hcg & Hs & Hr0 & Hw0);
    [done|lia|left; lia|].
  assert (Buffered g = Buffered rb) as Hbg.
  { rewrite <- !len_contents by done. by rewrite Hcg. }
  destruct (Write_fits g p) as (rb' & Hwr & Hwf' & Hs' & Hc'); [done| |].
  { rewrite Available_Buffered by done. lia. }
  exists rb'. rewrite Hcg in Hc'. split_and!; [|done|done|lia|lia].
  revert Hwr. unfold Write. replace (len p =? 0) with false by lia.
  replace (Available rb <? len p) with true by lia. rewrite Hg.
  replace (Available g <? len p) with false; [done|].
  rewrite Available_Buffered by done. lia.
Qed.

(** A ring without room that is not full has no memory yet. *)
Lemma not_full_room rb :
  wf rb -> IsFull rb = false -> (Available rb <? 1) = true -> Buffered rb < 1.
Proof.
  intros Hwf Hf Ha. ring_facts Hwf. unfold IsFull, Available, Buffered in *.
  destruct (isEmpty rb); repeat case_if_in Ha; simpl in *; repeat case_if.
Qed.

(** [WriteByte] appends one byte, except on a full buffer at or above
    [bufferGrowThreshold] (see [WriteByte_full_panics]). *)
Lemma WriteByte_spec rb c :
  wf rb -> IsFull rb = false \/ size rb < bufferGrowThreshold ->
  exists rb', WriteByte rb c = Ok rb' /\ wf rb' /\ contents rb' = contents rb ++ [c] /\
    size rb' <= Z.max (size rb) 8192.
Proof.
  intros Hwf Hfull.
  assert (exists g, (if Available rb <? 1 then grow rb 1 else Ok rb) = Ok g /\
            wf g /\ contents g = contents rb /\ 1 <= Available g /\ size g <= Z.max (size rb) 8192)
    as (g & Hg & Hwfg & Hcg & Hag & Hsg).
  { pose proof (Available_Buffered rb Hwf) as Ha. pose proof (Buffered_bounds rb Hwf).
    case_if; [|exists rb; split_and!; done || lia].
    assert (Buffered rb < 1 \/ size rb < bufferGrowThreshold) as Hd.
    { destruct Hfull as [Hf|Hf]; [left|by right]. by apply not_full_room. }
    destruct (grow_spec rb 1) as (g & Hg & ? & Hcg & Hs & ? & Hw); [done|lia|done|].
    exists g. split_and!; try done; [|lia].
    rewrite Available_Buffered by done. rewrite <- len_contents, Hcg, len_contents by done.
    pose proof (wf_w g ltac:(done)). lia. }
  unfold WriteByte. rewrite Hg. simpl.
  pose proof (wf_len g Hwfg) as Hlen. pose proof (wf_w g Hwfg) as Hw.
  assert (0 < size g).
  { pose proof (Available_Buffered g Hwfg). pose proof (Buffered_bounds g Hwfg). lia. }
  unfold set_index. replace ((0 <=? w g) && (w g <? len (buf g))) with true by lia. simpl.
  assert (<[Z.to_nat (w g) := c]> (buf g) = copy_at (buf g) (w g) [c]) as ->.
  { rewrite copy_at_fits by (change (len [c]) with 1; lia). change (len [c]) with 1.
    rewrite subl_take, subl_drop by lia. rewrite insert_take_drop by (unfold len in *; lia).
    do 3 f_equal. lia. }
  destruct (store_here g [c]) as [Hw' Hc']; change (len [c]) with 1 in *; [done|lia|lia|].
  rewrite Hcg in Hc'. eexists. split; [reflexivity|]. destruct (w g + 1 =? size g) eqn:E3; simpl.
  - replace (w g + 1 <? size g) with false in * by lia. replace (w g + 1 - size g) with 0 in * by lia. done.
  - replace (w g + 1 <? size g) with true in * by lia. done.
Qed.
End writing.

Lemma contents_nil rb : wf rb -> contents rb = [] <-> isEmpty rb = true.
Proof.
  intros Hwf. split; intros Hc.
  - destruct (isEmpty rb) eqn:E; [done|]. pose proof (Buffered_nonempty rb Hwf E) as Hb.
    rewrite <- len_contents, Hc in Hb by done. unfold len in Hb. simpl in Hb. lia.
  - unfold contents. by rewrite Hc.
Qed.

(** ** Reading from a socket, rewinding *)

Section socket.
Context `{BytePool}.

(** A socket with the bytes [avail] waiting, or one that fails with [e]: the
    count is -1 then, as of the system call. *)
Definition socket (avail : bytes) (e : option error) (n : Z) : Z * bytes * option error :=
  match e with
  | Some _ => (-1, [], e)
  | None => (len (take (Z.to_nat n) avail), take (Z.to_nat n) avail, None)
  end.

Lemma copy_at_nil (b : bytes) i : 0 <= i <= len b -> copy_at b i [] = b.
Proof.
  intros Hi. rewrite copy_at_fits by (change (len (@nil Z)) with 0; lia). change (len (@nil Z)) with 0.
  rewrite Z.add_0_r, app_nil_l, subl_split by lia. apply subl_full.
Qed.

Lemma subl_of_nil i j : subl (@nil Z) i j = [].
Proof. unfold subl. by rewrite drop_nil, take_nil. Qed.

Lemma set_buf_same rb : set_buf rb (buf rb) = rb.
Proof. by destruct rb. Qed.

(** A read of [room] bytes at the write position [w], in one piece. *)
Lemma read_here rb avail room :
  wf rb -> 0 < room <= Available rb -> (r rb <= w rb -> room <= size rb - w rb) ->
  let data := take (Z.to_nat room) avail in
  (data = [] -> isEmpty rb = false) ->
  exists w', gorem (w rb + len data) (size rb) = Ok w' /\
    let rb' := mkBuffer (copy_at (buf rb) (w rb) data) (size rb) (r rb) w' false in
    wf rb' /\ contents rb' = contents rb ++ data.
Proof.
  intros Hwf Hroom Hone data Hd. pose proof (wf_len rb Hwf). pose proof (wf_w rb Hwf). pose proof (wf_r rb Hwf).
  pose proof (Available_Buffered rb Hwf). pose proof (Buffered_bounds rb Hwf).
  assert (len data <= room) as Hl by (subst data; unfold len; rewrite length_take; lia).
  pose proof (len_nonneg data). rewrite gorem_advance by lia. eexists. split; [done|].
  destruct (decide (data = [])) as [Hn|Hn].
  - rewrite Hn, len_nil, Z.add_0_r, app_nil_r, copy_at_nil by lia. replace (w rb <? size rb) with true by lia.
    specialize (Hd Hn). by destruct rb; simpl in *; subst.
  - apply store_here; [done| |lia]. destruct data; [done|]. rewrite len_cons in *. pose proof (len_nonneg data). lia.
Qed.

(** The count of a read of [room] bytes. *)
Definition socket_count (room : Z) (avail : bytes) (e : option error) : Z :=
  match e with Some _ => -1 | None => Z.min room (len avail) end.

Lemma socket_data avail e room :
  0 <= room -> exists data, socket avail e room = (socket_count room avail e, data, e) /\
    data = take (Z.to_nat (socket_count room avail e)) avail /\ len data = Z.max 0 (socket_count room avail e).
Proof.
  intros Hr. unfold socket, socket_count. pose proof (len_nonneg avail). destruct e as [e|]; [by exists []|].
  assert (take (Z.to_nat room) avail = take (Z.to_nat (Z.min room (len avail))) avail) as Ht.
  { destruct (decide (room <= len avail)); [by rewrite Z.min_l|].
    rewrite !take_ge; [done|unfold len in *; lia..]. }
  eexists. rewrite Ht. assert (len (take (Z.to_nat (Z.min room (len avail))) avail) = Z.min room (len avail)) as Hl
    by (unfold len in *; rewrite length_take; lia).
  rewrite Hl. split; [done|]. split; [done|lia].
Qed.

(** A read into the memory at the write position, in one piece. *)
Lemma socket_here rb room avail e :
  wf rb -> isEmpty rb = false -> 0 < room <= Available rb -> (r rb <= w rb -> room <= size rb - w rb) ->
  exists rb', (let '(n, data, err) := socket avail e room in
     let rb := set_buf rb (copy_at (buf rb) (w rb) data) in
     if 0 <? n then w' ← gorem (w rb + n) (size rb); Ok (n, err, set_w rb w') else Ok (n, err, rb)) =
      Ok (socket_count room avail e, e, rb') /\ wf rb' /\ size rb' = size rb /\
    contents rb' = contents rb ++ take (Z.to_nat (socket_count room avail e)) avail.
Proof.
  intros Hwf He Hroom Hone. destruct (socket_data avail e room) as (data & -> & Hd & Hl); [lia|]. rewrite <- Hd.
  pose proof (wf_w rb Hwf). pose proof (wf_len rb Hwf). pose proof (wf_nonempty rb Hwf He).
  cbn [w set_buf size]. case_if.
  - pose proof (store_here rb data Hwf) as Hst. unfold socket_count in *. destruct e; [lia|]. pose proof (len_nonneg avail).
    pose proof (Available_Buffered rb Hwf). pose proof (Buffered_bounds rb Hwf).
    destruct Hst as [Hw' Hc]; [lia|lia|]. rewrite gorem_advance, res_bind_Ok by lia.
    eexists. split; [done|]. rewrite Hl, Z.max_r in Hw', Hc by lia. unfold set_w, set_buf. simpl. by rewrite He.
  - assert (data = []) as Hn by (apply len_0_nil; lia). rewrite Hn, copy_at_nil, set_buf_same, app_nil_r by lia. by eexists.
Qed.

(** The same, in two pieces. *)
Lemma socket_two rb avail e :
  wf rb -> r rb < w rb ->
  let c1 := size rb - w rb in
  exists rb', (let '(n, data, err) := socket avail e (c1 + r rb) in
     let b := copy_at (buf rb) (w rb) (subl data 0 c1) in
     let rb := set_buf rb (copy_at b 0 (subl data c1 (len data))) in
     if 0 <? n then w' ← gorem (w rb + n) (size rb); Ok (n, err, set_w rb w') else Ok (n, err, rb)) =
      Ok (socket_count (c1 + r rb) avail e, e, rb') /\ wf rb' /\ size rb' = size rb /\
    contents rb' = contents rb ++ take (Z.to_nat (socket_count (c1 + r rb) avail e)) avail.
Proof.
  intros Hwf Hrw c1. pose proof (wf_w rb Hwf). pose proof (wf_r rb Hwf). pose proof (wf_len rb Hwf).
  assert (isEmpty rb = false) as He by (destruct (isEmpty rb) eqn:E; [apply (wf_empty rb Hwf) in E; lia|done]).
  assert (Available rb = c1 + r rb) as HA by (unfold Available, c1; repeat case_if).
  destruct (socket_data avail e (c1 + r rb)) as (data & -> & Hd & Hl); [lia|]. rewrite <- Hd. pose proof (len_nonneg data).
  cbn [w set_buf size]. case_if.
  2:{ assert (data = []) as Hn by (apply len_0_nil; lia). rewrite Hn, !subl_of_nil, !copy_at_nil, set_buf_same, app_nil_r
        by (rewrite ?copy_at_nil; lia). by eexists. }
  set (n := socket_count (c1 + r rb) avail e) in *.
  assert (n <= c1 + r rb) as Hn.
  { subst n. unfold socket_count in *. destruct e; lia. }
  rewrite gorem_advance, res_bind_Ok by lia. eexists. split; [done|]. split; [|split; [done|]];
    (destruct (decide (len data <= c1)) as [Hle|Hgt];
      [rewrite subl_take, take_ge, (subl_nil _ c1), (copy_at_nil _ 0) by (rewrite ?len_copy_at; unfold len in *; lia);
       destruct (store_here rb data Hwf) as [Hw' Hc]; [lia|lia|]
      |destruct (store_two rb data Hwf) as [Hw' Hc]; [lia|lia|lia|];
       replace (w rb + n <? size rb) with false by lia]);
    (replace (len data) with n in * by lia); unfold set_w, set_buf; simpl; by rewrite He.
Qed.

(** [CopyFromSocket] appends what it read: nothing when the socket fails, and
    something whenever the socket has something and the ring has memory. *)
Lemma CopyFromSocket_spec rb avail e :
  wf rb -> size rb <= 2 ^ 58 ->
  exists room rb', let n := socket_count room avail e in
    CopyFromSocket rb (socket avail e) = Ok (n, e, rb') /\ wf rb' /\
    contents rb' = contents rb ++ take (Z.to_nat n) avail /\ 0 <= room /\ (0 < size rb -> 0 < room) /\
    size rb' <= Z.max (size rb) (Z.max 8192 (3 * Buffered rb)).
Proof.
  intros Hwf Hsz. pose proof (wf_len rb Hwf) as Hlen. pose proof (wf_w rb Hwf). pose proof (wf_r rb Hwf).
  pose proof (Available_Buffered rb Hwf) as HA. unfold CopyFromSocket. destruct (r rb =? w rb) eqn:Erw.
  - destruct (isEmpty rb) eqn:He; cbn [negb].
    + exists (size rb). set (rb0 := set_r (set_w rb 0) 0). cbn zeta.
      assert (wf rb0) as Hwf0 by (destruct Hwf; split; simpl in *; try done; lia).
      destruct (socket_data avail e (len (buf rb0))) as (data & -> & Hd & Hl); [apply len_nonneg|].
      change (len (buf rb0)) with (len (buf rb)) in *. rewrite Hlen in *.
      assert (contents rb = []) as -> by (unfold contents; by rewrite He). rewrite <- Hd, app_nil_l.
      pose proof (wf_size rb Hwf). cbn [w set_buf size]. change (w rb0) with 0. change (size rb0) with (size rb). case_if.
      * set (n := socket_count (size rb) avail e) in *.
        assert (n <= size rb) as Hn by (subst n; unfold socket_count in *; destruct e; lia).
        rewrite gorem_advance, res_bind_Ok by lia. eexists. split; [done|].
        assert (Available rb0 = size rb) as HA0 by (unfold Available; simpl; by rewrite He).
        destruct (store_here rb0 data Hwf0) as [Hw' Hc]; [lia|simpl; lia|].
        replace (len data) with n in * by lia. change (w rb0) with 0 in *. change (size rb0) with (size rb) in *.
        assert (contents rb0 = []) as Hc0 by (unfold contents; simpl; by rewrite He). rewrite Hc0, app_nil_l in Hc.
        split; [exact Hw'|]. split; [exact Hc|]. simpl. lia.
      * assert (data = []) as Hn by (apply len_0_nil; lia). rewrite Hn, copy_at_nil, set_buf_same by (simpl; lia).
        eexists. split; [done|]. split; [done|]. split; [unfold contents; simpl; by rewrite He|]. simpl. lia.
    + pose proof (wf_nonempty rb Hwf He) as Hpos. pose proof (Z.quot_div_nonneg (size rb) 2 ltac:(lia) ltac:(lia)) as Hq.
      pose proof (Z.div_mod (size rb) 2 ltac:(lia)). pose proof (Z.mod_pos_bound (size rb) 2 ltac:(lia)).
      assert (Buffered rb = size rb) as HB by (unfold Buffered; rewrite He; case_if).
      destruct (grow_spec rb (size rb + Z.quot (size rb) 2)) as (g & -> & Hwg & Hcg & Hsg & Hrg & Hwg0).
      { done. } { rewrite Hq. lia. } { unfold bufferGrowThreshold. rewrite Hq. lia. }
      rewrite res_bind_Ok. pose proof (wf_len g Hwg). pose proof (wf_w g Hwg). slice_step.
      assert (contents g <> []) as Hnil by (rewrite Hcg, contents_nil, He by done; done).
      assert (isEmpty g = false) as Heg by (destruct (isEmpty g) eqn:E; [apply contents_nil in E; done|done]).
      assert (Buffered g = Buffered rb) as HBg by (rewrite <- !len_contents, Hcg by done; done).
      pose proof (Available_Buffered g Hwg). rewrite len_subl by lia.
      destruct (socket_here g (len (buf g) - w g) avail e) as (rb' & HR & Hw' & Hs' & Hc'); [done|done|lia|lia|].
      exists (len (buf g) - w g), rb'. rewrite Hc', Hcg, Hs'. split; [exact HR|]. split; [done|]. split; [done|]. lia.
  - assert (isEmpty rb = false) as He by (destruct (isEmpty rb) eqn:E; [apply (wf_empty rb Hwf) in E; lia|done]).
    case_if.
    + slice_step. rewrite len_subl by lia.
      destruct (socket_here rb (r rb - w rb) avail e) as (rb' & HR & Hw' & Hs' & Hc');
        [done|done|unfold Available; repeat case_if|lia|].
      exists (r rb - w rb), rb'. rewrite Hc', Hs'. split; [exact HR|]. split; [done|]. split; [done|]. lia.
    + repeat slice_step. rewrite !len_subl, Hlen, Z.sub_0_r by lia.
      destruct (socket_two rb avail e Hwf) as (rb' & HR & Hw' & Hs' & Hc'); [lia|].
      exists (size rb - w rb + r rb), rb'. rewrite Hc', Hs'. split; [exact HR|]. split; [done|]. split; [done|]. lia.
Qed.

(** [Rewind] keeps the contents, except on a wrapped ring with little room behind
    the write position. *)
Definition rewind_hazard (rb : Buffer) : bool :=
  negb (isEmpty rb) && (0 <? w rb) && (w rb <=? r rb) && (size rb - w rb <? DefaultBufferSize).

(** Moving the buffered piece [r..hi] to the front. *)
Lemma moved_front rb hi :
  wf rb -> isEmpty rb = false -> 0 < hi - r rb < size rb -> hi <= size rb -> contents rb = subl (buf rb) (r rb) hi ->
  let src := subl (buf rb) (r rb) hi in
  let n := Z.min (len (buf rb)) (len src) in
  let rb' := mkBuffer (copy_at (buf rb) 0 src) (size rb) 0 n (isEmpty rb) in
  wf rb' /\ contents rb' = contents rb.
Proof.
  intros Hwf He Hhi Hle Hc src n. pose proof (wf_len rb Hwf) as Hlen. pose proof (wf_r rb Hwf).
  assert (len src = hi - r rb) as Hl by (subst src; rewrite len_subl; lia). subst n. rewrite Hl, Z.min_r, He by lia. split.
  - destruct Hwf. split; simpl; try done; try lia. rewrite len_copy_at; lia.
  - unfold contents at 1. simpl. replace (0 <? hi - r rb) with true by lia. rewrite Hc. fold src.
    rewrite <- Hl. apply (copy_at_within _ _ 0); lia.
Qed.

Lemma Rewind_spec rb :
  wf rb -> size rb <= 2 ^ 57 -> rewind_hazard rb = false ->
  exists n rb', Rewind rb = Ok (n, rb') /\ wf rb' /\ contents rb' = contents rb /\
    size rb' <= Z.max (size rb) (8192 + 6 * Buffered rb).
Proof.
  intros Hwf Hsz Hh. unfold Rewind, IsEmpty. destruct (isEmpty rb) eqn:He.
  { eexists _, _. split; [done|]. split; [by apply wf_Reset|]. unfold contents. rewrite He. simpl. split; [done|lia]. }
  pose proof (wf_len rb Hwf). pose proof (wf_r rb Hwf). pose proof (wf_w rb Hwf). pose proof (wf_nonempty rb Hwf He).
  unfold rewind_hazard, DefaultBufferSize in *. rewrite He in Hh. simpl in Hh.
  assert (forall c, Buffered rb < c -> size rb < c <= 2 * size rb ->
    exists g, grow rb c = Ok g /\ wf g /\ contents g = contents rb /\ size g <= Z.max (size rb) (Z.max 8192 (2 * c))) as Hgrow.
  { intros c Hb Hc. destruct (grow_spec rb c) as (g & Hg & ? & ? & Hs & _); [done|lia|by left|]. exists g. split_and!; done || lia. }
  case_if.
  - assert (Buffered rb = size rb - r rb) as HB by (unfold Buffered; rewrite He; repeat case_if).
    case_if.
    + destruct (Hgrow (size rb + size rb - r rb)) as (g & -> & Hwg & Hcg & Hsg); [lia|lia|].
      rewrite res_bind_Ok. eexists _, _. split; [done|]. split_and!; done || lia.
    + slice_step. destruct (moved_front rb (len (buf rb))) as [Hw' Hc'].
      { done. } { done. } { lia. } { lia. }
      { unfold contents. rewrite He. replace (r rb <? w rb) with false by lia.
        replace (w rb) with 0 by lia. rewrite (subl_nil _ 0), app_nil_r by lia. f_equal. lia. }
      rewrite He in *. eexists _, _. split; [done|]. split; [exact Hw'|]. split; [exact Hc'|]. simpl. lia.
  - case_if; [|eexists _, _; split; [done|]; split_and!; done || lia].
    assert (Buffered rb = w rb - r rb) as HB by (unfold Buffered; repeat case_if).
    case_if.
    + destruct (Hgrow (size rb + w rb - r rb)) as (g & -> & Hwg & Hcg & Hsg); [lia|lia|].
      rewrite res_bind_Ok. eexists _, _. split; [done|]. split_and!; done || lia.
    + slice_step. destruct (moved_front rb (w rb)) as [Hw' Hc'].
      { done. } { done. } { lia. } { lia. } { unfold contents. rewrite He. by replace (r rb <? w rb) with true by lia. }
      rewrite He in *. eexists _, _. split; [done|]. split; [exact Hw'|]. split; [exact Hc'|]. simpl. lia.
Qed.

(** Otherwise it panics, or, when the ring is full, turns the contents round. *)
Lemma Rewind_wrapped_panics rb :
  wf rb -> rewind_hazard rb = true -> w rb < r rb -> Rewind rb = Panic.
Proof.
  intros Hwf Hh Hlt. unfold rewind_hazard in Hh. repeat apply andb_true_iff in Hh as [Hh ?].
  apply negb_true_iff in Hh. unfold Rewind, IsEmpty. rewrite Hh. replace (w rb =? 0) with false by lia.
  replace (size rb - w rb <? DefaultBufferSize) with true by lia. replace (r rb <? w rb - r rb) with false by lia.
  unfold slice. replace ((0 <=? r rb) && (r rb <=? w rb) && (w rb <=? len (buf rb))) with false by lia. done.
Qed.
End socket.

(** ** Streams: [WriteTo] and [ReadFrom]

    The peer of [WriteTo] is an [io.Writer] with a state of type [W]: given a
    chunk it returns the count it accepted and an error.  The peer of
    [ReadFrom] is an [io.Reader] with a state of type [R]: given the room in
    the destination it returns the count and the bytes it stored there. *)

Section streams.
Context {W R : Type} (wr : W -> bytes -> W * (Z * option error))
  (rd : R -> Z -> R * (Z * bytes * option error)).

Definition short_check (m : Z) (err : option error) (rb : Buffer) : Z * option error * Buffer :=
  match err with
  | Some e => (m, Some e, rb)
  | None => if negb (isEmpty rb) then (m, Some (EIo ErrShortWrite), rb) else (m, None, rb)
  end.

Definition reset_if_drained (rb : Buffer) : Buffer := if r rb =? w rb then Reset rb else rb.

Definition WriteTo (rb : Buffer) (s : W) : res (Z * option error * Buffer * W) :=
  if isEmpty rb then Ok (0, Some ErrIsEmpty, rb, s)
  else if r rb <? w rb then
    let n := w rb - r rb in
    chunk ← slice (buf rb) (r rb) (r rb + n);
    let '(s, (m, err)) := wr s chunk in
    if n <? m then Panic
    else Ok (short_check m err (reset_if_drained (set_r rb (r rb + m))), s)
  else
    let n := size rb - r rb + w rb in
    if r rb + n <=? size rb then
      chunk ← slice (buf rb) (r rb) (r rb + n);
      let '(s, (m, err)) := wr s chunk in
      if n <? m then Panic
      else
        r' ← gorem (r rb + m) (size rb);
        Ok (short_check m err (reset_if_drained (set_r rb r')), s)
    else
      let c1 := size rb - r rb in
      chunk ← slice (buf rb) (r rb) (len (buf rb));
      let '(s, (m, err)) := wr s chunk in
      if c1 <? m then Panic
      else
        r' ← gorem (r rb + m) (size rb);
        let rb := set_r rb r' in
        match err with
        | Some e => Ok (m, Some e, rb, s)
        | None =>
            if m <? c1 then Ok (m, Some (EIo ErrShortWrite), rb, s)
            else
              let cum := m in
              let c2 := n - c1 in
              chunk ← slice (buf rb) 0 c2;
              let '(s, (m, err)) := wr s chunk in
              if c2 <? m then Panic
              else
                let rb := reset_if_drained (set_r rb m) in
                let cum := cum + m in
                Ok (short_check cum err rb, s)
        end.

Section reader.
Context `{BytePool}.

(** One [r.Read] into [buf[i:j]], with the panic on a negative count. *)
Definition read_into (b : bytes) (i j : Z) (s : R) : res (bytes * Z * option error * R) :=
  dst ← slice b i j;
  let '(s, (m, data, err)) := rd s (len dst) in
  if m <? 0 then Panic else Ok (copy_at b i data, m, err, s).

Fixpoint ReadFrom (fuel : nat) (rb : Buffer) (n : Z) (s : R)
    : res (Z * option error * Buffer * R) :=
  match fuel with
  | O => OutOfFuel
  | S fuel =>
      rb ← (if Available rb <? MinRead then grow rb (Buffered rb + MinRead) else Ok rb);
      if r rb <=? w rb then
        '(b, m, err, s) ← read_into (buf rb) (w rb) (len (buf rb)) s;
        let rb := set_empty (set_buf rb b) false in
        w' ← gorem (w rb + m) (size rb);
        let rb := set_w rb w' in
        let n := n + m in
        match err with
        | Some (EIo EOF) => Ok (n, None, rb, s)
        | Some e => Ok (n, Some e, rb, s)
        | None =>
            '(b, m, err, s) ← read_into (buf rb) 0 (r rb) s;
            w' ← gorem (w rb + m) (size rb);
            let rb := set_w (set_buf rb b) w' in
            let n := n + m in
            match err with
            | Some (EIo EOF) => Ok (n, None, rb, s)
            | Some e => Ok (n, Some e, rb, s)
            | None => ReadFrom fuel rb n s
            end
        end
      else
        '(b, m, err, s) ← read_into (buf rb) (w rb) (r rb) s;
        let rb := set_empty (set_buf rb b) false in
        w' ← gorem (w rb + m) (size rb);
        let rb := set_w rb w' in
        let n := n + m in
        match err with
        | Some (EIo EOF) => Ok (n, None, rb, s)
        | Some e => Ok (n, Some e, rb, s)
        | None => ReadFrom fuel rb n s
        end
  end.
End reader.
End streams.

Section stream_specs.
Context {W R : Type} (wr : W -> bytes -> W * (Z * option error))
  (rd : R -> Z -> R * (Z * bytes * option error)).

(** The [io.Writer] contract: the count is within the chunk. *)
Definition writer_ok : Prop := forall s c, 0 <= (wr s c).2.1 <= len c.

(** [log] is what the writer was given so far. *)
Context (log : W -> bytes).
Definition writer_logs : Prop := forall s c, log (wr s c).1 = log s ++ subl c 0 (wr s c).2.1.

(** The state after a writer took [m] bytes of the front. *)
Lemma drained_by rb m r' :
  wf rb -> isEmpty rb = false -> 0 <= m <= Buffered rb ->
  r' = (if r rb + m <? size rb then r rb + m else r rb + m - size rb) ->
  (m = 0 -> IsFull rb = false) ->
  let rb' := reset_if_drained (set_r rb r') in
  wf rb' /\ contents rb' = subl (contents rb) m (len (contents rb)) /\
  (isEmpty rb' = true <-> m = Buffered rb).
Proof.
  intros Hwf E Hm Hr' Hf rb'. pose proof (Buffered_nonempty rb Hwf E) as Hb.
  destruct (decide (m = 0)) as [->|].
  - assert (r' = r rb) as ->.
    { pose proof (wf_r rb Hwf). pose proof (wf_nonempty rb Hwf E). case_if_in Hr'. }
    assert (rb' = rb) as ->.
    { subst rb'. unfold reset_if_drained. simpl.
      destruct (r rb =? w rb) eqn:E1; [|by destruct rb].
      specialize (Hf eq_refl). unfold IsFull in Hf. by rewrite E1, E in Hf. }
    rewrite subl_full, E. split_and!; done || lia.
  - destruct (advance_or_reset rb m r' Hwf E) as (Hw & _ & Hc); [lia|done|].
    change (if r' =? w rb then Reset (set_r rb r') else set_r rb r') with rb' in *.
    split_and!; [done|done|]. rewrite <- contents_nil, Hc by done. split; intros Hx.
    + apply (f_equal len) in Hx. rewrite len_subl in Hx by (rewrite len_contents by done; lia).
      rewrite len_nil, len_contents in Hx by done. lia.
    + apply subl_nil. rewrite len_contents by done. lia.
Qed.

Definition short_ok (rb : Buffer) (out : Z * option error * Buffer) : Prop :=
  let '(n, err, rb') := out in
  wf rb' /\ 0 <= n <= Buffered rb /\ contents rb' = subl (contents rb) n (len (contents rb)) /\
  (err = None -> n = Buffered rb /\ contents rb' = []).

Lemma short_check_ok rb m err rb' :
  wf rb' -> 0 <= m <= Buffered rb -> contents rb' = subl (contents rb) m (len (contents rb)) ->
  (isEmpty rb' = true <-> m = Buffered rb) -> short_ok rb (short_check m err rb').
Proof.
  intros Hwf Hm Hc He. unfold short_check, short_ok.
  destruct err; [split_and!; done || lia|]. case_if; (split_and!; try done || lia); [].
  intros _. apply negb_false_iff in Heqb. split; [by apply He|]. by apply contents_nil.
Qed.

Lemma short_check_count m err rb : (short_check m err rb).1.1 = m.
Proof. unfold short_check. destruct err; [done|]. by destruct (negb _). Qed.

(** A piece of the memory, as a piece of the contents. *)
Lemma contents_front rb n :
  wf rb -> isEmpty rb = false -> 0 <= n <= (if r rb <? w rb then w rb else size rb) - r rb ->
  subl (buf rb) (r rb) (r rb + n) = subl (contents rb) 0 n.
Proof.
  intros Hwf E Hn. pose proof (wf_len rb Hwf). pose proof (wf_r rb Hwf). pose proof (wf_w rb Hwf).
  pose proof (wf_nonempty rb Hwf E). unfold contents. rewrite E. destruct (r rb <? w rb) eqn:Erw.
  - rewrite subl_subl by lia. f_equal; lia.
  - rewrite subl_app_l by (rewrite ?len_subl; lia). rewrite subl_subl by lia. f_equal; lia.
Qed.

(** The second chunk of a wrapped buffer, after the first was taken whole. *)
Lemma second_chunk rb s :
  writer_ok -> wf rb -> wf (set_r rb 0) -> isEmpty rb = false -> 0 < w rb ->
  contents (set_r rb 0) = subl (contents rb) (size rb - r rb) (len (contents rb)) ->
  Buffered rb = size rb - r rb + w rb ->
  exists out s',
    (chunk ← slice (buf (set_r rb 0)) 0 (size rb - r rb + w rb - (size rb - r rb));
     let '(s, (m, err)) := wr s chunk in
     if size rb - r rb + w rb - (size rb - r rb) <? m then Panic
     else Ok (short_check (size rb - r rb + m) err
                (reset_if_drained (set_r (set_r rb 0) m)), s)) = Ok (out, s') /\
    short_ok rb out /\ size rb - r rb <= out.1.1 /\
    (writer_logs -> log s' = log s ++ subl (contents rb) (size rb - r rb) out.1.1).
Proof.
  intros Hok Hwf Hwf1 E Hw Hc1 HB. pose proof (wf_r rb Hwf). pose proof (wf_len _ Hwf1). pose proof (wf_w _ Hwf1). simpl in *.
  pose proof (len_contents _ Hwf1) as Hl1.
  assert (Buffered (set_r rb 0) = w rb) as HB1
    by (unfold Buffered; cbn [set_r r w size isEmpty]; repeat case_if).
  slice_step. destruct (wr s _) as [s' [m err]] eqn:Ew.
  pose proof (Hok s (subl (buf rb) 0 (size rb - r rb + w rb - (size rb - r rb)))) as Hm.
  rewrite Ew in Hm. simpl in Hm. rewrite len_subl in Hm by lia.
  replace (_ <? m) with false by lia. eexists _, s'. split; [done|]. split; [|split; [rewrite short_check_count; lia|]].
  - destruct (drained_by (set_r rb 0) m m) as (Hwf2 & Hc2 & He2); [done|done|lia| | |].
    { cbn [set_r r w size]. case_if. }
    { unfold IsFull. cbn [set_r r w]. lia. }
    apply short_check_ok; [done|simpl in *; lia| |rewrite He2; simpl in *; lia].
    rewrite Hc2, Hl1, Hc1, HB1, len_contents, HB by done.
    rewrite subl_subl by lia. f_equal; lia.
  - intros Hlog. pose proof (Hlog s (subl (buf rb) 0 (size rb - r rb + w rb - (size rb - r rb)))) as Hs.
    rewrite Ew in Hs. simpl in Hs. rewrite Hs, short_check_count. f_equal.
    assert (subl (buf rb) 0 (size rb - r rb + w rb - (size rb - r rb)) = contents (set_r rb 0)) as ->.
    { unfold contents. cbn [set_r r w size isEmpty buf]. rewrite E. replace (0 <? w rb) with true by lia. f_equal; lia. }
    rewrite Hc1, len_contents, subl_subl by (done || lia). f_equal; lia.
Qed.

Lemma first_chunk_log rb s s' m err k :
  wf rb -> isEmpty rb = false -> 0 <= m <= k -> k <= (if r rb <? w rb then w rb else size rb) - r rb ->
  wr s (subl (buf rb) (r rb) (r rb + k)) = (s', (m, err)) ->
  writer_logs -> log s' = log s ++ subl (contents rb) 0 m.
Proof.
  intros Hwf E Hm Hk Hw Hlog. pose proof (Hlog s (subl (buf rb) (r rb) (r rb + k))) as Hs. rewrite Hw in Hs. simpl in Hs.
  pose proof (wf_len rb Hwf). pose proof (wf_r rb Hwf). pose proof (wf_w rb Hwf). pose proof (wf_nonempty rb Hwf E).
  rewrite Hs, subl_subl, Z.add_0_r by (destruct (r rb <? w rb); lia). by rewrite contents_front by (done || lia).
Qed.

(** The writer takes something of a full ring that starts at position 0. *)
Definition takes_full (rb : Buffer) (s : W) : Prop :=
  IsFull rb = true -> r rb = 0 -> 0 < (wr s (contents rb)).2.1.

(** Draining the buffer into an [io.Writer], which takes something if the buffer is
    full and starts at position 0, hands the writer the oldest bytes, keeps exactly
    the bytes it did not accept, and reports success only when everything was
    taken. *)
Lemma WriteTo_drains rb s :
  writer_ok -> wf rb -> isEmpty rb = false -> takes_full rb s ->
  exists out s', WriteTo wr rb s = Ok (out, s') /\ short_ok rb out /\
    (writer_logs -> log s' = log s ++ subl (contents rb) 0 out.1.1).
Proof.
  intros Hok Hwf E Hfull. pose proof (Buffered_nonempty rb Hwf E) as Hb.
  pose proof (wf_len rb Hwf). pose proof (wf_r rb Hwf). pose proof (wf_w rb Hwf).
  pose proof (wf_nonempty rb Hwf E). unfold WriteTo. rewrite E. case_if.
  - assert (Buffered rb = w rb - r rb) as HB by (unfold Buffered; rewrite E; repeat case_if).
    slice_step. destruct (wr s _) as [s' [m err]] eqn:Ew.
    pose proof (Hok s (subl (buf rb) (r rb) (r rb + (w rb - r rb)))) as Hm. rewrite Ew in Hm.
    simpl in Hm. rewrite len_subl in Hm by lia. replace (w rb - r rb <? m) with false by lia.
    eexists _, s'. split; [done|]. split.
    + destruct (drained_by rb m (r rb + m)) as (? & ? & ?);
        [done|done|lia|case_if|unfold IsFull; lia|]. apply short_check_ok; done || lia.
    + rewrite short_check_count. eapply first_chunk_log; [done|done| | |done]; [lia|case_if].
  - assert (Buffered rb = size rb - r rb + w rb) as HB by (unfold Buffered; rewrite E; repeat case_if).
    case_if.
    + slice_step. destruct (wr s _) as [s' [m err]] eqn:Ew.
      pose proof (Hok s (subl (buf rb) (r rb) (r rb + (size rb - r rb + w rb)))) as Hm.
      rewrite Ew in Hm. simpl in Hm. rewrite len_subl in Hm by lia.
      replace (size rb - r rb + w rb <? m) with false by lia.
      rewrite gorem_advance by lia. rewrite res_bind_Ok. eexists _, s'. split; [done|]. split.
      * destruct (drained_by rb m _ Hwf E ltac:(lia) eq_refl) as (? & ? & ?);
          [|apply short_check_ok; done || lia].
        intros ->. unfold IsFull in *. rewrite E in *. destruct (r rb =? w rb) eqn:E1; [|done].
        assert (contents rb = subl (buf rb) (r rb) (r rb + (size rb - r rb + w rb))) as Hc.
        { unfold contents. rewrite E. replace (r rb <? w rb) with false by lia.
          rewrite (subl_nil _ 0), app_nil_r by lia. f_equal. lia. }
        unfold takes_full in Hfull. rewrite Hc, Ew in Hfull. simpl in Hfull. unfold IsFull in Hfull. rewrite E, E1 in Hfull.
        specialize (Hfull eq_refl ltac:(lia)). lia.
      * rewrite short_check_count. eapply first_chunk_log; [done|done| | |done]; [lia|case_if].
    + slice_step. destruct (wr s _) as [s' [m err]] eqn:Ew.
      pose proof (Hok s (subl (buf rb) (r rb) (len (buf rb)))) as Hm.
      assert (writer_logs -> log s' = log s ++ subl (contents rb) 0 m) as Hlog.
      { replace (len (buf rb)) with (r rb + (size rb - r rb)) in Ew by lia. eapply first_chunk_log; [done|done| | |exact Ew]; [|case_if].
        replace (r rb + (size rb - r rb)) with (len (buf rb)) in Ew by lia. rewrite Ew in Hm. simpl in Hm.
        rewrite len_subl in Hm by lia. lia. }
      rewrite Ew in Hm. simpl in Hm. rewrite len_subl in Hm by lia.
      replace (size rb - r rb <? m) with false by lia.
      rewrite gorem_advance by lia. rewrite res_bind_Ok.
      destruct (contents_advance rb m _ Hwf E ltac:(lia) eq_refl) as (Hwf1 & Hc1).
      destruct err as [e|]; [eexists _, s'; split; [done|]; split; [simpl; split_and!; done || lia|exact Hlog]|].
      case_if; [eexists _, s'; split; [done|]; split; [simpl; split_and!; done || lia|exact Hlog]|].
      assert (m = size rb - r rb) as -> by lia.
      replace (r rb + (size rb - r rb) <? size rb) with false in * by lia.
      replace (r rb + (size rb - r rb) - size rb) with 0 in * by lia.
      destruct (second_chunk rb s' Hok Hwf Hwf1 E) as (out & s'' & Hout & Ho & Hle & Hlog2); [lia|done|lia|].
      eexists _, s''. split; [exact Hout|]. split; [exact Ho|]. intros Hl.
      rewrite (Hlog2 Hl), (Hlog Hl), <- app_assoc. f_equal. apply subl_split; lia.
Qed.
End stream_specs.

Lemma give_writer_ok k err : writer_ok (give_writer k err).
Proof. intros s c. simpl. pose proof (len_nonneg c). lia. Qed.
Lemma give_writer_logs k err : writer_logs (give_writer k err) id.
Proof. by intros s c. Qed.

Lemma WriteTo_size {W} (wr : W -> bytes -> W * (Z * option error)) rb s n err rb' s' :
  WriteTo wr rb s = Ok (n, err, rb', s') -> size rb' = size rb.
Proof.
  assert (forall m e rb0, size (short_check m e (reset_if_drained rb0)).2 = size rb0) as Hsc.
  { intros m e rb0. unfold short_check, reset_if_drained. destruct e, (r rb0 =? w rb0); simpl; try done.
    by destruct (negb _). }
  assert (forall m e rb0 s0, Ok (short_check m e (reset_if_drained rb0), s0) = Ok (n, err, rb', s') -> size rb' = size rb0) as Hend.
  { intros m e rb0 s0 Heq. rewrite <- (Hsc m e rb0). by injection Heq as -> _. }
  unfold WriteTo. destruct (isEmpty rb); [by intros [= _ _ <- _]|]. case_if.
  - intros (chunk & _ & Hgo)%res_bind_inv. destruct (wr s chunk) as [s1 [m e]]. case_if_in Hgo; [done|]. by apply Hend in Hgo.
  - case_if; intros (chunk & _ & Hgo)%res_bind_inv; destruct (wr s chunk) as [s1 [m e]]; (case_if_in Hgo; [done|]);
      apply res_bind_inv in Hgo as (r' & _ & Hgo); [by apply Hend in Hgo|].
    destruct e as [e|]; [by injection Hgo as _ _ <- _|]. case_if_in Hgo; [by injection Hgo as _ _ <- _|].
    apply res_bind_inv in Hgo as (chunk2 & _ & Hgo). destruct (wr s1 chunk2) as [s2 [m2 e2]].
    case_if_in Hgo; [done|]. by apply Hend in Hgo.
Qed.

(** How much such a writer gets, and what is reported. *)
Lemma WriteTo_count rb k err n e rb' s' :
  wf rb -> isEmpty rb = false -> WriteTo (give_writer k err) rb [] = Ok (n, e, rb', s') ->
  (0 < k -> 0 < n) /\ (err = None -> Z.min k (Buffered rb) <= n) /\
  (forall x, err = Some x -> e = Some x) /\
  (err = None -> e = None /\ isEmpty rb' = true \/ e = Some (EIo ErrShortWrite) /\ isEmpty rb' = false).
Proof.
  intros Hwf E. pose proof (wf_len rb Hwf). pose proof (wf_r rb Hwf). pose proof (wf_w rb Hwf).
  pose proof (wf_nonempty rb Hwf E).
  assert (forall m e0 rb0 (s0 : bytes), Ok (short_check m e0 rb0, s0) = Ok (n, e, rb', s') ->
    m = n /\ (forall x, e0 = Some x -> e = Some x) /\
    (e0 = None -> e = None /\ isEmpty rb' = true \/ e = Some (EIo ErrShortWrite) /\ isEmpty rb' = false)) as Hend.
  { intros m e0 rb0 s0 Heq. unfold short_check in Heq.
    destruct e0; [|destruct (isEmpty rb0) eqn:E0]; injection Heq as -> <- <- _; split_and!; auto; done. }
  unfold WriteTo. rewrite E. case_if.
  - assert (Buffered rb = w rb - r rb) as HB by (unfold Buffered; rewrite E; repeat case_if).
    slice_step. unfold give_writer. rewrite len_subl by lia. case_if. intros (<- & Hx1 & Hx2)%Hend. split_and!; auto; lia.
  - assert (Buffered rb = size rb - r rb + w rb) as HB by (unfold Buffered; rewrite E; repeat case_if).
    case_if; slice_step; unfold give_writer; rewrite len_subl by lia; case_if;
      intros (r' & _ & Hgo)%res_bind_inv.
    + apply Hend in Hgo as (<- & Hx1 & Hx2). split_and!; auto; lia.
    + destruct err as [x|]; [injection Hgo as <- <- <- _; split_and!; auto; try done; lia|].
      case_if_in Hgo; [injection Hgo as <- <- <- _; split_and!; auto; try done; lia|].
      apply res_bind_inv in Hgo as (chunk2 & Hsl & Hgo). cbn [buf set_r] in Hsl. rewrite slice_Ok in Hsl by lia.
      injection Hsl as <-. rewrite len_subl in Hgo by lia. case_if_in Hgo.
      apply Hend in Hgo as (<- & Hx1 & Hx2). split_and!; auto; lia.
Qed.

(** [WriteTo] loses its bytes only when nothing is taken from a full ring that
    starts at position 0. *)
Definition writeto_hazard (rb : Buffer) (k : Z) : bool := IsFull rb && (r rb =? 0) && (k <=? 0).

Lemma WriteTo_gives rb k err :
  wf rb -> isEmpty rb = false -> writeto_hazard rb k = false ->
  exists sent e rb', WriteTo (give_writer k err) rb [] = Ok (len sent, e, rb', sent) /\ wf rb' /\ size rb' = size rb /\
    contents rb = sent ++ contents rb' /\ (0 < k -> sent <> []) /\
    match err with
    | Some x => e = Some x
    | None => Z.min k (len (contents rb)) <= len sent /\
        (e = None /\ contents rb' = [] \/ e = Some (EIo ErrShortWrite) /\ contents rb' <> [])
    end.
Proof.
  intros Hwf E Hh. pose proof (len_contents rb Hwf) as Hl. pose proof (Buffered_nonempty rb Hwf E).
  destruct (WriteTo_drains (give_writer k err) id rb []) as ([[n e] rb'] & sent & Hw & (Hw' & Hn & Hc & He) & Hlog);
    [apply give_writer_ok|done|done| |].
  { intros Hf Hr. unfold writeto_hazard in Hh. rewrite Hf, Hr in Hh. simpl in *. lia. }
  specialize (Hlog (give_writer_logs k err)). simpl in Hlog.
  destruct (WriteTo_count _ _ _ _ _ _ _ Hwf E Hw) as (H1 & H2 & H3 & H4).
  assert (len sent = n) as Hs by (rewrite Hlog, len_subl; lia). exists sent, e, rb'. rewrite Hs.
  split; [done|]. split; [done|]. split; [by eapply WriteTo_size|]. split; [|split].
  - rewrite Hlog, Hc, subl_split by lia. by rewrite subl_full.
  - intros Hk ->. rewrite len_nil in Hs. specialize (H1 Hk). lia.
  - destruct err as [x|]; [by apply H3|]. rewrite Hl. split; [by apply H2|].
    destruct (H4 eq_refl) as [[-> Hem]|[-> Hem]]; [left|right]; (split; [done|]).
    + by apply contents_nil.
    + rewrite contents_nil by done. by rewrite Hem.
Qed.

(** *** Reading all of a reader *)

Section read_all.
Context `{BytePool}.

Lemma read_into_mem b i j s :
  0 <= i <= j -> j <= len b -> read_into mem_reader b i j s = Ok
    (copy_at b i (take (Z.to_nat (j - i)) s), len (take (Z.to_nat (j - i)) s),
     match s with [] => Some (EIo EOF) | _ => None end, drop (Z.to_nat (j - i)) s).
Proof.
  intros Hi Hj. unfold read_into. slice_step. rewrite len_subl by lia. unfold mem_reader.
  destruct s as [|x s]; [by rewrite take_nil, drop_nil|].
  pose proof (len_nonneg (take (Z.to_nat (j - i)) (x :: s))). by replace (_ <? 0) with false by lia.
Qed.

(** The read at the write position, in one piece, and the position after it. *)
Lemma fill_here rb room s :
  wf rb -> 0 < room <= Available rb -> (r rb <= w rb -> room <= size rb - w rb) -> (s = [] -> isEmpty rb = false) ->
  exists w', gorem (w rb + len (take (Z.to_nat room) s)) (size rb) = Ok w' /\
    let rb' := mkBuffer (copy_at (buf rb) (w rb) (take (Z.to_nat room) s)) (size rb) (r rb) w' false in
    wf rb' /\ contents rb' = contents rb ++ take (Z.to_nat room) s /\
    (len s < room \/ w' = (if w rb + room <? size rb then w rb + room else w rb + room - size rb)).
Proof.
  intros Hwf Hroom Hone Hs. pose proof (wf_len rb Hwf). pose proof (wf_w rb Hwf). pose proof (wf_r rb Hwf).
  pose proof (Available_Buffered rb Hwf). pose proof (Buffered_bounds rb Hwf).
  set (data := take (Z.to_nat room) s). assert (len data = Z.min room (len s)) as Hl
    by (subst data; unfold len; rewrite length_take; lia).
  pose proof (len_nonneg s). rewrite gorem_advance by lia. eexists. split; [done|]. cbv zeta.
  assert (len s < room \/ (if w rb + len data <? size rb then w rb + len data else w rb + len data - size rb) =
    (if w rb + room <? size rb then w rb + room else w rb + room - size rb)) as Hw.
  { destruct (decide (len s < room)); [by left|right]. replace (len data) with room by lia. done. }
  destruct s as [|x s].
  - assert (data = []) as -> by (subst data; by rewrite take_nil).
    change (len (@nil Z)) with 0 in *. rewrite Z.add_0_r, app_nil_r, copy_at_nil in * by lia.
    replace (w rb <? size rb) with true in * by lia. specialize (Hs eq_refl). split; [|split; [|done]].
    + by destruct rb; simpl in *; subst.
    + by destruct rb; simpl in *; subst.
  - rewrite len_cons in *. pose proof (len_nonneg s). destruct (store_here rb data Hwf) as [Hw' Hc]; [lia|lia|]. done.
Qed.

(** The memory of one round of [ReadFrom]: at least [MinRead] bytes are free. *)
Lemma read_room rb :
  wf rb -> size rb <= 2 ^ 58 -> Buffered rb <= 2 ^ 56 ->
  exists g, (if Available rb <? MinRead then grow rb (Buffered rb + MinRead) else Ok rb) = Ok g /\ wf g /\
    contents g = contents rb /\ 0 < Available g /\ size g <= Z.max (size rb) (Z.max 8192 (2 * (Buffered rb + 512))).
Proof.
  unfold MinRead. intros Hwf Hs HB. pose proof (Available_Buffered rb Hwf) as HA. pose proof (Buffered_bounds rb Hwf). case_if.
  - destruct (grow_spec rb (Buffered rb + 512)) as (g & -> & Hwg & Hcg & Hsg & _); [done|lia|left; lia|].
    exists g. split_and!; [done..| |lia]. rewrite Available_Buffered by done.
    assert (Buffered g = Buffered rb) as -> by (rewrite <- !len_contents, Hcg by done; done). lia.
  - exists rb. split_and!; done || lia.
Qed.

Lemma nonempty_of rb d : wf rb -> d <> [] -> contents rb = d -> isEmpty rb = false.
Proof. intros Hwf Hd Hc. destruct (isEmpty rb) eqn:E; [|done]. apply contents_nil in E; congruence. Qed.

(** The second read of a round, into the start of the memory. *)
Lemma fill_front rb s :
  wf rb -> isEmpty rb = false -> s = [] \/ w rb = 0 ->
  exists w', gorem (w rb + len (take (Z.to_nat (r rb)) s)) (size rb) = Ok w' /\
    let rb' := mkBuffer (copy_at (buf rb) 0 (take (Z.to_nat (r rb)) s)) (size rb) (r rb) w' false in
    wf rb' /\ contents rb' = contents rb ++ take (Z.to_nat (r rb)) s.
Proof.
  intros Hwf He Hs. pose proof (wf_len rb Hwf). pose proof (wf_w rb Hwf). pose proof (wf_r rb Hwf).
  pose proof (wf_nonempty rb Hwf He). set (data := take (Z.to_nat (r rb)) s).
  assert (len data <= r rb) as Hl by (subst data; unfold len; rewrite length_take; lia).
  pose proof (len_nonneg data). rewrite gorem_advance by lia. eexists. split; [done|]. cbv zeta.
  destruct (decide (data = [])) as [Hn|Hn].
  - rewrite Hn, app_nil_r, copy_at_nil by lia. change (len (@nil Z)) with 0. rewrite Z.add_0_r.
    replace (w rb <? size rb) with true by lia. by destruct rb; simpl in *; subst.
  - destruct Hs as [->|Hw0]; [subst data; by rewrite take_nil in Hn|].
    assert (0 < len data) by (destruct data; [done|]; rewrite len_cons; pose proof (len_nonneg data); lia).
    pose proof (store_here rb data Hwf) as Hst. rewrite Hw0 in *. apply Hst; [unfold Available; rewrite Hw0; repeat case_if; lia|lia].
Qed.

(** [ReadFrom] reads all of such a reader behind the contents. *)
Lemma ReadFrom_mem fuel rb n s :
  wf rb -> size rb <= 2 ^ 58 -> Buffered rb + len s <= 2 ^ 56 -> (s = [] -> isEmpty rb = false) -> (length s < fuel)%nat ->
  exists rb', ReadFrom mem_reader fuel rb n s = Ok (n + len s, None, rb', []) /\ wf rb' /\
    contents rb' = contents rb ++ s /\ size rb' <= Z.max (size rb) (Z.max 8192 (2 * (Buffered rb + len s + 512))).
Proof.
  revert rb n s. induction fuel as [|fuel IH]; intros rb n s Hwf Hsz HB Hs Hf; [lia|]. cbn [ReadFrom].
  pose proof (len_nonneg s) as Hls.
  destruct (read_room rb) as (g & -> & Hwg & Hcg & HAg & Hsg); [done|done|lia|]. rewrite res_bind_Ok.
  assert (Buffered g = Buffered rb) as HBg by (rewrite <- !len_contents, Hcg by done; done).
  assert (s = [] -> isEmpty g = false) as Hsg'.
  { intros E. apply (nonempty_of _ (contents rb)); [done| |done]. rewrite contents_nil by done. rewrite (Hs E). done. }
  pose proof (wf_len g Hwg). pose proof (wf_w g Hwg). pose proof (wf_r g Hwg). pose proof (Available_Buffered g Hwg).
  pose proof (Buffered_bounds g Hwg). rewrite <- Hcg.
  (* the next round *)
  assert (forall rb1 m d s1, wf rb1 -> size rb1 = size g -> contents rb1 = contents g ++ d -> d ++ s1 = s -> d <> [] ->
    m = len d ->
    exists rb', ReadFrom mem_reader fuel rb1 (n + m) s1 = Ok (n + len s, None, rb', []) /\ wf rb' /\
      contents rb' = contents g ++ s /\ size rb' <= Z.max (size rb) (Z.max 8192 (2 * (Buffered rb + len s + 512)))) as Hnext.
  { intros rb1 m d s1 Hw1 Hs1 Hc1 <- Hd ->. rewrite len_app in *. pose proof (len_nonneg s1). pose proof (len_nonneg d).
    assert (Buffered rb1 = Buffered rb + len d) as HB1 by (rewrite <- !len_contents, Hc1, len_app, Hcg by done; done).
    destruct (IH rb1 (n + len d) s1) as (rb' & -> & Hw' & Hc' & Hs'); [done|lia|lia| | |].
    - intros _. apply (nonempty_of _ (contents g ++ d)); [done| |done]. by destruct (contents g), d.
    - rewrite length_app in Hf. destruct d; [done|]. simpl in Hf. lia.
    - exists rb'. rewrite Hc', Hc1, <- app_assoc. split; [do 4 f_equal; lia|]. split; [done|]. split; [done|]. lia. }
  case_if.
  - assert (size g - w g <= Available g) as Hroom by (revert HAg; unfold Available; intros; repeat case_if_in HAg; repeat case_if; lia).
    rewrite read_into_mem, res_bind_Ok by lia. set (a := len (buf g) - w g).
    destruct (fill_here g a s) as (w1 & Hg1 & Hw1 & Hc1 & Hpos1); [done|lia|lia|done|].
    cbn [w set_empty set_buf size set_w]. rewrite Hg1, res_bind_Ok. destruct s as [|x s'].
    { rewrite take_nil, ?drop_nil in *. eexists. split; [reflexivity|]. split; [exact Hw1|]. split; [exact Hc1|]. simpl. lia. }
    set (s := x :: s') in *. set (d1 := take (Z.to_nat a) s) in *. set (g1 := mkBuffer _ _ _ w1 false) in *.
    assert (d1 <> []) as Hd1 by (subst d1 s; destruct (Z.to_nat a) eqn:Ea; [lia|done]).
    change (set_w (set_empty (set_buf g (copy_at (buf g) (w g) d1)) false) w1) with g1.
    cbn [buf set_w set_empty set_buf r].
    rewrite read_into_mem, res_bind_Ok by (change (copy_at (buf g) (w g) d1) with (buf g1); rewrite ?(wf_len g1 Hw1); simpl; lia).
    rewrite Z.sub_0_r. set (s1 := drop (Z.to_nat a) s).
    destruct (fill_front g1 s1) as (w2 & Hg2 & Hw2 & Hc2); [done|done| |].
    { destruct (decide (s1 = [])) as [|Hs1]; [by left|right]. destruct Hpos1 as [Hlt|Hw]; [|simpl; case_if_in Hw].
      exfalso. apply Hs1. subst s1. apply drop_ge. unfold len in *. lia. }
    change (w g1) with w1 in Hg2. change (size g1) with (size g) in Hg2. cbn [w size set_w set_empty set_buf].
    rewrite Hg2, res_bind_Ok. set (d2 := take (Z.to_nat (r g1)) s1) in *. set (g2 := mkBuffer _ _ _ w2 false) in Hw2, Hc2.
    change (set_w (set_buf g1 (copy_at (buf g1) 0 d2)) w2) with g2.
    assert (d1 ++ s1 = s) as Hcat by apply take_drop. rewrite Hc1, <- app_assoc in Hc2.
    rewrite <- Z.add_assoc, <- len_app. destruct (decide (s1 = [])) as [Hs1|Hs1].
    + assert (d2 = []) as Hd2 by (subst d2; rewrite Hs1; apply take_nil). rewrite Hs1, drop_nil. exists g2.
      rewrite Hd2, app_nil_r in *. rewrite Hs1, app_nil_r in Hcat. rewrite Hcat in *.
      split; [done|]. split; [done|]. split; [done|]. simpl. lia.
    + replace (match s1 with [] => Some (EIo EOF) | _ => None end) with (@None error) by (by destruct s1).
      apply (Hnext g2 _ (d1 ++ d2)); [done|done|done| |by destruct d1|done].
      rewrite <- app_assoc. subst d2. by rewrite take_drop.
  - rewrite read_into_mem, res_bind_Ok by lia. set (a := r g - w g).
    destruct (fill_here g a s) as (w1 & Hg1 & Hw1 & Hc1 & _);
      [done|unfold Available; repeat case_if; lia|lia|done|].
    cbn [w set_empty set_buf size set_w]. rewrite Hg1, res_bind_Ok. destruct s as [|x s'].
    { rewrite take_nil, ?drop_nil in *. eexists. split; [reflexivity|]. split; [exact Hw1|]. split; [exact Hc1|]. simpl. lia. }
    set (s := x :: s') in *. set (d1 := take (Z.to_nat a) s) in *. set (g1 := mkBuffer _ _ _ w1 false) in *.
    apply (Hnext g1 _ d1); [done|done|done|apply take_drop| |done].
    subst d1 s. destruct (Z.to_nat a) eqn:Ea; [lia|done].
Qed.
End read_all.

(** A writer that accepts nothing from a full buffer whose read position
    is 0 (a socket that would block) makes [WriteTo] drop every buffered byte. *)
Lemma WriteTo_refused_loses {W} (wr : W -> bytes -> W * (Z * option error)) rb s s' e :
  wf rb -> IsFull rb = true -> r rb = 0 -> wr s (contents rb) = (s', (0, Some e)) ->
  exists rb', WriteTo wr rb s = Ok (0, Some e, rb', s') /\
    len (contents rb) = size rb /\ 0 < size rb /\ contents rb' = [].
Proof.
  intros Hwf Hf Hr Hw. apply andb_true_iff in Hf as [Hrw E%negb_true_iff].
  apply Z.eqb_eq in Hrw. pose proof (wf_nonempty rb Hwf E) as Hs. pose proof (wf_len rb Hwf).
  assert (contents rb = buf rb) as Hc.
  { unfold contents. rewrite E, <- Hrw, Hr. simpl. rewrite (subl_nil _ 0 0), app_nil_r by lia.
    replace (size rb) with (len (buf rb)). apply subl_full. }
  rewrite Hc in *. unfold WriteTo. rewrite E, <- Hrw, Hr. rewrite Z.ltb_irrefl.
  rewrite !Z.add_0_l, Z.sub_0_r, Z.add_0_r, Z.leb_refl.
  rewrite slice_Ok by lia. rewrite res_bind_Ok.
  replace (subl (buf rb) 0 (size rb)) with (buf rb)
    by (replace (size rb) with (len (buf rb)); by rewrite subl_full).
  rewrite Hw. replace (size rb <? 0) with false by lia.
  unfold gorem. replace (size rb =? 0) with false by lia. simpl.
  eexists. split; [done|]. split_and!; [done|done|].
  rewrite Z.rem_0_l by lia. unfold reset_if_drained. simpl. by rewrite <- Hrw, Hr.
Qed.

(** Reading from an exhausted reader into an empty ring marks it full:
    no byte was read, yet the whole memory counts as buffered. *)
Lemma ReadFrom_eof_marks_full `{BytePool} {R} (rd : R -> Z -> R * (Z * bytes * option error)) rb s :
  wf rb -> isEmpty rb = true -> MinRead <= size rb ->
  (forall n, rd s n = (s, (0, [], Some (EIo EOF)))) ->
  exists rb', ReadFrom rd 1 rb 0 s = Ok (0, None, rb', s) /\
    Buffered rb = 0 /\ Buffered rb' = size rb.
Proof.
  unfold MinRead. intros Hwf E Hs Hrd. pose proof (wf_empty rb Hwf E) as Hrw.
  pose proof (wf_len rb Hwf). pose proof (wf_w rb Hwf).
  pose proof (Buffered_empty rb Hwf E) as Hb. cbn [ReadFrom].
  rewrite Available_Buffered, Hb by done. unfold MinRead.
  replace (size rb - 0 <? 512) with false by lia. rewrite res_bind_Ok.
  replace (r rb <=? w rb) with true by lia. unfold read_into. slice_step. rewrite Hrd. simpl.
  rewrite Z.add_0_r. unfold gorem. replace (size rb =? 0) with false by lia. simpl.
  eexists. split; [done|]. split; [done|]. unfold Buffered. simpl.
  rewrite Z.rem_small, Hrw by lia. case_if.
Qed.

(** ** The ring buffer as a byte queue

    The operations of the interface as a script, their effect on the concrete
    buffer and on an abstract queue of bytes. *)

Inductive ring_op : Set :=
  | OpWrite (p : bytes)
  | OpWriteString (p : bytes)
  | OpWriteByte (c : Z)
  | OpPeek (n : Z)
  | OpDiscard (n : Z)
  | OpRead (n : Z)       (* into a destination of [n] zero bytes *)
  | OpReadByte
  | OpBytes
  | OpBuffered
  | OpIsEmpty
  | OpReset
  | OpReadFrom (data : bytes)                              (* all of a reader over [data] *)
  | OpWriteTo (k : Z) (err : option error)                 (* to a writer that takes [k] bytes of a chunk *)
  | OpCopyFromSocket (avail : bytes) (err : option error)  (* a socket with [avail] to read, or failing *)
  | OpRewind.

(** What an operation returns to its caller, and what a writer was given. *)
Inductive ring_out : Set :=
  | OutCount (n : Z)
  | OutData (d : bytes)
  | OutRead (d : bytes) (n : Z) (err : option error)
  | OutSent (d : bytes) (n : Z) (err : option error)
  | OutBool (b : bool).

Section script.
Context `{BytePool}.

Definition ring_step (rb : Buffer) (o : ring_op) : res (ring_out * Buffer) :=
  match o with
  | OpWrite p => '(n, rb) ← Write rb p; Ok (OutCount n, rb)
  | OpWriteString p => '(n, rb) ← WriteString rb p; Ok (OutCount n, rb)
  | OpWriteByte c => rb ← WriteByte rb c; Ok (OutCount 1, rb)
  | OpPeek n => '(h, t) ← Peek rb n; Ok (OutData (h ++ t), rb)
  | OpDiscard n => '(k, rb) ← Discard rb n; Ok (OutCount k, rb)
  | OpRead n => '(d, k, err, rb) ← Read rb (make_bytes n); Ok (OutRead d k err, rb)
  | OpReadByte => '(b, err, rb) ← ReadByte rb; Ok (OutRead [b] 1 err, rb)
  | OpBytes => d ← Bytes rb; Ok (OutData d, rb)
  | OpBuffered => Ok (OutCount (Buffered rb), rb)
  | OpIsEmpty => Ok (OutBool (IsEmpty rb), rb)
  | OpReset => Ok (OutCount 0, Reset rb)
  | OpReadFrom data =>
      '(n, err, rb, rest) ← ReadFrom mem_reader (S (length data)) rb 0 data; Ok (OutRead rest n err, rb)
  | OpWriteTo k err => '(n, err, rb, sent) ← WriteTo (give_writer k err) rb []; Ok (OutSent sent n err, rb)
  | OpCopyFromSocket avail err => '(n, err, rb) ← CopyFromSocket rb (socket avail err); Ok (OutRead [] n err, rb)
  | OpRewind => '(_, rb) ← Rewind rb; Ok (OutCount 0, rb)
  end.

Fixpoint ring_run (rb : Buffer) (os : list ring_op) : res (list ring_out * Buffer) :=
  match os with
  | [] => Ok ([], rb)
  | o :: os =>
      '(x, rb) ← ring_step rb o;
      '(xs, rb) ← ring_run rb os;
      Ok (x :: xs, rb)
  end.
End script.

(** The queue specification.  Where the memory layout decides how much is moved, as
    for a writer that takes a part of a chunk or for a read into the free memory,
    the specification leaves the amount open within bounds. *)
Definition fifo_step (q : bytes) (o : ring_op) (x : ring_out) (q' : bytes) : Prop :=
  match o with
  | OpWrite p | OpWriteString p => x = OutCount (len p) /\ q' = q ++ p
  | OpWriteByte c => x = OutCount 1 /\ q' = q ++ [c]
  | OpPeek n => x = OutData (if n <=? 0 then q else take (Z.to_nat n) q) /\ q' = q
  | OpDiscard n => x = OutCount (Z.max 0 (Z.min n (len q))) /\ q' = drop (Z.to_nat n) q
  | OpRead n =>
      let k := Z.min n (len q) in
      if n <=? 0 then x = OutRead [] 0 None /\ q' = q
      else match q with
           | [] => x = OutRead (make_bytes n) 0 (Some ErrIsEmpty) /\ q' = q
           | _ => x = OutRead (take (Z.to_nat n) q ++ make_bytes (n - k)) k None /\ q' = drop (Z.to_nat n) q
           end
  | OpReadByte =>
      match q with
      | [] => x = OutRead [0] 1 (Some ErrIsEmpty) /\ q' = q
      | b :: q => x = OutRead [b] 1 None /\ q' = q
      end
  | OpBytes => x = OutData q /\ q' = q
  | OpBuffered => x = OutCount (len q) /\ q' = q
  | OpIsEmpty => x = OutBool (match q with [] => true | _ => false end) /\ q' = q
  | OpReset => x = OutCount 0 /\ q' = []
  | OpReadFrom data => x = OutRead [] (len data) None /\ q' = q ++ data
  | OpWriteTo k err =>
      match q with
      | [] => x = OutSent [] 0 (Some ErrIsEmpty) /\ q' = q
      | _ => exists sent e, x = OutSent sent (len sent) e /\ q = sent ++ q' /\ (0 < k -> sent <> []) /\
          match err with
          | Some y => e = Some y
          | None => Z.min k (len q) <= len sent /\ (e = None /\ q' = [] \/ e = Some (EIo ErrShortWrite) /\ q' <> [])
          end
      end
  | OpCopyFromSocket avail err =>
      exists room, x = OutRead [] (socket_count room avail err) err /\ 0 <= room /\ (q <> [] -> 0 < room) /\
        q' = q ++ take (Z.to_nat (socket_count room avail err)) avail
  | OpRewind => x = OutCount 0 /\ q' = q
  end.

Inductive fifo_run : bytes -> list ring_op -> list ring_out -> bytes -> Prop :=
  | fifo_done q : fifo_run q [] [] q
  | fifo_more q o x q1 os xs q2 : fifo_step q o x q1 -> fifo_run q1 os xs q2 -> fifo_run q (o :: os) (x :: xs) q2.

(** The states in which an operation does not act as on a queue: a byte appended to
    a full ring of [bufferGrowThreshold] bytes or more, an empty reader read into an
    empty ring, a writer that takes nothing of a full ring that starts at 0, and
    [Rewind] on a wrapped ring with little room behind the write position. *)
Definition hazard (rb : Buffer) (o : ring_op) : bool :=
  match o with
  | OpWriteByte _ => IsFull rb && (bufferGrowThreshold <=? size rb)
  | OpReadFrom data => isEmpty rb && (len data =? 0)
  | OpWriteTo k _ => writeto_hazard rb k
  | OpRewind => rewind_hazard rb
  | _ => false
  end.

(** The bytes a script can append. *)
Definition op_bytes (o : ring_op) : Z :=
  match o with
  | OpWrite p | OpWriteString p | OpReadFrom p | OpCopyFromSocket p _ => len p
  | OpWriteByte _ => 1
  | _ => 0
  end.
Definition script_bytes (os : list ring_op) : Z := foldr (fun o n => op_bytes o + n) 0 os.

Lemma make_bytes_nonpos n : n <= 0 -> make_bytes n = [].
Proof. intros. unfold make_bytes. by replace (Z.to_nat n) with 0%nat by lia. Qed.

(** What is left in the ring after a read of [n] bytes, as list operations. *)
Lemma contents_drop rb n :
  wf rb -> 0 <= n -> subl (contents rb) (Z.min n (Buffered rb)) (len (contents rb)) =
    drop (Z.to_nat n) (contents rb).
Proof.
  intros Hwf Hn. pose proof (len_contents rb Hwf) as Hl. pose proof (Buffered_bounds rb Hwf).
  rewrite subl_drop by lia. destruct (decide (n <= Buffered rb)).
  - by rewrite Z.min_l.
  - rewrite !drop_ge; [done|unfold len in Hl; lia..].
Qed.

Lemma contents_take rb n :
  wf rb -> 0 <= n -> subl (contents rb) 0 (Z.min n (Buffered rb)) = take (Z.to_nat n) (contents rb).
Proof.
  intros Hwf Hn. pose proof (len_contents rb Hwf) as Hl. rewrite subl_take.
  destruct (decide (n <= Buffered rb)); [by rewrite Z.min_l|].
  rewrite !take_ge; [done|unfold len in Hl; lia..].
Qed.

Lemma op_bytes_nonneg o : 0 <= op_bytes o.
Proof. destruct o; simpl; auto with rc; lia. Qed.

Lemma script_bytes_nonneg os : 0 <= script_bytes os.
Proof. induction os as [|o os IH]; simpl; [lia|]. pose proof (op_bytes_nonneg o). lia. Qed.

(** No operation holds more than what was held and what it appends. *)
Lemma fifo_step_len q o x q' : fifo_step q o x q' -> len q' <= len q + op_bytes o.
Proof.
  assert (forall n : nat, len (drop n q) <= len q) as Hd by (intros n; unfold len; rewrite length_drop; lia).
  destruct o as [p|p|c|n|n|n| | | | | |data|k err|avail err|]; simpl.
  - intros [_ ->]. rewrite len_app. lia.
  - intros [_ ->]. rewrite len_app. lia.
  - intros [_ ->]. rewrite len_app. change (len [c]) with 1. lia.
  - intros [_ ->]. lia.
  - intros [_ ->]. rewrite Z.add_0_r. apply Hd.
  - rewrite Z.add_0_r. case_if; [by intros [_ ->]|]. destruct q; intros [_ ->]; [done|apply Hd].
  - rewrite Z.add_0_r. destruct q as [|b q]; intros [_ ->]; [done|]. rewrite len_cons. lia.
  - intros [_ ->]. lia.
  - intros [_ ->]. lia.
  - intros [_ ->]. lia.
  - intros [_ ->]. rewrite len_nil. pose proof (len_nonneg q). lia.
  - intros [_ ->]. rewrite len_app. lia.
  - rewrite Z.add_0_r. destruct q as [|b q]; [by intros [_ ->]|]. intros (sent & e & _ & Hq & _). rewrite Hq, len_app.
    pose proof (len_nonneg sent). lia.
  - intros (room & _ & _ & _ & ->). rewrite len_app. unfold len. rewrite length_take. lia.
  - intros [_ ->]. lia.
Qed.

Section refinement.
Context `{BytePool}.

Lemma ring_read_refines rb n :
  wf rb -> size rb <= 2 ^ 58 ->
  exists x rb', ring_step rb (OpRead n) = Ok (x, rb') /\
    fifo_step (contents rb) (OpRead n) x (contents rb') /\ wf rb' /\ size rb' <= 2 ^ 58.
Proof.
  intros Hwf Hsz. pose proof (len_contents rb Hwf) as Hl.
  pose proof (Buffered_bounds rb Hwf) as Hbb. simpl. case_if.
  { eexists _, rb. by rewrite make_bytes_nonpos by lia. }
  pose proof (len_make_bytes n ltac:(lia)) as Hm. destruct (isEmpty rb) eqn:E.
  { eexists _, rb. unfold Read. rewrite E. replace (len (make_bytes n) =? 0) with false by lia.
    simpl. by rewrite (proj2 (contents_nil rb Hwf) E). }
  destruct (ring_Read_spec rb (make_bytes n) Hwf E ltac:(lia)) as (rb' & -> & ? & ? & Hc').
  simpl. eexists _, rb'. split_and!; [done| |done|lia].
  pose proof (Buffered_nonempty rb Hwf E). rewrite Hm in *.
  rewrite Hc', contents_drop by (done || lia).
  destruct (contents rb) as [|b l] eqn:Ec; [unfold len in Hl; simpl in Hl; lia|].
  rewrite <- Ec in *. rewrite <- contents_take, Hl by (done || lia). split; [|done]. f_equal.
  rewrite copy_at_0 by (rewrite len_subl; lia). rewrite len_subl, Hm by lia. f_equal.
  unfold subl, make_bytes. rewrite drop_replicate, take_replicate. f_equal. lia.
Qed.

(** The operations that move bytes between the ring and a stream, or inside it. *)
Lemma ring_stream_refines rb o :
  wf rb -> size rb <= 2 ^ 57 -> Buffered rb + op_bytes o <= 2 ^ 54 -> hazard rb o = false ->
  match o with OpReadFrom _ | OpWriteTo _ _ | OpCopyFromSocket _ _ | OpRewind | OpWriteByte _ => True | _ => False end ->
  exists x rb', ring_step rb o = Ok (x, rb') /\ fifo_step (contents rb) o x (contents rb') /\
    wf rb' /\ size rb' <= 2 ^ 57.
Proof.
  intros Hwf Hsz Hb Hh Ho. pose proof (len_contents rb Hwf) as Hl. pose proof (Buffered_bounds rb Hwf) as Hbb.
  destruct o as [p|p|c|n|n|n| | | | | |data|k err|avail err|]; try done; cbn [ring_step fifo_step op_bytes hazard] in *.
  - destruct (WriteByte_spec rb c) as (rb' & -> & ? & ? & ?); [done| |].
    { destruct (IsFull rb); [right; simpl in Hh; lia|by left]. }
    eexists _, rb'. split_and!; [done|done|done|done|lia].
  - destruct (ReadFrom_mem (S (length data)) rb 0 data) as (rb' & -> & ? & ? & ?); [done|lia|lia| |lia|].
    { intros ->. rewrite andb_true_r in Hh. done. }
    eexists _, rb'. rewrite Z.add_0_l. split_and!; [done|done|done|done|lia].
  - destruct (isEmpty rb) eqn:E.
    { eexists _, rb. unfold WriteTo. rewrite E. simpl. by rewrite (proj2 (contents_nil rb Hwf) E). }
    destruct (WriteTo_gives rb k err Hwf E Hh) as (sent & e & rb' & -> & ? & Hs & Hc & Hk & He).
    eexists _, rb'. split; [done|]. split; [|split; [done|lia]].
    destruct (contents rb) as [|b l] eqn:Ec; [apply contents_nil in Ec; congruence|].
    exists sent, e. done.
  - destruct (CopyFromSocket_spec rb avail err) as (room & rb' & -> & ? & Hc & Hr0 & Hr1 & Hs); [done|lia|].
    pose proof (len_nonneg avail). eexists _, rb'. split; [done|]. split; [|split; [done|lia]]. exists room.
    split_and!; [done|done| |done]. intros Hne. apply Hr1.
    destruct (isEmpty rb) eqn:E; [by apply contents_nil in E|by apply (wf_nonempty rb Hwf)].
  - destruct (Rewind_spec rb) as (n & rb' & -> & ? & ? & ?); [done|lia|done|].
    eexists _, rb'. split_and!; [done|done|done|done|lia].
Qed.

Lemma ring_step_refines rb o :
  wf rb -> size rb <= 2 ^ 57 -> Buffered rb + op_bytes o <= 2 ^ 54 -> hazard rb o = false ->
  exists x rb', ring_step rb o = Ok (x, rb') /\ fifo_step (contents rb) o x (contents rb') /\
    wf rb' /\ size rb' <= 2 ^ 57.
Proof.
  intros Hwf Hsz Hb Hh. pose proof (len_contents rb Hwf) as Hl.
  pose proof (Buffered_bounds rb Hwf) as Hbb.
  destruct o as [p|p|c|n|n|n| | | | | |data|k err|avail err|]; try (by apply ring_stream_refines); simpl in *.
  - destruct (ring_Write_spec rb p) as (rb' & -> & ? & Hc & ?); [done|lia|].
    eexists _, rb'. split_and!; done || lia.
  - unfold WriteString. destruct (ring_Write_spec rb p) as (rb' & -> & ? & Hc & ?); [done|lia|].
    eexists _, rb'. split_and!; done || lia.
  - destruct (ring_Peek_spec rb n Hwf) as (h & t & -> & Hc). simpl. eexists _, rb.
    rewrite Hc. split_and!; [done| |done|done|done]. f_equal. case_if; [done|]. apply contents_take; done || lia.
  - destruct (ring_Discard_spec rb n Hwf) as (rb' & -> & ? & ? & Hc). eexists _, rb'.
    rewrite Hc, Hl. split_and!; [done|done| |done|lia]. destruct (decide (n <= 0)).
    + replace (Z.to_nat n) with 0%nat by lia. by rewrite Z.max_l, <- Hl, subl_full by lia.
    + rewrite Z.max_r, <- Hl by lia. rewrite Hl at 1. by rewrite contents_drop by (done || lia).
  - destruct (ring_read_refines rb n Hwf) as (x & rb' & Hx & Hf & Hw' & _); [lia|].
    exists x, rb'. split; [exact Hx|]. split; [exact Hf|]. split; [done|].
    simpl in Hx. apply res_bind_inv in Hx as ([[[d k] e] rb1] & Hr & Hx). injection Hx as _ <-.
    by rewrite (Read_size _ _ _ _ _ _ Hr).
  - destruct (isEmpty rb) eqn:E.
    + eexists _, rb. unfold ReadByte. rewrite E. simpl.
      by rewrite (proj2 (contents_nil rb Hwf) E).
    + destruct (ReadByte_spec rb Hwf E) as (b & rest & rb' & -> & -> & ? & ? & <-).
      eexists _, rb'. split_and!; done || lia.
  - rewrite Bytes_spec by done. simpl. eauto 10.
  - rewrite Hl. eauto 10.
  - eexists _, rb. split_and!; try done. f_equal. unfold IsEmpty.
    destruct (isEmpty rb) eqn:E; [by rewrite (proj2 (contents_nil rb Hwf) E)|].
    destruct (contents rb) eqn:Ec; [|done]. apply contents_nil in Ec; congruence.
  - eexists _, (Reset rb). split_and!; try done. by apply wf_Reset.
Qed.
End refinement.

Section run.
Context `{BytePool}.

(** A run goes on as a queue to its end or to the first hazard. *)
Lemma ring_run_refines os rb :
  wf rb -> size rb <= 2 ^ 57 -> Buffered rb + script_bytes os <= 2 ^ 54 ->
  exists os1 os2 xs rb', os = os1 ++ os2 /\ ring_run rb os1 = Ok (xs, rb') /\
    fifo_run (contents rb) os1 xs (contents rb') /\ wf rb' /\
    match os2 with [] => True | o :: _ => hazard rb' o = true end.
Proof.
  revert rb. induction os as [|o os IH]; intros rb Hwf Hsz Hb; simpl in *.
  { exists [], [], [], rb. split_and!; try done. constructor. }
  pose proof (script_bytes_nonneg os). pose proof (op_bytes_nonneg o). destruct (hazard rb o) eqn:Hh.
  { exists [], (o :: os), [], rb. split_and!; try done. constructor. }
  destruct (ring_step_refines rb o) as (x & rb' & Hx & Hf & Hwf' & Hsz'); [done|done|lia|done|].
  destruct (IH rb') as (os1 & os2 & xs & rb2 & -> & Hr & Hrun & Hwf2 & Hend); [done|done| |].
  { apply fifo_step_len in Hf. rewrite !len_contents in Hf by done. lia. }
  exists (o :: os1), os2, (x :: xs), rb2. split; [done|]. split; [simpl; by rewrite Hx; simpl; rewrite Hr|].
  split; [by econstructor|]. done.
Qed.


(** Appending a single byte works whenever the buffer is not full or is
    below the growth threshold, but on a full buffer of [bufferGrowThreshold]
    bytes or more the growth request of one byte is a no-op and the store is
    out of range. *)
Lemma WriteByte_full_panics rb c :
  wf rb ->
  ((IsFull rb = false \/ size rb < bufferGrowThreshold) ->
     exists rb', WriteByte rb c = Ok rb' /\ wf rb' /\ contents rb' = contents rb ++ [c]) /\
  (IsFull rb = true -> bufferGrowThreshold <= size rb -> WriteByte rb c = Panic).
Proof.
  intros Hwf. split.
  { intros Hf. destruct (WriteByte_spec rb c Hwf Hf) as (rb' & ? & ? & ? & _). by exists rb'. }
  intros Hfull Hth.
  apply andb_true_iff in Hfull as [Hrw He%negb_true_iff]. apply Z.eqb_eq in Hrw.
  assert (Buffered rb = size rb) as Hb by (unfold Buffered; rewrite He, Hrw, Z.eqb_refl; done).
  unfold WriteByte. rewrite Available_Buffered, Hb by done.
  replace (size rb - size rb <? 1) with true by lia.
  pose proof (wf_size rb Hwf) as Hs. unfold max_size, bufferGrowThreshold in *.
  assert (grow_cap (size rb) 1 = Ok (size rb)) as Hg.
  { unfold grow_cap, bufferGrowThreshold. rewrite wrap64_id by lia.
    replace (size rb =? 0) with false by lia. replace (1 <=? size rb + size rb) with true by lia.
    replace (size rb <? 4 * 1024) with false by lia. cbn [grow_loop].
    replace (size rb <? 1) with false by lia. rewrite andb_false_r. simpl. by case_if. }
  unfold grow. rewrite Hg. simpl. pose proof (bsGet_len (size rb) ltac:(lia)) as Hl.
  assert (0 < len (bsGet (size rb))) as Hl0 by lia.
  destruct (ring_Read_spec rb (bsGet (size rb)) Hwf He Hl0) as (rb' & -> & _).
  rewrite Hb, Hl, Z.min_id. simpl. replace (0 <? size rb) with true by lia. simpl.
  unfold set_index. rewrite len_copy_at by lia. rewrite Hl.
  replace (size rb <? size rb) with false by lia. by rewrite andb_false_r.
Qed.
End run.

(** ** Witnesses *)

Definition sample_script : list ring_op :=
  [OpWrite [1; 2; 3]; OpRead 2; OpWrite [4; 5; 6; 7]; OpPeek 3; OpDiscard 1; OpBytes; OpReadByte;
   OpWriteByte 8; OpCopyFromSocket [9; 10] None; OpRewind; OpWriteTo 3 None; OpReadFrom [11; 12]; OpBuffered].

(** A full ring of four bytes, and one of 4096. *)
Definition full4 : Buffer := mkBuffer [1; 2; 3; 4] 4 0 0 false.
Definition full4096 : Buffer := mkBuffer (make_bytes 4096) 4096 0 0 false.
Definition empty512 : Buffer := mkBuffer (make_bytes 512) 512 0 0 true.

Lemma wf_full4 : wf full4.
Proof. split; vm_compute; try split; congruence. Qed.
Lemma wf_full4096 : wf full4096.
Proof. split; vm_compute; try split; congruence. Qed.
Lemma wf_empty512 : wf empty512.
Proof. split; vm_compute; try split; congruence. Qed.

(** The sample script on a ring of four bytes makes it grow. *)
Example ring_sample_run :
  (fun y => (y.1, contents y.2)) <$> (rb ← New 4; @ring_run empty_pool rb sample_script) =
  Ok ([OutCount 3; OutRead [1; 2] 2 None; OutCount 4; OutData [3; 4; 5]; OutCount 1;
       OutData [4; 5; 6; 7]; OutRead [4] 1 None; OutCount 1; OutRead [] 2 None; OutCount 0;
       OutSent [5; 6; 7] 3 (Some (EIo ErrShortWrite)); OutRead [] 2 None; OutCount 5], [8; 9; 10; 11; 12]).
Proof. vm_compute. reflexivity. Qed.

(** Rewinding a wrapped ring panics. *)
Example rewind_sample : @Rewind empty_pool (mkBuffer [1; 2; 3; 4] 4 2 1 false) = Panic.
Proof. apply Rewind_wrapped_panics; [split; vm_compute; try split; congruence|reflexivity..]. Qed.


Lemma WriteByte_full_panics_witness : @WriteByte empty_pool full4096 7 = Panic.
Proof.
  refine (proj2 (@WriteByte_full_panics empty_pool full4096 7 wf_full4096) _ _);
    vm_compute; congruence.
Defined.

(** A writer that takes at most [k] bytes of each chunk and records them. *)
Definition take_writer (k : Z) (s : bytes) (c : bytes) : bytes * (Z * option error) :=
  (s ++ subl c 0 (Z.min k (len c)), (Z.min k (len c), None)).

(** A writer that would block. *)
Definition blocked_writer (s : bytes) (c : bytes) : bytes * (Z * option error) :=
  (s, (0, Some (ESys 11))).

Definition wrapped4 : Buffer := mkBuffer [1; 2; 3; 4] 4 2 1 false.

Lemma wf_wrapped4 : wf wrapped4.
Proof. split; vm_compute; try split; congruence. Qed.

Lemma take_writer_ok : writer_ok (take_writer 3).
Proof. intros s c. simpl. pose proof (len_nonneg c). lia. Qed.

Lemma WriteTo_drains_witness :
  exists out s', WriteTo (take_writer 3) wrapped4 [] = Ok (out, s') /\ short_ok wrapped4 out /\
    (writer_logs (take_writer 3) id -> s' = [] ++ subl (contents wrapped4) 0 out.1.1).
Proof.
  apply (WriteTo_drains (take_writer 3) id wrapped4 []).
  - exact take_writer_ok.
  - exact wf_wrapped4.
  - reflexivity.
  - vm_compute. congruence.
Defined.

Lemma WriteTo_refused_loses_witness :
  exists rb', WriteTo blocked_writer full4 [] = Ok (0, Some (ESys 11), rb', []) /\
    len (contents full4) = size full4 /\ 0 < size full4 /\ contents rb' = [].
Proof.
  apply (WriteTo_refused_loses blocked_writer full4 [] []).
  - exact wf_full4.
  - reflexivity.
  - reflexivity.
  - reflexivity.
Defined.

(** A reader at the end of its input. *)
Definition eof_reader (s : unit) (n : Z) : unit * (Z * bytes * option error) :=
  (s, (0, [], Some (EIo EOF))).

Lemma ReadFrom_eof_marks_full_witness :
  exists rb', @ReadFrom unit eof_reader empty_pool 1%nat empty512 0 tt = Ok (0, None, rb', tt) /\
    Buffered empty512 = 0 /\ Buffered rb' = size empty512.
Proof.
  apply (@ReadFrom_eof_marks_full empty_pool unit eof_reader empty512 tt).
  - exact wf_empty512.
  - reflexivity.
  - vm_compute. congruence.
  - reflexivity.
Defined.
