(* ===== verification/LinkedList.v ===== *)
(** * The linked-list buffer

    [core/pkg/buffer/linkedlist/linked_list_buffer.go]: a singly linked list
    of byte slices with head and tail pointers and counters.  Nodes live in a
    private heap of the buffer, addressed by locations, and the operations
    follow and update the [next] pointers as the code does; [repr] relates the
    pointer structure to the list of slices it stands for.

    The scratch slice [bs] that [Peek] reuses for its result carries no state
    from one call to the next and is not a field of the model. *)

From S2P Require Import Prelude Errors Byteslice.

Abbreviation loc := positive.

Record node := Node { nbuf : bytes; nnext : option loc }.

Record Buffer := mkLL {
  heap : gmap loc node;
  fresh_loc : loc;            (* next unused location *)
  head : option loc;
  tail : option loc;
  size : Z;
  nbytes : Z;
}.

(** The zero value of the Go struct. *)
Definition empty : Buffer := mkLL ∅ 1%positive None None 0 0.

(** Dereference a location of the heap. *)
Definition load (b : Buffer) (l : loc) : res node :=
  match heap b !! l with Some n => Ok n | None => Panic end.

Definition with_heap (b : Buffer) (h : gmap loc node) : Buffer :=
  mkLL h (fresh_loc b) (head b) (tail b) (size b) (nbytes b).

(** [&node{buf: d}]. *)
Definition alloc_node (b : Buffer) (d : bytes) : loc * Buffer :=
  (fresh_loc b,
   mkLL (<[fresh_loc b := Node d None]> (heap b)) (Pos.succ (fresh_loc b))
     (head b) (tail b) (size b) (nbytes b)).

(** [pop]: unlink the first node. *)
Definition pop (b : Buffer) : res (option loc * Buffer) :=
  match head b with
  | None => Ok (None, b)
  | Some l =>
      n ← load b l;
      let tl := match nnext n with None => None | Some _ => tail b end in
      Ok (Some l,
          mkLL (<[l := Node (nbuf n) None]> (heap b)) (fresh_loc b)
            (nnext n) tl (size b - 1) (nbytes b - len (nbuf n)))
  end.

(** [pushFront]: link a node before the first. *)
Definition pushFront (b : Buffer) (l : loc) : res Buffer :=
  n ← load b l;
  let tl := match head b with None => Some l | Some _ => tail b end in
  let nx := match head b with None => None | Some h => Some h end in
  Ok (mkLL (<[l := Node (nbuf n) nx]> (heap b)) (fresh_loc b) (Some l) tl
        (size b + 1) (nbytes b + len (nbuf n))).

(** [pushBack]: link a node after the last. *)
Definition pushBack (b : Buffer) (l : loc) : res Buffer :=
  b' ← (match tail b with
        | None => Ok (mkLL (heap b) (fresh_loc b) (Some l) (tail b) (size b) (nbytes b))
        | Some t =>
            nt ← load b t;
            Ok (with_heap b (<[t := Node (nbuf nt) (Some l)]> (heap b)))
        end);
  n ← load b' l;
  Ok (mkLL (<[l := Node (nbuf n) None]> (heap b')) (fresh_loc b') (head b') (Some l)
        (size b' + 1) (nbytes b' + len (nbuf n))).

(** [b.buf = d] for a node [b]. *)
Definition set_nbuf (b : Buffer) (l : loc) (d : bytes) : res Buffer :=
  n ← load b l; Ok (with_heap b (<[l := Node d (nnext n)]> (heap b))).

Definition PushFront (b : Buffer) (p : bytes) : res Buffer :=
  if len p =? 0 then Ok b
  else let '(l, b) := alloc_node b p in pushFront b l.

Definition PushBack (b : Buffer) (p : bytes) : res Buffer :=
  if len p =? 0 then Ok b
  else let '(l, b) := alloc_node b p in pushBack b l.

(** The loop of [Read]: [acc] is what was copied into [p] so far. *)
Fixpoint Read_loop (fuel : nat) (b : Buffer) (plen : Z) (acc : bytes) : res (bytes * Buffer) :=
  match fuel with
  | O => OutOfFuel
  | S fuel =>
      '(ol, b) ← pop b;
      match ol with
      | None => Ok (acc, b)
      | Some l =>
          n ← load b l;
          let m := Z.min (plen - len acc) (len (nbuf n)) in
          let acc := acc ++ subl (nbuf n) 0 m in
          b ← (if m <? len (nbuf n) then
                 b ← set_nbuf b l (subl (nbuf n) m (len (nbuf n)));
                 pushFront b l
               else Ok b);
          if len acc =? plen then Ok (acc, b) else Read_loop fuel b plen acc
      end
  end.

(** [Read]: the bytes copied into a destination of [plen] bytes; the error is
    always nil. *)
Definition Read (b : Buffer) (plen : Z) : res (bytes * Buffer) :=
  if plen =? 0 then Ok ([], b) else Read_loop (S (Z.to_nat (size b))) b plen [].

(** The node walk of [Peek]: whole slices until [maxBytes] are covered. *)
Fixpoint Peek_loop (fuel : nat) (b : Buffer) (it : option loc) (cum maxBytes : Z) : res (list bytes) :=
  match fuel with
  | O => OutOfFuel
  | S fuel =>
      match it with
      | None => Ok []
      | Some l =>
          n ← load b l;
          let cum := cum + len (nbuf n) in
          if maxBytes <=? cum then Ok [nbuf n]
          else rest ← Peek_loop fuel b (nnext n) cum maxBytes; Ok (nbuf n :: rest)
      end
  end.

Definition Peek (b : Buffer) (maxBytes : Z) : res (list bytes) :=
  let maxBytes := if maxBytes <=? 0 then MaxInt32 else maxBytes in
  Peek_loop (S (Z.to_nat (size b))) b (head b) 0 maxBytes.

(** The leading slices of [PeekWithBytes]: the slices taken, their bytes, and
    whether they already reach [maxBytes]. *)
Fixpoint Peek_given (bs : list bytes) (cum maxBytes : Z) : list bytes * Z * bool :=
  match bs with
  | [] => ([], cum, false)
  | d :: bs =>
      if 0 <? len d then
        let cum := cum + len d in
        if maxBytes <=? cum then ([d], cum, true)
        else let '(l, c, stop) := Peek_given bs cum maxBytes in (d :: l, c, stop)
      else Peek_given bs cum maxBytes
  end.

Definition PeekWithBytes (b : Buffer) (maxBytes : Z) (bs : list bytes) : res (list bytes) :=
  let maxBytes := if maxBytes <=? 0 then MaxInt32 else maxBytes in
  let '(l, cum, stop) := Peek_given bs 0 maxBytes in
  if stop : bool then Ok l
  else
    rest ← Peek_loop (S (Z.to_nat (size b))) b (head b) cum maxBytes;
    Ok (l ++ rest).

Fixpoint Discard_loop (fuel : nat) (b : Buffer) (n discarded : Z) : res (Z * Buffer) :=
  match fuel with
  | O => OutOfFuel
  | S fuel =>
      if n =? 0 then Ok (discarded, b)
      else
        '(ol, b) ← pop b;
        match ol with
        | None => Ok (discarded, b)
        | Some l =>
            nd ← load b l;
            if n <? len (nbuf nd) then
              b ← set_nbuf b l (subl (nbuf nd) n (len (nbuf nd)));
              b ← pushFront b l;
              Ok (discarded + n, b)
            else Discard_loop fuel b (n - len (nbuf nd)) (discarded + len (nbuf nd))
        end
  end.

Definition Discard (b : Buffer) (n : Z) : res (Z * Buffer) :=
  if n <=? 0 then Ok (0, b) else Discard_loop (S (S (Z.to_nat (size b)))) b n 0.

Definition Len (b : Buffer) : Z := size b.
Definition Buffered (b : Buffer) : Z := nbytes b.
Definition IsEmpty (b : Buffer) : bool := match head b with None => true | Some _ => false end.

Fixpoint Reset_loop (fuel : nat) (b : Buffer) : res Buffer :=
  match fuel with
  | O => OutOfFuel
  | S fuel =>
      '(ol, b) ← pop b;
      match ol with None => Ok b | Some _ => Reset_loop fuel b end
  end.

Definition Reset (b : Buffer) : res Buffer :=
  b ← Reset_loop (S (Z.to_nat (size b))) b;
  Ok (mkLL (heap b) (fresh_loc b) None None 0 0).

Definition minRead : Z := 512.

Section streams.
Context {W R : Type} (wr : W -> bytes -> W * (Z * option error))
  (rd : R -> Z -> R * (Z * bytes * option error)).

Fixpoint ReadFrom (fuel : nat) (b : Buffer) (n : Z) (s : R) : res (Z * option error * Buffer * R) :=
  match fuel with
  | O => OutOfFuel
  | S fuel =>
      let '(s, (m, data, err)) := rd s minRead in
      if m <? 0 then Panic
      else
        let n := n + m in
        match err with
        | Some (EIo EOF) => Ok (n, None, b, s)
        | Some e => Ok (n, Some e, b, s)
        | None =>
            let '(l, b) := alloc_node b (subl data 0 m) in
            b ← pushBack b l;
            ReadFrom fuel b n s
        end
  end.

Fixpoint WriteTo_loop (fuel : nat) (b : Buffer) (n : Z) (s : W) : res (Z * option error * Buffer * W) :=
  match fuel with
  | O => OutOfFuel
  | S fuel =>
      '(ol, b) ← pop b;
      match ol with
      | None => Ok (n, None, b, s)
      | Some l =>
          nd ← load b l;
          let '(s, (m, err)) := wr s (nbuf nd) in
          if len (nbuf nd) <? m then Panic
          else
            let n := n + m in
            match err with
            | Some e => Ok (n, Some e, b, s)
            | None =>
                if m <? len (nbuf nd) then
                  d ← slice (nbuf nd) m (len (nbuf nd));
                  b ← set_nbuf b l d;
                  b ← pushFront b l;
                  Ok (n, Some (EIo ErrShortWrite), b, s)
                else WriteTo_loop fuel b n s
            end
      end
  end.

Definition WriteTo (b : Buffer) (s : W) : res (Z * option error * Buffer * W) :=
  WriteTo_loop (S (Z.to_nat (size b))) b 0 s.
End streams.

(** ** Representation *)

(** The nodes [ls] (location and slice) are linked in order from [p]. *)
Fixpoint is_chain (h : gmap loc node) (p : option loc) (ls : list (loc * bytes)) : Prop :=
  match ls with
  | [] => p = None
  | (x, d) :: ls => p = Some x /\ exists nx, h !! x = Some (Node d nx) /\ is_chain h nx ls
  end.

Definition total (ls : list (loc * bytes)) : Z := foldr (fun x n => len x.2 + n) 0 ls.

Record repr (b : Buffer) (ls : list (loc * bytes)) : Prop := {
  repr_chain : is_chain (heap b) (head b) ls;
  repr_nodup : NoDup ls.*1;
  repr_fresh : Forall (fun x => (x < fresh_loc b)%positive) ls.*1;
  repr_tail : tail b = last ls.*1;
  repr_size : size b = len ls;
  repr_bytes : nbytes b = total ls;
}.

Definition wf (b : Buffer) : Prop := exists ls, repr b ls.

(** The slices in order, by walking the list. *)
Fixpoint walk (fuel : nat) (h : gmap loc node) (p : option loc) : list bytes :=
  match fuel, p with
  | S fuel, Some x =>
      match h !! x with Some n => nbuf n :: walk fuel h (nnext n) | None => [] end
  | _, _ => []
  end.

(** The buffered bytes, oldest first. *)
Definition contents (b : Buffer) : bytes := concat (walk (Z.to_nat (size b)) (heap b) (head b)).

Lemma walk_chain h p ls fuel : is_chain h p ls -> (length ls <= fuel)%nat -> walk fuel h p = ls.*2.
Proof.
  revert p fuel. induction ls as [|[x d] ls IH]; intros p fuel; simpl.
  - intros -> _. by destruct fuel.
  - intros (-> & nx & Hx & Hc) Hf. destruct fuel as [|fuel]; [lia|]. simpl.
    rewrite Hx. simpl. f_equal. apply IH; [done|lia].
Qed.

Lemma contents_repr b ls : repr b ls -> contents b = concat ls.*2.
Proof.
  intros Hr. unfold contents. rewrite (walk_chain _ _ ls); [done|apply Hr|].
  rewrite (repr_size _ _ Hr). unfold len. lia.
Qed.

Lemma total_concat ls : total ls = len (concat ls.*2).
Proof. induction ls as [|[x d] ls IH]; simpl; [done|]. by rewrite len_app, IH. Qed.

Lemma list_Buffered_contents b : wf b -> Buffered b = len (contents b).
Proof.
  intros [ls Hr]. unfold Buffered. rewrite (contents_repr _ _ Hr), <- total_concat. apply Hr.
Qed.

Lemma is_chain_frame h p ls x n : x ∉ (ls.*1) -> is_chain h p ls -> is_chain (<[x := n]> h) p ls.
Proof.
  revert p. induction ls as [|[y d] ls IH]; simpl; intros p Hx; [done|].
  apply not_elem_of_cons in Hx as [Hne Hx]. intros (-> & nx & Hy & Hc).
  split; [done|]. exists nx. rewrite lookup_insert_ne by done. eauto.
Qed.

Lemma repr_empty : repr empty [].
Proof. split; simpl; done || constructor. Qed.

Lemma contents_empty : contents empty = [].
Proof. reflexivity. Qed.

Lemma wf_empty : wf empty.
Proof. exists []. apply repr_empty. Qed.

Lemma IsEmpty_repr b ls : repr b ls -> IsEmpty b = match ls with [] => true | _ => false end.
Proof.
  intros [Hc _ _ _ _ _]. unfold IsEmpty. destruct ls as [|[x d] ls]; simpl in Hc.
  - by rewrite Hc.
  - by destruct Hc as [-> _].
Qed.

Lemma load_Ok b x n : heap b !! x = Some n -> load b x = Ok n.
Proof. intros H. unfold load. by rewrite H. Qed.

Lemma pop_nil b : repr b [] -> pop b = Ok (None, b).
Proof. intros [Hc _ _ _ _ _]. unfold pop. simpl in Hc. by rewrite Hc. Qed.

Lemma pop_cons b x d ls :
  repr b ((x, d) :: ls) ->
  exists b', pop b = Ok (Some x, b') /\ repr b' ls /\ heap b' !! x = Some (Node d None) /\
    (x ∉ ls.*1) /\ (x < fresh_loc b')%positive /\ size b' = size b - 1.
Proof.
  intros [Hc Hn Hf Ht Hs Hb]. simpl in *. destruct Hc as (Hh & nx & Hx & Hc).
  apply NoDup_cons in Hn as [Hx' Hn]. apply Forall_cons in Hf as [Hxf Hf].
  unfold pop. rewrite Hh, (load_Ok _ _ _ Hx). simpl. eexists. split; [done|].
  split_and!; simpl; [|apply lookup_insert_eq|done..].
  split; simpl; try done.
  - by apply is_chain_frame.
  - destruct ls as [|[y e] ls]; simpl in *; [by rewrite Hc|].
    destruct Hc as [-> _]. by rewrite Ht.
  - rewrite Hs, len_cons. lia.
  - rewrite Hb. lia.
Qed.

Lemma pushFront_repr b x d nx ls :
  repr b ls -> heap b !! x = Some (Node d nx) -> x ∉ (ls.*1) -> (x < fresh_loc b)%positive ->
  exists b', pushFront b x = Ok b' /\ repr b' ((x, d) :: ls).
Proof.
  intros [Hc Hn Hf Ht Hs Hb] Hx Hx' Hxf. unfold pushFront. rewrite (load_Ok _ _ _ Hx). simpl.
  eexists. split; [done|]. split; simpl.
  - split; [done|]. eexists. split; [apply lookup_insert_eq|].
    apply is_chain_frame; [done|]. by destruct (head b).
  - by apply NoDup_cons.
  - by apply Forall_cons.
  - destruct ls as [|[y e] ls]; simpl in *; [by rewrite Hc|].
    destruct Hc as [-> _]. by rewrite Ht.
  - rewrite Hs, len_cons. lia.
  - rewrite Hb. lia.
Qed.

(** Redirecting the last [next] pointer extends the chain. *)
Lemma is_chain_snoc h p ls x d t dt :
  is_chain h p (ls ++ [(t, dt)]) -> NoDup ((ls ++ [(t, dt)]).*1) -> x ∉ (ls ++ [(t, dt)]).*1 ->
  is_chain (<[x := Node d None]> (<[t := Node dt (Some x)]> h)) p (ls ++ [(t, dt); (x, d)]).
Proof.
  revert p. induction ls as [|[y e] ls IH]; simpl; intros p.
  - intros (-> & nx & Ht & ->) _ Hx. apply not_elem_of_cons in Hx as [Hne _].
    split; [done|]. eexists. rewrite lookup_insert_ne, lookup_insert_eq by done.
    split; [done|]. simpl. split; [done|]. exists None. by rewrite lookup_insert_eq.
  - intros (-> & nx & Hy & Hc) Hn Hx. apply NoDup_cons in Hn as [Hy' Hn].
    apply not_elem_of_cons in Hx as [Hne Hx]. split; [done|]. exists nx.
    rewrite !lookup_insert_ne; [|intros ->; apply Hy'; rewrite fmap_app; set_solver|done].
    split; [done|]. by apply IH.
Qed.

Lemma pushBack_repr b x d nx ls :
  repr b ls -> heap b !! x = Some (Node d nx) -> x ∉ (ls.*1) -> (x < fresh_loc b)%positive ->
  exists b', pushBack b x = Ok b' /\ repr b' (ls ++ [(x, d)]).
Proof.
  intros [Hc Hn Hf Ht Hs Hb] Hx Hx' Hxf. unfold pushBack.
  destruct ls as [|[t dt] ls0 _] using rev_ind.
  - simpl in *. rewrite Ht. simpl. rewrite (load_Ok _ x (Node d nx)) by done. simpl.
    eexists. split; [done|]. split; simpl.
    + split; [done|]. exists None. by rewrite lookup_insert_eq.
    + by apply NoDup_singleton.
    + by constructor.
    + done.
    + rewrite Hs. done.
    + rewrite Hb. simpl. lia.
  - rewrite fmap_app in Ht. simpl in Ht. rewrite last_snoc in Ht. rewrite Ht.
    assert (exists nt, heap b !! t = Some (Node dt nt)) as [nt Hnt].
    { clear -Hc. revert Hc. generalize (head b). induction ls0 as [|[y e] ls IH]; simpl; intros p.
      - intros (_ & nx & ? & _). eauto.
      - intros (_ & nx & _ & ?). eauto. }
    rewrite (load_Ok _ _ _ Hnt). simpl.
    assert (x <> t) as Hne by (rewrite fmap_app in Hx'; set_solver).
    rewrite (load_Ok _ x (Node d nx)) by (simpl; by rewrite lookup_insert_ne). simpl.
    eexists. split; [done|]. rewrite <- app_assoc. split; simpl.
    + by apply is_chain_snoc.
    + rewrite fmap_app in *. simpl in *. apply NoDup_app in Hn as (? & ? & ?).
      apply NoDup_app. split_and!; [done|set_solver|]. apply NoDup_cons. split; [set_solver|].
      apply NoDup_singleton.
    + rewrite fmap_app in *. simpl in *. apply Forall_app in Hf as [? Hf].
      apply Forall_app. split; [done|]. apply Forall_cons in Hf as [? _]. by repeat constructor.
    + rewrite fmap_app. simpl. by rewrite last_app.
    + rewrite Hs. rewrite !len_app, !len_cons. lia.
    + rewrite Hb, !total_concat, !fmap_app. simpl. rewrite !concat_app, !len_app. simpl.
      rewrite !len_app, len_nil. lia.
Qed.

Lemma alloc_node_repr b ls d :
  repr b ls -> exists x b', alloc_node b d = (x, b') /\ repr b' ls /\
    heap b' !! x = Some (Node d None) /\ (x ∉ ls.*1) /\ (x < fresh_loc b')%positive.
Proof.
  intros [Hc Hn Hf Ht Hs Hb]. eexists _, _. split; [reflexivity|]. simpl.
  assert (fresh_loc b ∉ (ls.*1)) as Hx.
  { intros Hin. rewrite Forall_forall in Hf. specialize (Hf _ Hin). simpl in Hf. lia. }
  split_and!; [|apply lookup_insert_eq|done|lia].
  split; simpl; try done; [by apply is_chain_frame|].
  eapply Forall_impl; [exact Hf|]. simpl. lia.
Qed.

(** ** Functional specifications *)

Lemma PushBack_spec b p :
  wf b -> exists b', PushBack b p = Ok b' /\ wf b' /\ contents b' = contents b ++ p.
Proof.
  intros [ls Hr]. unfold PushBack. destruct (len p =? 0) eqn:E.
  { apply Z.eqb_eq, len_0_nil in E as ->. exists b. rewrite app_nil_r.
    split_and!; [done|by exists ls|done]. }
  destruct (alloc_node_repr b ls p Hr) as (x & b1 & -> & Hr1 & Hx & Hn & Hf).
  destruct (pushBack_repr b1 x p None ls) as (b2 & -> & Hr2); [done..|].
  exists b2. split_and!; [done|by eexists|].
  rewrite (contents_repr _ _ Hr), (contents_repr _ _ Hr2), fmap_app, concat_app. simpl.
  by rewrite app_nil_r.
Qed.

Lemma PushFront_spec b p :
  wf b -> exists b', PushFront b p = Ok b' /\ wf b' /\ contents b' = p ++ contents b.
Proof.
  intros [ls Hr]. unfold PushFront. destruct (len p =? 0) eqn:E.
  { apply Z.eqb_eq, len_0_nil in E as ->. exists b. split_and!; [done|by exists ls|done]. }
  destruct (alloc_node_repr b ls p Hr) as (x & b1 & -> & Hr1 & Hx & Hn & Hf).
  destruct (pushFront_repr b1 x p None ls) as (b2 & -> & Hr2); [done..|].
  exists b2. split_and!; [done|by eexists|].
  by rewrite (contents_repr _ _ Hr), (contents_repr _ _ Hr2).
Qed.

(** Putting back the unread rest of the first node. *)
Lemma push_rest b x d ls rest :
  repr b ls -> heap b !! x = Some (Node d None) -> x ∉ (ls.*1) -> (x < fresh_loc b)%positive ->
  exists b', (b ← set_nbuf b x rest; pushFront b x) = Ok b' /\ repr b' ((x, rest) :: ls).
Proof.
  intros [Hc Hn Hf Ht Hs Hb] Hx Hx' Hxf. unfold set_nbuf. rewrite (load_Ok _ _ _ Hx). simpl.
  apply (pushFront_repr _ x rest None); simpl; [|apply lookup_insert_eq|done..].
  split; simpl; try done. by apply is_chain_frame.
Qed.

Lemma Read_loop_spec fuel b ls plen acc :
  repr b ls -> (length ls < fuel)%nat -> len acc < plen ->
  exists b', Read_loop fuel b plen acc =
      Ok (acc ++ take (Z.to_nat (plen - len acc)) (concat ls.*2), b') /\
    wf b' /\ contents b' = drop (Z.to_nat (plen - len acc)) (concat ls.*2).
Proof.
  revert b ls acc. induction fuel as [|fuel IH]; intros b ls acc Hr Hf Hp; [lia|].
  cbn [Read_loop]. destruct ls as [|[x d] ls].
  { rewrite pop_nil by done. simpl. exists b. rewrite take_nil, app_nil_r, drop_nil.
    split_and!; [done|by eexists|]. by rewrite (contents_repr _ _ Hr). }
  destruct (pop_cons _ _ _ _ Hr) as (b1 & -> & Hr1 & Hx & Hx' & Hxf & _). simpl.
  rewrite (load_Ok _ _ _ Hx). simpl. pose proof (len_nonneg d) as Hd. rewrite take_app, drop_app.
  destruct (decide (plen - len acc < len d)).
  - replace (Z.min (plen - len acc) (len d)) with (plen - len acc) by lia. simpl.
    replace (plen - len acc <? len d) with true by lia.
    destruct (push_rest b1 x d ls (subl d (plen - len acc) (len d))) as (b2 & -> & Hr2); [done..|].
    simpl. rewrite len_app, len_subl by lia. replace (_ =? plen) with true by lia.
    replace (Z.to_nat (plen - len acc) - length d)%nat with 0%nat by (unfold len in *; lia).
    exists b2. rewrite subl_take, take_0, app_nil_r. split_and!; [done|by eexists|].
    rewrite (contents_repr _ _ Hr2). simpl. by rewrite subl_drop, drop_0 by lia.
  - replace (Z.min (plen - len acc) (len d)) with (len d) by lia. rewrite subl_full.
    replace (len d <? len d) with false by lia. simpl. rewrite len_app.
    rewrite take_ge, drop_ge by (unfold len in *; lia).
    replace (Z.to_nat (plen - len acc) - length d)%nat
      with (Z.to_nat (plen - len (acc ++ d))) by (rewrite len_app; unfold len in *; lia).
    rewrite app_nil_l, app_assoc. case_if.
    + exists b1. replace (Z.to_nat (plen - len (acc ++ d))) with 0%nat by (rewrite len_app; lia).
      rewrite take_0, app_nil_r, drop_0. split_and!; [done|by eexists|].
      by rewrite (contents_repr _ _ Hr1).
    + apply IH; [done|simpl in Hf; lia|rewrite len_app; lia].
Qed.

(** [Read] takes the oldest bytes, across nodes. *)
Lemma list_Read_spec b plen :
  wf b -> 0 <= plen ->
  exists b', Read b plen = Ok (take (Z.to_nat plen) (contents b), b') /\ wf b' /\
    contents b' = drop (Z.to_nat plen) (contents b).
Proof.
  intros [ls Hr] Hp. unfold Read. destruct (plen =? 0) eqn:E.
  { exists b. apply Z.eqb_eq in E as ->. split_and!; [done|by eexists|done]. }
  destruct (Read_loop_spec (S (Z.to_nat (size b))) b ls plen []) as (b' & -> & Hw & Hc);
    [done|rewrite (repr_size _ _ Hr); unfold len; lia|change (len (@nil Z)) with 0; lia|].
  change (len (@nil Z)) with 0 in *. rewrite Z.sub_0_r in *.
  exists b'. by rewrite (contents_repr _ _ Hr).
Qed.

Lemma Discard_loop_spec fuel b ls n acc :
  repr b ls -> (S (length ls) < fuel)%nat -> 0 <= n ->
  exists b', Discard_loop fuel b n acc = Ok (acc + Z.min n (len (concat ls.*2)), b') /\
    wf b' /\ contents b' = drop (Z.to_nat n) (concat ls.*2).
Proof.
  revert b ls n acc. induction fuel as [|fuel IH]; intros b ls n acc Hr Hf Hn; [lia|].
  cbn [Discard_loop]. destruct (n =? 0) eqn:E.
  { apply Z.eqb_eq in E as ->. exists b. rewrite Z.min_l, Z.add_0_r by auto with rc.
    split_and!; [done|by eexists|]. by rewrite (contents_repr _ _ Hr). }
  destruct ls as [|[x d] ls].
  { rewrite pop_nil by done. simpl. exists b. rewrite drop_nil. change (len (@nil Z)) with 0.
    rewrite Z.min_r, Z.add_0_r by lia.
    split_and!; [done|by eexists|]. by rewrite (contents_repr _ _ Hr). }
  destruct (pop_cons _ _ _ _ Hr) as (b1 & -> & Hr1 & Hx & Hx' & Hxf & _). simpl.
  rewrite (load_Ok _ _ _ Hx). simpl. pose proof (len_nonneg d) as Hd.
  change (list_fmap (loc * bytes)%type bytes snd ls) with (ls.*2).
  pose proof (len_nonneg (concat ls.*2)). rewrite drop_app, len_app. case_if.
  - destruct (push_rest b1 x d ls (subl d n (len d))) as (b2 & Hb2 & Hr2); [done..|].
    destruct (set_nbuf b1 x _) as [b3| |]; [|done..]. cbn [mbind res_bind] in Hb2 |- *.
    rewrite Hb2, res_bind_Ok. exists b2. rewrite Z.min_l by lia.
    replace (Z.to_nat n - length d)%nat with 0%nat by (unfold len in *; lia).
    split_and!; [done|by eexists|]. rewrite (contents_repr _ _ Hr2). simpl.
    by rewrite subl_drop, drop_0 by lia.
  - destruct (IH b1 ls (n - len d) (acc + len d)) as (b2 & -> & Hw & Hc); [done|simpl in Hf; lia|lia|].
    exists b2. split_and!; [do 2 f_equal; lia|done|]. rewrite Hc.
    rewrite (drop_ge d) by (unfold len in *; lia). rewrite app_nil_l. f_equal. unfold len in *. lia.
Qed.

Lemma list_Discard_spec b n :
  wf b -> exists b', Discard b n = Ok (Z.max 0 (Z.min n (len (contents b))), b') /\ wf b' /\
    contents b' = drop (Z.to_nat n) (contents b).
Proof.
  intros [ls Hr]. rewrite (contents_repr _ _ Hr). unfold Discard.
  pose proof (len_nonneg (concat ls.*2)). case_if.
  { exists b. replace (Z.to_nat n) with 0%nat by lia. rewrite Z.max_l by lia.
    split_and!; [done|by eexists|]. by rewrite (contents_repr _ _ Hr). }
  destruct (Discard_loop_spec (S (S (Z.to_nat (size b)))) b ls n 0) as (b' & -> & Hw & Hc);
    [done|rewrite (repr_size _ _ Hr); unfold len; lia|lia|].
  exists b'. by rewrite Z.max_r by lia.
Qed.

(** The walk of [Peek] returns whole leading slices, at least [m] bytes of
    them when that many are buffered. *)
Lemma Peek_loop_spec fuel b p ls cum m :
  is_chain (heap b) p ls -> (length ls < fuel)%nat ->
  exists k, Peek_loop fuel b p cum m = Ok (take k ls.*2) /\
    (k <= length ls)%nat /\
    Z.min (m - cum) (len (concat ls.*2)) <= len (concat (take k ls.*2)) /\
    (forall j, (j < k)%nat -> (0 < j)%nat -> cum + len (concat (take j ls.*2)) < m).
Proof.
  revert p ls cum. induction fuel as [|fuel IH]; intros p ls cum Hc Hf; [lia|].
  destruct ls as [|[x d] ls]; csimpl in *.
  { subst p. exists 0%nat. csimpl. unfold len. csimpl. split_and!; [done|lia|lia|intros; lia]. }
  destruct Hc as (-> & nx & Hx & Hc). rewrite (load_Ok _ _ _ Hx). csimpl.
  destruct (m <=? cum + len d) eqn:E.
  { exists 1%nat. csimpl. rewrite take_0. csimpl. rewrite app_nil_r.
    split_and!; [done|lia|lia|intros; lia]. }
  destruct (IH nx ls (cum + len d) Hc) as (k & -> & Hk & Hm & Hj); [lia|].
  exists (S k). csimpl. rewrite !len_app. split_and!; [done|lia|lia|].
  intros j Hj1 Hj2. destruct j as [|j]; [lia|]. csimpl. rewrite len_app.
  destruct j as [|j]; [rewrite take_0; unfold len in *; simpl; lia|].
  specialize (Hj (S j)). lia.
Qed.

Lemma concat_take_prefix (l : list bytes) k : concat (take k l) `prefix_of` concat l.
Proof.
  exists (concat (drop k l)). by rewrite <- concat_app, take_drop.
Qed.

Definition peek_limit (m : Z) : Z := if m <=? 0 then MaxInt32 else m.

Lemma list_Peek_spec b m :
  wf b -> exists l, Peek b m = Ok l /\ concat l `prefix_of` contents b /\
    Z.min (peek_limit m) (len (contents b)) <= len (concat l).
Proof.
  intros [ls Hr]. unfold Peek. fold (peek_limit m).
  destruct (Peek_loop_spec (S (Z.to_nat (size b))) b (head b) ls 0 (peek_limit m))
    as (k & -> & _ & Hk & _); [apply Hr|rewrite (repr_size _ _ Hr); unfold len; lia|].
  exists (take k ls.*2). rewrite (contents_repr _ _ Hr).
  split_and!; [done|apply concat_take_prefix|lia].
Qed.

(** [Peek_given] keeps the non-empty leading slices. *)
Lemma Peek_given_spec bs cum m :
  exists l stop, Peek_given bs cum m = (l, cum + len (concat l), stop) /\
    concat l `prefix_of` concat bs /\
    (stop = true -> m <= cum + len (concat l)) /\
    (stop = false -> concat l = concat bs).
Proof.
  revert cum. induction bs as [|d bs IH]; intros cum; simpl.
  { exists [], false. simpl. unfold len. simpl. split_and!; try done. by rewrite Z.add_0_r. }
  destruct (0 <? len d) eqn:E.
  - destruct (m <=? cum + len d) eqn:E2.
    + exists [d], true. simpl. rewrite app_nil_r. split_and!; [done|by eexists|lia|done].
    + destruct (IH (cum + len d)) as (l & stop & -> & Hp & Ht & Hff).
      exists (d :: l), stop. simpl. rewrite len_app, Z.add_assoc.
      split_and!; [done|by apply prefix_app|done|by intros ->%Hff].
  - pose proof (len_nonneg d). assert (d = []) as -> by (apply len_0_nil; lia). apply IH.
Qed.

(** [PeekWithBytes] does as [Peek] on the given slices followed by the list. *)
Lemma PeekWithBytes_spec b m bs :
  wf b -> exists l, PeekWithBytes b m bs = Ok l /\ concat l `prefix_of` concat bs ++ contents b /\
    Z.min (peek_limit m) (len (concat bs ++ contents b)) <= len (concat l).
Proof.
  intros [ls Hr]. unfold PeekWithBytes. fold (peek_limit m).
  destruct (Peek_given_spec bs 0 (peek_limit m)) as (l & stop & -> & Hp & Ht & Hff).
  destruct stop.
  { exists l. split_and!; [done|by apply prefix_app_r|]. specialize (Ht eq_refl). lia. }
  specialize (Hff eq_refl).
  destruct (Peek_loop_spec (S (Z.to_nat (size b))) b (head b) ls (0 + len (concat l)) (peek_limit m))
    as (k & -> & _ & Hk & _); [apply Hr|rewrite (repr_size _ _ Hr); unfold len; lia|].
  exists (l ++ take k ls.*2). rewrite (contents_repr _ _ Hr), concat_app, !len_app, Hff in *.
  split_and!; [done|apply prefix_app, concat_take_prefix|lia].
Qed.

Lemma Reset_loop_spec fuel b ls :
  repr b ls -> (length ls < fuel)%nat -> exists b', Reset_loop fuel b = Ok b' /\ repr b' [].
Proof.
  revert b ls. induction fuel as [|fuel IH]; intros b ls Hr Hf; [lia|]. cbn [Reset_loop].
  destruct ls as [|[x d] ls].
  { rewrite pop_nil by done. by exists b. }
  destruct (pop_cons _ _ _ _ Hr) as (b1 & -> & Hr1 & _). simpl. apply (IH b1 ls); [done|simpl in Hf; lia].
Qed.

Lemma list_Reset_spec b : wf b -> exists b', Reset b = Ok b' /\ wf b' /\ contents b' = [].
Proof.
  intros [ls Hr]. unfold Reset.
  destruct (Reset_loop_spec (S (Z.to_nat (size b))) b ls Hr) as (b1 & -> & Hr1).
  { rewrite (repr_size _ _ Hr). unfold len. lia. }
  simpl. eexists. split_and!; [done| |done].
  exists []. split; simpl; done || constructor.
Qed.

Lemma list_IsEmpty_contents b : wf b -> IsEmpty b = true -> contents b = [].
Proof.
  intros [ls Hr] He. rewrite (IsEmpty_repr _ _ Hr) in He. rewrite (contents_repr _ _ Hr).
  by destruct ls as [|[? ?] ?].
Qed.

(** ** No empty slices

    [PushBack] never links an empty slice and [Discard] leaves none; with that a
    buffer that is not empty has bytes. *)
Definition nonempty (d : bytes) : Prop := d <> [].
Definition solid (b : Buffer) : Prop := exists ls, repr b ls /\ Forall nonempty ls.*2.

Lemma solid_wf b : solid b -> wf b.
Proof. intros (ls & Hr & _). by exists ls. Qed.

Lemma solid_empty : solid empty.
Proof. exists []. split; [apply repr_empty|constructor]. Qed.

Lemma PushBack_solid b p b' : solid b -> PushBack b p = Ok b' -> solid b'.
Proof.
  intros (ls & Hr & Hs). unfold PushBack. destruct (len p =? 0) eqn:E; [intros [= <-]; by exists ls|].
  destruct (alloc_node_repr b ls p Hr) as (x & b1 & -> & Hr1 & Hx & Hn & Hf).
  destruct (pushBack_repr b1 x p None ls) as (b2 & -> & Hr2); [done..|]. intros [= <-].
  eexists. split; [exact Hr2|]. rewrite fmap_app. apply Forall_app. split; [done|].
  repeat constructor. simpl. by intros Hp; rewrite Hp in E.
Qed.

Lemma Discard_loop_solid fuel b ls n acc k b' :
  repr b ls -> Forall nonempty ls.*2 -> 0 <= n -> Discard_loop fuel b n acc = Ok (k, b') -> solid b'.
Proof.
  revert b ls n acc. induction fuel as [|fuel IH]; intros b ls n acc Hr Hs Hn; [done|]. cbn [Discard_loop].
  destruct (n =? 0); [intros [= _ <-]; by exists ls|]. destruct ls as [|[x d] ls].
  { rewrite pop_nil by done. intros [= _ <-]. by exists []. }
  destruct (pop_cons _ _ _ _ Hr) as (b1 & -> & Hr1 & Hx & Hx' & Hxf & _). rewrite res_bind_Ok.
  rewrite (load_Ok _ _ _ Hx), res_bind_Ok. cbn [nbuf]. apply Forall_cons in Hs as [Hd Hs]. case_if.
  - destruct (push_rest b1 x d ls (subl d n (len d))) as (b2 & Hb2 & Hr2); [done..|].
    destruct (set_nbuf b1 x _) as [b3| |]; [|done..]. cbn [mbind res_bind] in Hb2 |- *.
    rewrite Hb2. intros [= _ <-]. eexists. split; [exact Hr2|]. constructor; [|done].
    cbn [snd]. intros Hnil. apply (f_equal len) in Hnil. rewrite len_subl, len_nil in Hnil by lia. lia.
  - apply (IH b1 ls); [done|done|lia].
Qed.

Lemma list_Discard_solid b n k b' : solid b -> Discard b n = Ok (k, b') -> solid b'.
Proof.
  intros (ls & Hr & Hs). unfold Discard. case_if; [intros [= _ <-]; by exists ls|].
  apply Discard_loop_solid with (ls := ls); [done|done|lia].
Qed.

Lemma Read_loop_solid fuel b ls plen acc d b' :
  repr b ls -> Forall nonempty ls.*2 -> len acc < plen -> Read_loop fuel b plen acc = Ok (d, b') -> solid b'.
Proof.
  revert b ls acc. induction fuel as [|fuel IH]; intros b ls acc Hr Hs Hp; [done|]. cbn [Read_loop].
  destruct ls as [|[x e] ls]; [rewrite pop_nil by done; intros [= _ <-]; by exists []|].
  destruct (pop_cons _ _ _ _ Hr) as (b1 & -> & Hr1 & Hx & Hx' & Hxf & _). rewrite res_bind_Ok.
  rewrite (load_Ok _ _ _ Hx), res_bind_Ok. cbn [nbuf]. apply Forall_cons in Hs as [He Hs].
  set (m := Z.min (plen - len acc) (len e)). pose proof (len_nonneg e). destruct (m <? len e) eqn:Em.
  - destruct (push_rest b1 x e ls (subl e m (len e))) as (b2 & Hb2 & Hr2); [done..|].
    destruct (set_nbuf b1 x _) as [b3| |]; [|done..]. cbn [mbind res_bind] in Hb2 |- *. rewrite Hb2, res_bind_Ok.
    rewrite len_app, len_subl by lia. replace (len acc + (m - 0) =? plen) with true by lia. intros [= _ <-].
    eexists. split; [exact Hr2|]. constructor; [|done]. cbn [snd]. intros Hn. apply (f_equal len) in Hn.
    rewrite len_subl, len_nil in Hn by lia. lia.
  - rewrite res_bind_Ok, len_app, len_subl by lia. case_if; [intros [= _ <-]; by exists ls|].
    apply (IH b1 ls); [done|done|]. rewrite len_app, len_subl by lia. lia.
Qed.

Lemma list_Read_solid b plen d b' : solid b -> 0 <= plen -> Read b plen = Ok (d, b') -> solid b'.
Proof.
  intros (ls & Hr & Hs) Hp. unfold Read. case_if; [intros [= _ <-]; by exists ls|].
  apply Read_loop_solid with (ls := ls); [done|done|]. change (len (@nil Z)) with 0. lia.
Qed.

Lemma Reset_solid b b' : wf b -> Reset b = Ok b' -> solid b'.
Proof.
  intros [ls Hr]. unfold Reset.
  destruct (Reset_loop_spec (S (Z.to_nat (size b))) b ls Hr) as (b1 & -> & Hr1).
  { rewrite (repr_size _ _ Hr). unfold len. lia. }
  intros [= <-]. exists []. split; [|constructor]. split; simpl; done || constructor.
Qed.

Lemma solid_contents b : solid b -> IsEmpty b = false -> contents b <> [].
Proof.
  intros (ls & Hr & Hs) He. rewrite (IsEmpty_repr _ _ Hr) in He. rewrite (contents_repr _ _ Hr).
  destruct ls as [|[x d] ls]; [done|]. apply Forall_cons in Hs as [Hd _]. simpl.
  intros [? _]%app_eq_nil. done.
Qed.

Lemma Peek_given_nonempty bs cum m : Forall nonempty (Peek_given bs cum m).1.1.
Proof.
  revert cum. induction bs as [|d bs IH]; intros cum; simpl; [constructor|].
  destruct (0 <? len d) eqn:E; [|done].
  assert (nonempty d) by (intros ->; done). destruct (m <=? cum + len d); [by repeat constructor|].
  specialize (IH (cum + len d)). destruct (Peek_given bs (cum + len d) m) as [[l c] stop]. by constructor.
Qed.

(** Every slice [PeekWithBytes] returns has bytes. *)
Lemma PeekWithBytes_nonempty b m bs l : solid b -> PeekWithBytes b m bs = Ok l -> Forall nonempty l.
Proof.
  intros (ls & Hr & Hs). unfold PeekWithBytes. fold (peek_limit m).
  pose proof (Peek_given_nonempty bs 0 (peek_limit m)) as Hg.
  destruct (Peek_given bs 0 (peek_limit m)) as [[l1 cum] stop]. simpl in Hg.
  destruct stop; [by intros [= <-]|].
  destruct (Peek_loop_spec (S (Z.to_nat (size b))) b (head b) ls cum (peek_limit m))
    as (k & -> & _); [apply Hr|rewrite (repr_size _ _ Hr); unfold len; lia|].
  rewrite res_bind_Ok. intros [= <-]. apply Forall_app. split; [done|]. by apply Forall_take.
Qed.

(** ** Writing out

    The writer is any function on a state [W]; [taken] are the bytes it has
    accepted so far. *)
Section write_out.
Context {W : Type} (wr : W -> bytes -> W * (Z * option error)) (taken : W -> bytes).

(** What [io.Writer] documents: a count within the slice, and the accepted
    bytes are its prefix of that length. *)
Definition writer_ok : Prop := forall s d s' m err,
  wr s d = (s', (m, err)) -> 0 <= m <= len d /\ taken s' = taken s ++ subl d 0 m.

(** A writer that stops early without an error of its own. *)
Definition writer_short : Prop := forall s d, (wr s d).2.2 = None.

Lemma WriteTo_loop_spec fuel b ls n s :
  writer_ok -> repr b ls -> (length ls < fuel)%nat ->
  exists n' err b' s', WriteTo_loop wr fuel b n s = Ok (n', err, b', s') /\ wf b' /\
    n' = n + (len (taken s') - len (taken s)) /\
    exists lost, taken s' ++ lost ++ contents b' = taken s ++ concat ls.*2 /\
      (err = None -> lost = [] /\ contents b' = []) /\
      (writer_short -> lost = []).
Proof.
  intros Hw. revert b ls n s. induction fuel as [|fuel IH]; intros b ls n s Hr Hf; [lia|].
  cbn [WriteTo_loop]. destruct ls as [|[x d] ls].
  { rewrite pop_nil by done. csimpl. eexists _, _, _, _. split; [done|]. split; [by eexists|].
    split; [lia|]. exists []. rewrite (contents_repr _ _ Hr). done. }
  destruct (pop_cons _ _ _ _ Hr) as (b1 & -> & Hr1 & Hx & Hx' & Hxf & _). csimpl.
  rewrite (load_Ok _ _ _ Hx). csimpl. destruct (wr s d) as [s1 [m err]] eqn:Hwr.
  destruct (Hw _ _ _ _ _ Hwr) as [Hm Ht]. replace (len d <? m) with false by lia.
  assert (len (taken s1) = len (taken s) + m) as Hl.
  { rewrite Ht, len_app, len_subl by lia. lia. }
  assert (subl d 0 m ++ subl d m (len d) = d) as Hd by (rewrite subl_split, subl_full by lia; done).
  destruct err as [e|].
  { eexists _, _, _, _. split; [done|]. split; [by eexists|]. split; [lia|].
    exists (subl d m (len d)). rewrite (contents_repr _ _ Hr1), Ht, <- app_assoc.
    split_and!; [f_equal; by rewrite app_assoc, Hd|done|].
    intros Hs. specialize (Hs s d). by rewrite Hwr in Hs. }
  case_if.
  - rewrite slice_Ok by lia. rewrite res_bind_Ok.
    destruct (push_rest b1 x d ls (subl d m (len d))) as (b2 & Hb2 & Hr2); [done..|].
    destruct (set_nbuf b1 x _) as [b3| |]; [|done..]. cbn [mbind res_bind] in Hb2 |- *.
    rewrite Hb2, res_bind_Ok. eexists _, _, _, _. split; [done|]. split; [by eexists|].
    split; [lia|]. exists []. rewrite (contents_repr _ _ Hr2), Ht, <- app_assoc. csimpl.
    split_and!; [|done|done]. f_equal. by rewrite app_assoc, Hd.
  - destruct (IH b1 ls (n + m) s1 Hr1) as (n' & err & b' & s' & -> & Hw' & Hn & lost & Hl' & Hnone & Hsh);
      [csimpl in Hf; lia|].
    eexists _, _, _, _. split; [done|]. split; [done|]. split; [lia|]. exists lost.
    split_and!; [|done|done]. rewrite Hl', Ht, <- app_assoc. f_equal.
    by replace m with (len d) by lia; rewrite subl_full.
Qed.

Lemma WriteTo_spec b s :
  writer_ok -> wf b ->
  exists n err b' s', WriteTo wr b s = Ok (n, err, b', s') /\ wf b' /\
    n = len (taken s') - len (taken s) /\
    exists lost, taken s' ++ lost ++ contents b' = taken s ++ contents b /\
      (err = None -> lost = [] /\ contents b' = []) /\ (writer_short -> lost = []).
Proof.
  intros Hw [ls Hr]. unfold WriteTo.
  destruct (WriteTo_loop_spec (S (Z.to_nat (size b))) b ls 0 s Hw Hr)
    as (n & err & b' & s' & -> & H).
  { rewrite (repr_size _ _ Hr). unfold len. lia. }
  rewrite (contents_repr _ _ Hr). eexists _, _, _, _. split; [done|]. exact H.
Qed.
End write_out.

(** [WriteTo] with a writer that reports no error of its own: the bytes it
    accepted followed by the bytes still buffered are the bytes buffered
    before, the count is the number accepted, and success means everything
    was written. *)
Lemma WriteTo_conserves {W} (wr : W -> bytes -> W * (Z * option error)) (taken : W -> bytes) b s
    (Hw : writer_ok wr taken) (Hs : writer_short wr) (Hb : wf b) :
  exists n err b' s', WriteTo wr b s = Ok (n, err, b', s') /\ wf b' /\
    n = len (taken s') - len (taken s) /\ taken s' ++ contents b' = taken s ++ contents b /\
    (err = None -> contents b' = []).
Proof.
  destruct (WriteTo_spec wr taken b s Hw Hb) as (n & err & b' & s' & -> & Hwf & Hn & lost & Hl & He & Hlost).
  eexists _, _, _, _. split; [done|]. rewrite Hlost in Hl by done. naive_solver.
Qed.

(** A writer that takes [k] bytes of each slice gets a prefix, at least [k] bytes of
    it if there are that many, and the rest stays. *)
Lemma WriteTo_loop_gives k fuel b ls n s :
  repr b ls -> Forall nonempty ls.*2 -> (length ls < fuel)%nat ->
  exists sent e b', WriteTo_loop (give_writer k None) fuel b n s = Ok (n + len sent, e, b', s ++ sent) /\ solid b' /\
    concat ls.*2 = sent ++ contents b' /\ Z.min k (len (concat ls.*2)) <= len sent /\
    (e = None /\ contents b' = [] \/ e = Some (EIo ErrShortWrite) /\ contents b' <> []).
Proof.
  revert b ls n s. induction fuel as [|fuel IH]; intros b ls n s Hr Hs Hf; [lia|]. cbn [WriteTo_loop].
  destruct ls as [|[x d] ls].
  { rewrite pop_nil by done. rewrite res_bind_Ok. exists [], None, b. rewrite Z.add_0_r, app_nil_r. simpl.
    rewrite (contents_repr _ _ Hr). simpl. change (len (@nil Z)) with 0. split; [done|]. split; [by exists []|].
    split; [done|]. split; [lia|by left]. }
  destruct (pop_cons _ _ _ _ Hr) as (b1 & -> & Hr1 & Hx & Hx' & Hxf & _). rewrite res_bind_Ok.
  rewrite (load_Ok _ _ _ Hx), res_bind_Ok. cbn [nbuf]. apply Forall_cons in Hs as [Hd Hs]. unfold give_writer at 1.
  pose proof (len_nonneg d). set (m := Z.max 0 (Z.min k (len d))). replace (len d <? m) with false by lia.
  assert (subl d 0 m ++ subl d m (len d) = d) as Hcut by (rewrite subl_split, subl_full by lia; done).
  cbn [concat fmap list_fmap snd]. destruct (m <? len d) eqn:Em.
  - slice_step. destruct (push_rest b1 x d ls (subl d m (len d))) as (b2 & Hb2 & Hr2); [done..|].
    destruct (set_nbuf b1 x _) as [b3| |]; [|done..]. cbn [mbind res_bind] in Hb2 |- *. rewrite Hb2.
    assert (subl d m (len d) <> []) as Hne by (intros Hn; apply (f_equal len) in Hn; rewrite len_subl, len_nil in Hn by lia; lia).
    exists (subl d 0 m), (Some (EIo ErrShortWrite)), b2. rewrite len_subl, Z.sub_0_r by lia. split; [done|].
    split; [eexists; split; [exact Hr2|by constructor]|]. rewrite (contents_repr _ _ Hr2). cbn [concat fmap list_fmap snd].
    split; [by rewrite app_assoc, Hcut|]. rewrite len_app. split; [lia|]. right. split; [done|]. by intros [? _]%app_eq_nil.
  - assert (m = len d) as Hm by lia. rewrite Hm, subl_full. simpl in Hf.
    destruct (IH b1 ls (n + len d) (s ++ d) Hr1 Hs) as (sent & e & b' & -> & Hs' & Hc & Hmin & He); [lia|].
    exists (d ++ sent), e, b'. rewrite !len_app, <- app_assoc. split; [do 4 f_equal; lia|]. split; [done|].
    split; [by rewrite Hc, app_assoc|]. split; [lia|done].
Qed.

Lemma list_WriteTo_gives k b s :
  solid b ->
  exists sent e b', WriteTo (give_writer k None) b s = Ok (len sent, e, b', s ++ sent) /\ solid b' /\
    contents b = sent ++ contents b' /\ Z.min k (len (contents b)) <= len sent /\
    (e = None /\ contents b' = [] \/ e = Some (EIo ErrShortWrite) /\ contents b' <> []).
Proof.
  intros (ls & Hr & Hs). rewrite (contents_repr _ _ Hr). unfold WriteTo.
  apply (WriteTo_loop_gives k (S (Z.to_nat (size b))) b ls 0 s Hr Hs). rewrite (repr_size _ _ Hr). unfold len. lia.
Qed.

(** [ReadFrom] appends all of a reader in memory, slice by slice. *)
Lemma list_ReadFrom_mem fuel b n s :
  solid b -> (length s < fuel)%nat ->
  exists b', ReadFrom mem_reader fuel b n s = Ok (n + len s, None, b', []) /\ solid b' /\ contents b' = contents b ++ s.
Proof.
  revert b n s. induction fuel as [|fuel IH]; intros b n s (ls & Hr & Hs) Hf; [lia|]. cbn [ReadFrom].
  destruct s as [|y s].
  { cbn [mem_reader]. exists b. rewrite app_nil_r. split; [done|]. split; [by exists ls|done]. }
  unfold mem_reader at 1. set (d := take (Z.to_nat minRead) (y :: s)). set (rest := drop (Z.to_nat minRead) (y :: s)).
  pose proof (len_nonneg d). replace (len d <? 0) with false by lia. rewrite subl_full.
  destruct (alloc_node_repr b ls d Hr) as (x & b1 & -> & Hr1 & Hx & Hn & Hfr).
  destruct (pushBack_repr b1 x d None ls) as (b2 & -> & Hr2); [done..|]. rewrite res_bind_Ok.
  assert (d ++ rest = y :: s) as Hcat by apply take_drop.
  assert (d <> []) as Hd by (subst d; done).
  destruct (IH b2 (n + len d) rest) as (b' & -> & Hs' & Hc').
  - exists (ls ++ [(x, d)]). split; [done|]. rewrite fmap_app. apply Forall_app. split; [done|by repeat constructor].
  - apply (f_equal length) in Hcat. rewrite length_app in Hcat. destruct d; [done|]. simpl in *. lia.
  - exists b'. rewrite <- Hcat, len_app. split; [do 4 f_equal; lia|]. split; [done|].
    rewrite Hc', (contents_repr _ _ Hr2), (contents_repr _ _ Hr), fmap_app, concat_app. simpl.
    by rewrite app_nil_r, <- app_assoc.
Qed.

(** A sink that accepts at most [k] bytes of each slice. *)
Definition short_sink (k : Z) (s d : bytes) : bytes * (Z * option error) :=
  (s ++ subl d 0 (Z.max 0 (Z.min k (len d))), (Z.max 0 (Z.min k (len d)), None)).

Lemma WriteTo_conserves_witness :
  exists n err b' s', WriteTo (short_sink 3) empty [] = Ok (n, err, b', s') /\ wf b' /\
    n = len s' - 0 /\ s' ++ contents b' = [] ++ contents empty /\ (err = None -> contents b' = []).
Proof.
  apply (WriteTo_conserves (short_sink 3) (fun s => s) empty []).
  - intros s d s' m err [= <- <- <-]. pose proof (len_nonneg d). split; [lia|done].
  - done.
  - apply wf_empty.
Defined.

(** When the writer fails after [m] bytes of the first slice, [WriteTo]
    has already unlinked that slice: its other bytes are gone from the buffer
    although the writer never accepted them. *)
Lemma WriteTo_error_loses {W} (wr : W -> bytes -> W * (Z * option error)) b x d ls s s' m e
    (Hr : repr b ((x, d) :: ls)) (Hw : wr s d = (s', (m, Some e))) (Hm : 0 <= m < len d) :
  exists b', WriteTo wr b s = Ok (m, Some e, b', s') /\ contents b = d ++ contents b' /\
    Buffered b' = Buffered b - len d.
Proof.
  unfold WriteTo. destruct (Z.to_nat (size b)) eqn:E.
  { exfalso. pose proof (repr_size _ _ Hr) as Hs. rewrite len_cons in Hs.
    pose proof (len_nonneg ls). lia. }
  cbn [WriteTo_loop]. destruct (pop_cons _ _ _ _ Hr) as (b1 & -> & Hr1 & Hx & _). csimpl.
  rewrite (load_Ok _ _ _ Hx). csimpl. rewrite Hw. replace (len d <? m) with false by lia.
  exists b1. split; [done|]. rewrite !list_Buffered_contents by (by eexists).
  rewrite (contents_repr _ _ Hr), (contents_repr _ _ Hr1). csimpl. rewrite len_app. split; [done|lia].
Qed.

Definition one_slice : Buffer :=
  mkLL {[ 1%positive := Node (str "hello") None ]} 2 (Some 1%positive) (Some 1%positive) 1 5.

Lemma WriteTo_error_loses_witness :
  let wr := fun (s d : bytes) => (s ++ subl d 0 2, (2, Some (EIo EOF))) in
  exists b', WriteTo wr one_slice [] = Ok (2, Some (EIo EOF), b', str "he") /\
    contents one_slice = str "hello" ++ contents b' /\ Buffered b' = Buffered one_slice - 5.
Proof.
  intros wr.
  apply (WriteTo_error_loses wr one_slice 1%positive (str "hello") [] [] (str "he") 2 (EIo EOF)).
  - split; try reflexivity; [|apply NoDup_singleton|by repeat constructor].
    split; [done|]. exists None. done.
  - reflexivity.
  - vm_compute. split; discriminate || reflexivity.
Defined.
