(* ===== verification/Elastic.v ===== *)
(** * The elastic buffers

    [core/pkg/buffer/elastic]: a lazily allocated ring buffer that returns to
    its pool when drained ([elastic_ring_buffer.go], the operations [ring_...]), and the
    buffer of a connection's unsent bytes ([elastic_ring_list_buffer.go]),
    which fills such a ring up to [maxStaticBytes] and spills into a linked
    list.  The refinement theorem shows that the split never reorders or loses
    a byte, outside the inputs of [ReadFrom] and [WriteTo] named by [elastic_hazard].

    An operation that may take a ring from the ring-buffer pool gets the ring it is
    handed as its argument [g]; [RingPool] shows that the pool hands out such rings. *)

From S2P Require Import Prelude Errors Byteslice Ring LinkedList.

Section elastic.
Context `{BytePool}.

(** ** elastic.RingBuffer *)

(** The field [rb]: nil until the first write. *)
Definition RingBuffer : Type := option Ring.Buffer.

(** [instance]: [g] is what the pool hands out. *)
Definition instance (b : RingBuffer) (g : Ring.Buffer) : Ring.Buffer :=
  match b with None => g | Some rb => rb end.

Definition ring_Done (b : RingBuffer) : RingBuffer := None.

Definition ring_done (b : RingBuffer) : RingBuffer :=
  match b with
  | Some rb => if Ring.IsEmpty rb then None else Some rb
  | None => None
  end.

Definition ring_Peek (b : RingBuffer) (n : Z) : res (bytes * bytes) :=
  match b with None => Ok ([], []) | Some rb => Ring.Peek rb n end.

Definition ring_Discard (b : RingBuffer) (n : Z) : res (Z * option error * RingBuffer) :=
  match b with
  | None => Ok (0, Some ErrIsEmpty, b)
  | Some rb => '(k, rb) ← Ring.Discard rb n; Ok (k, None, ring_done (Some rb))
  end.

Definition ring_Read (b : RingBuffer) (p : bytes) : res (bytes * Z * option error * RingBuffer) :=
  match b with
  | None => Ok (p, 0, Some ErrIsEmpty, b)
  | Some rb => '(p, n, err, rb) ← Ring.Read rb p; Ok (p, n, err, ring_done (Some rb))
  end.

Definition ring_ReadByte (b : RingBuffer) : res (Z * option error * RingBuffer) :=
  match b with
  | None => Ok (0, Some ErrIsEmpty, b)
  | Some rb => '(c, err, rb) ← Ring.ReadByte rb; Ok (c, err, ring_done (Some rb))
  end.

Definition ring_Write (g : Ring.Buffer) (b : RingBuffer) (p : bytes) : res (Z * RingBuffer) :=
  if len p =? 0 then Ok (0, b)
  else '(n, rb) ← Ring.Write (instance b g) p; Ok (n, Some rb).

Definition ring_WriteByte (g : Ring.Buffer) (b : RingBuffer) (c : Z) : res RingBuffer :=
  rb ← Ring.WriteByte (instance b g) c; Ok (Some rb).

Definition ring_Buffered (b : RingBuffer) : Z :=
  match b with None => 0 | Some rb => Ring.Buffered rb end.
Definition ring_Len (b : RingBuffer) : Z :=
  match b with None => 0 | Some rb => Ring.Len rb end.
Definition ring_Cap (b : RingBuffer) : Z :=
  match b with None => 0 | Some rb => Ring.Cap rb end.
Definition ring_Available (b : RingBuffer) : Z :=
  match b with None => 0 | Some rb => Ring.Available rb end.

Definition ring_WriteString (g : Ring.Buffer) (b : RingBuffer) (s : bytes) : res (Z * RingBuffer) :=
  if len s =? 0 then Ok (0, b)
  else '(n, rb) ← Ring.WriteString (instance b g) s; Ok (n, Some rb).

Definition ring_Bytes (b : RingBuffer) : res bytes :=
  match b with None => Ok [] | Some rb => Ring.Bytes rb end.

Definition ring_IsFull (b : RingBuffer) : bool :=
  match b with None => false | Some rb => Ring.IsFull rb end.
Definition ring_IsEmpty (b : RingBuffer) : bool :=
  match b with None => true | Some rb => Ring.IsEmpty rb end.
Definition ring_Reset (b : RingBuffer) : RingBuffer :=
  match b with None => None | Some rb => Some (Ring.Reset rb) end.

Section streams.
Context {W R : Type} (wr : W -> bytes -> W * (Z * option error))
  (rd : R -> Z -> R * (Z * bytes * option error)).

Definition ring_ReadFrom (fuel : nat) (g : Ring.Buffer) (b : RingBuffer) (s : R)
    : res (Z * option error * RingBuffer * R) :=
  '(n, err, rb, s) ← Ring.ReadFrom rd fuel (instance b g) 0 s; Ok (n, err, Some rb, s).

Definition ring_WriteTo (b : RingBuffer) (s : W) : res (Z * option error * RingBuffer * W) :=
  match b with
  | None => Ok (0, Some ErrIsEmpty, b, s)
  | Some rb => '(n, err, rb, s) ← Ring.WriteTo wr rb s; Ok (n, err, ring_done (Some rb), s)
  end.
End streams.

(** ** elastic.Buffer *)

Record Buffer := mkElastic {
  maxStaticBytes : Z;
  ringBuffer : RingBuffer;
  listBuffer : LinkedList.Buffer;
}.

Definition with_ring (mb : Buffer) (rb : RingBuffer) : Buffer :=
  mkElastic (maxStaticBytes mb) rb (listBuffer mb).
Definition with_list (mb : Buffer) (lb : LinkedList.Buffer) : Buffer :=
  mkElastic (maxStaticBytes mb) (ringBuffer mb) lb.

(** [New]: the buffer, or the error for a size that is not positive. *)
Definition New (maxStaticBytes : Z) : Buffer + error :=
  if maxStaticBytes <=? 0 then inr (EEngine ErrNegativeSize)
  else inl (mkElastic maxStaticBytes None LinkedList.empty).

Definition Read (mb : Buffer) (p : bytes) : res (bytes * Z * option error * Buffer) :=
  '(p, n, err, rb) ← ring_Read (ringBuffer mb) p;
  let mb := with_ring mb rb in
  if n =? len p then Ok (p, n, err, mb)
  else
    '(d, lb) ← LinkedList.Read (listBuffer mb) (len p - n);
    Ok (copy_at p n d, n + len d, None, with_list mb lb).

Definition Peek (mb : Buffer) (n : Z) : res (list bytes) :=
  let n := if n <=? 0 then MaxInt32 else n in
  '(head, tail) ← ring_Peek (ringBuffer mb) n;
  if n <=? ring_Buffered (ringBuffer mb) then Ok [head; tail]
  else LinkedList.PeekWithBytes (listBuffer mb) n [head; tail].

Definition Discard (mb : Buffer) (n : Z) : res (Z * option error * Buffer) :=
  '(discarded, err, rb) ← ring_Discard (ringBuffer mb) n;
  let mb := with_ring mb rb in
  if n <=? discarded then Ok (discarded, err, mb)
  else
    '(m, lb) ← LinkedList.Discard (listBuffer mb) (n - discarded);
    Ok (discarded + m, None, with_list mb lb).

Definition Write (g : Ring.Buffer) (mb : Buffer) (p : bytes) : res (Z * Buffer) :=
  if negb (LinkedList.IsEmpty (listBuffer mb)) ||
     (maxStaticBytes mb <=? ring_Buffered (ringBuffer mb)) then
    lb ← LinkedList.PushBack (listBuffer mb) p;
    Ok (len p, with_list mb lb)
  else
    let writable := ring_Available (ringBuffer mb) in
    if (maxStaticBytes mb <=? ring_Len (ringBuffer mb)) && (writable <? len p) then
      p1 ← slice p 0 writable;
      p2 ← slice p writable (len p);
      '(_, rb) ← ring_Write g (ringBuffer mb) p1;
      lb ← LinkedList.PushBack (listBuffer mb) p2;
      Ok (len p, with_list (with_ring mb rb) lb)
    else
      '(n, rb) ← ring_Write g (ringBuffer mb) p;
      Ok (n, with_ring mb rb).

(** The loops of [Writev] that append whole slices to the list. *)
Fixpoint push_all (lb : LinkedList.Buffer) (bs : list bytes) (n : Z) : res (Z * LinkedList.Buffer) :=
  match bs with
  | [] => Ok (n, lb)
  | b :: bs => lb ← LinkedList.PushBack lb b; push_all lb bs (n + len b)
  end.

(** The loop of [Writev] that fills the ring and, at the first slice that
    does not fit, spills the rest into the list. *)
Fixpoint Writev_loop (g : Ring.Buffer) (mb : Buffer) (bs : list bytes) (writable cum : Z)
    : res (Z * Buffer) :=
  match bs with
  | [] => Ok (cum, mb)
  | b :: bs =>
      let cum := cum + len b in
      if writable <? len b then
        p1 ← slice b 0 writable;
        p2 ← slice b writable (len b);
        '(_, rb) ← ring_Write g (ringBuffer mb) p1;
        lb ← LinkedList.PushBack (listBuffer mb) p2;
        '(cum, lb) ← push_all lb bs cum;
        Ok (cum, with_list (with_ring mb rb) lb)
      else
        '(n, rb) ← ring_Write g (ringBuffer mb) b;
        Writev_loop g (with_ring mb rb) bs (writable - n) cum
  end.

Definition Writev (g : Ring.Buffer) (mb : Buffer) (bs : list bytes) : res (Z * Buffer) :=
  if negb (LinkedList.IsEmpty (listBuffer mb)) ||
     (maxStaticBytes mb <=? ring_Buffered (ringBuffer mb)) then
    '(n, lb) ← push_all (listBuffer mb) bs 0;
    Ok (n, with_list mb lb)
  else
    let writable :=
      if ring_Len (ringBuffer mb) <? maxStaticBytes mb
      then maxStaticBytes mb - ring_Buffered (ringBuffer mb)
      else ring_Available (ringBuffer mb) in
    Writev_loop g mb bs writable 0.

Definition Buffered (mb : Buffer) : Z :=
  ring_Buffered (ringBuffer mb) + LinkedList.Buffered (listBuffer mb).
Definition IsEmpty (mb : Buffer) : bool :=
  ring_IsEmpty (ringBuffer mb) && LinkedList.IsEmpty (listBuffer mb).

Definition Reset (mb : Buffer) (n : Z) : res Buffer :=
  lb ← LinkedList.Reset (listBuffer mb);
  Ok (mkElastic (if 0 <? n then n else maxStaticBytes mb) (ring_Reset (ringBuffer mb)) lb).

Definition Release (mb : Buffer) : res Buffer :=
  lb ← LinkedList.Reset (listBuffer mb);
  Ok (mkElastic (maxStaticBytes mb) (ring_Done (ringBuffer mb)) lb).

Section buffer_streams.
Context {W R : Type} (wr : W -> bytes -> W * (Z * option error))
  (rd : R -> Z -> R * (Z * bytes * option error)).

Definition ReadFrom (fuel : nat) (g : Ring.Buffer) (mb : Buffer) (s : R)
    : res (Z * option error * Buffer * R) :=
  if negb (LinkedList.IsEmpty (listBuffer mb)) ||
     (maxStaticBytes mb <=? ring_Buffered (ringBuffer mb)) then
    '(n, err, lb, s) ← LinkedList.ReadFrom rd fuel (listBuffer mb) 0 s;
    Ok (n, err, with_list mb lb, s)
  else
    '(n, err, rb, s) ← ring_ReadFrom rd fuel g (ringBuffer mb) s;
    Ok (n, err, with_ring mb rb, s).

Definition WriteTo (mb : Buffer) (s : W) : res (Z * option error * Buffer * W) :=
  '(n, err, rb, s) ← ring_WriteTo wr (ringBuffer mb) s;
  let mb := with_ring mb rb in
  match err with
  | Some e => Ok (n, Some e, mb, s)
  | None =>
      '(m, err, lb, s) ← LinkedList.WriteTo wr (listBuffer mb) s;
      Ok (n + m, err, with_list mb lb, s)
  end.
End buffer_streams.

(** ** Contents and invariant *)

Definition ring_contents (b : RingBuffer) : bytes :=
  match b with None => [] | Some rb => Ring.contents rb end.
Definition ring_wf (b : RingBuffer) : Prop :=
  match b with None => True | Some rb => Ring.wf rb /\ Ring.size rb <= 2 ^ 58 end.

(** What the pool hands out: an empty ring of reasonable size. *)
Definition pool_ring (g : Ring.Buffer) : Prop :=
  Ring.wf g /\ Ring.contents g = [] /\ Ring.size g <= 2 ^ 58.

(** The bytes of the buffer, oldest first. *)
Definition contents (mb : Buffer) : bytes :=
  ring_contents (ringBuffer mb) ++ LinkedList.contents (listBuffer mb).

Record wf (mb : Buffer) : Prop := {
  wf_ring : ring_wf (ringBuffer mb);
  wf_list : LinkedList.wf (listBuffer mb);
  wf_max : 0 < maxStaticBytes mb;
}.

Lemma ring_len_contents b : ring_wf b -> ring_Buffered b = len (ring_contents b).
Proof. destruct b as [rb|]; simpl; [|done]. intros [Hw _]. by rewrite Ring.len_contents. Qed.

Lemma ring_done_ok b : ring_wf b -> ring_wf (ring_done b) /\ ring_contents (ring_done b) = ring_contents b.
Proof.
  destruct b as [rb|]; simpl; [|done]. intros [Hw Hs].
  destruct (Ring.IsEmpty rb) eqn:E; simpl; [|done].
  by rewrite (proj2 (Ring.contents_nil rb Hw) E).
Qed.

Lemma ring_Available_nonneg b : ring_wf b -> 0 <= ring_Available b.
Proof.
  destruct b as [rb|]; simpl; [|done]. intros [Hw _].
  rewrite Ring.Available_Buffered by done. pose proof (Ring.Buffered_bounds rb Hw). lia.
Qed.

Lemma lazy_ring_Write_spec g b p :
  pool_ring g -> ring_wf b -> len (ring_contents b) + len p <= 2 ^ 57 ->
  exists b', ring_Write g b p = Ok (len p, b') /\ ring_wf b' /\
    ring_contents b' = ring_contents b ++ p.
Proof.
  intros (Hg & Hgc & Hgs) Hb Hl. unfold ring_Write. destruct (len p =? 0) eqn:E.
  { apply Z.eqb_eq, len_0_nil in E as ->. exists b. by rewrite app_nil_r. }
  assert (Ring.wf (instance b g) /\ Ring.size (instance b g) <= 2 ^ 58 /\
          Ring.contents (instance b g) = ring_contents b) as (Hw & Hs & Hc).
  { destruct b as [rb|]; simpl in *; [|by rewrite Hgc]. naive_solver. }
  pose proof (len_nonneg (ring_contents b)).
  destruct (Ring.ring_Write_spec (instance b g) p) as (rb' & -> & Hw' & Hc' & Hs'); [done|lia|].
  exists (Some rb'). simpl. rewrite Hc', Hc. split_and!; [done|done| |done].
  rewrite <- Ring.len_contents, Hc in Hs' by done. lia.
Qed.

Lemma lazy_ring_Discard_spec b n :
  ring_wf b -> 0 < n -> exists k err b', ring_Discard b n = Ok (k, err, b') /\ ring_wf b' /\
    k = Z.min n (len (ring_contents b)) /\ (err <> None -> k < n) /\
    ring_contents b' = drop (Z.to_nat n) (ring_contents b).
Proof.
  intros Hb Hn. destruct b as [rb|]; simpl in *.
  2:{ exists 0, (Some ErrIsEmpty), None. rewrite drop_nil. unfold len. simpl.
      split_and!; done || lia. }
  destruct Hb as [Hw Hs]. destruct (Ring.ring_Discard_spec rb n Hw) as (rb' & -> & Hw' & Hs' & Hc).
  pose proof (Ring.Buffered_bounds rb Hw). rewrite Z.max_r in * by lia.
  rewrite Ring.contents_drop in Hc by (done || lia).
  destruct (ring_done_ok (Some rb')) as [Hd Hdc]; [simpl; split; [done|lia]|].
  exists (Z.min n (Ring.Buffered rb)), None, (ring_done (Some rb')). split; [done|].
  rewrite Hdc, Ring.len_contents by done. simpl.
  split_and!; done.
Qed.

Lemma lazy_ring_Read_spec b p :
  ring_wf b -> 0 < len p -> exists p' k err b', ring_Read b p = Ok (p', k, err, b') /\ ring_wf b' /\
    k = Z.min (len p) (len (ring_contents b)) /\ (err <> None -> k < len p) /\
    p' = copy_at p 0 (take (Z.to_nat (len p)) (ring_contents b)) /\
    ring_contents b' = drop (Z.to_nat (len p)) (ring_contents b).
Proof.
  intros Hb Hn. assert (copy_at p 0 [] = p) as H0.
  { rewrite Ring.copy_at_0 by (rewrite len_nil; lia). apply subl_full. }
  destruct b as [rb|]; simpl in *.
  2:{ exists p, 0, (Some ErrIsEmpty), None. rewrite take_nil, drop_nil, H0. unfold len in *. simpl.
      split_and!; done || lia. }
  destruct Hb as [Hw Hs]. destruct (Ring.isEmpty rb) eqn:E.
  { exists p, 0, (Some ErrIsEmpty), None. unfold Ring.Read. rewrite E. simpl.
    replace (len p =? 0) with false by lia. simpl. unfold Ring.IsEmpty. rewrite E.
    rewrite (proj2 (Ring.contents_nil rb Hw) E), take_nil, drop_nil, H0. unfold len in *. simpl.
    split_and!; done || lia. }
  destruct (Ring.ring_Read_spec rb p Hw E Hn) as (rb' & -> & Hw' & Hs' & Hc).
  rewrite Ring.contents_drop in Hc by (done || lia). rewrite Ring.contents_take by (done || lia).
  destruct (ring_done_ok (Some rb')) as [Hd Hdc]; [simpl; split; [done|lia]|].
  eexists _, _, None, (ring_done (Some rb')). split; [done|]. rewrite Hdc, Ring.len_contents by done. simpl.
  split_and!; done.
Qed.

Lemma lazy_ring_Peek_spec b n :
  ring_wf b -> 0 < n -> exists h t, ring_Peek b n = Ok (h, t) /\
    h ++ t = take (Z.to_nat n) (ring_contents b).
Proof.
  intros Hb Hn. destruct b as [rb|]; simpl in *; [|by exists [], []; rewrite take_nil].
  destruct Hb as [Hw _]. destruct (Ring.ring_Peek_spec rb n Hw) as (h & t & -> & Hc).
  exists h, t. split; [done|]. rewrite Hc. replace (n <=? 0) with false by lia.
  by apply Ring.contents_take; [done|lia].
Qed.

Lemma elastic_Read_spec mb p :
  wf mb -> 0 < len p ->
  exists mb', Read mb p =
      Ok (copy_at p 0 (take (Z.to_nat (len p)) (contents mb)),
          Z.min (len p) (len (contents mb)), None, mb') /\ wf mb' /\
    contents mb' = drop (Z.to_nat (len p)) (contents mb).
Proof.
  intros [Hr Hl Hm] Hp. unfold Read, contents.
  destruct (lazy_ring_Read_spec (ringBuffer mb) p Hr Hp) as (p' & k & err & b' & -> & Hb' & Hk & He & Hp' & Hc).
  rewrite res_bind_Ok. set (rc := ring_contents (ringBuffer mb)) in *.
  set (lc := LinkedList.contents (listBuffer mb)) in *.
  pose proof (len_nonneg rc). pose proof (len_nonneg lc). rewrite len_app.
  assert (len p' = len p) as Hlp by (rewrite Hp', len_copy_at by lia; done).
  rewrite Hlp. destruct (k =? len p) eqn:E.
  - exists (with_ring mb b'). assert (err = None) as -> by (destruct err; [specialize (He ltac:(done)); lia|done]).
    rewrite take_app_le, drop_app_le by (unfold len in *; lia). simpl. rewrite Hc. fold lc.
    replace (Z.min (len p) (len rc + len lc)) with k by lia. rewrite Hp'. split_and!; [done|by split|done].
  - assert (k = len rc) as -> by lia.
    destruct (LinkedList.list_Read_spec (listBuffer mb) (len p - len rc)) as (lb' & HR & Hlw & Hlc); [done|lia|].
    cbn [with_ring listBuffer]. rewrite HR, res_bind_Ok. fold lc in Hlc |- *.
    exists (with_list (with_ring mb b') lb'). cbn [with_list with_ring ringBuffer listBuffer].
    replace (Z.to_nat (len p - len rc)) with (Z.to_nat (len p) - length rc)%nat in *
      by (unfold len in *; lia).
    rewrite Hc, Hlc, take_app, drop_app. split_and!; [|by split|done].
    rewrite Hp', (take_ge rc) by (unfold len in *; lia).
    rewrite Ring.copy_at_two by (unfold len in *; rewrite length_take; lia).
    replace (Z.min (len p) (len rc + len lc))
      with (len rc + len (take (Z.to_nat (len p) - length rc) lc)); [done|].
    unfold len in *. rewrite length_take. lia.
Qed.

Lemma elastic_Discard_spec mb n :
  wf mb -> 0 < n ->
  exists mb', Discard mb n = Ok (Z.min n (len (contents mb)), None, mb') /\ wf mb' /\
    contents mb' = drop (Z.to_nat n) (contents mb).
Proof.
  intros [Hr Hl Hm] Hn. unfold Discard, contents.
  destruct (lazy_ring_Discard_spec (ringBuffer mb) n Hr Hn) as (k & err & b' & -> & Hb' & Hk & He & Hc).
  rewrite res_bind_Ok. set (rc := ring_contents (ringBuffer mb)) in *.
  set (lc := LinkedList.contents (listBuffer mb)) in *.
  pose proof (len_nonneg rc). pose proof (len_nonneg lc). rewrite len_app.
  destruct (n <=? k) eqn:E.
  - exists (with_ring mb b'). assert (err = None) as -> by (destruct err; [specialize (He ltac:(done)); lia|done]).
    rewrite drop_app_le by (unfold len in *; lia). simpl. rewrite Hc. fold lc.
    replace (Z.min n (len rc + len lc)) with k by lia. split_and!; [done|by split|done].
  - assert (k = len rc) as -> by lia.
    destruct (LinkedList.list_Discard_spec (listBuffer mb) (n - len rc)) as (lb' & HR & Hlw & Hlc); [done|].
    cbn [with_ring listBuffer]. rewrite HR, res_bind_Ok. fold lc in Hlc |- *.
    exists (with_list (with_ring mb b') lb'). cbn [with_list with_ring ringBuffer listBuffer].
    rewrite Hc, Hlc, drop_app.
    replace (Z.min n (len rc + len lc)) with (len rc + Z.max 0 (Z.min (n - len rc) (len lc))) by lia.
    split_and!; [done|by split|].
    do 2 f_equal. unfold len in *. lia.
Qed.

(** [Peek] shows whole leading slices: a prefix of the contents, with at
    least [n] bytes when there are that many. *)
Lemma elastic_Peek_spec mb n :
  wf mb -> exists l, Peek mb n = Ok l /\ concat l `prefix_of` contents mb /\
    Z.min (peek_limit n) (len (contents mb)) <= len (concat l).
Proof.
  intros [Hr Hl Hm]. unfold Peek, contents. fold (peek_limit n).
  assert (0 < peek_limit n) as Hp by (unfold peek_limit, MaxInt32; case_if).
  destruct (lazy_ring_Peek_spec (ringBuffer mb) (peek_limit n) Hr Hp) as (h & t & -> & Hht).
  rewrite res_bind_Ok, ring_len_contents by done.
  set (rc := ring_contents (ringBuffer mb)) in *.
  set (lc := LinkedList.contents (listBuffer mb)) in *.
  assert (concat [h; t] = h ++ t) as Hcat by (simpl; by rewrite app_nil_r). case_if.
  - exists [h; t]. rewrite Hcat, Hht. split_and!; [done| |].
    + apply prefix_app_r. exists (drop (Z.to_nat (peek_limit n)) rc). by rewrite take_drop.
    + unfold len in *. rewrite length_take. lia.
  - destruct (LinkedList.PeekWithBytes_spec (listBuffer mb) (peek_limit n) [h; t] Hl) as (l & -> & Hpre & Hlen).
    replace (peek_limit (peek_limit n)) with (peek_limit n) in Hlen
      by (unfold peek_limit at 2; case_if).
    rewrite Hcat, Hht, (take_ge rc) in Hpre, Hlen by (unfold len in *; lia). eauto.
Qed.

Lemma elastic_Buffered_contents mb : wf mb -> Buffered mb = len (contents mb).
Proof.
  intros [Hr Hl _]. unfold Buffered, contents.
  by rewrite len_app, ring_len_contents, LinkedList.list_Buffered_contents.
Qed.

Lemma elastic_IsEmpty_contents mb : wf mb -> LinkedList.IsEmpty (listBuffer mb) = true ->
  contents mb = ring_contents (ringBuffer mb).
Proof.
  intros [Hr Hl _] He. unfold contents.
  by rewrite (LinkedList.list_IsEmpty_contents _ Hl He), app_nil_r.
Qed.

(** Appending to the list. *)
Lemma spill mb p :
  wf mb -> exists lb, LinkedList.PushBack (listBuffer mb) p = Ok lb /\
    wf (with_list mb lb) /\ contents (with_list mb lb) = contents mb ++ p.
Proof.
  intros [Hr Hl Hm]. destruct (LinkedList.PushBack_spec (listBuffer mb) p Hl) as (lb & -> & Hw & Hc).
  exists lb. unfold contents. simpl. rewrite Hc, app_assoc. split_and!; [done|by split|done].
Qed.

(** Appending to the ring, when the list is empty. *)
Lemma fill g mb p :
  pool_ring g -> wf mb -> LinkedList.IsEmpty (listBuffer mb) = true ->
  len (contents mb) + len p <= 2 ^ 57 ->
  exists rb, ring_Write g (ringBuffer mb) p = Ok (len p, rb) /\
    wf (with_ring mb rb) /\ contents (with_ring mb rb) = contents mb ++ p.
Proof.
  intros Hg Hw He Hlen. rewrite (elastic_IsEmpty_contents _ Hw He) in *. destruct Hw as [Hr Hl Hm].
  destruct (lazy_ring_Write_spec g (ringBuffer mb) p Hg Hr Hlen) as (rb & -> & Hrw & Hrc).
  exists rb. unfold contents. simpl.
  rewrite Hrc, (LinkedList.list_IsEmpty_contents _ Hl He), app_nil_r. split_and!; [done|by split|done].
Qed.

(** Splitting a slice between the two. *)
Lemma fill_spill g mb p k :
  pool_ring g -> wf mb -> LinkedList.IsEmpty (listBuffer mb) = true -> 0 <= k <= len p ->
  len (contents mb) + len p <= 2 ^ 57 ->
  exists rb lb, ring_Write g (ringBuffer mb) (subl p 0 k) = Ok (k, rb) /\
    LinkedList.PushBack (listBuffer mb) (subl p k (len p)) = Ok lb /\
    wf (with_list (with_ring mb rb) lb) /\
    contents (with_list (with_ring mb rb) lb) = contents mb ++ p.
Proof.
  intros Hg Hw He Hk Hlen. pose proof (len_subl p 0 k) as Hs.
  destruct (fill g mb (subl p 0 k)) as (rb & -> & Hw1 & Hc1); [done..|lia|].
  destruct (spill (with_ring mb rb) (subl p k (len p)) Hw1) as (lb & Hlb & Hw2 & Hc2).
  exists rb, lb. split_and!; [do 2 f_equal; lia|done..|].
  rewrite Hc2, Hc1, <- app_assoc. f_equal. by rewrite subl_split, subl_full by lia.
Qed.

Lemma elastic_Write_spec g mb p :
  pool_ring g -> wf mb -> len (contents mb) + len p <= 2 ^ 57 ->
  exists mb', Write g mb p = Ok (len p, mb') /\ wf mb' /\ contents mb' = contents mb ++ p.
Proof.
  intros Hg Hw Hlen. unfold Write. case_if.
  { destruct (spill mb p Hw) as (lb & -> & ? & ?). simpl. eauto. }
  apply orb_false_iff in Heqb as [He _]. apply negb_false_iff in He.
  pose proof (ring_Available_nonneg _ (wf_ring _ Hw)). case_if.
  - apply andb_true_iff in Heqb as [_ Hlt]. rewrite !slice_Ok, !res_bind_Ok by lia.
    destruct (fill_spill g mb p (ring_Available (ringBuffer mb))) as (rb & lb & -> & Hlb & ? & ?);
      [done..|lia|done|]. rewrite res_bind_Ok, Hlb, res_bind_Ok. eauto.
  - destruct (fill g mb p) as (rb & -> & ? & ?); [done..|]. rewrite res_bind_Ok. eauto.
Qed.

Lemma push_all_spec bs lb n :
  LinkedList.wf lb -> exists lb', push_all lb bs n = Ok (n + len (concat bs), lb') /\
    LinkedList.wf lb' /\ LinkedList.contents lb' = LinkedList.contents lb ++ concat bs.
Proof.
  revert lb n. induction bs as [|b bs IH]; intros lb n Hw; simpl.
  { exists lb. rewrite app_nil_r. unfold len. simpl. by rewrite Z.add_0_r. }
  destruct (LinkedList.PushBack_spec lb b Hw) as (lb1 & -> & Hw1 & Hc1). rewrite res_bind_Ok.
  destruct (IH lb1 (n + len b) Hw1) as (lb2 & -> & Hw2 & Hc2). exists lb2.
  rewrite Hc2, Hc1, len_app, Z.add_assoc, <- app_assoc. done.
Qed.

Lemma Writev_loop_spec g bs mb k cum :
  pool_ring g -> wf mb -> LinkedList.IsEmpty (listBuffer mb) = true -> 0 <= k ->
  len (contents mb) + len (concat bs) <= 2 ^ 57 ->
  exists mb', Writev_loop g mb bs k cum = Ok (cum + len (concat bs), mb') /\ wf mb' /\
    contents mb' = contents mb ++ concat bs.
Proof.
  intros Hg. revert mb k cum. induction bs as [|b bs IH]; intros mb k cum Hw He Hk Hlen; simpl in *.
  { exists mb. rewrite app_nil_r. unfold len. simpl. by rewrite Z.add_0_r. }
  pose proof (len_nonneg (concat bs)). rewrite len_app in *. case_if.
  - rewrite !slice_Ok, !res_bind_Ok by lia.
    destruct (fill_spill g mb b k) as (rb & lb & -> & Hlb & Hw1 & Hc1); [done..|lia|lia|].
    rewrite res_bind_Ok, Hlb, res_bind_Ok.
    destruct (push_all_spec bs lb (cum + len b) (wf_list _ Hw1)) as (lb2 & -> & Hw2 & Hc2).
    rewrite res_bind_Ok. eexists. split; [by rewrite Z.add_assoc|]. split; [by split; apply Hw1 || done|].
    unfold contents in *. simpl in *. by rewrite Hc2, !app_assoc, Hc1, <- !app_assoc.
  - destruct (fill g mb b) as (rb & -> & Hw1 & Hc1); [done..|lia|]. rewrite res_bind_Ok.
    destruct (IH (with_ring mb rb) (k - len b) (cum + len b)) as (mb' & -> & Hw2 & Hc2);
      [done..|lia|rewrite Hc1, len_app; lia|].
    exists mb'. by rewrite Hc2, Hc1, <- app_assoc, Z.add_assoc.
Qed.

Lemma Writev_spec g mb bs :
  pool_ring g -> wf mb -> len (contents mb) + len (concat bs) <= 2 ^ 57 ->
  exists mb', Writev g mb bs = Ok (len (concat bs), mb') /\ wf mb' /\
    contents mb' = contents mb ++ concat bs.
Proof.
  intros Hg Hw Hlen. unfold Writev. case_if.
  { destruct (push_all_spec bs (listBuffer mb) 0 (wf_list _ Hw)) as (lb & -> & Hlw & Hlc).
    rewrite res_bind_Ok. exists (with_list mb lb). unfold contents. simpl. rewrite Hlc, app_assoc.
    split_and!; [done|by split; apply Hw || done|done]. }
  apply orb_false_iff in Heqb as [He Hb]. apply negb_false_iff in He.
  pose proof (ring_Available_nonneg _ (wf_ring _ Hw)).
  destruct (Writev_loop_spec g bs mb (if ring_Len (ringBuffer mb) <? maxStaticBytes mb
      then maxStaticBytes mb - ring_Buffered (ringBuffer mb)
      else ring_Available (ringBuffer mb)) 0) as (mb' & -> & ?); [done..|case_if|done|eauto].
Qed.

Lemma ring_Reset_ok b : ring_wf b -> ring_wf (ring_Reset b) /\ ring_contents (ring_Reset b) = [].
Proof.
  destruct b as [rb|]; simpl; [|done]. intros [Hw Hs].
  split_and!; [by apply Ring.wf_Reset|done|by apply Ring.contents_Reset].
Qed.

Lemma elastic_Reset_spec mb n :
  wf mb -> exists mb', Reset mb n = Ok mb' /\ wf mb' /\ contents mb' = [].
Proof.
  intros [Hr Hl Hm]. unfold Reset. destruct (LinkedList.list_Reset_spec _ Hl) as (lb & -> & Hw & Hc).
  destruct (ring_Reset_ok _ Hr) as [Hr' Hc']. eexists. split; [done|]. unfold contents. simpl.
  rewrite Hc, Hc'. split; [|done]. split; simpl; [done|done|case_if].
Qed.

Lemma Release_spec mb :
  wf mb -> exists mb', Release mb = Ok mb' /\ wf mb' /\ contents mb' = [].
Proof.
  intros [Hr Hl Hm]. unfold Release. destruct (LinkedList.list_Reset_spec _ Hl) as (lb & -> & Hw & Hc).
  eexists. split; [done|]. unfold contents. simpl. rewrite Hc. split; [by split|done].
Qed.

(** ** Buffers without empty slices *)

Definition solid (mb : Buffer) : Prop := wf mb /\ LinkedList.solid (listBuffer mb).

Lemma solid_New m mb : New m = inl mb -> solid mb.
Proof.
  unfold New. case_if; [done|]. intros [= <-]. split; [split; simpl; [done|apply LinkedList.wf_empty|lia]|].
  apply LinkedList.solid_empty.
Qed.

Lemma IsEmpty_nil mb : wf mb -> IsEmpty mb = true -> contents mb = [].
Proof.
  intros Hw [Hr Hl]%andb_true_iff. rewrite (elastic_IsEmpty_contents _ Hw Hl).
  destruct (ringBuffer mb) as [rb|] eqn:E; [|done]. simpl in *. apply Ring.contents_nil; [|done].
  pose proof (wf_ring _ Hw) as Hrw. rewrite E in Hrw. apply Hrw.
Qed.

Lemma solid_nonempty mb : solid mb -> IsEmpty mb = false -> contents mb <> [].
Proof.
  intros [Hw Hs] He Hc. unfold contents in Hc. apply app_eq_nil in Hc as [Hrc Hlc].
  apply andb_false_iff in He as [Hr|Hl].
  - pose proof (wf_ring _ Hw) as Hrw. destruct (ringBuffer mb) as [rb|]; [|done]. simpl in *.
    apply Ring.contents_nil in Hrc; [|apply Hrw]. unfold Ring.IsEmpty in Hr. congruence.
  - by apply (LinkedList.solid_contents _ Hs Hl).
Qed.

Lemma push_all_solid bs lb n k lb' : LinkedList.solid lb -> push_all lb bs n = Ok (k, lb') -> LinkedList.solid lb'.
Proof.
  revert lb n. induction bs as [|b bs IH]; intros lb n Hs Hp; simpl in Hp; [by simplify_eq|].
  bind_inv Hp. eapply IH; [|exact Hp]. by eapply LinkedList.PushBack_solid.
Qed.

Lemma Write_solid g mb p k mb' : LinkedList.solid (listBuffer mb) -> Write g mb p = Ok (k, mb') -> LinkedList.solid (listBuffer mb').
Proof.
  intros Hs. unfold Write. case_if.
  { intros Hp. bind_inv Hp. simplify_eq. by eapply LinkedList.PushBack_solid. }
  case_if.
  - intros Hp. do 2 bind_inv Hp. bind_inv Hp. destruct a1 as [? rb]. bind_inv Hp. simplify_eq.
    by eapply LinkedList.PushBack_solid.
  - intros Hp. bind_inv Hp. destruct a as [? rb]. by simplify_eq.
Qed.

Lemma Writev_loop_solid g bs mb r cum k mb' :
  LinkedList.solid (listBuffer mb) -> Writev_loop g mb bs r cum = Ok (k, mb') -> LinkedList.solid (listBuffer mb').
Proof.
  revert mb r cum. induction bs as [|b bs IH]; intros mb r cum Hs Hp; cbn [Writev_loop] in Hp; [by simplify_eq|].
  case_if_in Hp.
  - do 2 bind_inv Hp. bind_inv Hp. destruct a1 as [? rb]. bind_inv Hp. bind_inv Hp.
    destruct a2 as [cum' lb]. simplify_eq. simpl. eapply push_all_solid; [|done].
    by eapply LinkedList.PushBack_solid.
  - bind_inv Hp. destruct a as [n rb]. eapply IH; [|exact Hp]; exact Hs.
Qed.

Lemma Writev_solid g mb bs k mb' : LinkedList.solid (listBuffer mb) -> Writev g mb bs = Ok (k, mb') -> LinkedList.solid (listBuffer mb').
Proof.
  intros Hs. unfold Writev. case_if.
  { intros Hp. bind_inv Hp. destruct a as [n lb]. simplify_eq. by eapply push_all_solid. }
  by apply Writev_loop_solid.
Qed.

Lemma Discard_solid mb n k err mb' :
  LinkedList.solid (listBuffer mb) -> Discard mb n = Ok (k, err, mb') -> LinkedList.solid (listBuffer mb').
Proof.
  intros Hs. unfold Discard. intros Hp. bind_inv Hp. destruct a as [[d e] rb].
  case_if_in Hp; [by simplify_eq|]. bind_inv Hp. destruct a as [m lb]. simplify_eq.
  by eapply LinkedList.list_Discard_solid.
Qed.

(** A count that is not positive, as after a failed write, discards nothing. *)
Lemma Discard_nonpos mb n :
  solid mb -> n <= 0 ->
  exists k err mb', Discard mb n = Ok (k, err, mb') /\ solid mb' /\ contents mb' = contents mb.
Proof.
  intros [[Hr Hl Hm] Hs] Hn. unfold Discard, ring_Discard. destruct (ringBuffer mb) as [rb|] eqn:E.
  - destruct Hr as [Hw Hsz]. destruct (Ring.ring_Discard_spec rb n Hw) as (rb' & -> & Hw' & Hs' & Hc).
    pose proof (Ring.Buffered_bounds rb Hw).
    destruct (ring_done_ok (Some rb')) as [Hd Hdc]; [simpl; split; [done|lia]|].
    rewrite !res_bind_Ok. replace (Z.max 0 (Z.min n (Ring.Buffered rb))) with 0 in * by lia.
    replace (n <=? 0) with true by lia. eexists _, _, _. split; [done|].
    split; [by split|]. unfold contents. cbn [ringBuffer listBuffer with_ring]. rewrite Hdc, E. simpl. f_equal.
    rewrite Hc. apply subl_full.
  - rewrite res_bind_Ok. replace (n <=? 0) with true by lia. eexists _, _, _. split; [done|].
    split; [by split|]. unfold contents. simpl. by rewrite E.
Qed.

(** The slices handed to a vectored write: a prefix of the contents, never empty
    when there is something to send, also when only the first [k] are used. *)
Lemma Peek_iov mb k :
  solid mb -> contents mb <> [] -> (2 <= k)%nat ->
  exists l, Peek mb 0 = Ok l /\ l <> [] /\ concat (take k l) `prefix_of` contents mb /\ concat (take k l) <> [].
Proof.
  intros [Hw Hs] Hne Hk. destruct (elastic_Peek_spec mb 0 Hw) as (l & HP & Hpre & Hlen).
  exists l. split; [done|].
  assert (concat l <> []) as Hcl.
  { intros Hn. rewrite Hn in Hlen. change (len []) with 0 in Hlen. change (peek_limit 0) with 2147483647 in Hlen.
    assert (0 < len (contents mb)); [|lia]. destruct (contents mb) as [|x l0]; [done|]. rewrite len_cons.
    pose proof (len_nonneg l0). lia. }
  assert (l <> []) as Hl by (by intros ->). split; [done|].
  split; [etrans; [apply LinkedList.concat_take_prefix|done]|].
  unfold Peek in HP. cbn [Z.leb Z.compare] in HP. bind_inv HP. destruct a as [h t].
  case_if_in HP.
  - simplify_eq. by rewrite take_ge by (simpl; lia).
  - apply LinkedList.PeekWithBytes_nonempty in HP; [|done]. destruct HP as [|d l' Hd HP]; [done|].
    destruct k as [|k]; [lia|]. simpl. by intros [? _]%app_eq_nil.
Qed.

(** A count that is not positive discards nothing, and reports nothing discarded. *)
Lemma Discard_zero mb n :
  solid mb -> n <= 0 -> exists err mb', Discard mb n = Ok (0, err, mb') /\ solid mb' /\ contents mb' = contents mb.
Proof.
  intros [[Hr Hl Hm] Hs] Hn. unfold Discard, ring_Discard. destruct (ringBuffer mb) as [rb|] eqn:E.
  - destruct Hr as [Hw Hsz]. unfold Ring.Discard. replace (n <=? 0) with true by lia. rewrite !res_bind_Ok.
    replace (n <=? 0) with true by lia.
    destruct (ring_done_ok (Some rb)) as [Hd Hdc]; [done|]. eexists _, _. split; [done|]. split; [by split|].
    unfold contents. cbn [ringBuffer listBuffer with_ring]. by rewrite Hdc, E.
  - rewrite res_bind_Ok. replace (n <=? 0) with true by lia. eexists _, _. split; [done|].
    split; [by split|]. unfold contents. simpl. by rewrite E.
Qed.

(** A read into an empty destination. *)
Lemma Read_zero mb : solid mb -> exists err mb', Read mb [] = Ok ([], 0, err, mb') /\ solid mb' /\ contents mb' = contents mb.
Proof.
  intros [[Hr Hl Hm] Hs]. unfold Read, ring_Read. destruct (ringBuffer mb) as [rb|] eqn:E.
  - unfold Ring.Read. change (len (@nil Z) =? 0) with true. cbv iota. rewrite !res_bind_Ok.
    destruct (ring_done_ok (Some rb)) as [Hd Hdc]; [done|]. eexists _, _. split; [done|]. split; [by split|].
    unfold contents. cbn [ringBuffer listBuffer with_ring]. by rewrite Hdc, E.
  - rewrite res_bind_Ok. eexists _, _. split; [done|]. split; [by split|]. unfold contents. simpl. by rewrite E.
Qed.

Lemma elastic_Read_solid mb p d n err mb' :
  solid mb -> 0 < len p -> Read mb p = Ok (d, n, err, mb') -> LinkedList.solid (listBuffer mb').
Proof.
  intros [[Hr _ _] Hs] Hl. unfold Read.
  destruct (lazy_ring_Read_spec (ringBuffer mb) p Hr Hl) as (q & k & e & rb & -> & _ & Hk & _ & Hq & _).
  rewrite res_bind_Ok. assert (len q = len p) as Hlq by (rewrite Hq, len_copy_at by lia; done).
  pose proof (len_nonneg (ring_contents (ringBuffer mb))). case_if; [by intros [= _ _ _ <-]|].
  intros Hp. bind_inv Hp. destruct a as [m lb]. simplify_eq. eapply LinkedList.list_Read_solid; [|..|eassumption]; [done|lia].
Qed.

Lemma elastic_Reset_solid mb n mb' : wf mb -> Reset mb n = Ok mb' -> LinkedList.solid (listBuffer mb').
Proof. intros [_ Hl _] Hp. unfold Reset in Hp. bind_inv Hp. simplify_eq. by eapply LinkedList.Reset_solid. Qed.
Lemma elastic_Release_solid mb mb' : wf mb -> Release mb = Ok mb' -> LinkedList.solid (listBuffer mb').
Proof. intros [_ Hl _] Hp. unfold Release in Hp. bind_inv Hp. simplify_eq. by eapply LinkedList.Reset_solid. Qed.

Lemma IsEmpty_iff mb : solid mb -> IsEmpty mb = match contents mb with [] => true | _ => false end.
Proof.
  intros Hs. destruct (IsEmpty mb) eqn:E.
  - by rewrite (IsEmpty_nil mb (proj1 Hs) E).
  - pose proof (solid_nonempty mb Hs E). by destruct (contents mb).
Qed.

(** ** Streams in and out *)

(** [ReadFrom] appends all of a reader in memory, except that reading nothing into an
    empty buffer makes its ring count as full. *)
Lemma elastic_ReadFrom_mem g mb s :
  pool_ring g -> solid mb -> len (contents mb) + len s <= 2 ^ 56 -> IsEmpty mb && (len s =? 0) = false ->
  exists mb', ReadFrom Errors.mem_reader (S (length s)) g mb s = Ok (len s, None, mb', []) /\ solid mb' /\
    contents mb' = contents mb ++ s.
Proof.
  intros (Hg & Hgc & Hgs) [Hw Hs] Hb Hh. unfold ReadFrom. pose proof (len_nonneg s). case_if.
  - destruct (LinkedList.list_ReadFrom_mem (S (length s)) (listBuffer mb) 0 s Hs) as (lb & -> & Hs' & Hc); [lia|].
    rewrite res_bind_Ok, Z.add_0_l. eexists. split; [done|]. destruct Hw as [Hr Hl Hm].
    split; [split; [split; [done|by apply LinkedList.solid_wf|done]|done]|]. unfold contents. simpl.
    by rewrite Hc, app_assoc.
  - apply orb_false_iff in Heqb as [Hli Hst]. apply negb_false_iff in Hli. pose proof Hw as [Hr Hl Hm].
    rewrite (elastic_IsEmpty_contents _ Hw Hli) in *. unfold ring_ReadFrom.
    assert (Ring.wf (instance (ringBuffer mb) g) /\ Ring.size (instance (ringBuffer mb) g) <= 2 ^ 58 /\
            Ring.contents (instance (ringBuffer mb) g) = ring_contents (ringBuffer mb)) as (Hwi & Hsi & Hci).
    { destruct (ringBuffer mb) as [rb|]; simpl in *; [|by rewrite Hgc]. naive_solver. }
    destruct (Ring.ReadFrom_mem (S (length s)) (instance (ringBuffer mb) g) 0 s) as (rb & -> & Hw' & Hc' & Hs').
    { done. } { done. } { rewrite <- Ring.len_contents, Hci by done. done. }
    { intros ->. rewrite andb_true_r in Hh. unfold IsEmpty in Hh. rewrite Hli, andb_true_r in Hh.
      destruct (ringBuffer mb) as [rb|]; [done|done]. }
    { lia. }
    rewrite !res_bind_Ok, Z.add_0_l. eexists. split; [done|]. rewrite <- Ring.len_contents, Hci in Hs' by done.
    pose proof (len_nonneg (ring_contents (ringBuffer mb))).
    assert (wf (with_ring mb (Some rb))) as Hw2 by (split; [split; [done|lia]|done|done]).
    split; [split; [done|done]|]. unfold contents. simpl. by rewrite (LinkedList.list_IsEmpty_contents _ Hl Hli), Hc', Hci, app_nil_r.
Qed.
(** Where [WriteTo] does not act as on a queue: the ring is empty and the list is not
    (it reports an empty buffer), or the ring is full at position 0 and nothing is
    taken. *)
Definition elastic_writeto_hazard (mb : Buffer) (k : Z) : bool :=
  (ring_IsEmpty (ringBuffer mb) && negb (LinkedList.IsEmpty (listBuffer mb))) ||
  match ringBuffer mb with Some rb => Ring.writeto_hazard rb k | None => false end.

(** A writer that takes [k] bytes of each chunk and answers with [err] gets a prefix
    of the contents, and the rest stays. *)
Lemma elastic_WriteTo_gives mb k err :
  solid mb -> contents mb <> [] -> elastic_writeto_hazard mb k = false ->
  exists sent e mb', WriteTo (give_writer k err) mb [] = Ok (len sent, e, mb', sent) /\ solid mb' /\
    contents mb = sent ++ contents mb' /\ (0 < k -> sent <> []) /\
    match err with
    | Some x => e = Some x
    | None => Z.min k (len (contents mb)) <= len sent /\
        (e = None /\ contents mb' = [] \/ e = Some (EIo ErrShortWrite) /\ contents mb' <> [])
    end.
Proof.
  intros [[Hr Hl Hm] Hs] Hne Hh. apply orb_false_iff in Hh as [Hh Hk].
  assert (exists rb, ringBuffer mb = Some rb /\ Ring.isEmpty rb = false) as (rb & Hrb & He).
  { destruct (ringBuffer mb) as [rb|] eqn:E; simpl in *.
    - exists rb. split; [done|]. destruct (Ring.isEmpty rb) eqn:Ei; [|done]. exfalso. apply Hne. unfold contents. rewrite E. simpl.
      unfold Ring.IsEmpty in Hh. rewrite Ei in Hh. simpl in Hh. apply negb_false_iff in Hh.
      destruct Hr as [Hw _]. by rewrite (proj2 (Ring.contents_nil rb Hw) Ei), (LinkedList.list_IsEmpty_contents _ Hl Hh).
    - exfalso. apply negb_false_iff in Hh. apply Hne. unfold contents. rewrite E. simpl.
      apply (LinkedList.list_IsEmpty_contents _ Hl Hh). }
  rewrite Hrb in *. destruct Hr as [Hw Hsz].
  destruct (Ring.WriteTo_gives rb k err Hw He Hk) as (sent & e & rb' & HW & Hw' & Hs' & Hc & Hp & Hend).
  destruct (ring_done_ok (Some rb')) as [Hd Hdc]; [simpl; split; [done|lia]|].
  change (ring_contents (Some rb')) with (Ring.contents rb') in Hdc.
  unfold WriteTo, ring_WriteTo. rewrite Hrb, HW, !res_bind_Ok. set (mb1 := with_ring mb (ring_done (Some rb'))).
  assert (contents mb = sent ++ contents mb1) as Hc1.
  { unfold contents. rewrite Hrb. cbn [ringBuffer listBuffer with_ring mb1 ring_contents]. rewrite Hc, <- app_assoc.
    unfold mb1. cbn [ringBuffer listBuffer with_ring]. by rewrite Hdc. }
  assert (solid mb1) as Hs1 by (by split). destruct err as [x|].
  { rewrite Hend. exists sent, (Some x), mb1. done. }
  destruct Hend as [Hmin [[-> Hrc]|[-> Hrc]]].
  - cbn [listBuffer with_ring mb1].
    destruct (LinkedList.list_WriteTo_gives k (listBuffer mb) sent Hs) as (sent2 & e & lb & HL & Hls & Hlc & Hlm & Hle).
    rewrite HL, res_bind_Ok. exists (sent ++ sent2), e, (with_list mb1 lb).
    assert (contents (with_list mb1 lb) = LinkedList.contents lb) as Hc2.
    { unfold contents, mb1. cbn [ringBuffer listBuffer with_ring with_list]. by rewrite Hdc, Hrc. }
    assert (contents mb = sent ++ sent2 ++ LinkedList.contents lb) as Hc3.
    { unfold contents. rewrite Hrb. cbn [ring_contents]. by rewrite Hc, Hrc, app_nil_r, Hlc. }
    rewrite len_app, Hc2. split; [done|]. split.
    { split; [|done]. destruct Hs1 as [[Hr1 _ Hm1] _]. split; [done|by apply LinkedList.solid_wf|done]. }
    split; [by rewrite Hc3, app_assoc|]. split; [intros H0k [? _]%app_eq_nil; by apply Hp|].
    split; [|done]. rewrite Hc3, !len_app. rewrite Hlc, len_app in Hlm. pose proof (len_nonneg sent). lia.
  - exists sent, (Some (EIo ErrShortWrite)), mb1. split; [done|]. split; [done|]. split; [done|]. split; [done|]. split.
    + rewrite Hc, len_app in Hmin. assert (0 < len (Ring.contents rb')) as H0.
      { destruct (Ring.contents rb') as [|y l]; [done|]. rewrite len_cons. pose proof (len_nonneg l). lia. }
      lia.
    + right. split; [done|]. unfold contents, mb1. cbn [ringBuffer listBuffer with_ring]. rewrite Hdc. by intros [? _]%app_eq_nil.
Qed.

(** ** The elastic buffer as a byte queue *)

Inductive elastic_op : Type :=
  | EWrite (g : Ring.Buffer) (p : bytes)
  | EWritev (g : Ring.Buffer) (bs : list bytes)
  | ERead (n : Z)
  | EPeek (n : Z)
  | EDiscard (n : Z)
  | EBuffered
  | EIsEmpty
  | EReadFrom (g : Ring.Buffer) (data : bytes)      (* all of a reader over [data] *)
  | EWriteTo (k : Z) (err : option error)           (* to a writer that takes [k] bytes of a chunk *)
  | EReset (n : Z)
  | ERelease.

Inductive elastic_out : Type :=
  | EOutCount (n : Z) (err : option error)
  | EOutRead (d : bytes) (n : Z) (err : option error)
  | EOutSlices (l : list bytes)
  | EOutBool (b : bool)
  | EOutUnit.

Definition elastic_step (mb : Buffer) (o : elastic_op) : res (elastic_out * Buffer) :=
  match o with
  | EWrite g p => '(n, mb) ← Write g mb p; Ok (EOutCount n None, mb)
  | EWritev g bs => '(n, mb) ← Writev g mb bs; Ok (EOutCount n None, mb)
  | ERead n => '(d, k, err, mb) ← Read mb (make_bytes n); Ok (EOutRead d k err, mb)
  | EPeek n => l ← Peek mb n; Ok (EOutSlices l, mb)
  | EDiscard n => '(k, err, mb) ← Discard mb n; Ok (EOutCount k err, mb)
  | EBuffered => Ok (EOutCount (Buffered mb) None, mb)
  | EIsEmpty => Ok (EOutBool (IsEmpty mb), mb)
  | EReadFrom g data =>
      '(n, err, mb, _) ← ReadFrom mem_reader (S (length data)) g mb data; Ok (EOutCount n err, mb)
  | EWriteTo k err => '(n, err, mb, sent) ← WriteTo (give_writer k err) mb []; Ok (EOutRead sent n err, mb)
  | EReset n => mb ← Reset mb n; Ok (EOutUnit, mb)
  | ERelease => mb ← Release mb; Ok (EOutUnit, mb)
  end.

Fixpoint elastic_run (mb : Buffer) (os : list elastic_op) : res (list elastic_out * Buffer) :=
  match os with
  | [] => Ok ([], mb)
  | o :: os =>
      '(x, mb) ← elastic_step mb o;
      '(xs, mb) ← elastic_run mb os;
      Ok (x :: xs, mb)
  end.

(** The queue specification: [queue_step q o x q'] says that operation [o] on
    the queue [q] may return [x] and leaves [q']. *)
Definition queue_step (q : bytes) (o : elastic_op) (x : elastic_out) (q' : bytes) : Prop :=
  match o with
  | EWrite _ p => x = EOutCount (len p) None /\ q' = q ++ p
  | EWritev _ bs => x = EOutCount (len (concat bs)) None /\ q' = q ++ concat bs
  | ERead n =>
      if n <=? 0 then exists err, x = EOutRead [] 0 err /\ q' = q
      else x = EOutRead (copy_at (make_bytes n) 0 (take (Z.to_nat n) q)) (Z.min n (len q)) None /\
        q' = drop (Z.to_nat n) q
  | EPeek n =>
      exists l, x = EOutSlices l /\ concat l `prefix_of` q /\
        Z.min (peek_limit n) (len q) <= len (concat l) /\ q' = q
  | EDiscard n =>
      if n <=? 0 then exists err, x = EOutCount 0 err /\ q' = q
      else x = EOutCount (Z.min n (len q)) None /\ q' = drop (Z.to_nat n) q
  | EBuffered => x = EOutCount (len q) None /\ q' = q
  | EIsEmpty => x = EOutBool (match q with [] => true | _ => false end) /\ q' = q
  | EReadFrom _ data => x = EOutCount (len data) None /\ q' = q ++ data
  | EWriteTo k err =>
      match q with
      | [] => x = EOutRead [] 0 (Some ErrIsEmpty) /\ q' = q
      | _ => exists sent e, x = EOutRead sent (len sent) e /\ q = sent ++ q' /\ (0 < k -> sent <> []) /\
          match err with
          | Some y => e = Some y
          | None => Z.min k (len q) <= len sent /\ (e = None /\ q' = [] \/ e = Some (EIo ErrShortWrite) /\ q' <> [])
          end
      end
  | EReset _ | ERelease => x = EOutUnit /\ q' = []
  end.

Inductive queue_run : bytes -> list elastic_op -> list elastic_out -> bytes -> Prop :=
  | queue_run_nil q : queue_run q [] [] q
  | queue_run_cons q o x q1 os xs q2 :
      queue_step q o x q1 -> queue_run q1 os xs q2 -> queue_run q (o :: os) (x :: xs) q2.

(** Rings the pool may hand out. *)
Definition op_ok (o : elastic_op) : Prop :=
  match o with EWrite g _ | EWritev g _ | EReadFrom g _ => pool_ring g | _ => True end.

(** The states in which an operation does not act as on a queue: an empty reader read
    into an empty buffer, and the hazards of [WriteTo]. *)
Definition elastic_hazard (mb : Buffer) (o : elastic_op) : bool :=
  match o with
  | EReadFrom _ data => IsEmpty mb && (len data =? 0)
  | EWriteTo k _ => elastic_writeto_hazard mb k
  | _ => false
  end.

Definition elastic_bytes (o : elastic_op) : Z :=
  match o with EWrite _ p | EReadFrom _ p => len p | EWritev _ bs => len (concat bs) | _ => 0 end.
Definition elastic_total (os : list elastic_op) : Z := foldr (fun o n => elastic_bytes o + n) 0 os.

Lemma WriteTo_empty mb k err :
  solid mb -> contents mb = [] ->
  exists mb', WriteTo (give_writer k err) mb [] = Ok (0, Some ErrIsEmpty, mb', []) /\ solid mb' /\ contents mb' = [].
Proof.
  intros [[Hr Hl Hm] Hs] Hc. unfold contents in Hc. apply app_eq_nil in Hc as [Hrc Hlc]. unfold WriteTo, ring_WriteTo.
  destruct (ringBuffer mb) as [rb|] eqn:E; simpl in Hrc.
  - destruct Hr as [Hw Hsz]. apply Ring.contents_nil in Hrc as He; [|done]. unfold Ring.WriteTo. rewrite He, !res_bind_Ok.
    simpl. unfold Ring.IsEmpty. rewrite He. eexists. split; [done|]. split; [by split|]. unfold contents. by simpl.
  - rewrite res_bind_Ok. eexists. split; [done|]. split; [by split|]. unfold contents. by simpl.
Qed.

Lemma elastic_step_refines mb o :
  solid mb -> op_ok o -> len (contents mb) + elastic_bytes o <= 2 ^ 56 -> elastic_hazard mb o = false ->
  exists x mb', elastic_step mb o = Ok (x, mb') /\ solid mb' /\
    queue_step (contents mb) o x (contents mb').
Proof.
  intros Hsol Ho Hb Hh. pose proof Hsol as [Hw Hs].
  destruct o as [g p|g bs|n|n|n| | |g data|k err|n|]; cbn [elastic_step queue_step op_ok elastic_bytes elastic_hazard] in *.
  - destruct (elastic_Write_spec g mb p) as (mb' & HR & ? & Hc); [done|done|lia|]. rewrite HR. eexists _, mb'.
    split; [done|]. split; [split; [done|by eapply Write_solid]|by rewrite Hc].
  - destruct (Writev_spec g mb bs) as (mb' & HR & ? & Hc); [done|done|lia|]. rewrite HR. eexists _, mb'.
    split; [done|]. split; [split; [done|by eapply Writev_solid]|by rewrite Hc].
  - case_if.
    + rewrite Ring.make_bytes_nonpos by lia. destruct (Read_zero mb Hsol) as (err & mb' & -> & ? & Hc).
      eexists _, mb'. split; [done|]. split; [done|]. rewrite Hc. by eexists.
    + destruct (elastic_Read_spec mb (make_bytes n) Hw) as (mb' & HR & ? & Hc); rewrite len_make_bytes in * by lia; [lia|].
      rewrite HR. eexists _, mb'. split; [done|]. split; [|by rewrite Hc]. split; [done|].
      eapply elastic_Read_solid; [done| |done]. rewrite len_make_bytes; lia.
  - destruct (elastic_Peek_spec mb n Hw) as (l & -> & ? & ?). eexists _, _. eauto 10.
  - case_if.
    + destruct (Discard_zero mb n Hsol) as (err & mb' & -> & ? & Hc); [lia|]. eexists _, mb'. split; [done|].
      split; [done|]. rewrite Hc. by eexists.
    + destruct (elastic_Discard_spec mb n Hw) as (mb' & HR & ? & Hc); [lia|]. rewrite HR. eexists _, mb'.
      split; [done|]. split; [split; [done|by eapply Discard_solid]|by rewrite Hc].
  - rewrite elastic_Buffered_contents by done. eexists _, _. done.
  - rewrite IsEmpty_iff by done. eexists _, _. done.
  - destruct (elastic_ReadFrom_mem g mb data Ho Hsol Hb Hh) as (mb' & -> & ? & Hc). eexists _, mb'. by rewrite Hc.
  - destruct (contents mb) as [|y l] eqn:Ec.
    + destruct (WriteTo_empty mb k err Hsol Ec) as (mb' & -> & ? & Hc). eexists _, mb'. by rewrite Hc.
    + destruct (elastic_WriteTo_gives mb k err Hsol) as (sent & e & mb' & -> & ? & Hc & Hk & He); [by rewrite Ec|done|].
      rewrite Ec in *. eexists _, mb'. split; [done|]. split; [done|]. by exists sent, e.
  - destruct (elastic_Reset_spec mb n Hw) as (mb' & HR & ? & Hc). rewrite HR. eexists _, mb'. split; [done|].
    split; [split; [done|by apply (elastic_Reset_solid mb n)]|by rewrite Hc].
  - destruct (Release_spec mb Hw) as (mb' & HR & ? & Hc). rewrite HR. eexists _, mb'. split; [done|].
    split; [split; [done|by apply (elastic_Release_solid mb)]|by rewrite Hc].
Qed.

Lemma queue_step_bound q o x q' : queue_step q o x q' -> len q' <= len q + elastic_bytes o.
Proof.
  assert (forall n : nat, len (drop n q) <= len q) as Hd by (intros n; unfold len; rewrite length_drop; lia).
  pose proof (len_nonneg q). destruct o as [g p|g bs|n|n|n| | |g data|k err|n|]; cbn [queue_step elastic_bytes].
  - intros [_ ->]. rewrite len_app. lia.
  - intros [_ ->]. rewrite len_app. lia.
  - rewrite Z.add_0_r. case_if; [intros (err & _ & ->); lia|intros [_ ->]; apply Hd].
  - intros (l & _ & _ & _ & ->). lia.
  - rewrite Z.add_0_r. case_if; [intros (err & _ & ->); lia|intros [_ ->]; apply Hd].
  - intros [_ ->]. lia.
  - intros [_ ->]. lia.
  - intros [_ ->]. rewrite len_app. lia.
  - rewrite Z.add_0_r. destruct q as [|b q]; [intros [_ ->]; lia|]. intros (sent & e & _ & Hq & _). rewrite Hq, len_app.
    pose proof (len_nonneg sent). lia.
  - intros [_ ->]. rewrite len_nil. lia.
  - intros [_ ->]. rewrite len_nil. lia.
Qed.

Lemma elastic_bytes_nonneg o : 0 <= elastic_bytes o.
Proof. destruct o; simpl; auto with rc; lia. Qed.

Lemma elastic_total_nonneg os : 0 <= elastic_total os.
Proof. induction os as [|o os IH]; simpl; [lia|]. pose proof (elastic_bytes_nonneg o). lia. Qed.

(** A run goes on as a queue to its end or to the first hazard. *)
Lemma elastic_run_refines os mb :
  solid mb -> Forall op_ok os -> len (contents mb) + elastic_total os <= 2 ^ 56 ->
  exists os1 os2 xs mb', os = os1 ++ os2 /\ elastic_run mb os1 = Ok (xs, mb') /\ solid mb' /\
    queue_run (contents mb) os1 xs (contents mb') /\
    match os2 with [] => True | o :: _ => elastic_hazard mb' o = true end.
Proof.
  intros Hw Hos. revert mb Hw. induction Hos as [|o os Ho Hos IH]; intros mb Hw Hb; simpl in *.
  { exists [], [], [], mb. split_and!; try done. constructor. }
  destruct (elastic_hazard mb o) eqn:Hh.
  { exists [], (o :: os), [], mb. split_and!; try done. constructor. }
  pose proof (elastic_total_nonneg os).
  destruct (elastic_step_refines mb o) as (x & mb1 & Hx & Hw1 & Hq1); [done|done|lia|done|].
  pose proof (queue_step_bound _ _ _ _ Hq1).
  destruct (IH mb1) as (os1 & os2 & xs & mb2 & -> & Hr & Hw2 & Hq2 & Hend); [done|lia|].
  exists (o :: os1), os2, (x :: xs), mb2. split; [done|]. split; [simpl; by rewrite Hx; simpl; rewrite Hr|].
  split; [done|]. split; [by eapply queue_run_cons|done].
Qed.


(** Once the ring went back to the pool while the list still holds bytes,
    [WriteTo] reports [ErrIsEmpty] and writes nothing, although the buffer is
    not empty. *)
Lemma WriteTo_skips_list {W} (wr : W -> bytes -> W * (Z * option error)) mb s
    (Hr : ringBuffer mb = None) (Hl : LinkedList.IsEmpty (listBuffer mb) = false) :
  WriteTo wr mb s = Ok (0, Some ErrIsEmpty, mb, s) /\ IsEmpty mb = false.
Proof.
  unfold WriteTo, ring_WriteTo, IsEmpty, with_ring. rewrite Hr, Hl. destruct mb; simpl in *. by subst.
Qed.
End elastic.

Definition tiny_ring : Ring.Buffer := Ring.mkBuffer (make_bytes 4) 4 0 0 true.

Lemma pool_tiny : pool_ring tiny_ring.
Proof. by split; [split; vm_compute; done|]. Qed.

Definition sample_ops : list elastic_op :=
  [EWrite tiny_ring (str "abc"); EWritev tiny_ring [str "de"; []; str "fghij"]; EPeek 4; ERead 6; EDiscard 2; EBuffered;
   EReadFrom tiny_ring (str "kl"); EDiscard 4; EReadFrom tiny_ring (str "mn"); EWriteTo 1 None; EIsEmpty].


(** The run of the sample script: the fourth operation reads across ring and list. *)
Example elastic_sample_run :
  (match New 4 with
   | inl mb => (fun x => x.1) <$> @elastic_run empty_pool mb sample_ops
   | inr _ => Panic
   end) =
  Ok [EOutCount 3 None; EOutCount 7 None; EOutSlices [str "abcd"; []];
      EOutRead (str "abcdef") 6 None; EOutCount 2 None; EOutCount 2 None;
      EOutCount 2 None; EOutCount 4 None; EOutCount 2 None; EOutRead (str "m") 1 (Some (EIo ErrShortWrite)); EOutBool false].
Proof. vm_compute. reflexivity. Qed.

Lemma WriteTo_skips_list_witness :
  let mb := mkElastic 4 None one_slice in
  WriteTo (short_sink 9) mb [] = Ok (0, Some ErrIsEmpty, mb, []) /\ IsEmpty mb = false.
Proof. intros mb. apply (WriteTo_skips_list (short_sink 9) mb []); reflexivity. Defined.
