(* ===== verification/Hashkit.v ===== *)
(** * Key hashing

    [core/pkg/hashkit/crc16.go]: the slot of a key, by a table-driven CRC16 on
    32-bit words, with the hash-tag rule of Redis Cluster.  [crc16] below is
    the bit-by-bit definition of the checksum (polynomial 0x1021, initial
    value 0) that the table implements. *)

From S2P Require Import Prelude.

(** [constant.RedisClusterSlots]. *)
Definition RedisClusterSlots : Z := 16384.

Definition crc16tab : list Z := [
  0x0000; 0x1021; 0x2042; 0x3063; 0x4084; 0x50a5; 0x60c6; 0x70e7;
  0x8108; 0x9129; 0xa14a; 0xb16b; 0xc18c; 0xd1ad; 0xe1ce; 0xf1ef;
  0x1231; 0x0210; 0x3273; 0x2252; 0x52b5; 0x4294; 0x72f7; 0x62d6;
  0x9339; 0x8318; 0xb37b; 0xa35a; 0xd3bd; 0xc39c; 0xf3ff; 0xe3de;
  0x2462; 0x3443; 0x0420; 0x1401; 0x64e6; 0x74c7; 0x44a4; 0x5485;
  0xa56a; 0xb54b; 0x8528; 0x9509; 0xe5ee; 0xf5cf; 0xc5ac; 0xd58d;
  0x3653; 0x2672; 0x1611; 0x0630; 0x76d7; 0x66f6; 0x5695; 0x46b4;
  0xb75b; 0xa77a; 0x9719; 0x8738; 0xf7df; 0xe7fe; 0xd79d; 0xc7bc;
  0x48c4; 0x58e5; 0x6886; 0x78a7; 0x0840; 0x1861; 0x2802; 0x3823;
  0xc9cc; 0xd9ed; 0xe98e; 0xf9af; 0x8948; 0x9969; 0xa90a; 0xb92b;
  0x5af5; 0x4ad4; 0x7ab7; 0x6a96; 0x1a71; 0x0a50; 0x3a33; 0x2a12;
  0xdbfd; 0xcbdc; 0xfbbf; 0xeb9e; 0x9b79; 0x8b58; 0xbb3b; 0xab1a;
  0x6ca6; 0x7c87; 0x4ce4; 0x5cc5; 0x2c22; 0x3c03; 0x0c60; 0x1c41;
  0xedae; 0xfd8f; 0xcdec; 0xddcd; 0xad2a; 0xbd0b; 0x8d68; 0x9d49;
  0x7e97; 0x6eb6; 0x5ed5; 0x4ef4; 0x3e13; 0x2e32; 0x1e51; 0x0e70;
  0xff9f; 0xefbe; 0xdfdd; 0xcffc; 0xbf1b; 0xaf3a; 0x9f59; 0x8f78;
  0x9188; 0x81a9; 0xb1ca; 0xa1eb; 0xd10c; 0xc12d; 0xf14e; 0xe16f;
  0x1080; 0x00a1; 0x30c2; 0x20e3; 0x5004; 0x4025; 0x7046; 0x6067;
  0x83b9; 0x9398; 0xa3fb; 0xb3da; 0xc33d; 0xd31c; 0xe37f; 0xf35e;
  0x02b1; 0x1290; 0x22f3; 0x32d2; 0x4235; 0x5214; 0x6277; 0x7256;
  0xb5ea; 0xa5cb; 0x95a8; 0x8589; 0xf56e; 0xe54f; 0xd52c; 0xc50d;
  0x34e2; 0x24c3; 0x14a0; 0x0481; 0x7466; 0x6447; 0x5424; 0x4405;
  0xa7db; 0xb7fa; 0x8799; 0x97b8; 0xe75f; 0xf77e; 0xc71d; 0xd73c;
  0x26d3; 0x36f2; 0x0691; 0x16b0; 0x6657; 0x7676; 0x4615; 0x5634;
  0xd94c; 0xc96d; 0xf90e; 0xe92f; 0x99c8; 0x89e9; 0xb98a; 0xa9ab;
  0x5844; 0x4865; 0x7806; 0x6827; 0x18c0; 0x08e1; 0x3882; 0x28a3;
  0xcb7d; 0xdb5c; 0xeb3f; 0xfb1e; 0x8bf9; 0x9bd8; 0xabbb; 0xbb9a;
  0x4a75; 0x5a54; 0x6a37; 0x7a16; 0x0af1; 0x1ad0; 0x2ab3; 0x3a92;
  0xfd2e; 0xed0f; 0xdd6c; 0xcd4d; 0xbdaa; 0xad8b; 0x9de8; 0x8dc9;
  0x7c26; 0x6c07; 0x5c64; 0x4c45; 0x3ca2; 0x2c83; 0x1ce0; 0x0cc1;
  0xef1f; 0xff3e; 0xcf5d; 0xdf7c; 0xaf9b; 0xbfba; 0x8fd9; 0x9ff8;
  0x6e17; 0x7e36; 0x4e55; 0x5e74; 0x2e93; 0x3eb2; 0x0ed1; 0x1ef0].

(** [strings.Index] for a one-byte pattern: the first position, or -1. *)
Fixpoint Index_from (i : Z) (s : bytes) (c : Z) : Z :=
  match s with
  | [] => -1
  | x :: s => if x =? c then i else Index_from (i + 1) s c
  end.
Definition Index (s : bytes) (c : Z) : Z := Index_from 0 s c.

(** One round of the loop of [hash], on a 32-bit word. *)
Definition hash_step (crc b : Z) : res Z :=
  t ← index crc16tab (Z.land (Z.lxor (Z.shiftr crc 8) b) 0xff);
  Ok (Z.lxor (uwrap32 (Z.shiftl crc 8)) t).

Fixpoint hash_loop (crc : Z) (key : bytes) : res Z :=
  match key with
  | [] => Ok crc
  | b :: key => crc ← hash_step crc b; hash_loop crc key
  end.

Definition hash (key : bytes) : res Z :=
  crc ← hash_loop 0 key; Ok (wrap32 (crc mod RedisClusterSlots)).

Definition Hash (key : bytes) : res Z :=
  if len key <? 1 then hash key
  else
    let s := Index key 123 in
    if 0 <=? s then
      let e := Index key 125 in
      if e <=? s + 1 then hash key
      else tag ← slice key (s + 1) e; hash tag
    else hash key.

(** ** The checksum, bit by bit *)

Definition crc16_bit (c : Z) : Z :=
  Z.land (if Z.testbit c 15 then Z.lxor (Z.shiftl c 1) 0x1021 else Z.shiftl c 1) 0xffff.
Definition crc16_byte (c b : Z) : Z := Nat.iter 8 crc16_bit (Z.lxor c (Z.shiftl b 8)).
Definition crc16 (key : bytes) : Z := fold_left crc16_byte key 0.

(** Every element is a byte. *)
Definition is_bytes (l : bytes) : Prop := Forall (fun b => 0 <= b < 256) l.

(** The bit step is linear over exclusive or. *)
Lemma crc16_bit_lxor a b : crc16_bit (Z.lxor a b) = Z.lxor (crc16_bit a) (crc16_bit b).
Proof.
  unfold crc16_bit. rewrite Z.lxor_spec. apply Z.bits_inj'. intros n Hn.
  destruct (Z.testbit a 15), (Z.testbit b 15); simpl;
    rewrite ?Z.lxor_spec, ?Z.land_spec, ?Z.lxor_spec, ?Z.shiftl_spec, ?Z.lxor_spec by lia;
    destruct (Z.testbit a (n - 1)), (Z.testbit b (n - 1)), (Z.testbit 4129 n), (Z.testbit 65535 n); done.
Qed.

Lemma crc16_bits_lxor k a b :
  Nat.iter k crc16_bit (Z.lxor a b) = Z.lxor (Nat.iter k crc16_bit a) (Nat.iter k crc16_bit b).
Proof. induction k as [|k IH]; simpl; [done|]. by rewrite IH, crc16_bit_lxor. Qed.

(** A high byte takes eight rounds to its table entry; a low byte is only
    shifted. *)
Definition high_byte_ok (h : Z) : bool :=
  match crc16tab !! Z.to_nat h with
  | Some t => (Nat.iter 8 crc16_bit (Z.shiftl h 8) =? t) && (0 <=? t) && (t <? 65536)
  | None => false
  end.
Definition low_byte_ok (l : Z) : bool := Nat.iter 8 crc16_bit l =? Z.shiftl l 8.

Definition all_bytes (P : Z -> bool) : bool := forallb P (seqZ 0 256).

Lemma all_bytes_spec P b : all_bytes P = true -> 0 <= b < 256 -> P b = true.
Proof.
  unfold all_bytes. rewrite forallb_forall. intros Hw Hb.
  apply Hw, list_elem_of_In, elem_of_seqZ. lia.
Qed.

Lemma high_bytes : all_bytes high_byte_ok = true.
Proof. vm_compute. reflexivity. Qed.
Lemma low_bytes : all_bytes low_byte_ok = true.
Proof. vm_compute. reflexivity. Qed.

Lemma lxor_bound a b k : 0 <= k -> 0 <= a < 2 ^ k -> 0 <= b < 2 ^ k -> 0 <= Z.lxor a b < 2 ^ k.
Proof.
  intros Hk Ha Hb. assert (0 <= Z.lxor a b) as H0 by (apply Z.lxor_nonneg; lia).
  split; [done|]. apply Z.bounded_iff_bits_nonneg; [done..|]. intros l Hl.
  rewrite Z.lxor_spec.
  rewrite (proj1 (Z.bounded_iff_bits_nonneg k a Hk ltac:(lia)) ltac:(lia) l Hl).
  by rewrite (proj1 (Z.bounded_iff_bits_nonneg k b Hk ltac:(lia)) ltac:(lia) l Hl).
Qed.

(** One byte of the bitwise checksum is one table step. *)
Lemma crc16_byte_table c b : 0 <= c < 65536 -> 0 <= b < 256 ->
  exists t, crc16tab !! Z.to_nat (Z.land (Z.lxor (Z.shiftr c 8) b) 0xff) = Some t /\
    0 <= t < 65536 /\
    crc16_byte c b = Z.lxor (Z.land (Z.shiftl c 8) 0xffff) t.
Proof.
  intros Hc Hb. set (h := Z.lxor (Z.shiftr c 8) b).
  assert (0 <= Z.shiftr c 8 < 256) as Hs.
  { rewrite Z.shiftr_div_pow2 by lia. pose proof (Z.div_pos c (2 ^ 8)).
    pose proof (Z.div_lt_upper_bound c (2 ^ 8) 256). lia. }
  assert (0 <= h < 256) as Hh.
  { apply (lxor_bound _ _ 8); lia. }
  replace (Z.land h 255) with h by (change 255 with (Z.ones 8); rewrite Z.land_ones, Z.mod_small; lia).
  pose proof (all_bytes_spec _ h high_bytes Hh) as Hhi. unfold high_byte_ok in Hhi.
  destruct (crc16tab !! Z.to_nat h) as [t|]; [|done].
  apply andb_true_iff in Hhi as [[Ht%Z.eqb_eq Ht0]%andb_true_iff Ht1].
  exists t. split; [done|]. split; [lia|]. unfold crc16_byte.
  replace (Z.lxor c (Z.shiftl b 8)) with (Z.lxor (Z.land c 255) (Z.shiftl h 8)).
  2:{ subst h. apply Z.bits_inj'. intros n Hn. change 255 with (Z.ones 8).
      rewrite !Z.lxor_spec, Z.land_spec, !Z.shiftl_spec by lia.
      destruct (decide (n < 8)).
      - rewrite (Z.testbit_neg_r _ (n - 8)), (Z.testbit_neg_r _ (n - 8)) by lia.
        rewrite Z.ones_spec_low by lia. by rewrite andb_true_r.
      - rewrite Z.ones_spec_high by lia. rewrite Z.lxor_spec, Z.shiftr_spec by lia.
        replace (n - 8 + 8) with n by lia. by rewrite andb_false_r. }
  rewrite crc16_bits_lxor, Ht. f_equal.
  pose proof (all_bytes_spec _ (Z.land c 255) low_bytes) as Hlo. unfold low_byte_ok in Hlo.
  assert (0 <= Z.land c 255 < 256) as Hl.
  { change 255 with (Z.ones 8). rewrite Z.land_ones by lia. apply Z.mod_pos_bound. lia. }
  apply Hlo, Z.eqb_eq in Hl as ->. apply Z.bits_inj'. intros n Hn.
  change 255 with (Z.ones 8). change 65535 with (Z.ones 16).
  rewrite Z.land_spec, !Z.shiftl_spec, Z.land_spec by lia.
  destruct (decide (n < 8)).
  { by rewrite Z.testbit_neg_r by lia. }
  destruct (decide (n < 16)).
  - by rewrite !Z.ones_spec_low by lia.
  - by rewrite !Z.ones_spec_high by lia; rewrite !andb_false_r.
Qed.

(** The low 16 bits of the 32-bit word carry the checksum. *)
Lemma hash_step_crc16 crc b : 0 <= crc < 2 ^ 32 -> 0 <= b < 256 ->
  exists crc', hash_step crc b = Ok crc' /\ 0 <= crc' < 2 ^ 32 /\
    Z.land crc' 0xffff = crc16_byte (Z.land crc 0xffff) b.
Proof.
  intros Hc Hb. unfold hash_step. set (c := Z.land crc 65535).
  assert (0 <= c < 65536) as Hcb.
  { subst c. change 65535 with (Z.ones 16). rewrite Z.land_ones by lia. apply Z.mod_pos_bound. lia. }
  destruct (crc16_byte_table c b Hcb Hb) as (t & Ht & Htb & ->).
  replace (Z.land (Z.lxor (Z.shiftr crc 8) b) 255) with (Z.land (Z.lxor (Z.shiftr c 8) b) 255).
  2:{ subst c. apply Z.bits_inj'. intros n Hn. change 255 with (Z.ones 8). change 65535 with (Z.ones 16).
      rewrite !Z.land_spec, !Z.lxor_spec, !Z.shiftr_spec, Z.land_spec by lia.
      destruct (decide (n < 8)).
      - by rewrite (Z.ones_spec_low 16), andb_true_r by lia.
      - by rewrite (Z.ones_spec_high 8), !andb_false_r by lia. }
  rewrite (index_Ok _ _ t) by (done || apply Z.land_nonneg; lia). rewrite res_bind_Ok.
  eexists. split; [done|]. split.
  { apply (lxor_bound _ _ 32); [lia|apply uwrap32_range|lia]. }
  subst c. unfold uwrap32. apply Z.bits_inj'. intros n Hn.
  rewrite <- Z.land_ones by lia. change 65535 with (Z.ones 16).
  rewrite !Z.land_spec, !Z.lxor_spec, !Z.land_spec, !Z.shiftl_spec by lia.
  destruct (decide (n < 16)).
  - rewrite !Z.ones_spec_low by lia. rewrite !andb_true_r. f_equal.
    destruct (decide (n < 8)); [by rewrite !(Z.testbit_neg_r _ (n - 8)) by lia|].
    rewrite Z.land_spec, Z.ones_spec_low by lia. by rewrite andb_true_r.
  - rewrite (Z.ones_spec_high 16) by lia. rewrite !andb_false_r. simpl. symmetry.
    by rewrite (proj1 (Z.bounded_iff_bits_nonneg 16 t ltac:(lia) ltac:(lia)) ltac:(lia) n ltac:(lia)).
Qed.

Lemma hash_loop_crc16 key crc : 0 <= crc < 2 ^ 32 -> is_bytes key ->
  exists crc', hash_loop crc key = Ok crc' /\ 0 <= crc' /\
    Z.land crc' 0xffff = fold_left crc16_byte key (Z.land crc 0xffff).
Proof.
  intros Hc Hk. revert crc Hc. induction Hk as [|b key Hb Hk IH]; intros crc Hc; simpl.
  { exists crc. split_and!; done || lia. }
  destruct (hash_step_crc16 crc b Hc Hb) as (crc1 & -> & Hc1 & <-). rewrite res_bind_Ok. by apply IH.
Qed.

Lemma hash_crc16 key : is_bytes key -> hash key = Ok (crc16 key mod RedisClusterSlots).
Proof.
  intros Hk. unfold hash. destruct (hash_loop_crc16 key 0 ltac:(lia) Hk) as (crc & -> & Hc & Hl).
  rewrite res_bind_Ok. change (fold_left _ _ _) with (crc16 key) in Hl. f_equal.
  rewrite <- Hl. unfold RedisClusterSlots. change 16384 with (2 ^ 14).
  rewrite wrap32_id; [|pose proof (Z.mod_pos_bound crc (2 ^ 14)); lia].
  rewrite <- !Z.land_ones, <- Z.land_assoc by lia. done.
Qed.

(** The tag a key is hashed by. *)
Definition hash_tag (key : bytes) : bytes :=
  let s := Index key 123 in
  let e := Index key 125 in
  if (0 <=? s) && (s + 1 <? e) then subl key (s + 1) e else key.

Lemma Index_from_range i s c :
  0 <= i -> Index_from i s c = -1 \/ i <= Index_from i s c < i + len s.
Proof.
  revert i. induction s as [|x s IH]; intros i Hi; simpl; [by left|].
  rewrite len_cons. pose proof (len_nonneg s). case_if. destruct (IH (i + 1)); lia.
Qed.

Lemma Index_range s c : Index s c = -1 \/ 0 <= Index s c < len s.
Proof. destruct (Index_from_range 0 s c); unfold Index; lia. Qed.

(** The slot of a key. *)
Definition slot_of (k : bytes) : Z := crc16 (hash_tag k) mod RedisClusterSlots.

Lemma Hash_slot k : is_bytes k -> Hash k = Ok (slot_of k).
Proof.
  intros Hk. unfold Hash, slot_of, hash_tag.
  destruct (Index_range k 123) as [Hs|Hs], (Index_range k 125) as [He|He].
  1,2: rewrite Hs; simpl; by case_if; rewrite hash_crc16.
  { replace (Index k 125 <=? Index k 123 + 1) with true by lia.
    replace (Index k 123 + 1 <? Index k 125) with false by lia.
    rewrite andb_false_r. by repeat case_if; rewrite hash_crc16. }
  rewrite (proj2 (Z.leb_le 0 (Index k 123))) by lia. replace (len k <? 1) with false by lia. simpl.
  destruct (Index k 125 <=? Index k 123 + 1) eqn:E.
  - replace (Index k 123 + 1 <? Index k 125) with false by lia. by rewrite hash_crc16.
  - replace (Index k 123 + 1 <? Index k 125) with true by lia. rewrite slice_Ok by lia.
    rewrite res_bind_Ok, hash_crc16; [done|]. unfold subl. by apply Forall_take, Forall_drop.
Qed.

(** C30: the slot of a key is the CRC16 of its tag modulo 16384: the table
    driven loop on 32-bit words computes the bitwise checksum, no index is
    out of range and every key gets a slot below 16384. *)
Theorem Hash_is_crc16 key (Hk : is_bytes key) :
  Hash key = Ok (crc16 (hash_tag key) mod RedisClusterSlots) /\
  0 <= crc16 (hash_tag key) mod RedisClusterSlots < 16384.
Proof. split; [by apply Hash_slot|]. apply Z.mod_pos_bound. done. Qed.

Lemma Hash_is_crc16_witness :
  Hash (str "jioj{jio}fiejjkeofijo") = Ok (crc16 (str "jio") mod RedisClusterSlots) /\
  0 <= crc16 (str "jio") mod RedisClusterSlots < 16384.
Proof.
  apply (Hash_is_crc16 (str "jioj{jio}fiejjkeofijo")). repeat constructor; done.
Defined.

(** The values of the repository's tests. *)
Example Hash_tests :
  map Hash [str "jiofiejjkeofijo"; []; str "{jio}fiejjkeofijo"; str "fiejjkeofijo{jio}{abc}"] =
  [Ok 14761; Ok 0; Ok 12369; Ok 12369].
Proof. vm_compute. reflexivity. Qed.

(** ** Hash tags *)

Lemma Index_from_app i s c t : c ∉ s -> Index_from i (s ++ c :: t) c = i + len s.
Proof.
  revert i. induction s as [|x s IH]; intros i Hn; simpl.
  { rewrite Z.eqb_refl. unfold len. simpl. lia. }
  apply not_elem_of_cons in Hn as [Hx Hn]. rewrite (proj2 (Z.eqb_neq x c)) by done.
  rewrite IH, len_cons by done. lia.
Qed.

(** A key that contains a non-empty tag in braces, with no brace before
    the opening one and no closing brace inside, is placed by the tag alone;
    so all keys with the same tag share a slot. *)
Lemma Hash_tag_slot pre tag post pre' post'
    (Hp : 123 ∉ pre) (Hp2 : 125 ∉ pre) (Ht : 125 ∉ tag) (Hne : tag <> [])
    (Hp' : 123 ∉ pre') (Hp2' : 125 ∉ pre') :
  Hash (pre ++ 123 :: tag ++ 125 :: post) = hash tag /\
  Hash (pre' ++ 123 :: tag ++ 125 :: post') = Hash (pre ++ 123 :: tag ++ 125 :: post).
Proof.
  assert (forall pre post, 123 ∉ pre -> 125 ∉ pre ->
    Hash (pre ++ 123 :: tag ++ 125 :: post) = hash tag) as Hh; [|by rewrite !Hh].
  clear -Ht Hne. intros pre post Hp Hp2. unfold Hash, Index.
  pose proof (len_nonneg pre). pose proof (len_nonneg post).
  assert (0 < len tag) as Hl by (destruct tag; [done|rewrite len_cons; pose proof (len_nonneg tag); lia]).
  rewrite !len_app, len_cons, len_app, len_cons. replace (_ <? 1) with false by lia.
  rewrite (Index_from_app 0 pre) by done. replace (0 <=? 0 + len pre) with true by lia.
  replace (pre ++ 123 :: tag ++ 125 :: post) with ((pre ++ 123 :: tag) ++ 125 :: post)
    by (by rewrite <- app_assoc).
  rewrite Index_from_app by (rewrite elem_of_app, elem_of_cons; naive_solver).
  rewrite len_app, len_cons. replace (_ <=? _) with false by lia.
  rewrite slice_Ok; [|lia|rewrite len_app, len_cons, len_app, len_cons; lia].
  rewrite res_bind_Ok. f_equal. rewrite subl_app_l by (rewrite ?len_app, ?len_cons; lia).
  replace (pre ++ 123 :: tag) with ((pre ++ [123]) ++ tag) by (by rewrite <- app_assoc).
  rewrite subl_app_r by (rewrite len_app; change (len [123]) with 1; lia).
  rewrite len_app. change (len [123]) with 1.
  replace (0 + len pre + 1 - (len pre + 1)) with 0 by lia.
  replace (0 + (len pre + (1 + len tag)) - (len pre + 1)) with (len tag) by lia.
  by rewrite subl_full.
Qed.

Lemma Hash_tag_slot_witness :
  Hash (str "user:" ++ 123 :: str "42" ++ 125 :: str ":name") = hash (str "42") /\
  Hash ([] ++ 123 :: str "42" ++ 125 :: []) = Hash (str "user:" ++ 123 :: str "42" ++ 125 :: str ":name").
Proof.
  apply (Hash_tag_slot (str "user:") (str "42") (str ":name") [] []); not_in || discriminate.
Defined.

(** A closing brace before the opening one hides the tag: the whole key is
    hashed, where Redis Cluster looks for the closing brace to the right of
    the opening one only. *)
Lemma Hash_early_brace pre mid tag post
    (Hp : 123 ∉ pre) (Hp2 : 125 ∉ pre) (Hm : 123 ∉ mid) :
  Hash (pre ++ 125 :: mid ++ 123 :: tag ++ 125 :: post) =
  hash (pre ++ 125 :: mid ++ 123 :: tag ++ 125 :: post).
Proof.
  unfold Hash, Index. case_if; [done|]. case_if; [|done].
  rewrite (Index_from_app 0 pre 125) by done.
  replace (pre ++ 125 :: mid ++ 123 :: tag ++ 125 :: post)
    with ((pre ++ 125 :: mid) ++ 123 :: tag ++ 125 :: post) by (by rewrite <- app_assoc).
  rewrite (Index_from_app 0 (pre ++ 125 :: mid))
    by (rewrite elem_of_app, elem_of_cons; naive_solver lia).
  rewrite len_app, len_cons. pose proof (len_nonneg mid).
  replace (_ <=? _) with true by lia. done.
Qed.

Lemma Hash_early_brace_witness :
  Hash (str "a" ++ 125 :: str "b" ++ 123 :: str "tag" ++ 125 :: []) =
  hash (str "a" ++ 125 :: str "b" ++ 123 :: str "tag" ++ 125 :: []).
Proof.
  apply (Hash_early_brace (str "a") (str "b") (str "tag") []); not_in.
Defined.
