(* ===== verification/Commands.v ===== *)
(** * Commands

    [core/codec/commands.go]: the request and response types of the proxy, the
    tables between names and types, the arity table, and the lookup that the
    request decoder uses.  The constants keep the order of the source, which
    [Command_code] records: the routing code compares commands with
    [ReqWriteCmdStart] to tell reads from writes. *)

From S2P Require Import Prelude.

Inductive Command : Set :=
  | UNKNOWN | ReqExists | ReqTtl | ReqPttl | ReqType | ReqDump | ReqBitcount | ReqGet
  | ReqGetbit | ReqGetrange | ReqMget | ReqStrlen | ReqHexists | ReqHget | ReqHgetall
  | ReqHkeys | ReqHlen | ReqHmget | ReqHscan | ReqHvals | ReqLindex | ReqLlen | ReqLrange
  | ReqSrandmember | ReqSscan | ReqSdiff | ReqSinter | ReqScard | ReqSismember | ReqSmembers
  | ReqZcard | ReqZcount | ReqZlexcount | ReqZrange | ReqZrangebylex | ReqZrangebyscore
  | ReqZrank | ReqZrevrange | ReqZrevrangebyscore | ReqZrevrank | ReqZscore | ReqZscan
  | ReqWriteCmdStart | ReqDel | ReqExpire | ReqExpireat | ReqPexpire | ReqPexpireat
  | ReqPersist | ReqSort | ReqAppend | ReqDecr | ReqDecrby | ReqGetset | ReqIncr | ReqIncrby
  | ReqIncrbyfloat | ReqMset | ReqPsetex | ReqRestore | ReqSet | ReqSetbit | ReqSetex
  | ReqSetnx | ReqSetrange | ReqSunion | ReqHdel | ReqHincrby | ReqHincrbyfloat | ReqHmset
  | ReqHset | ReqHsetnx | ReqLinsert | ReqLpop | ReqLpush | ReqLpushx | ReqLrem | ReqLset
  | ReqLtrim | ReqRpop | ReqRpoplpush | ReqRpush | ReqRpushx | ReqPfadd | ReqPfcount
  | ReqPfmerge | ReqSadd | ReqSdiffstore | ReqSinterstore | ReqSmove | ReqSpop | ReqSrem
  | ReqSunionstore | ReqZadd | ReqZincrby | ReqZinterstore | ReqZrem | ReqZremrangebyrank
  | ReqZremrangebylex | ReqZremrangebyscore | ReqZunionstore | ReqEval | ReqEvalsha | ReqPing
  | ReqQuit | ReqAuth | ReqTooLarge | ReqWrongArgumentsNumber | RspTooLarge | RspStatus | RspOk
  | RspPong | RspError | RspNeedAuth | RspNeedNtAuth | RspAuthFailed | RspInteger | RspBulk
  | RspMultibulk | RspAsk | RspMoved | Sentinel.

(** The value [iota] gives each constant. *)
Definition Command_code (c : Command) : Z :=
  match c with
  | UNKNOWN => 0 | ReqExists => 1 | ReqTtl => 2 | ReqPttl => 3 | ReqType => 4 | ReqDump => 5
  | ReqBitcount => 6 | ReqGet => 7 | ReqGetbit => 8 | ReqGetrange => 9 | ReqMget => 10
  | ReqStrlen => 11 | ReqHexists => 12 | ReqHget => 13 | ReqHgetall => 14 | ReqHkeys => 15
  | ReqHlen => 16 | ReqHmget => 17 | ReqHscan => 18 | ReqHvals => 19 | ReqLindex => 20
  | ReqLlen => 21 | ReqLrange => 22 | ReqSrandmember => 23 | ReqSscan => 24 | ReqSdiff => 25
  | ReqSinter => 26 | ReqScard => 27 | ReqSismember => 28 | ReqSmembers => 29 | ReqZcard => 30
  | ReqZcount => 31 | ReqZlexcount => 32 | ReqZrange => 33 | ReqZrangebylex => 34
  | ReqZrangebyscore => 35 | ReqZrank => 36 | ReqZrevrange => 37 | ReqZrevrangebyscore => 38
  | ReqZrevrank => 39 | ReqZscore => 40 | ReqZscan => 41 | ReqWriteCmdStart => 42
  | ReqDel => 43 | ReqExpire => 44 | ReqExpireat => 45 | ReqPexpire => 46 | ReqPexpireat => 47
  | ReqPersist => 48 | ReqSort => 49 | ReqAppend => 50 | ReqDecr => 51 | ReqDecrby => 52
  | ReqGetset => 53 | ReqIncr => 54 | ReqIncrby => 55 | ReqIncrbyfloat => 56 | ReqMset => 57
  | ReqPsetex => 58 | ReqRestore => 59 | ReqSet => 60 | ReqSetbit => 61 | ReqSetex => 62
  | ReqSetnx => 63 | ReqSetrange => 64 | ReqSunion => 65 | ReqHdel => 66 | ReqHincrby => 67
  | ReqHincrbyfloat => 68 | ReqHmset => 69 | ReqHset => 70 | ReqHsetnx => 71 | ReqLinsert => 72
  | ReqLpop => 73 | ReqLpush => 74 | ReqLpushx => 75 | ReqLrem => 76 | ReqLset => 77
  | ReqLtrim => 78 | ReqRpop => 79 | ReqRpoplpush => 80 | ReqRpush => 81 | ReqRpushx => 82
  | ReqPfadd => 83 | ReqPfcount => 84 | ReqPfmerge => 85 | ReqSadd => 86 | ReqSdiffstore => 87
  | ReqSinterstore => 88 | ReqSmove => 89 | ReqSpop => 90 | ReqSrem => 91
  | ReqSunionstore => 92 | ReqZadd => 93 | ReqZincrby => 94 | ReqZinterstore => 95
  | ReqZrem => 96 | ReqZremrangebyrank => 97 | ReqZremrangebylex => 98
  | ReqZremrangebyscore => 99 | ReqZunionstore => 100 | ReqEval => 101 | ReqEvalsha => 102
  | ReqPing => 103 | ReqQuit => 104 | ReqAuth => 105 | ReqTooLarge => 106
  | ReqWrongArgumentsNumber => 107 | RspTooLarge => 108 | RspStatus => 109 | RspOk => 110
  | RspPong => 111 | RspError => 112 | RspNeedAuth => 113 | RspNeedNtAuth => 114
  | RspAuthFailed => 115 | RspInteger => 116 | RspBulk => 117 | RspMultibulk => 118
  | RspAsk => 119 | RspMoved => 120 | Sentinel => 121
  end.

Inductive NArgs : Set := Nargsz | Nargs0 | Nargs1 | Nargs2 | Nargs3 | NargsInf | NargsEvenInf.

(** [int(nargs)]. *)
Definition NArgs_int (a : NArgs) : Z :=
  match a with
  | Nargsz => 0 | Nargs0 => 1 | Nargs1 => 2 | Nargs2 => 3 | Nargs3 => 4
  | NargsInf => -1 | NargsEvenInf => -2
  end.

Definition CommandType2Str : list (Command * bytes) := [
  (ReqExists, str "exists"); (ReqTtl, str "ttl"); (ReqPttl, str "pttl"); (ReqType, str "type");
  (ReqDump, str "dump"); (ReqBitcount, str "bitcount"); (ReqGet, str "get");
  (ReqGetbit, str "getbit"); (ReqGetrange, str "getrange"); (ReqMget, str "mget");
  (ReqStrlen, str "strlen"); (ReqHexists, str "hexists"); (ReqHget, str "hget");
  (ReqHgetall, str "hgetall"); (ReqHkeys, str "hkeys"); (ReqHlen, str "hlen");
  (ReqHmget, str "hmget"); (ReqHscan, str "hscan"); (ReqHvals, str "hvals");
  (ReqLindex, str "lindex"); (ReqLlen, str "llen"); (ReqLrange, str "lrange");
  (ReqSrandmember, str "srandmember"); (ReqSscan, str "sscan"); (ReqSdiff, str "sdiff");
  (ReqSinter, str "sinter"); (ReqScard, str "scard"); (ReqSismember, str "sismember");
  (ReqSmembers, str "smembers"); (ReqZcard, str "zcard"); (ReqZcount, str "zcount");
  (ReqZlexcount, str "zlexcount"); (ReqZrange, str "zrange");
  (ReqZrangebylex, str "zrangebylex"); (ReqZrangebyscore, str "zrangebyscore");
  (ReqZrank, str "zrank"); (ReqZrevrange, str "zrevrange");
  (ReqZrevrangebyscore, str "zrevrangebyscore"); (ReqZrevrank, str "zrevrank");
  (ReqZscore, str "zscore"); (ReqZscan, str "zscan"); (ReqDel, str "del");
  (ReqExpire, str "expire"); (ReqExpireat, str "expireat"); (ReqPexpire, str "pexpire");
  (ReqPexpireat, str "pexpireat"); (ReqPersist, str "persist"); (ReqSort, str "sort");
  (ReqAppend, str "append"); (ReqDecr, str "decr"); (ReqDecrby, str "decrby");
  (ReqGetset, str "getset"); (ReqIncr, str "incr"); (ReqIncrby, str "incrby");
  (ReqIncrbyfloat, str "incrbyfloat"); (ReqMset, str "mset"); (ReqPsetex, str "psetex");
  (ReqRestore, str "restore"); (ReqSet, str "set"); (ReqSetbit, str "setbit");
  (ReqSetex, str "setex"); (ReqSetnx, str "setnx"); (ReqSetrange, str "setrange");
  (ReqSunion, str "sunion"); (ReqHdel, str "hdel"); (ReqHincrby, str "hincrby");
  (ReqHincrbyfloat, str "hincrbyfloat"); (ReqHmset, str "hmset"); (ReqHset, str "hset");
  (ReqHsetnx, str "hsetnx"); (ReqLinsert, str "linsert"); (ReqLpop, str "lpop");
  (ReqLpush, str "lpush"); (ReqLpushx, str "lpushx"); (ReqLrem, str "lrem");
  (ReqLset, str "lset"); (ReqLtrim, str "ltrim"); (ReqRpop, str "rpop");
  (ReqRpoplpush, str "rpoplpush"); (ReqRpush, str "rpush"); (ReqRpushx, str "rpushx");
  (ReqPfadd, str "pfadd"); (ReqPfcount, str "pfcount"); (ReqPfmerge, str "pfmerge");
  (ReqSadd, str "sadd"); (ReqSdiffstore, str "sdiffstore");
  (ReqSinterstore, str "sinterstore"); (ReqSmove, str "smove"); (ReqSpop, str "spop");
  (ReqSrem, str "srem"); (ReqSunionstore, str "sunionstore"); (ReqZadd, str "zadd");
  (ReqZincrby, str "zincrby"); (ReqZinterstore, str "zinterstore"); (ReqZrem, str "zrem");
  (ReqZremrangebyrank, str "zremrangebyrank"); (ReqZremrangebylex, str "zremrangebylex");
  (ReqZremrangebyscore, str "zremrangebyscore"); (ReqZunionstore, str "zunionstore");
  (ReqEval, str "eval"); (ReqEvalsha, str "evalsha"); (ReqPing, str "ping");
  (ReqQuit, str "quit"); (ReqAuth, str "auth")].

Definition CommandStr2Type : list (bytes * Command) := [
  (str "exists", ReqExists); (str "ttl", ReqTtl); (str "pttl", ReqPttl); (str "type", ReqType);
  (str "dump", ReqDump); (str "bitcount", ReqBitcount); (str "get", ReqGet);
  (str "getbit", ReqGetbit); (str "getrange", ReqGetrange); (str "mget", ReqMget);
  (str "strlen", ReqStrlen); (str "hexists", ReqHexists); (str "hget", ReqHget);
  (str "hgetall", ReqHgetall); (str "hkeys", ReqHkeys); (str "hlen", ReqHlen);
  (str "hmget", ReqHmget); (str "hscan", ReqHscan); (str "hvals", ReqHvals);
  (str "lindex", ReqLindex); (str "llen", ReqLlen); (str "lrange", ReqLrange);
  (str "srandmember", ReqSrandmember); (str "sscan", ReqSscan); (str "sdiff", ReqSdiff);
  (str "sinter", ReqSinter); (str "scard", ReqScard); (str "sismember", ReqSismember);
  (str "smembers", ReqSmembers); (str "zcard", ReqZcard); (str "zcount", ReqZcount);
  (str "zlexcount", ReqZlexcount); (str "zrange", ReqZrange);
  (str "zrangebylex", ReqZrangebylex); (str "zrangebyscore", ReqZrangebyscore);
  (str "zrank", ReqZrank); (str "zrevrange", ReqZrevrange);
  (str "zrevrangebyscore", ReqZrevrangebyscore); (str "zrevrank", ReqZrevrank);
  (str "zscore", ReqZscore); (str "zscan", ReqZscan); (str "del", ReqDel);
  (str "expire", ReqExpire); (str "expireat", ReqExpireat); (str "pexpire", ReqPexpire);
  (str "pexpireat", ReqPexpireat); (str "persist", ReqPersist); (str "sort", ReqSort);
  (str "append", ReqAppend); (str "decr", ReqDecr); (str "decrby", ReqDecrby);
  (str "getset", ReqGetset); (str "incr", ReqIncr); (str "incrby", ReqIncrby);
  (str "incrbyfloat", ReqIncrbyfloat); (str "mset", ReqMset); (str "psetex", ReqPsetex);
  (str "restore", ReqRestore); (str "set", ReqSet); (str "setbit", ReqSetbit);
  (str "setex", ReqSetex); (str "setnx", ReqSetnx); (str "setrange", ReqSetrange);
  (str "sunion", ReqSunion); (str "hdel", ReqHdel); (str "hincrby", ReqHincrby);
  (str "hincrbyfloat", ReqHincrbyfloat); (str "hmset", ReqHmset); (str "hset", ReqHset);
  (str "hsetnx", ReqHsetnx); (str "linsert", ReqLinsert); (str "lpop", ReqLpop);
  (str "lpush", ReqLpush); (str "lpushx", ReqLpushx); (str "lrem", ReqLrem);
  (str "lset", ReqLset); (str "ltrim", ReqLtrim); (str "rpop", ReqRpop);
  (str "rpoplpush", ReqRpoplpush); (str "rpush", ReqRpush); (str "rpushx", ReqRpushx);
  (str "pfadd", ReqPfadd); (str "pfcount", ReqPfcount); (str "pfmerge", ReqPfmerge);
  (str "sadd", ReqSadd); (str "sdiffstore", ReqSdiffstore);
  (str "sinterstore", ReqSinterstore); (str "smove", ReqSmove); (str "spop", ReqSpop);
  (str "srem", ReqSrem); (str "sunionstore", ReqSunionstore); (str "zadd", ReqZadd);
  (str "zincrby", ReqZincrby); (str "zinterstore", ReqZinterstore); (str "zrem", ReqZrem);
  (str "zremrangebyrank", ReqZremrangebyrank); (str "zremrangebylex", ReqZremrangebylex);
  (str "zremrangebyscore", ReqZremrangebyscore); (str "zunionstore", ReqZunionstore);
  (str "eval", ReqEval); (str "evalsha", ReqEvalsha); (str "ping", ReqPing);
  (str "quit", ReqQuit); (str "auth", ReqAuth)].

Definition CommandType2ArgsNumber : list (Command * NArgs) := [
  (ReqPing, Nargsz); (ReqQuit, Nargsz); (ReqExists, Nargs0); (ReqTtl, Nargs0);
  (ReqPttl, Nargs0); (ReqType, Nargs0); (ReqDump, Nargs0); (ReqGet, Nargs0);
  (ReqStrlen, Nargs0); (ReqHgetall, Nargs0); (ReqHkeys, Nargs0); (ReqHlen, Nargs0);
  (ReqSmembers, Nargs0); (ReqZcard, Nargs0); (ReqLlen, Nargs0); (ReqScard, Nargs0);
  (ReqHvals, Nargs0); (ReqPfcount, Nargs0); (ReqSpop, Nargs0); (ReqAuth, Nargs0);
  (ReqRpop, Nargs0); (ReqPersist, Nargs0); (ReqDecr, Nargs0); (ReqIncr, Nargs0);
  (ReqLpop, Nargs0); (ReqRpoplpush, Nargs1); (ReqRpushx, Nargs1); (ReqGetbit, Nargs1);
  (ReqHexists, Nargs1); (ReqHget, Nargs1); (ReqLindex, Nargs1); (ReqSismember, Nargs1);
  (ReqExpire, Nargs1); (ReqZrank, Nargs1); (ReqZrevrank, Nargs1); (ReqZscore, Nargs1);
  (ReqExpireat, Nargs1); (ReqPexpire, Nargs1); (ReqPexpireat, Nargs1); (ReqAppend, Nargs1);
  (ReqDecrby, Nargs1); (ReqGetset, Nargs1); (ReqIncrby, Nargs1); (ReqIncrbyfloat, Nargs1);
  (ReqSetnx, Nargs1); (ReqLpushx, Nargs1); (ReqGetrange, Nargs2); (ReqLrange, Nargs2);
  (ReqZcount, Nargs2); (ReqZlexcount, Nargs2); (ReqPsetex, Nargs2); (ReqRestore, Nargs2);
  (ReqSetbit, Nargs2); (ReqSetex, Nargs2); (ReqSetrange, Nargs2); (ReqHincrby, Nargs2);
  (ReqHincrbyfloat, Nargs2); (ReqHset, Nargs2); (ReqHsetnx, Nargs2); (ReqLrem, Nargs2);
  (ReqLset, Nargs2); (ReqLtrim, Nargs2); (ReqSmove, Nargs2); (ReqZincrby, Nargs2);
  (ReqZremrangebyrank, Nargs2); (ReqZremrangebylex, Nargs2); (ReqZremrangebyscore, Nargs2);
  (ReqLinsert, Nargs3); (ReqSet, NargsInf); (ReqHmset, NargsInf); (ReqLpush, NargsInf);
  (ReqSunion, NargsInf); (ReqHdel, NargsInf); (ReqPfmerge, NargsInf); (ReqRpush, NargsInf);
  (ReqPfadd, NargsInf); (ReqSadd, NargsInf); (ReqSdiffstore, NargsInf);
  (ReqSinterstore, NargsInf); (ReqSrem, NargsInf); (ReqSunionstore, NargsInf);
  (ReqZadd, NargsInf); (ReqZinterstore, NargsInf); (ReqZrem, NargsInf);
  (ReqBitcount, NargsInf); (ReqZunionstore, NargsInf); (ReqEval, NargsInf);
  (ReqEvalsha, NargsInf); (ReqMget, NargsInf); (ReqHmget, NargsInf); (ReqHscan, NargsInf);
  (ReqSrandmember, NargsInf); (ReqSscan, NargsInf); (ReqSdiff, NargsInf);
  (ReqSinter, NargsInf); (ReqZrange, NargsInf); (ReqZrangebylex, NargsInf);
  (ReqZrangebyscore, NargsInf); (ReqZrevrange, NargsInf); (ReqZrevrangebyscore, NargsInf);
  (ReqZscan, NargsInf); (ReqDel, NargsInf); (ReqSort, NargsInf); (ReqMset, NargsEvenInf)].

(** The commands in the order of the source. *)
Definition all_commands : list Command := [
  UNKNOWN; ReqExists; ReqTtl; ReqPttl; ReqType; ReqDump; ReqBitcount; ReqGet; ReqGetbit;
  ReqGetrange; ReqMget; ReqStrlen; ReqHexists; ReqHget; ReqHgetall; ReqHkeys; ReqHlen;
  ReqHmget; ReqHscan; ReqHvals; ReqLindex; ReqLlen; ReqLrange; ReqSrandmember; ReqSscan;
  ReqSdiff; ReqSinter; ReqScard; ReqSismember; ReqSmembers; ReqZcard; ReqZcount; ReqZlexcount;
  ReqZrange; ReqZrangebylex; ReqZrangebyscore; ReqZrank; ReqZrevrange; ReqZrevrangebyscore;
  ReqZrevrank; ReqZscore; ReqZscan; ReqWriteCmdStart; ReqDel; ReqExpire; ReqExpireat;
  ReqPexpire; ReqPexpireat; ReqPersist; ReqSort; ReqAppend; ReqDecr; ReqDecrby; ReqGetset;
  ReqIncr; ReqIncrby; ReqIncrbyfloat; ReqMset; ReqPsetex; ReqRestore; ReqSet; ReqSetbit;
  ReqSetex; ReqSetnx; ReqSetrange; ReqSunion; ReqHdel; ReqHincrby; ReqHincrbyfloat; ReqHmset;
  ReqHset; ReqHsetnx; ReqLinsert; ReqLpop; ReqLpush; ReqLpushx; ReqLrem; ReqLset; ReqLtrim;
  ReqRpop; ReqRpoplpush; ReqRpush; ReqRpushx; ReqPfadd; ReqPfcount; ReqPfmerge; ReqSadd;
  ReqSdiffstore; ReqSinterstore; ReqSmove; ReqSpop; ReqSrem; ReqSunionstore; ReqZadd;
  ReqZincrby; ReqZinterstore; ReqZrem; ReqZremrangebyrank; ReqZremrangebylex;
  ReqZremrangebyscore; ReqZunionstore; ReqEval; ReqEvalsha; ReqPing; ReqQuit; ReqAuth;
  ReqTooLarge; ReqWrongArgumentsNumber; RspTooLarge; RspStatus; RspOk; RspPong; RspError;
  RspNeedAuth; RspNeedNtAuth; RspAuthFailed; RspInteger; RspBulk; RspMultibulk; RspAsk;
  RspMoved; Sentinel].

Lemma all_commands_code c : all_commands !! Z.to_nat (Command_code c) = Some c.
Proof. by destruct c. Qed.

Lemma Command_code_inj a b : Command_code a = Command_code b -> a = b.
Proof.
  intros E. pose proof (all_commands_code a) as Ha. rewrite E, all_commands_code in Ha. congruence.
Qed.

#[export] Instance Command_eq_dec : EqDecision Command.
Proof.
  refine (fun a b => match Z.eq_dec (Command_code a) (Command_code b) with
                     | left E => left (Command_code_inj a b E)
                     | right N => right _
                     end).
  congruence.
Defined.

#[export] Instance NArgs_eq_dec : EqDecision NArgs.
Proof. solve_decision. Defined.

(** A Go map literal as an association list: keys do not repeat. *)
Fixpoint assoc {K V} `{EqDecision K} (k : K) (l : list (K * V)) : option V :=
  match l with
  | [] => None
  | (k', v) :: l => if decide (k = k') then Some v else assoc k l
  end.

(** [toLower]: in place, so the caller's slice holds the result. *)
Definition toLower_byte (b : Z) : Z := if (65 <=? b) && (b <=? 90) then Z.lxor b 0x20 else b.
Definition toLower (bs : bytes) : bytes := map toLower_byte bs.

Definition checkArgs (command : Command) (n : Z) : Command :=
  match assoc command CommandType2ArgsNumber with
  | None => ReqWrongArgumentsNumber
  | Some nargs =>
      match nargs with
      | Nargsz | Nargs0 | Nargs1 | Nargs2 | Nargs3 =>
          if negb (NArgs_int nargs =? n) then ReqWrongArgumentsNumber else command
      | NargsInf => if n <? 1 then ReqWrongArgumentsNumber else command
      | NargsEvenInf =>
          if (n <? 2) || (Z.rem n 2 =? 1) then ReqWrongArgumentsNumber else command
      end
  end.

(** [Transform2Type]: the type, and the command bytes as lowered in place. *)
Definition Transform2Type (command : bytes) (n : Z) : Command * bytes :=
  let command := toLower command in
  match assoc command CommandStr2Type with
  | Some v => (checkArgs v n, command)
  | None => (UNKNOWN, command)
  end.

Definition Transform2Str (command : Command) : bytes :=
  match assoc command CommandType2Str with
  | Some v => v
  | None => str "unknown"
  end.

(** ** Consistency of the tables *)

(** How many arguments after the name a command takes. *)
Definition arity_ok (a : NArgs) (n : Z) : Prop :=
  match a with
  | Nargsz => n = 0
  | Nargs0 => n = 1
  | Nargs1 => n = 2
  | Nargs2 => n = 3
  | Nargs3 => n = 4
  | NargsInf => 1 <= n
  | NargsEvenInf => exists k, n = 2 * k /\ 1 <= k
  end.

(** The requests: every entry has its name back and an arity. *)
Definition entry_ok (e : bytes * Command) : bool :=
  bool_decide (assoc e.2 CommandType2Str = Some e.1) &&
  bool_decide (assoc e.1 CommandStr2Type = Some e.2) &&
  bool_decide (toLower e.1 = e.1) &&
  match assoc e.2 CommandType2ArgsNumber with Some _ => true | None => false end.

Lemma entries_ok : forallb entry_ok CommandStr2Type = true.
Proof. vm_compute. reflexivity. Qed.

Lemma assoc_in {K V} `{EqDecision K} (k : K) (v : V) l : assoc k l = Some v -> (k, v) ∈ l.
Proof.
  induction l as [|[k' v'] l IH]; simpl; [done|]. case_decide; [intros; simplify_eq; by left|].
  intros Hk. right. auto.
Qed.

Lemma entry_facts s c : assoc s CommandStr2Type = Some c ->
  Transform2Str c = s /\ toLower s = s /\ exists a, assoc c CommandType2ArgsNumber = Some a.
Proof.
  intros Hs. pose proof (proj1 (forallb_forall _ _) entries_ok (s, c)) as He.
  specialize (He ltac:(by apply list_elem_of_In, assoc_in)). unfold entry_ok in He.
  rewrite !andb_true_iff, !bool_decide_eq_true in He. cbn [fst snd] in He.
  destruct He as (((H1 & H2) & H3) & H4). unfold Transform2Str. rewrite H1.
  split_and!; [done|done|]. destruct (assoc c CommandType2ArgsNumber); [eauto|done].
Qed.

Lemma toLower_byte_idem b : toLower_byte (toLower_byte b) = toLower_byte b.
Proof.
  unfold toLower_byte at 2 3. destruct (_ && _) eqn:E.
  - apply andb_true_iff in E as [E1%Z.leb_le E2%Z.leb_le].
    unfold toLower_byte. assert (Z.lxor b 32 = b + 32) as ->.
    { assert (b ∈ seqZ 65 26) as Hb by (apply elem_of_seqZ; lia).
      assert (forallb (fun b => Z.lxor b 32 =? b + 32) (seqZ 65 26) = true) as Hc by done.
      rewrite forallb_forall in Hc. apply list_elem_of_In in Hb. specialize (Hc _ Hb). lia. }
    replace (b + 32 <=? 90) with false by lia. by rewrite andb_false_r.
  - unfold toLower_byte. by rewrite E.
Qed.

Lemma toLower_idem s : toLower (toLower s) = toLower s.
Proof. unfold toLower. rewrite map_map. apply map_ext, toLower_byte_idem. Qed.

Lemma checkArgs_spec c n a : assoc c CommandType2ArgsNumber = Some a ->
  (arity_ok a n -> checkArgs c n = c) /\
  (~ arity_ok a n -> checkArgs c n = ReqWrongArgumentsNumber).
Proof.
  intros Ha. unfold checkArgs. rewrite Ha.
  destruct a; cbn [arity_ok NArgs_int]; try (case_if; split; intros; done || lia).
  destruct ((n <? 2) || (Z.rem n 2 =? 1)) eqn:E.
  - split; [|done]. intros (k & -> & Hk). exfalso. apply orb_true_iff in E as [E|E]; [lia|].
    rewrite Z.mul_comm, Z.rem_mul in E by lia. lia.
  - split; [done|]. intros Hno. exfalso. apply Hno. apply orb_false_iff in E as [E1 E2].
    exists (n / 2). pose proof (Z.div_mod n 2). rewrite Z.rem_mod_nonneg in E2 by lia.
    pose proof (Z.mod_pos_bound n 2). lia.
Qed.

(** Decoding a command name ignores letter case, leaves the lower-case
    name in the request's own bytes, and yields: the command of that name when
    the number of arguments fits its arity, the wrong-arguments marker when it
    does not, and [UNKNOWN] exactly for names outside the table; a command's
    printed name parses back to it. *)
Theorem Transform2Type_spec (command : bytes) (n : Z) :
  match assoc (toLower command) CommandStr2Type with
  | None => Transform2Type command n = (UNKNOWN, toLower command)
  | Some c =>
      Transform2Str c = toLower command /\ c <> UNKNOWN /\ c <> ReqWrongArgumentsNumber /\
      exists a, assoc c CommandType2ArgsNumber = Some a /\
        (arity_ok a n -> Transform2Type command n = (c, toLower command)) /\
        (~ arity_ok a n -> Transform2Type command n = (ReqWrongArgumentsNumber, toLower command))
  end.
Proof.
  unfold Transform2Type. destruct (assoc (toLower command) CommandStr2Type) as [c|] eqn:Hc; [|done].
  destruct (entry_facts _ _ Hc) as (Hs & Hl & a & Ha). split; [done|].
  split; [intros ->; vm_compute in Ha; discriminate|].
  split; [intros ->; vm_compute in Ha; discriminate|]. exists a. split; [done|].
  destruct (checkArgs_spec c n a Ha) as [H1 H2].
  split; intros Hn; [by rewrite H1|by rewrite H2].
Qed.

Example Transform2Type_get : Transform2Type (str "GeT") 1 = (ReqGet, str "get").
Proof. vm_compute. reflexivity. Qed.
Example Transform2Type_mset : (Transform2Type (str "mset") 3).1 = ReqWrongArgumentsNumber.
Proof. vm_compute. reflexivity. Qed.
