(* ===== verification/Codec.v ===== *)
(** * Protocol buffers and numbers

    [core/codec/codec.go]: the fixed replies; [core/codec/buff.go]: the cursor
    over the bytes of one decode; [core/codec.go]: [parseLen]; and the decimal
    printing of [strconv.Itoa].  The lemmas say what a cursor does on a line, on a
    counted string and on a strict prefix of them, which is what the request
    and reply decoders are proved from. *)

From S2P Require Import Prelude Errors.

Definition crlf : bytes := [13; 10].

(** [Status] and [Error] are strings that hold a whole RESP line. *)
Definition OK : bytes := str "+OK" ++ crlf.
Definition PONG : bytes := str "+PONG" ++ crlf.

Definition ErrUnKnown : bytes := str "-ERR unknown error" ++ crlf.
Definition ErrAddrNotFoundError : bytes := str "-ERR addr not found" ++ crlf.
Definition ErrUnKnownCommand : bytes := str "-ERR unknown command" ++ crlf.
Definition ErrUnKnownSlot : bytes := str "-ERR unknown slot" ++ crlf.
Definition ErrUnKnownProxyPoolError : bytes := str "-ERR unknown proxy pool" ++ crlf.
Definition ErrUnKnownProxyPoolConnError : bytes := str "-ERR unknown proxy pool conn" ++ crlf.
Definition ErrUnKnownMget : bytes := str "-ERR unknown mget error" ++ crlf.
Definition ErrMsgReqTooLarge : bytes := str "-ERR req msg length too large" ++ crlf.
Definition ErrMsgRspTooLarge : bytes := str "-ERR rsp msg length too large" ++ crlf.
Definition ErrMsgReqWrongArgumentsNumber : bytes := str "-ERR wrong number of arguments" ++ crlf.
Definition ErrMsgRequestTimeout : bytes := str "-ERR proxy request timeout" ++ crlf.
Definition ErrAuthInvalidPassword : bytes := str "-ERR invalid password" ++ crlf.
Definition ErrAuthNeedNtPassword : bytes :=
  str "-ERR Client sent AUTH, but no password is set" ++ crlf.

Definition Error_Nil (e : bytes) : bool := len e <? 1.
Definition Error_NotNil (e : bytes) : bool := 0 <? len e.

(** [ShortString]: without the line end. *)
Definition ShortString (e : bytes) : bytes := subl e 0 (len e - 2).

(** ** codec.Buffer *)

Record Buffer := mkBuf { buf : bytes; r : Z }.

Definition NewBuffer (bs : bytes) : Buffer := mkBuf bs 0.
Definition Empty (b : Buffer) : bool := len (buf b) <? 1.
Definition TotalSize (b : Buffer) : Z := len (buf b).
Definition ReadSize (b : Buffer) : Z := r b.
Definition ReadBuf (b : Buffer) : res bytes := slice (buf b) 0 (r b).
Definition leftSize (b : Buffer) : Z := len (buf b) - r b.
Definition leftBuf (b : Buffer) : res bytes := slice (buf b) (r b) (len (buf b)).
Definition PeekAll (b : Buffer) : bytes := buf b.

(** A Go pair of a value and an error, of which one is nil, is a sum. *)
Definition ReadN (b : Buffer) (n : Z) : res ((bytes + error) * Buffer) :=
  if leftSize b <? 1 then Ok (inr (ECodec EmptyLine), b)
  else if leftSize b <? n then Ok (inr (ECodec ShortLine), b)
  else
    let b' := mkBuf (buf b) (r b + n) in
    d ← slice (buf b') (r b) (r b');
    Ok (inl d, b').

Definition PeekN (b : Buffer) (n : Z) : res (bytes + error) :=
  if leftSize b <? 1 then Ok (inr (ECodec EmptyLine))
  else if leftSize b <? n then Ok (inr (ECodec ShortLine))
  else d ← slice (buf b) (r b) (r b + n); Ok (inl d).

(** [bytes.IndexByte]: the first position, or -1. *)
Fixpoint IndexByte (s : bytes) (c : Z) : Z :=
  match s with
  | [] => -1
  | x :: s => if x =? c then 0 else let i := IndexByte s c in if i =? -1 then -1 else i + 1
  end.

Definition ReadLine (b : Buffer) : res ((bytes + error) * Buffer) :=
  if leftSize b <? 1 then Ok (inr (ECodec EmptyLine), b)
  else
    left ← leftBuf b;
    let idx := IndexByte left 10 in
    if idx =? -1 then Ok (inr (ECodec ErrLFNotFound), b)
    else
      '(x, b) ← ReadN b (idx + 1);
      match x with
      | inr err => Ok (inr err, b)
      | inl line =>
          if idx <? 2 then Ok (inr (ECodec EmptyLine), b)
          else
            c ← index line (idx - 1);
            if negb (c =? 13) then Ok (inr (ECodec ErrInvalidResp), b)
            else d ← slice line 0 (len line - 2); Ok (inl d, b)
      end.

(** ** Numbers *)

(** The loop of [parseLen], on 64-bit integers. *)
Fixpoint parseLen_loop (p : bytes) (n : Z) : Z * option error :=
  match p with
  | [] => (n, None)
  | b :: p =>
      let n := wrap64 (n * 10) in
      if (b <? 48) || (57 <? b) then (-1, Some (ECodec ErrInvalidResp))
      else parseLen_loop p (wrap64 (n + (b - 48)))
  end.

Definition parseLen (p : bytes) : Z * option error :=
  if len p <? 1 then (-1, Some (EText (str "malformed length")))
  else if bool_decide (p = [45; 49]) then (-1, None)
  else parseLen_loop p 0.

(** [strconv.Itoa]; 20 digits hold every 64-bit integer. *)
Fixpoint digits (fuel : nat) (n : Z) : bytes :=
  match fuel with
  | O => []
  | S fuel => if n <? 10 then [48 + n] else digits fuel (n / 10) ++ [48 + n mod 10]
  end.
Definition Itoa (n : Z) : bytes := if n <? 0 then 45 :: digits 20 (- n) else digits 20 n.

Lemma parseLen_loop_app p q n :
  parseLen_loop (p ++ q) n =
  match parseLen_loop p n with
  | (m, None) => parseLen_loop q m
  | e => e
  end.
Proof.
  revert n. induction p as [|b p IH]; intros n; simpl; [done|]. case_if; [done|]. apply IH.
Qed.

Lemma digits_parse fuel n :
  0 <= n < 10 ^ Z.of_nat fuel -> n < 2 ^ 63 -> parseLen_loop (digits fuel n) 0 = (n, None).
Proof.
  revert n. induction fuel as [|fuel IH]; intros n Hn Hb; [simpl in *; f_equal; lia|].
  cbn [digits]. case_if.
  { cbn [parseLen_loop]. replace ((48 + n <? 48) || (57 <? 48 + n)) with false by lia.
    rewrite (wrap64_id (0 * 10)) by lia. rewrite wrap64_id by lia. f_equal. lia. }
  rewrite Nat2Z.inj_succ, Z.pow_succ_r in Hn by lia.
  pose proof (Z.div_mod n 10 ltac:(lia)). pose proof (Z.mod_pos_bound n 10 ltac:(lia)).
  rewrite parseLen_loop_app, IH by lia. cbn [parseLen_loop].
  replace ((48 + n mod 10 <? 48) || (57 <? 48 + n mod 10)) with false by lia.
  rewrite (wrap64_id (n / 10 * 10)) by lia. rewrite wrap64_id by lia. f_equal. lia.
Qed.

Lemma digits_range fuel n : 0 <= n -> Forall (fun b => 48 <= b <= 57) (digits fuel n).
Proof.
  revert n. induction fuel as [|fuel IH]; intros n Hn; simpl; [done|].
  case_if; [repeat constructor; lia|]. pose proof (Z.mod_pos_bound n 10 ltac:(lia)).
  apply Forall_app. split; [apply IH, Z.div_pos; lia|]. repeat constructor; lia.
Qed.

Lemma digits_nonempty fuel n : (0 < fuel)%nat -> digits fuel n <> [].
Proof.
  destruct fuel as [|fuel]; [lia|]. simpl. case_if; [done|].
  intros _ H. by apply app_eq_nil in H as [_ ?].
Qed.

Lemma Itoa_range n : 0 <= n -> Forall (fun b => 48 <= b <= 57) (Itoa n).
Proof. intros. unfold Itoa. case_if. by apply digits_range. Qed.

Lemma Itoa_len n : 0 <= n -> 0 < len (Itoa n).
Proof.
  intros. unfold Itoa. case_if. destruct (digits 20 n) eqn:E.
  - by apply digits_nonempty in E; [|lia].
  - rewrite len_cons. pose proof (len_nonneg l). lia.
Qed.

(** Printed lengths parse back. *)
Lemma parseLen_Itoa n : 0 <= n < 2 ^ 63 -> parseLen (Itoa n) = (n, None).
Proof.
  intros Hn. unfold parseLen. pose proof (Itoa_len n ltac:(lia)).
  replace (len (Itoa n) <? 1) with false by lia.
  rewrite bool_decide_eq_false_2.
  - unfold Itoa. replace (n <? 0) with false by lia. apply digits_parse; [|lia].
    split; [lia|]. eapply Z.lt_trans; [apply Hn|done].
  - intros E. pose proof (Itoa_range n ltac:(lia)) as Hr. rewrite E in Hr.
    apply Forall_cons in Hr as [Hr _]. lia.
Qed.

(** The value of a string of decimal digits. *)
Definition decimal (p : bytes) : Z := fold_left (fun n b => n * 10 + (b - 48)) p 0.

Definition is_digit (b : Z) : bool := (48 <=? b) && (b <=? 57).

Lemma wrap64_add_l a b : wrap64 (wrap64 a + b) = wrap64 (a + b).
Proof.
  unfold wrap64. f_equal.
  replace ((a + 2 ^ 63) mod 2 ^ 64 - 2 ^ 63 + b + 2 ^ 63) with ((a + 2 ^ 63) mod 2 ^ 64 + b) by lia.
  rewrite Z.add_mod_idemp_l by lia. f_equal. lia.
Qed.

Lemma wrap64_mul_l a b : wrap64 (wrap64 a * b) = wrap64 (a * b).
Proof.
  unfold wrap64. f_equal.
  replace (((a + 2 ^ 63) mod 2 ^ 64 - 2 ^ 63) * b + 2 ^ 63)
    with (((a + 2 ^ 63) mod 2 ^ 64) * b + (2 ^ 63 - 2 ^ 63 * b)) by lia.
  rewrite <- Z.add_mod_idemp_l by lia. rewrite Z.mul_mod_idemp_l by lia.
  rewrite Z.add_mod_idemp_l by lia. f_equal. lia.
Qed.

Lemma parseLen_loop_digits p n m :
  forallb is_digit p = true -> m = wrap64 n ->
  parseLen_loop p m = (wrap64 (fold_left (fun n b => n * 10 + (b - 48)) p n), None).
Proof.
  revert n m. induction p as [|b p IH]; intros n m Hp ->; simpl in *; [done|].
  apply andb_true_iff in Hp as [Hb Hp]. unfold is_digit in Hb.
  replace ((b <? 48) || (57 <? b)) with false by lia. apply IH; [done|].
  by rewrite wrap64_mul_l, wrap64_add_l.
Qed.

Lemma parseLen_loop_bad p n :
  forallb is_digit p = false -> parseLen_loop p n = (-1, Some (ECodec ErrInvalidResp)).
Proof.
  revert n. induction p as [|b p IH]; intros n Hp; simpl in *; [done|].
  unfold is_digit in Hp at 1. case_if; [done|]. apply IH.
  apply andb_false_iff in Hp as [Hp|Hp]; [lia|done].
Qed.

(** [parseLen] accepts exactly [-1] and the non-empty strings of digits; a
    digit string yields its decimal value when that fits 64 bits and the
    wrapped value otherwise, without an error. *)
Theorem parseLen_spec (p : bytes) :
  parseLen p =
  if bool_decide (p = []) then (-1, Some (EText (str "malformed length")))
  else if bool_decide (p = str "-1") then (-1, None)
  else if forallb is_digit p then (wrap64 (decimal p), None)
  else (-1, Some (ECodec ErrInvalidResp)).
Proof.
  unfold parseLen. destruct p as [|b p]; [done|].
  rewrite len_cons. pose proof (len_nonneg p). replace (_ <? 1) with false by lia.
  rewrite (bool_decide_eq_false_2 (b :: p = [])) by done. change (str "-1") with [45; 49].
  destruct (bool_decide (b :: p = [45; 49])); [done|].
  destruct (forallb is_digit (b :: p)) eqn:E.
  - by apply parseLen_loop_digits.
  - by apply parseLen_loop_bad.
Qed.

(** A length that does not fit 64 bits is read as a small one. *)
Example parseLen_overflow : parseLen (str "18446744073709551618") = (2, None).
Proof. vm_compute. reflexivity. Qed.

(** ** The cursor on a known input

    [at_ pre rest] has read [pre] and has [rest] before it. *)

Definition at_ (pre rest : bytes) : Buffer := mkBuf (pre ++ rest) (len pre).

Lemma at_shift pre d rest : at_ pre (d ++ rest) = mkBuf ((pre ++ d) ++ rest) (len pre).
Proof. unfold at_. by rewrite app_assoc. Qed.

Lemma NewBuffer_at bs : NewBuffer bs = at_ [] bs.
Proof. reflexivity. Qed.

Lemma leftSize_at pre rest : leftSize (at_ pre rest) = len rest.
Proof. unfold leftSize, at_. simpl. rewrite len_app. lia. Qed.

Lemma leftBuf_at pre rest : leftBuf (at_ pre rest) = Ok rest.
Proof.
  unfold leftBuf, at_. simpl. pose proof (len_nonneg pre). pose proof (len_nonneg rest).
  rewrite slice_Ok by (rewrite ?len_app; lia). by rewrite subl_tail.
Qed.

Lemma ReadBuf_at pre rest : ReadBuf (at_ pre rest) = Ok pre.
Proof.
  unfold ReadBuf, at_. simpl. pose proof (len_nonneg pre). pose proof (len_nonneg rest).
  rewrite slice_Ok by (rewrite ?len_app; lia). by rewrite subl_head.
Qed.

Lemma ReadN_at pre d rest :
  d ++ rest <> [] -> ReadN (at_ pre (d ++ rest)) (len d) = Ok (inl d, at_ (pre ++ d) rest).
Proof.
  intros Hne. unfold ReadN. rewrite leftSize_at.
  pose proof (len_nonneg pre). pose proof (len_nonneg d). pose proof (len_nonneg rest).
  assert (0 < len (d ++ rest)).
  { destruct (d ++ rest) eqn:E; [done|]. rewrite len_cons. pose proof (len_nonneg l). lia. }
  rewrite len_app in *. repeat case_if. unfold at_. cbn [buf r].
  rewrite slice_Ok by (rewrite ?len_app; lia). rewrite res_bind_Ok, app_assoc, len_app.
  rewrite subl_app_l by (rewrite ?len_app; lia). rewrite subl_app_r by lia.
  replace (len pre - len pre) with 0 by lia. replace (len pre + len d - len pre) with (len d) by lia.
  by rewrite subl_full.
Qed.

(** Reading across the end: the cursor stays and the error asks for more. *)
Definition incomplete (e : error) : Prop :=
  e = ECodec EmptyLine \/ e = ECodec ShortLine \/ e = ECodec ErrLFNotFound.

Lemma ReadN_short pre rest n :
  len rest < n -> 0 < n -> exists e, incomplete e /\ ReadN (at_ pre rest) n = Ok (inr e, at_ pre rest).
Proof.
  intros Hl Hn. unfold ReadN. rewrite leftSize_at. unfold incomplete.
  repeat case_if; eexists; (split; [|reflexivity]); auto.
Qed.

Lemma IndexByte_app s c t : c ∉ s -> IndexByte (s ++ c :: t) c = len s.
Proof.
  induction s as [|x s IH]; intros Hn; simpl.
  { by rewrite Z.eqb_refl. }
  apply not_elem_of_cons in Hn as [Hx Hn]. rewrite (proj2 (Z.eqb_neq x c)) by done.
  rewrite IH by done. pose proof (len_nonneg s). replace (len s =? -1) with false by lia.
  rewrite len_cons. lia.
Qed.

Lemma IndexByte_none s c : c ∉ s -> IndexByte s c = -1.
Proof.
  induction s as [|x s IH]; intros Hn; simpl; [done|].
  apply not_elem_of_cons in Hn as [Hx Hn]. rewrite (proj2 (Z.eqb_neq x c)) by done.
  by rewrite IH.
Qed.

(** A line: at least one byte and no line feed. *)
Definition is_line (l : bytes) : Prop := l <> [] /\ 10 ∉ l.

Lemma ReadLine_at pre line rest :
  is_line line ->
  ReadLine (at_ pre (line ++ crlf ++ rest)) = Ok (inl line, at_ (pre ++ line ++ crlf) rest).
Proof.
  intros [Hne Hlf]. unfold ReadLine. rewrite leftSize_at.
  assert (0 < len line) as Hl.
  { destruct line; [done|]. rewrite len_cons. pose proof (len_nonneg line). lia. }
  pose proof (len_nonneg rest). rewrite !len_app. change (len crlf) with 2.
  replace (_ <? 1) with false by lia. rewrite leftBuf_at, res_bind_Ok.
  assert (IndexByte (line ++ crlf ++ rest) 10 = len line + 1) as ->.
  { change (crlf ++ rest) with ([13] ++ 10 :: rest). rewrite app_assoc, IndexByte_app.
    - by rewrite len_app.
    - rewrite elem_of_app, elem_of_cons, elem_of_nil. naive_solver lia. }
  replace (len line + 1 =? -1) with false by lia.
  replace (line ++ crlf ++ rest) with ((line ++ crlf) ++ rest) by (by rewrite <- app_assoc).
  replace (len line + 1 + 1) with (len (line ++ crlf)) by (rewrite len_app; change (len crlf) with 2; lia).
  rewrite ReadN_at by (destruct line; done). rewrite res_bind_Ok.
  replace (len line + 1 <? 2) with false by lia.
  rewrite (index_Ok _ _ 13); [|lia|].
  2:{ replace (Z.to_nat (len line + 1 - 1)) with (length line) by (unfold len; lia).
      unfold crlf. by apply list_lookup_middle. }
  rewrite res_bind_Ok. simpl. rewrite len_app. change (len crlf) with 2.
  rewrite slice_Ok by (rewrite ?len_app; change (len crlf) with 2; lia). rewrite res_bind_Ok.
  replace (len line + 2 - 2) with (len line) by lia. by rewrite subl_head.
Qed.

Lemma ReadLine_short pre rest :
  10 ∉ rest -> exists e, incomplete e /\ ReadLine (at_ pre rest) = Ok (inr e, at_ pre rest).
Proof.
  intros Hlf. unfold ReadLine. rewrite leftSize_at. unfold incomplete. case_if.
  { eexists. split; [|reflexivity]. auto. }
  rewrite leftBuf_at, res_bind_Ok, IndexByte_none by done. eexists. split; [|reflexivity]. auto.
Qed.

(** ** Encodings *)

(** A bulk string. *)
Definition bulk (k : bytes) : bytes := 36 :: Itoa (len k) ++ crlf ++ k ++ crlf.

Lemma Itoa_no_lf n : 0 <= n -> 10 ∉ Itoa n.
Proof.
  intros Hn H. pose proof (Itoa_range n Hn) as Hr. rewrite Forall_forall in Hr.
  apply Hr in H. lia.
Qed.

Lemma count_line c n : 0 <= n -> c <> 10 -> is_line (c :: Itoa n).
Proof.
  intros Hn Hc. split; [done|]. rewrite elem_of_cons. pose proof (Itoa_no_lf n Hn). naive_solver.
Qed.

#[export] Hint Resolve count_line : rc.

(** ** The cursor on any input

    Whatever the bytes, reading neither panics nor moves backwards, and keeps
    the buffer. *)

Lemma ReadN_total pre rest n :
  0 <= n -> exists x pre' rest', ReadN (at_ pre rest) n = Ok (x, at_ pre' rest') /\
    pre' ++ rest' = pre ++ rest /\ len rest' <= len rest /\
    (forall d, x = inl d -> len d = n /\ len rest' = len rest - n).
Proof.
  intros Hn. unfold ReadN. rewrite leftSize_at.
  destruct (len rest <? 1) eqn:E1; [eexists _, pre, rest; split; [done|]; split_and!; done || lia|].
  destruct (len rest <? n) eqn:E2; [eexists _, pre, rest; split; [done|]; split_and!; done || lia|].
  cbn [at_ buf r]. pose proof (len_nonneg pre).
  rewrite slice_Ok by (rewrite ?len_app; lia). rewrite res_bind_Ok.
  eexists _, (pre ++ subl rest 0 n), (subl rest n (len rest)).
  assert (subl rest 0 n ++ subl rest n (len rest) = rest) as Hsp by (rewrite subl_split, subl_full by lia; done).
  split; [|split; [by rewrite <- app_assoc, Hsp|split]].
  - unfold at_. rewrite len_app, len_subl by lia. rewrite <- app_assoc, Hsp. do 3 f_equal. lia.
  - rewrite len_subl by lia. lia.
  - intros d [= <-]. rewrite !len_subl by (rewrite ?len_app; lia). lia.
Qed.

Lemma IndexByte_spec s c :
  (IndexByte s c = -1 /\ (c ∉ s)) \/ exists l t, s = l ++ c :: t /\ c ∉ l /\ IndexByte s c = len l.
Proof.
  destruct (decide (c ∈ s)) as [Hin|Hn]; [|left; split; [by apply IndexByte_none|done]].
  right. apply list_elem_of_split_l in Hin as (l & t & -> & Hl). exists l, t.
  split_and!; [done|done|by apply IndexByte_app].
Qed.

Lemma ReadLine_total pre rest :
  exists x pre' rest', ReadLine (at_ pre rest) = Ok (x, at_ pre' rest') /\
    pre' ++ rest' = pre ++ rest /\ len rest' <= len rest /\
    (forall line, x = inl line -> line <> [] /\ len rest' < len rest).
Proof.
  unfold ReadLine. rewrite leftSize_at.
  destruct (len rest <? 1) eqn:E1; [eexists _, pre, rest; split; [done|]; split_and!; done || lia|].
  rewrite leftBuf_at, res_bind_Ok.
  destruct (IndexByte_spec rest 10) as [[-> _]|(l & t & -> & Hl & ->)].
  { eexists _, pre, rest. split; [done|]. split_and!; done || lia. }
  pose proof (len_nonneg l). pose proof (len_nonneg t). replace (len l =? -1) with false by lia.
  replace (l ++ 10 :: t) with ((l ++ [10]) ++ t) by (by rewrite <- app_assoc).
  replace (len l + 1) with (len (l ++ [10])) by (rewrite len_app; done).
  rewrite ReadN_at by (by destruct l). rewrite res_bind_Ok.
  assert (len ((l ++ [10]) ++ t) = len l + 1 + len t) as Hlen by (rewrite !len_app; done).
  assert ((pre ++ l ++ [10]) ++ t = pre ++ (l ++ [10]) ++ t) as Happ by (by rewrite <- !app_assoc).
  destruct (len l <? 2) eqn:E2.
  { eexists _, (pre ++ l ++ [10]), t. split; [done|]. split_and!; done || lia. }
  destruct (index_in_range (l ++ [10]) (len l - 1)) as [x ->]; [rewrite len_app; change (len [10]) with 1; lia|].
  rewrite res_bind_Ok. destruct (negb (x =? 13)).
  { eexists _, (pre ++ l ++ [10]), t. split; [done|]. split_and!; done || lia. }
  rewrite slice_Ok by (rewrite len_app; change (len [10]) with 1; lia). rewrite res_bind_Ok.
  eexists _, (pre ++ l ++ [10]), t. split; [done|]. split_and!; [done|lia|].
  intros line [= <-]. split; [|lia]. intros He. apply (f_equal len) in He.
  rewrite len_subl in He by (rewrite len_app; change (len [10]) with 1; lia).
  rewrite len_app in He. change (len [10]) with 1 in He. change (len []) with 0 in He. lia.
Qed.
