(* ===== verification/Message.v ===== *)
(** * Messages, fragments and their queues

    [core/message.go]: a client request ([Msg]) and the fragments ([Frag]) it is
    split into, which refer to each other; the recycling pools; the intrusive
    doubly linked queues of the connections; the timeout queue; and the parsing of
    redirections.  Messages and fragments live in heaps, since queues, owners and
    peers share them. *)

From S2P Require Import Prelude Errors Commands Codec.

Abbreviation mid := positive.   (* a [*Msg] *)
Abbreviation fid := positive.   (* a [*Frag] *)
Abbreviation cid := positive.   (* a connection *)

Record Msg := mkMsg {
  m_prev : option mid;
  m_next : option mid;
  m_Owner : option cid;
  m_Id : Z;
  m_Body : gmap Z fid;
  m_RspBody : bytes;
  m_Error : bytes;
  m_Fd2Slot : option (gmap Z Z);      (* nil until the request is decoded *)
  m_Keys : list bytes;
  m_Frags : gmap Z (list bytes);
  m_Frags2 : gmap Z (list (bytes * bytes));
  m_FragDoneNumber : Z;
  m_DelNum : Z;
  m_Type : Command;
  m_Done : bool;
}.

Record Frag := mkFrag {
  f_prev : option fid;
  f_next : option fid;
  f_Owner : option cid;
  f_Peer : option mid;
  f_Id : Z;
  f_Time : Z;
  f_Timeout : Z;
  f_Key : bytes;
  f_Error : bytes;
  f_Req : bytes;
  f_RspBody : bytes;
  f_Rsp : list bytes;
  f_Type : Command;
  f_Ok : bool;
  f_Done : bool;
}.

(** The zero values, [new(Msg)] and [new(Frag)]. *)
Definition zeroMsg : Msg :=
  mkMsg None None None 0 ∅ [] [] None [] ∅ ∅ 0 0 UNKNOWN false.
Definition zeroFrag : Frag :=
  mkFrag None None None None 0 0 0 [] [] [] [] [] UNKNOWN false false.

(** The heaps, the two counters and the free list of [MsgPool]. *)
Record Store := mkStore {
  msgs : gmap mid Msg;
  frags : gmap fid Frag;
  msgId : Z;
  fragId : Z;
  pool : list mid;
  next_loc : positive;
}.

Definition with_msgs (s : Store) (h : gmap mid Msg) : Store :=
  mkStore h (frags s) (msgId s) (fragId s) (pool s) (next_loc s).
Definition with_frags (s : Store) (h : gmap fid Frag) : Store :=
  mkStore (msgs s) h (msgId s) (fragId s) (pool s) (next_loc s).

Definition get_msg (s : Store) (m : mid) : res Msg :=
  match msgs s !! m with Some x => Ok x | None => Panic end.
Definition get_frag (s : Store) (f : fid) : res Frag :=
  match frags s !! f with Some x => Ok x | None => Panic end.
Definition put_msg (s : Store) (m : mid) (x : Msg) : Store := with_msgs s (<[m := x]> (msgs s)).
Definition put_frag (s : Store) (f : fid) (x : Frag) : Store := with_frags s (<[f := x]> (frags s)).

Lemma get_msg_Ok s m x : msgs s !! m = Some x -> get_msg s m = Ok x.
Proof. intros Hm. unfold get_msg. by rewrite Hm. Qed.
Lemma get_frag_Ok s f x : frags s !! f = Some x -> get_frag s f = Ok x.
Proof. intros Hf. unfold get_frag. by rewrite Hf. Qed.
Lemma get_put_msg s m x : get_msg (put_msg s m x) m = Ok x.
Proof. unfold get_msg, put_msg. simpl. by rewrite lookup_insert_eq. Qed.
Lemma get_put_frag s f x : get_frag (put_frag s f x) f = Ok x.
Proof. unfold get_frag, put_frag. simpl. by rewrite lookup_insert_eq. Qed.

(** States that contain the heaps: the store itself and, later, the state of the
    event loop. *)
Class HasStore (S : Type) := {
  store_of : S -> Store;
  set_store : S -> Store -> S;
  store_of_set : forall s h, store_of (set_store s h) = h;
}.
#[export] Instance Store_HasStore : HasStore Store := {|
  store_of s := s;
  set_store _ h := h;
  store_of_set _ _ := eq_refl;
|}.

(** [p.Pool.Get()]: any pooled message, or a new one. *)
Definition msgPool_Get (s : Store) (choice : option nat) : mid * Store :=
  match (i ← choice; pool s !! i) with
  | Some m =>
      (m, mkStore (msgs s) (frags s) (msgId s) (fragId s)
            (delete (default 0%nat choice) (pool s)) (next_loc s))
  | None =>
      (next_loc s,
       mkStore (<[next_loc s := zeroMsg]> (msgs s)) (frags s) (msgId s) (fragId s) (pool s)
         (Pos.succ (next_loc s)))
  end.

(** [(p *msgPool) Put]: field by field, as the code clears them. *)
Definition clear_msg (m : Msg) : Msg :=
  mkMsg None None None 0 ∅ (subl (m_RspBody m) 0 0) [] None (subl (m_Keys m) 0 0) ∅ ∅ 0 0 UNKNOWN false.

Definition msgPool_Put (s : Store) (m : option mid) : res Store :=
  match m with
  | None => Ok s
  | Some m =>
      x ← get_msg s m;
      Ok (mkStore (<[m := clear_msg x]> (msgs s)) (frags s) (msgId s) (fragId s)
            (m :: pool s) (next_loc s))
  end.

(** [(p *fragPool) Get] at time [now]. *)
Definition fragPool_Get (s : Store) (now : Z) : fid * Store :=
  let id := uwrap64 (fragId s + 1) in
  (next_loc s,
   mkStore (msgs s)
     (<[next_loc s := mkFrag None None None None id now 0 [] [] [] [] [] UNKNOWN false false]>
        (frags s))
     (msgId s) id (pool s) (Pos.succ (next_loc s))).

(** Accessors that tolerate a missing peer or owner. *)
Definition Frag_MsgId (s : Store) (f : Frag) : res Z :=
  match f_Peer f with None => Ok 0 | Some m => x ← get_msg s m; Ok (m_Id x) end.
Definition Frag_MsgType (s : Store) (f : Frag) : res Command :=
  match f_Peer f with None => Ok UNKNOWN | Some m => x ← get_msg s m; Ok (m_Type x) end.
Definition Frag_OwnerFd (fd : cid -> Z) (f : Frag) : Z :=
  match f_Owner f with None => -1 | Some c => fd c end.

(** The log forms: carriage returns dropped, line feeds as spaces. *)
Definition log_bytes (l : bytes) : bytes :=
  concat (map (fun b => if b =? 13 then [] else if b =? 10 then [32] else [b]) l).
Definition Frag_ReqString (f : option Frag) : bytes :=
  match f with
  | None => []
  | Some f => if len (f_Req f) <? 1 then [] else [91; 32] ++ log_bytes (f_Req f) ++ [93]
  end.
Definition Frag_RspBodyString (f : option Frag) : bytes :=
  match f with
  | None => []
  | Some f => if len (f_RspBody f) <? 1 then [] else [91; 32] ++ log_bytes (f_RspBody f) ++ [93]
  end.
Definition Msg_RspBodyString (m : option Msg) : bytes :=
  match m with
  | None => []
  | Some m => if len (m_RspBody m) <? 1 then [] else [91; 32] ++ log_bytes (m_RspBody m) ++ [93]
  end.

(** ** Redirections *)

(** [strings.Split] with a one-byte separator. *)
Fixpoint Split (s : bytes) (c : Z) : list bytes :=
  match s with
  | [] => [[]]
  | b :: s =>
      if b =? c then [] :: Split s c
      else match Split s c with [] => [[b]] | w :: ws => (b :: w) :: ws end
  end.

(** [lower] of package strconv. *)
Definition lower (c : Z) : Z := Z.lor c 32.

(** [underscoreOK]: base prefixes and digits separated by single underscores. *)
Fixpoint underscore_loop (s : bytes) (last : Z) (hex : bool) : bool :=
  match s with
  | [] => negb (last =? 95)
  | c :: s =>
      if ((48 <=? c) && (c <=? 57)) || (hex && (97 <=? lower c) && (lower c <=? 102)) then
        underscore_loop s 48 hex
      else if c =? 95 then if negb (last =? 48) then false else underscore_loop s 95 hex
      else if last =? 95 then false
      else underscore_loop s 33 hex
  end.
Definition underscoreOK (s : bytes) : bool :=
  let s := match s with c :: t => if (c =? 45) || (c =? 43) then t else s | [] => s end in
  match s with
  | 48 :: p :: t =>
      if (lower p =? 98) || (lower p =? 111) || (lower p =? 120)
      then underscore_loop t 48 (lower p =? 120)
      else underscore_loop s 94 false
  | _ => underscore_loop s 94 false
  end.

(** The digit loop of [strconv.ParseUint] for 64 bits. *)
Fixpoint ParseUint_loop (s : bytes) (base n : Z) (und : bool) : (Z * bool) + (Z * error) :=
  match s with
  | [] => inl (n, und)
  | c :: s =>
      if c =? 95 then ParseUint_loop s base n true
      else
        let d := if (48 <=? c) && (c <=? 57) then Some (c - 48)
                 else if (97 <=? lower c) && (lower c <=? 122) then Some (lower c - 97 + 10)
                 else None in
        match d with
        | None => inr (0, EIo ErrSyntax)
        | Some d =>
            if base <=? d then inr (0, EIo ErrSyntax)
            else if (2 ^ 64 - 1) / base + 1 <=? n then inr (2 ^ 64 - 1, EIo ErrRange)
            else if 2 ^ 64 - 1 <? n * base + d then inr (2 ^ 64 - 1, EIo ErrRange)
            else ParseUint_loop s base (n * base + d) und
        end
  end.

(** [strconv.ParseUint(s, 0, 64)]: the base comes from the prefix. *)
Definition ParseUint (s : bytes) : Z * option error :=
  match s with
  | [] => (0, Some (EIo ErrSyntax))
  | c :: t =>
      let '(base, digits) :=
        if c =? 48 then
          match t with
          | p :: _ :: _ =>
              if lower p =? 98 then (2, drop 1 t)
              else if lower p =? 111 then (8, drop 1 t)
              else if lower p =? 120 then (16, drop 1 t)
              else (8, t)
          | _ => (8, t)
          end
        else (10, s) in
      match ParseUint_loop digits base 0 false with
      | inr (v, e) => (v, Some e)
      | inl (n, und) =>
          if und && negb (underscoreOK s) then (0, Some (EIo ErrSyntax)) else (n, None)
      end
  end.

(** [parseMovedOrAsk]: the address and the slot of a redirection. *)
Definition parseMovedOrAsk (f : Frag) : res (bytes * Z) :=
  if len (f_RspBody f) <? 10 then Ok ([], 0)
  else
    match (match f_Type f with RspMoved => Some 7 | RspAsk => Some 5 | _ => None end) with
    | None => Ok ([], 0)
    | Some i =>
        body ← slice (f_RspBody f) i (len (f_RspBody f) - 2);
        match Split body 32 with
        | l0 :: l1 :: _ => Ok (l1, wrap32 (ParseUint l0).1)
        | _ => Ok ([], 0)
        end
    end.

(** ** Intrusive queues

    [MsgQueue] and [FragQueue] are the same doubly linked list over the [prev]
    and [next] fields of their elements; the class names those fields. *)

Class Linked (T : Type) := {
  get_prev : T -> option positive;
  get_next : T -> option positive;
  set_prev : option positive -> T -> T;
  set_next : option positive -> T -> T;
  get_prev_set_prev : forall p t, get_prev (set_prev p t) = p;
  get_next_set_next : forall p t, get_next (set_next p t) = p;
  get_prev_set_next : forall p t, get_prev (set_next p t) = get_prev t;
  get_next_set_prev : forall p t, get_next (set_prev p t) = get_next t;
}.

#[export] Program Instance Msg_linked : Linked Msg := {|
  get_prev := m_prev;
  get_next := m_next;
  set_prev p m := mkMsg p (m_next m) (m_Owner m) (m_Id m) (m_Body m) (m_RspBody m) (m_Error m)
    (m_Fd2Slot m) (m_Keys m) (m_Frags m) (m_Frags2 m) (m_FragDoneNumber m) (m_DelNum m)
    (m_Type m) (m_Done m);
  set_next p m := mkMsg (m_prev m) p (m_Owner m) (m_Id m) (m_Body m) (m_RspBody m) (m_Error m)
    (m_Fd2Slot m) (m_Keys m) (m_Frags m) (m_Frags2 m) (m_FragDoneNumber m) (m_DelNum m)
    (m_Type m) (m_Done m);
|}.
Solve All Obligations with done.

#[export] Program Instance Frag_linked : Linked Frag := {|
  get_prev := f_prev;
  get_next := f_next;
  set_prev p f := mkFrag p (f_next f) (f_Owner f) (f_Peer f) (f_Id f) (f_Time f) (f_Timeout f)
    (f_Key f) (f_Error f) (f_Req f) (f_RspBody f) (f_Rsp f) (f_Type f) (f_Ok f) (f_Done f);
  set_next p f := mkFrag (f_prev f) p (f_Owner f) (f_Peer f) (f_Id f) (f_Time f) (f_Timeout f)
    (f_Key f) (f_Error f) (f_Req f) (f_RspBody f) (f_Rsp f) (f_Type f) (f_Ok f) (f_Done f);
|}.
Solve All Obligations with done.

(** The queue header: [tail, head *T] and [count]. *)
Record Queue := mkQueue { q_tail : option positive; q_head : option positive; q_count : Z }.

Definition emptyQueue : Queue := mkQueue None None 0.

Definition Queue_Empty (l : Queue) : bool := q_count l <? 1.

Section queue.
Context {T : Type} `{Linked T}.
Implicit Types h : gmap positive T.

Definition modify (h : gmap positive T) (l : positive) (f : T -> T) : res (gmap positive T) :=
  match h !! l with Some x => Ok (<[l := f x]> h) | None => Panic end.

(** Dereference a pointer that must not be nil. *)
Definition deref (p : option positive) : res positive :=
  match p with Some l => Ok l | None => Panic end.

Definition PushTail (l : Queue) (h : gmap positive T) (m : positive)
    : res (Queue * gmap positive T) :=
  h ← modify h m (set_next (q_tail l));
  h ← modify h m (set_prev None);
  '(hd, h) ← (if q_count l =? 0 then Ok (Some m, h)
              else
                t ← deref (q_tail l);
                h ← modify h t (set_prev (Some m));
                Ok (q_head l, h));
  Ok (mkQueue (Some m) hd (q_count l + 1), h).

Definition PopHead (l : Queue) (h : gmap positive T) : res (Queue * gmap positive T) :=
  if q_count l =? 0 then Ok (l, h)
  else
    let count := q_count l - 1 in
    m ← deref (q_head l);
    '(l, h) ← (if count =? 0 then Ok (mkQueue None None count, h)
               else
                 match h !! m with
                 | None => Panic
                 | Some x =>
                     p ← deref (get_prev x);
                     h ← modify h p (set_next None);
                     Ok (mkQueue (q_tail l) (Some p) count, h)
                 end);
    h ← modify h m (fun x => set_prev None (set_next None x));
    Ok (l, h).

Definition PopTail (l : Queue) (h : gmap positive T) : res (Queue * gmap positive T) :=
  if q_count l =? 0 then Ok (l, h)
  else
    let count := q_count l - 1 in
    m ← deref (q_tail l);
    '(l, h) ← (if count =? 0 then Ok (mkQueue None None count, h)
               else
                 match h !! m with
                 | None => Panic
                 | Some x =>
                     p ← deref (get_next x);
                     h ← modify h p (set_prev None);
                     Ok (mkQueue (Some p) (q_head l) count, h)
                 end);
    h ← modify h m (fun x => set_prev None (set_next None x));
    Ok (l, h).

(** The walk of [AllDone] along [prev], with a test of each element. *)
Fixpoint all_from (fuel : nat) (ok : T -> bool) (h : gmap positive T) (cur : option positive)
    : res bool :=
  match fuel, cur with
  | _, None => Ok true
  | O, _ => OutOfFuel
  | S fuel, Some m =>
      match h !! m with
      | None => Panic
      | Some x => if negb (ok x) then Ok false else all_from fuel ok h (get_prev x)
      end
  end.

(** ** The list a queue stands for *)

(** The elements [ls], oldest first, are linked by [prev] from the head to the
    tail and by [next] back; [nx] is the older neighbour of the first. *)
Fixpoint chain (h : gmap positive T) (nx : option positive) (p : option positive)
    (ls : list positive) : Prop :=
  match ls with
  | [] => p = None
  | m :: ls =>
      p = Some m /\ exists x, h !! m = Some x /\ get_next x = nx /\ chain h (Some m) (get_prev x) ls
  end.

Record queue_repr (l : Queue) (h : gmap positive T) (ls : list positive) : Prop := {
  qr_chain : chain h None (q_head l) ls;
  qr_nodup : NoDup ls;
  qr_tail : q_tail l = last ls;
  qr_count : q_count l = len ls;
}.

Lemma chain_frame h nx p ls m x : m ∉ ls -> chain h nx p ls -> chain (<[m := x]> h) nx p ls.
Proof.
  revert nx p. induction ls as [|y ls IH]; intros nx p Hm; simpl; [done|].
  apply not_elem_of_cons in Hm as [Hne Hm]. intros (-> & z & Hz & Hn & Hc).
  split; [done|]. exists z. rewrite lookup_insert_ne by done. eauto.
Qed.

Lemma chain_lookup h nx p ls m : chain h nx p ls -> m ∈ ls -> exists x, h !! m = Some x.
Proof.
  revert nx p. induction ls as [|y ls IH]; intros nx p; simpl; [intros _ []%elem_of_nil|].
  intros (-> & z & Hz & _ & Hc) [->|Hm]%elem_of_cons; eauto.
Qed.

Lemma queue_repr_frame l h ls m x : m ∉ ls -> queue_repr l h ls -> queue_repr l (<[m := x]> h) ls.
Proof. intros Hm [? ? ? ?]. split; [by apply chain_frame|done..]. Qed.

(** The links determine the list. *)
Lemma chain_unique h nx p l1 l2 : chain h nx p l1 -> chain h nx p l2 -> l1 = l2.
Proof.
  revert nx p l2. induction l1 as [|m l1 IH]; intros nx p [|m' l2]; simpl; [done|by intros -> (? & _)|by intros (-> & _) ?|].
  intros (-> & x & Hx & _ & Hc1) ([= <-] & y & Hy & _ & Hc2). simplify_eq. f_equal. by eapply IH.
Qed.

(** A queue only looks at the links of its elements. *)
Definition links (x : T) : option positive * option positive := (get_prev x, get_next x).

Lemma chain_links h h' nx p ls :
  (forall k, k ∈ ls -> links <$> h' !! k = links <$> h !! k) -> chain h nx p ls -> chain h' nx p ls.
Proof.
  revert nx p. induction ls as [|m ls IH]; intros nx p Hl; simpl; [done|]. intros (-> & x & Hx & Hn & Hc).
  split; [done|]. specialize (Hl m ltac:(left)) as Hm. rewrite Hx in Hm.
  destruct (h' !! m) as [y|]; [|done]. simpl in Hm. unfold links in Hm. injection Hm as Hmp Hmn.
  exists y. split; [done|]. rewrite Hmn, Hmp. split; [done|]. apply IH; [|done]. intros k Hk. apply Hl. by right.
Qed.

Lemma queue_repr_links l h h' ls :
  (forall k, k ∈ ls -> links <$> h' !! k = links <$> h !! k) -> queue_repr l h ls -> queue_repr l h' ls.
Proof. intros Hl [Hc ? ? ?]. split; [by eapply chain_links|done..]. Qed.

(** Linking [m] after the last element. *)
Lemma chain_snoc h nx p ls t xt m x :
  chain h nx p (ls ++ [t]) -> NoDup (ls ++ [t]) -> m ∉ (ls ++ [t]) -> h !! t = Some xt ->
  h !! m = Some x -> get_next x = Some t -> get_prev x = None ->
  chain (<[t := set_prev (Some m) xt]> h) nx p (ls ++ [t; m]).
Proof.
  revert nx p. induction ls as [|y ls IH]; intros nx p; simpl.
  - intros (-> & z & Hz & Hn & Hp) _ Hm Ht Hx Hxn Hxp. simplify_eq.
    apply not_elem_of_cons in Hm as [Hne _].
    split; [done|]. eexists. rewrite lookup_insert_eq. split; [done|].
    rewrite get_next_set_prev, get_prev_set_prev. split; [done|]. split; [done|].
    exists x. rewrite lookup_insert_ne by done. done.
  - intros (-> & z & Hz & Hn & Hc) Hnd Hm Ht Hx Hxn Hxp. apply NoDup_cons in Hnd as [Hy Hnd].
    apply not_elem_of_cons in Hm as [Hne Hm]. split; [done|]. exists z.
    rewrite lookup_insert_ne by (intros ->; apply Hy; set_solver). eauto 10.
Qed.

Lemma PushTail_spec l h ls m x :
  queue_repr l h ls -> h !! m = Some x -> m ∉ ls ->
  exists l' h', PushTail l h m = Ok (l', h') /\ queue_repr l' h' (ls ++ [m]) /\
    (forall k, k <> m -> k ∉ ls -> h' !! k = h !! k).
Proof.
  intros [Hc Hnd Ht Hn] Hx Hm. unfold PushTail, modify. rewrite Hx, res_bind_Ok.
  rewrite lookup_insert_eq, res_bind_Ok, insert_insert_eq.
  set (x' := set_prev None (set_next (q_tail l) x)). set (h1 := <[m := x']> h).
  assert (h1 !! m = Some x') as Hx' by apply lookup_insert_eq.
  assert (get_next x' = q_tail l) as Hnx by (subst x'; by rewrite get_next_set_prev, get_next_set_next).
  assert (get_prev x' = None) as Hpx by (subst x'; by rewrite get_prev_set_prev).
  destruct ls as [|t ls _] using rev_ind.
  - rewrite Hn. simpl. eexists _, _. split; [done|]. split.
    + split; simpl; [|by apply NoDup_singleton|done|done].
      split; [done|]. exists x'. by rewrite Hnx, Ht.
    + intros k Hk _. by apply lookup_insert_ne.
  - rewrite last_snoc in Ht. rewrite Hn, len_app. pose proof (len_nonneg ls).
    change (len [t]) with 1. replace (len ls + 1 =? 0) with false by lia.
    rewrite Ht. simpl.
    assert (chain h1 None (q_head l) (ls ++ [t])) as Hc1 by (by apply chain_frame).
    destruct (chain_lookup _ _ _ _ t Hc1) as [xt Hxt]; [set_solver|]. rewrite Hxt. simpl.
    eexists _, _. split; [done|]. split.
    + rewrite <- app_assoc. split; simpl.
      * by eapply chain_snoc; [..|rewrite Hnx, Ht|].
      * apply NoDup_app. apply NoDup_app in Hnd as (? & ? & ?).
        split_and!; [done|set_solver|]. apply NoDup_cons. split; [set_solver|apply NoDup_singleton].
      * by rewrite last_app.
      * rewrite len_app. change (len [t; m]) with 2. lia.
    + intros k Hk Hk'. rewrite lookup_insert_ne by set_solver. by apply lookup_insert_ne.
Qed.

(** The front element leaves; its neighbour becomes the head. *)
Lemma PopHead_spec l h m ls :
  queue_repr l h (m :: ls) ->
  exists l' h', PopHead l h = Ok (l', h') /\ queue_repr l' h' ls /\
    (exists x, h' !! m = Some x /\ get_prev x = None /\ get_next x = None) /\
    (forall k, k <> m -> k ∉ ls -> h' !! k = h !! k).
Proof.
  intros [Hc Hnd Ht Hn]. unfold PopHead, modify. rewrite Hn, len_cons. pose proof (len_nonneg ls).
  replace (1 + len ls =? 0) with false by lia. simpl in Hc. destruct Hc as (Hh & x & Hx & Hxn & Hc).
  rewrite Hh. cbn [deref]. rewrite res_bind_Ok. apply NoDup_cons in Hnd as [Hm Hnd].
  replace (1 + len ls - 1) with (len ls) by lia. destruct ls as [|y ls].
  - rewrite Z.eqb_refl, res_bind_Ok, Hx, res_bind_Ok. eexists _, _. split; [done|]. split; [|split].
    + split; simpl; done || constructor.
    + eexists. rewrite lookup_insert_eq. split; [done|].
      by rewrite get_prev_set_prev, get_next_set_prev, get_next_set_next.
    + intros k Hk _. by apply lookup_insert_ne.
  - replace (len (y :: ls) =? 0) with false by (rewrite len_cons; pose proof (len_nonneg ls); lia).
    simpl in Hc. destruct Hc as (Hp & z & Hz & Hzn & Hc). rewrite Hx, Hp. cbn [deref].
    rewrite res_bind_Ok, Hz, !res_bind_Ok. apply not_elem_of_cons in Hm as [Hne Hm].
    rewrite lookup_insert_ne, Hx, res_bind_Ok by done. eexists _, _. split; [done|]. split; [|split].
    + apply NoDup_cons in Hnd as [Hy Hnd]. split; simpl.
      * split; [done|]. eexists. rewrite lookup_insert_ne, lookup_insert_eq by done.
        split; [done|]. rewrite get_next_set_next, get_prev_set_next. split; [done|].
        by apply chain_frame, chain_frame.
      * by apply NoDup_cons.
      * by rewrite Ht.
      * done.
    + eexists. rewrite lookup_insert_eq. split; [done|].
      by rewrite get_prev_set_prev, get_next_set_prev, get_next_set_next.
    + intros k Hk Hk'. rewrite !lookup_insert_ne by set_solver. done.
Qed.

Lemma PopHead_nil l h : queue_repr l h [] -> PopHead l h = Ok (l, h).
Proof. intros [_ _ _ Hn]. unfold PopHead. by rewrite Hn. Qed.

Lemma chain_unsnoc h nx p ls t m :
  chain h nx p (ls ++ [t; m]) -> NoDup (ls ++ [t; m]) ->
  exists xt xm, h !! t = Some xt /\ h !! m = Some xm /\ get_next xm = Some t /\
    chain (<[t := set_prev None xt]> h) nx p (ls ++ [t]).
Proof.
  revert nx p. induction ls as [|y ls IH]; intros nx p; simpl.
  - intros (-> & xt & Ht & Htn & Htp & xm & Hm & Hmn & Hp) Hnd. exists xt, xm.
    split_and!; try done. eexists. split; [apply lookup_insert_eq|].
    by rewrite get_next_set_prev, get_prev_set_prev.
  - intros (-> & z & Hz & Hzn & Hc) Hnd. apply NoDup_cons in Hnd as [Hy Hnd].
    destruct (IH _ _ Hc Hnd) as (xt & xm & ? & ? & ? & ?). exists xt, xm. split_and!; try done.
    exists z. rewrite lookup_insert_ne by set_solver. done.
Qed.

Lemma PopTail_spec l h ls m :
  queue_repr l h (ls ++ [m]) ->
  exists l' h', PopTail l h = Ok (l', h') /\ queue_repr l' h' ls /\
    (forall k, k <> m -> k ∉ ls -> h' !! k = h !! k).
Proof.
  intros [Hc Hnd Ht Hn]. unfold PopTail, modify. rewrite Hn, len_app. pose proof (len_nonneg ls).
  change (len [m]) with 1. replace (len ls + 1 =? 0) with false by lia.
  rewrite last_snoc in Ht. rewrite Ht. cbn [deref]. rewrite res_bind_Ok.
  replace (len ls + 1 - 1) with (len ls) by lia.
  apply NoDup_app in Hnd as Hnd'. destruct Hnd' as (Hnd1 & Hdis & _).
  assert (m ∉ ls) as Hm by (intros Hin; apply (Hdis m Hin); set_solver).
  destruct ls as [|t ls _] using rev_ind.
  - simpl in Hc. destruct Hc as (Hh & x & Hx & _). rewrite Z.eqb_refl, res_bind_Ok, Hx, res_bind_Ok.
    eexists _, _. split; [done|]. split; [split; simpl; done || constructor|].
    intros k Hk _. by apply lookup_insert_ne.
  - rewrite <- app_assoc in *. simpl in Hc, Hnd.
    destruct (chain_unsnoc _ _ _ _ _ _ Hc Hnd) as (xt & xm & Hxt & Hxm & Hnx & Hc').
    replace (len (ls ++ [t]) =? 0) with false by (rewrite len_app; pose proof (len_nonneg ls); change (len [t]) with 1; lia).
    rewrite Hxm, Hnx. cbn [deref]. rewrite res_bind_Ok, Hxt, !res_bind_Ok.
    rewrite lookup_insert_ne by set_solver. rewrite Hxm, res_bind_Ok.
    eexists _, _. split; [done|]. split; [split; simpl|].
    + by apply chain_frame.
    + done.
    + by rewrite last_snoc.
    + done.
    + intros k Hk Hk'. rewrite !lookup_insert_ne by set_solver. done.
Qed.

Lemma all_from_spec ok h nx p ls fuel :
  chain h nx p ls -> (length ls <= fuel)%nat ->
  all_from fuel ok h p = Ok (forallb (fun m => match h !! m with Some x => ok x | None => false end) ls).
Proof.
  revert nx p fuel. induction ls as [|m ls IH]; intros nx p fuel; simpl.
  - intros -> _. by destruct fuel.
  - intros (-> & x & Hx & _ & Hc) Hf. destruct fuel as [|fuel]; [lia|]. simpl. rewrite Hx.
    destruct (ok x); simpl; [|done]. apply (IH _ _ _ Hc). lia.
Qed.

Lemma PopTail_nil l h : queue_repr l h [] -> PopTail l h = Ok (l, h).
Proof. intros [_ _ _ Hn]. unfold PopTail. by rewrite Hn. Qed.

Lemma queue_repr_empty h : queue_repr emptyQueue h [].
Proof. split; simpl; done || constructor. Qed.

(** ** Queues as lists *)

Inductive queue_op : Set := QPushTail (m : positive) | QPopHead | QPopTail.

Definition queue_step (l : Queue) (h : gmap positive T) (o : queue_op)
    : res (Queue * gmap positive T) :=
  match o with
  | QPushTail m => PushTail l h m
  | QPopHead => PopHead l h
  | QPopTail => PopTail l h
  end.

Fixpoint queue_run (l : Queue) (h : gmap positive T) (os : list queue_op)
    : res (Queue * gmap positive T) :=
  match os with
  | [] => Ok (l, h)
  | o :: os => '(l, h) ← queue_step l h o; queue_run l h os
  end.

(** The same operations on the list of elements, oldest first. *)
Definition list_step (ls : list positive) (o : queue_op) : list positive :=
  match o with
  | QPushTail m => ls ++ [m]
  | QPopHead => tail ls
  | QPopTail => take (length ls - 1) ls
  end.

(** Only allocated elements that are not in the queue are pushed. *)
Fixpoint ops_ok (D : gset positive) (ls : list positive) (os : list queue_op) : Prop :=
  match os with
  | [] => True
  | o :: os =>
      match o with QPushTail m => m ∈ D /\ m ∉ ls | _ => True end /\ ops_ok D (list_step ls o) os
  end.

Lemma modify_dom h h' m f : modify h m f = Ok h' -> dom h' = dom h.
Proof.
  unfold modify. destruct (h !! m) as [x|] eqn:E; [|done]. intros [= <-].
  rewrite dom_insert_L. apply elem_of_dom_2 in E. set_solver.
Qed.

Lemma queue_step_dom l h o l' h' : queue_step l h o = Ok (l', h') -> dom h' = dom h.
Proof.
  destruct o as [m| |]; simpl; unfold PushTail, PopHead, PopTail; intros Hs.
  - bind_inv Hs. bind_inv Hs. apply modify_dom in Ha, Ha0. bind_inv Hs. destruct a1 as [hd h3].
    simplify_eq. case_if_in Ha1; [simplify_eq; congruence|].
    bind_inv Ha1. bind_inv Ha1. apply modify_dom in Ha3. simplify_eq. congruence.
  - case_if_in Hs; [by simplify_eq|]. bind_inv Hs. bind_inv Hs. destruct a0 as [l2 h2].
    bind_inv Hs. apply modify_dom in Ha1. simplify_eq. rewrite Ha1.
    case_if_in Ha0; [by simplify_eq|]. destruct (h !! a); [|done].
    bind_inv Ha0. bind_inv Ha0. apply modify_dom in Ha3. by simplify_eq.
  - case_if_in Hs; [by simplify_eq|]. bind_inv Hs. bind_inv Hs. destruct a0 as [l2 h2].
    bind_inv Hs. apply modify_dom in Ha1. simplify_eq. rewrite Ha1.
    case_if_in Ha0; [by simplify_eq|]. destruct (h !! a); [|done].
    bind_inv Ha0. bind_inv Ha0. apply modify_dom in Ha3. by simplify_eq.
Qed.

(** The links are all a queue operation changes: any other field [g] of the
    elements keeps its value. *)
Section projection.
Context {A : Type} (g : T -> A).
Context (g_prev : forall p x, g (set_prev p x) = g x) (g_next : forall p x, g (set_next p x) = g x).

Lemma modify_proj h h' m f k :
  (forall x, g (f x) = g x) -> modify h m f = Ok h' -> g <$> h' !! k = g <$> h !! k.
Proof.
  intros Hf. unfold modify. destruct (h !! m) as [x|] eqn:E; [|done]. intros [= <-].
  destruct (decide (k = m)) as [->|Hk]; [|by rewrite lookup_insert_ne].
  rewrite lookup_insert_eq, E. simpl. by rewrite Hf.
Qed.

Lemma queue_step_proj l h o l' h' k : queue_step l h o = Ok (l', h') -> g <$> h' !! k = g <$> h !! k.
Proof.
  assert (forall x, g (set_prev None (set_next None x)) = g x) as Hb
    by (intros x; by rewrite g_prev, g_next).
  destruct o as [m| |]; simpl; unfold PushTail, PopHead, PopTail; intros Hs.
  - bind_inv Hs. bind_inv Hs. apply (modify_proj _ _ _ _ k) in Ha, Ha0; [|done..]. bind_inv Hs.
    destruct a1 as [hd h3]. simplify_eq. case_if_in Ha1; [simplify_eq; congruence|].
    bind_inv Ha1. bind_inv Ha1. apply (modify_proj _ _ _ _ k) in Ha3; [|done]. simplify_eq. congruence.
  - case_if_in Hs; [by simplify_eq|]. bind_inv Hs. bind_inv Hs. destruct a0 as [l2 h2].
    bind_inv Hs. apply (modify_proj _ _ _ _ k) in Ha1; [|done]. simplify_eq. rewrite Ha1.
    case_if_in Ha0; [by simplify_eq|]. destruct (h !! a); [|done].
    bind_inv Ha0. bind_inv Ha0. apply (modify_proj _ _ _ _ k) in Ha3; [|done]. by simplify_eq.
  - case_if_in Hs; [by simplify_eq|]. bind_inv Hs. bind_inv Hs. destruct a0 as [l2 h2].
    bind_inv Hs. apply (modify_proj _ _ _ _ k) in Ha1; [|done]. simplify_eq. rewrite Ha1.
    case_if_in Ha0; [by simplify_eq|]. destruct (h !! a); [|done].
    bind_inv Ha0. bind_inv Ha0. apply (modify_proj _ _ _ _ k) in Ha3; [|done]. by simplify_eq.
Qed.
End projection.

Lemma queue_step_refines l h ls o :
  queue_repr l h ls ->
  match o with QPushTail m => m ∈ dom h /\ m ∉ ls | _ => True end ->
  exists l' h', queue_step l h o = Ok (l', h') /\ queue_repr l' h' (list_step ls o).
Proof.
  intros Hr Ho. destruct o as [m| |]; simpl.
  - destruct Ho as [[x Hx]%elem_of_dom Hm].
    destruct (PushTail_spec l h ls m x Hr Hx Hm) as (l' & h' & -> & ? & _). eauto.
  - destruct ls as [|m ls]; simpl; [rewrite PopHead_nil by done; eauto|].
    destruct (PopHead_spec l h m ls Hr) as (l' & h' & -> & ? & _). eauto.
  - destruct ls as [|m ls _] using rev_ind; [rewrite PopTail_nil by done; eauto|].
    destruct (PopTail_spec l h ls m Hr) as (l' & h' & -> & ? & _).
    rewrite length_app. simpl. replace (length ls + 1 - 1)%nat with (length ls) by lia.
    rewrite take_app_length. eauto.
Qed.

Lemma queue_run_refines os l h ls :
  queue_repr l h ls -> ops_ok (dom h) ls os ->
  exists l' h', queue_run l h os = Ok (l', h') /\ queue_repr l' h' (fold_left list_step os ls).
Proof.
  revert l h ls. induction os as [|o os IH]; intros l h ls Hr Ho; simpl in *; [eauto|].
  destruct Ho as [Ho Hos]. destruct (queue_step_refines l h ls o Hr Ho) as (l' & h' & Hs & Hr').
  pose proof (queue_step_dom _ _ _ _ _ Hs) as Hd. rewrite Hs, res_bind_Ok.
  apply IH; [done|]. by rewrite Hd.
Qed.
End queue.

(** [FragQueue] is written like [MsgQueue], for fragments, without the walk and
    [PopTail]. *)
Definition FragQueue_Reset : Queue := emptyQueue.
Definition FragQueue_Empty : Queue -> bool := Queue_Empty.
Definition FragQueue_PushTail : Queue -> gmap fid Frag -> fid -> res (Queue * gmap fid Frag) := PushTail.
Definition FragQueue_PopHead : Queue -> gmap fid Frag -> res (Queue * gmap fid Frag) := PopHead.

(** [(l *MsgQueue) AllDone]. *)
Definition AllDone (l : Queue) (h : gmap mid Msg) : res bool :=
  all_from (S (Z.to_nat (q_count l))) m_Done h (q_head l).

Lemma AllDone_spec l h ls :
  queue_repr l h ls ->
  AllDone l h = Ok (forallb (fun m => match h !! m with Some x => m_Done x | None => false end) ls).
Proof.
  intros [Hc _ _ Hn]. unfold AllDone. apply (all_from_spec m_Done h None); [done|].
  rewrite Hn. unfold len. lia.
Qed.

(** C27: starting from an empty queue, any sequence of pushes at the tail and
    pops at either end keeps the pointer structure of [MsgQueue] equal to the
    list of queued messages, oldest at the head, without following a nil
    pointer; the [count] field is its length and [AllDone] answers for exactly
    the messages in the list. *)
Theorem MsgQueue_refines_list (h : gmap mid Msg) (os : list queue_op)
    (Hos : ops_ok (dom h) [] os) :
  exists l h', queue_run emptyQueue h os = Ok (l, h') /\
    queue_repr l h' (fold_left list_step os []) /\
    q_count l = len (fold_left list_step os []) /\
    AllDone l h' = Ok (forallb (fun m => match h' !! m with Some x => m_Done x | None => false end)
                         (fold_left list_step os [])).
Proof.
  destruct (queue_run_refines os emptyQueue h [] (queue_repr_empty h) Hos) as (l & h' & Hq & Hr).
  exists l, h'. split_and!; [done|done|apply Hr|by apply AllDone_spec].
Qed.

Definition three_msgs : gmap mid Msg :=
  {[ 1%positive := zeroMsg; 2%positive := zeroMsg; 3%positive := zeroMsg ]}.
Definition queue_sample : list queue_op :=
  [QPushTail 1%positive; QPushTail 2%positive; QPopHead; QPushTail 3%positive; QPopTail; QPopTail; QPopHead].

Lemma MsgQueue_refines_list_witness :
  exists l h', queue_run emptyQueue three_msgs queue_sample = Ok (l, h') /\
    queue_repr l h' [] /\ q_count l = len (@nil mid) /\ AllDone l h' = Ok true.
Proof.
  apply (MsgQueue_refines_list three_msgs queue_sample).
  unfold queue_sample, three_msgs. cbn [ops_ok list_step]. rewrite !dom_insert_L, dom_singleton_L.
  split_and!; try done; simpl; set_solver.
Defined.

(** ** Recycled messages are clean *)

(** Pooled messages are allocated, distinct and hold the zero value; locations
    not yet handed out are unused. *)
Record pool_ok (s : Store) : Prop := {
  po_zero : forall m, m ∈ pool s -> msgs s !! m = Some zeroMsg;
  po_nodup : NoDup (pool s);
  po_fresh : forall m, (next_loc s <= m)%positive -> msgs s !! m = None;
}.

Lemma clear_msg_zero m : clear_msg m = zeroMsg.
Proof. unfold clear_msg. by rewrite !subl_nil by lia. Qed.

Lemma msgPool_Get_clean s choice m s' :
  pool_ok s -> msgPool_Get s choice = (m, s') ->
  msgs s' !! m = Some zeroMsg /\ m ∉ pool s' /\ pool_ok s' /\
  (forall k, k <> m -> msgs s' !! k = msgs s !! k) /\ frags s' = frags s.
Proof.
  intros [Hz Hn Hf]. unfold msgPool_Get.
  destruct (choice ≫= _) as [x|] eqn:E; intros [= <- <-]; simpl.
  - destruct choice as [i|]; simpl in E; [|done]. simpl.
    assert (x ∈ pool s) as Hx by (apply list_elem_of_lookup; eauto).
    rewrite delete_take_drop. rewrite <- (take_drop_middle _ _ _ E) in Hn.
    apply NoDup_app in Hn as (Hn1 & Hn2 & Hn3). apply NoDup_cons in Hn3 as [Hn3 Hn4].
    split_and!; try done; [by apply Hz|intros [Hi|Hi]%elem_of_app; [apply (Hn2 x Hi); by left|done]|].
    split; simpl; [|apply NoDup_app; split_and!; [done|set_solver|done]|done].
    intros k Hk. apply Hz. rewrite <- (take_drop_middle _ _ _ E). set_solver.
  - assert (next_loc s ∉ pool s) as Hx.
    { intros Hin. apply Hz in Hin. rewrite Hf in Hin; [done|reflexivity]. }
    split_and!; try done; [apply lookup_insert_eq| |intros; by apply lookup_insert_ne].
    split; simpl; [|done|].
    + intros k Hk. rewrite lookup_insert_ne by (intros Heq; by rewrite Heq in Hx). by apply Hz.
    + intros k Hk. rewrite lookup_insert_ne by lia. apply Hf. lia.
Qed.

Lemma msgPool_Put_ok s m x :
  pool_ok s -> msgs s !! m = Some x -> m ∉ pool s ->
  exists s', msgPool_Put s (Some m) = Ok s' /\ pool_ok s' /\ m ∈ pool s'.
Proof.
  intros [Hz Hn Hf] Hx Hm. unfold msgPool_Put, get_msg. rewrite Hx, res_bind_Ok.
  eexists. split; [done|]. split; [|by left]. split; simpl.
  - intros k [->|Hk]%elem_of_cons.
    + by rewrite lookup_insert_eq, clear_msg_zero.
    + rewrite lookup_insert_ne by (intros ->; done). by apply Hz.
  - by apply NoDup_cons.
  - intros k Hk. destruct (decide (k = m)) as [->|]; [rewrite Hf in Hx by done; done|].
    rewrite lookup_insert_ne by done. by apply Hf.
Qed.

(** A message released to the pool and handed out again, by whatever choice
    the pool makes, carries nothing of its former request: every field has its
    zero value. *)
Theorem msgPool_recycles_clean s m x (Hs : pool_ok s) (Hx : msgs s !! m = Some x) (Hm : m ∉ pool s) :
  exists s1, msgPool_Put s (Some m) = Ok s1 /\
    forall choice m' s2, msgPool_Get s1 choice = (m', s2) -> msgs s2 !! m' = Some zeroMsg /\ pool_ok s2.
Proof.
  destruct (msgPool_Put_ok s m x Hs Hx Hm) as (s1 & -> & Hs1 & _). exists s1. split; [done|].
  intros choice m' s2 Hg. destruct (msgPool_Get_clean _ _ _ _ Hs1 Hg) as (? & ? & ? & ?). done.
Qed.

Definition used_store : Store :=
  mkStore {[ 1%positive := mkMsg None None (Some 1%positive) 7 ∅ (str "x") [] (Some ∅) [str "k"] ∅ ∅ 1 2 ReqGet true ]}
    ∅ 7 0 [] 2%positive.

Lemma msgPool_recycles_clean_witness :
  exists s1, msgPool_Put used_store (Some 1%positive) = Ok s1 /\
    forall choice m' s2, msgPool_Get s1 choice = (m', s2) -> msgs s2 !! m' = Some zeroMsg /\ pool_ok s2.
Proof.
  eapply (msgPool_recycles_clean used_store 1%positive).
  - split; simpl; [by intros ? ?%elem_of_nil|constructor|].
    intros k Hk. apply lookup_insert_None. split; [done|]. lia.
  - reflexivity.
  - by intros ?%elem_of_nil.
Defined.

(** ** Redirections round-trip *)

Lemma Split_none s c : c ∉ s -> Split s c = [s].
Proof.
  induction s as [|b s IH]; intros Hn; simpl; [done|].
  apply not_elem_of_cons in Hn as [Hb Hn]. rewrite (proj2 (Z.eqb_neq b c)) by done. by rewrite IH.
Qed.

Lemma Split_cons s c t : c ∉ s -> Split (s ++ c :: t) c = s :: Split t c.
Proof.
  induction s as [|b s IH]; intros Hn; simpl; [by rewrite Z.eqb_refl|].
  apply not_elem_of_cons in Hn as [Hb Hn]. rewrite (proj2 (Z.eqb_neq b c)) by done. by rewrite IH.
Qed.

Definition parse_digit_ok (b : Z) : Prop := 48 <= b <= 57.

Lemma ParseUint_loop_app p q n und :
  ParseUint_loop (p ++ q) 10 n und =
  match ParseUint_loop p 10 n und with
  | inl (m, und) => ParseUint_loop q 10 m und
  | inr e => inr e
  end.
Proof.
  revert n und. induction p as [|b p IH]; intros n und; [done|]. cbn [app ParseUint_loop].
  destruct (b =? 95); [apply IH|].
  destruct (if _ : bool then Some _ else _) as [d|]; [|done].
  destruct (10 <=? d); [done|]. destruct (_ <=? n); [done|]. destruct (_ <? _); [done|]. apply IH.
Qed.

Lemma ParseUint_digits fuel n :
  0 <= n < 10 ^ Z.of_nat fuel -> n < 2 ^ 63 -> ParseUint_loop (digits fuel n) 10 0 false = inl (n, false).
Proof.
  revert n. induction fuel as [|fuel IH]; intros n Hn Hb; [simpl in *; do 2 f_equal; lia|].
  assert (forall k d, 0 <= d < 10 -> 0 <= k -> k * 10 + d < 2 ^ 63 ->
    ParseUint_loop [48 + d] 10 k false = inl (k * 10 + d, false)) as Hone.
  { intros k d Hd Hk Hkd. cbn [ParseUint_loop]. replace (48 + d =? 95) with false by lia.
    replace ((48 <=? 48 + d) && (48 + d <=? 57)) with true by lia.
    replace (10 <=? 48 + d - 48) with false by lia.
    change ((2 ^ 64 - 1) / 10 + 1) with 1844674407370955162.
    replace (1844674407370955162 <=? k) with false by lia.
    replace (2 ^ 64 - 1 <? k * 10 + (48 + d - 48)) with false by lia. do 2 f_equal. lia. }
  cbn [digits]. case_if; [rewrite (Hone 0) by lia; do 2 f_equal; lia|].
  rewrite Nat2Z.inj_succ, Z.pow_succ_r in Hn by lia.
  pose proof (Z.div_mod n 10 ltac:(lia)). pose proof (Z.mod_pos_bound n 10 ltac:(lia)).
  rewrite ParseUint_loop_app, IH, Hone by lia. do 2 f_equal. lia.
Qed.

(** The first digit of a positive number is not 0. *)
Lemma digits_head fuel n : 0 < n -> n < 10 ^ Z.of_nat fuel ->
  exists c t, digits fuel n = c :: t /\ 49 <= c <= 57.
Proof.
  revert n. induction fuel as [|fuel IH]; intros n Hn Hb; [simpl in *; lia|]. cbn [digits].
  case_if; [eexists _, _; split; [done|]; lia|].
  rewrite Nat2Z.inj_succ, Z.pow_succ_r in Hb by lia.
  pose proof (Z.div_mod n 10 ltac:(lia)). pose proof (Z.mod_pos_bound n 10 ltac:(lia)).
  destruct (IH (n / 10)) as (c & t & -> & Hc); [lia|lia|]. by eexists _, _.
Qed.

Lemma ParseUint_Itoa n : 0 <= n < 2 ^ 63 -> ParseUint (Itoa n) = (n, None).
Proof.
  intros Hn. unfold Itoa. replace (n <? 0) with false by lia.
  destruct (decide (n = 0)) as [->|]; [done|].
  assert (n < 10 ^ Z.of_nat 20) as Hb by (eapply Z.lt_trans; [apply Hn|done]).
  destruct (digits_head 20 n) as (c & t & Hd & Hc); [lia|done|].
  unfold ParseUint. pose proof (ParseUint_digits 20 n ltac:(lia) ltac:(lia)) as Hp.
  rewrite Hd in *. replace (c =? 48) with false by lia. by rewrite Hp.
Qed.

(** The line of a redirection. *)
Definition redirect (ask : bool) (slot : Z) (addr : bytes) : bytes :=
  (if ask then str "-ASK " else str "-MOVED ") ++ Itoa slot ++ 32 :: addr ++ crlf.

(** The redirection line a Redis node sends for any slot and any address
    without a space is parsed back to that address and slot. *)
Theorem parseMovedOrAsk_roundtrip (f : Frag) (ask : bool) (slot : Z) (addr : bytes)
    (Hb : f_RspBody f = redirect ask slot addr) (Ht : f_Type f = if ask then RspAsk else RspMoved)
    (Hs : 0 <= slot < 16384) (Ha : 32 ∉ addr) (Hne : addr <> []) :
  parseMovedOrAsk f = Ok (addr, slot).
Proof.
  unfold parseMovedOrAsk. rewrite Hb, Ht. pose proof (Itoa_len slot ltac:(lia)) as Hi.
  assert (0 < len addr) as Hl by (destruct addr; [done|rewrite len_cons; pose proof (len_nonneg addr); lia]).
  assert (len (redirect ask slot addr) =
    (if ask then 5 else 7) + len (Itoa slot) + 1 + len addr + 2) as Hlen.
  { unfold redirect. rewrite !len_app, len_cons, len_app. change (len crlf) with 2.
    destruct ask; [change (len (str "-ASK ")) with 5|change (len (str "-MOVED ")) with 7]; lia. }
  replace (len (redirect ask slot addr) <? 10) with false by (destruct ask; lia).
  assert (exists i, (match (if ask then RspAsk else RspMoved) with
      RspMoved => Some 7 | RspAsk => Some 5 | _ => None end) = Some i /\
    i = len (if ask then str "-ASK " else str "-MOVED ")) as (i & -> & Hi2) by (destruct ask; eauto).
  assert (i = if ask then 5 else 7) as Hi3 by (rewrite Hi2; destruct ask; done).
  rewrite slice_Ok by (destruct ask; lia). rewrite res_bind_Ok.
  replace (subl (redirect ask slot addr) i _) with (Itoa slot ++ 32 :: addr).
  2:{ unfold redirect at 1. rewrite subl_app_r by lia. rewrite <- Hi2, Z.sub_diag.
      replace (Itoa slot ++ 32 :: addr ++ crlf) with ((Itoa slot ++ 32 :: addr) ++ crlf)
        by (by rewrite <- app_assoc).
      rewrite subl_app_l by (rewrite ?len_app, ?len_cons; lia).
      replace (len (redirect ask slot addr) - 2 - i) with (len (Itoa slot ++ 32 :: addr))
        by (rewrite len_app, len_cons; destruct ask; lia). by rewrite subl_full. }
  rewrite Split_cons, (Split_none addr) by (done || (intros H; pose proof (Itoa_range slot ltac:(lia)) as Hr;
    rewrite Forall_forall in Hr; apply Hr in H; lia)).
  rewrite ParseUint_Itoa by lia. simpl. by rewrite wrap32_id by lia.
Qed.

Definition moved_frag : Frag :=
  mkFrag None None None None 1 0 0 [] [] [] (redirect false 3999 (str "127.0.0.1:6381")) [] RspMoved false false.

Lemma parseMovedOrAsk_roundtrip_witness :
  parseMovedOrAsk moved_frag = Ok (str "127.0.0.1:6381", 3999).
Proof.
  apply (parseMovedOrAsk_roundtrip moved_frag false); [reflexivity|reflexivity|lia|not_in|discriminate].
Defined.

(** ** The timeout queue

    A left-leaning red-black tree of an external package, ordered by the
    [Timeout] of its fragments ([Less]).  The class states its documented
    behaviour on the in-order sequence of (timeout, fragment) pairs: equal
    timeouts count as the same item. *)

Fixpoint ins (k : Z) (f : fid) (l : list (Z * fid)) : list (Z * fid) :=
  match l with
  | [] => [(k, f)]
  | (k', f') :: l =>
      if k <? k' then (k, f) :: (k', f') :: l
      else if k' <? k then (k', f') :: ins k f l
      else (k, f) :: l
  end.

Class LLRB (T : Type) := {
  items : T -> list (Z * fid);
  ReplaceOrInsert : T -> Z -> fid -> T;
  tree_DeleteMin : T -> option (Z * fid) * T;
  tree_Min : T -> option (Z * fid);
  tree_Delete : T -> Z -> T;
  ReplaceOrInsert_items : forall t k f, items (ReplaceOrInsert t k f) = ins k f (items t);
  tree_Min_items : forall t, tree_Min t = head (items t);
  tree_DeleteMin_items : forall t,
    (tree_DeleteMin t).1 = head (items t) /\ items (tree_DeleteMin t).2 = tail (items t);
  tree_Delete_items : forall t k, items (tree_Delete t k) = filter (fun x => x.1 <> k) (items t);
}.

#[export] Program Instance list_tree : LLRB (list (Z * fid)) := {|
  items t := t;
  ReplaceOrInsert t k f := ins k f t;
  tree_DeleteMin t := (head t, tail t);
  tree_Min t := head t;
  tree_Delete t k := filter (fun x => x.1 <> k) t;
|}.
Solve All Obligations with done.

Section timeouts.
Context {T : Type} `{LLRB T}.

(** [(f *Frag) Less]. *)
Definition Less (f than : Frag) : bool := f_Timeout f <? f_Timeout than.

Definition set_timeout (f : Frag) (t : Z) : Frag :=
  mkFrag (f_prev f) (f_next f) (f_Owner f) (f_Peer f) (f_Id f) (f_Time f) t (f_Key f) (f_Error f)
    (f_Req f) (f_RspBody f) (f_Rsp f) (f_Type f) (f_Ok f) (f_Done f).

(** [pushToTimeoutQueue] at time [now] (nanoseconds), [timeout] in milliseconds. *)
Definition pushToTimeoutQueue (s : Store) (t : T) (f : fid) (timeout now : Z) : res (Store * T) :=
  if timeout <=? 0 then Ok (s, t)
  else
    x ← get_frag s f;
    match f_Owner x, f_Peer x with
    | Some _, Some _ =>
        let d := now + wrap64 (timeout * 1000000) in
        Ok (put_frag s f (set_timeout x d), ReplaceOrInsert t d f)
    | _, _ => Ok (s, t)
    end.

Definition popFromTimeoutQueue (t : T) : option fid * T :=
  let '(m, t) := tree_DeleteMin t in (snd <$> m, t).
Definition getFromTimeoutQueue (t : T) : option fid := snd <$> tree_Min t.
Definition deleteFromTimeoutQueue (s : Store) (t : T) (f : fid) : res T :=
  x ← get_frag s f; Ok (tree_Delete t (f_Timeout x)).
Definition deleteMinFromTimeoutQueue (t : T) : T := (tree_DeleteMin t).2.
Definition lengthOfTimeoutQueue (t : T) : Z := len (items t).

Lemma ins_same k f g l : ins k g (ins k f l) = ins k g l.
Proof.
  induction l as [|[k' f'] l IH]; simpl.
  - by rewrite Z.ltb_irrefl.
  - destruct (k <? k') eqn:E1; simpl; [by rewrite Z.ltb_irrefl|].
    destruct (k' <? k) eqn:E2; simpl.
    + by rewrite E1, E2, IH.
    + by rewrite Z.ltb_irrefl.
Qed.

(** Two fragments sent in the same clock tick share a key of the timeout
    queue: queueing the second silently removes the first, which can then
    never time out. *)
Lemma pushTimeout_same_tick s t f g xf xg timeout now
    (Hne : f <> g) (Ht : 0 < timeout)
    (Hf : frags s !! f = Some xf) (Hg : frags s !! g = Some xg)
    (Hof : f_Owner xf <> None) (Hpf : f_Peer xf <> None)
    (Hog : f_Owner xg <> None) (Hpg : f_Peer xg <> None) :
  exists s1 t1 s2 t2, pushToTimeoutQueue s t f timeout now = Ok (s1, t1) /\
    pushToTimeoutQueue s1 t1 g timeout now = Ok (s2, t2) /\
    items t2 = ins (now + wrap64 (timeout * 1000000)) g (items t).
Proof.
  unfold pushToTimeoutQueue, get_frag. replace (timeout <=? 0) with false by lia.
  rewrite Hf, res_bind_Ok. destruct (f_Owner xf), (f_Peer xf); try done.
  destruct (f_Owner xg) eqn:Eo, (f_Peer xg) eqn:Ep; try done.
  eexists _, _, _, _. split; [reflexivity|].
  cbn [frags put_frag with_frags]. rewrite lookup_insert_ne, Hg, res_bind_Ok, Eo, Ep by done.
  split; [reflexivity|].
  by rewrite !ReplaceOrInsert_items, ins_same.
Qed.
End timeouts.

Definition live_frag : Frag :=
  mkFrag None None (Some 9%positive) (Some 1%positive) 1 0 0 [] [] [] [] [] UNKNOWN false false.
Definition two_frags : Store :=
  mkStore ∅ {[ 1%positive := live_frag; 2%positive := live_frag ]} 0 2 [] 3%positive.

Lemma pushTimeout_same_tick_witness :
  exists s1 t1 s2 t2,
    pushToTimeoutQueue two_frags (@nil (Z * fid)) 1%positive 5 100 = Ok (s1, t1) /\
    pushToTimeoutQueue s1 t1 2%positive 5 100 = Ok (s2, t2) /\
    items t2 = ins (100 + wrap64 (5 * 1000000)) 2%positive (items (@nil (Z * fid))).
Proof.
  apply (pushTimeout_same_tick two_frags (@nil (Z * fid)) 1%positive 2%positive live_frag live_frag 5 100);
    done.
Defined.

(** ** The text of a request, for the log *)
Section body_string.
Context `{MapRange}.

(** The bytes of a fragment's request on one line. *)
Fixpoint one_line (req : bytes) : bytes :=
  match req with
  | [] => []
  | b :: req => if b =? 13 then one_line req else if b =? 10 then 32 :: one_line req else b :: one_line req
  end.
Fixpoint body_items (s : Store) (l : list (Z * fid)) : res bytes :=
  match l with
  | [] => Ok []
  | (slot, f) :: l =>
      v ← get_frag s f;
      rest ← body_items s l;
      Ok (str "{ " ++ Itoa (uwrap64 slot) ++ str " => " ++ one_line (f_Req v) ++ str "}" ++ rest)
  end.
Definition BodyString (s : Store) (m : option Msg) : res bytes :=
  match m with
  | None => Ok []
  | Some m =>
      if Z.of_nat (size (m_Body m)) <? 1 then Ok []
      else
        items ← body_items s (range (m_Body m));
        Ok (str "[" ++ items ++ str "]")
  end.

(** What requests a client sends does not break the lines of the log. *)
Lemma BodyString_one_line s m r : BodyString s m = Ok r -> 13 ∉ r /\ 10 ∉ r.
Proof.
  assert (forall x y : bytes, Ok x = Ok y -> x = y) as Hinj by congruence.
  assert (forall req, 13 ∉ one_line req /\ 10 ∉ one_line req) as Hline.
  { intros req. induction req as [|b req [IH1 IH2]]; cbn; [set_solver|].
    destruct (b =? 13) eqn:E1; [done|]. destruct (b =? 10) eqn:E2; rewrite !not_elem_of_cons; split_and!; try done; lia. }
  assert (forall l r, body_items s l = Ok r -> 13 ∉ r /\ 10 ∉ r) as Hitems.
  { intros l. induction l as [|[slot f] l IH]; intros t Ht; cbn [body_items] in Ht; [injection Ht as <-; set_solver|].
    apply res_bind_inv in Ht as (v & _ & Ht). apply res_bind_inv in Ht as (rest & Hr & Ht). apply Hinj in Ht as <-.
    destruct (IH _ Hr) as [H1 H2]. destruct (Hline (f_Req v)) as [L1 L2].
    pose proof (Itoa_range (uwrap64 slot) ltac:(unfold uwrap64; apply Z.mod_pos_bound; lia)) as HI. rewrite Forall_forall in HI.
    assert (13 ∉ Itoa (uwrap64 slot) /\ 10 ∉ Itoa (uwrap64 slot)) as [I1 I2] by (split; intros Hin; apply HI in Hin; lia).
    rewrite !not_elem_of_app. split_and!; done || not_in. }
  unfold BodyString. destruct m as [m|]; [|intros [= <-]; set_solver]. case_if; [intros [= <-]; set_solver|].
  intros Hr. apply res_bind_inv in Hr as (t & Ht & Hr). apply Hinj in Hr as <-. destruct (Hitems _ _ Ht) as [H1 H2].
  rewrite !not_elem_of_app. split_and!; done || not_in.
Qed.
End body_string.
