(* ===== verification/Forest.v ===== *)
(** * Several queues over one heap

    The connections of the loop share the heaps of messages and fragments: every
    connection has its queues, linked through the elements themselves.  A
    [forest] says that the queues [qs i] stand for the lists [F i] and that no
    element is in two of them; pushing and popping at one queue leave the others
    alone.  The queues are those of [core/message.go]. *)

From S2P Require Import Prelude Errors Commands Codec Message.

(** The function [f] with another value at [i]. *)
Definition upd {I A} `{EqDecision I} (f : I -> A) (i : I) (a : A) : I -> A :=
  fun j => if decide (j = i) then a else f j.

Lemma upd_eq {I A} `{EqDecision I} (f : I -> A) i a : upd f i a i = a.
Proof. unfold upd. by rewrite decide_True. Qed.
Lemma upd_ne {I A} `{EqDecision I} (f : I -> A) i a j : j <> i -> upd f i a j = f j.
Proof. intros. unfold upd. by rewrite decide_False. Qed.

Section forest.
Context {T : Type} `{Linked T} {I : Type} `{EqDecision I}.
Implicit Types (h : gmap positive T) (qs : I -> option Queue) (F : I -> list positive).

Record forest h qs F : Prop := {
  fo_repr : forall i q, qs i = Some q -> queue_repr q h (F i);
  fo_none : forall i, qs i = None -> F i = [];
  fo_disjoint : forall i j k, k ∈ F i -> k ∈ F j -> i = j;
}.

(** Only the links of the elements and the queues matter. *)
Lemma forest_ext h qs F h' qs' :
  (forall i, qs' i = qs i) -> (forall i k, k ∈ F i -> links <$> h' !! k = links <$> h !! k) ->
  forest h qs F -> forest h' qs' F.
Proof.
  intros Hq Hl [Hr Hn Hd]. split; [|intros i; rewrite Hq; apply Hn|done].
  intros i q Hi. rewrite Hq in Hi. eapply queue_repr_links; [|by apply Hr]. intros k Hk. by eapply Hl.
Qed.

Lemma forest_lists h qs F F' : (forall i, F' i = F i) -> forest h qs F -> forest h qs F'.
Proof.
  intros HF [Hr Hn Hd]. split; [intros i q; rewrite HF; apply Hr|intros i; rewrite HF; apply Hn|].
  intros i j k. rewrite !HF. apply Hd.
Qed.

Lemma forest_elem h qs F i k : forest h qs F -> k ∈ F i -> is_Some (h !! k).
Proof.
  intros [Hr Hn _] Hk. destruct (qs i) as [q|] eqn:Hq; [|rewrite Hn in Hk by done; by apply elem_of_nil in Hk].
  destruct (chain_lookup _ _ _ _ k (qr_chain _ _ _ (Hr i q Hq)) Hk) as [x Hx]. by exists x.
Qed.

Lemma forest_push h qs F i q m x :
  forest h qs F -> qs i = Some q -> h !! m = Some x -> (forall j, m ∉ F j) ->
  exists q' h', PushTail q h m = Ok (q', h') /\ forest h' (upd qs i (Some q')) (upd F i (F i ++ [m])).
Proof.
  intros Hf Hi Hx Hm. pose proof Hf as [Hr Hn Hd].
  destruct (PushTail_spec q h (F i) m x (Hr i q Hi) Hx (Hm i)) as (q' & h' & Hp & Hrepr & Hkeep).
  exists q', h'. split; [done|]. split.
  - intros j qj. destruct (decide (j = i)) as [->|Hne].
    + rewrite !upd_eq. by intros [= <-].
    + rewrite !upd_ne by done. intros Hj. eapply queue_repr_links; [|by apply Hr].
      intros k Hk. rewrite Hkeep; [done|intros ->; by apply (Hm j)|]. intros Hki. by destruct (Hd i j k Hki Hk).
  - intros j. destruct (decide (j = i)) as [->|Hne]; [by rewrite upd_eq|]. rewrite !upd_ne by done. apply Hn.
  - intros j1 j2 k. destruct (decide (j1 = i)) as [->|Hne1], (decide (j2 = i)) as [->|Hne2];
      rewrite ?upd_eq, ?upd_ne by done; [done| | |apply Hd].
    + intros [Hk|Hk]%elem_of_app Hk2; [by eapply Hd|]. apply list_elem_of_singleton in Hk as ->. by destruct (Hm j2).
    + intros Hk1 [Hk|Hk]%elem_of_app; [by eapply Hd|]. apply list_elem_of_singleton in Hk as ->. by destruct (Hm j1).
Qed.

Lemma forest_pop h qs F i q m ls :
  forest h qs F -> qs i = Some q -> F i = m :: ls ->
  exists q' h', PopHead q h = Ok (q', h') /\ q_head q = Some m /\
    forest h' (upd qs i (Some q')) (upd F i ls) /\ forall j, m ∉ upd F i ls j.
Proof.
  intros Hf Hi Hls. pose proof Hf as [Hr Hn Hd]. pose proof (Hr i q Hi) as Hq. rewrite Hls in Hq.
  destruct (PopHead_spec q h m ls Hq) as (q' & h' & Hp & Hrepr & _ & Hkeep).
  assert (m ∈ F i) as Hmi by (rewrite Hls; left).
  pose proof (qr_nodup _ _ _ Hq) as Hnd. apply NoDup_cons in Hnd as [Hml _].
  exists q', h'. split; [done|]. split; [pose proof (qr_chain _ _ _ Hq) as Hc; simpl in Hc; by destruct Hc|].
  assert (forall j k, k ∈ upd F i ls j -> k ∈ F j) as Hsub.
  { intros j k. destruct (decide (j = i)) as [->|Hne]; [rewrite upd_eq, Hls; by right|by rewrite upd_ne]. }
  split; [split|].
  - intros j qj. destruct (decide (j = i)) as [->|Hne].
    + rewrite !upd_eq. by intros [= <-].
    + rewrite !upd_ne by done. intros Hj. eapply queue_repr_links; [|by apply Hr]. intros k Hk.
      assert (k ∉ F i) as Hki by (intros Hki; by destruct (Hd i j k Hki Hk)). rewrite Hls in Hki.
      apply not_elem_of_cons in Hki as [? ?]. by rewrite Hkeep.
  - intros j. destruct (decide (j = i)) as [->|Hne]; [by rewrite upd_eq|]. rewrite !upd_ne by done. apply Hn.
  - intros j1 j2 k Hk1 Hk2. eapply Hd; eauto.
  - intros j Hmj. destruct (decide (j = i)) as [->|Hne]; [by rewrite upd_eq in Hmj|].
    rewrite upd_ne in Hmj by done. by destruct (Hd i j m Hmi Hmj).
Qed.

(** Queues that disappear with their connection. *)
Lemma forest_drop h qs F (gone : I -> bool) :
  forest h qs F ->
  forest h (fun i => if gone i then None else qs i) (fun i => if gone i then [] else F i).
Proof.
  intros [Hr Hn Hd]. split.
  - intros i q. destruct (gone i); [done|apply Hr].
  - intros i. destruct (gone i); [done|apply Hn].
  - intros i j k. destruct (gone i), (gone j); try (by intros Hk; apply elem_of_nil in Hk);
      try (by intros _ Hk; apply elem_of_nil in Hk). apply Hd.
Qed.
End forest.
