(* ===== verification/CodecC.v ===== *)
(** * The request decoder

    [core/codec_c.go]: [CRespCodec] parses one client request out of the bytes a
    connection has buffered, and splits multi-key commands into one fragment per
    hash slot.  [Decode] works on the slice returned by the connection's [Peek];
    it returns how much of it the connection is told to discard, and the slice as
    the in-place lowering of the command name leaves it. *)

From S2P Require Import Prelude Errors Hashkit Commands Codec Message.

(** Field updates of the heap objects. *)
Definition set_Frags (m : Msg) (keys : list bytes) (fr : gmap Z (list bytes)) : Msg :=
  mkMsg (m_prev m) (m_next m) (m_Owner m) (m_Id m) (m_Body m) (m_RspBody m) (m_Error m)
    (m_Fd2Slot m) keys fr (m_Frags2 m) (m_FragDoneNumber m) (m_DelNum m) (m_Type m) (m_Done m).
Definition set_Frags2 (m : Msg) (keys : list bytes) (fr : gmap Z (list (bytes * bytes))) : Msg :=
  mkMsg (m_prev m) (m_next m) (m_Owner m) (m_Id m) (m_Body m) (m_RspBody m) (m_Error m)
    (m_Fd2Slot m) keys (m_Frags m) fr (m_FragDoneNumber m) (m_DelNum m) (m_Type m) (m_Done m).
Definition set_Type (m : Msg) (t : Command) : Msg :=
  mkMsg (m_prev m) (m_next m) (m_Owner m) (m_Id m) (m_Body m) (m_RspBody m) (m_Error m)
    (m_Fd2Slot m) (m_Keys m) (m_Frags m) (m_Frags2 m) (m_FragDoneNumber m) (m_DelNum m) t (m_Done m).
Definition set_Body (m : Msg) (b : gmap Z fid) : Msg :=
  mkMsg (m_prev m) (m_next m) (m_Owner m) (m_Id m) b (m_RspBody m) (m_Error m)
    (m_Fd2Slot m) (m_Keys m) (m_Frags m) (m_Frags2 m) (m_FragDoneNumber m) (m_DelNum m)
    (m_Type m) (m_Done m).

(** A fragment's request: key, peer and bytes. *)
Definition set_Req (f : Frag) (key : bytes) (peer : mid) (req : bytes) : Frag :=
  mkFrag (f_prev f) (f_next f) (f_Owner f) (Some peer) (f_Id f) (f_Time f) (f_Timeout f) key
    (f_Error f) req (f_RspBody f) (f_Rsp f) (f_Type f) (f_Ok f) (f_Done f).

Section decoder.
Context `{MapRange} (MsgMaxLength : Z).

Definition sizeTooLarge (size : Z) : bool := MsgMaxLength <? size.

(** One counted string.  A length of -1 gives the nil slice and no error. *)
Definition parseLine (b : Buffer) : res ((bytes + error) * Buffer) :=
  '(x, b) ← ReadLine b;
  match x with
  | inr err => Ok (inr err, b)
  | inl line =>
      c ← index line 0;
      if c =? 36 then
        let '(n, err) := parseLen (subl line 1 (len line)) in
        match err with
        | Some e => Ok (inr e, b)
        | None =>
            if n <? 0 then Ok (inl [], b)
            else
              '(x, b) ← ReadN b n;
              match x with
              | inr err => Ok (inr err, b)
              | inl v =>
                  '(y, b) ← ReadN b 2;
                  match y with
                  | inr _ => Ok (inr (ECodec ShortLine), b)
                  | inl e =>
                      c0 ← index e 0;
                      c1 ← index e 1;
                      if negb (c0 =? 13) || negb (c1 =? 10)
                      then Ok (inr (ECodec ErrInvalidResp), b)
                      else Ok (inl v, b)
                  end
              end
        end
      else Ok (inr (ECodec ErrInvalidResp), b)
  end.

(** The loop of [Frag1]: [k] keys still to read. *)
Fixpoint Frag1_loop (k : nat) (resp : Msg) (b : Buffer) : res (option error * Msg * Buffer) :=
  match k with
  | O => Ok (None, resp, b)
  | S k =>
      '(x, b) ← parseLine b;
      match x with
      | inr err => Ok (Some err, resp, b)
      | inl seg =>
          slot ← Hash seg;
          let fr := match m_Frags resp !! slot with
                    | Some v => <[slot := v ++ [seg]]> (m_Frags resp)
                    | None => <[slot := [seg]]> (m_Frags resp)
                    end in
          Frag1_loop k (set_Frags resp (m_Keys resp ++ [seg]) fr) b
      end
  end.

Definition Frag1 (n : Z) (resp : Msg) (b : Buffer) : res (option error * Msg * Buffer) :=
  Frag1_loop (Z.to_nat n) (set_Frags resp (m_Keys resp) ∅) b.

(** The loop of [Frag2]: [k] pairs still to read. *)
Fixpoint Frag2_loop (k : nat) (resp : Msg) (b : Buffer) : res (option error * Msg * Buffer) :=
  match k with
  | O => Ok (None, resp, b)
  | S k =>
      '(x, b) ← parseLine b;
      match x with
      | inr err => Ok (Some err, resp, b)
      | inl seg =>
          '(y, b) ← parseLine b;
          match y with
          | inr err => Ok (Some err, resp, b)
          | inl seg2 =>
              slot ← Hash seg;
              let fr := match m_Frags2 resp !! slot with
                        | Some v => <[slot := v ++ [(seg, seg2)]]> (m_Frags2 resp)
                        | None => <[slot := [(seg, seg2)]]> (m_Frags2 resp)
                        end in
              Frag2_loop k (set_Frags2 resp (m_Keys resp ++ [seg]) fr) b
          end
      end
  end.

Definition Frag2 (n : Z) (resp : Msg) (b : Buffer) : res (option error * Msg * Buffer) :=
  Frag2_loop (Z.to_nat ((n + 1) / 2)) (set_Frags2 resp (m_Keys resp) ∅) b.

(** The argument loop of [Eval] and [Default]: argument number [i] is the key
    when [i = want]. *)
Fixpoint key_loop (k : nat) (i want : Z) (key : bytes) (slot : Z) (b : Buffer)
    : res ((bytes * Z + error) * Buffer) :=
  match k with
  | O => Ok (inl (key, slot), b)
  | S k =>
      '(x, b) ← parseLine b;
      match x with
      | inr err => Ok (inr err, b)
      | inl msg =>
          if i =? want then h ← Hash msg; key_loop k (i + 1) want msg h b
          else key_loop k (i + 1) want key slot b
      end
  end.

(** Take a fragment from the pool, fill it and file it under its slot.  The new
    fragment's [Req] is empty, so appending to it and to [Req[:0]] agree. *)
Definition add_frag (s : Store) (now : Z) (m : mid) (slot : Z) (key req : bytes) : res Store :=
  let '(f, s) := fragPool_Get s now in
  x ← get_frag s f;
  let s := put_frag s f (set_Req x key m (f_Req x ++ req)) in
  resp ← get_msg s m;
  Ok (put_msg s m (set_Body resp (<[slot := f]> (m_Body resp)))).

(** The end of [Eval] and [Default]: one fragment with the whole request. *)
Definition single_frag (s : Store) (now : Z) (m : mid) (key : bytes) (slot : Z) (b : Buffer)
    : res Store :=
  req ← ReadBuf b; add_frag s now m slot key req.

Definition Eval (s : Store) (now n : Z) (m : mid) (b : Buffer) : res (option error * Store * Buffer) :=
  resp ← get_msg s m;
  let s := if n <? 3 then put_msg s m (set_Type resp ReqWrongArgumentsNumber) else s in
  '(x, b) ← key_loop (Z.to_nat n) 0 2 [] 0 b;
  match x with
  | inr err => Ok (Some err, s, b)
  | inl (key, slot) => s ← single_frag s now m key slot b; Ok (None, s, b)
  end.

Definition Default (s : Store) (now n : Z) (m : mid) (b : Buffer) : res (option error * Store * Buffer) :=
  '(x, b) ← key_loop (Z.to_nat n) 0 0 [] 0 b;
  match x with
  | inr err => Ok (Some err, s, b)
  | inl (key, slot) => s ← single_frag s now m key slot b; Ok (None, s, b)
  end.

(** The bytes the three splitters append: the count, the name, the strings. *)
Definition frag_req (count : Z) (name : bytes) (ks : list bytes) : bytes :=
  42 :: Itoa count ++ name ++ concat (map (fun k => 36 :: Itoa (len k) ++ crlf ++ k ++ crlf) ks).

(** The body of the loops of [MGet] and [Del] for one slot. *)
Definition keys_frag (name : bytes) (now : Z) (m : mid) (s : Store) (e : Z * list bytes) : res Store :=
  let '(slot, keys) := e in
  k0 ← index keys 0;
  add_frag s now m slot k0 (frag_req (len keys + 1) name keys).

Fixpoint each {A} (body : Store -> A -> res Store) (s : Store) (l : list A) : res Store :=
  match l with
  | [] => Ok s
  | a :: l => s ← body s a; each body s l
  end.

Definition mget_name : bytes := crlf ++ str "$4" ++ crlf ++ str "mget" ++ crlf.
Definition del_name : bytes := crlf ++ str "$3" ++ crlf ++ str "del" ++ crlf.
Definition mset_name : bytes := crlf ++ str "$4" ++ crlf ++ str "mset" ++ crlf.

Definition MGet (s : Store) (now : Z) (m : mid) : res Store :=
  resp ← get_msg s m; each (keys_frag mget_name now m) s (range (m_Frags resp)).

Definition Del (s : Store) (now : Z) (m : mid) : res Store :=
  resp ← get_msg s m; each (keys_frag del_name now m) s (range (m_Frags resp)).

Definition pairs_frag (now : Z) (m : mid) (s : Store) (e : Z * list (bytes * bytes)) : res Store :=
  let '(slot, keys) := e in
  k0 ← index keys 0;
  let ks := concat (map (fun p => [p.1; p.2]) keys) in
  add_frag s now m slot k0.1 (frag_req (len keys * 2 + 1) mset_name ks).

Definition MSet (s : Store) (now : Z) (m : mid) : res Store :=
  resp ← get_msg s m; each (pairs_frag now m) s (range (m_Frags2 resp)).

(** What [Decode] hands back: the message or nil, the error, the bytes the
    connection discards, its buffered bytes afterwards, and the store. *)
Record decoded := Decoded {
  d_msg : option mid; d_err : option error; d_discard : Z; d_buf : bytes; d_store : Store }.

Definition set_head (m : Msg) (id : Z) (c : cid) (t : Command) : Msg :=
  mkMsg (m_prev m) (m_next m) (Some c) id ∅ (m_RspBody m) (m_Error m) (Some ∅) (m_Keys m) (m_Frags m)
    (m_Frags2 m) (m_FragDoneNumber m) (m_DelNum m) t (m_Done m).

Definition bump_msgId (s : Store) : Store :=
  mkStore (msgs s) (frags s) (uwrap64 (msgId s + 1)) (fragId s) (pool s) (next_loc s).

(** The switch on the request type. *)
Definition dispatch (s : Store) (now n : Z) (m : mid) (b : Buffer) : res (option error * Store * Buffer) :=
  resp ← get_msg s m;
  match m_Type resp with
  | ReqMget =>
      '(err, resp, b) ← Frag1 n resp b;
      let s := put_msg s m resp in
      match err with Some e => Ok (Some e, s, b) | None => s ← MGet s now m; Ok (None, s, b) end
  | ReqDel =>
      '(err, resp, b) ← Frag1 n resp b;
      let s := put_msg s m resp in
      match err with Some e => Ok (Some e, s, b) | None => s ← Del s now m; Ok (None, s, b) end
  | ReqMset =>
      '(err, resp, b) ← Frag2 n resp b;
      let s := put_msg s m resp in
      match err with Some e => Ok (Some e, s, b) | None => s ← MSet s now m; Ok (None, s, b) end
  | ReqEval | ReqEvalsha => Eval s now n m b
  | _ => Default s now n m b
  end.

Definition Decode (s : Store) (choice : option nat) (now : Z) (c : cid) (bs : bytes) : res decoded :=
  let b := NewBuffer bs in
  if Empty b then Ok (Decoded None (Some (EEngine ErrIncompletePacket)) 0 bs s)
  else
    '(x, b) ← ReadLine b;
    match x with
    | inr _ => Ok (Decoded None (Some (EEngine ErrIncompletePacket)) 0 bs s)
    | inl line =>
        let s := bump_msgId s in
        c0 ← index line 0;
        if negb (c0 =? 42) then Ok (Decoded None (Some (ECodec ErrInvalidResp)) 0 bs s)
        else
          let '(n, err) := parseLen (subl line 1 (len line)) in
          if (n <? 1) || match err with Some _ => true | None => false end
          then Ok (Decoded None err 0 bs s)
          else
            '(x, b) ← parseLine b;
            match x with
            | inr err => Ok (Decoded None (Some err) 0 bs s)
            | inl msg =>
                let n := n - 1 in
                let '(m, s) := msgPool_Get s choice in
                resp ← get_msg s m;
                let '(t, lowered) := Transform2Type msg n in
                (* the name is lowered where it lies in the buffer *)
                let b := mkBuf (copy_at (buf b) (r b - 2 - len msg) lowered) (r b) in
                let t := if sizeTooLarge (TotalSize b) then ReqTooLarge else t in
                let s := put_msg s m (set_head resp (msgId s) c t) in
                '(err, s, b) ← dispatch s now n m b;
                match err with
                | Some e => Ok (Decoded None (Some e) 0 (buf b) s)
                | None => Ok (Decoded (Some m) None (ReadSize b) (buf b) s)
                end
            end
    end.
End decoder.

(** ** Reading counted strings *)

(** A string whose length a 64-bit integer holds. *)
Definition sized (k : bytes) : Prop := len k < 2 ^ 63.

Lemma ReadN_crlf pre rest : ReadN (at_ pre (crlf ++ rest)) 2 = Ok (inl crlf, at_ (pre ++ crlf) rest).
Proof. by apply (ReadN_at pre crlf rest). Qed.

Lemma subl_tail1 (c : Z) l : subl (c :: l) 1 (len (c :: l)) = l.
Proof. rewrite (subl_drop (c :: l) 1) by lia. done. Qed.

Lemma bulk_split k rest :
  bulk k ++ rest = (36 :: Itoa (len k)) ++ crlf ++ (k ++ crlf ++ rest).
Proof. unfold bulk. by rewrite <- !app_comm_cons, <- !app_assoc. Qed.

Lemma parseLine_at pre k rest :
  sized k -> parseLine (at_ pre (bulk k ++ rest)) = Ok (inl k, at_ (pre ++ bulk k) rest).
Proof.
  intros Hk. unfold parseLine. pose proof (len_nonneg k). rewrite bulk_split.
  rewrite ReadLine_at by auto with rc. rewrite res_bind_Ok.
  change (index (36 :: Itoa (len k)) 0) with (Ok 36). rewrite res_bind_Ok, Z.eqb_refl.
  rewrite subl_tail1, parseLen_Itoa by (unfold sized in Hk; lia).
  replace (len k <? 0) with false by lia. rewrite ReadN_at by (destruct k; done). rewrite res_bind_Ok.
  rewrite ReadN_crlf, res_bind_Ok. simpl. do 3 f_equal.
  unfold bulk. rewrite <- !app_assoc, <- !app_comm_cons, <- !app_assoc. done.
Qed.

(** [p] is a proper prefix of [l]. *)
Definition strict_prefix (p l : bytes) : Prop := exists q, q <> [] /\ l = p ++ q.

Lemma strict_prefix_app p a b :
  strict_prefix p (a ++ b) -> strict_prefix p a \/ exists p', p = a ++ p' /\ strict_prefix p' b.
Proof.
  intros (q & Hq & E). apply app_eq_inv in E as [(l & -> & ->)|(l & -> & ->)].
  - destruct l as [|c l].
    + right. exists []. rewrite !app_nil_r. split; [done|]. by exists b.
    + left. exists (c :: l). done.
  - right. exists l. split; [done|]. by exists q.
Qed.

Lemma strict_prefix_len p l : strict_prefix p l -> len p < len l.
Proof.
  intros (q & Hq & ->). rewrite len_app. destruct q; [done|]. rewrite len_cons.
  pose proof (len_nonneg q). lia.
Qed.

(** A line that has not ended yet has no line feed. *)
Lemma strict_prefix_line p line : is_line line -> strict_prefix p (line ++ crlf) -> 10 ∉ p.
Proof.
  intros [_ Hlf] [(q & _ & ->)|(p' & -> & (q & Hq & Hp'))]%strict_prefix_app; [set_solver|].
  destruct p' as [|x [|y p']].
  - by rewrite app_nil_r.
  - injection Hp' as <- _. rewrite elem_of_app, elem_of_cons, elem_of_nil. naive_solver lia.
  - injection Hp' as _ _ Hp'. symmetry in Hp'. by apply app_eq_nil in Hp' as [_ ->].
Qed.

Lemma parseLine_prefix pre k p :
  sized k -> strict_prefix p (bulk k) ->
  exists e b', incomplete e /\ parseLine (at_ pre p) = Ok (inr e, b') /\ buf b' = pre ++ p.
Proof.
  intros Hk Hp. pose proof (len_nonneg k) as Hk0.
  replace (bulk k) with (((36 :: Itoa (len k)) ++ crlf) ++ (k ++ crlf)) in Hp
    by (unfold bulk; by rewrite <- app_assoc).
  apply strict_prefix_app in Hp as [Hp|(p' & -> & Hp)].
  - apply strict_prefix_line in Hp; [|by auto with rc]. unfold parseLine.
    destruct (ReadLine_short pre p Hp) as (e & He & ->). eexists _, _. split; [done|]. done.
  - unfold parseLine. rewrite <- app_assoc. rewrite ReadLine_at by auto with rc. rewrite res_bind_Ok.
    change (index (36 :: Itoa (len k)) 0) with (Ok 36). rewrite res_bind_Ok, Z.eqb_refl.
    rewrite subl_tail1, parseLen_Itoa by (unfold sized in Hk; lia).
    replace (len k <? 0) with false by lia.
    set (pre' := pre ++ (36 :: Itoa (len k)) ++ crlf).
    assert (pre ++ (36 :: Itoa (len k)) ++ crlf ++ p' = pre' ++ p') as ->
      by (unfold pre'; by rewrite <- !app_assoc).
    destruct (decide (p' = [])) as [->|Hne].
    { unfold ReadN. rewrite leftSize_at. change (len [] <? 1) with true.
      eexists _, (at_ pre' []). split; [by left|]. done. }
    apply strict_prefix_app in Hp as [Hp|(p'' & -> & Hp)].
    + apply strict_prefix_len in Hp as Hl. pose proof (len_nonneg p').
      destruct (ReadN_short pre' p' (len k)) as (e & He & ->); [done|lia|].
      eexists _, _. split; [done|]. done.
    + rewrite ReadN_at by done. rewrite res_bind_Ok.
      apply strict_prefix_len in Hp as Hl. change (len crlf) with 2 in Hl.
      destruct (ReadN_short (pre' ++ k) p'' 2) as (e & He & ->); [lia|lia|].
      eexists _, _. split; [by right; left|]. split; [done|]. simpl. by rewrite <- app_assoc.
Qed.

(** ** The argument loops *)


(** Arguments the decoder can be given: byte strings of 64-bit length. *)
Definition arg_ok (k : bytes) : Prop := sized k /\ is_bytes k.

(** The encoding of a request and of its arguments. *)
Definition bulks (args : list bytes) : bytes := concat (map bulk args).
Definition request (args : list bytes) : bytes := 42 :: Itoa (len args) ++ crlf ++ bulks args.

Lemma bulks_cons k args : bulks (k :: args) = bulk k ++ bulks args.
Proof. reflexivity. Qed.

Lemma bulks_nil : bulks [] = [].
Proof. reflexivity. Qed.

(** Grouping keys by slot, in order of appearance. *)
Definition add_key (fr : gmap Z (list bytes)) (k : bytes) : gmap Z (list bytes) :=
  <[slot_of k := default [] (fr !! slot_of k) ++ [k]]> fr.
Definition group (keys : list bytes) : gmap Z (list bytes) := fold_left add_key keys ∅.

Lemma add_key_code fr k :
  match fr !! slot_of k with
  | Some v => <[slot_of k := v ++ [k]]> fr
  | None => <[slot_of k := [k]]> fr
  end = add_key fr k.
Proof. unfold add_key. by destruct (fr !! slot_of k). Qed.

Lemma Frag1_loop_at args resp pre rest :
  Forall arg_ok args ->
  Frag1_loop (length args) resp (at_ pre (bulks args ++ rest)) =
  Ok (None, set_Frags resp (m_Keys resp ++ args) (fold_left add_key args (m_Frags resp)),
      at_ (pre ++ bulks args) rest).
Proof.
  intros Ha. revert resp pre. induction Ha as [|k args [Hk Hb] Ha IH]; intros resp pre;
    cbn [length Frag1_loop].
  { rewrite bulks_nil, !app_nil_r. by destruct resp. }
  rewrite bulks_cons, <- app_assoc, parseLine_at, res_bind_Ok by done.
  rewrite Hash_slot, res_bind_Ok, add_key_code, IH by done. cbn [m_Keys m_Frags set_Frags].
  by rewrite <- !app_assoc.
Qed.

Lemma strict_prefix_bulks p k args :
  strict_prefix p (bulks (k :: args)) ->
  strict_prefix p (bulk k) \/ exists p', p = bulk k ++ p' /\ strict_prefix p' (bulks args).
Proof. apply strict_prefix_app. Qed.

Lemma Frag1_loop_prefix args resp pre p :
  Forall arg_ok args -> strict_prefix p (bulks args) ->
  exists e resp' b', incomplete e /\ Frag1_loop (length args) resp (at_ pre p) = Ok (Some e, resp', b') /\
    buf b' = pre ++ p.
Proof.
  intros Ha. revert resp pre p. induction Ha as [|k args [Hk Hb] Ha IH]; intros resp pre p Hp.
  { apply strict_prefix_len in Hp. pose proof (len_nonneg p). change (len (bulks [])) with 0 in Hp. lia. }
  cbn [length Frag1_loop]. apply strict_prefix_bulks in Hp as [Hp|(p' & -> & Hp)].
  - destruct (parseLine_prefix pre k p Hk Hp) as (e & b' & He & -> & Hb'). simpl. eauto 10.
  - rewrite parseLine_at, res_bind_Ok, Hash_slot, res_bind_Ok by done. rewrite app_assoc. by apply IH.
Qed.

(** Key-value pairs. *)
Definition add_pair (fr : gmap Z (list (bytes * bytes))) (p : bytes * bytes)
    : gmap Z (list (bytes * bytes)) :=
  <[slot_of p.1 := default [] (fr !! slot_of p.1) ++ [p]]> fr.
Definition group2 (ps : list (bytes * bytes)) : gmap Z (list (bytes * bytes)) := fold_left add_pair ps ∅.
Definition flatten (ps : list (bytes * bytes)) : list bytes := concat (map (fun p => [p.1; p.2]) ps).

Lemma add_pair_code fr k v :
  match fr !! slot_of k with
  | Some l => <[slot_of k := l ++ [(k, v)]]> fr
  | None => <[slot_of k := [(k, v)]]> fr
  end = add_pair fr (k, v).
Proof. unfold add_pair. simpl. by destruct (fr !! slot_of k). Qed.

Lemma Frag2_loop_at ps resp pre rest :
  Forall (fun p => arg_ok p.1 /\ arg_ok p.2) ps ->
  Frag2_loop (length ps) resp (at_ pre (bulks (flatten ps) ++ rest)) =
  Ok (None, set_Frags2 resp (m_Keys resp ++ ps.*1) (fold_left add_pair ps (m_Frags2 resp)),
      at_ (pre ++ bulks (flatten ps)) rest).
Proof.
  intros Ha. revert resp pre.
  induction Ha as [|[k v] ps [[Hk Hb] [Hv _]] Ha IH]; intros resp pre;
    cbn [length Frag2_loop].
  { change (flatten []) with (@nil bytes). rewrite bulks_nil, !app_nil_r. by destruct resp. }
  simpl in Hk, Hv, Hb. change (flatten ((k, v) :: ps)) with (k :: v :: flatten ps). rewrite !bulks_cons, <- !app_assoc.
  rewrite parseLine_at, res_bind_Ok, parseLine_at, res_bind_Ok by done.
  rewrite Hash_slot, res_bind_Ok, add_pair_code, IH by done. cbn [m_Keys m_Frags2 set_Frags2].
  by rewrite <- !app_assoc.
Qed.

Lemma Frag2_loop_prefix ps resp pre p :
  Forall (fun p => arg_ok p.1 /\ arg_ok p.2) ps -> strict_prefix p (bulks (flatten ps)) ->
  exists e resp' b', incomplete e /\ Frag2_loop (length ps) resp (at_ pre p) = Ok (Some e, resp', b') /\
    buf b' = pre ++ p.
Proof.
  intros Ha. revert resp pre p.
  induction Ha as [|[k v] ps [[Hk Hb] [Hv _]] Ha IH]; intros resp pre p Hp.
  { apply strict_prefix_len in Hp. pose proof (len_nonneg p). change (len (bulks (flatten []))) with 0 in Hp. lia. }
  simpl in Hk, Hv, Hb. cbn [length Frag2_loop].
  change (flatten ((k, v) :: ps)) with (k :: v :: flatten ps) in Hp.
  apply strict_prefix_bulks in Hp as [Hp|(p' & -> & Hp)].
  { destruct (parseLine_prefix pre k p Hk Hp) as (e & b' & He & -> & Hb'). simpl. eauto 10. }
  rewrite parseLine_at, res_bind_Ok by done.
  apply strict_prefix_bulks in Hp as [Hp|(p & -> & Hp)].
  - destruct (parseLine_prefix (pre ++ bulk k) v p' Hv Hp) as (e & b' & He & -> & Hb'). simpl.
    rewrite <- app_assoc in Hb'. eauto 10.
  - rewrite parseLine_at, res_bind_Ok, Hash_slot, res_bind_Ok by done.
    rewrite !app_assoc. by apply IH.
Qed.

(** The key of a request read by [key_loop], at argument [want - i]. *)
Lemma key_loop_at args i want key slot pre rest :
  Forall arg_ok args ->
  key_loop (length args) i want key slot (at_ pre (bulks args ++ rest)) =
  Ok (inl (match (if want <? i then None else args !! Z.to_nat (want - i)) with
           | Some k => (k, slot_of k)
           | None => (key, slot)
           end), at_ (pre ++ bulks args) rest).
Proof.
  intros Ha. revert i key slot pre.
  induction Ha as [|k args [Hk Hb] Ha IH]; intros i key slot pre; cbn [length key_loop].
  { rewrite bulks_nil, !app_nil_r. by case_if; rewrite ?lookup_nil. }
  rewrite bulks_cons, <- app_assoc, parseLine_at, res_bind_Ok by done.
  destruct (i =? want) eqn:E.
  - rewrite Hash_slot, res_bind_Ok, IH by done. rewrite <- app_assoc.
    replace (want <? i + 1) with true by lia. replace (want <? i) with false by lia.
    by replace (Z.to_nat (want - i)) with 0%nat by lia.
  - rewrite IH, <- app_assoc by done. destruct (decide (want < i)).
    + by rewrite (proj2 (Z.ltb_lt want (i + 1))), (proj2 (Z.ltb_lt want i)) by lia.
    + rewrite (proj2 (Z.ltb_ge want (i + 1))), (proj2 (Z.ltb_ge want i)) by lia.
      by replace (Z.to_nat (want - i)) with (S (Z.to_nat (want - (i + 1)))) by lia.
Qed.

Lemma key_loop_prefix args i want key slot pre p :
  Forall arg_ok args -> strict_prefix p (bulks args) ->
  exists e b', incomplete e /\ key_loop (length args) i want key slot (at_ pre p) = Ok (inr e, b') /\
    buf b' = pre ++ p.
Proof.
  intros Ha. revert i key slot pre p.
  induction Ha as [|k args [Hk Hb] Ha IH]; intros i key slot pre p Hp; cbn [length key_loop].
  { apply strict_prefix_len in Hp. pose proof (len_nonneg p). change (len (bulks [])) with 0 in Hp. lia. }
  apply strict_prefix_bulks in Hp as [Hp|(p' & -> & Hp)].
  - destruct (parseLine_prefix pre k p Hk Hp) as (e & b' & He & -> & Hb'). simpl. eauto 10.
  - rewrite parseLine_at, res_bind_Ok by done.
    rewrite app_assoc. destruct (i =? want); [rewrite Hash_slot, res_bind_Ok by done|]; by apply IH.
Qed.

(** ** Filing fragments *)

(** A fragment as the splitters make it. *)
Definition new_frag (id now : Z) (m : mid) (key req : bytes) : Frag :=
  mkFrag None None None (Some m) id now 0 key [] req [] [] UNKNOWN false false.

Lemma add_frag_eq s now m slot key req resp :
  msgs s !! m = Some resp ->
  add_frag s now m slot key req =
  Ok (mkStore (<[m := set_Body resp (<[slot := next_loc s]> (m_Body resp))]> (msgs s))
        (<[next_loc s := new_frag (uwrap64 (fragId s + 1)) now m key req]> (frags s))
        (msgId s) (uwrap64 (fragId s + 1)) (pool s) (Pos.succ (next_loc s))).
Proof.
  intros Hm. unfold add_frag, fragPool_Get, get_frag, get_msg, put_frag, put_msg. simpl.
  rewrite lookup_insert_eq, res_bind_Ok. simpl. rewrite Hm, res_bind_Ok, insert_insert_eq. done.
Qed.

Lemma set_Body_twice m b b' : set_Body (set_Body m b) b' = set_Body m b'.
Proof. done. Qed.

(** Filing one fragment per entry of a list of slots. *)
Definition filed (s s' : Store) (m : mid) (now : Z) (body : gmap Z fid) (slot : Z) (key req : bytes) : Prop :=
  exists f id, body !! slot = Some f /\ (next_loc s <= f)%positive /\
    frags s' !! f = Some (new_frag id now m key req).

Lemma each_add_frag {A} (slot : A -> Z) (key req : A -> bytes) now m l s resp :
  msgs s !! m = Some resp -> NoDup (map slot l) ->
  exists s' body, each (fun s a => add_frag s now m (slot a) (key a) (req a)) s l = Ok s' /\
    msgs s' = <[m := set_Body resp body]> (msgs s) /\
    (forall a, a ∈ l -> filed s s' m now body (slot a) (key a) (req a)) /\
    (forall k, k ∉ map slot l -> body !! k = m_Body resp !! k) /\
    (forall f, (f < next_loc s)%positive -> frags s' !! f = frags s !! f) /\
    (next_loc s <= next_loc s')%positive /\ pool s' = pool s /\ msgId s' = msgId s.
Proof.
  revert s resp. induction l as [|a l IH]; intros s resp Hm Hn; cbn [each map].
  { exists s, (m_Body resp). split; [done|]. split.
    { rewrite insert_id; [done|]. rewrite Hm. by destruct resp. }
    split_and!; try done. by intros a Ha%elem_of_nil. }
  cbn [map] in Hn. apply NoDup_cons in Hn as [Ha Hn].
  rewrite (add_frag_eq _ _ _ _ _ _ _ Hm), res_bind_Ok.
  match goal with |- context [each _ ?s1 _] => set (s1' := s1) end.
  edestruct (IH s1') as (s' & body & -> & Hms & Hin & Hout & Hold & Hnx & Hpool & Hid);
    [apply lookup_insert_eq|done|].
  exists s', body. split; [done|]. split.
  { rewrite Hms. subst s1'. simpl. by rewrite insert_insert_eq, set_Body_twice. }
  assert (next_loc s1' = Pos.succ (next_loc s)) as Hs1 by done.
  split_and!; [| | |lia|done|done].
  - intros x [->|Hx]%elem_of_cons.
    + exists (next_loc s), (uwrap64 (fragId s + 1)). rewrite Hout by done. simpl.
      rewrite lookup_insert_eq. split; [done|]. split; [lia|].
      rewrite Hold by (rewrite Hs1; lia). subst s1'. simpl. by rewrite lookup_insert_eq.
    + destruct (Hin x Hx) as (f & id & ? & ? & ?). exists f, id. rewrite Hs1 in *. split_and!; done || lia.
  - intros k Hk. apply not_elem_of_cons in Hk as [Hk1 Hk2]. rewrite Hout by done. simpl.
    by rewrite lookup_insert_ne.
  - intros f Hf. rewrite Hold by (rewrite Hs1; lia). subst s1'. simpl.
    by rewrite lookup_insert_ne by lia.
Qed.

(** The keys of a slot are those that hash to it, in order. *)
Lemma group_from keys fr s :
  (fold_left add_key keys fr) !! s =
  match default [] (fr !! s) ++ filter (fun k => slot_of k = s) keys with
  | [] => fr !! s
  | l => Some l
  end.
Proof.
  revert fr. induction keys as [|k keys IH]; intros fr; simpl.
  { rewrite app_nil_r. destruct (fr !! s) as [[|]|]; done. }
  rewrite IH, filter_cons. unfold add_key at 1 2. case_decide as Hd.
  - subst s. rewrite lookup_insert_eq. simpl. rewrite <- app_assoc. simpl.
    by destruct (default [] (fr !! slot_of k)).
  - by rewrite !lookup_insert_ne by done.
Qed.

Lemma group_lookup keys s :
  group keys !! s = match filter (fun k => slot_of k = s) keys with [] => None | l => Some l end.
Proof. unfold group. rewrite group_from, lookup_empty. done. Qed.

Lemma group2_from ps fr s :
  (fold_left add_pair ps fr) !! s =
  match default [] (fr !! s) ++ filter (fun p => slot_of p.1 = s) ps with
  | [] => fr !! s
  | l => Some l
  end.
Proof.
  revert fr. induction ps as [|k ps IH]; intros fr; simpl.
  { rewrite app_nil_r. destruct (fr !! s) as [[|]|]; done. }
  rewrite IH, filter_cons. unfold add_pair at 1 2. case_decide as Hd.
  - subst s. rewrite lookup_insert_eq. simpl. rewrite <- app_assoc. simpl.
    by destruct (default [] (fr !! slot_of k.1)).
  - by rewrite !lookup_insert_ne by done.
Qed.

Lemma group2_lookup ps s :
  group2 ps !! s = match filter (fun p => slot_of p.1 = s) ps with [] => None | l => Some l end.
Proof. unfold group2. rewrite group2_from, lookup_empty. done. Qed.

(** The request of a fragment is an ordinary request. *)
Lemma frag_req_request name n ks :
  name = crlf ++ bulk n -> frag_req (len ks + 1) name ks = request (n :: ks).
Proof.
  intros ->. unfold frag_req, request. rewrite len_cons, Z.add_comm, bulks_cons, <- app_assoc. done.
Qed.

Lemma mget_request ks : frag_req (len ks + 1) mget_name ks = request (str "mget" :: ks).
Proof. by apply frag_req_request. Qed.
Lemma del_request ks : frag_req (len ks + 1) del_name ks = request (str "del" :: ks).
Proof. by apply frag_req_request. Qed.
Lemma mset_request ps : frag_req (len ps * 2 + 1) mset_name (flatten ps) = request (str "mset" :: flatten ps).
Proof.
  replace (len ps * 2) with (len (flatten ps)); [by apply frag_req_request|].
  induction ps as [|p ps IH]; [done|]. change (flatten (p :: ps)) with (p.1 :: p.2 :: flatten ps).
  rewrite !len_cons, IH. lia.
Qed.

Lemma each_ext {A} (f g : Store -> A -> res Store) s l :
  (forall s a, a ∈ l -> f s a = g s a) -> each f s l = each g s l.
Proof.
  revert s. induction l as [|a l IH]; intros s Hfg; simpl; [done|].
  rewrite Hfg by left. destruct (g s a); simpl; try done. apply IH. intros. apply Hfg. by right.
Qed.

Section split.
Context `{MapRange}.

Lemma range_nodup {V} (fr : gmap Z V) : NoDup (map fst (range fr)).
Proof.
  change (map fst (range fr)) with ((range fr).*1). rewrite range_perm. apply NoDup_fst_map_to_list.
Qed.

Lemma range_elem {V} (fr : gmap Z V) k v : (k, v) ∈ range fr <-> fr !! k = Some v.
Proof. rewrite range_perm. apply elem_of_map_to_list. Qed.

Lemma range_keys {V} (fr : gmap Z V) k : k ∈ map fst (range fr) <-> is_Some (fr !! k).
Proof.
  change (map fst (range fr)) with ((range fr).*1). rewrite list_elem_of_fmap. split.
  - intros ([k' v] & -> & Hk%range_elem). by exists v.
  - intros [v Hv]. exists (k, v). split; [done|]. by apply range_elem.
Qed.

(** Splitting by slot: exactly one fragment per slot of the map, holding the
    request for that slot's entries. *)
Lemma each_slot {V} (body1 : Store -> Z * list V -> res Store) (key : list V -> bytes)
    (req : list V -> bytes) now m s resp (fr : gmap Z (list V)) :
  (forall s slot vs, vs <> [] -> body1 s (slot, vs) = add_frag s now m slot (key vs) (req vs)) ->
  (forall slot vs, fr !! slot = Some vs -> vs <> []) ->
  msgs s !! m = Some resp -> m_Body resp = ∅ ->
  exists s' body, each body1 s (range fr) = Ok s' /\
    msgs s' = <[m := set_Body resp body]> (msgs s) /\ dom body = dom fr /\
    (forall slot vs, fr !! slot = Some vs -> filed s s' m now body slot (key vs) (req vs)) /\
    (forall f, (f < next_loc s)%positive -> frags s' !! f = frags s !! f) /\
    (next_loc s <= next_loc s')%positive /\ pool s' = pool s.
Proof.
  intros Hb Hne Hm Hbody.
  destruct (each_add_frag fst (fun e => key e.2) (fun e => req e.2) now m (range fr) s resp Hm (range_nodup fr))
    as (s' & body & He & Hms & Hin & Hout & Hold & Hnx & Hpool & _).
  exists s', body. split.
  { rewrite <- He. apply each_ext. intros s0 [slot vs] Hv%range_elem. apply Hb. eauto. }
  split; [done|]. split; [|split_and!; try done].
  - apply set_eq. intros k. rewrite !elem_of_dom. split; intros Hk.
    + destruct (decide (k ∈ map fst (range fr))) as [Hi|Hi]; [by apply range_keys|].
      rewrite Hout, Hbody, lookup_empty in Hk by done. by destruct Hk.
    + destruct Hk as [vs Hv]. apply range_elem in Hv. destruct (Hin _ Hv) as (f & id & Hf & _). by exists f.
  - intros slot vs Hv%range_elem. apply (Hin _ Hv).
Qed.

Lemma group_nonempty keys slot ks : group keys !! slot = Some ks -> ks <> [].
Proof. rewrite group_lookup. destruct (filter _ keys); congruence. Qed.
Lemma group2_nonempty ps slot l : group2 ps !! slot = Some l -> l <> [].
Proof. rewrite group2_lookup. destruct (filter _ ps); congruence. Qed.

Definition first_key (ks : list bytes) : bytes := default [] (head ks).
Definition first_pair_key (ps : list (bytes * bytes)) : bytes := default [] (fst <$> head ps).

Lemma keys_frag_add name n now m s slot ks :
  name = crlf ++ bulk n -> ks <> [] ->
  keys_frag name now m s (slot, ks) = add_frag s now m slot (first_key ks) (request (n :: ks)).
Proof.
  intros Hn Hk. unfold keys_frag. destruct ks as [|k ks]; [done|].
  change (index (k :: ks) 0) with (Ok k). rewrite res_bind_Ok. by rewrite (frag_req_request name n).
Qed.

Lemma pairs_frag_add now m s slot ps :
  ps <> [] ->
  pairs_frag now m s (slot, ps) =
  add_frag s now m slot (first_pair_key ps) (request (str "mset" :: flatten ps)).
Proof.
  intros Hk. unfold pairs_frag. destruct ps as [|[k v] ps]; [done|].
  change (index ((k, v) :: ps) 0) with (Ok (k, v)). rewrite res_bind_Ok.
  change (concat (map _ _)) with (flatten ((k, v) :: ps)). by rewrite (mset_request ((k, v) :: ps)).
Qed.
End split.

(** ** Decoding a request *)

Section decode.
Context `{MapRange} (MsgMaxLength : Z).

Definition header (n : Z) : bytes := (42 :: Itoa n) ++ crlf.

Lemma request_header cmd args :
  request (cmd :: args) = header (len args + 1) ++ bulk cmd ++ bulks args.
Proof.
  unfold request, header. rewrite len_cons, Z.add_comm, bulks_cons.
  by rewrite <- app_assoc.
Qed.

Lemma len_toLower s : len (toLower s) = len s.
Proof. unfold toLower, len. by rewrite length_map. Qed.

Lemma len_bulk_toLower k : len (bulk (toLower k)) = len (bulk k).
Proof. unfold bulk. by rewrite !len_cons, !len_app, len_toLower. Qed.

Lemma len_request_lower cmd args : len (request (toLower cmd :: args)) = len (request (cmd :: args)).
Proof. by rewrite !request_header, !len_app, len_bulk_toLower. Qed.

(** The name is lowered in place. *)
Lemma lower_in_place pre cmd tl :
  mkBuf (copy_at (buf (at_ (pre ++ bulk cmd) tl)) (r (at_ (pre ++ bulk cmd) tl) - 2 - len cmd) (toLower cmd))
    (r (at_ (pre ++ bulk cmd) tl)) = at_ (pre ++ bulk (toLower cmd)) tl.
Proof.
  pose proof (len_nonneg pre). pose proof (len_nonneg cmd). pose proof (len_nonneg tl).
  set (hd := pre ++ (36 :: Itoa (len cmd)) ++ crlf). pose proof (len_nonneg hd).
  assert (forall k, len k = len cmd -> pre ++ bulk k = hd ++ k ++ crlf) as Hb.
  { intros k Hk. unfold hd, bulk. rewrite Hk. by rewrite <- !app_assoc. }
  rewrite !Hb by (rewrite ?len_toLower; done). unfold at_. cbn [buf r].
  rewrite !len_app, len_toLower. change (len crlf) with 2. f_equal.
  replace (len hd + (len cmd + 2) - 2 - len cmd) with (len hd) by lia.
  rewrite copy_at_fits by (rewrite ?len_app, ?len_toLower; change (len crlf) with 2; lia).
  rewrite len_toLower, <- !app_assoc. f_equal.
  - by rewrite subl_head.
  - f_equal. rewrite subl_app_r by lia. rewrite len_app.
    replace (len hd + len cmd - len hd) with (len cmd) by lia.
    replace (len hd + len (cmd ++ crlf ++ tl) - len hd) with (len (cmd ++ crlf ++ tl)) by lia.
    by rewrite subl_tail.
Qed.

(** The type of a request, with the size limit. *)
Definition request_type (bs cmd : bytes) (n : Z) : Command :=
  if MsgMaxLength <? len bs then ReqTooLarge else (Transform2Type cmd n).1.

Lemma Decode_head s choice now c cmd n tl m s1 :
  pool_ok s -> sized cmd -> 0 <= n < 2 ^ 63 - 1 -> msgPool_Get (bump_msgId s) choice = (m, s1) ->
  let bs := header (n + 1) ++ bulk cmd ++ tl in
  Decode MsgMaxLength s choice now c bs =
  ('(err, s3, b) ← dispatch (put_msg s1 m (set_head zeroMsg (msgId s1) c (request_type bs cmd n))) now n m
                     (at_ (header (n + 1) ++ bulk (toLower cmd)) tl);
   match err with
   | Some e => Ok (Decoded None (Some e) 0 (buf b) s3)
   | None => Ok (Decoded (Some m) None (ReadSize b) (buf b) s3)
   end).
Proof.
  intros Hs Hc Hn Hg bs. unfold Decode. rewrite NewBuffer_at.
  assert (pool_ok (bump_msgId s)) as Hs' by (destruct Hs; by split).
  destruct (msgPool_Get_clean _ _ _ _ Hs' Hg) as (Hz & _ & _ & _).
  assert (0 < len bs) as Hbs.
  { unfold bs, header. rewrite <- app_assoc, <- app_comm_cons, len_cons. pose proof (len_nonneg (Itoa (n+1) ++ crlf ++ bulk cmd ++ tl)). lia. }
  unfold Empty. change (buf (at_ [] bs)) with bs. replace (len bs <? 1) with false by lia.
  assert (bs = (42 :: Itoa (n + 1)) ++ crlf ++ (bulk cmd ++ tl)) as Hsplit
    by (unfold bs, header; by rewrite <- app_assoc).
  rewrite Hsplit at 1. rewrite ReadLine_at by (apply count_line; lia). rewrite res_bind_Ok.
  change (index (42 :: Itoa (n + 1)) 0) with (Ok 42). rewrite res_bind_Ok.
  rewrite Z.eqb_refl. cbn [negb]. rewrite subl_tail1, parseLen_Itoa by lia.
  replace ((n + 1 <? 1) || false) with false by lia.
  rewrite app_nil_l, parseLine_at, res_bind_Ok, Hg by done. unfold get_msg. rewrite Hz, res_bind_Ok.
  replace (n + 1 - 1) with n by lia.
  destruct (Transform2Type cmd n) as [t low] eqn:Ht.
  assert (low = toLower cmd) as ->.
  { unfold Transform2Type in Ht. destruct (assoc (toLower cmd) CommandStr2Type); by simplify_eq. }
  rewrite lower_in_place. fold (header (n + 1)). unfold TotalSize, sizeTooLarge.
  replace (len (buf (at_ (header (n + 1) ++ bulk (toLower cmd)) tl))) with (len bs).
  2:{ unfold bs, at_. cbn [buf]. by rewrite !len_app, len_bulk_toLower, Z.add_assoc. }
  unfold request_type. rewrite Ht. done.
Qed.

Definition is_eval (t : Command) : bool := match t with ReqEval | ReqEvalsha => true | _ => false end.
Definition is_multi (t : Command) : bool :=
  match t with ReqMget | ReqDel | ReqMset => true | _ => false end.

(** Which argument is the key, and the type after the arity check of [Eval]. *)
Definition key_pos (t : Command) : nat := if is_eval t then 2 else 0.
Definition final_type (t : Command) (n : Z) : Command :=
  if is_eval t && (n <? 3) then ReqWrongArgumentsNumber else t.

Lemma dispatch_single s now n m b resp :
  msgs s !! m = Some resp -> is_multi (m_Type resp) = false ->
  dispatch s now n m b =
  ('(x, b) ← key_loop (Z.to_nat n) 0 (Z.of_nat (key_pos (m_Type resp))) [] 0 b;
   let s := put_msg s m (set_Type resp (final_type (m_Type resp) n)) in
   match x with
   | inr err => Ok (Some err, s, b)
   | inl (key, slot) => s ← single_frag s now m key slot b; Ok (None, s, b)
   end).
Proof.
  intros Hm Hmulti. unfold dispatch. unfold get_msg at 1. rewrite Hm, res_bind_Ok.
  assert (put_msg s m (set_Type resp (m_Type resp)) = s) as Hid.
  { unfold put_msg, with_msgs. rewrite insert_id by (rewrite Hm; by destruct resp). by destruct s. }
  destruct (is_eval (m_Type resp)) eqn:He.
  - unfold final_type, key_pos. rewrite He. simpl.
    assert (forall A (x y : A), match m_Type resp with ReqEval | ReqEvalsha => x | _ => y end = x) as Hx
      by (intros; by destruct (m_Type resp)).
    destruct (m_Type resp) eqn:Et; try done;
      unfold Eval, get_msg; rewrite Hm, res_bind_Ok; case_if; rewrite ?Hid; done.
  - unfold final_type, key_pos. rewrite He. simpl. rewrite Hid.
    by destruct (m_Type resp).
Qed.

Lemma single_frag_eq s now m key slot pre rest resp :
  msgs s !! m = Some resp -> m_Body resp = ∅ ->
  exists s' f id, single_frag s now m key slot (at_ pre rest) = Ok s' /\
    msgs s' = <[m := set_Body resp {[slot := f]}]> (msgs s) /\
    frags s' !! f = Some (new_frag id now m key pre).
Proof.
  intros Hm Hb. unfold single_frag. rewrite ReadBuf_at, res_bind_Ok, (add_frag_eq _ _ _ _ _ _ _ Hm), Hb.
  eexists _, (next_loc s), _. split; [done|]. simpl. split; [done|]. apply lookup_insert_eq.
Qed.

(** C15: a complete request for a single-key command, whatever follows it in the
    buffer, decodes to one message with one fragment: the fragment's request
    is the client's request with the name in lower case, its key and slot are
    those of the command's key argument (the third argument of the scripts),
    exactly the request's bytes are consumed and the rest stays as it was. *)
Theorem Decode_single s choice now c cmd args rest
    (Hs : pool_ok s) (Hc : sized cmd) (Ha : Forall arg_ok args) (Hn : len args < 2 ^ 63 - 1)
    (Ht : is_multi (request_type (request (cmd :: args) ++ rest) cmd (len args)) = false) :
  let t := request_type (request (cmd :: args) ++ rest) cmd (len args) in
  exists m s' f id id', Decode MsgMaxLength s choice now c (request (cmd :: args) ++ rest) =
      Ok (Decoded (Some m) None (len (request (cmd :: args))) (request (toLower cmd :: args) ++ rest) s') /\
    msgs s' !! m = Some (set_Body (set_head zeroMsg id c (final_type t (len args)))
      {[match args !! key_pos t with Some k => slot_of k | None => 0 end := f]}) /\
    frags s' !! f = Some (new_frag id' now m (default [] (args !! key_pos t)) (request (toLower cmd :: args))).
Proof.
  intros t. destruct (msgPool_Get (bump_msgId s) choice) as [m s1] eqn:Hg.
  pose proof (len_nonneg args). assert (request (cmd :: args) ++ rest =
    header (len args + 1) ++ bulk cmd ++ (bulks args ++ rest)) as Hreq
    by (by rewrite request_header, <- !app_assoc).
  unfold t in *. clear t. rewrite Hreq in *. set (bs := header _ ++ _) in *.
  unfold bs at 1. rewrite (Decode_head s choice now c cmd (len args) _ m s1) by (done || lia). fold bs.
  rewrite (dispatch_single _ _ _ _ _ _ (lookup_insert_eq _ _ _)) by done.
  cbn [m_Type set_head]. set (t := request_type bs cmd (len args)) in *.
  replace (Z.to_nat (len args)) with (length args) by (unfold len; lia).
  rewrite key_loop_at, res_bind_Ok by done.
  rewrite (proj2 (Z.ltb_ge (Z.of_nat (key_pos t)) 0)) by apply Nat2Z.is_nonneg. rewrite Z.sub_0_r, Nat2Z.id.
  set (M := set_Type _ _).
  assert (M = set_head zeroMsg (msgId s1) c (final_type t (len args))) as HM by done.
  set (pre := (header (len args + 1) ++ bulk (toLower cmd)) ++ bulks args).
  assert (pre = request (toLower cmd :: args)) as Hpre by (unfold pre; by rewrite request_header, <- app_assoc).
  destruct (single_frag_eq (put_msg (put_msg s1 m (set_head zeroMsg (msgId s1) c t)) m M) now m
    (default [] (args !! key_pos t)) (match args !! key_pos t with Some k => slot_of k | None => 0 end)
    pre rest M) as (s' & f & id & Hsf & Hms & Hfr); [apply lookup_insert_eq|done|].
  assert (match args !! key_pos t with Some k => (k, slot_of k) | None => ([], 0) end =
    (default [] (args !! key_pos t), match args !! key_pos t with Some k => slot_of k | None => 0 end)) as ->
    by (by destruct (args !! key_pos t)).
  rewrite Hsf, !res_bind_Ok. exists m, s', f, (msgId s1), id. split.
  - unfold ReadSize, at_. cbn [buf r]. by rewrite Hpre, len_request_lower.
  - rewrite Hms, lookup_insert_eq, HM. rewrite Hpre in Hfr. done.
Qed.

(** The two commands split by key, and their names. *)
Definition keys_name (t : Command) : option bytes :=
  match t with ReqMget => Some (str "mget") | ReqDel => Some (str "del") | _ => None end.

Lemma dispatch_keys s now n m b resp name :
  msgs s !! m = Some resp -> keys_name (m_Type resp) = Some name ->
  dispatch s now n m b =
  ('(err, resp, b) ← Frag1 n resp b;
   let s := put_msg s m resp in
   match err with
   | Some e => Ok (Some e, s, b)
   | None => s ← (resp ← get_msg s m; each (keys_frag (crlf ++ bulk name) now m) s (range (m_Frags resp)));
             Ok (None, s, b)
   end).
Proof.
  intros Hm Hn. unfold dispatch. unfold get_msg at 1. rewrite Hm, res_bind_Ok.
  destruct (m_Type resp); try done; by injection Hn as <-.
Qed.

(** C13: a complete [mget] or [del] request decodes to one message that records
    all keys in request order, split into exactly one fragment per hash slot
    that occurs: the fragment of a slot asks for precisely the keys of that
    slot, in order, so that the fragments partition the request. *)
Theorem Decode_multi_keys s choice now c cmd args rest name
    (Hs : pool_ok s) (Hc : sized cmd) (Ha : Forall arg_ok args) (Hn : len args < 2 ^ 63 - 1)
    (Ht : keys_name (request_type (request (cmd :: args) ++ rest) cmd (len args)) = Some name) :
  let t := request_type (request (cmd :: args) ++ rest) cmd (len args) in
  exists m s' body id, Decode MsgMaxLength s choice now c (request (cmd :: args) ++ rest) =
      Ok (Decoded (Some m) None (len (request (cmd :: args))) (request (toLower cmd :: args) ++ rest) s') /\
    msgs s' !! m = Some (set_Body (set_Frags (set_head zeroMsg id c t) args (group args)) body) /\
    (forall slot, body !! slot = None <-> filter (fun k => slot_of k = slot) args = []) /\
    (forall slot f, body !! slot = Some f -> exists id',
       frags s' !! f = Some (new_frag id' now m (first_key (filter (fun k => slot_of k = slot) args))
         (request (name :: filter (fun k => slot_of k = slot) args)))).
Proof.
  intros t. destruct (msgPool_Get (bump_msgId s) choice) as [m s1] eqn:Hg.
  pose proof (len_nonneg args). assert (request (cmd :: args) ++ rest =
    header (len args + 1) ++ bulk cmd ++ (bulks args ++ rest)) as Hreq
    by (by rewrite request_header, <- !app_assoc).
  unfold t in *. clear t. rewrite Hreq in *. set (bs := header _ ++ _) in *.
  unfold bs at 1. rewrite (Decode_head s choice now c cmd (len args) _ m s1) by (done || lia). fold bs.
  set (t := request_type bs cmd (len args)) in *.
  rewrite (dispatch_keys _ _ _ _ _ _ name (lookup_insert_eq _ _ _)) by done.
  unfold Frag1. replace (Z.to_nat (len args)) with (length args) by (unfold len; lia).
  rewrite Frag1_loop_at, res_bind_Ok by done. set (M := set_Frags _ _ _).
  assert (M = set_Frags (set_head zeroMsg (msgId s1) c t) args (group args)) as HM by done.
  cbn zeta. rewrite get_put_msg, res_bind_Ok.
  replace (m_Frags M) with (group args) by (by rewrite HM).
  edestruct (each_slot (keys_frag (crlf ++ bulk name) now m) first_key (fun ks => request (name :: ks)) now m
    (put_msg (put_msg s1 m (set_head zeroMsg (msgId s1) c t)) m M) M (group args))
    as (s' & body & -> & Hms & Hdom & Hfile & _).
  { intros. by apply keys_frag_add. }
  { apply group_nonempty. }
  { apply lookup_insert_eq. }
  { done. }
  rewrite !res_bind_Ok. exists m, s', body, (msgId s1).
  assert (forall slot, body !! slot = None <-> group args !! slot = None) as Hnone.
  { intros slot. rewrite <- !not_elem_of_dom, Hdom. done. }
  split; [|split; [by rewrite Hms, lookup_insert_eq, HM|split]].
  - unfold ReadSize, at_. cbn [buf r]. rewrite <- (len_request_lower cmd), request_header, <- app_assoc. done.
  - intros slot. rewrite Hnone, group_lookup. destruct (filter _ args); done.
  - intros slot f Hf. destruct (group args !! slot) as [ks|] eqn:Hk.
    + destruct (Hfile _ _ Hk) as (f' & id & Hf' & _ & Hfr). simplify_eq.
      rewrite group_lookup in Hk. exists id. rewrite Hfr. destruct (filter _ args); by simplify_eq.
    + apply Hnone in Hk. congruence.
Qed.

Lemma dispatch_mset s now n m b resp :
  msgs s !! m = Some resp -> m_Type resp = ReqMset ->
  dispatch s now n m b =
  ('(err, resp, b) ← Frag2 n resp b;
   let s := put_msg s m resp in
   match err with
   | Some e => Ok (Some e, s, b)
   | None => s ← (resp ← get_msg s m; each (pairs_frag now m) s (range (m_Frags2 resp)));
             Ok (None, s, b)
   end).
Proof. intros Hm Hn. unfold dispatch. unfold get_msg at 1. by rewrite Hm, res_bind_Ok, Hn. Qed.

Lemma len_flatten ps : len (flatten ps) = 2 * len ps.
Proof.
  induction ps as [|p ps IH]; [done|]. change (flatten (p :: ps)) with (p.1 :: p.2 :: flatten ps).
  rewrite !len_cons, IH. lia.
Qed.

(** C14: a complete [mset] request decodes to one message split into exactly one
    fragment per hash slot of its keys; the fragment of a slot sets precisely
    the pairs whose key has that slot, in order, values included. *)
Theorem Decode_mset s choice now c cmd ps rest
    (Hs : pool_ok s) (Hc : sized cmd) (Ha : Forall (fun p => arg_ok p.1 /\ arg_ok p.2) ps)
    (Hn : 2 * len ps < 2 ^ 63 - 1)
    (Ht : request_type (request (cmd :: flatten ps) ++ rest) cmd (2 * len ps) = ReqMset) :
  exists m s' body id, Decode MsgMaxLength s choice now c (request (cmd :: flatten ps) ++ rest) =
      Ok (Decoded (Some m) None (len (request (cmd :: flatten ps)))
            (request (toLower cmd :: flatten ps) ++ rest) s') /\
    msgs s' !! m = Some (set_Body (set_Frags2 (set_head zeroMsg id c ReqMset) ps.*1 (group2 ps)) body) /\
    (forall slot, body !! slot = None <-> filter (fun p => slot_of p.1 = slot) ps = []) /\
    (forall slot f, body !! slot = Some f -> exists id',
       frags s' !! f = Some (new_frag id' now m (first_pair_key (filter (fun p => slot_of p.1 = slot) ps))
         (request (str "mset" :: flatten (filter (fun p => slot_of p.1 = slot) ps))))).
Proof.
  destruct (msgPool_Get (bump_msgId s) choice) as [m s1] eqn:Hg.
  pose proof (len_nonneg ps). assert (request (cmd :: flatten ps) ++ rest =
    header (2 * len ps + 1) ++ bulk cmd ++ (bulks (flatten ps) ++ rest)) as Hreq
    by (by rewrite request_header, len_flatten, <- !app_assoc).
  rewrite Hreq in *. set (bs := header _ ++ _) in *.
  unfold bs at 1. rewrite (Decode_head s choice now c cmd (2 * len ps) _ m s1) by (done || lia). fold bs.
  rewrite Ht. rewrite (dispatch_mset _ _ _ _ _ _ (lookup_insert_eq _ _ _)) by done.
  unfold Frag2. replace (Z.to_nat ((2 * len ps + 1) / 2)) with (length ps).
  2:{ rewrite (Z.mul_comm 2), Z.div_add_l by lia. change (1 / 2) with 0. unfold len. lia. }
  rewrite Frag2_loop_at, res_bind_Ok by done. set (M := set_Frags2 _ _ _).
  assert (M = set_Frags2 (set_head zeroMsg (msgId s1) c ReqMset) ps.*1 (group2 ps)) as HM by done.
  cbn zeta. rewrite get_put_msg, res_bind_Ok.
  replace (m_Frags2 M) with (group2 ps) by (by rewrite HM).
  edestruct (each_slot (pairs_frag now m) first_pair_key (fun l => request (str "mset" :: flatten l)) now m
    (put_msg (put_msg s1 m (set_head zeroMsg (msgId s1) c ReqMset)) m M) M (group2 ps))
    as (s' & body & -> & Hms & Hdom & Hfile & _).
  { intros. by apply pairs_frag_add. }
  { apply group2_nonempty. }
  { apply lookup_insert_eq. }
  { done. }
  rewrite !res_bind_Ok. exists m, s', body, (msgId s1).
  assert (forall slot, body !! slot = None <-> group2 ps !! slot = None) as Hnone.
  { intros slot. rewrite <- !not_elem_of_dom, Hdom. done. }
  split; [|split; [by rewrite Hms, lookup_insert_eq, HM|split]].
  - unfold ReadSize, at_. cbn [buf r].
    by rewrite <- (len_request_lower cmd), request_header, len_flatten, <- app_assoc.
  - intros slot. rewrite Hnone, group2_lookup. destruct (filter _ ps); done.
  - intros slot f Hf. destruct (group2 ps !! slot) as [ks|] eqn:Hk.
    + destruct (Hfile _ _ Hk) as (f' & id & Hf' & _ & Hfr). simplify_eq.
      rewrite group2_lookup in Hk. exists id. rewrite Hfr. destruct (filter _ ps); by simplify_eq.
    + apply Hnone in Hk. congruence.
Qed.

(** ** Incomplete requests *)

Lemma unflatten k : forall args, len args = 2 * Z.of_nat k -> exists ps, args = flatten ps /\ length ps = k.
Proof.
  induction k as [|k IH]; intros args Hl.
  { exists []. split; [|done]. by apply len_0_nil. }
  destruct args as [|x [|y args]]; rewrite ?len_cons, ?len_nil in Hl; [lia|lia|].
  destruct (IH args) as (ps & -> & Hk); [lia|]. exists ((x, y) :: ps). simpl. by rewrite Hk.
Qed.

Lemma Forall_flatten P ps :
  Forall P (flatten ps) -> Forall (fun p : bytes * bytes => P p.1 /\ P p.2) ps.
Proof.
  induction ps as [|[k v] ps IH]; [constructor|]. change (flatten ((k, v) :: ps)) with (k :: v :: flatten ps).
  intros [Hk [Hv Hps]%Forall_cons]%Forall_cons. constructor; [done|]. by apply IH.
Qed.

Lemma dispatch_prefix s now args m pre p resp :
  msgs s !! m = Some resp -> Forall arg_ok args -> strict_prefix p (bulks args) ->
  (m_Type resp = ReqMset -> exists k, len args = 2 * k) ->
  exists e s' b', incomplete e /\ dispatch s now (len args) m (at_ pre p) = Ok (Some e, s', b') /\
    buf b' = pre ++ p.
Proof.
  intros Hm Ha Hp Heven. assert (Z.to_nat (len args) = length args) as Hlen by (unfold len; lia).
  destruct (is_multi (m_Type resp)) eqn:Hmulti.
  2:{ rewrite (dispatch_single _ _ _ _ _ _ Hm Hmulti), Hlen.
      destruct (key_loop_prefix args 0 (Z.of_nat (key_pos (m_Type resp))) [] 0 pre p Ha Hp)
        as (e & b' & He & -> & Hb). eexists _, _, _. split; [done|]. split; [done|]. done. }
  destruct (keys_name (m_Type resp)) as [name|] eqn:Hname.
  - rewrite (dispatch_keys _ _ _ _ _ _ _ Hm Hname). unfold Frag1. rewrite Hlen.
    destruct (Frag1_loop_prefix args (set_Frags resp (m_Keys resp) ∅) pre p Ha Hp)
      as (e & resp' & b' & He & -> & Hb). eexists _, _, _. split; [done|]. split; [done|]. done.
  - assert (m_Type resp = ReqMset) as Ht by (by destruct (m_Type resp)).
    destruct (Heven Ht) as [k Hk]. pose proof (len_nonneg args).
    destruct (unflatten (Z.to_nat k) args) as (ps & -> & Hps); [lia|].
    rewrite (dispatch_mset _ _ _ _ _ _ Hm Ht). unfold Frag2.
    replace (Z.to_nat ((len (flatten ps) + 1) / 2)) with (length ps).
    2:{ rewrite Hk, (Z.mul_comm 2), Z.div_add_l by lia. change (1 / 2) with 0. lia. }
    destruct (Frag2_loop_prefix ps (set_Frags2 resp (m_Keys resp) ∅) pre p (Forall_flatten _ _ Ha) Hp)
      as (e & resp' & b' & He & -> & Hb). eexists _, _, _. split; [done|]. split; [done|]. done.
Qed.

(** An [mset] always has an even number of arguments. *)
Lemma Transform2Type_mset_even cmd n : (Transform2Type cmd n).1 = ReqMset -> exists k, n = 2 * k.
Proof.
  unfold Transform2Type. destruct (assoc (toLower cmd) CommandStr2Type) as [c|] eqn:Hc; [|done].
  destruct (entry_facts _ _ Hc) as (_ & _ & a & Ha). simpl. intros Ht.
  destruct (checkArgs_spec c n a Ha) as [H1 H2].
  assert (arity_ok a n \/ ~ arity_ok a n) as [Hok|Hno].
  { destruct a; simpl; try lia. destruct (decide ((2 <= n) /\ n mod 2 = 0)) as [[? ?]|Hd].
    - left. exists (n / 2). pose proof (Z.div_mod n 2). lia.
    - right. intros (k & -> & Hk). apply Hd. split; [lia|]. rewrite Z.mul_comm. apply Z.mod_mul. lia. }
  - rewrite H1 in Ht by done. subst c.
    assert (a = NargsEvenInf) as -> by (vm_compute in Ha; congruence).
    destruct Hok as (k & -> & _). by exists k.
  - by rewrite H2 in Ht.
Qed.

Lemma toLower_app a b : toLower (a ++ b) = toLower a ++ toLower b.
Proof. apply map_app. Qed.

Lemma toLower_bulk cmd : toLower (bulk (toLower cmd)) = toLower (bulk cmd).
Proof.
  unfold bulk. rewrite len_toLower. change (toLower (36 :: ?l)) with (36 :: toLower l).
  by rewrite !toLower_app, toLower_idem.
Qed.

(** An error after which the caller waits for more bytes. *)
Definition waits (e : error) : Prop := incomplete e \/ e = EEngine ErrIncompletePacket.

Lemma Decode_no_line s choice now c p :
  10 ∉ p -> Decode MsgMaxLength s choice now c p =
    Ok (Decoded None (Some (EEngine ErrIncompletePacket)) 0 p s).
Proof.
  intros Hlf. unfold Decode. destruct (Empty (NewBuffer p)); [done|].
  rewrite NewBuffer_at. by destruct (ReadLine_short [] p Hlf) as (e & _ & ->).
Qed.

Lemma Decode_no_name s choice now c n cmd p :
  0 <= n < 2 ^ 63 - 1 -> sized cmd -> strict_prefix p (bulk cmd) ->
  exists e, incomplete e /\ Decode MsgMaxLength s choice now c (header (n + 1) ++ p) =
    Ok (Decoded None (Some e) 0 (header (n + 1) ++ p) (bump_msgId s)).
Proof.
  intros Hn Hc Hp. unfold Decode. rewrite NewBuffer_at. unfold Empty.
  change (buf (at_ [] (header (n + 1) ++ p))) with (header (n + 1) ++ p).
  replace (len (header (n + 1) ++ p) <? 1) with false.
  2:{ unfold header. simpl. rewrite len_cons. pose proof (len_nonneg ((Itoa (n + 1) ++ crlf) ++ p)). lia. }
  assert (header (n + 1) ++ p = (42 :: Itoa (n + 1)) ++ crlf ++ p) as Hsplit
    by (unfold header; by rewrite <- app_assoc).
  replace (at_ [] (header (n + 1) ++ p)) with (at_ [] ((42 :: Itoa (n + 1)) ++ crlf ++ p)) by (by rewrite Hsplit).
  rewrite ReadLine_at by (apply count_line; lia). rewrite res_bind_Ok.
  change (index (42 :: Itoa (n + 1)) 0) with (Ok 42). rewrite res_bind_Ok.
  rewrite Z.eqb_refl. cbn [negb]. rewrite subl_tail1, parseLen_Itoa by lia.
  replace ((n + 1 <? 1) || false) with false by lia.
  edestruct (parseLine_prefix ([] ++ (42 :: Itoa (n + 1)) ++ crlf) cmd p Hc Hp) as (e & b' & He & -> & _).
  exists e. done.
Qed.

(** C32: on any proper prefix of a well-formed request the decoder asks for more
    bytes: it never reports the request as invalid, returns no message,
    consumes nothing, and leaves the buffered bytes as they were up to the
    letter case of the command name. *)
Theorem Decode_prefix_waits s choice now c cmd args p
    (Hs : pool_ok s) (Hc : sized cmd) (Ha : Forall arg_ok args) (Hn : len args < 2 ^ 63 - 1)
    (Hp : strict_prefix p (request (cmd :: args))) :
  exists e bs s', Decode MsgMaxLength s choice now c p = Ok (Decoded None (Some e) 0 bs s') /\
    waits e /\ e <> ECodec ErrInvalidResp /\ toLower bs = toLower p.
Proof.
  assert (forall e, incomplete e -> e <> ECodec ErrInvalidResp) as Hinv.
  { intros e [->|[->| ->]]; done. }
  pose proof (len_nonneg args). rewrite request_header in Hp.
  apply strict_prefix_app in Hp as [Hp|(p1 & -> & Hp)].
  { apply strict_prefix_line in Hp; [|apply count_line; lia]. rewrite Decode_no_line by done.
    eexists _, _, _. split; [done|]. split_and!; [by right|done|done]. }
  apply strict_prefix_app in Hp as [Hp|(p2 & -> & Hp)].
  { destruct (Decode_no_name s choice now c (len args) cmd p1) as (e & He & ->); [lia|done..|].
    eexists _, _, _. split; [done|]. split_and!; [by left|by apply Hinv|done]. }
  destruct (msgPool_Get (bump_msgId s) choice) as [m s1] eqn:Hg.
  rewrite (Decode_head s choice now c cmd (len args) p2 m s1) by (done || lia).
  match goal with |- context [dispatch (put_msg s1 m ?M) _ _ _ _] =>
    destruct (dispatch_prefix (put_msg s1 m M) now args m (header (len args + 1) ++ bulk (toLower cmd)) p2 M
      (lookup_insert_eq _ _ _) Ha Hp) as (e & s' & b' & He & -> & Hb) end.
  { cbn [m_Type set_head]. unfold request_type. case_if; [done|]. apply Transform2Type_mset_even. }
  rewrite res_bind_Ok. eexists _, _, _. split; [done|]. split_and!; [by left|by apply Hinv|].
  rewrite Hb, <- !app_assoc, !toLower_app. by rewrite toLower_bulk.
Qed.

(** A request header that announces no elements, an empty array or the
    null array, is answered with neither a message nor an error. *)
Lemma Decode_empty_array s choice now c rest n
    (Hn : n = str "0" \/ n = str "-1") :
  Decode MsgMaxLength s choice now c ((42 :: n) ++ crlf ++ rest) =
  Ok (Decoded None None 0 ((42 :: n) ++ crlf ++ rest) (bump_msgId s)).
Proof.
  unfold Decode. rewrite NewBuffer_at. unfold Empty.
  change (buf (at_ [] ((42 :: n) ++ crlf ++ rest))) with (42 :: n ++ crlf ++ rest).
  rewrite len_cons. pose proof (len_nonneg (n ++ crlf ++ rest)).
  replace (1 + len (n ++ crlf ++ rest) <? 1) with false by lia.
  rewrite ReadLine_at by (split; [done|]; destruct Hn as [-> | ->]; not_in). rewrite res_bind_Ok.
  change (index (42 :: n) 0) with (Ok 42). rewrite res_bind_Ok, subl_tail1.
  by destruct Hn as [-> | ->].
Qed.
End decode.

(** ** Concrete requests *)

Definition empty_store : Store := mkStore ∅ ∅ 0 0 [] 1%positive.

Lemma pool_ok_empty_store : pool_ok empty_store.
Proof. split; simpl; [by intros ? ?%elem_of_nil|constructor|done]. Qed.

Ltac arg_ok := repeat (apply Forall_cons; split); try apply Forall_nil_2; try done;
  repeat split; try done; try (vm_compute; repeat constructor; discriminate).

Definition sample_get : list bytes := [str "user:1"].

Lemma Decode_single_witness :
  let t := request_type 1024 (request (str "GET" :: sample_get) ++ str "*1") (str "GET") (len sample_get) in
  exists m s' f id id', @Decode sorted_range 1024 empty_store None 5 9%positive (request (str "GET" :: sample_get) ++ str "*1") =
      Ok (Decoded (Some m) None (len (request (str "GET" :: sample_get)))
            (request (toLower (str "GET") :: sample_get) ++ str "*1") s') /\
    msgs s' !! m = Some (set_Body (set_head zeroMsg id 9%positive (final_type t (len sample_get)))
      {[match sample_get !! key_pos t with Some k => slot_of k | None => 0 end := f]}) /\
    frags s' !! f = Some (new_frag id' 5 m (default [] (sample_get !! key_pos t))
      (request (toLower (str "GET") :: sample_get))).
Proof.
  apply (@Decode_single sorted_range 1024 empty_store None 5 9%positive (str "GET") sample_get (str "*1")).
  - apply pool_ok_empty_store.
  - done.
  - unfold sample_get. arg_ok.
  - done.
  - vm_compute. reflexivity.
Defined.

Definition sample_keys : list bytes := [str "a"; str "b"; str "x{a}y"].

Lemma Decode_multi_keys_witness :
  exists m s' body id, @Decode sorted_range 1024 empty_store None 5 9%positive (request (str "mget" :: sample_keys) ++ []) =
      Ok (Decoded (Some m) None (len (request (str "mget" :: sample_keys)))
            (request (toLower (str "mget") :: sample_keys) ++ []) s') /\
    msgs s' !! m = Some (set_Body (set_Frags (set_head zeroMsg id 9%positive
      (request_type 1024 (request (str "mget" :: sample_keys) ++ []) (str "mget") (len sample_keys)))
      sample_keys (group sample_keys)) body) /\
    (forall slot, body !! slot = None <-> filter (fun k => slot_of k = slot) sample_keys = []) /\
    (forall slot f, body !! slot = Some f -> exists id',
       frags s' !! f = Some (new_frag id' 5 m (first_key (filter (fun k => slot_of k = slot) sample_keys))
         (request (str "mget" :: filter (fun k => slot_of k = slot) sample_keys)))).
Proof.
  apply (@Decode_multi_keys sorted_range 1024 empty_store None 5 9%positive (str "mget") sample_keys [] (str "mget")).
  - apply pool_ok_empty_store.
  - done.
  - unfold sample_keys. arg_ok.
  - done.
  - vm_compute. reflexivity.
Defined.

Definition sample_pairs : list (bytes * bytes) := [(str "a", str "1"); (str "b", str "2")].

Lemma Decode_mset_witness :
  exists m s' body id, @Decode sorted_range 1024 empty_store None 5 9%positive (request (str "mset" :: flatten sample_pairs) ++ []) =
      Ok (Decoded (Some m) None (len (request (str "mset" :: flatten sample_pairs)))
            (request (toLower (str "mset") :: flatten sample_pairs) ++ []) s') /\
    msgs s' !! m = Some (set_Body (set_Frags2 (set_head zeroMsg id 9%positive ReqMset)
      sample_pairs.*1 (group2 sample_pairs)) body) /\
    (forall slot, body !! slot = None <-> filter (fun p => slot_of p.1 = slot) sample_pairs = []) /\
    (forall slot f, body !! slot = Some f -> exists id',
       frags s' !! f = Some (new_frag id' 5 m (first_pair_key (filter (fun p => slot_of p.1 = slot) sample_pairs))
         (request (str "mset" :: flatten (filter (fun p => slot_of p.1 = slot) sample_pairs))))).
Proof.
  apply (@Decode_mset sorted_range 1024 empty_store None 5 9%positive (str "mset") sample_pairs []).
  - apply pool_ok_empty_store.
  - done.
  - unfold sample_pairs. arg_ok.
  - done.
  - vm_compute. reflexivity.
Defined.

Lemma Decode_prefix_waits_witness :
  exists e bs s', @Decode sorted_range 1024 empty_store None 5 9%positive (subl (request (str "GET" :: sample_get)) 0 20) =
      Ok (Decoded None (Some e) 0 bs s') /\
    waits e /\ e <> ECodec ErrInvalidResp /\
    toLower bs = toLower (subl (request (str "GET" :: sample_get)) 0 20).
Proof.
  apply (@Decode_prefix_waits sorted_range 1024 empty_store None 5 9%positive (str "GET") sample_get).
  - apply pool_ok_empty_store.
  - done.
  - unfold sample_get. arg_ok.
  - done.
  - exists (subl (request (str "GET" :: sample_get)) 20 100). split; [vm_compute; discriminate|].
    vm_compute. reflexivity.
Defined.

(** The size limit is compared with everything buffered: a small request with
    more requests behind it is rejected. *)
Example Decode_pipeline_too_large :
  match @Decode sorted_range 40 empty_store None 5 9%positive
          (request (str "get" :: sample_get) ++ request (str "get" :: sample_get)) with
  | Ok d => match d_msg d with
            | Some m => m_Type <$> msgs (d_store d) !! m
            | None => None
            end
  | _ => None
  end = Some ReqTooLarge /\ len (request (str "get" :: sample_get)) < 40.
Proof. vm_compute. done. Qed.
