(* ===== verification/CodecS.v ===== *)
(** * The reply decoder

    [core/codec_s.go]: [SRespCodec] finds the end of one Redis reply, attaches it
    to the oldest outstanding fragment of the connection, and assembles the
    replies of a split request.  The recursion of [readReply] on nested arrays
    takes fuel; every call reads at least one line, so the number of buffered
    bytes is always enough. *)

From S2P Require Import Prelude Errors Hashkit Commands Codec Message CodecC.

(** [strings.HasPrefix]. *)
Fixpoint HasPrefix (s p : bytes) : bool :=
  match p, s with
  | [], _ => true
  | c :: p, b :: s => (b =? c) && HasPrefix s p
  | _ :: _, [] => false
  end.

(** [ShortcutOK]: the replies to one or two initialisation commands. *)
Definition ShortcutOK (step : Z) : option bytes :=
  if step =? 1 then Some OK else if step =? 2 then Some (OK ++ OK) else None.

(** [InitializingDecode] on the buffered bytes: the error, and the bytes to
    discard when the connection becomes initialised. *)
Definition InitializingDecode (bs : bytes) (totalStep : Z) : res (option error * option Z) :=
  let b := NewBuffer bs in
  if Empty b then Ok (Some (EEngine ErrIncompletePacket), None)
  else if totalStep <? 1 then Ok (Some (ECodec ErrInvalidInitializing), None)
  else
    match ShortcutOK totalStep with
    | None => Ok (Some (ECodec ErrInvalidInitializing), None)
    | Some want =>
        if (totalStep * len OK <=? TotalSize b) && HasPrefix (PeekAll b) want
        then Ok (None, Some (totalStep * len OK))
        else
          c ← index (PeekAll b) 0;
          if negb (c =? 45) && negb (c =? 43) then Ok (Some (ECodec ErrInvalidInitializing), None)
          else if HasPrefix want (PeekAll b) then Ok (Some (EEngine ErrIncompletePacket), None)
          else Ok (None, None)
    end.

(** The error replies the proxy tells apart, in the order of the tests. *)
Definition error_type (line : bytes) : Command :=
  if HasPrefix line (str "-NOAUTH Authentication required") then RspNeedAuth
  else if HasPrefix line (str "-ERR invalid password") then RspAuthFailed
  else if HasPrefix line (str "-ERR Client sent AUTH, but no password is set") then RspNeedNtAuth
  else if HasPrefix line (str "-ERR AUTH <password> called without any password configured for the default user.") then RspNeedNtAuth
  else if HasPrefix line (str "-MOVED") then RspMoved
  else if HasPrefix line (str "-ASK") then RspAsk
  else RspError.

Definition status_type (line : bytes) : Command :=
  if HasPrefix line (ShortString OK) then RspOk
  else if HasPrefix line (ShortString PONG) then RspPong
  else RspStatus.

(** The loop of [readReply] over the elements of an array. *)
Fixpoint read_elements (read : Buffer -> res ((Command + error) * Buffer)) (k : nat) (b : Buffer)
    : res (option error * Buffer) :=
  match k with
  | O => Ok (None, b)
  | S k =>
      '(x, b) ← read b;
      match x with
      | inr err => Ok (Some err, b)
      | inl _ => read_elements read k b
      end
  end.

Fixpoint readReply (fuel : nat) (b : Buffer) : res ((Command + error) * Buffer) :=
  match fuel with
  | O => OutOfFuel
  | S fuel =>
      '(x, b) ← ReadLine b;
      match x with
      | inr err => Ok (inr err, b)
      | inl line =>
          if len line =? 0 then Ok (inr (ECodec BadLine), b)
          else
            c ← index line 0;
            if c =? 43 then Ok (inl (status_type line), b)
            else if c =? 58 then Ok (inl RspInteger, b)
            else if c =? 45 then Ok (inl (error_type line), b)
            else if c =? 36 then
              let '(n, err) := parseLen (subl line 1 (len line)) in
              match err with
              | Some e => Ok (inr e, b)
              | None =>
                  if n <? 0 then Ok (inl RspBulk, b)
                  else
                    '(v, b) ← ReadN b n;
                    match v with
                    | inr e => Ok (inr e, b)
                    | inl _ =>
                        '(y, b) ← ReadN b 2;
                        match y with
                        | inr e => Ok (inr e, b)
                        | inl e =>
                            c0 ← index e 0;
                            c1 ← index e 1;
                            if negb (c0 =? 13) || negb (c1 =? 10)
                            then Ok (inr (ECodec ErrInvalidResp), b)
                            else Ok (inl RspBulk, b)
                        end
                    end
              end
            else if c =? 42 then
              let '(n, err) := parseLen (subl line 1 (len line)) in
              match err with
              | Some e => Ok (inr e, b)
              | None =>
                  if n <? 0 then Ok (inl UNKNOWN, b)
                  else
                    '(err, b) ← read_elements (readReply fuel) (Z.to_nat n) b;
                    match err with
                    | Some e => Ok (inr e, b)
                    | None => Ok (inl RspMultibulk, b)
                    end
              end
            else Ok (inr (ECodec ErrInvalidResp), b)
      end
  end.

(** The fuel that is always enough. *)
Definition reply_fuel (b : Buffer) : nat := S (length (buf b)).

(** [Decode]: the reply found in [bs] is attached to the fragment that
    [dequeue] takes from the connection ([DequeueInFrag]). *)
Record sdecoded (S : Type) := SDecoded {
  sd_frag : option fid; sd_err : option error; sd_discard : Z; sd_state : S }.
Arguments SDecoded {S}.
Arguments sd_frag {S}.
Arguments sd_err {S}.
Arguments sd_discard {S}.
Arguments sd_state {S}.

Section replies.
Context (MsgMaxLength : Z).

Definition set_reply (f : Frag) (t : Command) (body : bytes) : Frag :=
  mkFrag (f_prev f) (f_next f) (f_Owner f) (f_Peer f) (f_Id f) (f_Time f) (f_Timeout f) (f_Key f)
    (f_Error f) (f_Req f) body (f_Rsp f) t (f_Ok f) (f_Done f).

Definition Decode {S} `{HasStore S} (s : S) (dequeue : S -> res (option fid * S)) (bs : bytes) : res (sdecoded S) :=
  let b := NewBuffer bs in
  if Empty b then Ok (SDecoded None (Some (EEngine ErrIncompletePacket)) 0 s)
  else
    '(x, b) ← readReply (reply_fuel b) b;
    match x with
    | inr err => Ok (SDecoded None (Some err) 0 s)
    | inl rType =>
        '(head, s) ← dequeue s;
        match head with
        | None => Ok (SDecoded None (Some (EReply ErrUnKnown)) 0 s)
        | Some f =>
            x ← get_frag (store_of s) f;
            body ← ReadBuf b;
            Ok (SDecoded (Some f) None (ReadSize b) (set_store s (put_frag (store_of s) f (set_reply x rType body))))
        end
    end.

(** ** Assembling the replies of a split request *)

Definition set_rsp (f : Frag) (rsp : list bytes) (err : bytes) : Frag :=
  mkFrag (f_prev f) (f_next f) (f_Owner f) (f_Peer f) (f_Id f) (f_Time f) (f_Timeout f) (f_Key f)
    err (f_Req f) (f_RspBody f) rsp (f_Type f) (f_Ok f) true.
Definition set_ok (f : Frag) (ok : bool) : Frag :=
  mkFrag (f_prev f) (f_next f) (f_Owner f) (f_Peer f) (f_Id f) (f_Time f) (f_Timeout f) (f_Key f)
    (f_Error f) (f_Req f) (f_RspBody f) (f_Rsp f) (f_Type f) ok true.
Definition set_fdone (f : Frag) : Frag :=
  mkFrag (f_prev f) (f_next f) (f_Owner f) (f_Peer f) (f_Id f) (f_Time f) (f_Timeout f) (f_Key f)
    (f_Error f) (f_Req f) (f_RspBody f) (f_Rsp f) (f_Type f) (f_Ok f) true.
Definition set_answer (m : Msg) (body err : bytes) : Msg :=
  mkMsg (m_prev m) (m_next m) (m_Owner m) (m_Id m) (m_Body m) body err (m_Fd2Slot m) (m_Keys m)
    (m_Frags m) (m_Frags2 m) (m_FragDoneNumber m) (m_DelNum m) (m_Type m) true.
Definition set_DelNum (m : Msg) (n : Z) : Msg :=
  mkMsg (m_prev m) (m_next m) (m_Owner m) (m_Id m) (m_Body m) (m_RspBody m) (m_Error m)
    (m_Fd2Slot m) (m_Keys m) (m_Frags m) (m_Frags2 m) (m_FragDoneNumber m) n (m_Type m) (m_Done m).

(** The loop of [parseMGet]: the elements of an array reply, each with its line
    ends. *)
Fixpoint parseMGet_loop (fuel : nat) (b : Buffer) (msg : list bytes) : res (list bytes) :=
  match fuel with
  | O => OutOfFuel
  | S fuel =>
      '(x, b) ← ReadLine b;
      match x with
      | inr err => if bool_decide (err = ECodec EmptyLine) then Ok msg else Ok []
      | inl line =>
          rest ← slice line 1 (len line);
          let n := (parseLen rest).1 in
          if n <? 0 then parseMGet_loop fuel b (msg ++ [line ++ crlf])
          else
            '(v, b) ← ReadN b n;
            '(_, b) ← ReadN b 2;
            let v := match v with inl v => v | inr _ => [] end in
            parseMGet_loop fuel b (msg ++ [line ++ crlf ++ v ++ crlf])
      end
  end.

Definition parseMGet (f : Frag) : res (list bytes) :=
  let b := NewBuffer (f_RspBody f) in
  '(x, b) ← ReadLine b;
  let kLenBytes := match x with inl l => l | inr _ => [] end in
  rest ← slice kLenBytes 1 (len kLenBytes);
  let kLen := (parseLen rest).1 in
  if kLen <? 0 then Panic      (* make([]string, kLen) *)
  else parseMGet_loop (S (length (f_RspBody f))) b [].

(** The position of a string in a list. *)
Fixpoint index_str (k : bytes) (l : list bytes) : option Z :=
  match l with
  | [] => None
  | v :: l => if bool_decide (v = k) then Some 0 else (fun i => i + 1) <$> index_str k l
  end.

(** The loop of [MGet] over the keys of the request. *)
Fixpoint mget_collect (s : Store) (msg : Msg) (keys : list bytes) (acc : bytes) : res bytes :=
  match keys with
  | [] => Ok acc
  | k :: keys =>
      slot ← Hash k;
      match index_str k (default [] (m_Frags msg !! slot)) with
      | None => mget_collect s msg keys acc
      | Some i =>
          f ← deref (m_Body msg !! slot);
          x ← get_frag s f;
          v ← index (f_Rsp x) i;
          mget_collect s msg keys (acc ++ v)
      end
  end.

Definition MGet (s : Store) (f : fid) : res (option error * Store) :=
  x ← get_frag s f;
  rsp ← parseMGet x;
  let s := put_frag s f (set_rsp x rsp (f_Error x)) in
  if len rsp <? 1 then Ok (None, put_frag s f (set_rsp x rsp ErrUnKnownMget))
  else
    m ← deref (f_Peer x);
    msg ← get_msg s m;
    if m_FragDoneNumber msg <? Z.of_nat (size (m_Body msg)) then Ok (Some (ECodec Continue), s)
    else
      body ← mget_collect s msg (m_Keys msg) (42 :: Itoa (len (m_Keys msg)) ++ crlf);
      if MsgMaxLength <? len body
      then Ok (None, put_msg s m (set_answer msg ErrMsgRspTooLarge ErrMsgRspTooLarge))
      else Ok (None, put_msg s m (set_answer msg body (m_Error msg))).

(** The loop of [MSet] over the fragments of the message: are all of them ok? *)
Fixpoint mset_all_ok (s : Store) (fs : list fid) : res bool :=
  match fs with
  | [] => Ok true
  | f :: fs => x ← get_frag s f; if negb (f_Ok x) then Ok false else mset_all_ok s fs
  end.

Definition MSet `{MapRange} (s : Store) (f : fid) : res (option error * Store) :=
  x ← get_frag s f;
  let s := put_frag s f (set_ok x (bool_decide (f_Type x = RspOk))) in
  m ← deref (f_Peer x);
  msg ← get_msg s m;
  if m_FragDoneNumber msg <? Z.of_nat (size (m_Body msg)) then Ok (Some (ECodec Continue), s)
  else
    ok ← mset_all_ok s ((range (m_Body msg)).*2);
    if ok : bool then Ok (None, put_msg s m (set_answer msg OK (m_Error msg)))
    else Ok (None, put_msg s m (set_answer msg ErrUnKnown (m_Error msg))).

Definition Del (s : Store) (f : fid) : res (option error * Store) :=
  x ← get_frag s f;
  line ← slice (f_RspBody x) 1 (len (f_RspBody x) - 2);
  let n := (parseLen line).1 in
  m ← deref (f_Peer x);
  msg ← get_msg s m;
  let msg := set_DelNum msg (wrap64 (m_DelNum msg + n)) in
  let s := put_frag (put_msg s m msg) f (set_fdone x) in
  if m_FragDoneNumber msg <? Z.of_nat (size (m_Body msg)) then Ok (Some (ECodec Continue), s)
  else Ok (None, put_msg s m (set_answer msg (58 :: Itoa (m_DelNum msg) ++ crlf) (m_Error msg))).

Definition Default (s : Store) (f : fid) : res (option error * Store) :=
  x ← get_frag s f;
  let s := put_frag s f (set_fdone x) in
  m ← deref (f_Peer x);
  msg ← get_msg s m;
  if MsgMaxLength <? len (f_RspBody x)
  then Ok (None, put_msg s m (set_answer msg ErrMsgRspTooLarge ErrMsgRspTooLarge))
  else Ok (None, put_msg s m (set_answer msg (f_RspBody x) (m_Error msg))).
End replies.

(** ** Finding the end of a reply *)

(** Replies as values, and their encoding. *)
Inductive reply : Set :=
  | RStatus (l : bytes)
  | RError (l : bytes)
  | RInt (l : bytes)
  | RBulk (k : bytes)
  | RNil
  | RArray (rs : list reply)
  | RNilArray.

Fixpoint encode (x : reply) : bytes :=
  match x with
  | RStatus l => 43 :: l ++ crlf
  | RError l => 45 :: l ++ crlf
  | RInt l => 58 :: l ++ crlf
  | RBulk k => bulk k
  | RNil => str "$-1" ++ crlf
  | RArray rs => 42 :: Itoa (len rs) ++ crlf ++ concat (map encode rs)
  | RNilArray => str "*-1" ++ crlf
  end.

(** Lines without a line feed and lengths of 64 bits. *)
Inductive reply_ok : reply -> Prop :=
  | ok_status l : 10 ∉ l -> reply_ok (RStatus l)
  | ok_error l : 10 ∉ l -> reply_ok (RError l)
  | ok_int l : 10 ∉ l -> reply_ok (RInt l)
  | ok_bulk k : sized k -> reply_ok (RBulk k)
  | ok_nil : reply_ok RNil
  | ok_array rs : len rs < 2 ^ 63 -> Forall reply_ok rs -> reply_ok (RArray rs)
  | ok_nil_array : reply_ok RNilArray.

(** Induction through the elements of arrays. *)
Lemma reply_ok_ind' (P : reply -> Prop) :
  (forall l, 10 ∉ l -> P (RStatus l)) -> (forall l, 10 ∉ l -> P (RError l)) ->
  (forall l, 10 ∉ l -> P (RInt l)) -> (forall k, sized k -> P (RBulk k)) -> P RNil ->
  (forall rs, len rs < 2 ^ 63 -> Forall reply_ok rs -> Forall P rs -> P (RArray rs)) ->
  P RNilArray -> forall x, reply_ok x -> P x.
Proof.
  intros Hs He Hi Hb Hn Ha Hna. fix IH 2. intros x Hx.
  destruct Hx as [l Hl|l Hl|l Hl|k Hk| |rs Hl Hrs|]; eauto.
  apply Ha; [done|done|]. clear Hl. revert rs Hrs. fix IHl 2. intros rs [|r rs' Hr Hrs']; [constructor|].
  constructor; [by apply IH|by apply IHl].
Qed.

(** The type [readReply] gives a reply. *)
Definition type_of (x : reply) : Command :=
  match x with
  | RStatus l => status_type (43 :: l)
  | RError l => error_type (45 :: l)
  | RInt _ => RspInteger
  | RBulk _ | RNil => RspBulk
  | RArray _ => RspMultibulk
  | RNilArray => UNKNOWN
  end.

Definition frames (x : reply) : Prop := forall fuel pre rest,
  (length (encode x) < fuel)%nat ->
  readReply fuel (at_ pre (encode x ++ rest)) = Ok (inl (type_of x), at_ (pre ++ encode x) rest).

(** The first line of a reply. *)
Lemma readReply_line fuel c l pre rest :
  10 ∉ l -> c <> 10 ->
  readReply (S fuel) (at_ pre ((c :: l) ++ crlf ++ rest)) =
  (let b := at_ (pre ++ (c :: l) ++ crlf) rest in
   if c =? 43 then Ok (inl (status_type (c :: l)), b)
   else if c =? 58 then Ok (inl RspInteger, b)
   else if c =? 45 then Ok (inl (error_type (c :: l)), b)
   else if c =? 36 then
     let '(n, err) := parseLen l in
     match err with
     | Some e => Ok (inr e, b)
     | None =>
         if n <? 0 then Ok (inl RspBulk, b)
         else
           '(v, b) ← ReadN b n;
           match v with
           | inr e => Ok (inr e, b)
           | inl _ =>
               '(y, b) ← ReadN b 2;
               match y with
               | inr e => Ok (inr e, b)
               | inl e =>
                   c0 ← index e 0;
                   c1 ← index e 1;
                   if negb (c0 =? 13) || negb (c1 =? 10)
                   then Ok (inr (ECodec ErrInvalidResp), b)
                   else Ok (inl RspBulk, b)
               end
           end
     end
   else if c =? 42 then
     let '(n, err) := parseLen l in
     match err with
     | Some e => Ok (inr e, b)
     | None =>
         if n <? 0 then Ok (inl UNKNOWN, b)
         else
           '(err, b) ← read_elements (readReply fuel) (Z.to_nat n) b;
           match err with
           | Some e => Ok (inr e, b)
           | None => Ok (inl RspMultibulk, b)
           end
     end
   else Ok (inr (ECodec ErrInvalidResp), b)).
Proof.
  intros Hl Hc. cbn [readReply]. rewrite ReadLine_at.
  2:{ split; [done|]. rewrite elem_of_cons. naive_solver. }
  rewrite res_bind_Ok. replace (len (c :: l) =? 0) with false.
  2:{ rewrite len_cons. pose proof (len_nonneg l). lia. }
  change (index (c :: l) 0) with (Ok c). rewrite res_bind_Ok. by rewrite subl_tail1.
Qed.

Lemma read_elements_frames fuel rs pre rest :
  Forall frames rs -> (length (concat (map encode rs)) < fuel)%nat ->
  read_elements (readReply fuel) (length rs) (at_ pre (concat (map encode rs) ++ rest)) =
  Ok (None, at_ (pre ++ concat (map encode rs)) rest).
Proof.
  intros Hrs. revert pre. induction Hrs as [|x rs Hx Hrs IH]; intros pre Hf.
  { simpl. by rewrite app_nil_r. }
  cbn [length read_elements map concat] in *. rewrite length_app in Hf.
  rewrite <- app_assoc, Hx by lia. rewrite res_bind_Ok, IH by lia. by rewrite <- app_assoc.
Qed.

Lemma encode_split rs rest :
  encode (RArray rs) ++ rest = (42 :: Itoa (len rs)) ++ crlf ++ concat (map encode rs) ++ rest.
Proof. cbn [encode]. by rewrite app_comm_cons, <- !app_assoc. Qed.

Lemma line_split c l rest : (c :: l ++ crlf) ++ rest = (c :: l) ++ crlf ++ rest.
Proof. by rewrite app_comm_cons, <- app_assoc. Qed.

Lemma readReply_frames x : reply_ok x -> frames x.
Proof.
  apply reply_ok_ind'; unfold frames; clear x.
  - intros l Hl [|fuel] pre rest Hf; [lia|]. cbn [encode type_of].
    by rewrite line_split, readReply_line.
  - intros l Hl [|fuel] pre rest Hf; [lia|]. cbn [encode type_of].
    by rewrite line_split, readReply_line.
  - intros l Hl [|fuel] pre rest Hf; [lia|]. cbn [encode type_of].
    by rewrite line_split, readReply_line.
  - intros k Hk [|fuel] pre rest Hf; [lia|]. cbn [encode type_of]. pose proof (len_nonneg k).
    rewrite bulk_split, readReply_line by first [done | apply Itoa_no_lf; lia]. cbn zeta. simpl (_ =? _).
    rewrite parseLen_Itoa by (unfold sized in Hk; lia). replace (len k <? 0) with false by lia.
    rewrite ReadN_at by (by destruct k). rewrite res_bind_Ok, ReadN_crlf, res_bind_Ok. simpl.
    do 3 f_equal. unfold bulk. rewrite <- !app_assoc, <- !app_comm_cons, <- !app_assoc. done.
  - intros [|fuel] pre rest Hf; [lia|].
    change (encode RNil ++ rest) with ((36 :: str "-1") ++ crlf ++ rest). by rewrite readReply_line by (done || not_in).
  - intros rs Hl _ Hrs [|fuel] pre rest Hf; [lia|]. pose proof (len_nonneg rs).
    rewrite encode_split, readReply_line by first [done | apply Itoa_no_lf; lia]. cbn zeta. simpl (_ =? _).
    rewrite parseLen_Itoa by lia. replace (len rs <? 0) with false by lia.
    replace (Z.to_nat (len rs)) with (length rs) by (unfold len; lia).
    cbn [encode length] in Hf. rewrite !length_app in Hf.
    rewrite read_elements_frames by (done || lia). rewrite res_bind_Ok. cbn [type_of encode].
    do 3 f_equal. by rewrite app_comm_cons, <- !app_assoc.
  - intros [|fuel] pre rest Hf; [lia|].
    change (encode RNilArray ++ rest) with ((42 :: str "-1") ++ crlf ++ rest). by rewrite readReply_line by (done || not_in).
Qed.

(** A proper prefix of a reply. *)
Definition waits_for (x : reply) : Prop := forall fuel pre p,
  strict_prefix p (encode x) -> (length p < fuel)%nat ->
  exists e b', incomplete e /\ readReply fuel (at_ pre p) = Ok (inr e, b').

Lemma readReply_no_line fuel pre p :
  10 ∉ p -> exists e b', incomplete e /\ readReply (S fuel) (at_ pre p) = Ok (inr e, b').
Proof.
  intros Hp. cbn [readReply]. destruct (ReadLine_short pre p Hp) as (e & He & ->).
  rewrite res_bind_Ok. eauto.
Qed.

Lemma read_elements_waits fuel rs pre p :
  Forall frames rs -> Forall waits_for rs -> strict_prefix p (concat (map encode rs)) ->
  (length p < fuel)%nat ->
  exists e b', incomplete e /\ read_elements (readReply fuel) (length rs) (at_ pre p) = Ok (Some e, b').
Proof.
  intros Hfr Hw. revert pre p. induction Hw as [|x rs Hx Hw IH]; intros pre p Hp Hf.
  { apply strict_prefix_len in Hp. pose proof (len_nonneg p). simpl in Hp. change (len []) with 0 in Hp. lia. }
  apply Forall_cons in Hfr as [Hfx Hfr]. cbn [length read_elements map concat] in *.
  apply strict_prefix_app in Hp as [Hp|(p' & -> & Hp)].
  - destruct (Hx fuel pre p Hp Hf) as (e & b' & He & ->). rewrite res_bind_Ok. eauto.
  - rewrite length_app in Hf. rewrite Hfx, res_bind_Ok by lia. apply IH; [done|done|lia].
Qed.

Lemma one_line_waits c l fuel pre p :
  10 ∉ l -> c <> 10 -> strict_prefix p (c :: l ++ crlf) -> (length p < fuel)%nat ->
  exists e b', incomplete e /\ readReply fuel (at_ pre p) = Ok (inr e, b').
Proof.
  intros Hl Hc Hp Hf. destruct fuel as [|fuel]; [lia|]. apply readReply_no_line.
  apply (strict_prefix_line p (c :: l)); [|done]. split; [done|]. rewrite elem_of_cons. naive_solver.
Qed.

Lemma bulk_waits k : sized k -> waits_for (RBulk k).
Proof.
  intros Hk [|fuel] pre p Hp Hf; [lia|]. cbn [encode] in Hp. pose proof (len_nonneg k).
  replace (bulk k) with (((36 :: Itoa (len k)) ++ crlf) ++ (k ++ crlf)) in Hp
    by (unfold bulk; by rewrite <- app_assoc).
  apply strict_prefix_app in Hp as [Hp|(p' & -> & Hp)].
  { apply readReply_no_line. apply strict_prefix_line in Hp; [done|auto with rc]. }
  rewrite <- app_assoc, readReply_line by first [done | apply Itoa_no_lf; lia]. cbn zeta. simpl (_ =? _).
  rewrite parseLen_Itoa by (unfold sized in Hk; lia). replace (len k <? 0) with false by lia.
  destruct (decide (p' = [])) as [->|Hne].
  { unfold ReadN. rewrite leftSize_at. change (len [] <? 1) with true. eexists _, _. split; [by left|done]. }
  apply strict_prefix_app in Hp as [Hp|(p2 & -> & Hp)]; apply strict_prefix_len in Hp as Hl.
  - pose proof (len_nonneg p').
    match goal with |- context [ReadN (at_ ?q _) _] => destruct (ReadN_short q p' (len k)) as (e & He & ->) end;
      [done|lia|]. eexists _, _. split; [exact He|done].
  - rewrite ReadN_at, res_bind_Ok by done. change (len crlf) with 2 in Hl.
    match goal with |- context [ReadN (at_ ?q _) 2] => destruct (ReadN_short q p2 2) as (e & He & ->) end;
      [done|lia|]. eexists _, _. split; [exact He|done].
Qed.

Lemma readReply_waits x : reply_ok x -> waits_for x.
Proof.
  intros Hx. induction Hx as [l Hl|l Hl|l Hl|k Hk| |rs Hl Hok Hrs|] using reply_ok_ind'.
  1,2,3: intros fuel pre p Hp Hf; by eapply one_line_waits; [..|exact Hp|exact Hf].
  - by apply bulk_waits.
  - intros fuel pre p Hp Hf. by eapply (one_line_waits 36 (str "-1")); [not_in|..].
  - intros [|fuel] pre p Hp Hf; [lia|]. pose proof (len_nonneg rs). cbn [encode] in Hp.
    rewrite app_comm_cons, app_assoc in Hp.
    apply strict_prefix_app in Hp as [Hp|(p' & -> & Hp)].
    { apply readReply_no_line. apply strict_prefix_line in Hp; [done|apply count_line; lia]. }
    rewrite <- app_assoc, readReply_line by first [done | apply Itoa_no_lf; lia]. cbn zeta. simpl (_ =? _).
    rewrite parseLen_Itoa by lia. replace (len rs <? 0) with false by lia.
    replace (Z.to_nat (len rs)) with (length rs) by (unfold len; lia).
    rewrite !length_app in Hf. cbn [length] in Hf.
    destruct (read_elements_waits fuel rs (pre ++ (42 :: Itoa (len rs)) ++ crlf) p') as (e & b' & He & ->);
      [eapply Forall_impl; [exact Hok|intros; by apply readReply_frames]|done|done|lia|].
    rewrite res_bind_Ok. eauto.
  - intros fuel pre p Hp Hf. by eapply (one_line_waits 42 (str "-1")); [not_in|..].
Qed.

(** ** Any input *)

Lemma readReply_total_aux fuel pre rest :
  (length rest < fuel)%nat ->
  exists x pre' rest', readReply fuel (at_ pre rest) = Ok (x, at_ pre' rest') /\
    pre' ++ rest' = pre ++ rest /\ len rest' <= len rest.
Proof.
  revert pre rest. induction fuel as [|fuel IH]; intros pre rest Hf; [lia|]. cbn [readReply].
  destruct (ReadLine_total pre rest) as (x & pre1 & rest1 & -> & Happ & Hle & Hline). rewrite res_bind_Ok.
  destruct x as [line|e]; [|eauto 10]. destruct (Hline line eq_refl) as [Hne Hlt].
  destruct line as [|c line]; [done|].
  replace (len (c :: line) =? 0) with false by (rewrite len_cons; pose proof (len_nonneg line); lia).
  change (index (c :: line) 0) with (Ok c). rewrite res_bind_Ok, subl_tail1.
  destruct (c =? 43); [eauto 10|]. destruct (c =? 58); [eauto 10|]. destruct (c =? 45); [eauto 10|].
  destruct (c =? 36).
  { destruct (parseLen line) as [n [e|]]; [eauto 10|]. destruct (n <? 0) eqn:En; [eauto 10|].
    destruct (ReadN_total pre1 rest1 n) as (v & pre2 & rest2 & -> & Happ2 & Hle2 & _); [lia|].
    rewrite res_bind_Ok. rewrite Happ in Happ2. destruct v as [v|e]; [|eauto 10 with lia].
    destruct (ReadN_total pre2 rest2 2) as (y & pre3 & rest3 & -> & Happ3 & Hle3 & Hy); [lia|].
    rewrite res_bind_Ok. rewrite Happ2 in Happ3. destruct y as [y|e]; [|eauto 10 with lia].
    destruct (Hy y eq_refl) as [Hy2 _].
    destruct (index_in_range y 0) as [c0 ->]; [lia|]. destruct (index_in_range y 1) as [c1 ->]; [lia|].
    rewrite !res_bind_Ok. destruct (_ || _); eauto 10 with lia. }
  destruct (c =? 42); [|eauto 10]. destruct (parseLen line) as [n [e|]]; [eauto 10|].
  destruct (n <? 0); [eauto 10|].
  assert (forall k pre2 rest2, pre2 ++ rest2 = pre ++ rest -> len rest2 <= len rest1 ->
    exists err pre3 rest3, read_elements (readReply fuel) k (at_ pre2 rest2) = Ok (err, at_ pre3 rest3) /\
      pre3 ++ rest3 = pre ++ rest /\ len rest3 <= len rest1) as Hel.
  { induction k as [|k IHk]; intros pre2 rest2 Ha Hl; cbn [read_elements]; [eauto 10|].
    destruct (IH pre2 rest2) as (x & pre3 & rest3 & -> & Ha3 & Hl3); [unfold len in *; lia|].
    rewrite res_bind_Ok. rewrite Ha in Ha3. destruct x as [t|e]; [|eauto 10 with lia].
    apply IHk; [done|lia]. }
  destruct (Hel (Z.to_nat n) pre1 rest1) as (err & pre3 & rest3 & -> & Ha3 & Hl3); [done|lia|].
  rewrite res_bind_Ok. destruct err; eauto 10 with lia.
Qed.

(** C33: on every input the reply decoder returns: the fuel given by the number
    of buffered bytes suffices, no index or slice is out of range, and the
    cursor stays within the buffer. *)
Theorem readReply_total (bs : bytes) :
  exists x b, readReply (reply_fuel (NewBuffer bs)) (NewBuffer bs) = Ok (x, b) /\
    buf b = bs /\ 0 <= r b <= len bs.
Proof.
  rewrite NewBuffer_at. destruct (readReply_total_aux (reply_fuel (at_ [] bs)) [] bs)
    as (x & pre & rest & -> & Happ & _); [unfold reply_fuel; simpl; lia|].
  exists x, (at_ pre rest). split; [done|]. simpl. simpl in Happ. split; [done|].
  rewrite <- Happ, len_app. pose proof (len_nonneg pre). pose proof (len_nonneg rest). lia.
Qed.

(** ** Attaching replies *)

Lemma encode_pos x : 0 < len (encode x).
Proof.
  destruct x; cbn [encode]; unfold bulk; rewrite ?len_cons; try done; auto with rc.
  all: match goal with |- 0 < 1 + len ?l => pose proof (len_nonneg l); lia end.
Qed.

(** A complete reply of any kind, nested arrays included, is attached whole
    to the fragment at the head of the connection's queue with the type of the
    reply, and exactly its bytes are discarded, whatever follows it. *)
Lemma Decode_reply {S} `{HasStore S} (s : S) dequeue x rest f fr s1
    (Hx : reply_ok x) (Hd : dequeue s = Ok (Some f, s1)) (Hf : frags (store_of s1) !! f = Some fr) :
  Decode s dequeue (encode x ++ rest) =
  Ok (SDecoded (Some f) None (len (encode x))
        (set_store s1 (put_frag (store_of s1) f (set_reply fr (type_of x) (encode x))))).
Proof.
  unfold Decode. rewrite NewBuffer_at.
  pose proof (encode_pos x) as Hpos.
  unfold Empty. change (buf (at_ [] (encode x ++ rest))) with (encode x ++ rest).
  rewrite len_app. pose proof (len_nonneg rest). replace (_ <? 1) with false by lia.
  rewrite (readReply_frames x Hx) by (unfold reply_fuel; simpl; rewrite length_app; lia).
  rewrite res_bind_Ok, Hd, res_bind_Ok. unfold get_frag. rewrite Hf, res_bind_Ok.
  by rewrite app_nil_l, ReadBuf_at, res_bind_Ok.
Qed.

(** On a proper prefix of a reply the decoder waits: it reports an
    incomplete packet (never an invalid one), takes no fragment from the
    queue and discards nothing. *)
Lemma Decode_reply_waits {S} `{HasStore S} (s : S) dequeue x p (Hx : reply_ok x) (Hp : strict_prefix p (encode x)) :
  exists e, waits e /\ e <> ECodec ErrInvalidResp /\
    Decode s dequeue p = Ok (SDecoded None (Some e) 0 s).
Proof.
  unfold Decode. rewrite NewBuffer_at. destruct (Empty (at_ [] p)).
  { eexists. split; [by right|]. done. }
  destruct (readReply_waits x Hx (reply_fuel (at_ [] p)) [] p Hp) as (e & b' & He & ->).
  { unfold reply_fuel. simpl. lia. }
  exists e. split; [by left|]. split; [|done]. by destruct He as [->|[->| ->]].
Qed.

Definition one_frag : Store :=
  mkStore ∅ {[ 1%positive := live_frag ]} 0 1 [] 2%positive.
Definition sample_reply : reply := RArray [RBulk (str "v1"); RNil; RArray [RInt (str "7")]].

Lemma sample_reply_ok : reply_ok sample_reply.
Proof. repeat constructor; done || not_in. Qed.

Lemma Decode_reply_witness :
  Decode one_frag (fun s => Ok (Some 1%positive, s)) (encode sample_reply ++ str "+O") =
  Ok (SDecoded (Some 1%positive) None (len (encode sample_reply))
        (put_frag one_frag 1%positive (set_reply live_frag RspMultibulk (encode sample_reply)))).
Proof.
  apply (@Decode_reply Store Store_HasStore one_frag (fun s => Ok (Some 1%positive, s)) sample_reply (str "+O") 1%positive live_frag one_frag).
  - apply sample_reply_ok.
  - reflexivity.
  - reflexivity.
Defined.

Lemma Decode_reply_waits_witness :
  exists e, waits e /\ e <> ECodec ErrInvalidResp /\
    Decode one_frag (fun s => Ok (Some 1%positive, s)) (subl (encode sample_reply) 0 11) =
    Ok (SDecoded None (Some e) 0 one_frag).
Proof.
  apply (@Decode_reply_waits Store Store_HasStore one_frag (fun s => Ok (Some 1%positive, s)) sample_reply).
  - apply sample_reply_ok.
  - exists (subl (encode sample_reply) 11 100). split; [vm_compute; discriminate|]. vm_compute. reflexivity.
Defined.

(** ** One fragment's reply has arrived

    The part of [sread] ([core/connection.go]) that runs once the reply is
    attached to its fragment [f] and the fragment is live: the size check, the
    count of finished fragments, the assembly by request type, and the failure
    of the whole message when the fragment failed. *)

Definition set_ferror (f : Frag) (err : bytes) : Frag :=
  mkFrag (f_prev f) (f_next f) (f_Owner f) (f_Peer f) (f_Id f) (f_Time f) (f_Timeout f) (f_Key f)
    err (f_Req f) (f_RspBody f) (f_Rsp f) (f_Type f) (f_Ok f) (f_Done f).
Definition set_FragDone (m : Msg) (n : Z) : Msg :=
  mkMsg (m_prev m) (m_next m) (m_Owner m) (m_Id m) (m_Body m) (m_RspBody m) (m_Error m)
    (m_Fd2Slot m) (m_Keys m) (m_Frags m) (m_Frags2 m) n (m_DelNum m) (m_Type m) (m_Done m).

Fixpoint mark_done (s : Store) (fs : list fid) : res Store :=
  match fs with
  | [] => Ok s
  | f :: fs => x ← get_frag s f; mark_done (put_frag s f (set_fdone x)) fs
  end.

Section assemble.
Context `{MapRange} (MsgMaxLength : Z).

Definition assemble (s : Store) (f : fid) : res (option error * Store) :=
  x ← get_frag s f;
  let x := if MsgMaxLength <? len (f_RspBody x) then set_ferror x ErrMsgRspTooLarge else x in
  let s := put_frag s f x in
  m ← deref (f_Peer x);
  msg ← get_msg s m;
  let s := put_msg s m (set_FragDone msg (m_FragDoneNumber msg + 1)) in
  '(err, s) ←
    (if len (f_Error x) <? 1 then
       match m_Type msg with
       | ReqMget => MGet MsgMaxLength s f
       | ReqMset => MSet s f
       | ReqDel => Del s f
       | _ => Default MsgMaxLength s f
       end
     else Ok (None, s));
  x ← get_frag s f;
  if 0 <? len (f_Error x) then
    m ← deref (f_Peer x);
    msg ← get_msg s m;
    let msg := set_answer (set_FragDone msg (Z.of_nat (size (m_Body msg)))) (f_Error x) (f_Error x) in
    s ← mark_done (put_msg s m msg) ((range (m_Body msg)).*2);
    Ok (None, s)
  else Ok (err, s).

(** The replies of several fragments, one after the other. *)
Fixpoint assemble_all (s : Store) (fs : list fid) : res (list (option error) * Store) :=
  match fs with
  | [] => Ok ([], s)
  | f :: fs =>
      '(e, s) ← assemble s f;
      '(es, s) ← assemble_all s fs;
      Ok (e :: es, s)
  end.
End assemble.

(** ** Arrivals in any order *)

Section arrivals.
Context `{MapRange} (MsgMaxLength : Z) (m : mid) (body : gmap Z fid).

(** Running [assemble] on every fragment of a request, when each arrival but the
    last leaves the request unfinished: [inv] holds after the fragments in its
    list have arrived, [fin] of the final store. *)
Lemma arrivals_all (inv : Store -> list fid -> Prop) (fin : Store -> list fid -> Prop) :
  (forall s dn f, inv s dn -> (exists slot, body !! slot = Some f) ->
     (len dn + 1 < Z.of_nat (size body) ->
      exists s', assemble MsgMaxLength s f = Ok (Some (ECodec Continue), s') /\ inv s' (f :: dn)) /\
     (Z.of_nat (size body) <= len dn + 1 -> (forall slot g, body !! slot = Some g -> g ∈ f :: dn) ->
      exists s', assemble MsgMaxLength s f = Ok (None, s') /\ fin s' (f :: dn))) ->
  forall s fs, inv s [] -> fs ≡ₚ (map_to_list body).*2 -> fs <> [] ->
  exists s', assemble_all MsgMaxLength s fs =
      Ok (replicate (length fs - 1) (Some (ECodec Continue)) ++ [None], s') /\ fin s' (reverse fs).
Proof.
  intros Hstep s fs Hs Hfs Hne.
  assert (length fs = size body) as Hlen by (rewrite Hfs, length_fmap; apply length_map_to_list).
  assert (forall f, f ∈ fs <-> exists slot, body !! slot = Some f) as Hin.
  { intros f. rewrite Hfs, list_elem_of_fmap. split.
    - intros ([slot g] & -> & Hg%elem_of_map_to_list). eauto.
    - intros [slot Hg]. exists (slot, f). split; [done|]. by apply elem_of_map_to_list. }
  clear Hfs.
  assert (forall todo dn s, todo <> [] -> inv s dn -> length dn + length todo = size body ->
    (forall f, f ∈ todo -> exists slot, body !! slot = Some f) ->
    (forall slot g, body !! slot = Some g -> g ∈ dn ++ todo) ->
    exists s', assemble_all MsgMaxLength s todo =
        Ok (replicate (length todo - 1) (Some (ECodec Continue)) ++ [None], s') /\
      fin s' (reverse todo ++ dn))%nat as Hgen.
  { induction todo as [|f todo IH]; intros dn s0 Hn Hi Hsz Hsub Hcov; [done|]. cbn [assemble_all].
    destruct (Hstep s0 dn f Hi (Hsub f ltac:(left))) as [Hcont Hlast]. cbn [length] in Hsz.
    destruct todo as [|g todo].
    - destruct Hlast as (s' & -> & Hf); [unfold len; simpl in Hsz; lia| |].
      { intros slot g Hg. apply Hcov in Hg. set_solver. }
      rewrite res_bind_Ok. simpl. eauto.
    - destruct Hcont as (s1 & -> & Hi1); [unfold len; simpl in Hsz; lia|]. rewrite res_bind_Ok.
      destruct (IH (f :: dn) s1) as (s' & Hr & Hf); [done|done|cbn [length] in *; lia| | |].
      { intros g' Hg'. apply Hsub. by right. }
      { intros slot g' Hg'. apply Hcov in Hg'. set_solver. }
      rewrite Hr, res_bind_Ok. exists s'. split.
      + cbn [length]. by replace (S (S (length todo)) - 1)%nat with (S (S (length todo) - 1)) by lia.
      + rewrite reverse_cons, <- app_assoc. exact Hf. }
  destruct (Hgen fs [] s) as (s' & Hr & Hf); [done|done|simpl; lia|by intros f ?%Hin| |].
  - intros slot g Hg. apply Hin. eauto.
  - rewrite app_nil_r in Hf. eauto.
Qed.
End arrivals.

(** ** Splitting and reassembling [mget] *)

(** A value of Redis: a string or nothing. *)
Definition value_reply (v : option bytes) : reply := match v with Some v => RBulk v | None => RNil end.
Definition value_bytes (v : option bytes) : bytes := encode (value_reply v).
Definition value_ok (v : option bytes) : Prop := match v with Some v => sized v | None => True end.

Lemma value_bytes_len v : (3 <= length (value_bytes v))%nat.
Proof.
  destruct v as [v|]; unfold value_bytes; cbn [value_reply encode]; [|simpl; lia].
  unfold bulk. simpl. rewrite !length_app. simpl. pose proof (Itoa_len (len v) (len_nonneg v)). unfold len in *. lia.
Qed.

Lemma parseMGet_loop_values vs fuel pre acc :
  Forall value_ok vs -> (length (concat (map value_bytes vs)) < fuel)%nat ->
  parseMGet_loop fuel (at_ pre (concat (map value_bytes vs))) acc = Ok (acc ++ map value_bytes vs).
Proof.
  intros Hvs. revert fuel pre acc. induction Hvs as [|v vs Hv Hvs IH]; intros fuel pre acc Hf.
  { destruct fuel as [|fuel]; [lia|]. cbn [parseMGet_loop map concat].
    destruct (ReadLine_short pre []) as (e & _ & _); [by intros ?%elem_of_nil|].
    unfold ReadLine. rewrite leftSize_at. simpl. by rewrite app_nil_r. }
  cbn [map concat] in *. rewrite length_app in Hf. pose proof (value_bytes_len v).
  destruct fuel as [|fuel]; [lia|]. cbn [parseMGet_loop].
  destruct v as [v|].
  - change (value_bytes (Some v)) with (bulk v) in *. simpl in Hv. pose proof (len_nonneg v).
    rewrite bulk_split, ReadLine_at, res_bind_Ok by auto with rc.
    rewrite slice_Ok, res_bind_Ok, subl_tail1 by (rewrite ?len_cons; pose proof (len_nonneg (Itoa (len v))); lia).
    rewrite parseLen_Itoa by (unfold sized in Hv; lia). cbn [fst].
    replace (len v <? 0) with false by lia. rewrite ReadN_at, res_bind_Ok by (by destruct v).
    rewrite ReadN_crlf, res_bind_Ok, IH by lia. rewrite <- app_assoc. do 3 f_equal.
  - change (value_bytes None) with ((36 :: str "-1") ++ crlf) in *. rewrite <- app_assoc.
    rewrite ReadLine_at, res_bind_Ok by (split; [done|not_in]).
    rewrite slice_Ok, res_bind_Ok, subl_tail1 by done. change (parseLen (str "-1")) with (-1, @None error).
    simpl (_ <? _). cbn [fst]. change (-1 <? 0) with true. cbn match. rewrite IH by lia. by rewrite <- app_assoc.
Qed.

(** The array reply of a fragment is taken apart into its elements. *)
Lemma parseMGet_values f vs :
  f_RspBody f = encode (RArray (map value_reply vs)) -> len vs < 2 ^ 63 -> Forall value_ok vs ->
  parseMGet f = Ok (map value_bytes vs).
Proof.
  intros Hb Hl Hv. unfold parseMGet. rewrite Hb, NewBuffer_at.
  assert (encode (RArray (map value_reply vs)) =
    (42 :: Itoa (len vs)) ++ crlf ++ concat (map value_bytes vs)) as ->.
  { cbn [encode]. rewrite map_map. unfold len. by rewrite length_map. }
  pose proof (len_nonneg vs). rewrite ReadLine_at, res_bind_Ok by (apply count_line; lia).
  rewrite slice_Ok, res_bind_Ok, subl_tail1 by (rewrite ?len_cons; pose proof (len_nonneg (Itoa (len vs))); lia).
  rewrite parseLen_Itoa by lia. cbn [fst]. replace (len vs <? 0) with false by lia.
  rewrite parseMGet_loop_values; [done|done|]. rewrite !length_app. simpl. lia.
Qed.

Lemma put_frag_id s f x : frags s !! f = Some x -> put_frag s f x = s.
Proof. intros Hf. unfold put_frag, with_frags. rewrite insert_id by done. by destruct s. Qed.

Lemma index_str_spec k l : k ∈ l -> exists i, index_str k l = Some i /\ 0 <= i /\ l !! Z.to_nat i = Some k.
Proof.
  induction l as [|v l IH]; intros Hk; [by apply elem_of_nil in Hk|]. simpl.
  destruct (decide (v = k)) as [->|Hne].
  { rewrite bool_decide_eq_true_2 by done. by exists 0. }
  rewrite bool_decide_eq_false_2 by done. apply elem_of_cons in Hk as [->|Hk]; [done|].
  destruct (IH Hk) as (i & -> & Hi & Hl). exists (i + 1). simpl. split; [done|]. split; [lia|].
  by replace (Z.to_nat (i + 1)) with (S (Z.to_nat i)) by lia.
Qed.

Section mget.
Context `{MapRange} (MsgMaxLength : Z).
Context (m : mid) (keys : list bytes) (vals : bytes -> option bytes) (body : gmap Z fid).

(** The reply of the fragment that asked for the keys [ks]. *)
Definition frag_answer (ks : list bytes) : bytes := encode (RArray (map value_reply (map vals ks))).
(** The reply the client must get. *)
Definition mget_answer : bytes := encode (RArray (map value_reply (map vals keys))).

(** The request is split as the decoder splits it, every fragment has its
    reply, and the fragments in [done] have been assembled. *)
Record mget_inv (s : Store) (dn : list fid) : Prop := {
  mi_msg : exists msg, msgs s !! m = Some msg /\ m_Type msg = ReqMget /\ m_Keys msg = keys /\
    m_Frags msg = group keys /\ m_Body msg = body /\ m_Error msg = [] /\ m_FragDoneNumber msg = len dn;
  mi_dom : dom body = dom (group keys);
  mi_inj : forall slot slot' g, body !! slot = Some g -> body !! slot' = Some g -> slot = slot';
  mi_frag : forall slot ks, group keys !! slot = Some ks -> exists g y, body !! slot = Some g /\
    frags s !! g = Some y /\ f_Peer y = Some m /\ f_Error y = [] /\ f_RspBody y = frag_answer ks /\
    (g ∈ dn -> f_Rsp y = map value_bytes (map vals ks));
}.

Hypothesis keys_bytes : Forall is_bytes keys.
Hypothesis keys_len : len keys < 2 ^ 63.
Hypothesis vals_ok : forall k, value_ok (vals k).
Hypothesis fits : forall slot ks, group keys !! slot = Some ks -> len (frag_answer ks) <= MsgMaxLength.
Hypothesis answer_fits : len mget_answer <= MsgMaxLength.

(** A fragment of the request serves the keys of one slot. *)
Lemma frag_of_slot s dn f :
  mget_inv s dn -> (exists slot, body !! slot = Some f) ->
  exists slot ks y, body !! slot = Some f /\ group keys !! slot = Some ks /\ ks <> [] /\ len ks < 2 ^ 63 /\
    frags s !! f = Some y /\ f_Peer y = Some m /\ f_Error y = [] /\ f_RspBody y = frag_answer ks.
Proof.
  intros [_ Hd _ Hf] [slot Hs].
  assert (is_Some (group keys !! slot)) as [ks Hks]
    by (apply elem_of_dom; rewrite <- Hd; apply elem_of_dom; eauto).
  destruct (Hf slot ks Hks) as (g & y & Hg & ? & ? & ? & ? & _). simplify_eq. exists slot, ks, y.
  split; [done|]. split; [done|]. split; [by eapply group_nonempty|]. split; [|done].
  rewrite group_lookup in Hks. destruct (filter _ keys) eqn:E; [done|]. simplify_eq.
  rewrite <- E. pose proof (length_filter (fun k => slot_of k = slot) keys). unfold len in *. lia.
Qed.

(** With every fragment assembled, the values are collected in key order. *)
Lemma mget_collect_all s msg ks acc :
  m_Frags msg = group keys -> m_Body msg = body -> (forall k, k ∈ ks -> k ∈ keys) ->
  (forall slot l, group keys !! slot = Some l -> exists g y, body !! slot = Some g /\
     frags s !! g = Some y /\ f_Rsp y = map value_bytes (map vals l)) ->
  mget_collect s msg ks acc = Ok (acc ++ concat (map value_bytes (map vals ks))).
Proof.
  intros HF HB Hsub Hfr. revert acc. induction ks as [|k ks IH]; intros acc; cbn [mget_collect map concat].
  { by rewrite app_nil_r. }
  assert (k ∈ keys) as Hk by (apply Hsub; left). rewrite Forall_forall in keys_bytes.
  rewrite Hash_slot, res_bind_Ok by (by apply keys_bytes). rewrite HF, HB.
  assert (k ∈ filter (fun k' => slot_of k' = slot_of k) keys) as Hin by (by apply list_elem_of_filter).
  pose proof (group_lookup keys (slot_of k)) as Hg.
  destruct (filter _ keys) as [|k0 l] eqn:E; [by apply elem_of_nil in Hin|].
  rewrite Hg. cbn [default from_option id]. destruct (index_str_spec k (k0 :: l) Hin) as (i & -> & Hi & Hl).
  destruct (Hfr _ _ Hg) as (g & y & -> & Hy & HR). cbn [deref]. rewrite res_bind_Ok.
  unfold get_frag. rewrite Hy, res_bind_Ok, HR.
  rewrite (index_Ok _ _ (value_bytes (vals k))), res_bind_Ok; [|done|].
  2:{ rewrite !list_lookup_fmap, Hl. done. }
  rewrite IH by (intros; apply Hsub; by right). by rewrite <- app_assoc.
Qed.

Lemma MGet_step s f slot ks y msg :
  group keys !! slot = Some ks -> ks <> [] -> len ks < 2 ^ 63 ->
  frags s !! f = Some y -> f_Peer y = Some m -> f_Error y = [] -> f_RspBody y = frag_answer ks ->
  msgs s !! m = Some msg ->
  let s1 := put_frag s f (set_rsp y (map value_bytes (map vals ks)) []) in
  MGet MsgMaxLength s f =
  if m_FragDoneNumber msg <? Z.of_nat (size (m_Body msg)) then Ok (Some (ECodec Continue), s1)
  else
    body ← mget_collect s1 msg (m_Keys msg) (42 :: Itoa (len (m_Keys msg)) ++ crlf);
    if MsgMaxLength <? len body
    then Ok (None, put_msg s1 m (set_answer msg ErrMsgRspTooLarge ErrMsgRspTooLarge))
    else Ok (None, put_msg s1 m (set_answer msg body (m_Error msg))).
Proof.
  intros Hks Hne Hl Hy Hp He HR Hm s1. unfold MGet, get_frag, get_msg. rewrite Hy, res_bind_Ok.
  rewrite (parseMGet_values y (map vals ks)), res_bind_Ok; [|done|by unfold len; rewrite length_map|].
  2:{ apply Forall_forall. intros v Hv. apply list_elem_of_In, in_map_iff in Hv as (k & <- & _). apply vals_ok. }
  rewrite He. replace (len (map value_bytes (map vals ks)) <? 1) with false.
  2:{ unfold len. rewrite !length_map. destruct ks; [done|]. symmetry. apply Z.ltb_ge. cbn [length]. lia. }
  rewrite Hp. cbn [deref]. rewrite res_bind_Ok. cbn [msgs put_frag with_frags]. by rewrite Hm, res_bind_Ok.
Qed.

(** Assembling one fragment: the message waits, or is answered. *)
Lemma assemble_mget s dn f :
  mget_inv s dn -> (exists slot, body !! slot = Some f) ->
  (len dn + 1 < Z.of_nat (size body) ->
   exists s', assemble MsgMaxLength s f = Ok (Some (ECodec Continue), s') /\ mget_inv s' (f :: dn)) /\
  (Z.of_nat (size body) <= len dn + 1 -> (forall slot g, body !! slot = Some g -> g ∈ f :: dn) ->
   exists s' msg, assemble MsgMaxLength s f = Ok (None, s') /\ msgs s' !! m = Some msg /\
     m_Done msg = true /\ m_RspBody msg = mget_answer /\ m_Error msg = []).
Proof.
  intros Hinv Hbody. destruct (frag_of_slot s dn f Hinv Hbody)
    as (slot & ks & y & Hslot & Hks & Hne & Hkl & Hy & Hp & He & HR).
  destruct Hinv as [(msg & Hm & Ht & HK & HF & HB & HE & HN) Hd Hinj Hfr].
  set (msg1 := set_FragDone msg (m_FragDoneNumber msg + 1)).
  set (s1 := put_msg s m msg1). set (y1 := set_rsp y (map value_bytes (map vals ks)) []).
  assert (assemble MsgMaxLength s f =
    ('(err, s) ← MGet MsgMaxLength s1 f;
     x ← get_frag s f;
     if 0 <? len (f_Error x) then
       m ← deref (f_Peer x);
       msg ← get_msg s m;
       let msg := set_answer (set_FragDone msg (Z.of_nat (size (m_Body msg)))) (f_Error x) (f_Error x) in
       s ← mark_done (put_msg s m msg) ((range (m_Body msg)).*2);
       Ok (None, s)
     else Ok (err, s))) as ->.
  { unfold assemble. rewrite (get_frag_Ok _ _ _ Hy), res_bind_Ok, HR.
    replace (MsgMaxLength <? len (frag_answer ks)) with false by (pose proof (fits slot ks Hks); lia).
    rewrite (put_frag_id _ _ _ Hy), Hp. cbn [deref]. rewrite res_bind_Ok.
    rewrite (get_msg_Ok _ _ _ Hm), res_bind_Ok, He, Ht. done. }
  rewrite (MGet_step s1 f slot ks y msg1) by (done || apply lookup_insert_eq).
  assert (forall slot' ks', group keys !! slot' = Some ks' -> exists g z, body !! slot' = Some g /\
    frags (put_frag s1 f y1) !! g = Some z /\ f_Peer z = Some m /\ f_Error z = [] /\
    f_RspBody z = frag_answer ks' /\ (g ∈ f :: dn -> f_Rsp z = map value_bytes (map vals ks'))) as Hfr'.
  { intros slot' ks' Hk'. destruct (Hfr slot' ks' Hk') as (g & z & Hg & Hz & Hzp & Hze & HzR & Hzd).
    destruct (decide (g = f)) as [->|Hgf].
    - exists f, y1. simpl. rewrite lookup_insert_eq. simplify_eq. split_and!; try done.
      pose proof (Hinj _ _ _ Hslot Hg). simplify_eq. done.
    - exists g, z. simpl. rewrite lookup_insert_ne by done. split_and!; try done.
      intros [->|Hin]%elem_of_cons; [done|]. by apply Hzd. }
  assert (forall slot' g, body !! slot' = Some g -> exists ks', group keys !! slot' = Some ks') as Hall.
  { intros slot' g Hg. apply elem_of_dom. rewrite <- Hd. apply elem_of_dom. eauto. }
  change (m_FragDoneNumber msg1) with (m_FragDoneNumber msg + 1). change (m_Body msg1) with (m_Body msg).
  change (m_Keys msg1) with (m_Keys msg). rewrite HB, HN, HK.
  assert (get_frag (put_frag s1 f y1) f = Ok y1) as Hgf by apply get_put_frag.
  split.
  - intros Hlt. replace (len dn + 1 <? Z.of_nat (size body)) with true by lia.
    rewrite res_bind_Ok. fold y1. rewrite Hgf, res_bind_Ok. eexists. split; [done|].
    split; [|done|done|exact Hfr']. exists msg1. cbn [msgs put_frag with_frags s1 put_msg with_msgs].
    rewrite lookup_insert_eq. split_and!; try done. simpl. rewrite HN, len_cons. lia.
  - intros Hge Hin. replace (len dn + 1 <? Z.of_nat (size body)) with false by lia. fold y1.
    rewrite (mget_collect_all (put_frag s1 f y1) msg1) by
      first [done | intros slot' ks' Hk'; destruct (Hfr' _ _ Hk') as (g & z & ? & ? & ? & ? & ? & Hz); eauto 10].
    rewrite res_bind_Ok.
    assert ((42 :: Itoa (len keys) ++ crlf) ++ concat (map value_bytes (map vals keys)) = mget_answer) as ->.
    { unfold mget_answer. cbn [encode]. rewrite <- app_comm_cons, <- app_assoc.
      unfold len. rewrite !length_map. by rewrite (map_map value_reply encode). }
    replace (MsgMaxLength <? len mget_answer) with false by lia. rewrite res_bind_Ok.
    unfold get_frag. cbn [frags put_msg with_msgs]. unfold get_frag in Hgf. rewrite Hgf, res_bind_Ok.
    eexists _, _. split; [done|]. cbn [msgs put_msg with_msgs]. rewrite lookup_insert_eq. done.
Qed.

(** C16: the replies of the fragments of an [mget], in whatever order the nodes
    send them, are put together into the reply for the whole request: every
    arrival but the last reports that the request is unfinished, and after the
    last the message is done and its reply is the array of the values of the
    keys in the order the client asked for them. *)
Theorem mget_any_order s fs
    (Hs : mget_inv s []) (Hfs : fs ≡ₚ (map_to_list body).*2) (Hne : fs <> []) :
  exists s' msg, assemble_all MsgMaxLength s fs =
      Ok (replicate (length fs - 1) (Some (ECodec Continue)) ++ [None], s') /\
    msgs s' !! m = Some msg /\ m_Done msg = true /\ m_RspBody msg = mget_answer /\ m_Error msg = [].
Proof.
  destruct (arrivals_all MsgMaxLength body mget_inv (fun s' _ => exists msg, msgs s' !! m = Some msg /\
    m_Done msg = true /\ m_RspBody msg = mget_answer /\ m_Error msg = [])) with (s := s) (fs := fs)
    as (s' & Hr & msg & Hmsg); [|done..|eauto 10].
  intros s0 dn f Hi Hf. destruct (assemble_mget s0 dn f Hi Hf) as [Hc Hl]. split; [done|].
  intros Hge Hin. destruct (Hl Hge Hin) as (s1 & msg & ? & ?). eauto.
Qed.
End mget.

(** Two keys of different slots, one asked for twice. *)
Definition mget_keys : list bytes := [str "a"; str "b"; str "a"].
Definition mget_groups : gmap Z (list bytes) := <[3300 := [str "b"]]> {[15495 := [str "a"; str "a"]]}.
Definition mget_vals (k : bytes) : option bytes := if bool_decide (k = str "a") then Some (str "v1") else None.
Definition mget_body : gmap Z fid := <[3300 := 3%positive]> {[15495 := 2%positive]}.
Definition mget_frag (ks : list bytes) : Frag :=
  mkFrag None None (Some 9%positive) (Some 1%positive) 1 0 0 [] [] [] (frag_answer mget_vals ks) [] RspMultibulk false false.
Definition mget_store : Store :=
  mkStore {[ 1%positive := set_Type (set_Body (set_Frags zeroMsg mget_keys mget_groups) mget_body) ReqMget ]}
    (<[2%positive := mget_frag [str "a"; str "a"]]> {[ 3%positive := mget_frag [str "b"] ]}) 1 2 [] 4%positive.

Lemma mget_groups_eq : group mget_keys = mget_groups.
Proof. vm_compute. reflexivity. Qed.

Lemma mget_groups_cases slot ks :
  group mget_keys !! slot = Some ks ->
  (slot = 3300 /\ ks = [str "b"]) \/ (slot = 15495 /\ ks = [str "a"; str "a"]).
Proof.
  rewrite mget_groups_eq. unfold mget_groups.
  rewrite lookup_insert_Some, lookup_singleton_Some. naive_solver.
Qed.

Lemma mget_store_inv : mget_inv 1%positive mget_keys mget_vals mget_body mget_store [].
Proof.
  split.
  - eexists. split; [reflexivity|]. rewrite mget_groups_eq. done.
  - rewrite mget_groups_eq. vm_compute. reflexivity.
  - intros slot slot' g. unfold mget_body. rewrite !lookup_insert_Some, !lookup_singleton_Some. naive_solver.
  - intros slot ks [[-> ->]|[-> ->]]%mget_groups_cases.
    + exists 3%positive, (mget_frag [str "b"]). split_and!; try done. by intros ?%elem_of_nil.
    + exists 2%positive, (mget_frag [str "a"; str "a"]). split_and!; try done. by intros ?%elem_of_nil.
Qed.

Lemma mget_any_order_witness :
  exists s' msg, @assemble_all sorted_range 1024 mget_store [3%positive; 2%positive] =
      Ok (replicate 1 (Some (ECodec Continue)) ++ [None], s') /\
    msgs s' !! 1%positive = Some msg /\ m_Done msg = true /\
    m_RspBody msg = mget_answer mget_keys mget_vals /\ m_Error msg = [].
Proof.
  apply (@mget_any_order sorted_range 1024 1%positive mget_keys mget_vals mget_body).
  - repeat constructor; discriminate.
  - done.
  - intros k. unfold mget_vals. by case_bool_decide.
  - intros slot ks [[-> ->]|[-> ->]]%mget_groups_cases; vm_compute; discriminate.
  - vm_compute. discriminate.
  - apply mget_store_inv.
  - vm_compute. apply perm_swap || reflexivity.
  - discriminate.
Defined.


(** ** Summing the replies of [del] *)

Section del.
Context `{MapRange} (MsgMaxLength : Z).
Context (m : mid) (body : gmap Z fid) (count : fid -> Z).

Definition total_deleted (fs : list fid) : Z := foldr (fun f n => count f + n) 0 fs.

(** Every fragment has the integer reply [count], and [dn] have arrived. *)
Record del_inv (s : Store) (dn : list fid) : Prop := {
  di_msg : exists msg, msgs s !! m = Some msg /\ m_Type msg = ReqDel /\ m_Body msg = body /\
    m_Error msg = [] /\ m_FragDoneNumber msg = len dn /\ m_DelNum msg = wrap64 (total_deleted dn);
  di_frag : forall slot f, body !! slot = Some f -> exists y, frags s !! f = Some y /\
    f_Peer y = Some m /\ f_Error y = [] /\ f_RspBody y = encode (RInt (Itoa (count f)));
}.

Hypothesis count_ok : forall f, 0 <= count f < 2 ^ 63.
Hypothesis fits : forall f, len (encode (RInt (Itoa (count f)))) <= MsgMaxLength.

Lemma int_body n : 0 <= n -> slice (encode (RInt (Itoa n))) 1 (len (encode (RInt (Itoa n))) - 2) = Ok (Itoa n).
Proof.
  intros Hn. cbn [encode]. pose proof (Itoa_len n Hn). rewrite len_cons, len_app. change (len crlf) with 2.
  rewrite slice_Ok by (rewrite ?len_cons, ?len_app; change (len crlf) with 2; lia). f_equal.
  change (58 :: Itoa n ++ crlf) with ([58] ++ Itoa n ++ crlf). rewrite subl_app_r by done.
  change (len [58]) with 1. replace (1 - 1) with 0 by lia.
  replace (1 + (len (Itoa n) + 2) - 2 - 1) with (len (Itoa n)) by lia. apply subl_head.
Qed.

Definition del_fin (s : Store) (fs : list fid) : Prop :=
  exists msg, msgs s !! m = Some msg /\ m_Done msg = true /\ m_Error msg = [] /\
    m_RspBody msg = encode (RInt (Itoa (wrap64 (total_deleted fs)))).

Lemma assemble_del s dn f :
  del_inv s dn -> (exists slot, body !! slot = Some f) ->
  (len dn + 1 < Z.of_nat (size body) ->
   exists s', assemble MsgMaxLength s f = Ok (Some (ECodec Continue), s') /\ del_inv s' (f :: dn)) /\
  (Z.of_nat (size body) <= len dn + 1 -> (forall slot g, body !! slot = Some g -> g ∈ f :: dn) ->
   exists s', assemble MsgMaxLength s f = Ok (None, s') /\ del_fin s' (f :: dn)).
Proof.
  intros [(msg & Hm & Ht & HB & HE & HN & HD) Hfr] [slot Hslot].
  destruct (Hfr slot f Hslot) as (y & Hy & Hp & He & HR). pose proof (count_ok f) as Hc.
  set (msg1 := set_DelNum (set_FragDone msg (len dn + 1)) (wrap64 (total_deleted (f :: dn)))).
  set (s1 := put_frag (put_msg (put_msg s m (set_FragDone msg (len dn + 1))) m msg1) f (set_fdone y)).
  assert (assemble MsgMaxLength s f =
    if len dn + 1 <? Z.of_nat (size body) then Ok (Some (ECodec Continue), s1)
    else Ok (None, put_msg s1 m (set_answer msg1 (58 :: Itoa (m_DelNum msg1) ++ crlf) []))) as ->.
  { unfold assemble. rewrite (get_frag_Ok _ _ _ Hy), res_bind_Ok, HR.
    replace (MsgMaxLength <? _) with false by (pose proof (fits f); lia).
    rewrite (put_frag_id _ _ _ Hy), Hp. cbn [deref]. rewrite res_bind_Ok.
    rewrite (get_msg_Ok _ _ _ Hm), res_bind_Ok, He, Ht, HN. change (len [] <? 1) with true. cbn match.
    unfold Del. rewrite (get_frag_Ok (put_msg s m _) f y) by done.
    rewrite res_bind_Ok, HR, int_body, res_bind_Ok, parseLen_Itoa, Hp by lia. cbn [deref fst].
    rewrite res_bind_Ok, get_put_msg, res_bind_Ok. cbn [set_FragDone set_DelNum m_DelNum m_FragDoneNumber m_Body m_Error].
    replace (wrap64 (m_DelNum msg + count f)) with (wrap64 (total_deleted (f :: dn))).
    2:{ rewrite HD, wrap64_add_l. simpl. f_equal. lia. }
    rewrite HB. fold msg1 s1. destruct (len dn + 1 <? _); rewrite res_bind_Ok.
    - unfold s1. rewrite get_put_frag, res_bind_Ok. simpl. by rewrite He.
    - rewrite (get_frag_Ok _ f (set_fdone y)) by (apply lookup_insert_eq). rewrite res_bind_Ok. simpl.
      by rewrite He, HE. }
  split.
  - intros Hlt. replace (len dn + 1 <? Z.of_nat (size body)) with true by lia.
    eexists. split; [done|]. split.
    + exists msg1. cbn [msgs put_frag with_frags s1 put_msg with_msgs]. rewrite lookup_insert_eq.
      rewrite len_cons. split_and!; try done. simpl. lia.
    + intros slot' g Hg. destruct (Hfr slot' g Hg) as (z & Hz & ? & ? & ?). cbn [frags put_frag with_frags s1].
      destruct (decide (g = f)) as [->|]; [|by rewrite lookup_insert_ne by done; eauto].
      rewrite lookup_insert_eq. eexists. split; [done|]. simplify_eq. done.
  - intros Hge _. replace (len dn + 1 <? Z.of_nat (size body)) with false by lia.
    eexists. split; [done|]. eexists. split; [apply lookup_insert_eq|]. done.
Qed.

Lemma total_deleted_perm fs fs' : fs ≡ₚ fs' -> total_deleted fs = total_deleted fs'.
Proof. induction 1; simpl; lia. Qed.

(** The integer replies of the fragments of a [del], in whatever order they
    arrive, are added up: after the last arrival the message is done and its
    reply is the number of keys deleted on all nodes together. *)
Theorem del_any_order s fs
    (Hs : del_inv s []) (Hfs : fs ≡ₚ (map_to_list body).*2) (Hne : fs <> [])
    (Htot : total_deleted fs < 2 ^ 63) :
  exists s' msg, assemble_all MsgMaxLength s fs =
      Ok (replicate (length fs - 1) (Some (ECodec Continue)) ++ [None], s') /\
    msgs s' !! m = Some msg /\ m_Done msg = true /\
    m_RspBody msg = encode (RInt (Itoa (total_deleted fs))).
Proof.
  destruct (arrivals_all MsgMaxLength body del_inv del_fin assemble_del s fs Hs Hfs Hne)
    as (s' & Hr & msg & Hm & Hd & _ & Hb).
  exists s', msg. split_and!; [done..|]. rewrite Hb, (total_deleted_perm (reverse fs) fs) by apply reverse_Permutation.
  rewrite wrap64_id; [done|]. assert (0 <= total_deleted fs); [|lia].
  clear -count_ok. induction fs as [|f fs IH]; simpl; [lia|]. pose proof (count_ok f). lia.
Qed.
End del.

(** Replies of one fragment that are not integers. *)
Definition del_msg : Msg := set_Type (set_Body zeroMsg {[ 5 := 2%positive ]}) ReqDel.
Definition del_frag (body : bytes) : Frag :=
  mkFrag None None (Some 9%positive) (Some 1%positive) 1 0 0 [] [] [] body [] RspInteger false false.
Definition del_store (body : bytes) : Store :=
  mkStore {[ 1%positive := del_msg ]} {[ 2%positive := del_frag body ]} 1 1 [] 3%positive.

Lemma del_any_order_witness :
  exists s' msg, @assemble_all sorted_range 1024 (del_store (encode (RInt (Itoa 3)))) [2%positive] =
      Ok (replicate 0 (Some (ECodec Continue)) ++ [None], s') /\
    msgs s' !! 1%positive = Some msg /\ m_Done msg = true /\
    m_RspBody msg = encode (RInt (Itoa (total_deleted (fun _ => 3) [2%positive]))).
Proof.
  apply (@del_any_order sorted_range 1024 1%positive {[ 5 := 2%positive ]} (fun _ => 3)).
  - intros _. done.
  - intros _. vm_compute. discriminate.
  - split.
    + eexists. split; [reflexivity|]. done.
    + intros slot f [<- <-]%lookup_singleton_Some. eexists. split; [reflexivity|]. done.
  - reflexivity.
  - discriminate.
  - done.
Defined.

(** ** Conjoining the replies of [mset] *)

Section mset.
Context `{MapRange} (MsgMaxLength : Z).
Context (m : mid) (body : gmap Z fid) (ok : fid -> bool).

(** Every fragment has its reply, of type [RspOk] exactly when [ok]. *)
Record mset_inv (s : Store) (dn : list fid) : Prop := {
  ms_msg : exists msg, msgs s !! m = Some msg /\ m_Type msg = ReqMset /\ m_Body msg = body /\
    m_Error msg = [] /\ m_FragDoneNumber msg = len dn;
  ms_frag : forall slot f, body !! slot = Some f -> exists y, frags s !! f = Some y /\
    f_Peer y = Some m /\ f_Error y = [] /\ len (f_RspBody y) <= MsgMaxLength /\
    (f_Type y = RspOk <-> ok f = true) /\ (f ∈ dn -> f_Ok y = ok f);
}.

Definition mset_answer : bytes := if forallb ok ((map_to_list body).*2) then OK else ErrUnKnown.

Lemma mset_all_ok_spec s fs :
  (forall f, f ∈ fs -> exists y, frags s !! f = Some y /\ f_Ok y = ok f) ->
  mset_all_ok s fs = Ok (forallb ok fs).
Proof.
  induction fs as [|f fs IH]; intros Hfs; cbn [mset_all_ok forallb]; [done|].
  destruct (Hfs f ltac:(left)) as (y & Hy & Hok). rewrite (get_frag_Ok _ _ _ Hy), res_bind_Ok, Hok.
  destruct (ok f); simpl; [|done]. apply IH. intros. apply Hfs. by right.
Qed.

Lemma forallb_perm fs fs' : fs ≡ₚ fs' -> forallb ok fs = forallb ok fs'.
Proof.
  induction 1; simpl; try congruence. by rewrite !andb_assoc, (andb_comm (ok x)).
Qed.

Definition mset_fin (s : Store) (fs : list fid) : Prop :=
  exists msg, msgs s !! m = Some msg /\ m_Done msg = true /\ m_Error msg = [] /\ m_RspBody msg = mset_answer.

Lemma assemble_mset s dn f :
  mset_inv s dn -> (exists slot, body !! slot = Some f) ->
  (len dn + 1 < Z.of_nat (size body) ->
   exists s', assemble MsgMaxLength s f = Ok (Some (ECodec Continue), s') /\ mset_inv s' (f :: dn)) /\
  (Z.of_nat (size body) <= len dn + 1 -> (forall slot g, body !! slot = Some g -> g ∈ f :: dn) ->
   exists s', assemble MsgMaxLength s f = Ok (None, s') /\ mset_fin s' (f :: dn)).
Proof.
  intros [(msg & Hm & Ht & HB & HE & HN) Hfr] [slot Hslot].
  destruct (Hfr slot f Hslot) as (y & Hy & Hp & He & HR & Hok & _).
  set (msg1 := set_FragDone msg (len dn + 1)). set (y1 := set_ok y (ok f)).
  set (s1 := put_frag (put_msg s m msg1) f y1).
  assert (bool_decide (f_Type y = RspOk) = ok f) as Hb.
  { case_bool_decide as Hd; [by apply Hok in Hd|]. destruct (ok f); [|done]. by destruct Hd; apply Hok. }
  assert (forall slot' g, body !! slot' = Some g -> exists z, frags s1 !! g = Some z /\
    f_Peer z = Some m /\ f_Error z = [] /\ len (f_RspBody z) <= MsgMaxLength /\
    (f_Type z = RspOk <-> ok g = true) /\ (g ∈ f :: dn -> f_Ok z = ok g)) as Hfr'.
  { intros slot' g Hg. destruct (Hfr slot' g Hg) as (z & Hz & ? & ? & ? & ? & Hdn).
    cbn [frags put_frag with_frags s1]. destruct (decide (g = f)) as [->|Hne].
    - rewrite lookup_insert_eq. eexists. split; [done|]. simplify_eq. done.
    - rewrite lookup_insert_ne by done. eexists. split; [done|]. split_and!; try done.
      intros [->|Hin]%elem_of_cons; [done|]. by apply Hdn. }
  assert (assemble MsgMaxLength s f =
    if len dn + 1 <? Z.of_nat (size body) then Ok (Some (ECodec Continue), s1)
    else
      ok ← mset_all_ok s1 ((range body).*2);
      Ok (None, put_msg s1 m (set_answer msg1 (if ok : bool then OK else ErrUnKnown) []))) as ->.
  { unfold assemble. rewrite (get_frag_Ok _ _ _ Hy), res_bind_Ok.
    replace (MsgMaxLength <? _) with false by lia.
    rewrite (put_frag_id _ _ _ Hy), Hp. cbn [deref]. rewrite res_bind_Ok.
    rewrite (get_msg_Ok _ _ _ Hm), res_bind_Ok, He, Ht, HN. change (len [] <? 1) with true. cbn match.
    unfold MSet. rewrite (get_frag_Ok (put_msg s m _) f y) by done.
    rewrite res_bind_Ok, Hb, Hp. cbn [deref]. rewrite res_bind_Ok. fold msg1 y1 s1.
    rewrite (get_msg_Ok s1 m msg1) by (apply lookup_insert_eq). rewrite res_bind_Ok.
    cbn [m_FragDoneNumber m_Body set_FragDone msg1]. rewrite HB.
    assert (get_frag s1 f = Ok y1) as Hg1 by apply get_put_frag.
    destruct (len dn + 1 <? _); rewrite ?res_bind_Ok.
    { rewrite Hg1, res_bind_Ok. simpl. by rewrite He. }
    destruct (mset_all_ok s1 _) as [b| |]; [|done..]. rewrite !res_bind_Ok.
    destruct b; rewrite res_bind_Ok; rewrite (get_frag_Ok _ f y1) by (apply lookup_insert_eq);
      rewrite res_bind_Ok; simpl; by rewrite He, HE. }
  split.
  - intros Hlt. replace (len dn + 1 <? Z.of_nat (size body)) with true by lia.
    eexists. split; [done|]. split; [|exact Hfr'].
    exists msg1. cbn [msgs put_frag with_frags s1 put_msg with_msgs]. rewrite lookup_insert_eq, len_cons.
    split_and!; try done. simpl. lia.
  - intros Hge Hall. replace (len dn + 1 <? Z.of_nat (size body)) with false by lia.
    assert (forall g, g ∈ (range body).*2 -> exists z, frags s1 !! g = Some z /\ f_Ok z = ok g) as Hz.
    { intros g ([slot' g'] & -> & Hg%range_elem)%list_elem_of_fmap. simpl.
      destruct (Hfr' _ _ Hg) as (z & ? & ? & ? & ? & ? & Hz). eauto. }
    rewrite (mset_all_ok_spec s1 _ Hz), res_bind_Ok. eexists. split; [done|].
    eexists. split; [apply lookup_insert_eq|]. split_and!; try done.
    simpl. unfold mset_answer. by rewrite (forallb_perm _ ((map_to_list body).*2)) by (by rewrite range_perm).
Qed.

(** The replies of the fragments of an [mset], in whatever order they
    arrive, are conjoined: after the last arrival the message is done and
    answers [OK] exactly when every node answered [OK]. *)
Theorem mset_any_order s fs
    (Hs : mset_inv s []) (Hfs : fs ≡ₚ (map_to_list body).*2) (Hne : fs <> []) :
  exists s' msg, assemble_all MsgMaxLength s fs =
      Ok (replicate (length fs - 1) (Some (ECodec Continue)) ++ [None], s') /\
    msgs s' !! m = Some msg /\ m_Done msg = true /\
    m_RspBody msg = if forallb ok fs then OK else ErrUnKnown.
Proof.
  destruct (arrivals_all MsgMaxLength body mset_inv mset_fin assemble_mset s fs Hs Hfs Hne)
    as (s' & Hr & msg & Hm & Hd & _ & Hb).
  exists s', msg. split_and!; [done..|]. rewrite Hb. unfold mset_answer. by rewrite (forallb_perm fs _ Hfs).
Qed.
End mset.

Definition mset_frag (t : Command) : Frag :=
  mkFrag None None (Some 9%positive) (Some 1%positive) 1 0 0 [] [] [] OK [] t false false.
Definition mset_store : Store :=
  mkStore {[ 1%positive := set_Type (set_Body zeroMsg (<[7 := 3%positive]> {[ 5 := 2%positive ]})) ReqMset ]}
    (<[2%positive := mset_frag RspOk]> {[ 3%positive := mset_frag RspError ]}) 1 2 [] 4%positive.

Lemma mset_any_order_witness :
  exists s' msg, @assemble_all sorted_range 1024 mset_store [3%positive; 2%positive] =
      Ok (replicate 1 (Some (ECodec Continue)) ++ [None], s') /\
    msgs s' !! 1%positive = Some msg /\ m_Done msg = true /\
    m_RspBody msg = if forallb (fun f => bool_decide (f = 2%positive)) [3%positive; 2%positive] then OK else ErrUnKnown.
Proof.
  apply (@mset_any_order sorted_range 1024 1%positive (<[7 := 3%positive]> {[ 5 := 2%positive ]})
    (fun f => bool_decide (f = 2%positive)) mset_store [3%positive; 2%positive]).
  - split.
    + eexists. split; [reflexivity|]. done.
    + intros slot f [[<- <-]|[_ [<- <-]%lookup_singleton_Some]]%lookup_insert_Some;
        (eexists; split; [reflexivity|]; split_and!; done || by intros ?%elem_of_nil).
  - vm_compute. apply perm_swap || reflexivity.
  - discriminate.
Defined.

(** ** Error replies to split requests *)

(** When a node answers a fragment of an [mget] with an error line (for
    example -TRYAGAIN or -CLUSTERDOWN), assembling that fragment panics: the
    text after the first byte is read as an array length, the resulting -1 is
    used as a slice size. *)
Lemma mget_error_reply_panics `{MapRange} MsgMaxLength s f y m msg l
    (Hy : frags s !! f = Some y) (Hp : f_Peer y = Some m) (He : f_Error y = [])
    (Hm : msgs s !! m = Some msg) (Ht : m_Type msg = ReqMget)
    (HR : f_RspBody y = encode (RError l)) (Hfit : len (encode (RError l)) <= MsgMaxLength)
    (Hl : 10 ∉ l) (Hd : forallb is_digit l = false) :
  assemble MsgMaxLength s f = Panic.
Proof.
  unfold assemble. rewrite (get_frag_Ok _ _ _ Hy), res_bind_Ok, HR.
  replace (MsgMaxLength <? _) with false by lia. rewrite (put_frag_id _ _ _ Hy), Hp. cbn [deref].
  rewrite res_bind_Ok, (get_msg_Ok _ _ _ Hm), res_bind_Ok, He, Ht. change (len [] <? 1) with true. cbn match.
  unfold MGet. rewrite (get_frag_Ok _ f y) by done. rewrite res_bind_Ok. unfold parseMGet.
  rewrite HR, NewBuffer_at. change (encode (RError l)) with ((45 :: l) ++ crlf).
  rewrite <- (app_nil_r ((45 :: l) ++ crlf)), <- app_assoc.
  rewrite ReadLine_at by (split; [done|]; rewrite elem_of_cons; naive_solver lia). rewrite res_bind_Ok.
  rewrite slice_Ok, res_bind_Ok, subl_tail1 by (rewrite ?len_cons; pose proof (len_nonneg l); lia).
  assert ((parseLen l).1 = -1) as ->.
  { unfold parseLen. repeat case_if; try done. by rewrite parseLen_loop_bad. }
  done.
Qed.

Lemma mget_error_reply_panics_witness :
  @assemble sorted_range 1024
    (put_frag mget_store 2%positive
       (set_reply (mget_frag [str "a"; str "a"]) RspError (encode (RError (str "TRYAGAIN multiple keys"))))) 2%positive =
  Panic.
Proof.
  eapply (@mget_error_reply_panics sorted_range 1024 _ 2%positive); try reflexivity; [vm_compute; discriminate|not_in].
Defined.

(** An error line in reply to a fragment of a [del] counts as minus one
    deleted key and is not reported: with a single fragment the client is
    answered ":-1". *)
Lemma del_error_reply_counts `{MapRange} MsgMaxLength s f y m msg slot l
    (Hy : frags s !! f = Some y) (Hp : f_Peer y = Some m) (He : f_Error y = [])
    (Hm : msgs s !! m = Some msg) (Ht : m_Type msg = ReqDel) (HB : m_Body msg = {[slot := f]})
    (HN : m_FragDoneNumber msg = 0) (HD : m_DelNum msg = 0) (HE : m_Error msg = [])
    (HR : f_RspBody y = encode (RError l)) (Hfit : len (encode (RError l)) <= MsgMaxLength)
    (Hd : forallb is_digit l = false) :
  exists s' msg', assemble MsgMaxLength s f = Ok (None, s') /\ msgs s' !! m = Some msg' /\
    m_Done msg' = true /\ m_RspBody msg' = str ":-1" ++ crlf.
Proof.
  unfold assemble. rewrite (get_frag_Ok _ _ _ Hy), res_bind_Ok, HR.
  replace (MsgMaxLength <? _) with false by lia. rewrite (put_frag_id _ _ _ Hy), Hp. cbn [deref].
  rewrite res_bind_Ok, (get_msg_Ok _ _ _ Hm), res_bind_Ok, He, Ht, HN. change (len [] <? 1) with true. cbn match.
  unfold Del. rewrite (get_frag_Ok (put_msg s m _) f y) by done. rewrite res_bind_Ok, HR.
  assert (slice (encode (RError l)) 1 (len (encode (RError l)) - 2) = Ok l) as ->.
  { cbn [encode]. rewrite len_cons, len_app. change (len crlf) with 2. pose proof (len_nonneg l).
    rewrite slice_Ok by (rewrite ?len_cons, ?len_app; change (len crlf) with 2; lia). f_equal.
    change (45 :: l ++ crlf) with ([45] ++ l ++ crlf). rewrite subl_app_r by done.
    change (len [45]) with 1. replace (1 - 1) with 0 by lia.
    replace (1 + (len l + 2) - 2 - 1) with (len l) by lia. apply subl_head. }
  rewrite res_bind_Ok, Hp. cbn [deref]. rewrite res_bind_Ok, get_put_msg, res_bind_Ok.
  assert ((parseLen l).1 = -1) as ->.
  { unfold parseLen. repeat case_if; try done. by rewrite parseLen_loop_bad. }
  cbn [set_FragDone set_DelNum m_DelNum m_FragDoneNumber m_Body]. rewrite HB, HD, map_size_singleton.
  change (0 + 1 <? Z.of_nat 1) with false. cbn match. rewrite res_bind_Ok.
  rewrite (get_frag_Ok _ f (set_fdone y)) by (apply lookup_insert_eq). rewrite res_bind_Ok. simpl. rewrite He.
  change (0 <? len []) with false. cbn match. eexists _, _. split; [done|].
  split; [apply lookup_insert_eq|]. done.
Qed.

Lemma del_error_reply_counts_witness :
  exists s' msg', @assemble sorted_range 1024 (del_store (encode (RError (str "CLUSTERDOWN")))) 2%positive = Ok (None, s') /\
    msgs s' !! 1%positive = Some msg' /\ m_Done msg' = true /\ m_RspBody msg' = str ":-1" ++ crlf.
Proof.
  eapply (@del_error_reply_counts sorted_range 1024 _ 2%positive); try reflexivity. vm_compute. discriminate.
Defined.
