(* ===== verification/Pool.v ===== *)
(** * The connection pool of a Redis node

    [core/redis_pool.go]: a pool keeps its connections in a doubly linked list;
    [Get] opens connections up to [maxActive] and then rotates through them.
    The connections are those of the event loop, so dialling, [IsOpened] and
    [Close] are parameters over the loop's state [S]. *)

From S2P Require Import Prelude Errors Commands Codec Message.

(** ** The list of active connections *)

Record poolConn := mkPoolConn { pc_c : cid; pc_next : option positive; pc_prev : option positive }.

#[export] Program Instance poolConn_linked : Linked poolConn := {|
  get_prev := pc_prev;
  get_next := pc_next;
  set_prev p x := mkPoolConn (pc_c x) (pc_next x) p;
  set_next p x := mkPoolConn (pc_c x) p (pc_prev x);
|}.
Solve All Obligations with done.

Record activeList := mkActive { al_front : option positive; al_back : option positive; al_count : Z }.

Implicit Types h : gmap positive poolConn.

Definition pushFront (l : activeList) h (pc : positive) : res (activeList * gmap positive poolConn) :=
  h ← modify h pc (set_next (al_front l));
  h ← modify h pc (set_prev None);
  '(back, h) ← (if al_count l =? 0 then Ok (Some pc, h)
                else
                  f ← deref (al_front l);
                  h ← modify h f (set_prev (Some pc));
                  Ok (al_back l, h));
  Ok (mkActive (Some pc) back (al_count l + 1), h).

Definition popBack (l : activeList) h : res (activeList * gmap positive poolConn) :=
  let count := al_count l - 1 in
  pc ← deref (al_back l);
  '(l, h) ← (if count =? 0 then Ok (mkActive None None count, h)
             else
               match h !! pc with
               | None => Panic
               | Some x =>
                   p ← deref (pc_prev x);
                   h ← modify h p (set_next None);
                   Ok (mkActive (al_front l) (Some p) count, h)
               end);
  h ← modify h pc (fun x => set_prev None (set_next None x));
  Ok (l, h).

(** ** The pool *)

Record Pool := mkPool {
  p_Addr : bytes;
  p_Passwd : bytes;
  p_maxActive : Z;
  p_active : activeList;
  p_nodes : gmap positive poolConn;   (* the nodes allocated for [p_active] *)
  p_next : positive;
  p_LiftBanOrder : Z;
  p_LiftBanTime : Z;
  p_AutoBanFlag : bool;
  p_isSlave : bool;
  p_closed : bool;
  p_cancelled : bool;                 (* [cancel] was called: [ctx] is done *)
}.

Definition with_active (p : Pool) (l : activeList) h : Pool :=
  mkPool (p_Addr p) (p_Passwd p) (p_maxActive p) l h (p_next p) (p_LiftBanOrder p) (p_LiftBanTime p)
    (p_AutoBanFlag p) (p_isSlave p) (p_closed p) (p_cancelled p).
Definition with_ban (p : Pool) (order time : Z) (flag : bool) : Pool :=
  mkPool (p_Addr p) (p_Passwd p) (p_maxActive p) (p_active p) (p_nodes p) (p_next p) order time
    flag (p_isSlave p) (p_closed p) (p_cancelled p).

(** [newPool], without the goroutine it starts. *)
Definition newPool (addr passwd : bytes) (maxActive : Z) (isSlave : bool) : Pool :=
  mkPool addr passwd maxActive (mkActive None None 0) ∅ 1%positive 0 0 false isSlave false false.

(** [&poolConn{c: c}], then [pushFront]. *)
Definition add_conn (p : Pool) (c : cid) : res Pool :=
  let n := p_next p in
  '(l, h) ← pushFront (p_active p) (<[n := mkPoolConn c None None]> (p_nodes p)) n;
  Ok (mkPool (p_Addr p) (p_Passwd p) (p_maxActive p) l h (Pos.succ n) (p_LiftBanOrder p)
        (p_LiftBanTime p) (p_AutoBanFlag p) (p_isSlave p) (p_closed p) (p_cancelled p)).

Definition ActiveCount (p : Pool) : Z := al_count (p_active p).

Section pool.
Context {S : Type}.
(** [p.Dial], [IsOpened] and [Close] of a connection. *)
Context (Dial : S -> bytes -> bool -> res ((cid + error) * S)).
Context (IsOpened : S -> cid -> bool).
Context (CloseConn : S -> cid -> res S).

(** Dial a connection and put it at the front; nil when dialling fails. *)
Definition dial_front (p : Pool) (s : S) : res (option cid * Pool * S) :=
  '(r, s) ← Dial s (p_Addr p) (p_isSlave p);
  match r with
  | inr _ => Ok (None, p, s)
  | inl c => p ← add_conn p c; Ok (Some c, p, s)
  end.

(** The loop of [Get]: drop closed connections from the back, rotate the first
    open one to the front. *)
Fixpoint Get_loop (fuel : nat) (p : Pool) (s : S) : res (option cid * Pool) :=
  match fuel with
  | O => OutOfFuel
  | Datatypes.S fuel =>
      if al_count (p_active p) <? 1 then Ok (None, p)
      else
        pc ← deref (al_back (p_active p));
        '(l, h) ← popBack (p_active p) (p_nodes p);
        let p := with_active p l h in
        match h !! pc with
        | None => Panic
        | Some x =>
            if negb (IsOpened s (pc_c x)) then Get_loop fuel p s
            else
              '(l, h) ← pushFront l h pc;
              Ok (Some (pc_c x), with_active p l h)
        end
  end.

Definition Get (p : Pool) (s : S) : res (option cid * Pool * S) :=
  if p_closed p then Ok (None, p, s)
  else if al_count (p_active p) <? p_maxActive p then dial_front p s
  else
    '(r, p) ← Get_loop (Datatypes.S (Z.to_nat (al_count (p_active p)))) p s;
    match r with
    | Some c => Ok (Some c, p, s)
    | None => dial_front p s
    end.

(** The loop of [Release] along [next]. *)
Fixpoint close_from (fuel : nat) h (pc : option positive) (s : S) : res S :=
  match pc with
  | None => Ok s
  | Some n =>
      match fuel, h !! n with
      | O, _ => OutOfFuel
      | _, None => Panic
      | Datatypes.S fuel, Some x => s ← CloseConn s (pc_c x); close_from fuel h (pc_next x) s
      end
  end.

Definition Release (p : Pool) (s : S) : res (Pool * S) :=
  if p_closed p then Ok (p, s)
  else
    s ← close_from (Z.to_nat (al_count (p_active p))) (p_nodes p) (al_front (p_active p)) s;
    Ok (with_active p (mkActive None None 0) (p_nodes p), s).

Definition Close (p : Pool) (s : S) : res (Pool * S) :=
  if p_closed p then Ok (p, s)
  else
    '(p, s) ← Release p s;
    Ok (mkPool (p_Addr p) (p_Passwd p) (p_maxActive p) (p_active p) (p_nodes p) (p_next p)
          (p_LiftBanOrder p) (p_LiftBanTime p) (p_AutoBanFlag p) (p_isSlave p) true true, s).

Definition SetIsSlave (p : Pool) (isSlave : bool) (s : S) : res (Pool * S) :=
  if negb (Bool.eqb (p_isSlave p) isSlave) then
    Release (mkPool (p_Addr p) (p_Passwd p) (p_maxActive p) (p_active p) (p_nodes p) (p_next p)
      (p_LiftBanOrder p) (p_LiftBanTime p) (p_AutoBanFlag p) isSlave (p_closed p) (p_cancelled p)) s
  else Ok (p, s).
End pool.

(** ** The health monitor *)

(** [detect], after the connection: the reply to PING as text, or the error. *)
Definition detect (dial : option error) (ping : bytes + option error) : option error :=
  match dial with
  | Some e => Some e
  | None =>
      match ping with
      | inr (Some e) => Some e
      | inr None => Some (EText (str "unknown res"))     (* a reply that is not text *)
      | inl v => if bool_decide (v = str "PONG") then None else Some (EText (str "invalid res" ++ v))
      end
  end.

(** One tick of [monitor]: [d1] and [d2] are the outcomes of the two probes, the
    second made five seconds after a failed first one; [now] is the time after
    them.  [None] when the monitor ends. *)
Definition monitor_tick (p : Pool) (d1 d2 : option error) (now : Z) : option Pool :=
  if p_closed p then None
  else
    match d1, d2 with
    | None, _ | Some _, None => Some (with_ban p 0 (p_LiftBanTime p) false)
    | Some _, Some _ => Some (with_ban p (p_LiftBanOrder p) (now + 60 * 1000000000) true)
    end.

(** ** The list of connections a pool stands for *)

(** [activeList] is the queue of [Message] with its ends renamed: connections
    enter at the front (the queue's tail) and leave at the back (its head). *)
Definition as_queue (l : activeList) : Queue := mkQueue (al_front l) (al_back l) (al_count l).
Definition of_queue (q : Queue) : activeList := mkActive (q_tail q) (q_head q) (q_count q).

Lemma pushFront_queue l h pc :
  pushFront l h pc = ('(q, h) ← PushTail (as_queue l) h pc; Ok (of_queue q, h)).
Proof.
  unfold pushFront, PushTail. simpl. do 2 (destruct (modify _ _ _); simpl; [|done..]).
  destruct (al_count l =? 0); simpl; [done|]. destruct (deref _); simpl; [|done..].
  by destruct (modify _ _ _).
Qed.

Lemma popBack_queue l h :
  al_count l <> 0 -> popBack l h = ('(q, h) ← PopHead (as_queue l) h; Ok (of_queue q, h)).
Proof.
  intros Hc. unfold popBack, PopHead. simpl. replace (al_count l =? 0) with false by lia.
  destruct (deref (al_back l)) as [m| |]; simpl; [|done..].
  destruct (al_count l - 1 =? 0); simpl; [by destruct (modify _ _ _)|].
  destruct (h !! m) as [x|]; simpl; [|done]. destruct (deref _); simpl; [|done..].
  destruct (modify _ _ _); simpl; [|done..]. by destruct (modify _ _ _).
Qed.

(** The connections of the pool, the least recently used first. *)
Definition conns (p : Pool) (cs : list cid) : Prop :=
  exists ns, queue_repr (as_queue (p_active p)) (p_nodes p) ns /\
    Forall2 (fun n c => pc_c <$> p_nodes p !! n = Some c) ns cs /\
    Forall (fun n => Pos.lt n (p_next p)) ns.

Lemma conns_count p cs : conns p cs -> al_count (p_active p) = len cs.
Proof.
  intros (ns & [_ _ _ Hn] & Hf & _). simpl in Hn. rewrite Hn. unfold len.
  by rewrite (Forall2_length _ _ _ Hf).
Qed.

Lemma push_proj l h pc l' h' k :
  PushTail l h pc = Ok (l', h') -> pc_c <$> h' !! k = pc_c <$> h !! k.
Proof. intros Hp. by apply (queue_step_proj pc_c) with (o := QPushTail pc) (l := l) (l' := l'). Qed.
Lemma pop_proj l h l' h' k : PopHead l h = Ok (l', h') -> pc_c <$> h' !! k = pc_c <$> h !! k.
Proof. intros Hp. by apply (queue_step_proj pc_c) with (o := QPopHead) (l := l) (l' := l'). Qed.

Lemma Forall2_proj h h' ns cs :
  (forall k, k ∈ ns -> pc_c <$> h' !! k = pc_c <$> h !! k) ->
  Forall2 (fun n c => pc_c <$> h !! n = Some c) ns cs ->
  Forall2 (fun n c => pc_c <$> h' !! n = Some c) ns cs.
Proof.
  intros Hk Hf. induction Hf as [|n c ns cs Hn Hf IH]; constructor.
  - rewrite Hk by set_solver. done.
  - apply IH. intros k Hin. apply Hk. set_solver.
Qed.

(** What [pushFront] and [popBack] do to the list and the rest of the pool. *)
Lemma pushFront_spec l h ns cs pc c :
  queue_repr (as_queue l) h ns -> Forall2 (fun n c => pc_c <$> h !! n = Some c) ns cs ->
  pc_c <$> h !! pc = Some c -> pc ∉ ns ->
  exists l' h', pushFront l h pc = Ok (l', h') /\ queue_repr (as_queue l') h' (ns ++ [pc]) /\
    Forall2 (fun n c => pc_c <$> h' !! n = Some c) (ns ++ [pc]) (cs ++ [c]).
Proof.
  intros Hr Hf Hc Hn. destruct (h !! pc) as [x|] eqn:E; [|done]. simplify_eq/=.
  destruct (PushTail_spec _ _ _ _ x Hr E Hn) as (q & h' & Hp & Hr' & _).
  rewrite pushFront_queue, Hp. exists (of_queue q), h'. split; [done|].
  split; [by destruct q|]. apply Forall2_app.
  - apply (Forall2_proj h); [|done]. intros k _. by eapply push_proj.
  - constructor; [|done]. rewrite (push_proj _ _ _ _ _ _ Hp), E. done.
Qed.

Lemma popBack_spec l h n ns c cs :
  queue_repr (as_queue l) h (n :: ns) ->
  Forall2 (fun n c => pc_c <$> h !! n = Some c) (n :: ns) (c :: cs) ->
  al_back l = Some n /\
  exists l' h', popBack l h = Ok (l', h') /\ queue_repr (as_queue l') h' ns /\
    Forall2 (fun n c => pc_c <$> h' !! n = Some c) ns cs /\ pc_c <$> h' !! n = Some c.
Proof.
  intros Hr Hf. inversion Hf as [|? ? ? ? Hc Hf']; subst. split.
  { destruct Hr as [[Hh _] _ _ _]. done. }
  destruct (PopHead_spec _ _ _ _ Hr) as (q & h' & Hp & Hr' & _).
  rewrite popBack_queue, Hp.
  2:{ destruct Hr as [_ _ _ Hn]. simpl in Hn. rewrite Hn, len_cons. pose proof (len_nonneg ns). lia. }
  exists (of_queue q), h'. split; [done|]. split; [by destruct q|]. split.
  - apply (Forall2_proj h); [|done]. intros k _. by eapply pop_proj.
  - by rewrite (pop_proj _ _ _ _ _ Hp).
Qed.

(** The fields that [Get] leaves alone. *)
Definition same_config (p p' : Pool) : Prop :=
  p_Addr p' = p_Addr p /\ p_maxActive p' = p_maxActive p /\ p_isSlave p' = p_isSlave p /\
  p_closed p' = p_closed p.

Lemma conns_newPool addr passwd max slave : conns (newPool addr passwd max slave) [].
Proof. exists []. split_and!; [apply queue_repr_empty|constructor..]. Qed.

Lemma add_conn_spec p cs c :
  conns p cs -> exists p', add_conn p c = Ok p' /\ conns p' (cs ++ [c]) /\ same_config p p'.
Proof.
  intros (ns & Hr & Hf & Hlt). unfold add_conn.
  assert (p_next p ∉ ns) as Hn.
  { intros Hin. rewrite Forall_forall in Hlt. specialize (Hlt _ Hin). lia. }
  set (h1 := <[p_next p := mkPoolConn c None None]> (p_nodes p)).
  destruct (pushFront_spec (p_active p) h1 ns cs (p_next p) c) as (l' & h' & -> & Hr' & Hf').
  - by apply queue_repr_frame.
  - apply (Forall2_proj (p_nodes p)); [|done]. intros k Hk. subst h1.
    by rewrite lookup_insert_ne by set_solver.
  - subst h1. by rewrite lookup_insert_eq.
  - done.
  - eexists. split; [done|]. split; [|done]. exists (ns ++ [p_next p]). simpl. split_and!; [done..|].
    apply Forall_app. split; [|repeat constructor; simpl; lia].
    eapply Forall_impl; [exact Hlt|]. simpl. lia.
Qed.

(** ** The pool as a list *)

(** The abstract pool: its connections, least recently used first. *)
Record apool := mkApool {
  a_conns : list cid; a_addr : bytes; a_max : Z; a_slave : bool; a_closed : bool }.

Definition with_conns (a : apool) (cs : list cid) : apool :=
  mkApool cs (a_addr a) (a_max a) (a_slave a) (a_closed a).

Definition abs (p : Pool) (a : apool) : Prop :=
  conns p (a_conns a) /\ p_Addr p = a_addr a /\ p_maxActive p = a_max a /\
  p_isSlave p = a_slave a /\ p_closed p = a_closed a.

(** Closed connections leave until an open one is found, which becomes the most
    recently used. *)
Fixpoint rotate (open : cid -> bool) (cs : list cid) : option cid * list cid :=
  match cs with
  | [] => (None, [])
  | c :: cs => if open c then (Some c, cs ++ [c]) else rotate open cs
  end.

Inductive pool_op : Set := OGet | ORelease | OClose | OSetIsSlave (b : bool).

Section refinement.
Context {S : Type}.
Context (Dial : S -> bytes -> bool -> res ((cid + error) * S)).
Context (IsOpened : S -> cid -> bool).
Context (CloseConn : S -> cid -> res S).

Definition spec_dial (a : apool) (s : S) : res (option cid * apool * S) :=
  '(r, s) ← Dial s (a_addr a) (a_slave a);
  match r with
  | inr _ => Ok (None, a, s)
  | inl c => Ok (Some c, with_conns a (a_conns a ++ [c]), s)
  end.

Definition spec_get (a : apool) (s : S) : res (option cid * apool * S) :=
  if a_closed a then Ok (None, a, s)
  else if len (a_conns a) <? a_max a then spec_dial a s
  else
    match rotate (IsOpened s) (a_conns a) with
    | (Some c, cs) => Ok (Some c, with_conns a cs, s)
    | (None, cs) => spec_dial (with_conns a cs) s
    end.

Fixpoint close_all (cs : list cid) (s : S) : res S :=
  match cs with [] => Ok s | c :: cs => s ← CloseConn s c; close_all cs s end.

(** Every connection is closed, the most recently used first. *)
Definition spec_release (a : apool) (s : S) : res (apool * S) :=
  if a_closed a then Ok (a, s)
  else s ← close_all (rev (a_conns a)) s; Ok (with_conns a [], s).

Definition spec_step (a : apool) (s : S) (o : pool_op) : res (option cid * apool * S) :=
  match o with
  | OGet => spec_get a s
  | ORelease => '(a, s) ← spec_release a s; Ok (None, a, s)
  | OClose =>
      '(a, s) ← spec_release a s;
      Ok (None, mkApool (a_conns a) (a_addr a) (a_max a) (a_slave a) true, s)
  | OSetIsSlave b =>
      if Bool.eqb (a_slave a) b then Ok (None, a, s)
      else
        '(a, s) ← spec_release (mkApool (a_conns a) (a_addr a) (a_max a) b (a_closed a)) s;
        Ok (None, a, s)
  end.

Definition pool_step (p : Pool) (s : S) (o : pool_op) : res (option cid * Pool * S) :=
  match o with
  | OGet => Get Dial IsOpened p s
  | ORelease => '(p, s) ← Release CloseConn p s; Ok (None, p, s)
  | OClose => '(p, s) ← Close CloseConn p s; Ok (None, p, s)
  | OSetIsSlave b => '(p, s) ← SetIsSlave CloseConn p b s; Ok (None, p, s)
  end.

(** A script of operations; between two of them the loop may change its own
    state, [env] says how. *)
Fixpoint pool_run (env : S -> S) (p : Pool) (s : S) (os : list pool_op) : res (list (option cid) * Pool * S) :=
  match os with
  | [] => Ok ([], p, s)
  | o :: os =>
      '(r, p, s) ← pool_step p (env s) o;
      '(rs, p, s) ← pool_run env p s os;
      Ok (r :: rs, p, s)
  end.
Fixpoint spec_run (env : S -> S) (a : apool) (s : S) (os : list pool_op) : res (list (option cid) * apool * S) :=
  match os with
  | [] => Ok ([], a, s)
  | o :: os =>
      '(r, a, s) ← spec_step a (env s) o;
      '(rs, a, s) ← spec_run env a s os;
      Ok (r :: rs, a, s)
  end.

(** Results agree and the pools stay related. *)
Definition agree {R} (x : R * Pool * S) (y : R * apool * S) : Prop :=
  x.1.1 = y.1.1 /\ abs x.1.2 y.1.2 /\ x.2 = y.2.

Lemma dial_front_refines p a s :
  abs p a -> res_rel agree (dial_front Dial p s) (spec_dial a s).
Proof.
  intros (Hc & Ha & Hm & Hs & Hcl). unfold dial_front, spec_dial. rewrite Ha, Hs.
  destruct (Dial s (a_addr a) (a_slave a)) as [[[c|e] s']| |]; simpl; [|done..].
  destruct (add_conn_spec p (a_conns a) c Hc) as (p' & -> & Hc' & H1 & H2 & H3 & H4).
  simpl. split; [done|]. split; [|done]. split_and!; simpl; congruence || done.
Qed.

Lemma Get_loop_spec fuel p cs s :
  conns p cs -> (length cs < fuel)%nat ->
  exists p', Get_loop IsOpened fuel p s = Ok ((rotate (IsOpened s) cs).1, p') /\
    conns p' (rotate (IsOpened s) cs).2 /\ same_config p p'.
Proof.
  revert p cs. induction fuel as [|fuel IH]; intros p cs Hp Hf; [lia|]. simpl.
  rewrite (conns_count p cs Hp). destruct cs as [|c cs]; [by exists p|].
  replace (len (c :: cs) <? 1) with false by (rewrite len_cons; pose proof (len_nonneg cs); lia).
  destruct Hp as (ns & Hr & Hf2 & Hlt). inversion Hf2 as [|n ? ns' ? Hn Hf']; subst.
  destruct (popBack_spec _ _ _ _ _ _ Hr Hf2) as (-> & l & h & -> & Hr1 & Hf1 & Hn1). simpl.
  destruct (h !! n) as [x|] eqn:Ex; [|done]. simplify_eq/=. inversion Hlt as [|? ? Hn2 Hlt2]; subst.
  destruct (IsOpened s (pc_c x)); simpl.
  - destruct (pushFront_spec l h ns' cs n (pc_c x)) as (l' & h' & -> & Hr2 & Hf3); [done..|by rewrite Ex| |].
    { destruct Hr as [_ Hnd _ _]. by apply NoDup_cons in Hnd as [? _]. }
    eexists. split; [done|]. split; [|done]. exists (ns' ++ [n]). split_and!; [done..|].
    apply Forall_app. split; [done|by repeat constructor].
  - destruct (IH (with_active p l h) cs) as (p' & -> & Hc & Hsame); [by exists ns'|lia|].
    by exists p'.
Qed.

Lemma Get_refines p a s : abs p a -> res_rel agree (Get Dial IsOpened p s) (spec_get a s).
Proof.
  intros Habs. pose proof Habs as (Hc & Ha & Hm & Hs & Hcl). unfold Get, spec_get.
  rewrite Hcl, Hm, (conns_count _ _ Hc). destruct (a_closed a) eqn:Ecl; [done|].
  destruct (len (a_conns a) <? a_max a); [by apply dial_front_refines|].
  destruct (Get_loop_spec (Datatypes.S (Z.to_nat (len (a_conns a)))) p (a_conns a) s Hc)
    as (p' & -> & Hc' & H1 & H2 & H3 & H4); [unfold len; lia|].
  rewrite res_bind_Ok. destruct (rotate (IsOpened s) (a_conns a)) as [[c|] cs]; simpl in *.
  - split; [done|]. split; [|done]. split_and!; simpl; congruence || done.
  - apply dial_front_refines. split_and!; simpl; congruence || done.
Qed.

(** From any element, [next] leads to the one pushed before it. *)
Lemma chain_next h nx pr ls m ls' :
  chain h nx pr (ls ++ m :: ls') ->
  exists x, h !! m = Some x /\ get_next x = match last ls with Some y => Some y | None => nx end.
Proof.
  revert nx pr. induction ls as [|y ls IH]; intros nx pr; simpl.
  - intros (_ & x & Hx & Hn & _). eauto.
  - intros (_ & z & _ & _ & Hc). destruct (IH _ _ Hc) as (x & Hx & Hn). exists x. split; [done|].
    etrans; [exact Hn|]. rewrite last_cons. by destruct (last ls).
Qed.

Lemma close_from_spec h pr ns ns' cs fuel s :
  chain h None pr (ns ++ ns') -> Forall2 (fun n c => pc_c <$> h !! n = Some c) ns cs ->
  (length ns <= fuel)%nat ->
  close_from CloseConn fuel h (last ns) s = close_all (rev cs) s.
Proof.
  revert ns' cs fuel s. induction ns as [|n ns IH] using rev_ind; intros ns' cs fuel s Hc Hf Hl.
  { inversion Hf. subst. by destruct fuel. }
  apply Forall2_app_inv_l in Hf as (cs1 & cs2 & Hf & Hn & ->).
  inversion Hn as [|? c ? ? Hnc Hn']; subst. inversion Hn'; subst.
  rewrite last_snoc, rev_app_distr. rewrite <- app_assoc in Hc. simpl in *.
  destruct (chain_next _ _ _ _ _ _ Hc) as (x & Hx & Hnx). rewrite length_app in Hl. simpl in Hl.
  destruct fuel as [|fuel]; [lia|]. simpl. rewrite Hx in *. simplify_eq/=.
  destruct (CloseConn s (pc_c x)) as [s'| |]; simpl; [|done..].
  replace (pc_next x) with (last ns) by (symmetry; etrans; [exact Hnx|]; by destruct (last ns)).
  apply (IH (n :: ns')); [done|done|lia].
Qed.

Lemma Release_refines p a s :
  abs p a ->
  res_rel (fun x y => abs x.1 y.1 /\ x.2 = y.2) (Release CloseConn p s) (spec_release a s).
Proof.
  intros (Hc & Ha & Hm & Hs & Hcl). unfold Release, spec_release. rewrite Hcl.
  destruct (a_closed a) eqn:Ecl; [simpl; unfold abs; by rewrite Ecl|]. rewrite (conns_count _ _ Hc).
  destruct Hc as (ns & [Hch _ Ht Hn] & Hf & _). simpl in Ht. rewrite Ht.
  rewrite (close_from_spec _ (al_back (p_active p)) ns [] (a_conns a)).
  - destruct (close_all _ s) as [s'| |]; simpl; [|done..]. split; [|done].
    split_and!; simpl; [|congruence..]. exists []. split_and!; [|constructor..].
    split; simpl; done || constructor.
  - by rewrite app_nil_r.
  - done.
  - rewrite (Forall2_length _ _ _ Hf). unfold len. lia.
Qed.

Lemma pool_step_refines p a s o :
  abs p a -> res_rel agree (pool_step p s o) (spec_step a s o).
Proof.
  intros Habs. destruct o as [| | |b]; simpl.
  - by apply Get_refines.
  - eapply res_rel_bind; [by apply Release_refines|]. by intros [p' s'] [a' s''] [? ?].
  - pose proof Habs as (_ & _ & _ & _ & Hcl). unfold Close. destruct (p_closed p) eqn:E.
    { unfold spec_release. rewrite <- Hcl. simpl. split; [done|]. split; [|done].
      destruct Habs as (? & ? & ? & ? & ?). split_and!; done. }
    pose proof (Release_refines p a s Habs) as Hr.
    destruct (Release _ _ _) as [[p' s']| |], (spec_release _ _) as [[a' s'']| |]; simpl in *; try done.
    destruct Hr as [(? & ? & ? & ? & ?) ->]. split; [done|]. split; [|done]. by split_and!.
  - pose proof Habs as (Hc & Ha & Hm & Hs & Hcl). unfold SetIsSlave. rewrite Hs.
    destruct (Bool.eqb (a_slave a) b) eqn:E; simpl; [done|].
    eapply res_rel_bind; [apply Release_refines|by intros [p' s'] [a' s''] [? ?]].
    by split_and!.
Qed.

Lemma pool_run_refines env os p a s :
  abs p a -> res_rel agree (pool_run env p s os) (spec_run env a s os).
Proof.
  revert p a s. induction os as [|o os IH]; intros p a s Habs; simpl; [done|].
  eapply res_rel_bind; [by apply pool_step_refines|].
  intros [[r p'] s'] [[r' a'] s''] (Hr & Ha & Hs). simpl in *. subst.
  eapply res_rel_bind; [by apply IH|].
  intros [[rs p2] s2] [[rs' a2] s2'] (Hrs & Ha2 & Hs2). simpl in *. by subst.
Qed.

(** ** Bounds *)

Definition within (a : apool) : Prop := len (a_conns a) <= Z.max 1 (a_max a).

Lemma rotate_len open cs : len (rotate open cs).2 <= len cs.
Proof.
  induction cs as [|c cs IH]; simpl; [done|]. destruct (open c); simpl.
  - rewrite len_app, !len_cons, len_nil. lia.
  - rewrite len_cons. lia.
Qed.

Lemma rotate_None open cs : (rotate open cs).1 = None -> (rotate open cs).2 = [].
Proof. induction cs as [|c cs IH]; simpl; [done|]. by destruct (open c). Qed.

Lemma spec_dial_within a s r a' s' :
  len (a_conns a) < Z.max 1 (a_max a) -> spec_dial a s = Ok (r, a', s') ->
  within a' /\ a_max a' = a_max a.
Proof.
  intros Hl Hd. unfold spec_dial in Hd. bind_inv Hd. destruct a0 as [[c|e] s1]; simplify_eq; unfold within; simpl.
  - rewrite len_app. change (len [c]) with 1. lia.
  - lia.
Qed.

Lemma spec_release_within a s a' s' :
  within a -> spec_release a s = Ok (a', s') -> within a' /\ a_max a' = a_max a.
Proof.
  intros Hw Hr. unfold spec_release in Hr. case_if_in Hr; [by simplify_eq|].
  bind_inv Hr. simplify_eq. unfold within. simpl. rewrite len_nil. split; [lia|done].
Qed.

Lemma spec_step_within a s o r a' s' :
  within a -> spec_step a s o = Ok (r, a', s') -> within a' /\ a_max a' = a_max a.
Proof.
  intros Hw Hs. unfold within in Hw. destruct o as [| | |b]; simpl in Hs.
  - unfold spec_get in Hs. case_if_in Hs; [by simplify_eq|].
    case_if_in Hs; [eapply spec_dial_within; [|done]; lia|].
    pose proof (rotate_len (IsOpened s) (a_conns a)). pose proof (rotate_None (IsOpened s) (a_conns a)) as Hn.
    destruct (rotate _ _) as [[c|] cs]; simplify_eq/=.
    + unfold within. simpl. lia.
    + rewrite Hn in Hs by done. eapply spec_dial_within in Hs; [done|]. simpl. rewrite len_nil. lia.
  - bind_inv Hs. destruct a0 as [a1 s1]. simplify_eq. by eapply spec_release_within.
  - bind_inv Hs. destruct a0 as [a1 s1]. simplify_eq. by eapply spec_release_within in Ha.
  - case_if_in Hs; [by simplify_eq|]. bind_inv Hs. destruct a0 as [a1 s1]. simplify_eq.
    by eapply spec_release_within in Ha.
Qed.

Lemma spec_run_within env os a s rs a' s' :
  within a -> spec_run env a s os = Ok (rs, a', s') -> within a' /\ a_max a' = a_max a.
Proof.
  revert a s rs a' s'. induction os as [|o os IH]; intros a s rs a' s' Hw Hr; simpl in Hr; [by simplify_eq|].
  bind_inv Hr. destruct a0 as [[r a1] s1]. bind_inv Hr. destruct a0 as [[rs1 a2] s2]. simplify_eq.
  apply spec_step_within in Ha as [Hw1 Hm1]; [|done]. apply IH in Ha0 as [? ?]; [|done]. split; [done|congruence].
Qed.

(** C24: whatever the order of [Get], [Release], [Close] and [SetIsSlave] calls,
    and whatever dialling returns or connections do in between, a pool behaves
    as the list of its connections from least to most recently used: [Get]
    dials below [maxActive], otherwise drops closed connections and rotates the
    first open one, and dials when none is left; a release closes each
    connection once and empties the list.  The linked list never follows a nil
    pointer and its length never exceeds [maxActive] (or one). *)
Theorem pool_refines_list (env : S -> S) addr passwd max slave os s :
  res_rel (fun x y => agree x y /\ ActiveCount x.1.2 = len (a_conns y.1.2) /\
                      ActiveCount x.1.2 <= Z.max 1 max)
    (pool_run env (newPool addr passwd max slave) s os)
    (spec_run env (mkApool [] addr max slave false) s os).
Proof.
  pose proof (pool_run_refines env os (newPool addr passwd max slave) (mkApool [] addr max slave false) s) as Hr.
  pose proof (spec_run_within env os (mkApool [] addr max slave false) s) as Hw.
  destruct (pool_run _ _ _ _) as [[[rs p] s1]| |], (spec_run _ _ _ _) as [[[rs' a] s2]| |]; simpl in *;
    try (apply Hr; split_and!; [apply conns_newPool|done..]).
  assert (agree (rs, p, s1) (rs', a, s2)) as Hag by (apply Hr; split_and!; [apply conns_newPool|done..]).
  split; [done|]. destruct Hag as (_ & (Hc & _) & _). simpl in Hc.
  unfold ActiveCount. rewrite (conns_count _ _ Hc). split; [done|].
  destruct (Hw _ _ _ ltac:(unfold within; simpl; rewrite len_nil; lia) eq_refl) as [Hb Hm].
  unfold within in Hb. simpl in *. by rewrite Hm in Hb.
Qed.

(** ** Fairness *)

Lemma gets_rotate p cs1 cs2 s :
  conns p (cs1 ++ cs2) -> p_closed p = false -> p_maxActive p <= len (cs1 ++ cs2) ->
  Forall (fun c => IsOpened s c = true) (cs1 ++ cs2) ->
  exists p', pool_run id p s (repeat OGet (length cs1)) = Ok (Some <$> cs1, p', s) /\
    conns p' (cs2 ++ cs1) /\ same_config p p'.
Proof.
  revert p cs2. induction cs1 as [|c cs1 IH]; intros p cs2 Hc Hcl Hm Ho.
  { exists p. rewrite app_nil_r. done. }
  cbn [length repeat pool_run pool_step fmap list_fmap]. unfold Get at 1. change (id s) with s.
  rewrite Hcl, (conns_count _ _ Hc). replace (len ((c :: cs1) ++ cs2) <? p_maxActive p) with false by lia.
  destruct (Get_loop_spec (Datatypes.S (Z.to_nat (len ((c :: cs1) ++ cs2)))) p _ s Hc)
    as (p' & -> & Hc' & Hsame); [unfold len; lia|]. rewrite res_bind_Ok.
  inversion Ho as [|? ? Hopen Ho']; subst. simpl in Hc'. simpl rotate. rewrite Hopen in *. simpl in *.
  rewrite <- app_assoc in Hc'. pose proof Hsame as (H1 & H2 & H3 & H4).
  destruct (IH p' (cs2 ++ [c])) as (p2 & -> & Hc2 & Hs2).
  - done.
  - by rewrite H4.
  - rewrite H2. etrans; [exact Hm|]. unfold len. rewrite !length_app. simpl. rewrite length_app. lia.
  - rewrite app_assoc. apply Forall_app. split; [done|by repeat constructor].
  - exists p2. rewrite res_bind_Ok. split; [done|]. rewrite <- app_assoc in Hc2. split; [done|].
    destruct Hs2 as (? & ? & ? & ?). split_and!; congruence.
Qed.
End refinement.

(** When a pool is full and its connections are open, as many [Get] calls
    as it has connections return each of them once, the least recently used
    first, dial nothing, and leave the pool in the same order. *)
Theorem Get_round_robin {S} (Dial : S -> bytes -> bool -> res ((cid + error) * S))
    (IsOpened : S -> cid -> bool) (CloseConn : S -> cid -> res S) p cs s
    (Hp : conns p cs) (Hcl : p_closed p = false) (Hfull : p_maxActive p <= len cs)
    (Hopen : Forall (fun c => IsOpened s c = true) cs) :
  exists p', pool_run Dial IsOpened CloseConn id p s (repeat OGet (length cs)) = Ok (Some <$> cs, p', s) /\
    conns p' cs.
Proof.
  destruct (gets_rotate Dial IsOpened CloseConn p cs [] s) as (p' & Hr & Hc & _);
    rewrite ?app_nil_r; try done. eauto.
Qed.

(** A loop that numbers the connections it dials; connection 2 is closed. *)
Definition count_dial (s : positive) (_ : bytes) (_ : bool) : res ((cid + error) * positive) :=
  Ok (inl s, Pos.succ s).
Definition skip_close (s : positive) (_ : cid) : res positive := Ok s.
Definition not_two (_ : positive) (c : cid) : bool := negb (c =? 2)%positive.
Definition full_pool : Pool :=
  match pool_run count_dial (fun _ _ => true) skip_close id (newPool (str "a:1") [] 3 false) 1%positive
          [OGet; OGet; OGet] with
  | Ok (_, p, _) => p
  | _ => newPool [] [] 0 false
  end.

Lemma conns_full_pool : conns full_pool [1; 2; 3]%positive.
Proof.
  exists [1; 2; 3]%positive. split_and!.
  - split; [|repeat constructor; set_solver|vm_compute; reflexivity..].
    vm_compute. repeat (split; [reflexivity|eexists; split; [reflexivity|split; [reflexivity|]]]). reflexivity.
  - repeat constructor.
  - repeat constructor.
Qed.

Lemma Get_round_robin_witness :
  exists p', pool_run count_dial (fun _ _ => true) skip_close id full_pool 4%positive (repeat OGet 3) =
      Ok (Some <$> [1; 2; 3]%positive, p', 4%positive) /\ conns p' [1; 2; 3]%positive.
Proof.
  apply (Get_round_robin count_dial (fun _ _ => true) skip_close full_pool [1; 2; 3]%positive 4%positive).
  - apply conns_full_pool.
  - reflexivity.
  - vm_compute. discriminate.
  - repeat constructor.
Defined.

(** A closed connection is dropped; below [maxActive] the pool dials again. *)
Example pool_sample :
  (fun x => x.1.1) <$> pool_run count_dial not_two skip_close id full_pool 4%positive (repeat OGet 5) =
  Ok [Some 1; Some 3; Some 4; Some 1; Some 3]%positive.
Proof. vm_compute. reflexivity. Qed.
