(* ===== verification/Cluster.v ===== *)
(** * The cluster topology

    [core/cluster.go]: the reply to CLUSTER NODES is parsed into nodes, compared
    with the topology in force and turned into the server map and the replica
    sets from which the event loop fills its slot table.  The concurrent hash
    map of the third-party package is a class with its documented behaviour;
    the INFO reply of a node is a parameter. *)

From S2P Require Import Prelude Errors Commands Codec Message CodecC CodecS.

(** [github.com/cornelk/hashmap]: a map from strings whose [Insert] leaves an
    existing key alone and whose iteration visits every entry once. *)
Class HashMap (V : Type) := {
  hmap : Type;
  hm_empty : hmap;
  hm_view : hmap -> gmap bytes V;
  hm_Get : hmap -> bytes -> option V;
  hm_Insert : hmap -> bytes -> V -> hmap;
  hm_GetOrInsert : hmap -> bytes -> V -> hmap * bool;   (* [true]: the key was there *)
  hm_Del : hmap -> bytes -> hmap;
  hm_Len : hmap -> Z;
  hm_Iter : hmap -> list (bytes * V);
  hm_empty_view : hm_view hm_empty = ∅;
  hm_Get_view : forall m k, hm_Get m k = hm_view m !! k;
  hm_Insert_view : forall m k v,
    hm_view (hm_Insert m k v) = match hm_view m !! k with Some _ => hm_view m | None => <[k := v]> (hm_view m) end;
  hm_GetOrInsert_view : forall m k v,
    hm_view (hm_GetOrInsert m k v).1 = match hm_view m !! k with Some _ => hm_view m | None => <[k := v]> (hm_view m) end /\
    (hm_GetOrInsert m k v).2 = match hm_view m !! k with Some _ => true | None => false end;
  hm_Del_view : forall m k, hm_view (hm_Del m k) = delete k (hm_view m);
  hm_Len_view : forall m, hm_Len m = Z.of_nat (size (hm_view m));
  hm_Iter_perm : forall m, hm_Iter m ≡ₚ map_to_list (hm_view m);
}.

Lemma gmap_GetOrInsert {V} (m : gmap bytes V) k v :
  (match m !! k with Some _ => (m, true) | None => (<[k := v]> m, false) end).1 =
    match m !! k with Some _ => m | None => <[k := v]> m end /\
  (match m !! k with Some _ => (m, true) | None => (<[k := v]> m, false) end).2 =
    match m !! k with Some _ => true | None => false end.
Proof. by destruct (m !! k). Qed.

Definition gmap_HashMap (V : Type) : HashMap V := {|
  hmap := gmap bytes V;
  hm_empty := ∅;
  hm_view m := m;
  hm_Get m k := m !! k;
  hm_Insert m k v := match m !! k with Some _ => m | None => <[k := v]> m end;
  hm_GetOrInsert m k v := match m !! k with Some _ => (m, true) | None => (<[k := v]> m, false) end;
  hm_Del m k := delete k m;
  hm_Len m := Z.of_nat (size m);
  hm_Iter m := map_to_list m;
  hm_empty_view := eq_refl;
  hm_Get_view _ _ := eq_refl;
  hm_Insert_view _ _ _ := eq_refl;
  hm_GetOrInsert_view := gmap_GetOrInsert;
  hm_Del_view _ _ := eq_refl;
  hm_Len_view _ := eq_refl;
  hm_Iter_perm _ := Permutation_refl _;
|}.

(** ** Data *)

Inductive Role : Set := Master | Slave.

#[export] Instance Role_eq_dec : EqDecision Role.
Proof. solve_decision. Defined.

Record Slots := mkSlots { Start : Z; End_ : Z }.

Record ClusterNode := mkNode {
  n_Name : bytes;
  n_Addr : bytes;
  n_Ip : bytes;
  n_Port : Z;
  n_CPort : Z;
  n_Role : Role;
  n_MasterId : bytes;
  n_Flags : bytes;
  n_PingSent : Z;
  n_PongReceived : Z;
  n_ConfigEpoch : Z;
  n_Connected : bool;
  n_Version : bytes;
  n_Slots : list Slots;
}.

Record replicaset := mkReplicaset { rs_Master : ClusterNode; rs_Slaves : list ClusterNode }.

(** The part of [redis.Info] the parser reads. *)
Record Info := mkInfo { i_Version : bytes; i_Loading : bool; i_MasterLinkStatus : bytes }.

(** ** Strings and numbers *)

(** [strings.Contains]. *)
Fixpoint Contains (s sub : bytes) : bool :=
  HasPrefix s sub || match s with [] => false | _ :: s => Contains s sub end.

(** [strings.Join]. *)
Fixpoint Join (l : list bytes) (sep : bytes) : bytes :=
  match l with [] => [] | [s] => s | s :: l => s ++ sep ++ Join l sep end.

(** The order of strings, and [sort.Strings]. *)
Fixpoint string_leb (a b : bytes) : bool :=
  match a, b with
  | [], _ => true
  | _ :: _, [] => false
  | x :: a, y :: b => if x <? y then true else if y <? x then false else string_leb a b
  end.
Fixpoint insert_string (s : bytes) (l : list bytes) : list bytes :=
  match l with [] => [s] | t :: l => if string_leb s t then s :: t :: l else t :: insert_string s l end.
Definition sort_Strings (l : list bytes) : list bytes := foldr insert_string [] l.

(** [strconv.ParseUint(s, 10, bitSize)], after the test for the empty string. *)
Fixpoint ParseUint10_loop (s : bytes) (maxVal n : Z) : Z * option error :=
  match s with
  | [] => (n, None)
  | c :: s =>
      if negb ((48 <=? c) && (c <=? 57)) then (0, Some (EIo ErrSyntax))
      else if (2 ^ 64 - 1) / 10 + 1 <=? n then (maxVal, Some (EIo ErrRange))
      else if maxVal <? n * 10 + (c - 48) then (maxVal, Some (EIo ErrRange))
      else ParseUint10_loop s maxVal (n * 10 + (c - 48))
  end.
Definition ParseUint10 (s : bytes) (bitSize : Z) : Z * option error :=
  match s with [] => (0, Some (EIo ErrSyntax)) | _ => ParseUint10_loop s (2 ^ bitSize - 1) 0 end.

(** [strconv.ParseInt(s, 10, bitSize)]; [strconv.Atoi] is the 64-bit case. *)
Definition ParseInt10 (s : bytes) (bitSize : Z) : Z * option error :=
  match s with
  | [] => (0, Some (EIo ErrSyntax))
  | c :: t =>
      let neg := c =? 45 in
      let '(un, err) := ParseUint10 (if neg || (c =? 43) then t else s) bitSize in
      if bool_decide (err <> None /\ err <> Some (EIo ErrRange)) then (0, err)
      else
        let cutoff := 2 ^ (bitSize - 1) in
        if negb neg && (cutoff <=? un) then (cutoff - 1, Some (EIo ErrRange))
        else if neg && (cutoff <? un) then (- cutoff, Some (EIo ErrRange))
        else ((if neg then - un else un), None)
  end.
Definition Atoi (s : bytes) : Z * option error := ParseInt10 s 64.

(** [net.JoinHostPort]. *)
Definition JoinHostPort (host port : bytes) : bytes :=
  if bool_decide (58 ∈ host) then str "[" ++ host ++ str "]:" ++ port else host ++ str ":" ++ port.

(** ** Parsing CLUSTER NODES *)

(** [parseAddr]: address, ip, port and cluster port; empty when invalid. *)
Definition parseAddr (addrStr : bytes) : bytes * bytes * Z * Z :=
  let '(ip, portAndCPort) :=
    match Split addrStr 58 with a :: b :: _ => (a, b) | _ => ([], []) end in
  if len ip <? 1 then ([], [], 0, 0)
  else
    let '(portStr, cPortStr) :=
      match Split portAndCPort 64 with a :: b :: _ => (a, b) | [a] => (a, []) | [] => ([], []) end in
    if len portStr <? 1 then ([], [], 0, 0)
    else
      match Atoi portStr with
      | (_, Some _) => ([], [], 0, 0)
      | (port, None) =>
          (JoinHostPort ip portStr, ip, port, if 0 <? len cPortStr then (Atoi cPortStr).1 else 0)
      end.

(** [parseSlot]: the bounds of a slot range. *)
Definition parseSlot (slotsStr : bytes) : (Z * Z) + error :=
  let slots := Split slotsStr 45 in
  match ParseInt10 (default [] (head slots)) 32 with
  | (_, Some _) => inr (EText (str "slot parse failed"))
  | (start, None) =>
      match slots with
      | _ :: s1 :: _ =>
          match ParseInt10 s1 32 with
          | (_, Some _) => inr (EText (str "slot parse failed"))
          | (fin, None) => inl (wrap32 start, wrap32 fin)
          end
      | _ => inl (wrap32 start, wrap32 start)
      end
  end.

(** The loop over the slot columns; migrating slots are skipped. *)
Fixpoint parseSlots (cols : list bytes) : list Slots + error :=
  match cols with
  | [] => inl []
  | c :: cols =>
      if HasPrefix c (str "[") then parseSlots cols
      else
        match parseSlot c with
        | inr e => inr e
        | inl (a, b) =>
            match parseSlots cols with inr e => inr e | inl l => inl (mkSlots a b :: l) end
        end
  end.

Definition newClusterNode (line : list bytes) : res (ClusterNode + error) :=
  name ← index line 0;
  l1 ← index line 1;
  let '(addr, ip, port, cport) := parseAddr l1 in
  if len addr <? 1 then Ok (inr (EText (str "node " ++ addr ++ str " addr invalid")))
  else
    l2 ← index line 2;
    let role := if Contains l2 (str "master") then Master else Slave in
    l3 ← index line 3;
    l4 ← index line 4;
    l5 ← index line 5;
    l6 ← index line 6;
    l7 ← index line 7;
    let node := mkNode name addr ip port cport role l3 l2 (ParseInt10 l4 64).1 (ParseInt10 l5 64).1
                  (ParseUint10 l6 64).1 (bool_decide (l7 = str "connected")) [] in
    match role with
    | Slave => Ok (inl (node []))
    | Master =>
        if len line <? 9 then Ok (inr (EText (str "slot not found")))
        else
          match parseSlots (drop 8 line) with
          | inr e => Ok (inr e)
          | inl slots => Ok (inl (node slots))
          end
    end.

Definition with_version (n : ClusterNode) (v : bytes) : ClusterNode :=
  mkNode (n_Name n) (n_Addr n) (n_Ip n) (n_Port n) (n_CPort n) (n_Role n) (n_MasterId n) (n_Flags n)
    (n_PingSent n) (n_PongReceived n) (n_ConfigEpoch n) (n_Connected n) v (n_Slots n).

Section cluster.
Context `{HashMap ClusterNode}.

(** [redisInfo]: what the INFO command answers at an address. *)
Context (redisInfo : bytes -> Info + error).

(** The fields of [ClusterNodes] that change. *)
Record ClusterNodes := mkClusterNodes {
  ServerMap : hmap;
  Replicasets : list replicaset;
  lastServerNames : bytes;
  serverChanged : bool;
}.

(** One line of [parse]: the node, or nothing when the line is skipped. *)
Definition parse_line (c : ClusterNodes) (line : bytes) : res (option ClusterNode) :=
  let xs := Split line 32 in
  if len xs <? 8 then Ok None
  else
    x2 ← index xs 2;
    x7 ← index xs 7;
    if Contains x2 (str "noaddr") || Contains x2 (str "handshake") then Ok None
    else if Contains x2 (str "fail") then Ok None
    else if negb (Contains x2 (str "master")) && negb (Contains x2 (str "slave")) then Ok None
    else if Contains x7 (str "disconnected") then Ok None
    else
      r ← newClusterNode xs;
      match r with
      | inr _ => Ok None
      | inl node =>
          match hm_Get (ServerMap c) (n_Addr node) with
          | Some _ => Ok (Some node)
          | None =>
              match redisInfo (n_Addr node) with
              | inr _ => Ok None
              | inl info =>
                  if bool_decide (n_Role node = Slave) && i_Loading info then Ok None
                  else if bool_decide (n_Role node = Slave) &&
                          negb (bool_decide (i_MasterLinkStatus info = str "up")) then Ok None
                  else Ok (Some (with_version node (i_Version info)))
              end
          end
      end.

Fixpoint parse_lines (c : ClusterNodes) (lines : list bytes) : res (list ClusterNode) :=
  match lines with
  | [] => Ok []
  | l :: lines =>
      n ← parse_line c l;
      ns ← parse_lines c lines;
      Ok (match n with Some n => n :: ns | None => ns end)
  end.

Definition parse (c : ClusterNodes) (msgs : bytes) : res (list ClusterNode + error) :=
  allNodes ← parse_lines c (Split msgs 10);
  if len allNodes <? 3 then Ok (inr (EText (str "not enough nodes"))) else Ok (inl allNodes).

(** [fmt.Sprintf] of a node: address, role and, for a master, its slots. *)
Definition slots_text (l : list Slots) : bytes :=
  str "[" ++ Join (map (fun s => str "{" ++ Itoa (Start s) ++ str " " ++ Itoa (End_ s) ++ str "}") l) (str " ")
    ++ str "]".
Definition server_name (n : ClusterNode) : bytes :=
  match n_Role n with
  | Master => n_Addr n ++ str "#0#" ++ slots_text (n_Slots n)
  | Slave => n_Addr n ++ str "#1"
  end.

Definition isChanged (c : ClusterNodes) (allNodes : list ClusterNode) : bool * ClusterNodes :=
  let changed := negb (len allNodes =? hm_Len (ServerMap c)) in
  let names := Join (sort_Strings (map server_name allNodes)) (str ",") in
  (changed || negb (bool_decide (names = lastServerNames c)),
   mkClusterNodes (ServerMap c) (Replicasets c) names (serverChanged c)).

Definition setServer (c : ClusterNodes) (allNodes : list ClusterNode) : ClusterNodes :=
  let m := fold_left (fun m kv => hm_Del m kv.1) (hm_Iter (ServerMap c)) (ServerMap c) in
  let m := fold_left (fun m n => hm_Insert m (n_Addr n) n) allNodes m in
  mkClusterNodes m (Replicasets c) (lastServerNames c) (serverChanged c).

(** Append a slave to the first replica set whose master it follows. *)
Fixpoint attach (rss : list replicaset) (n : ClusterNode) : list replicaset :=
  match rss with
  | [] => []
  | rs :: rss =>
      if bool_decide (n_Name (rs_Master rs) = n_MasterId n)
      then mkReplicaset (rs_Master rs) (rs_Slaves rs ++ [n]) :: rss
      else rs :: attach rss n
  end.

Definition is_role (r : Role) (n : ClusterNode) : bool := bool_decide (n_Role n = r).

Definition setReplicaset (c : ClusterNodes) (allNodes : list ClusterNode) : ClusterNodes :=
  let masters := map (fun n => mkReplicaset n []) (List.filter (is_role Master) allNodes) in
  let rss := fold_left attach (List.filter (is_role Slave) allNodes) masters in
  mkClusterNodes (ServerMap c) rss (lastServerNames c) (serverChanged c).

Definition updateClusterNodes (c : ClusterNodes) (msg : bytes) : res (option error * ClusterNodes) :=
  r ← parse c msg;
  match r with
  | inr e => Ok (Some e, c)
  | inl allNodes =>
      let '(changed, c) := isChanged c allNodes in
      if changed then
        let c := setReplicaset (setServer c allNodes) allNodes in
        Ok (None, mkClusterNodes (ServerMap c) (Replicasets c) (lastServerNames c) true)
      else Ok (None, c)
  end.

(** One iteration of [loopClusterNodes] on a message of the channel: the new
    state, and whether the loop goes on. *)
Definition loop_step (c : ClusterNodes) (msg : bytes) : res (bool * ClusterNodes) :=
  if len msg <? 3 then Ok (false, c)
  else
    c0 ← index msg 0;
    c1 ← index msg 1;
    c2 ← index msg 2;
    if (c0 =? 43) && (c1 =? 79) && (c2 =? 75) then Ok (false, c)
    else if (c0 =? 36) && (c1 =? 45) && (c2 =? 49) then Ok (false, c)
    else
      let nl := IndexByte msg 10 in
      line ← slice msg 1 (nl - 1);
      let '(length, err) := parseLen line in
      match err with
      | Some _ => Ok (false, c)
      | None =>
          if 163840 <? length then Ok (false, c)
          else
            body ← slice msg (nl + 1) (len msg - 3);
            '(_, c) ← updateClusterNodes c body;
            Ok (true, c)
      end.

(** The loop on the messages the channel delivers; it ends at the first
    message that makes it return. *)
Fixpoint loopClusterNodes (c : ClusterNodes) (msgs : list bytes) : res (bool * ClusterNodes) :=
  match msgs with
  | [] => Ok (true, c)
  | m :: msgs =>
      '(go, c) ← loop_step c m;
      if go : bool then loopClusterNodes c msgs else Ok (false, c)
  end.

(** [GetClusterNodes]. *)
Definition GetClusterNodes (c : ClusterNodes) : list ClusterNode := (hm_Iter (ServerMap c)).*2.
End cluster.
Arguments ClusterNodes {_}.

(** ** The slot table

    [slotReplicaset] of [core/gnet.go], an array of replica set pointers, and
    the loops of [eventloop.ticker] that fill it. *)

Definition RedisClusterSlots : Z := 16384.
Abbreviation slotReplicaset := (list (option replicaset)).

Definition slots_Set (sr : slotReplicaset) (slot : Z) (rs : replicaset) : res slotReplicaset :=
  set_index sr slot (Some rs).
Definition slots_Get (sr : slotReplicaset) (slot : Z) : res (option replicaset) := index sr slot.
Definition slots_NotExist (sr : slotReplicaset) (slot : Z) : res bool :=
  x ← index sr slot; Ok (match x with None => true | Some _ => false end).
Definition slots_Reset (sr : slotReplicaset) : slotReplicaset := replicate (Z.to_nat RedisClusterSlots) None.

(** [for i := slotRange.Start; i <= slotRange.End; i++]: [k] slots from [i]. *)
Fixpoint set_range (k : nat) (sr : slotReplicaset) (i : Z) (rs : replicaset) : res slotReplicaset :=
  match k with
  | O => Ok sr
  | S k => sr ← slots_Set sr i rs; set_range k sr (i + 1) rs
  end.
Fixpoint set_ranges (sr : slotReplicaset) (l : list Slots) (rs : replicaset) : res slotReplicaset :=
  match l with
  | [] => Ok sr
  | s :: l => sr ← set_range (Z.to_nat (End_ s - Start s + 1)) sr (Start s) rs; set_ranges sr l rs
  end.
Fixpoint set_replicasets (sr : slotReplicaset) (rss : list replicaset) : res slotReplicaset :=
  match rss with
  | [] => Ok sr
  | rs :: rss => sr ← set_ranges sr (n_Slots (rs_Master rs)) rs; set_replicasets sr rss
  end.

(** The table rebuilt after a change of topology. *)
Definition loadSlots (sr : slotReplicaset) (rss : list replicaset) : res slotReplicaset :=
  set_replicasets (slots_Reset sr) rss.

(** ** Printing and parsing *)

Lemma Split_Join parts c :
  parts <> [] -> Forall (fun p => c ∉ p) parts -> Split (Join parts [c]) c = parts.
Proof.
  intros Hne Hp. induction Hp as [|p parts Hc Hp IH]; [done|].
  destruct parts as [|q parts]; [by apply Split_none|].
  change (Join (p :: q :: parts) [c]) with (p ++ c :: Join (q :: parts) [c]).
  rewrite Split_cons by done. by rewrite IH.
Qed.

Lemma digits_not_in n c : 0 <= n -> c < 48 \/ 57 < c -> c ∉ Itoa n.
Proof.
  intros Hn Hc Hin. pose proof (Itoa_range n Hn) as Hr. rewrite Forall_forall in Hr.
  apply Hr in Hin. lia.
Qed.

Lemma ParseUint10_loop_app p q m n :
  ParseUint10_loop (p ++ q) m n =
  match ParseUint10_loop p m n with (k, None) => ParseUint10_loop q m k | e => e end.
Proof.
  revert n. induction p as [|b p IH]; intros n; [done|]. cbn [app ParseUint10_loop].
  repeat (case_if; [done|]). apply IH.
Qed.

Lemma ParseUint10_digits fuel m n :
  0 <= n < 10 ^ Z.of_nat fuel -> n <= m < 2 ^ 64 -> ParseUint10_loop (digits fuel n) m 0 = (n, None).
Proof.
  revert n. induction fuel as [|fuel IH]; intros n Hn Hb; [simpl in *; f_equal; lia|].
  assert (forall k d, 0 <= d < 10 -> 0 <= k -> k * 10 + d <= m ->
    ParseUint10_loop [48 + d] m k = (k * 10 + d, None)) as Hone.
  { intros k d Hd Hk Hkd. cbn [ParseUint10_loop].
    replace ((48 <=? 48 + d) && (48 + d <=? 57)) with true by lia.
    change ((2 ^ 64 - 1) / 10 + 1) with 1844674407370955162.
    replace (1844674407370955162 <=? k) with false by lia.
    replace (m <? k * 10 + (48 + d - 48)) with false by lia. f_equal. lia. }
  cbn [digits]. case_if; [rewrite (Hone 0) by lia; f_equal; lia|].
  rewrite Nat2Z.inj_succ, Z.pow_succ_r in Hn by lia.
  pose proof (Z.div_mod n 10 ltac:(lia)). pose proof (Z.mod_pos_bound n 10 ltac:(lia)).
  rewrite ParseUint10_loop_app, IH, Hone by lia. f_equal. lia.
Qed.

Lemma ParseUint10_Itoa n bits :
  0 <= n < 2 ^ bits -> 0 < bits <= 64 -> ParseUint10 (Itoa n) bits = (n, None).
Proof.
  intros Hn Hbits. unfold ParseUint10. pose proof (Itoa_len n ltac:(lia)) as Hl.
  destruct (Itoa n) as [|c t] eqn:E; [done|].
  rewrite <- E. unfold Itoa. replace (n <? 0) with false by lia.
  pose proof (Z.pow_le_mono_r 2 bits 64 ltac:(lia) ltac:(lia)).
  apply ParseUint10_digits; [|lia]. split; [lia|]. eapply Z.lt_le_trans; [apply Hn|].
  etrans; [done|]. by vm_compute.
Qed.

Lemma ParseInt10_Itoa n bits :
  0 <= n < 2 ^ (bits - 1) -> 1 < bits <= 64 -> ParseInt10 (Itoa n) bits = (n, None).
Proof.
  intros Hn Hbits.
  assert (2 ^ bits = 2 * 2 ^ (bits - 1)) as Hp by (rewrite <- Z.pow_succ_r by lia; f_equal; lia).
  pose proof (ParseUint10_Itoa n bits ltac:(lia) ltac:(lia)) as Hu.
  pose proof (Itoa_range n ltac:(lia)) as Hr. unfold ParseInt10.
  destruct (Itoa n) as [|c t] eqn:E; [pose proof (Itoa_len n ltac:(lia)) as Hl; by rewrite E in Hl|].
  apply Forall_cons in Hr as [Hc _]. replace (c =? 45) with false by lia.
  replace (c =? 43) with false by lia. cbn [orb negb andb]. rewrite Hu. simpl.
  by replace (2 ^ (bits - 1) <=? n) with false by lia.
Qed.

(** The columns of a node in the reply to CLUSTER NODES, as Redis prints them. *)
Definition slot_column (s : Slots) : bytes :=
  if Start s =? End_ s then Itoa (Start s) else Itoa (Start s) ++ str "-" ++ Itoa (End_ s).
Definition columns (n : ClusterNode) : list bytes :=
  [n_Name n; n_Ip n ++ str ":" ++ Itoa (n_Port n) ++ str "@" ++ Itoa (n_CPort n); n_Flags n; n_MasterId n;
   Itoa (n_PingSent n); Itoa (n_PongReceived n); Itoa (n_ConfigEpoch n); str "connected"]
  ++ map slot_column (n_Slots n).
Definition print_nodes (ns : list ClusterNode) : bytes :=
  Join (map (fun n => Join (columns n) (str " ")) ns) [10].

(** A text that can stand in a column. *)
Definition column_ok (s : bytes) : Prop := 32 ∉ s /\ 10 ∉ s.

Definition slot_ok (s : Slots) : Prop := 0 <= Start s < 16384 /\ 0 <= End_ s < 16384.

(** A healthy node as CLUSTER NODES lists it. *)
Record node_ok (n : ClusterNode) : Prop := {
  ok_name : column_ok (n_Name n);
  ok_ip : column_ok (n_Ip n) /\ 58 ∉ n_Ip n /\ n_Ip n <> [];
  ok_ports : 0 <= n_Port n < 65536 /\ 0 <= n_CPort n < 65536;
  ok_addr : n_Addr n = n_Ip n ++ str ":" ++ Itoa (n_Port n);
  ok_flags : column_ok (n_Flags n) /\
    Forall (fun w => Contains (n_Flags n) (str w) = false) ["noaddr"; "handshake"; "fail"]%string /\
    Contains (n_Flags n) (str "master") = is_role Master n /\
    (n_Role n = Slave -> Contains (n_Flags n) (str "slave") = true);
  ok_master : column_ok (n_MasterId n);
  ok_times : 0 <= n_PingSent n < 2 ^ 63 /\ 0 <= n_PongReceived n < 2 ^ 63;
  ok_epoch : 0 <= n_ConfigEpoch n < 2 ^ 64;
  ok_connected : n_Connected n = true;
  ok_slots : Forall slot_ok (n_Slots n) /\ match n_Role n with Master => n_Slots n <> [] | Slave => n_Slots n = [] end;
  ok_version : n_Version n = [];
}.

Lemma column_app a b : column_ok a -> column_ok b -> column_ok (a ++ b).
Proof. unfold column_ok. set_solver. Qed.

Lemma column_Itoa n : 0 <= n -> column_ok (Itoa n).
Proof. intros Hn. split; apply digits_not_in; done || lia. Qed.

Lemma slot_column_ok s : slot_ok s -> column_ok (slot_column s).
Proof.
  intros [Ha Hb]. unfold slot_column. case_if; [apply column_Itoa; lia|].
  repeat apply column_app; try (apply column_Itoa; lia). split; not_in.
Qed.

Lemma columns_ok n : node_ok n -> Forall column_ok (columns n).
Proof.
  intros [Hn (Hi & _) [Hp Hc] _ (Hf & _) Hm [H1 H2] He _ [Hs _] _]. apply Forall_app. split.
  - repeat apply Forall_cons_2; try done; try (apply column_Itoa; lia).
    + repeat apply column_app; try done; try (apply column_Itoa; lia); split; not_in.
    + split; not_in.
  - apply Forall_map. eapply Forall_impl; [exact Hs|]. apply slot_column_ok.
Qed.

Lemma parseAddr_print n :
  node_ok n -> parseAddr (n_Ip n ++ str ":" ++ Itoa (n_Port n) ++ str "@" ++ Itoa (n_CPort n)) =
    (n_Addr n, n_Ip n, n_Port n, n_CPort n).
Proof.
  intros [_ (_ & Hi & Hne) [Hp Hc] Ha _ _ _ _ _ _ _]. unfold parseAddr.
  change (str ":" ++ ?x) with (58 :: x). rewrite Split_cons by done.
  change (str "@" ++ ?x) with (64 :: x).
  rewrite Split_none by (rewrite elem_of_app, elem_of_cons; intros [Hin|[Hin|Hin]];
    [by apply digits_not_in in Hin; [|lia..]|lia|by apply digits_not_in in Hin; [|lia..]]).
  replace (len (n_Ip n) <? 1) with false
    by (destruct (n_Ip n); [done|rewrite len_cons; pose proof (len_nonneg l); lia]).
  rewrite Split_cons, Split_none by (apply digits_not_in; lia).
  pose proof (Itoa_len (n_Port n) ltac:(lia)). pose proof (Itoa_len (n_CPort n) ltac:(lia)).
  replace (len (Itoa (n_Port n)) <? 1) with false by lia.
  replace (0 <? len (Itoa (n_CPort n))) with true by lia.
  unfold Atoi. rewrite !ParseInt10_Itoa by lia. unfold JoinHostPort.
  rewrite bool_decide_eq_false_2 by done. by rewrite Ha.
Qed.

Lemma parseSlot_column s : slot_ok s -> parseSlot (slot_column s) = inl (Start s, End_ s).
Proof.
  intros [Ha Hb]. unfold slot_column, parseSlot. case_if.
  - rewrite Split_none by (apply digits_not_in; lia). simpl. rewrite ParseInt10_Itoa by lia.
    rewrite wrap32_id by lia. do 2 f_equal. lia.
  - change (str "-" ++ ?x) with (45 :: x). rewrite Split_cons, Split_none by (apply digits_not_in; lia).
    simpl. rewrite !ParseInt10_Itoa by lia. by rewrite !wrap32_id by lia.
Qed.

Lemma parseSlots_columns l : Forall slot_ok l -> parseSlots (map slot_column l) = inl l.
Proof.
  intros Hl. induction Hl as [|s l Hs Hl IH]; [done|]. cbn [map parseSlots].
  assert (HasPrefix (slot_column s) (str "[") = false) as ->.
  { pose proof Hs as [Ha Hb]. assert (exists c t, slot_column s = c :: t /\ 48 <= c <= 57) as (c & t & -> & Hc).
    { unfold slot_column. pose proof (Itoa_range (Start s) ltac:(lia)) as Hr.
      pose proof (Itoa_len (Start s) ltac:(lia)). destruct (Itoa (Start s)) as [|c t]; [done|].
      apply Forall_cons in Hr as [Hc _]. case_if; simpl; eauto. }
    change (HasPrefix (c :: t) (str "[")) with ((c =? 91) && HasPrefix t []). by replace (c =? 91) with false by lia. }
  rewrite parseSlot_column, IH by done. by destruct s.
Qed.

(** The fixed columns, by number. *)
Lemma columns_index n :
  index (columns n) 0 = Ok (n_Name n) /\
  index (columns n) 1 = Ok (n_Ip n ++ str ":" ++ Itoa (n_Port n) ++ str "@" ++ Itoa (n_CPort n)) /\
  index (columns n) 2 = Ok (n_Flags n) /\ index (columns n) 3 = Ok (n_MasterId n) /\
  index (columns n) 4 = Ok (Itoa (n_PingSent n)) /\ index (columns n) 5 = Ok (Itoa (n_PongReceived n)) /\
  index (columns n) 6 = Ok (Itoa (n_ConfigEpoch n)) /\ index (columns n) 7 = Ok (str "connected").
Proof. split_and!; reflexivity. Qed.

Lemma newClusterNode_print n : node_ok n -> newClusterNode (columns n) = Ok (inl n).
Proof.
  intros Hn. pose proof Hn as [_ _ [Hp Hc] Ha (_ & _ & Hm & _) _ [H1 H2] He Hco [Hs Hr] Hv].
  unfold newClusterNode.
  destruct (columns_index n) as (-> & -> & -> & -> & -> & -> & -> & ->). rewrite !res_bind_Ok, parseAddr_print by done.
  replace (len (n_Addr n) <? 1) with false.
  2:{ rewrite Ha, !len_app. change (len (str ":")) with 1. pose proof (len_nonneg (n_Ip n)).
      pose proof (len_nonneg (Itoa (n_Port n))). lia. }
  rewrite !res_bind_Ok, !ParseInt10_Itoa, ParseUint10_Itoa by lia. rewrite Hm.
  unfold is_role. rewrite (bool_decide_eq_true_2 (str "connected" = str "connected")) by done.
  destruct (n_Role n) eqn:Er.
  - replace (len (columns n) <? 9) with false.
    2:{ unfold columns. destruct (n_Slots n) as [|s l]; [done|]. cbn [map].
        rewrite len_app, !len_cons, len_nil. pose proof (len_nonneg (map slot_column l)). lia. }
    change (drop 8 (columns n)) with (map slot_column (n_Slots n)). rewrite parseSlots_columns by done.
    destruct n; simpl in *. by subst.
  - destruct n; simpl in *. by subst.
Qed.

(** ** The cluster as parsed *)

Section topology.
Context `{HashMap ClusterNode} (redisInfo : bytes -> Info + error).
Implicit Types c : ClusterNodes.

(** A node that is new to the proxy answers INFO, and a new slave has loaded its
    data and is linked to its master. *)
Definition reachable c (n : ClusterNode) : Prop :=
  hm_Get (ServerMap c) (n_Addr n) <> None \/
  exists i, redisInfo (n_Addr n) = inl i /\
    (n_Role n = Slave -> i_Loading i = false /\ i_MasterLinkStatus i = str "up").

(** Only a new node gets its version. *)
Definition versioned c (n : ClusterNode) : ClusterNode :=
  match hm_Get (ServerMap c) (n_Addr n), redisInfo (n_Addr n) with
  | None, inl i => with_version n (i_Version i)
  | _, _ => n
  end.

Lemma parse_line_print c n :
  node_ok n -> reachable c n ->
  parse_line redisInfo c (Join (columns n) (str " ")) = Ok (Some (versioned c n)).
Proof.
  intros Hn Hreach. unfold parse_line. change (str " ") with [32]. rewrite Split_Join; [|done|].
  2:{ eapply Forall_impl; [by apply columns_ok|]. by intros x [? _]. }
  replace (len (columns n) <? 8) with false.
  2:{ unfold columns. rewrite len_app, !len_cons, len_nil.
      pose proof (len_nonneg (map slot_column (n_Slots n))). lia. }
  destruct (columns_index n) as (_ & _ & -> & _ & _ & _ & _ & ->). rewrite !res_bind_Ok.
  pose proof Hn as [_ _ _ _ (_ & Hno & Hm & Hs) _ _ _ _ _ _].
  apply Forall_cons in Hno as [-> Hno]. apply Forall_cons in Hno as [-> Hno].
  apply Forall_cons in Hno as [-> _]. cbn [orb].
  change (Contains (str "connected") (str "disconnected")) with false.
  replace (negb _ && negb _) with false.
  2:{ rewrite Hm. unfold is_role. destruct (n_Role n); [done|]. by rewrite Hs. }
  rewrite newClusterNode_print by done. rewrite res_bind_Ok. unfold versioned.
  destruct Hreach as [Hk|(i & Hi & Hslave)].
  - by destruct (hm_Get (ServerMap c) (n_Addr n)).
  - destruct (hm_Get (ServerMap c) (n_Addr n)) as [m|]; [done|]. rewrite Hi.
    destruct (n_Role n) eqn:Er; simpl; [done|]. destruct Hslave as [-> ->]; [done|]. done.
Qed.

Lemma parse_lines_print c ns :
  Forall node_ok ns -> Forall (reachable c) ns ->
  parse_lines redisInfo c (map (fun n => Join (columns n) (str " ")) ns) = Ok (map (versioned c) ns).
Proof.
  intros Hn Hr. induction ns as [|n ns IH]; [done|]. cbn [map parse_lines].
  apply Forall_cons in Hn as [Hn Hns]. apply Forall_cons in Hr as [Hr Hrs].
  by rewrite parse_line_print, IH by done.
Qed.

Lemma Join_no_lf cols : Forall column_ok cols -> 10 ∉ Join cols (str " ").
Proof.
  intros Hc. induction Hc as [|x cols [_ Hx] Hc IH]; [set_solver|].
  destruct cols as [|y cols]; [done|]. cbn [Join] in *. rewrite !elem_of_app.
  intros [?|[Hin|?]]; [done| |done]. revert Hin. not_in.
Qed.

(** The reply to CLUSTER NODES for any list of at least three healthy nodes,
    printed the way Redis prints it, is parsed back to exactly these nodes in
    order, with every field (address, ports, role, master, epochs and slot
    ranges); only the version of nodes new to the proxy is filled in from
    INFO. *)
Lemma parse_print c ns (H3 : 3 <= len ns) (Hok : Forall node_ok ns) (Hr : Forall (reachable c) ns) :
  parse redisInfo c (print_nodes ns) = Ok (inl (map (versioned c) ns)).
Proof.
  unfold parse, print_nodes. rewrite Split_Join.
  - rewrite parse_lines_print, res_bind_Ok by done.
    by replace (len (map (versioned c) ns) <? 3) with false by (unfold len in *; rewrite length_map; lia).
  - by destruct ns.
  - apply Forall_map. eapply Forall_impl; [exact Hok|]. intros n Hn. by apply Join_no_lf, columns_ok.
Qed.
End topology.

(** ** From nodes to the slot table *)

Definition in_range (i : Z) (s : Slots) : bool := (Start s <=? i) && (i <=? End_ s).
Definition covers (i : Z) (n : ClusterNode) : bool := existsb (in_range i) (n_Slots n).

Lemma set_range_spec k m sr i rs :
  len sr = 16384 -> 0 <= i -> m = Z.of_nat k -> i + m <= 16384 ->
  exists sr', set_range k sr i rs = Ok sr' /\ len sr' = 16384 /\
    forall j, 0 <= j < 16384 ->
      sr' !! Z.to_nat j = if (i <=? j) && (j <? i + m) then Some (Some rs) else sr !! Z.to_nat j.
Proof.
  revert m sr i. induction k as [|k IH]; intros m sr i Hl Hi Hm Hk.
  { exists sr. split_and!; [done..|]. intros j Hj. subst m. rewrite Z.add_0_r. by case_if. }
  cbn [set_range]. unfold slots_Set, set_index.
  replace ((0 <=? i) && (i <? len sr)) with true by lia. rewrite res_bind_Ok.
  destruct (IH (m - 1) (<[Z.to_nat i := Some rs]> sr) (i + 1)) as (sr' & Hs & Hl' & Hv);
    [unfold len in *; by rewrite length_insert|lia..|].
  exists sr'. split_and!; [done..|]. intros j Hj. rewrite Hv by done.
  destruct (decide (j = i)) as [->|Hne].
  - assert (0 < m) by lia. clear Hm. case_if. case_if. apply list_lookup_insert_eq. unfold len in *. lia.
  - clear Hm. rewrite list_lookup_insert_ne by lia. case_if; case_if; done.
Qed.

Lemma set_ranges_spec l sr rs :
  len sr = 16384 -> Forall slot_ok l ->
  exists sr', set_ranges sr l rs = Ok sr' /\ len sr' = 16384 /\
    forall j, 0 <= j < 16384 ->
      sr' !! Z.to_nat j = if existsb (in_range j) l then Some (Some rs) else sr !! Z.to_nat j.
Proof.
  intros Hl Hs. revert sr Hl. induction Hs as [|s l [Ha Hb] Hs IH]; intros sr Hl.
  { exists sr. by split_and!. }
  simpl. destruct (set_range_spec (Z.to_nat (End_ s - Start s + 1)) (Z.max 0 (End_ s - Start s + 1)) sr (Start s) rs)
    as (sr1 & -> & Hl1 & Hv1); [done|lia..|]. rewrite res_bind_Ok.
  destruct (IH sr1 Hl1) as (sr2 & -> & Hl2 & Hv2). exists sr2. split_and!; [done..|].
  intros j Hj. rewrite Hv2, Hv1 by done. unfold in_range at 2.
  replace ((Start s <=? j) && (j <? Start s + Z.max 0 (End_ s - Start s + 1)))
    with ((Start s <=? j) && (j <=? End_ s)) by lia.
  destruct (existsb _ l); [by rewrite orb_true_r|]. by rewrite orb_false_r.
Qed.

(** The replica set that gets a slot: the last one that lists it. *)
Fixpoint owner (rss : list replicaset) (i : Z) (acc : option replicaset) : option replicaset :=
  match rss with
  | [] => acc
  | rs :: rss => owner rss i (if covers i (rs_Master rs) then Some rs else acc)
  end.

Lemma set_replicasets_spec rss sr :
  len sr = 16384 -> Forall (fun rs => Forall slot_ok (n_Slots (rs_Master rs))) rss ->
  exists sr', set_replicasets sr rss = Ok sr' /\ len sr' = 16384 /\
    forall j, 0 <= j < 16384 -> sr' !! Z.to_nat j = (fun x => owner rss j x) <$> sr !! Z.to_nat j.
Proof.
  intros Hl Hs. revert sr Hl. induction Hs as [|rs rss Hrs Hs IH]; intros sr Hl.
  { exists sr. split_and!; [done..|]. intros j Hj. by destruct (sr !! Z.to_nat j). }
  simpl. destruct (set_ranges_spec (n_Slots (rs_Master rs)) sr rs) as (sr1 & -> & Hl1 & Hv1); [done..|].
  rewrite res_bind_Ok. destruct (IH sr1 Hl1) as (sr2 & -> & Hl2 & Hv2). exists sr2. split_and!; [done..|].
  intros j Hj. rewrite Hv2, Hv1 by done. unfold covers.
  destruct (existsb _ _); [|done]. destruct (lookup_lt_is_Some_2 sr (Z.to_nat j)) as [x ->]; [|done].
  unfold len in *. lia.
Qed.

(** The slaves that name [m] as their master. *)
Definition slaves_of (ns : list ClusterNode) (m : ClusterNode) : list ClusterNode :=
  List.filter (fun n => bool_decide (n_Name m = n_MasterId n)) (List.filter (is_role Slave) ns).
Definition masters (ns : list ClusterNode) : list ClusterNode := List.filter (is_role Master) ns.

Lemma attach_map ms (g : ClusterNode -> list ClusterNode) n :
  NoDup (n_Name <$> ms) ->
  attach (map (fun m => mkReplicaset m (g m)) ms) n =
  map (fun m => mkReplicaset m (g m ++ if bool_decide (n_Name m = n_MasterId n) then [n] else [])) ms.
Proof.
  induction ms as [|m ms IH]; [done|]. cbn [map attach fmap list_fmap rs_Master rs_Slaves].
  intros [Hm Hnd]%NoDup_cons. destruct (bool_decide (n_Name m = n_MasterId n)) eqn:E.
  - f_equal. apply bool_decide_eq_true in E. apply map_ext_in. intros m' Hm'.
    rewrite bool_decide_eq_false_2; [by rewrite app_nil_r|]. rewrite <- E. intros Heq. apply Hm.
    rewrite <- Heq. by apply list_elem_of_fmap_2, list_elem_of_In.
  - rewrite app_nil_r. f_equal. by apply IH.
Qed.

Lemma fold_attach ms ss (g : ClusterNode -> list ClusterNode) :
  NoDup (n_Name <$> ms) ->
  fold_left attach ss (map (fun m => mkReplicaset m (g m)) ms) =
  map (fun m => mkReplicaset m (g m ++ List.filter (fun n => bool_decide (n_Name m = n_MasterId n)) ss)) ms.
Proof.
  intros Hnd. revert g. induction ss as [|n ss IH]; intros g; simpl.
  { apply map_ext. intros m. by rewrite app_nil_r. }
  rewrite attach_map, IH by done. apply map_ext. intros m. rewrite <- app_assoc.
  by destruct (bool_decide _).
Qed.

Lemma owner_find ms (g : ClusterNode -> replicaset) i acc :
  (forall m, rs_Master (g m) = m) -> (forall m1 m2, m1 ∈ ms -> m2 ∈ ms -> covers i m1 = true -> covers i m2 = true -> m1 = m2) ->
  owner (map g ms) i acc = match List.find (covers i) ms with Some m => Some (g m) | None => acc end.
Proof.
  intros Hg. revert acc. induction ms as [|m ms IH]; intros acc Hd; [done|]. simpl. rewrite Hg, IH.
  2:{ intros m1 m2 ? ?. apply Hd; set_solver. }
  destruct (covers i m) eqn:E; [|done].
  destruct (List.find (covers i) ms) as [m'|] eqn:Ef; [|done].
  apply find_some in Ef as [Hin Hc]. f_equal. f_equal. apply Hd; [|set_solver|done|done].
  apply elem_of_cons. right. by apply list_elem_of_In.
Qed.

(** Nodes of one cluster: distinct master names, slots within the table, and at
    most one master per slot. *)
Record cluster_ok (ns : list ClusterNode) : Prop := {
  co_names : NoDup (n_Name <$> masters ns);
  co_slots : Forall (fun n => Forall slot_ok (n_Slots n)) ns;
  co_disjoint : forall i m1 m2, m1 ∈ masters ns -> m2 ∈ masters ns ->
    covers i m1 = true -> covers i m2 = true -> m1 = m2;
}.

(** The slot table a list of nodes describes. *)
Definition served_by (ns : list ClusterNode) (i : Z) : option replicaset :=
  (fun m => mkReplicaset m (slaves_of ns m)) <$> List.find (covers i) (masters ns).

Lemma loadSlots_spec `{HashMap ClusterNode} (c : ClusterNodes) ns sr :
  cluster_ok ns ->
  exists sr', loadSlots sr (Replicasets (setReplicaset c ns)) = Ok sr' /\ len sr' = 16384 /\
    forall i, 0 <= i < 16384 -> slots_Get sr' i = Ok (served_by ns i).
Proof.
  intros [Hn Hs Hd]. unfold loadSlots, setReplicaset. cbn [Replicasets].
  rewrite (fold_attach (masters ns) _ (fun _ => [])) by done. unfold slots_Reset.
  set (g := fun m => mkReplicaset m ([] ++ _)).
  destruct (set_replicasets_spec (map g (masters ns)) (replicate (Z.to_nat RedisClusterSlots) None))
    as (sr' & -> & Hl & Hv).
  - unfold len. by rewrite length_replicate.
  - apply Forall_map. unfold masters. rewrite Forall_forall in *. intros m Hm. apply Hs.
    by apply list_elem_of_In, filter_In, proj1, list_elem_of_In in Hm.
  - exists sr'. split_and!; [done..|]. intros i Hi. unfold slots_Get.
    apply index_Ok; [lia|]. rewrite Hv by done.
    rewrite lookup_replicate_2 by (unfold RedisClusterSlots; lia). simpl.
    rewrite (owner_find (masters ns) g) by (done || apply Hd). unfold served_by.
    by destruct (List.find _ _).
Qed.

(** ** From the reply to the tables *)

Section update.
Context `{HashMap ClusterNode} (redisInfo : bytes -> Info + error).
Implicit Types c : ClusterNodes.

Lemma fold_Del_view (l : list (bytes * ClusterNode)) (m : hmap) k :
  hm_view (fold_left (fun m kv => hm_Del m kv.1) l m) !! k =
  if bool_decide (k ∈ l.*1) then None else hm_view m !! k.
Proof.
  revert m. induction l as [|[k' v] l IH]; intros m; simpl; [done|]. rewrite IH, hm_Del_view.
  destruct (decide (k = k')) as [->|Hne].
  - rewrite lookup_delete_eq. repeat case_bool_decide; set_solver.
  - rewrite lookup_delete_ne by done. repeat case_bool_decide; set_solver.
Qed.

Lemma fold_Insert_view (ns : list ClusterNode) (m : hmap) k :
  hm_view (fold_left (fun m n => hm_Insert m (n_Addr n) n) ns m) !! k =
  match hm_view m !! k with
  | Some v => Some v
  | None => List.find (fun n => bool_decide (n_Addr n = k)) ns
  end.
Proof.
  revert m. induction ns as [|n ns IH]; intros m; simpl; [by destruct (_ !! k)|].
  rewrite IH, hm_Insert_view. destruct (decide (n_Addr n = k)) as [<-|Hne].
  - rewrite bool_decide_eq_true_2 by done.
    destruct (hm_view m !! n_Addr n) as [v|] eqn:E; [by rewrite E|by rewrite lookup_insert_eq].
  - rewrite bool_decide_eq_false_2 by done.
    destruct (hm_view m !! n_Addr n) as [v|] eqn:E; [done|by rewrite lookup_insert_ne].
Qed.

(** After [setServer] the map holds exactly the new nodes. *)
Lemma setServer_spec c ns a :
  hm_Get (ServerMap (setServer c ns)) a = List.find (fun n => bool_decide (n_Addr n = a)) ns.
Proof.
  unfold setServer. cbn [ServerMap]. rewrite hm_Get_view, fold_Insert_view, fold_Del_view.
  destruct (bool_decide (a ∈ (hm_Iter (ServerMap c)).*1)) eqn:E; [done|].
  destruct (hm_view (ServerMap c) !! a) as [v|] eqn:Ev; [|done].
  apply bool_decide_eq_false in E. destruct E. apply list_elem_of_fmap. exists (a, v). split; [done|].
  rewrite hm_Iter_perm. by apply elem_of_map_to_list.
Qed.

Lemma versioned_fields c n :
  n_Name (versioned redisInfo c n) = n_Name n /\ n_Role (versioned redisInfo c n) = n_Role n /\
  n_Slots (versioned redisInfo c n) = n_Slots n.
Proof. unfold versioned. destruct (hm_Get _ _); [done|]. by destruct (redisInfo _). Qed.

Lemma filter_map {A B} (f : B -> bool) (g : A -> B) l :
  List.filter f (map g l) = map g (List.filter (fun x => f (g x)) l).
Proof. induction l as [|x l IH]; [done|]. simpl. rewrite IH. by destruct (f (g x)). Qed.

Lemma cluster_ok_versioned c ns : cluster_ok ns -> cluster_ok (map (versioned redisInfo c) ns).
Proof.
  intros [Hn Hs Hd].
  assert (masters (map (versioned redisInfo c) ns) = map (versioned redisInfo c) (masters ns)) as Hm.
  { unfold masters. rewrite filter_map. f_equal. apply filter_ext. intros n. unfold is_role.
    by destruct (versioned_fields c n) as (_ & -> & _). }
  assert (forall i n, covers i (versioned redisInfo c n) = covers i n) as Hc.
  { intros i n. unfold covers. by destruct (versioned_fields c n) as (_ & _ & ->). }
  split.
  - rewrite Hm. change (map ?f ?l) with (f <$> l). rewrite <- list_fmap_compose.
    rewrite (list_fmap_ext _ n_Name); [done|]. intros j n _. apply versioned_fields.
  - apply Forall_map. eapply Forall_impl; [exact Hs|]. intros n. by destruct (versioned_fields c n) as (_ & _ & ->).
  - rewrite Hm. intros i m1 m2 (x1 & -> & H1)%list_elem_of_fmap (x2 & -> & H2)%list_elem_of_fmap.
    rewrite !Hc. intros. f_equal. eauto.
Qed.

(** The loop that follows the topology ends at the first error reply: after
    any RESP error line (such as a node that is still loading) every later
    message is ignored and the topology is frozen. *)
Lemma topology_loop_stops c (e : bytes) msgs
    (He : 10 ∉ e) (Hl : e <> []) (Hd : forall b, head e = Some b -> ~ (48 <= b <= 57) /\ b <> 45) :
  loopClusterNodes redisInfo c ((45 :: e ++ crlf) :: msgs) = Ok (false, c).
Proof.
  cbn [loopClusterNodes]. unfold loop_step. rewrite len_cons, len_app. change (len crlf) with 2.
  destruct e as [|b e]; [done|]. destruct (Hd b eq_refl) as [Hb Hb'].
  rewrite (len_cons b e). pose proof (len_nonneg e).
  replace (1 + (1 + len e + 2) <? 3) with false by lia.
  change (index (45 :: (b :: e) ++ crlf) 0) with (Ok 45). change (index (45 :: (b :: e) ++ crlf) 1) with (Ok b).
  destruct (index_in_range (45 :: (b :: e) ++ crlf) 2) as [x ->].
  { rewrite len_cons, len_app, len_cons. change (len crlf) with 2. lia. }
  rewrite !res_bind_Ok. cbn [Z.eqb Pos.eqb andb].
  replace (45 :: (b :: e) ++ crlf) with ((45 :: (b :: e) ++ [13]) ++ 10 :: []).
  2:{ simpl. by rewrite <- app_assoc. }
  rewrite IndexByte_app by (rewrite elem_of_cons, elem_of_app, list_elem_of_singleton; intros [?|[?|?]]; lia || done).
  assert (len (45 :: (b :: e) ++ [13]) = 3 + len e) as Hlen
    by (rewrite len_cons, len_app, !len_cons, len_nil; lia).
  assert (len ((45 :: (b :: e) ++ [13]) ++ [10]) = 4 + len e) as Hlen' by (rewrite len_app, Hlen, len_cons, len_nil; lia).
  rewrite Hlen, (slice_Ok _ 1) by lia. rewrite res_bind_Ok.
  replace (subl _ 1 _) with (b :: e).
  2:{ change (45 :: (b :: e) ++ [13]) with ([45] ++ ((b :: e) ++ [13])). rewrite <- !app_assoc.
      rewrite subl_app_r by done. change (len [45]) with 1.
      rewrite subl_app_l by (rewrite ?len_cons; lia).
      replace (3 + len e - 1 - 1) with (len (b :: e)) by (rewrite len_cons; lia). by rewrite subl_full. }
  unfold parseLen. replace (len (b :: e) <? 1) with false by (rewrite len_cons; lia).
  rewrite bool_decide_eq_false_2 by (intros [= -> _]; done). cbn [parseLen_loop].
  by replace ((b <? 48) || (57 <? b)) with true by lia.
Qed.
End update.

(** ** A three-master cluster *)

Definition sample_node (name : string) (port : Z) (r : Role) (master : string) (slots : list Slots) : ClusterNode :=
  mkNode (str name) (str "10.0.0.1:" ++ Itoa port) (str "10.0.0.1") port (port + 10000) r (str master)
    (match r with Master => str "master" | Slave => str "slave" end) 0 1646637824420 3 true [] slots.
Definition sample_nodes : list ClusterNode :=
  [sample_node "aa" 7000 Master "-" [mkSlots 0 5460; mkSlots 9000 9000];
   sample_node "bb" 7001 Master "-" [mkSlots 5461 8999; mkSlots 9001 10922];
   sample_node "cc" 7002 Master "-" [mkSlots 10923 16383];
   sample_node "dd" 7003 Slave "bb" []].

Definition sample_info (_ : bytes) : Info + error := inl (mkInfo (str "3.0.2") false (str "up")).
Definition no_nodes : @ClusterNodes (gmap_HashMap ClusterNode) :=
  mkClusterNodes (hm_empty : @hmap _ (gmap_HashMap ClusterNode)) [] [] false.

Lemma sample_node_ok name port r master slots :
  column_ok (str name) -> column_ok (str master) -> 0 <= port < 50000 -> Forall slot_ok slots ->
  match r with Master => slots <> [] | Slave => slots = [] end ->
  node_ok (sample_node name port r master slots).
Proof.
  intros Hn Hm Hp Hs Hr. split; cbn -[str]; try done; try lia.
  - split_and!; [split; not_in|not_in|done].
  - destruct r; (split_and!; [split; not_in|repeat constructor|done|done]).
Qed.

Lemma sample_nodes_ok : Forall node_ok sample_nodes.
Proof.
  repeat apply Forall_cons_2; try apply Forall_nil_2;
    (apply sample_node_ok; [split; not_in|split; not_in|lia|repeat constructor; done|done]).
Qed.

Lemma sample_cluster_ok : cluster_ok sample_nodes.
Proof.
  split.
  - vm_compute. repeat constructor; rewrite ?elem_of_cons; set_solver.
  - repeat constructor; vm_compute; done.
  - intros i m1 m2. vm_compute masters. rewrite !elem_of_cons.
    unfold covers, in_range. intros [->|[->|[->|[]%elem_of_nil]]] [->|[->|[->|[]%elem_of_nil]]]; simpl; lia || done.
Qed.

Lemma sample_reachable : Forall (@reachable (gmap_HashMap ClusterNode) sample_info no_nodes) sample_nodes.
Proof.
  apply Forall_forall. intros n _. right. eexists. split; [reflexivity|]. done.
Qed.

(** Slot 6000 of the sample belongs to [bb], whose slave is [dd]. *)
Example sample_slot_6000 :
  (fun rs => (n_Name (rs_Master rs), n_Addr <$> rs_Slaves rs)) <$> served_by sample_nodes 6000 =
  Some (str "bb", [str "10.0.0.1:7003"]).
Proof. vm_compute. reflexivity. Qed.

Lemma topology_loop_stops_witness :
  loopClusterNodes sample_info no_nodes
    [45 :: str "LOADING Redis is loading the dataset in memory" ++ crlf; print_nodes sample_nodes] =
  Ok (false, no_nodes).
Proof.
  apply (topology_loop_stops sample_info no_nodes (str "LOADING Redis is loading the dataset in memory")
           [print_nodes sample_nodes]).
  - not_in.
  - discriminate.
  - intros b [= <-]. lia.
Defined.
