(* ===== verification/Topology.v ===== *)
(** * Following the topology

    [updateClusterNodes] of [core/cluster.go] over any sequence of CLUSTER NODES replies:
    when [isChanged] sees a change, which is when the address, the role or the slots of a
    node changed, and what the server map and the slot table hold afterwards. *)

From stdpp Require Import sorting.
From S2P Require Import Prelude Errors Commands Codec Message CodecC CodecS Cluster.

(** ** Names of servers *)

#[export] Instance Slots_eq_dec : EqDecision Slots.
Proof. solve_decision. Defined.

(** What [isChanged] compares of a node: the address, the role and, for a master, the slots. *)
Definition layout (n : ClusterNode) : bytes * Role * list Slots :=
  (n_Addr n, n_Role n, match n_Role n with Master => n_Slots n | Slave => [] end).

(** The separators of the names, [,] and [#], are not in addresses. *)
Definition plain (n : ClusterNode) : Prop := 44 ∉ n_Addr n /\ 35 ∉ n_Addr n.

(** The names [isChanged] keeps. *)
Definition server_names (ns : list ClusterNode) : bytes := Join (sort_Strings (map server_name ns)) (str ",").

Section strings.

(** [sort.Strings] sorts. *)
Definition string_le (a b : bytes) : Prop := string_leb a b = true.

Lemma string_leb_total a b : string_leb a b = true \/ string_leb b a = true.
Proof.
  revert b. induction a as [|x a IH]; intros [|y b]; simpl; auto.
  destruct (x <? y) eqn:E1, (y <? x) eqn:E2; auto.
Qed.

#[local] Instance string_le_antisymm : AntiSymm eq string_le.
Proof.
  intros a. unfold string_le. induction a as [|x a IH]; intros [|y b]; simpl; try done.
  destruct (x <? y) eqn:E1, (y <? x) eqn:E2; try done; [lia|]. intros H1 H2. f_equal; [lia|by apply IH].
Qed.

#[local] Instance string_le_trans : Transitive string_le.
Proof.
  intros a. unfold string_le. induction a as [|x a IH]; intros [|y b] [|z c]; simpl; try done.
  repeat case_match; try done; try lia. apply IH.
Qed.

Lemma insert_string_perm s l : insert_string s l ≡ₚ s :: l.
Proof.
  induction l as [|t l IH]; simpl; [done|]. destruct (string_leb s t); [done|]. rewrite IH. by constructor.
Qed.

Lemma sort_Strings_perm l : sort_Strings l ≡ₚ l.
Proof. induction l as [|s l IH]; simpl; [done|]. rewrite insert_string_perm. by f_equiv. Qed.

Lemma insert_string_sorted s l : StronglySorted string_le l -> StronglySorted string_le (insert_string s l).
Proof.
  induction 1 as [|t l Hl IH Ht]; simpl; [repeat constructor|]. destruct (string_leb s t) eqn:E.
  - repeat constructor; [done..|]. eapply Forall_impl; [exact Ht|]. intros u Hu. by etrans.
  - constructor; [done|]. rewrite insert_string_perm. constructor; [|done].
    destruct (string_leb_total s t) as [Hs|Hs]; [by rewrite Hs in E|done].
Qed.

Lemma sort_Strings_sorted l : StronglySorted string_le (sort_Strings l).
Proof. induction l as [|s l IH]; simpl; [constructor|by apply insert_string_sorted]. Qed.

Lemma sort_Strings_canonical l l' : l ≡ₚ l' -> sort_Strings l = sort_Strings l'.
Proof.
  intros Hp. apply (StronglySorted_unique string_le); [apply sort_Strings_sorted..|]. by rewrite !sort_Strings_perm.
Qed.

(** A text up to a separator that it does not contain. *)
Lemma app_sep (c : Z) (l l' x y : bytes) : c ∉ l -> c ∉ l' -> l ++ c :: x = l' ++ c :: y -> l = l' /\ x = y.
Proof.
  revert l'. induction l as [|a l IH]; intros [|a' l']; rewrite ?not_elem_of_cons; simpl; intros H1 H2 He; simplify_eq; try naive_solver.
Qed.

Lemma Itoa_inj a b : 0 <= a < 2 ^ 64 -> 0 <= b < 2 ^ 64 -> Itoa a = Itoa b -> a = b.
Proof.
  intros Ha Hb He. pose proof (ParseUint10_Itoa a 64 ltac:(lia) ltac:(lia)) as Hpa.
  pose proof (ParseUint10_Itoa b 64 ltac:(lia) ltac:(lia)) as Hpb. rewrite He, Hpb in Hpa. by injection Hpa.
Qed.

Definition slot_text (s : Slots) : bytes := str "{" ++ Itoa (Start s) ++ str " " ++ Itoa (End_ s) ++ str "}".

Lemma slot_text_inj s s' x y : slot_ok s -> slot_ok s' -> slot_text s ++ x = slot_text s' ++ y -> s = s' /\ x = y.
Proof.
  intros [Hs He] [Hs' He']. unfold slot_text. change (str "{") with [123]. change (str " ") with [32]. change (str "}") with [125].
  rewrite <- !app_assoc. cbn [app]. intros [= H].
  apply app_sep in H as [H1 H]; [|apply digits_not_in; lia..].
  apply app_sep in H as [H2 H]; [|apply digits_not_in; lia..].
  apply Itoa_inj in H1; [|lia..]. apply Itoa_inj in H2; [|lia..]. destruct s, s'; simpl in *. by subst.
Qed.

Lemma slots_join_inj l l' :
  Forall slot_ok l -> Forall slot_ok l' ->
  Join (map slot_text l) (str " ") ++ str "]" = Join (map slot_text l') (str " ") ++ str "]" -> l = l'.
Proof.
  intros Hl. revert l'. induction Hl as [|s l Hs Hl IH]; intros l' Hl'; destruct Hl' as [|s' l' Hs' Hl'].
  - done.
  - intros He. exfalso. destruct l' as [|s'' l']; cbn [map Join] in He; unfold slot_text in He; simpl in He; discriminate.
  - intros He. exfalso. destruct l as [|s'' l]; cbn [map Join] in He; unfold slot_text in He; simpl in He; discriminate.
  - intros He. assert (forall s l, exists r, Join (map slot_text (s :: l)) (str " ") ++ str "]" = slot_text s ++ r /\
      r = match l with [] => str "]" | _ => str " " ++ Join (map slot_text l) (str " ") ++ str "]" end) as Hsplit.
    { intros u k. destruct k as [|v k]; cbn [map Join]; [by eexists|]. rewrite <- !app_assoc. by eexists. }
    destruct (Hsplit s l) as (r & Hr & Er). destruct (Hsplit s' l') as (r' & Hr' & Er'). rewrite Hr, Hr' in He.
    apply slot_text_inj in He as [-> He]; [|done..]. rewrite Er, Er' in He. f_equal.
    destruct l as [|t l], l' as [|t' l']; try done. apply IH; [done|]. by apply app_inv_head in He.
Qed.
End strings.

Lemma slots_text_inj l l' : Forall slot_ok l -> Forall slot_ok l' -> slots_text l = slots_text l' -> l = l'.
Proof. intros Hl Hl' He. unfold slots_text in He. apply app_inv_head in He. by apply slots_join_inj. Qed.

Definition slots_fine (n : ClusterNode) : Prop := Forall slot_ok (n_Slots n).

(** Names tell layouts apart. *)
Lemma server_name_inj n n' :
  plain n -> plain n' -> slots_fine n -> slots_fine n' -> server_name n = server_name n' -> layout n = layout n'.
Proof.
  intros [_ Hn] [_ Hn'] Hs Hs'. unfold server_name, layout. change (str "#0#") with [35; 48; 35]. change (str "#1") with [35; 49].
  destruct (n_Role n), (n_Role n'); cbn [app]; intros He; apply app_sep in He as [-> He]; try done.
  apply (f_equal (drop 2)) in He. cbn [drop] in He. by rewrite (slots_text_inj _ _ Hs Hs' He).
Qed.

Lemma server_name_layout n n' : layout n = layout n' -> server_name n = server_name n'.
Proof. unfold layout, server_name. intros [= -> Hr Hs]. rewrite Hr in *. destruct (n_Role n'); [by rewrite Hs|done]. Qed.

(** Equal images of two lists, up to order. *)
Lemma map_perm {A B C} (f : A -> B) (g : A -> C) l l' :
  (forall x y, x ∈ l -> y ∈ l' -> f x = f y -> g x = g y) -> map f l ≡ₚ map f l' -> map g l ≡ₚ map g l'.
Proof.
  revert l'. induction l as [|x l IH]; intros l' Hfg Hp; simpl in *.
  { apply Permutation_nil_l in Hp. by destruct l'. }
  assert (f x ∈ map f l') as Hin by (rewrite <- Hp; left).
  apply list_elem_of_fmap in Hin as (y & Hxy & Hy). apply list_elem_of_split in Hy as (l1 & l2 & ->).
  change (map f) with (fmap (M:=list) f) in Hp. rewrite fmap_app, fmap_cons, <- Permutation_middle, Hxy in Hp.
  apply Permutation_cons_inv in Hp. rewrite <- fmap_app in Hp. apply IH in Hp.
  - change (map g) with (fmap (M:=list) g) in *. rewrite fmap_app, fmap_cons, <- Permutation_middle, <- fmap_app, Hp.
    by rewrite (Hfg x y) by (done || set_solver).
  - intros a b Ha Hb. apply Hfg; [by right|set_solver].
Qed.

Lemma server_names_same ns ns' : map layout ns ≡ₚ map layout ns' -> server_names ns = server_names ns'.
Proof.
  intros Hp. unfold server_names. f_equal. apply sort_Strings_canonical.
  apply (map_perm layout); [|done]. intros x y _ _. apply server_name_layout.
Qed.

Lemma server_name_plain n : plain n -> slots_fine n -> 44 ∉ server_name n /\ server_name n <> [].
Proof.
  intros [Hn _] Hs. unfold server_name. assert (44 ∉ slots_text (n_Slots n)) as Ht.
  { unfold slots_text. change (fun s : Slots => _) with slot_text. rewrite !not_elem_of_app. split_and!; [not_in| |not_in].
    unfold slots_fine in Hs. induction Hs as [|s l [Ha Hb] Hl IH]; [set_solver|].
    assert (44 ∉ slot_text s) by (unfold slot_text; rewrite !not_elem_of_app; split_and!; first [apply digits_not_in; lia|not_in]).
    destruct l as [|t l]; [done|]. cbn [map Join] in *. rewrite !not_elem_of_app. split_and!; [done|not_in|done]. }
  destruct (n_Role n); rewrite !not_elem_of_app.
  - split; [split_and!; [done|not_in|done]|]. by intros [_ ?]%app_eq_nil.
  - split; [split; [done|not_in]|]. by intros [_ ?]%app_eq_nil.
Qed.

Lemma server_names_inj ns ns' :
  Forall plain ns -> Forall plain ns' -> Forall slots_fine ns -> Forall slots_fine ns' ->
  server_names ns = server_names ns' -> map layout ns ≡ₚ map layout ns'.
Proof.
  intros Hn Hn' Hs Hs' He.
  assert (forall ms, Forall plain ms -> Forall slots_fine ms -> Forall (fun s => 44 ∉ s /\ s <> []) (sort_Strings (map server_name ms))) as Hok.
  { intros ms Hp Hf. rewrite sort_Strings_perm. apply Forall_map. rewrite !Forall_forall in *.
    intros n Hin. apply server_name_plain; auto. }
  assert (sort_Strings (map server_name ns) = sort_Strings (map server_name ns')) as Hsort.
  { unfold server_names in He. pose proof (Hok _ Hn Hs) as H1. pose proof (Hok _ Hn' Hs') as H2. revert He H1 H2.
    change (str ",") with [44].
    generalize (sort_Strings (map server_name ns)) (sort_Strings (map server_name ns')). intros l l' He Hl Hl'.
    assert (forall k, Forall (fun s : bytes => 44 ∉ s /\ s <> []) k -> Join k [44] = [] -> k = []) as Hnil.
    { intros [|a [|b k]] Hk; [done|..]; apply Forall_cons in Hk as [[_ Ha] _]; cbn [Join]; [done|]. by intros [? _]%app_eq_nil. }
    destruct l as [|a l]; [by rewrite (Hnil l')|]. destruct l' as [|a' l']; [by apply Hnil in He|].
    rewrite <- (Split_Join (a :: l) 44), <- (Split_Join (a' :: l') 44), He; [done|..]; try done;
      (eapply Forall_impl; [eassumption|]; by intros ? []). }
  apply (map_perm server_name).
  - rewrite !Forall_forall in *. intros x y Hx Hy. apply server_name_inj; auto.
  - by rewrite <- (sort_Strings_perm (map server_name ns)), Hsort, sort_Strings_perm.
Qed.

(** ** The state of the topology *)

Section following.
Context `{HashMap ClusterNode} (redisInfo : bytes -> Info + error).
Implicit Types c : ClusterNodes.

(** A cluster whose nodes have addresses of their own. *)
Record listing (ns : list ClusterNode) : Prop := {
  ls_cluster : cluster_ok ns;
  ls_plain : Forall plain ns;
  ls_addrs : NoDup (n_Addr <$> ns);
}.

(** [c] holds the topology [ns]: the servers by address, the replica sets, and the names that
    the next change is told by. *)
Record holds_topology c (ns : list ClusterNode) : Prop := {
  ht_listing : listing ns;
  ht_servers : forall a, hm_Get (ServerMap c) a = List.find (fun n => bool_decide (n_Addr n = a)) ns;
  ht_sets : Replicasets c = Replicasets (setReplicaset c ns);
  ht_names : lastServerNames c = server_names ns;
}.

Lemma listing_slots ns : listing ns -> Forall slots_fine ns.
Proof. intros [[_ Hs _] _ _]. exact Hs. Qed.

Lemma find_addr ns a :
  NoDup (n_Addr <$> ns) ->
  List.find (fun n => bool_decide (n_Addr n = a)) ns = (list_to_map ((fun n => (n_Addr n, n)) <$> ns) : gmap bytes ClusterNode) !! a.
Proof.
  induction ns as [|n ns IH]; simpl; intros Hnd; [by rewrite lookup_empty|]. apply NoDup_cons in Hnd as [_ Hnd].
  case_bool_decide as Ha; [subst; by rewrite lookup_insert_eq|]. rewrite lookup_insert_ne by done. by apply IH.
Qed.

(** As many servers as nodes. *)
Lemma servers_len c ns : holds_topology c ns -> hm_Len (ServerMap c) = len ns.
Proof.
  intros [[_ _ Hnd] Hs _ _]. rewrite hm_Len_view. unfold len. f_equal.
  replace (hm_view (ServerMap c)) with (list_to_map ((fun n => (n_Addr n, n)) <$> ns) : gmap bytes ClusterNode).
  - rewrite map_size_list_to_map, length_fmap; [done|]. by rewrite <- list_fmap_compose.
  - apply map_eq. intros a. by rewrite <- hm_Get_view, Hs, find_addr.
Qed.

Lemma same_layout_len (ns ns' : list ClusterNode) : map layout ns ≡ₚ map layout ns' -> len ns = len ns'.
Proof. intros Hp. apply Permutation_length in Hp. rewrite !length_map in Hp. unfold len. by rewrite Hp. Qed.

(** A change is seen exactly when the layout changes. *)
Lemma isChanged_layout c old ns :
  holds_topology c old -> listing ns ->
  (map layout old ≡ₚ map layout ns -> isChanged c ns = (false, c)) /\
  (~ map layout old ≡ₚ map layout ns ->
     isChanged c ns = (true, mkClusterNodes (ServerMap c) (Replicasets c) (server_names ns) (serverChanged c))).
Proof.
  intros Hc Hn. pose proof (servers_len c old Hc) as Hlen. pose proof (ht_names _ _ Hc) as Hnames.
  unfold isChanged. fold (server_names ns). rewrite Hlen, Hnames. split; intros Hp.
  - rewrite (same_layout_len _ _ Hp), Z.eqb_refl, <- (server_names_same _ _ Hp), <- Hnames.
    rewrite bool_decide_true by done. by destruct c.
  - rewrite bool_decide_false, orb_true_r; [done|]. intros He. apply Hp. symmetry.
    apply server_names_inj; [apply Hn|apply Hc|by apply listing_slots|apply listing_slots, Hc|done].
Qed.

(** The servers of the slots, by address. *)
Definition master_addr (rs : option replicaset) : option bytes := (fun rs => n_Addr (rs_Master rs)) <$> rs.

Lemma find_covers ns i m :
  List.find (covers i) (masters ns) = Some m -> m ∈ ns /\ n_Role m = Master /\ covers i m = true.
Proof.
  intros Hf. apply List.find_some in Hf as [Hin Hc]. apply List.filter_In in Hin as [Hin Hr].
  split; [by apply list_elem_of_In|]. split; [|done]. by apply bool_decide_eq_true in Hr.
Qed.

Lemma masters_elem ns m : m ∈ ns -> n_Role m = Master -> m ∈ masters ns.
Proof.
  intros Hin Hr. apply list_elem_of_In, List.filter_In. split; [by apply list_elem_of_In|]. by apply bool_decide_eq_true.
Qed.

Lemma covering ns ns' i m :
  listing ns' -> map layout ns ≡ₚ map layout ns' -> List.find (covers i) (masters ns) = Some m ->
  exists m', List.find (covers i) (masters ns') = Some m' /\ n_Addr m' = n_Addr m.
Proof.
  intros [[_ _ Hd] _ _] Hp Hf. apply find_covers in Hf as (Hin & Hr & Hc).
  assert (layout m ∈ map layout ns') as Hm by (rewrite <- Hp; apply list_elem_of_fmap; by exists m).
  apply list_elem_of_fmap in Hm as (m' & Hl & Hin'). unfold layout in Hl. rewrite Hr in Hl. injection Hl as Ha Hr' Hs.
  rewrite <- Hr' in Hs. assert (covers i m' = true) as Hc' by (unfold covers in *; by rewrite <- Hs).
  pose proof (masters_elem _ _ Hin' (eq_sym Hr')) as Hmas. destruct (List.find (covers i) (masters ns')) as [m''|] eqn:E.
  - exists m''. split; [done|]. apply find_covers in E as (Hin'' & Hr'' & Hc'').
    rewrite (Hd i m'' m'); [done|by apply masters_elem|done..].
  - apply List.find_none with (x := m') in E; [congruence|by apply list_elem_of_In].
Qed.

(** The same layout serves every slot from the same address. *)
Lemma same_masters ns ns' i :
  listing ns -> listing ns' -> map layout ns ≡ₚ map layout ns' -> master_addr (served_by ns i) = master_addr (served_by ns' i).
Proof.
  intros Hn Hn' Hp. unfold served_by, master_addr. destruct (List.find (covers i) (masters ns)) as [m|] eqn:E.
  - destruct (covering _ _ _ _ Hn' Hp E) as (m' & -> & Ha). simpl. by rewrite Ha.
  - destruct (List.find (covers i) (masters ns')) as [m'|] eqn:E'; [|done].
    destruct (covering ns' ns i m' Hn) as (m & Hm & _); [by symmetry|done|]. congruence.
Qed.

Lemma same_addrs ns ns' a : map layout ns ≡ₚ map layout ns' -> a ∈ n_Addr <$> ns -> a ∈ n_Addr <$> ns'.
Proof.
  intros Hp Ha. assert (map n_Addr ns ≡ₚ map n_Addr ns') as Hq.
  { apply (map_perm layout); [|done]. intros x y _ _. by unfold layout; intros [= ?]. }
  change (n_Addr <$> ns') with (map n_Addr ns'). by rewrite <- Hq.
Qed.

Lemma find_addr_some ns a :
  is_Some (List.find (fun n => bool_decide (n_Addr n = a)) ns) <-> a ∈ n_Addr <$> ns.
Proof.
  induction ns as [|n ns IH]; simpl; [split; [by intros []|set_solver]|]. rewrite elem_of_cons.
  case_bool_decide as Ha; [naive_solver|]. rewrite IH. naive_solver.
Qed.

Lemma versioned_layout c n : layout (versioned redisInfo c n) = layout n /\ n_Addr (versioned redisInfo c n) = n_Addr n.
Proof. unfold versioned. destruct (hm_Get _ _); [done|]. by destruct (redisInfo _). Qed.

Lemma listing_versioned c ns : listing ns -> listing (map (versioned redisInfo c) ns).
Proof.
  intros [Hc Hp Hn]. assert (forall n, n_Addr (versioned redisInfo c n) = n_Addr n) as Ha by apply versioned_layout.
  split; [by apply cluster_ok_versioned|..].
  - apply Forall_map. eapply Forall_impl; [exact Hp|]. intros n. unfold plain. by rewrite Ha.
  - change (map ?f ns) with (f <$> ns). rewrite <- list_fmap_compose. by rewrite (list_fmap_ext _ n_Addr); [|intros ? ? _; apply Ha].
Qed.

(** Storing a list of nodes. *)
Lemma stores_topology c1 ns :
  listing ns -> lastServerNames c1 = server_names ns ->
  let c2 := setReplicaset (setServer c1 ns) ns in
  holds_topology (mkClusterNodes (ServerMap c2) (Replicasets c2) (lastServerNames c2) true) ns.
Proof. intros Hl Hn. split; [done| |done|done]. intros a. by apply (setServer_spec redisInfo). Qed.

Lemma loads_topology c ns sr :
  holds_topology c ns -> exists sr', loadSlots sr (Replicasets c) = Ok sr' /\
    forall i, 0 <= i < 16384 -> slots_Get sr' i = Ok (served_by ns i).
Proof.
  intros Hc. rewrite (ht_sets _ _ Hc).
  destruct (loadSlots_spec c ns sr) as (sr' & ? & _ & ?); [apply Hc|eauto].
Qed.

End following.

(** ** A cluster that changes *)

Lemma no_topology : @holds_topology (gmap_HashMap ClusterNode) no_nodes [].
Proof.
  split; [|done..]. split; [|constructor|constructor]. split; [constructor|constructor|].
  intros i m1 m2 Hm. cbn in Hm. by apply elem_of_nil in Hm.
Qed.

Lemma sample_listing : listing sample_nodes.
Proof.
  split; [apply sample_cluster_ok|repeat constructor; not_in|].
  vm_compute. repeat (constructor; [rewrite ?elem_of_cons; set_solver|]). constructor.
Qed.


(** The slave [dd] moves from [bb] to [cc]. *)
Definition moved_nodes : list ClusterNode :=
  take 3 sample_nodes ++ [sample_node "dd" 7003 Slave "cc" []].

(** A replica that follows another master is not a change of the layout: it goes on serving the
    reads of the slots of its old master. *)
Definition slave_addrs (rs : replicaset) : list bytes := n_Addr <$> rs_Slaves rs.
Example moved_replica_missed :
  ('(_, c) ← updateClusterNodes sample_info no_nodes (print_nodes sample_nodes);
   '(err, c) ← updateClusterNodes sample_info c (print_nodes moved_nodes); Ok (err, slave_addrs <$> Replicasets c)) =
    Ok (None, [[]; [str "10.0.0.1:7003"]; []]) /\
  slave_addrs <$> served_by moved_nodes 12000 = Some [str "10.0.0.1:7003"].
Proof. split; vm_compute; reflexivity. Qed.
