(* ===== verification/AuthIp.v ===== *)
(** * The address whitelist

    [core/authip/authip.go]: the map of authorised client addresses and the
    goroutine that reloads the whitelist file.  The file system and the YAML
    parser are outside: a reload is given the outcome of reading the file, and
    [Unmarshal] is a parameter. *)

From S2P Require Import Prelude Errors Cluster.

(** The whitelist file after parsing. *)
Record authIp := mkAuthIp { Enable : bool; IpList : list bytes }.

(** The watched directory and the full name of the file. *)
Record AuthIp := mkWatched { a_path : bytes; a_name : bytes }.

(** [fsnotify] operations: [Write] and [Rename] are bits of the mask. *)
Definition fs_Write : Z := 2.
Definition fs_Rename : Z := 8.

(** What the goroutine receives: a file event with the outcome of reading the
    file, should it do so, or an error of the watcher. *)
Inductive watch_event : Type :=
  | WEvent (name : bytes) (op : Z) (file : bytes + error)
  | WError (err : error).

Section authip.
Context `{HashMap unit} (Unmarshal : bytes -> authIp + error).

Record ipMap := mkIpMap { enable : bool; ips : hmap }.

Definition Validate (i : ipMap) (ip : bytes) : bool :=
  if enable i then match hm_Get (ips i) ip with None => false | Some _ => true end else true.

Definition Insert (i : ipMap) (key : bytes) : bool * ipMap :=
  let '(m, ok) := hm_GetOrInsert (ips i) key tt in (ok, mkIpMap (enable i) m).

(** [parseAuthIp], given the outcome of [ReadFile]. *)
Definition parseAuthIp (i : ipMap) (file : bytes + error) : option error * ipMap :=
  match file with
  | inr err => (Some err, i)
  | inl bs =>
      match Unmarshal bs with
      | inr err => (Some err, i)
      | inl auth =>
          let i := mkIpMap (Enable auth) (ips i) in
          if negb (enable i) then (None, i)
          else (None, fold_left (fun i ip => (Insert i ip).2) (IpList auth) i)
      end
  end.

(** One round of the goroutine of [watchYml]: [None] when it returns. *)
Definition watch_step (a : AuthIp) (i : ipMap) (e : watch_event) : option ipMap :=
  match e with
  | WError _ => None
  | WEvent name op file =>
      if bool_decide (name = a_name a) then
        if (Z.land op fs_Write =? fs_Write) || (Z.land op fs_Rename =? fs_Rename)
        then Some (parseAuthIp i file).2
        else Some i
      else Some i
  end.

Fixpoint watchYml (a : AuthIp) (i : ipMap) (es : list watch_event) : ipMap :=
  match es with
  | [] => i
  | e :: es => match watch_step a i e with None => i | Some i => watchYml a i es end
  end.

(** [LoopIPWhiteList]: the first load, then the events. *)
Definition LoopIPWhiteList (a : AuthIp) (i : ipMap) (first : bytes + error) (es : list watch_event)
    : option error * ipMap :=
  let '(err, i) := parseAuthIp i first in
  match err with
  | Some e => (Some e, i)
  | None => (None, watchYml a i es)
  end.

(** ** What the whitelist admits *)

(** The contents of the file at the events that reload it, up to an error. *)
Fixpoint reloads (a : AuthIp) (es : list watch_event) : list authIp :=
  match es with
  | [] | WError _ :: _ => []
  | WEvent name op (inl bs) :: es =>
      if bool_decide (name = a_name a) && ((Z.land op fs_Write =? fs_Write) || (Z.land op fs_Rename =? fs_Rename))
      then match Unmarshal bs with inl auth => auth :: reloads a es | inr _ => reloads a es end
      else reloads a es
  | WEvent _ _ (inr _) :: es => reloads a es
  end.

(** Enabled after the loads [l], and listed by a load that was enabled. *)
Definition enabled (b : bool) (l : list authIp) : bool := default b (Enable <$> last l).
Definition listed (l : list authIp) (ip : bytes) : bool :=
  existsb (fun auth => Enable auth && bool_decide (ip ∈ IpList auth)) l.

Definition known (i : ipMap) (ip : bytes) : bool := bool_decide (is_Some (hm_view (ips i) !! ip)).

Lemma Validate_known i ip : Validate i ip = negb (enable i) || known i ip.
Proof.
  unfold Validate, known. rewrite hm_Get_view. destruct (enable i); [|done]. simpl.
  destruct (hm_view (ips i) !! ip) eqn:E; [rewrite bool_decide_true; done|].
  by rewrite bool_decide_false by (by intros []).
Qed.

Lemma Insert_spec i key :
  enable (Insert i key).2 = enable i /\
  forall ip, known (Insert i key).2 ip = known i ip || bool_decide (ip = key).
Proof.
  unfold Insert. pose proof (hm_GetOrInsert_view (ips i) key tt) as [Hv _].
  destruct (hm_GetOrInsert (ips i) key tt) as [m ok]. cbn [fst snd enable] in *. split; [done|].
  intros ip. unfold known. cbn [ips]. rewrite Hv. destruct (decide (ip = key)) as [->|Hne].
  - rewrite (bool_decide_true (key = key)), orb_true_r by done. apply bool_decide_true.
    destruct (hm_view (ips i) !! key) eqn:E; [by rewrite E|]. rewrite lookup_insert_eq. by eexists.
  - rewrite (bool_decide_false (ip = key)), orb_false_r by done.
    destruct (hm_view (ips i) !! key); [done|]. by rewrite lookup_insert_ne.
Qed.

Lemma Insert_all i l :
  let i' := fold_left (fun i ip => (Insert i ip).2) l i in
  enable i' = enable i /\ forall ip, known i' ip = known i ip || bool_decide (ip ∈ l).
Proof.
  revert i. induction l as [|key l IH]; intros i; cbn [fold_left].
  { split; [done|]. intros ip. rewrite bool_decide_false, orb_false_r by set_solver. done. }
  destruct (Insert_spec i key) as [He Hk]. destruct (IH (Insert i key).2) as [He' Hk']. split; [congruence|].
  intros ip. rewrite Hk', Hk, <- orb_assoc. f_equal. repeat case_bool_decide; set_solver.
Qed.

Lemma parse_loads i bs auth :
  Unmarshal bs = inl auth ->
  exists i', parseAuthIp i (inl bs) = (None, i') /\ enable i' = Enable auth /\
    forall ip, known i' ip = known i ip || listed [auth] ip.
Proof.
  intros Hu. unfold parseAuthIp. rewrite Hu. unfold listed. cbn [existsb]. destruct (Enable auth) eqn:E; simpl.
  - destruct (Insert_all (mkIpMap true (ips i)) (IpList auth)) as [He Hk]. eexists. split; [done|].
    split; [done|]. intros ip. by rewrite Hk, orb_false_r.
  - eexists. split; [done|]. split; [done|]. intros ip. by rewrite orb_false_r.
Qed.

Lemma watch_loads a i es :
  enable (watchYml a i es) = enabled (enable i) (reloads a es) /\
  forall ip, known (watchYml a i es) ip = known i ip || listed (reloads a es) ip.
Proof.
  revert i. induction es as [|e es IH]; intros i; cbn [watchYml reloads].
  { split; [done|]. intros ip. by rewrite orb_false_r. }
  destruct e as [name op file|err]; cbn [watch_step]; [|split; [done|]; intros ip; by rewrite orb_false_r].
  destruct file as [bs|err].
  2:{ destruct (bool_decide (name = a_name a)), (Z.land op fs_Write =? fs_Write), (Z.land op fs_Rename =? fs_Rename); apply IH. }
  destruct (bool_decide (name = a_name a)); cbn [andb]; [|apply IH].
  destruct ((Z.land op fs_Write =? fs_Write) || (Z.land op fs_Rename =? fs_Rename)); [|apply IH]. destruct (Unmarshal bs) as [auth|err] eqn:Hu.
  - destruct (parse_loads i bs auth Hu) as (i' & -> & He & Hk). cbn [snd]. destruct (IH i') as [He' Hk']. split.
    + rewrite He', He. unfold enabled. rewrite last_cons. by destruct (last (reloads a es)).
    + intros ip. rewrite Hk', Hk. unfold listed. cbn [existsb]. by rewrite orb_false_r, orb_assoc.
  - unfold parseAuthIp. rewrite Hu. apply IH.
Qed.

(** Everything the whitelist admits: addresses accumulate over the loads. *)
Lemma whitelist_view a i bs first es :
  Unmarshal bs = inl first -> hm_view (ips i) = ∅ ->
  exists i', LoopIPWhiteList a i (inl bs) es = (None, i') /\
    forall ip, Validate i' ip = negb (enabled false (first :: reloads a es)) || listed (first :: reloads a es) ip.
Proof.
  intros Hfirst Hempty. unfold LoopIPWhiteList. destruct (parse_loads i bs first Hfirst) as (i1 & -> & He & Hk).
  eexists. split; [done|]. intros ip. destruct (watch_loads a i1 es) as [He' Hk'].
  rewrite Validate_known, He', Hk', He, Hk.
  assert (known i ip = false) as ->.
  { unfold known. rewrite Hempty, lookup_empty. apply bool_decide_false. by intros []. }
  unfold listed, enabled. cbn [existsb]. rewrite orb_false_l, orb_false_r. f_equal. f_equal.
  rewrite last_cons. by destruct (last (reloads a es)).
Qed.

(** Nothing that an enabled load listed is missing from the last one. *)
Definition only_grows (loads : list authIp) (now : authIp) : Prop :=
  Forall (fun auth => Enable auth = true -> IpList auth ⊆ IpList now) loads.

(** C39: the whitelist, after its first load and any sequence of file events, against the
    contents [now] that were loaded last.  If [now] switches it off, everybody is admitted.  If
    [now] switches it on, every address of [now] is admitted, an address that no load
    ever listed is refused, and, when no load has taken an address away, exactly the
    addresses of [now] are admitted.  A file that cannot be read or parsed is no load, and
    none comes after an error of the watcher. *)
Theorem whitelist_admits a i bs first es now
    (Hfirst : Unmarshal bs = inl first) (Hempty : hm_view (ips i) = ∅) (Hnow : last (first :: reloads a es) = Some now) :
  exists i', LoopIPWhiteList a i (inl bs) es = (None, i') /\
    (Enable now = false -> forall ip, Validate i' ip = true) /\
    (Enable now = true ->
       (forall ip, ip ∈ IpList now -> Validate i' ip = true) /\
       (forall ip, Forall (fun auth => ip ∉ IpList auth) (first :: reloads a es) -> Validate i' ip = false) /\
       (only_grows (first :: reloads a es) now -> forall ip, Validate i' ip = bool_decide (ip ∈ IpList now))).
Proof.
  destruct (whitelist_view a i bs first es Hfirst Hempty) as (i' & Hl & Hv). exists i'. split; [done|].
  set (loads := first :: reloads a es) in *. unfold enabled in Hv. rewrite Hnow in Hv. cbn [fmap option_fmap option_map default] in Hv.
  assert (now ∈ loads) as Hin by (by apply last_Some_elem_of).
  assert (Enable now = true -> forall ip, ip ∈ IpList now -> Validate i' ip = true) as Hyes.
  { intros Ho ip Hip. rewrite Hv. apply orb_true_iff. right. apply existsb_exists. exists now. split; [by apply list_elem_of_In|].
    by rewrite Ho, bool_decide_true. }
  assert (Enable now = true -> forall ip, Validate i' ip = true -> exists auth, auth ∈ loads /\ Enable auth = true /\ ip ∈ IpList auth) as Hno.
  { intros Ho ip. rewrite Hv, Ho. cbn [negb orb]. intros (auth & Ha & Hb)%existsb_exists. apply andb_true_iff in Hb as [Hb Hc].
    exists auth. split; [by apply list_elem_of_In|]. by apply bool_decide_eq_true in Hc. }
  split; [intros Hoff ip; by rewrite Hv, Hoff|]. intros Hon. split; [by apply Hyes|]. split.
  - intros ip Hnever. destruct (Validate i' ip) eqn:E; [|done]. destruct (Hno Hon ip E) as (auth & Ha & _ & Hip).
    rewrite Forall_forall in Hnever. by apply Hnever in Ha.
  - intros Hgrow ip. case_bool_decide as Hip; [by apply Hyes|]. destruct (Validate i' ip) eqn:E; [|done].
    destruct (Hno Hon ip E) as (auth & Ha & Hb & Hc). unfold only_grows in Hgrow. rewrite Forall_forall in Hgrow.
    destruct Hip. by apply (Hgrow auth).
Qed.
End authip.

(** ** A sample: an address is added to the file, and one removed *)
Definition sample_yaml (bs : bytes) : authIp + error :=
  if bool_decide (bs = str "both") then inl (mkAuthIp true [str "10.0.0.1"; str "10.0.0.2"])
  else if bool_decide (bs = str "one") then inl (mkAuthIp true [str "10.0.0.1"])
  else inr (EText (str "yaml")).
Definition sample_watch : AuthIp := mkWatched (str "conf") (str "conf/authip.yaml").
Definition no_ips : @ipMap (gmap_HashMap unit) := @mkIpMap (gmap_HashMap unit) false ∅.
Definition addition : list watch_event :=
  [WEvent (str "conf/authip.yaml") 2 (inl (str "?")); WEvent (str "conf/authip.yaml") 2 (inl (str "both"))].
Definition removal : list watch_event := [WEvent (str "conf/authip.yaml") 2 (inl (str "one"))].

Lemma whitelist_admits_witness :
  exists i', @LoopIPWhiteList (gmap_HashMap unit) sample_yaml sample_watch no_ips (inl (str "one")) addition = (None, i') /\
    forall ip, Validate i' ip = bool_decide (ip ∈ [str "10.0.0.1"; str "10.0.0.2"]).
Proof.
  destruct (@whitelist_admits (gmap_HashMap unit) sample_yaml sample_watch no_ips (str "one")
    (mkAuthIp true [str "10.0.0.1"]) addition (mkAuthIp true [str "10.0.0.1"; str "10.0.0.2"])) as (i' & Hl & _ & Hon).
  - reflexivity.
  - reflexivity.
  - reflexivity.
  - exists i'. split; [exact Hl|]. apply Hon; [reflexivity|]. unfold only_grows.
    change (reloads _ _ _) with [mkAuthIp true [str "10.0.0.1"; str "10.0.0.2"]].
    apply Forall_cons_2; [intros _; cbn [IpList]; set_solver|]. apply Forall_cons_2; [done|]. apply Forall_nil_2.
Defined.

(** A removed address is still admitted. *)
Example removed_address :
  Validate (@LoopIPWhiteList (gmap_HashMap unit) sample_yaml sample_watch no_ips (inl (str "both")) removal).2 (str "10.0.0.2") = true.
Proof. vm_compute. reflexivity. Qed.
