(* ===== verification/World.v ===== *)
(** * The state of the event loop

    One event loop owns every connection, so its state is one record, [World]:
    the connections ([core/connection.go]), the messages and fragments
    ([Message]), the timeout queue, the poller's task queues, the loop's own
    fields ([core/eventloop.go]) and the engine's tables ([EngineGlobal] of
    [core/gnet.go]).  What lies outside the loop (the kernel, the clock, the
    pool of ring buffers) is the class [Env]. *)

From S2P Require Import Prelude Errors Byteslice Ring LinkedList Elastic Commands Codec Message CodecS Pool Cluster.

(** ** Enumerations of [core/gnet.go] and [core/stats.go] *)

Inductive ConnType : Set := ConnNone | ConnClient | ConnServer.
Inductive InitializeStatus : Set := InitializeNone | Initializing | Initialized.
Inductive Action : Set := ActNone | ActClose | ActShutdown.
Inductive ConnCloseType : Set := ConnEof | ConnErr | ProxyEof.

#[export] Instance ConnType_eq_dec : EqDecision ConnType.
Proof. solve_decision. Defined.
#[export] Instance InitializeStatus_eq_dec : EqDecision InitializeStatus.
Proof. solve_decision. Defined.

(** ** Connections *)

Record conn := mkConn {
  c_fd : Z;
  c_localAddr : option bytes;
  c_remoteAddr : option bytes;
  c_outboundBuffer : Elastic.Buffer;
  c_attached : bool;                  (* [pollAttachment] is not nil *)
  c_inboundBuffer : Elastic.RingBuffer;
  c_buffer : bytes;
  c_inMsgQueue : option Queue;
  c_inFragQueue : option Queue;
  c_outFragQueue : option Queue;
  c_opened : bool;
  c_isSlave : bool;
  c_initStep : Z;
  c_initStatus : InitializeStatus;
  c_connType : ConnType;
}.

(** Field updates. *)
Definition set_outbound (c : conn) (b : Elastic.Buffer) : conn :=
  mkConn (c_fd c) (c_localAddr c) (c_remoteAddr c) b (c_attached c) (c_inboundBuffer c) (c_buffer c)
    (c_inMsgQueue c) (c_inFragQueue c) (c_outFragQueue c) (c_opened c) (c_isSlave c) (c_initStep c)
    (c_initStatus c) (c_connType c).
Definition set_inbound (c : conn) (r : Elastic.RingBuffer) (b : bytes) : conn :=
  mkConn (c_fd c) (c_localAddr c) (c_remoteAddr c) (c_outboundBuffer c) (c_attached c) r b
    (c_inMsgQueue c) (c_inFragQueue c) (c_outFragQueue c) (c_opened c) (c_isSlave c) (c_initStep c)
    (c_initStatus c) (c_connType c).
Definition set_queues (c : conn) (im ifr ofr : option Queue) : conn :=
  mkConn (c_fd c) (c_localAddr c) (c_remoteAddr c) (c_outboundBuffer c) (c_attached c)
    (c_inboundBuffer c) (c_buffer c) im ifr ofr (c_opened c) (c_isSlave c) (c_initStep c)
    (c_initStatus c) (c_connType c).
Definition set_opened (c : conn) (o : bool) : conn :=
  mkConn (c_fd c) (c_localAddr c) (c_remoteAddr c) (c_outboundBuffer c) (c_attached c)
    (c_inboundBuffer c) (c_buffer c) (c_inMsgQueue c) (c_inFragQueue c) (c_outFragQueue c) o
    (c_isSlave c) (c_initStep c) (c_initStatus c) (c_connType c).
Definition set_init (c : conn) (step : Z) (st : InitializeStatus) : conn :=
  mkConn (c_fd c) (c_localAddr c) (c_remoteAddr c) (c_outboundBuffer c) (c_attached c)
    (c_inboundBuffer c) (c_buffer c) (c_inMsgQueue c) (c_inFragQueue c) (c_outFragQueue c)
    (c_opened c) (c_isSlave c) step st (c_connType c).

(** [newTCPConn]: a connection that is not open yet.  [WriteBufferCap] is always
    positive, so [elastic.New] succeeds. *)
Definition newTCPConn (fd : Z) (local remote : option bytes) (t : ConnType) (st : InitializeStatus)
    (isSlave : bool) (WriteBufferCap : Z) : conn :=
  mkConn fd local remote
    (match Elastic.New WriteBufferCap with inl b => b | inr _ => Elastic.mkElastic 0 None LinkedList.empty end)
    true None [] (Some emptyQueue) (Some emptyQueue) (Some emptyQueue) false isSlave 0 st t.

(** [releaseTCP].  The address bytes go back to the byte-slice pool, which is
    not part of the connection. *)
Definition releaseTCP (c : conn) : res conn :=
  out ← Elastic.Release (c_outboundBuffer c);
  Ok (mkConn (c_fd c) None None out false (Elastic.ring_Done (c_inboundBuffer c)) [] None None None
        false false (-1) InitializeNone ConnNone).

(** ** The poller's tasks

    The functions that are queued with [Trigger]; the callbacks of the
    asynchronous writes are nil everywhere in the program. *)
Inductive task : Type :=
  | TWriteSignal (c : cid)
  | TAsyncWrite (c : cid) (data : bytes)
  | TAsyncWritev (c : cid) (data : list bytes)
  | TClusterNodes (c : cid)
  | TClose (c : cid)
  | TShutdown.

(** ** Outside the loop *)

(** [EAGAIN] on Linux. *)
Definition EAGAIN : Z := 11.

Inductive epoll_op : Set := AddRead | AddWrite | ModRead | ModReadWrite | Delete.

(** Kernel calls return a count and an error number; a failed write returns the
    count -1 and sends nothing.  [wire e fd] is what was sent on [fd] so far. *)
Class Env := {
  env : Type;
  sys_write : env -> Z -> bytes -> env * (Z * option Z);
  sys_writev : env -> Z -> list bytes -> env * (Z * option Z);
  sys_read : env -> Z -> Z -> env * (bytes * option Z);
  sys_close : env -> Z -> env * option Z;
  epoll_ctl : env -> epoll_op -> Z -> env * option Z;
  wake : env -> env * option Z;                 (* the write to the eventfd *)
  time_Now : env -> env * Z;
  ring_Get : env -> env * Ring.Buffer;          (* the pool of ring buffers *)
  pool_choice : env -> env * option nat;        (* which pooled message sync.Pool returns *)
  rand_Intn : env -> Z -> env * Z;
  net_Dial : env -> bytes -> env * ((Z * bytes * bytes) + error);
    (* connect, duplicate the descriptor and set its options: descriptor, local and remote address *)
  sys_accept : env -> env * ((Z * bytes) + option Z);
    (* a non-blocking descriptor and its remote address, or the error *)
  wire : env -> Z -> bytes;
  sys_write_spec : forall e fd p e' n err, sys_write e fd p = (e', (n, err)) ->
    match err with
    | None => 0 <= n <= len p
    | Some _ => n = -1
    end /\
    (forall k, wire e' k = if k =? fd then wire e fd ++ take (Z.to_nat n) p else wire e k);
  sys_writev_spec : forall e fd bs e' n err, sys_writev e fd bs = (e', (n, err)) ->
    match err with
    | None => 0 <= n <= len (concat bs)
    | Some _ => n = -1
    end /\
    (forall k, wire e' k = if k =? fd then wire e fd ++ take (Z.to_nat n) (concat bs) else wire e k);
  sys_writev_progress : forall e fd bs e' n, sys_writev e fd bs = (e', (n, None)) ->
    concat bs <> [] -> 0 < n;      (* a stream socket takes a byte or reports an error *)
  sys_read_wire : forall e fd n k, wire (sys_read e fd n).1 k = wire e k;
  sys_close_wire : forall e fd k, wire (sys_close e fd).1 k = wire e k;
  epoll_ctl_wire : forall e o fd k, wire (epoll_ctl e o fd).1 k = wire e k;
  wake_wire : forall e k, wire (wake e).1 k = wire e k;
  time_Now_wire : forall e k, wire (time_Now e).1 k = wire e k;
  ring_Get_wire : forall e k, wire (ring_Get e).1 k = wire e k;
  pool_choice_wire : forall e k, wire (pool_choice e).1 k = wire e k;
  rand_Intn_wire : forall e n k, wire (rand_Intn e n).1 k = wire e k;
  rand_Intn_range : forall e n, 0 < n -> 0 <= (rand_Intn e n).2 < n;
  net_Dial_wire : forall e a k, wire (net_Dial e a).1 k = wire e k;
  sys_accept_wire : forall e k, wire (sys_accept e).1 k = wire e k;
  ring_Get_ok : forall e, pool_ring (ring_Get e).2;
}.

(** Engine options the loop reads. *)
Record Options := mkOptions {
  WriteBufferCap : Z;
  ReadBufferCap : Z;
  RedisRequestTimeout : Z;
  RedisMsgMaxLength : Z;
  RedisPasswd : bytes;
  RedisServerConnections : Z;
  DisableSlave : bool;
  ServerRetryTimeout : Z;
}.

Section world.
Context `{Env} {T : Type} `{LLRB T} `{HashMap ClusterNode}.

Record World := mkWorld {
  w_env : env;
  w_conns : gmap cid conn;            (* the heap of connections *)
  w_next : cid;
  w_store : Store;
  w_timeouts : T;
  w_tasks : list task;                (* asyncTaskQueue *)
  w_urgent : list task;               (* urgentAsyncTaskQueue *)
  w_wakeup : bool;                    (* wakeupCall *)
  w_connections : gmap Z cid;         (* eventloop.connections *)
  w_cConnCount : Z;
  w_sConnCount : Z;
  w_nextTicker : Z;
  w_ProxyPool : gmap bytes Pool;
  w_ProxyAddrs : list bytes;
  w_clusterChan : list bytes;
  w_ClusterNodes : ClusterNodes;
  w_Slots2Node : slotReplicaset;
}.

Definition with_env (w : World) (e : env) : World :=
  mkWorld e (w_conns w) (w_next w) (w_store w) (w_timeouts w) (w_tasks w) (w_urgent w) (w_wakeup w)
    (w_connections w) (w_cConnCount w) (w_sConnCount w) (w_nextTicker w) (w_ProxyPool w)
    (w_ProxyAddrs w) (w_clusterChan w) (w_ClusterNodes w) (w_Slots2Node w).
Definition with_conns_heap (w : World) (cs : gmap cid conn) : World :=
  mkWorld (w_env w) cs (w_next w) (w_store w) (w_timeouts w) (w_tasks w) (w_urgent w) (w_wakeup w)
    (w_connections w) (w_cConnCount w) (w_sConnCount w) (w_nextTicker w) (w_ProxyPool w)
    (w_ProxyAddrs w) (w_clusterChan w) (w_ClusterNodes w) (w_Slots2Node w).
Definition with_store (w : World) (s : Store) : World :=
  mkWorld (w_env w) (w_conns w) (w_next w) s (w_timeouts w) (w_tasks w) (w_urgent w) (w_wakeup w)
    (w_connections w) (w_cConnCount w) (w_sConnCount w) (w_nextTicker w) (w_ProxyPool w)
    (w_ProxyAddrs w) (w_clusterChan w) (w_ClusterNodes w) (w_Slots2Node w).
Definition with_timeouts (w : World) (t : T) : World :=
  mkWorld (w_env w) (w_conns w) (w_next w) (w_store w) t (w_tasks w) (w_urgent w) (w_wakeup w)
    (w_connections w) (w_cConnCount w) (w_sConnCount w) (w_nextTicker w) (w_ProxyPool w)
    (w_ProxyAddrs w) (w_clusterChan w) (w_ClusterNodes w) (w_Slots2Node w).
Definition with_tasks (w : World) (ts us : list task) (wk : bool) : World :=
  mkWorld (w_env w) (w_conns w) (w_next w) (w_store w) (w_timeouts w) ts us wk
    (w_connections w) (w_cConnCount w) (w_sConnCount w) (w_nextTicker w) (w_ProxyPool w)
    (w_ProxyAddrs w) (w_clusterChan w) (w_ClusterNodes w) (w_Slots2Node w).
Definition with_connections (w : World) (m : gmap Z cid) (cc sc : Z) : World :=
  mkWorld (w_env w) (w_conns w) (w_next w) (w_store w) (w_timeouts w) (w_tasks w) (w_urgent w)
    (w_wakeup w) m cc sc (w_nextTicker w) (w_ProxyPool w)
    (w_ProxyAddrs w) (w_clusterChan w) (w_ClusterNodes w) (w_Slots2Node w).
Definition with_pools (w : World) (p : gmap bytes Pool) : World :=
  mkWorld (w_env w) (w_conns w) (w_next w) (w_store w) (w_timeouts w) (w_tasks w) (w_urgent w)
    (w_wakeup w) (w_connections w) (w_cConnCount w) (w_sConnCount w) (w_nextTicker w) p
    (w_ProxyAddrs w) (w_clusterChan w) (w_ClusterNodes w) (w_Slots2Node w).
Definition with_ticker (w : World) (t : Z) (addrs : list bytes) (cn : ClusterNodes) (sr : slotReplicaset) : World :=
  mkWorld (w_env w) (w_conns w) (w_next w) (w_store w) (w_timeouts w) (w_tasks w) (w_urgent w)
    (w_wakeup w) (w_connections w) (w_cConnCount w) (w_sConnCount w) t (w_ProxyPool w)
    addrs (w_clusterChan w) cn sr.
Definition alloc_conn (w : World) (x : conn) : cid * World :=
  (w_next w,
   mkWorld (w_env w) (<[w_next w := x]> (w_conns w)) (Pos.succ (w_next w)) (w_store w) (w_timeouts w) (w_tasks w)
     (w_urgent w) (w_wakeup w) (w_connections w) (w_cConnCount w) (w_sConnCount w) (w_nextTicker w)
     (w_ProxyPool w) (w_ProxyAddrs w) (w_clusterChan w) (w_ClusterNodes w) (w_Slots2Node w)).
Definition with_chan (w : World) (ch : list bytes) : World :=
  mkWorld (w_env w) (w_conns w) (w_next w) (w_store w) (w_timeouts w) (w_tasks w) (w_urgent w)
    (w_wakeup w) (w_connections w) (w_cConnCount w) (w_sConnCount w) (w_nextTicker w) (w_ProxyPool w)
    (w_ProxyAddrs w) ch (w_ClusterNodes w) (w_Slots2Node w).

Definition get_conn (w : World) (c : cid) : res conn :=
  match w_conns w !! c with Some x => Ok x | None => Panic end.
Definition put_conn (w : World) (c : cid) (x : conn) : World :=
  with_conns_heap w (<[c := x]> (w_conns w)).

(** Kernel calls on the state. *)
Definition do_epoll (w : World) (o : epoll_op) (c : conn) : res (option error * World) :=
  (* the attachment is dereferenced *)
  if c_attached c then
    let '(e, r) := epoll_ctl (w_env w) o (c_fd c) in
    Ok (ESys <$> r, with_env w e)
  else Panic.

Definition now (w : World) : Z * World :=
  let '(e, t) := time_Now (w_env w) in (t, with_env w e).

(** [Poller.Trigger] and [Poller.UrgentTrigger]. *)
Definition wake_up (w : World) : option error * World :=
  if w_wakeup w then (None, w)
  else
    let '(e, r) := wake (w_env w) in
    let w := with_tasks (with_env w e) (w_tasks w) (w_urgent w) true in
    ((match r with Some n => if n =? EAGAIN then None else Some (ESys n) | None => None end), w).
Definition Trigger (w : World) (t : task) : option error * World :=
  wake_up (with_tasks w (w_tasks w ++ [t]) (w_urgent w) (w_wakeup w)).
Definition UrgentTrigger (w : World) (t : task) : option error * World :=
  wake_up (with_tasks w (w_tasks w) (w_urgent w ++ [t]) (w_wakeup w)).

#[export] Instance World_HasStore : HasStore World := {|
  store_of := w_store;
  set_store := with_store;
  store_of_set _ _ := eq_refl;
|}.

Lemma get_conn_Ok w c x : w_conns w !! c = Some x -> get_conn w c = Ok x.
Proof. intros Hc. unfold get_conn. by rewrite Hc. Qed.
Lemma get_put_conn w c x : get_conn (put_conn w c x) c = Ok x.
Proof. unfold get_conn, put_conn. simpl. by rewrite lookup_insert_eq. Qed.
End world.
Arguments World {_} T {_}.
