(* ===== verification/Conn.v ===== *)
(** * Connections

    [core/connection.go], with [eventloop.write] and [eventloop.closeConn] of
    [core/eventloop.go] that its methods call: reading from the inbound ring and
    the bytes just received, writing through the outbound buffer, the queues of
    messages and fragments, and the tasks run by the poller. *)

From S2P Require Import Prelude Errors Byteslice Ring LinkedList Elastic Commands Codec Message CodecC CodecS Pool Cluster World.

(** ** The reader

    The unread bytes of a connection are those of its inbound ring followed by
    [buffer], the bytes the last read put into the loop's buffer.  The slices
    [Peek] and [Next] return alias these buffers or the loop's [cache]; they are
    used before the next read, so the model returns their bytes. *)
Section reader.
Context `{BytePool}.

Definition resetBuffer (c : conn) : conn := set_inbound c (Elastic.ring_Reset (c_inboundBuffer c)) [].

Definition conn_Read (c : conn) (p : bytes) : res (bytes * Z * option error * conn) :=
  if Elastic.ring_IsEmpty (c_inboundBuffer c) then
    let n := Z.min (len p) (len (c_buffer c)) in
    Ok (copy_at p 0 (c_buffer c), n,
        (if (n =? 0) && (0 <? len p) then Some (EIo EOF) else None),
        set_inbound c (c_inboundBuffer c) (subl (c_buffer c) n (len (c_buffer c))))
  else
    '(p, n, _, r) ← Elastic.ring_Read (c_inboundBuffer c) p;
    let c := set_inbound c r (c_buffer c) in
    if n =? len p then Ok (p, n, None, c)
    else
      let m := Z.min (len p - n) (len (c_buffer c)) in
      Ok (copy_at p n (c_buffer c), n + m, None,
          set_inbound c r (subl (c_buffer c) m (len (c_buffer c)))).

Definition conn_Peek (c : conn) (n : Z) : res (bytes * option error) :=
  let inBufferLen := Elastic.ring_Buffered (c_inboundBuffer c) in
  let totalLen := inBufferLen + len (c_buffer c) in
  if totalLen <? n then Ok ([], Some (EIo ErrShortBuffer))
  else
    let n := if n <=? 0 then totalLen else n in
    if Elastic.ring_IsEmpty (c_inboundBuffer c) then
      b ← slice (c_buffer c) 0 n; Ok (b, None)
    else
      '(head, tail) ← Elastic.ring_Peek (c_inboundBuffer c) n;
      if n <=? len head then b ← slice head 0 n; Ok (b, None)
      else
        let cache := head ++ tail in
        if n <=? inBufferLen then Ok (cache, None)
        else
          b ← slice (c_buffer c) 0 (n - inBufferLen);
          Ok (cache ++ b, None).

(** [Next]: the discard is deferred to the return. *)
Definition conn_Next (c : conn) (n : Z) : res (bytes * option error * conn) :=
  let inBufferLen := Elastic.ring_Buffered (c_inboundBuffer c) in
  let totalLen := inBufferLen + len (c_buffer c) in
  if totalLen <? n then Ok ([], Some (EIo ErrShortBuffer), c)
  else
    let n := if n <=? 0 then totalLen else n in
    if Elastic.ring_IsEmpty (c_inboundBuffer c) then
      b ← slice (c_buffer c) 0 n;
      rest ← slice (c_buffer c) n (len (c_buffer c));
      Ok (b, None, set_inbound c (c_inboundBuffer c) rest)
    else
      '(head, tail) ← Elastic.ring_Peek (c_inboundBuffer c) n;
      '(b, rest) ←
        (if n <=? len head then b ← slice head 0 n; Ok (b, c_buffer c)
         else
           let cache := head ++ tail in
           if n <=? inBufferLen then Ok (cache, c_buffer c)
           else
             let remaining := n - inBufferLen in
             b ← slice (c_buffer c) 0 remaining;
             rest ← slice (c_buffer c) remaining (len (c_buffer c));
             Ok (cache ++ b, rest));
      '(_, _, r) ← Elastic.ring_Discard (c_inboundBuffer c) n;
      Ok (b, None, set_inbound c r rest).

Definition conn_Discard (c : conn) (n : Z) : res (Z * conn) :=
  let inBufferLen := Elastic.ring_Buffered (c_inboundBuffer c) in
  let tempBufferLen := len (c_buffer c) in
  if (inBufferLen + tempBufferLen <? n) || (n <=? 0) then
    Ok (inBufferLen + tempBufferLen, resetBuffer c)
  else if Elastic.ring_IsEmpty (c_inboundBuffer c) then
    rest ← slice (c_buffer c) n (len (c_buffer c));
    Ok (n, set_inbound c (c_inboundBuffer c) rest)
  else
    '(discarded, _, r) ← Elastic.ring_Discard (c_inboundBuffer c) n;
    let c := set_inbound c r (c_buffer c) in
    if discarded <? inBufferLen then Ok (discarded, c)
    else
      rest ← slice (c_buffer c) (n - inBufferLen) (len (c_buffer c));
      Ok (n, set_inbound c r rest).

Definition InboundBuffered (c : conn) : Z := Elastic.ring_Buffered (c_inboundBuffer c) + len (c_buffer c).
Definition OutboundBuffered (c : conn) : Z := Elastic.Buffered (c_outboundBuffer c).

(** Deadlines are not supported. *)
Definition conn_SetDeadline (c : conn) (t : Z) : option error := Some (EEngine ErrUnsupportedOp).
Definition conn_SetReadDeadline (c : conn) (t : Z) : option error := Some (EEngine ErrUnsupportedOp).
Definition conn_SetWriteDeadline (c : conn) (t : Z) : option error := Some (EEngine ErrUnsupportedOp).

Definition conn_Fd (c : conn) : Z := c_fd c.
Definition conn_ConnType (c : conn) : ConnType := c_connType c.
Definition conn_IsSlave (c : conn) : bool := c_isSlave c.
Definition conn_SetIsSlave (c : conn) (b : bool) : conn :=
  mkConn (c_fd c) (c_localAddr c) (c_remoteAddr c) (c_outboundBuffer c) (c_attached c) (c_inboundBuffer c) (c_buffer c)
    (c_inMsgQueue c) (c_inFragQueue c) (c_outFragQueue c) (c_opened c) b (c_initStep c) (c_initStatus c) (c_connType c).
Definition conn_InitializeStatus (c : conn) : InitializeStatus := c_initStatus c.
Definition conn_SetInitializeStatus (c : conn) (st : InitializeStatus) : conn := set_init c (c_initStep c) st.
Definition conn_InitializeStep (c : conn) : Z := c_initStep c.
Definition conn_SetInitializeStep (c : conn) (step : Z) : conn := set_init c step (c_initStatus c).
Definition LocalAddr (c : conn) : bytes := default (str "-") (c_localAddr c).

Section streams.
Context {W R : Type} (wr : W -> bytes -> W * (Z * option error))
  (rd : R -> Z -> R * (Z * bytes * option error)).

Definition conn_WriteTo (c : conn) (s : W) : res (Z * option error * conn * W) :=
  '(n, err, r, s) ←
    (if negb (Elastic.ring_IsEmpty (c_inboundBuffer c)) then Elastic.ring_WriteTo wr (c_inboundBuffer c) s
     else Ok (0, None, c_inboundBuffer c, s));
  match err with
  | Some e => Ok (n, Some e, set_inbound c r (c_buffer c), s)
  | None =>
      let '(s, (m, err)) := wr s (c_buffer c) in
      rest ← slice (c_buffer c) m (len (c_buffer c));
      Ok (n + m, err, set_inbound c r rest, s)
  end.

Definition conn_ReadFrom (fuel : nat) (g : Ring.Buffer) (c : conn) (s : R) : res (Z * option error * conn * R) :=
  '(n, err, b, s) ← Elastic.ReadFrom rd fuel g (c_outboundBuffer c) s;
  Ok (n, err, set_outbound c b, s).
End streams.

(** The end of [eventloop.cread] and [sread], which keeps the unread bytes in the
    ring, and the start of the next [eventloop.read]. *)
Definition keep_unread (g : Ring.Buffer) (c : conn) : res conn :=
  '(_, r) ← Elastic.ring_Write g (c_inboundBuffer c) (c_buffer c);
  Ok (set_inbound c r (c_buffer c)).
Definition refill (g : Ring.Buffer) (c : conn) (data : bytes) : res conn :=
  c ← keep_unread g c; Ok (set_inbound c (c_inboundBuffer c) data).

(** *** Unread bytes *)

Definition unread (c : conn) : bytes := Elastic.ring_contents (c_inboundBuffer c) ++ c_buffer c.
Definition reader_ok (c : conn) : Prop := Elastic.ring_wf (c_inboundBuffer c).

Lemma ring_empty_contents r : Elastic.ring_wf r -> Elastic.ring_IsEmpty r = true -> Elastic.ring_contents r = [].
Proof. destruct r as [rb|]; [|done]. simpl. intros [Hw _] He. by apply Ring.contents_nil. Qed.

Lemma ring_nonempty_len r : Elastic.ring_wf r -> Elastic.ring_IsEmpty r = false -> 0 < len (Elastic.ring_contents r).
Proof.
  destruct r as [rb|]; [|done]. simpl. intros [Hw _] He. pose proof (len_nonneg (Ring.contents rb)).
  destruct (decide (len (Ring.contents rb) = 0)) as [Hz|]; [|lia].
  apply len_0_nil in Hz. apply Ring.contents_nil in Hz; [|done]. unfold Ring.IsEmpty in He. congruence.
Qed.

Lemma len_unread c : reader_ok c -> Elastic.ring_Buffered (c_inboundBuffer c) + len (c_buffer c) = len (unread c).
Proof. intros Hr. unfold unread. by rewrite Elastic.ring_len_contents, len_app. Qed.

(** What [Peek] returns: the first [n] unread bytes, all of them for [n <= 0]. *)
Definition peek_count (n : Z) (q : bytes) : Z := if n <=? 0 then len q else n.

(** [take] over the ring and the buffer. *)
Lemma take_unread (a b : bytes) n :
  len a < n -> take (Z.to_nat n) (a ++ b) = a ++ take (Z.to_nat (n - len a)) b.
Proof.
  intros Hn. rewrite take_app, take_ge by (unfold len in *; lia). do 2 f_equal. unfold len. lia.
Qed.
Lemma drop_unread (a b : bytes) n :
  len a <= n -> drop (Z.to_nat n) (a ++ b) = drop (Z.to_nat (n - len a)) b.
Proof.
  intros Hn. rewrite drop_app, drop_ge by (unfold len in *; lia). rewrite app_nil_l. f_equal. unfold len. lia.
Qed.
Lemma take_front (a b : bytes) n : n <= len a -> take (Z.to_nat n) (a ++ b) = take (Z.to_nat n) a.
Proof. intros Hn. rewrite take_app_le by (unfold len in *; lia). done. Qed.

Lemma peek_count_bounds n q : (len q <? n) = false -> 0 <= peek_count n q <= len q.
Proof. unfold peek_count. pose proof (len_nonneg q). intros. case_if. Qed.

(** The slices of a non-empty ring, and how they make up the first [k] bytes. *)
Lemma gather c k :
  reader_ok c -> 0 < k <= len (unread c) ->
  let rc := Elastic.ring_contents (c_inboundBuffer c) in
  exists h t, Elastic.ring_Peek (c_inboundBuffer c) k = Ok (h, t) /\
    (k <= len h -> k <= len rc /\ slice h 0 k = Ok (take (Z.to_nat k) (unread c))) /\
    (k <= len rc -> h ++ t = take (Z.to_nat k) (unread c)) /\
    (len rc < k -> (h ++ t) ++ take (Z.to_nat (k - len rc)) (c_buffer c) = take (Z.to_nat k) (unread c)).
Proof.
  intros Hr Hk rc. destruct (Elastic.lazy_ring_Peek_spec _ k Hr ltac:(lia)) as (h & t & Hp & Hht). fold rc in Hht.
  pose proof (len_nonneg t). unfold unread. fold rc.
  assert (len h + len t = Z.min k (len rc)) as Hlen.
  { rewrite <- len_app, Hht. unfold len. rewrite length_take. lia. }
  exists h, t. split; [done|]. split_and!.
  - intros Hh. split; [lia|]. rewrite slice_Ok, subl_take, take_front by lia.
    assert (t = []) as -> by (apply len_0_nil; lia). rewrite app_nil_r in Hht.
    by rewrite Hht, take_take, Nat.min_id.
  - intros Hh. by rewrite Hht, take_front.
  - intros Hh. rewrite take_unread by lia. by rewrite Hht, (take_ge rc) by (unfold len in *; lia).
Qed.

Lemma conn_Peek_spec c n :
  reader_ok c ->
  conn_Peek c n =
    Ok (if len (unread c) <? n then ([], Some (EIo ErrShortBuffer))
        else (take (Z.to_nat (peek_count n (unread c))) (unread c), None)).
Proof.
  intros Hr. unfold conn_Peek. rewrite len_unread by done. destruct (len (unread c) <? n) eqn:E; [done|].
  fold (peek_count n (unread c)). apply peek_count_bounds in E as Hk. set (k := peek_count n (unread c)) in *.
  pose proof (len_app (Elastic.ring_contents (c_inboundBuffer c)) (c_buffer c)) as Hlu. fold (unread c) in Hlu.
  destruct (Elastic.ring_IsEmpty (c_inboundBuffer c)) eqn:Ee.
  { pose proof (ring_empty_contents _ Hr Ee) as Hc. unfold unread. rewrite Hc in *. rewrite len_nil in Hlu.
    rewrite slice_Ok, res_bind_Ok by lia. by rewrite subl_take. }
  pose proof (ring_nonempty_len _ Hr Ee) as Hne.
  assert (0 < k) as Hk0 by (subst k; unfold peek_count; pose proof (len_nonneg (c_buffer c)); case_if).
  destruct (gather c k Hr ltac:(lia)) as (h & t & -> & H1 & H2 & H3). rewrite res_bind_Ok.
  rewrite Elastic.ring_len_contents by done. case_if.
  - destruct H1 as [_ ->]; [lia|]. done.
  - case_if; [by rewrite H2 by lia|]. rewrite slice_Ok, res_bind_Ok, subl_take, H3 by lia. done.
Qed.

Lemma conn_Peek_all c : reader_ok c -> conn_Peek c 0 = Ok (unread c, None).
Proof.
  intros Hr. rewrite conn_Peek_spec by done. pose proof (len_nonneg (unread c)).
  replace (len (unread c) <? 0) with false by lia. unfold peek_count. cbn [Z.leb Z.compare].
  by rewrite take_ge by (unfold len; lia).
Qed.

Lemma conn_Discard_spec c n :
  reader_ok c ->
  exists c', conn_Discard c n =
      Ok (if (len (unread c) <? n) || (n <=? 0) then len (unread c) else n, c') /\ reader_ok c' /\
    unread c' = if (len (unread c) <? n) || (n <=? 0) then [] else drop (Z.to_nat n) (unread c).
Proof.
  intros Hr. unfold conn_Discard. rewrite len_unread by done.
  destruct ((len (unread c) <? n) || (n <=? 0)) eqn:E.
  { eexists. split; [done|]. destruct (Elastic.ring_Reset_ok _ Hr) as [Hr' Hc'].
    split; [done|]. unfold unread. simpl. by rewrite Hc'. }
  assert (len (unread c) = len (Elastic.ring_contents (c_inboundBuffer c)) + len (c_buffer c)) as Hlu
    by (unfold unread; apply len_app).
  destruct (Elastic.ring_IsEmpty (c_inboundBuffer c)) eqn:Ee.
  { rewrite (ring_empty_contents _ Hr Ee), len_nil in Hlu. rewrite slice_Ok, res_bind_Ok by lia.
    eexists. split; [done|]. split; [done|]. unfold unread. simpl. rewrite (ring_empty_contents _ Hr Ee).
    by rewrite subl_drop by lia. }
  destruct (Elastic.lazy_ring_Discard_spec _ n Hr ltac:(lia)) as (k & err & r & -> & Hr' & Hk & _ & Hc).
  rewrite res_bind_Ok, Elastic.ring_len_contents by done.
  set (rc := Elastic.ring_contents (c_inboundBuffer c)) in *. case_if.
  - eexists. split; [do 2 f_equal; lia|]. split; [done|]. unfold unread. simpl. rewrite Hc. fold rc.
    rewrite drop_app_le by (unfold len in *; lia). done.
  - cbn [c_buffer set_inbound]. rewrite slice_Ok, res_bind_Ok by lia. eexists. split; [done|]. split; [done|].
    unfold unread. simpl. rewrite Hc, drop_ge by (unfold len in *; lia). fold rc.
    rewrite drop_unread, subl_drop by lia. done.
Qed.

(** Only the inbound bytes change. *)
Lemma conn_Discard_inbound c n k c' :
  conn_Discard c n = Ok (k, c') -> c' = set_inbound c (c_inboundBuffer c') (c_buffer c').
Proof.
  unfold conn_Discard, resetBuffer. intros Hd. case_if_in Hd; [by simplify_eq|].
  destruct (Elastic.ring_IsEmpty _); [bind_inv Hd; by simplify_eq|].
  bind_inv Hd. destruct a as [[d e] r]. case_if_in Hd; [by simplify_eq|]. bind_inv Hd. by simplify_eq.
Qed.

Lemma conn_Next_spec c n :
  reader_ok c ->
  exists c', conn_Next c n =
      Ok (if len (unread c) <? n then ([], Some (EIo ErrShortBuffer), c')
          else (take (Z.to_nat (peek_count n (unread c))) (unread c), None, c')) /\ reader_ok c' /\
    unread c' = if len (unread c) <? n then unread c
                else drop (Z.to_nat (peek_count n (unread c))) (unread c).
Proof.
  intros Hr. unfold conn_Next. rewrite len_unread by done.
  destruct (len (unread c) <? n) eqn:E; [by exists c|].
  fold (peek_count n (unread c)). apply peek_count_bounds in E as Hk. set (k := peek_count n (unread c)) in *.
  pose proof (len_app (Elastic.ring_contents (c_inboundBuffer c)) (c_buffer c)) as Hlu. fold (unread c) in Hlu.
  destruct (Elastic.ring_IsEmpty (c_inboundBuffer c)) eqn:Ee.
  { pose proof (ring_empty_contents _ Hr Ee) as Hc. unfold unread. rewrite Hc in *. rewrite len_nil in Hlu.
    rewrite !slice_Ok, !res_bind_Ok, subl_take by lia. eexists. split; [done|]. split; [done|].
    simpl. rewrite Hc, subl_drop by lia. done. }
  pose proof (ring_nonempty_len _ Hr Ee) as Hne.
  assert (0 < k) as Hk0 by (subst k; unfold peek_count; pose proof (len_nonneg (c_buffer c)); case_if).
  destruct (gather c k Hr ltac:(lia)) as (h & t & -> & H1 & H2 & H3). rewrite res_bind_Ok.
  destruct (Elastic.lazy_ring_Discard_spec _ k Hr Hk0) as (d & err & r & -> & Hr' & Hd & _ & Hc).
  rewrite Elastic.ring_len_contents by done. set (rc := Elastic.ring_contents (c_inboundBuffer c)) in *.
  assert (k <= len rc -> drop (Z.to_nat k) (unread c) = drop (Z.to_nat k) rc ++ c_buffer c) as Hle.
  { intros Hl. unfold unread. fold rc. by rewrite drop_app_le by (unfold len in *; lia). }
  case_if; [|case_if].
  - destruct H1 as [Hl ->]; [lia|]. rewrite !res_bind_Ok. eexists. split; [done|]. split; [done|].
    rewrite Hle by done. unfold unread. simpl. by rewrite Hc.
  - rewrite !res_bind_Ok, H2 by lia. eexists. split; [done|]. split; [done|].
    rewrite Hle by lia. unfold unread. simpl. by rewrite Hc.
  - rewrite !slice_Ok, !res_bind_Ok, subl_take, H3 by lia. eexists. split; [done|]. split; [done|].
    unfold unread. simpl. rewrite Hc, drop_ge by (unfold len in *; lia). fold rc.
    by rewrite drop_unread, subl_drop by lia.
Qed.

(** [copy] stops at the end of its destination. *)
Lemma copy_at_trunc (p d : bytes) off :
  0 <= off <= len p -> copy_at p off d = copy_at p off (take (Z.to_nat (len p - off)) d).
Proof.
  intros Ho. unfold copy_at. rewrite !subl_take.
  assert (len (take (Z.to_nat (len p - off)) d) = Z.min (len p - off) (len d)) as ->
    by (unfold len in *; rewrite length_take; lia).
  rewrite take_take. replace (Z.min (len p - off) (Z.min (len p - off) (len d)))
    with (Z.min (len p - off) (len d)) by lia.
  by rewrite Nat.min_l by lia.
Qed.

(** Slicing off what was copied. *)
Lemma subl_min_drop (d : bytes) k : 0 <= k -> subl d (Z.min k (len d)) (len d) = drop (Z.to_nat k) d.
Proof.
  intros Hk. pose proof (len_nonneg d). rewrite subl_drop by lia.
  destruct (decide (k <= len d)); [by rewrite Z.min_l by lia|].
  rewrite Z.min_r by lia. by rewrite !drop_ge by (unfold len in *; lia).
Qed.

Lemma conn_Read_spec c p :
  reader_ok c -> 0 < len p ->
  exists c', conn_Read c p =
      Ok (copy_at p 0 (take (Z.to_nat (len p)) (unread c)), Z.min (len p) (len (unread c)),
          (if len (unread c) =? 0 then Some (EIo EOF) else None), c') /\ reader_ok c' /\
    unread c' = drop (Z.to_nat (len p)) (unread c).
Proof.
  intros Hr Hp. unfold conn_Read.
  pose proof (len_app (Elastic.ring_contents (c_inboundBuffer c)) (c_buffer c)) as Hlu. fold (unread c) in Hlu.
  pose proof (len_nonneg (c_buffer c)).
  destruct (Elastic.ring_IsEmpty (c_inboundBuffer c)) eqn:Ee.
  { pose proof (ring_empty_contents _ Hr Ee) as Hc. unfold unread. rewrite Hc in *. rewrite len_nil in Hlu.
    rewrite app_nil_l, (copy_at_trunc p) by lia. rewrite Z.sub_0_r.
    replace (Z.min (len p) (len (c_buffer c)) =? 0) with (len (c_buffer c) =? 0) by lia.
    replace (0 <? len p) with true by lia. rewrite andb_true_r.
    eexists. split; [done|]. split; [done|]. cbn [c_inboundBuffer c_buffer set_inbound].
    by rewrite Hc, app_nil_l, subl_min_drop by lia. }
  pose proof (ring_nonempty_len _ Hr Ee) as Hne.
  replace (len (unread c) =? 0) with false by lia.
  destruct (Elastic.lazy_ring_Read_spec _ p Hr Hp) as (p' & k & err & r & -> & Hr' & Hk & _ & Hp' & Hc).
  rewrite res_bind_Ok. set (rc := Elastic.ring_contents (c_inboundBuffer c)) in *.
  assert (len p' = len p) as Hlp by (rewrite Hp', len_copy_at by lia; done). rewrite Hlp.
  unfold unread in *. fold rc in Hlu |- *. cbn [c_buffer set_inbound].
  destruct (k =? len p) eqn:E.
  - rewrite take_front, drop_app_le by (unfold len in *; lia). eexists (set_inbound c r (c_buffer c)). split; [|split; [exact Hr'|]].
    + replace (Z.min (len p) (len (rc ++ c_buffer c))) with k by lia. by rewrite Hp'.
    + simpl. by rewrite Hc.
  - assert (k = len rc) as -> by lia. rewrite take_unread, drop_unread by lia.
    eexists (set_inbound c r _). split; [|split; [exact Hr'|]].
    + rewrite Hp' at 1. rewrite (take_ge rc) by (unfold len in *; lia).
      rewrite copy_at_trunc by (rewrite len_copy_at; lia). rewrite len_copy_at by lia.
      rewrite Ring.copy_at_two by (unfold len in *; rewrite length_take; lia).
      by replace (Z.min (len p) (len (rc ++ c_buffer c)))
        with (len rc + Z.min (len p - len rc) (len (c_buffer c))) by lia.
    + simpl. rewrite Hc, drop_ge by (unfold len in *; lia). by rewrite subl_min_drop by lia.
Qed.

Lemma refill_spec g c data :
  reader_ok c -> pool_ring g -> len (unread c) <= 2 ^ 57 ->
  exists c', refill g c data = Ok c' /\ reader_ok c' /\ unread c' = unread c ++ data.
Proof.
  intros Hr Hg Hb. unfold refill, keep_unread.
  destruct (Elastic.lazy_ring_Write_spec g (c_inboundBuffer c) (c_buffer c)) as (r & -> & Hr' & Hc);
    [done|done|by rewrite <- len_app|]. rewrite !res_bind_Ok. eexists. split; [done|]. split; [done|].
  unfold unread. simpl. by rewrite Hc, <- app_assoc.
Qed.

(** *** The reader as a byte stream *)

Inductive reader_op : Type :=
  | RPeek (n : Z)
  | RNext (n : Z)
  | RRead (n : Z)
  | RDiscard (n : Z)
  | RRefill (g : Ring.Buffer) (data : bytes).

Inductive reader_out : Type :=
  | ROutBytes (d : bytes) (err : option error)
  | ROutRead (p : bytes) (n : Z) (err : option error)
  | ROutCount (n : Z)
  | ROutUnit.

Definition reader_step (c : conn) (o : reader_op) : res (reader_out * conn) :=
  match o with
  | RPeek n => '(d, err) ← conn_Peek c n; Ok (ROutBytes d err, c)
  | RNext n => '(d, err, c) ← conn_Next c n; Ok (ROutBytes d err, c)
  | RRead n => '(p, k, err, c) ← conn_Read c (make_bytes n); Ok (ROutRead p k err, c)
  | RDiscard n => '(k, c) ← conn_Discard c n; Ok (ROutCount k, c)
  | RRefill g data => c ← refill g c data; Ok (ROutUnit, c)
  end.

(** The same operations on the stream [q] of unread bytes. *)
Definition stream_step (q : bytes) (o : reader_op) : reader_out * bytes :=
  match o with
  | RPeek n =>
      if len q <? n then (ROutBytes [] (Some (EIo ErrShortBuffer)), q)
      else (ROutBytes (take (Z.to_nat (peek_count n q)) q) None, q)
  | RNext n =>
      if len q <? n then (ROutBytes [] (Some (EIo ErrShortBuffer)), q)
      else (ROutBytes (take (Z.to_nat (peek_count n q)) q) None, drop (Z.to_nat (peek_count n q)) q)
  | RRead n =>
      (ROutRead (copy_at (make_bytes n) 0 (take (Z.to_nat n) q)) (Z.min n (len q))
         (if len q =? 0 then Some (EIo EOF) else None), drop (Z.to_nat n) q)
  | RDiscard n =>
      if (len q <? n) || (n <=? 0) then (ROutCount (len q), []) else (ROutCount n, drop (Z.to_nat n) q)
  | RRefill _ data => (ROutUnit, q ++ data)
  end.

Fixpoint reader_run (c : conn) (os : list reader_op) : res (list reader_out * conn) :=
  match os with
  | [] => Ok ([], c)
  | o :: os =>
      '(x, c) ← reader_step c o;
      '(xs, c) ← reader_run c os;
      Ok (x :: xs, c)
  end.
Fixpoint stream_run (q : bytes) (os : list reader_op) : list reader_out * bytes :=
  match os with
  | [] => ([], q)
  | o :: os => let '(x, q) := stream_step q o in let '(xs, q) := stream_run q os in (x :: xs, q)
  end.

Definition reader_op_ok (o : reader_op) : Prop :=
  match o with RRead n => 0 < n | RRefill g _ => pool_ring g | _ => True end.
Definition refilled (os : list reader_op) : Z :=
  foldr (fun o n => match o with RRefill _ d => len d | _ => 0 end + n) 0 os.

Lemma refilled_nonneg os : 0 <= refilled os.
Proof. induction os as [|o os IH]; simpl; [done|]. destruct o; try lia. pose proof (len_nonneg data). lia. Qed.

Lemma reader_step_refines c o :
  reader_ok c -> reader_op_ok o -> len (unread c) <= 2 ^ 57 ->
  exists c', reader_step c o = Ok ((stream_step (unread c) o).1, c') /\ reader_ok c' /\
    unread c' = (stream_step (unread c) o).2.
Proof.
  intros Hr Ho Hb. destruct o as [n|n|n|n|g data]; simpl in *.
  - rewrite conn_Peek_spec by done. exists c. by destruct (len (unread c) <? n).
  - destruct (conn_Next_spec c n Hr) as (c' & -> & ? & Hu). exists c'. by destruct (len (unread c) <? n).
  - destruct (conn_Read_spec c (make_bytes n) Hr) as (c' & -> & ? & Hu); rewrite len_make_bytes in * by lia; [done|].
    by exists c'.
  - destruct (conn_Discard_spec c n Hr) as (c' & -> & ? & Hu). exists c'. by destruct (_ || _).
  - destruct (refill_spec g c data Hr Ho Hb) as (c' & -> & ? & Hu). by exists c'.
Qed.

Lemma stream_step_len q o :
  len (stream_step q o).2 <= len q + match o with RRefill _ d => len d | _ => 0 end.
Proof.
  destruct o; simpl; try case_if; simpl; rewrite ?len_app; try (unfold len; rewrite ?length_drop; simpl; lia).
Qed.

(** C18: reading from a connection is reading one byte stream: for any sequence
    of [Peek], [Next], [Read], [Discard] calls and arrivals of new data, the
    inbound ring and the loop's buffer together return exactly the received
    bytes in order, never twice and never skipping one, wherever the boundary
    between the two lies and whatever rings the pool hands out. *)
Theorem reader_refines_stream c os
    (Hr : reader_ok c) (Hos : Forall reader_op_ok os) (Hb : len (unread c) + refilled os <= 2 ^ 57) :
  exists c', reader_run c os = Ok ((stream_run (unread c) os).1, c') /\
    unread c' = (stream_run (unread c) os).2.
Proof.
  revert c Hr Hb. induction Hos as [|o os Ho Hos IH]; intros c Hr Hb; simpl in *; [by exists c|].
  pose proof (refilled_nonneg os). pose proof (stream_step_len (unread c) o) as Hl.
  assert (0 <= match o with RRefill _ d => len d | _ => 0 end) by (destruct o; auto with rc; lia).
  destruct (reader_step_refines c o) as (c1 & -> & Hr1 & Hu1); [done|done|lia|]. rewrite res_bind_Ok.
  destruct (stream_step (unread c) o) as [x q1]. simpl in *. subst q1.
  destruct (IH c1 Hr1) as (c2 & -> & Hu2); [lia|]. exists c2.
  destruct (stream_run (unread c1) os). done.
Qed.
End reader.

Definition sample_conn : conn := newTCPConn 7 None (Some (str "10.0.0.9:51000")) ConnClient Initialized false 65536.
Definition reader_ops : list reader_op :=
  [RRefill tiny_ring (str "*1_$4_ping_*2"); RDiscard 11; RRefill tiny_ring (str "_$3"); RPeek 4; RPeek 0;
   RNext 3; RRead 5; RPeek 1].

Lemma reader_refines_stream_witness :
  exists c', @reader_run empty_pool sample_conn reader_ops = Ok ((stream_run (unread sample_conn) reader_ops).1, c') /\
    unread c' = (stream_run (unread sample_conn) reader_ops).2.
Proof.
  apply (@reader_refines_stream empty_pool sample_conn reader_ops).
  - exact I.
  - repeat constructor; apply pool_tiny.
  - vm_compute. discriminate.
Defined.

(** The peeks of the sample cross from the ring into the new bytes. *)
Example reader_sample :
  (fun x => x.1) <$> @reader_run empty_pool sample_conn reader_ops =
  Ok [ROutUnit; ROutCount 11; ROutUnit; ROutBytes (str "*2_$") None; ROutBytes (str "*2_$3") None;
      ROutBytes (str "*2_") None; ROutRead (str "$3" ++ [0; 0; 0]) 2 None;
      ROutBytes [] (Some (EIo ErrShortBuffer))].
Proof. vm_compute. reflexivity. Qed.

(** ** The handler of connection events

    The callbacks of [EventHandler] that opening and closing a connection run;
    [Server] provides them. *)
Class ConnHandler `{Env} (T : Type) `{LLRB T} `{HashMap ClusterNode} := {
  OnCOpened : World T -> cid -> res (option bytes * Action * World T);
  OnSOpened : World T -> cid -> res (option bytes * Action * World T);
  OnCClosed : World T -> cid -> option error -> res (World T);
  OnSClosed : World T -> cid -> option error -> res (World T);
}.

(** ** Queues *)
Section queues.
Context `{Env} {T : Type} `{LLRB T} `{HashMap ClusterNode} (opts : Options).
Implicit Types w : World T.

(** A queue pointer that is used must not be nil. *)
Definition the_queue (q : option Queue) : res Queue :=
  match q with Some q => Ok q | None => Panic end.

Definition EnqueueInMsg w (c : cid) (m : mid) : res (World T) :=
  x ← get_conn w c;
  q ← the_queue (c_inMsgQueue x);
  '(q, h) ← PushTail q (msgs (w_store w)) m;
  let w := with_store w (with_msgs (w_store w) h) in
  Ok (put_conn w c (set_queues x (Some q) (c_inFragQueue x) (c_outFragQueue x))).

Definition enqueueInFrag w (c : cid) (f : fid) : res (World T) :=
  x ← get_conn w c;
  q ← the_queue (c_inFragQueue x);
  '(q, h) ← PushTail q (frags (w_store w)) f;
  let w := with_store w (with_frags (w_store w) h) in
  let w := put_conn w c (set_queues x (c_inMsgQueue x) (Some q) (c_outFragQueue x)) in
  let '(t, w) := now w in
  '(s, tree) ← pushToTimeoutQueue (w_store w) (w_timeouts w) f (RedisRequestTimeout opts) t;
  Ok (with_timeouts (with_store w s) tree).

Definition sendWriteSignal w (c : cid) : option error * World T := Trigger w (TWriteSignal c).

Definition EnqueueOutFrag w (c : cid) (f : fid) : res (World T) :=
  x ← get_conn w c;
  q ← the_queue (c_outFragQueue x);
  '(q, h) ← PushTail q (frags (w_store w)) f;
  let w := with_store w (with_frags (w_store w) h) in
  let w := put_conn w c (set_queues x (c_inMsgQueue x) (c_inFragQueue x) (Some q)) in
  let '(_, w) := sendWriteSignal w c in
  Ok w.

Definition DequeueInFrag w (c : cid) : res (option fid * World T) :=
  x ← get_conn w c;
  q ← the_queue (c_inFragQueue x);
  match q_head q with
  | None => Ok (None, w)
  | Some f =>
      '(q, h) ← PopHead q (frags (w_store w));
      let w := with_store w (with_frags (w_store w) h) in
      let w := put_conn w c (set_queues x (c_inMsgQueue x) (Some q) (c_outFragQueue x)) in
      t ← deleteFromTimeoutQueue (w_store w) (w_timeouts w) f;
      Ok (Some f, with_timeouts w t)
  end.

Definition dequeueOutFrag w (c : cid) : res (World T) :=
  x ← get_conn w c;
  q ← the_queue (c_outFragQueue x);
  '(q, h) ← PopHead q (frags (w_store w));
  let w := with_store w (with_frags (w_store w) h) in
  Ok (put_conn w c (set_queues x (c_inMsgQueue x) (c_inFragQueue x) (Some q))).

Definition dequeueInMsg w (c : cid) : res (option mid * World T) :=
  x ← get_conn w c;
  q ← the_queue (c_inMsgQueue x);
  if Queue_Empty q then Ok (None, w)
  else
    let head := q_head q in
    '(q, h) ← PopHead q (msgs (w_store w));
    let w := with_store w (with_msgs (w_store w) h) in
    Ok (head, put_conn w c (set_queues x (Some q) (c_inFragQueue x) (c_outFragQueue x))).

(** [writeClusterNodes]: a fragment without owner that asks for the topology. *)
Definition ReqClusterNodes : bytes :=
  str "*2" ++ crlf ++ str "$7" ++ crlf ++ str "cluster" ++ crlf ++ str "$5" ++ crlf ++ str "nodes" ++ crlf.

Definition set_req (f : Frag) (req : bytes) : Frag :=
  mkFrag (f_prev f) (f_next f) (f_Owner f) (f_Peer f) (f_Id f) (f_Time f) (f_Timeout f) (f_Key f)
    (f_Error f) req (f_RspBody f) (f_Rsp f) (f_Type f) (f_Ok f) (f_Done f).

Definition writeClusterNodes w (c : cid) : res (World T) :=
  x ← get_conn w c;
  if negb (c_opened x) then Ok w
  else
    let '(t, w) := now w in
    let '(f, s) := fragPool_Get (w_store w) t in
    y ← get_frag s f;
    EnqueueOutFrag (with_store w (put_frag s f (set_req y (f_Req y ++ ReqClusterNodes)))) c f.

(** The requests queued with [Trigger]. *)
Definition WriteClusterNodes w (c : cid) : option error * World T := Trigger w (TClusterNodes c).
Definition AsyncWrite w (c : cid) (b : bytes) : option error * World T := Trigger w (TAsyncWrite c b).
Definition AsyncWritev w (c : cid) (bs : list bytes) : option error * World T := Trigger w (TAsyncWritev c bs).
Definition Close w (c : cid) : option error * World T := Trigger w (TClose c).
End queues.

(** ** Writing *)
Section writer.
Context `{BytePool} `{Env} {T : Type} `{LLRB T} `{HashMap ClusterNode} `{!ConnHandler T} (opts : Options).
Implicit Types w : World T.

(** [c.outboundBuffer.Write] and [Writev]; the pool's ring is used when the
    buffer has none. *)
Definition out_Write w (c : cid) (p : bytes) : res (World T) :=
  x ← get_conn w c;
  let '(e, g) := ring_Get (w_env w) in
  '(_, b) ← Elastic.Write g (c_outboundBuffer x) p;
  Ok (put_conn (with_env w e) c (set_outbound x b)).
Definition out_Writev w (c : cid) (bs : list bytes) : res (World T) :=
  x ← get_conn w c;
  let '(e, g) := ring_Get (w_env w) in
  '(_, b) ← Elastic.Writev g (c_outboundBuffer x) bs;
  Ok (put_conn (with_env w e) c (set_outbound x b)).

Definition iovMax : Z := 1024.

(** [io.Writev] of [core/internal/io]. *)
Definition io_Writev w (fd : Z) (bs : list bytes) : Z * option Z * World T :=
  if len bs =? 0 then (0, None, w)
  else let '(e, (n, err)) := sys_writev (w_env w) fd bs in (n, err, with_env w e).

(** The loop of [closeConn] that sends what is still buffered. *)
Fixpoint flush_residual (fuel : nat) w (c : cid) : res (World T) :=
  match fuel with
  | O => OutOfFuel
  | S fuel =>
      x ← get_conn w c;
      if Elastic.IsEmpty (c_outboundBuffer x) then Ok w
      else
        iov ← Elastic.Peek (c_outboundBuffer x) 0;
        let iov := if iovMax <? len iov then take (Z.to_nat iovMax) iov else iov in
        let '(n, err, w) := io_Writev w (c_fd x) iov in
        match err with
        | Some _ => Ok w
        | None =>
            '(_, _, b) ← Elastic.Discard (c_outboundBuffer x) n;
            flush_residual fuel (put_conn w c (set_outbound x b)) c
        end
  end.

(** [closeConn].  Of the error only its presence matters to the callers, so its
    text is shortened; the statistics are left out. *)
Definition closeConn w (c : cid) (err : option error) (closeType : ConnCloseType)
    : res (option error * World T) :=
  x ← get_conn w c;
  if negb (c_opened x) then Ok (None, w)
  else
    w ← flush_residual (S (length (Elastic.contents (c_outboundBuffer x)))) w c;
    let '(e, err0) := epoll_ctl (w_env w) Delete (c_fd x) in
    let '(e, err1) := sys_close e (c_fd x) in
    let rerr := match err0, err1 with
                | None, None => None
                | Some _, _ => Some (EText (str "failed to delete fd from poller"))
                | None, Some _ => Some (EText (str "failed to close fd"))
                end in
    let w := with_env w e in
    let w := with_connections w (delete (c_fd x) (w_connections w)) (w_cConnCount w) (w_sConnCount w) in
    w ← match c_connType x with
        | ConnClient =>
            w ← OnCClosed w c err;
            Ok (with_connections w (w_connections w) (wrap32 (w_cConnCount w - 1)) (w_sConnCount w))
        | ConnServer =>
            w ← OnSClosed w c err;
            Ok (with_connections w (w_connections w) (w_cConnCount w) (wrap32 (w_sConnCount w - 1)))
        | ConnNone => Ok w
        end;
    x ← get_conn w c;
    x ← releaseTCP x;
    Ok (rerr, put_conn w c x).

(** [conn.open]. *)
Definition conn_open w (c : cid) (buf : bytes) : res (option error * World T) :=
  x ← get_conn w c;
  let '(e, (n, err)) := sys_write (w_env w) (c_fd x) buf in
  let w := with_env w e in
  match err with
  | Some errno =>
      if errno =? EAGAIN then w ← out_Write w c buf; Ok (None, w)
      else Ok (Some (ESys errno), w)
  | None =>
      if n <? len buf then
        rest ← slice buf n (len buf);
        w ← out_Write w c rest; Ok (None, w)
      else Ok (None, w)
  end.

Definition write w (c : cid) (data : bytes) : res (Z * option error * World T) :=
  x ← get_conn w c;
  let n := len data in
  if negb (Elastic.IsEmpty (c_outboundBuffer x)) then w ← out_Write w c data; Ok (n, None, w)
  else
    let '(e, (sent, err)) := sys_write (w_env w) (c_fd x) data in
    let w := with_env w e in
    match err with
    | Some errno =>
        if errno =? EAGAIN then
          w ← out_Write w c data;
          '(err, w) ← do_epoll w ModReadWrite x;
          Ok (n, err, w)
        else '(rerr, w) ← closeConn w c (Some (ESys errno)) ConnErr; Ok (-1, rerr, w)
    | None =>
        if sent <? n then
          rest ← slice data sent n;
          w ← out_Write w c rest;
          '(err, w) ← do_epoll w ModReadWrite x;
          Ok (n, err, w)
        else Ok (n, None, w)
    end.

(** The loop of [writev] that finds the first slice not sent in full: the
    unsent slices from there on, [None] when every slice was sent. *)
Fixpoint unsent (bs : list bytes) (sent : Z) : option (list bytes) :=
  match bs with
  | [] => None
  | b :: bs => if sent <? len b then Some (subl b sent (len b) :: bs) else unsent bs (sent - len b)
  end.

Definition writev w (c : cid) (bs : list bytes) : res (Z * option error * World T) :=
  x ← get_conn w c;
  let n := fold_left (fun n b => n + len b) bs 0 in
  if negb (Elastic.IsEmpty (c_outboundBuffer x)) then w ← out_Writev w c bs; Ok (n, None, w)
  else
    let '(sent, err, w) := io_Writev w (c_fd x) bs in
    match err with
    | Some errno =>
        if errno =? EAGAIN then
          w ← out_Writev w c bs;
          '(err, w) ← do_epoll w ModReadWrite x;
          Ok (n, err, w)
        else '(rerr, w) ← closeConn w c (Some (ESys errno)) ConnErr; Ok (-1, rerr, w)
    | None =>
        if sent <? n then
          w ← out_Writev w c (default bs (unsent bs sent));
          '(err, w) ← do_epoll w ModReadWrite x;
          Ok (n, err, w)
        else Ok (n, None, w)
    end.

(** The array of slices after [writev]: it cuts the slice that was sent in part in
    place, [bs[i] = bs[i][sent:]], and its caller holds the same array. *)
Fixpoint cut_slices (bs : list bytes) (sent : Z) : list bytes :=
  match bs with
  | [] => []
  | b :: bs => if sent <? len b then subl b sent (len b) :: bs else b :: cut_slices bs (sent - len b)
  end.
Definition writev_slices w (c : cid) (bs : list bytes) : res (list bytes) :=
  x ← get_conn w c;
  let n := fold_left (fun n b => n + len b) bs 0 in
  if negb (Elastic.IsEmpty (c_outboundBuffer x)) then Ok bs
  else
    let '(sent, err, _) := io_Writev w (c_fd x) bs in
    match err with
    | Some _ => Ok bs
    | None => if sent <? n then Ok (cut_slices bs sent) else Ok bs
    end.

(** [Write] and [Writev] of the interface. *)
Definition conn_Write w (c : cid) (p : bytes) : res (Z * option error * World T) := write w c p.
Definition conn_Writev w (c : cid) (bs : list bytes) : res (Z * option error * World T) := writev w c bs.

(** [eventloop.write]: send buffered bytes when the socket is writable. *)
Definition el_write w (c : cid) : res (option error * World T) :=
  x ← get_conn w c;
  iov ← Elastic.Peek (c_outboundBuffer x) (-1);
  '(n, err, w) ←
    (if 1 <? len iov then
       let iov := if iovMax <? len iov then take (Z.to_nat iovMax) iov else iov in
       Ok (io_Writev w (c_fd x) iov)
     else
       b ← index iov 0;
       let '(e, (n, err)) := sys_write (w_env w) (c_fd x) b in
       Ok (n, err, with_env w e));
  '(_, _, b) ← Elastic.Discard (c_outboundBuffer x) n;
  let w := put_conn w c (set_outbound x b) in
  match err with
  | Some errno =>
      if errno =? EAGAIN then Ok (None, w)
      else closeConn w c (Some (ESys errno)) ConnErr
  | None =>
      if Elastic.IsEmpty b then '(_, w) ← do_epoll w ModRead (set_outbound x b); Ok (None, w)
      else Ok (None, w)
  end.

(** [Flush]. *)
Definition Flush w (c : cid) : res (option error * World T) :=
  x ← get_conn w c;
  if Elastic.IsEmpty (c_outboundBuffer x) then Ok (None, w) else el_write w c.

(** The tasks of asynchronous writes. *)
Definition asyncWrite w (c : cid) (data : bytes) : res (option error * World T) :=
  x ← get_conn w c;
  if negb (c_opened x) then Ok (None, w) else '(_, err, w) ← write w c data; Ok (err, w).
Definition asyncWritev w (c : cid) (data : list bytes) : res (option error * World T) :=
  x ← get_conn w c;
  if negb (c_opened x) then Ok (None, w) else '(_, err, w) ← writev w c data; Ok (err, w).

(** *** The stream a connection sends *)

(** The promises of a handler that the writers rely on: its invariant [winv]
    does not look at the outbound buffers and the environment, and a closing
    callback returns with the outbound buffer of the connection and everything
    sent so far as they were. *)
Class ConnHandlerLaws := {
  winv : World T -> Prop;
  winv_out : forall w c x e b, winv w -> w_conns w !! c = Some x ->
    winv (with_conns_heap (with_env w e) (<[c := set_outbound x b]> (w_conns w)));
  winv_connections : forall w m cc sc, winv w -> winv (with_connections w m cc sc);
  closed_ok : forall w c x err, winv w -> w_conns w !! c = Some x ->
    (c_connType x = ConnClient \/ c_connType x = ConnServer) ->
    exists w', match c_connType x with ConnClient => OnCClosed w c err | _ => OnSClosed w c err end = Ok w' /\
      (forall k, wire (w_env w') k = wire (w_env w) k) /\
      exists x', w_conns w' !! c = Some x' /\ c_outboundBuffer x' = c_outboundBuffer x /\ c_fd x' = c_fd x;
}.
Context `{!ConnHandlerLaws}.

(** [w'] is [w] with another environment and outbound buffer of [c]. *)
Definition out_only w (c : cid) (x : conn) w' (b : Elastic.Buffer) : Prop :=
  w' = with_conns_heap (with_env w (w_env w')) (<[c := set_outbound x b]> (w_conns w)).

Lemma out_only_at w c x w' b : out_only w c x w' b -> w_conns w' !! c = Some (set_outbound x b).
Proof. intros ->. simpl. apply lookup_insert_eq. Qed.

Lemma out_only_trans w c x w1 b1 w2 b2 :
  out_only w c x w1 b1 -> out_only w1 c (set_outbound x b1) w2 b2 -> out_only w c x w2 b2.
Proof.
  unfold out_only. intros Ho1 Ho2. rewrite Ho2. cbn [w_env with_conns_heap with_env]. rewrite Ho1. simpl.
  by rewrite insert_insert_eq.
Qed.

Lemma out_only_refl w c x e :
  w_conns w !! c = Some x -> out_only w c x (with_env w e) (c_outboundBuffer x).
Proof.
  intros Hx. unfold out_only. destruct w, x; simpl in *. unfold with_conns_heap, with_env, set_outbound. simpl.
  by rewrite insert_id.
Qed.

Lemma out_only_winv w c x w' b : winv w -> w_conns w !! c = Some x -> out_only w c x w' b -> winv w'.
Proof. intros Hw Hx ->. by apply winv_out. Qed.

(** An open connection with its registration and a sound outbound buffer. *)
Record writable w (c : cid) (x : conn) : Prop := {
  wr_at : w_conns w !! c = Some x;
  wr_open : c_opened x = true;
  wr_attached : c_attached x = true;
  wr_type : c_connType x = ConnClient \/ c_connType x = ConnServer;
  wr_solid : Elastic.solid (c_outboundBuffer x);
}.

Lemma writable_out w c x w' b :
  writable w c x -> out_only w c x w' b -> Elastic.solid b -> writable w' c (set_outbound x b).
Proof. intros [? ? ? ? ?] Ho Hb. split; [by eapply out_only_at|done..]. Qed.

Lemma out_Write_spec w c x p :
  w_conns w !! c = Some x -> Elastic.solid (c_outboundBuffer x) ->
  len (Elastic.contents (c_outboundBuffer x)) + len p <= 2 ^ 57 ->
  exists w' b, out_Write w c p = Ok w' /\ out_only w c x w' b /\ Elastic.solid b /\
    Elastic.contents b = Elastic.contents (c_outboundBuffer x) ++ p /\
    (forall k, wire (w_env w') k = wire (w_env w) k).
Proof.
  intros Hx [Hw Hs] Hl. unfold out_Write. rewrite (get_conn_Ok _ _ _ Hx), res_bind_Ok.
  pose proof (ring_Get_ok (w_env w)) as Hg. pose proof (ring_Get_wire (w_env w)) as Hwire.
  destruct (ring_Get (w_env w)) as [e g]. simpl in *.
  destruct (Elastic.elastic_Write_spec g (c_outboundBuffer x) p Hg Hw Hl) as (b & Hb & Hwb & Hc).
  rewrite Hb, res_bind_Ok. eexists _, b. split; [done|]. split; [done|].
  split; [split; [done|by eapply Elastic.Write_solid]|]. split; done.
Qed.

Lemma out_Writev_spec w c x bs :
  w_conns w !! c = Some x -> Elastic.solid (c_outboundBuffer x) ->
  len (Elastic.contents (c_outboundBuffer x)) + len (concat bs) <= 2 ^ 57 ->
  exists w' b, out_Writev w c bs = Ok w' /\ out_only w c x w' b /\ Elastic.solid b /\
    Elastic.contents b = Elastic.contents (c_outboundBuffer x) ++ concat bs /\
    (forall k, wire (w_env w') k = wire (w_env w) k).
Proof.
  intros Hx [Hw Hs] Hl. unfold out_Writev. rewrite (get_conn_Ok _ _ _ Hx), res_bind_Ok.
  pose proof (ring_Get_ok (w_env w)) as Hg. pose proof (ring_Get_wire (w_env w)) as Hwire.
  destruct (ring_Get (w_env w)) as [e g]. simpl in *.
  destruct (Elastic.Writev_spec g (c_outboundBuffer x) bs Hg Hw Hl) as (b & Hb & Hwb & Hc).
  rewrite Hb, res_bind_Ok. eexists _, b. split; [done|]. split; [done|].
  split; [split; [done|by eapply Elastic.Writev_solid]|]. split; done.
Qed.

Lemma do_epoll_spec w o c x b :
  w_conns w !! c = Some (set_outbound x b) -> c_attached x = true ->
  exists err w', do_epoll w o x = Ok (err, w') /\ out_only w c (set_outbound x b) w' b /\
    (forall k, wire (w_env w') k = wire (w_env w) k).
Proof.
  intros Hx Ha. unfold do_epoll. rewrite Ha. pose proof (epoll_ctl_wire (w_env w) o (c_fd x)) as Hwire.
  destruct (epoll_ctl (w_env w) o (c_fd x)) as [e r]. eexists _, _. split; [done|]. split; [|done].
  by apply (out_only_refl w c (set_outbound x b) e).
Qed.

(** What was sent on the connection, followed by what is still buffered. *)
Definition outgoing w (x : conn) : bytes := wire (w_env w) (c_fd x) ++ Elastic.contents (c_outboundBuffer x).

(** One vectored write of a prefix [d] of the buffered bytes. *)
Lemma io_Writev_spec w fd bs n err w' :
  io_Writev w fd bs = (n, err, w') ->
  w' = with_env w (w_env w') /\
  match err with None => 0 <= n <= len (concat bs) | Some _ => n = -1 end /\
  (err = None -> concat bs <> [] -> 0 < n) /\
  forall k, wire (w_env w') k = if k =? fd then wire (w_env w) fd ++ take (Z.to_nat n) (concat bs) else wire (w_env w) k.
Proof.
  unfold io_Writev. destruct bs as [|b bs].
  - simpl. intros [= <- <- <-]. split; [by destruct w|]. split; [done|]. split; [done|].
    intros k. rewrite app_nil_r. case_if; [|done]. by replace k with fd by lia.
  - replace (len (b :: bs) =? 0) with false by (rewrite len_cons; pose proof (len_nonneg bs); lia).
    destruct (sys_writev (w_env w) fd (b :: bs)) as [e [n' err']] eqn:E. intros [= <- <- <-].
    split; [by destruct w|]. pose proof (sys_writev_spec _ _ _ _ _ _ E) as [Hn Hwire].
    split; [by destruct err'|]. split; [|done]. intros -> Hne. by eapply sys_writev_progress.
Qed.

Lemma out_only_id w c x : w_conns w !! c = Some x -> out_only w c x w (c_outboundBuffer x).
Proof. intros Hx. pose proof (out_only_refl w c x (w_env w) Hx) as Ho. by destruct w. Qed.

Lemma prefix_take (p l : bytes) n : p `prefix_of` l -> n <= len p -> take (Z.to_nat n) p = take (Z.to_nat n) l.
Proof. intros [k ->] Hn. by rewrite take_app_le by (unfold len in *; lia). Qed.

(** Sending [n] bytes of a prefix of the buffer and discarding them moves them
    from the buffer to the wire. *)
Lemma sent_moves (a p l l' : bytes) n :
  p `prefix_of` l -> n <= len p -> l' = drop (Z.to_nat n) l ->
  (a ++ take (Z.to_nat n) p) ++ l' = a ++ l.
Proof. intros Hp Hn ->. by rewrite (prefix_take _ _ _ Hp Hn), <- app_assoc, take_drop. Qed.

Lemma flush_residual_spec fuel w c x :
  w_conns w !! c = Some x -> Elastic.solid (c_outboundBuffer x) ->
  (length (Elastic.contents (c_outboundBuffer x)) < fuel)%nat ->
  exists w' b, flush_residual fuel w c = Ok w' /\ out_only w c x w' b /\ Elastic.solid b /\
    outgoing w' (set_outbound x b) = outgoing w x.
Proof.
  revert w x. induction fuel as [|fuel IH]; intros w x Hx Hs Hf; [lia|]. cbn [flush_residual].
  rewrite (get_conn_Ok _ _ _ Hx), res_bind_Ok. destruct (Elastic.IsEmpty (c_outboundBuffer x)) eqn:Ee.
  { exists w, (c_outboundBuffer x). split; [done|]. split; [by apply out_only_id|]. by destruct x. }
  pose proof (Elastic.solid_nonempty _ Hs Ee) as Hne.
  destruct (Elastic.Peek_iov (c_outboundBuffer x) (Z.to_nat iovMax)) as (iov & -> & _ & Hpre & Hcne);
    [done|done|unfold iovMax; lia|]. rewrite res_bind_Ok.
  assert ((if iovMax <? len iov then take (Z.to_nat iovMax) iov else iov) = take (Z.to_nat iovMax) iov) as ->.
  { case_if; [done|]. by rewrite take_ge by (unfold len in *; lia). }
  set (p := take (Z.to_nat iovMax) iov) in *.
  destruct (io_Writev w (c_fd x) p) as [[n err] w1] eqn:Ew.
  destruct (io_Writev_spec _ _ _ _ _ _ Ew) as (Hw1 & Hn & Hpos & Hwire).
  assert (out_only w c x w1 (c_outboundBuffer x)) as Ho1 by (rewrite Hw1; by apply out_only_refl).
  destruct err as [errno|].
  { exists w1, (c_outboundBuffer x). split; [done|]. split; [done|]. split; [done|].
    unfold outgoing. simpl. rewrite Hwire, Z.eqb_refl. subst n. simpl. by rewrite app_nil_r. }
  specialize (Hpos eq_refl Hcne).
  destruct (Elastic.elastic_Discard_spec (c_outboundBuffer x) n (proj1 Hs) Hpos) as (b & Hb & Hwb & Hc).
  rewrite Hb, res_bind_Ok.
  assert (Elastic.solid b) as Hsb by (split; [done|eapply Elastic.Discard_solid; [apply Hs|done]]).
  assert (out_only w c x (put_conn w1 c (set_outbound x b)) b) as Ho2.
  { rewrite Hw1. done. }
  destruct (IH (put_conn w1 c (set_outbound x b)) (set_outbound x b)) as (w2 & b2 & -> & Ho3 & Hsb2 & Hout).
  - by eapply out_only_at.
  - done.
  - simpl. rewrite Hc, length_drop. assert (0 < length (Elastic.contents (c_outboundBuffer x)))%nat; [|lia].
    destruct (Elastic.contents (c_outboundBuffer x)); [done|simpl; lia].
  - exists w2, b2. split; [done|]. split; [by eapply out_only_trans|]. split; [done|].
    change (set_outbound (set_outbound x b) b2) with (set_outbound x b2) in Hout. rewrite Hout.
    unfold outgoing. cbn [c_fd c_outboundBuffer set_outbound put_conn with_conns_heap w_env].
    rewrite Hwire, Z.eqb_refl. apply (sent_moves _ (concat p)); [done|lia|done].
Qed.

(** The connection is closed, and what it ever sent is a prefix of [s]. *)
Definition closed_after w (c : cid) (fd : Z) (s : bytes) : Prop :=
  exists x, w_conns w !! c = Some x /\ c_opened x = false /\ wire (w_env w) fd `prefix_of` s.

Lemma closeConn_spec w c x err t :
  writable w c x -> winv w ->
  exists rerr w', closeConn w c err t = Ok (rerr, w') /\ closed_after w' c (c_fd x) (outgoing w x).
Proof.
  intros [Hx Hopen Hatt Ht Hs] Hinv. unfold closeConn. rewrite (get_conn_Ok _ _ _ Hx), res_bind_Ok, Hopen.
  cbn [negb]. destruct (flush_residual_spec (S (length (Elastic.contents (c_outboundBuffer x)))) w c x)
    as (w1 & b & -> & Ho & Hsb & Hout); [done|done|lia|]. rewrite res_bind_Ok.
  pose proof (epoll_ctl_wire (w_env w1) Delete (c_fd x)) as Hwe.
  destruct (epoll_ctl (w_env w1) Delete (c_fd x)) as [e1 r1]. simpl in Hwe.
  pose proof (sys_close_wire e1 (c_fd x)) as Hwc. destruct (sys_close e1 (c_fd x)) as [e2 r2]. simpl in Hwc.
  set (w2 := with_connections _ _ _ _).
  assert (w_conns w2 !! c = Some (set_outbound x b)) as Hx2 by (by eapply out_only_at in Ho).
  assert (winv w2) as Hinv2.
  { apply winv_connections. apply out_only_at in Ho as Hx1.
    eapply (out_only_winv w1 c (set_outbound x b)); [|exact Hx1|by apply out_only_refl].
    by eapply (out_only_winv w c x). }
  assert (exists w3 x3, (match c_connType x with
      | ConnClient => w3 ← OnCClosed w2 c err;
          Ok (with_connections w3 (w_connections w3) (wrap32 (w_cConnCount w3 - 1)) (w_sConnCount w3))
      | ConnServer => w3 ← OnSClosed w2 c err;
          Ok (with_connections w3 (w_connections w3) (w_cConnCount w3) (wrap32 (w_sConnCount w3 - 1)))
      | ConnNone => Ok w2 end) = Ok w3 /\ (forall k, wire (w_env w3) k = wire (w_env w2) k) /\
    w_conns w3 !! c = Some x3 /\ c_outboundBuffer x3 = b) as (w3 & x3 & -> & Hw3 & Hx3 & Hb3).
  { destruct (closed_ok w2 c (set_outbound x b) err Hinv2 Hx2 Ht) as (w3 & Hcl & Hw3 & x3 & Hx3 & Hb3 & _).
    cbn [c_connType set_outbound] in Hcl. exists (match c_connType x with
      | ConnClient => with_connections w3 (w_connections w3) (wrap32 (w_cConnCount w3 - 1)) (w_sConnCount w3)
      | _ => with_connections w3 (w_connections w3) (w_cConnCount w3) (wrap32 (w_sConnCount w3 - 1)) end), x3.
    destruct Ht as [Ht|Ht]; rewrite Ht in *; rewrite Hcl; done. }
  rewrite res_bind_Ok, (get_conn_Ok _ _ _ Hx3), res_bind_Ok. unfold releaseTCP. rewrite Hb3.
  destruct (Elastic.Release_spec b (proj1 Hsb)) as (b' & -> & _). rewrite !res_bind_Ok.
  eexists _, _. split; [done|]. eexists. split; [simpl; apply lookup_insert_eq|]. split; [done|].
  cbn [w_env put_conn with_conns_heap]. rewrite Hw3. subst w2. cbn [w_env with_connections with_env].
  rewrite Hwc, Hwe, <- Hout. unfold outgoing. simpl. apply prefix_app_r. done.
Qed.

(** After an operation that was given [data]: still open and the bytes are behind
    all earlier ones, or closed and what was sent is a prefix of them. *)
Definition sends w (c : cid) (x : conn) (data : bytes) w' : Prop :=
  (exists x', writable w' c x' /\ winv w' /\ c_fd x' = c_fd x /\ outgoing w' x' = outgoing w x ++ data) \/
  closed_after w' c (c_fd x) (outgoing w x ++ data).

(** An operation that ends with the connection open. *)
Lemma sends_open w c x w' b data :
  writable w c x -> winv w -> out_only w c x w' b -> Elastic.solid b ->
  wire (w_env w') (c_fd x) ++ Elastic.contents b = outgoing w x ++ data -> sends w c x data w'.
Proof.
  intros Hwr Hinv Ho Hb Hout. left. exists (set_outbound x b). split_and!.
  - by eapply writable_out.
  - eapply out_only_winv; [done|apply Hwr|done].
  - done.
  - done.
Qed.

(** A buffering operation that appends [d]. *)
Definition appends w (c : cid) (x : conn) (wr : World T -> res (World T)) (d : bytes) : Prop :=
  exists w' b, wr w = Ok w' /\ out_only w c x w' b /\ Elastic.solid b /\
    Elastic.contents b = Elastic.contents (c_outboundBuffer x) ++ d /\
    (forall k, wire (w_env w') k = wire (w_env w) k).

(** Buffer [d] and register for writability. *)
Lemma buffered_sends w c x w1 data d n (wr : World T -> res (World T)) :
  writable w c x -> winv w -> out_only w c x w1 (c_outboundBuffer x) ->
  wire (w_env w1) (c_fd x) ++ d = wire (w_env w) (c_fd x) ++ data -> Elastic.contents (c_outboundBuffer x) = [] ->
  appends w1 c x wr d ->
  exists err w', (w' ← wr w1; '(err, w') ← do_epoll w' ModReadWrite x; Ok (n, err, w')) = Ok (n : Z, err, w') /\
    sends w c x data w'.
Proof.
  intros Hwr Hinv Ho1 Hd Hempty (w2 & b & -> & Ho2 & Hsb & Hcb & Hw2). rewrite res_bind_Ok.
  assert (out_only w c x w2 b) as Ho.
  { eapply out_only_trans; [exact Ho1|]. by destruct x. }
  destruct (do_epoll_spec w2 ModReadWrite c x b) as (err & w3 & -> & Ho3 & Hw3);
    [by eapply out_only_at|apply Hwr|]. rewrite res_bind_Ok. exists err, w3. split; [done|].
  eapply sends_open; [done|done|by eapply out_only_trans|done|].
  rewrite Hw3, Hw2, Hcb, Hempty, app_nil_l, Hd. unfold outgoing. by rewrite Hempty, app_nil_r.
Qed.

(** What [write] and [writev] do after a direct attempt that sent [sent] bytes of
    [data] or failed with [err]: [all] buffers everything, [rest] the bytes not
    sent. *)
Lemma attempt_sends w c x w1 data sent err (all rest : World T -> res (World T)) :
  writable w c x -> winv w -> out_only w c x w1 (c_outboundBuffer x) ->
  Elastic.contents (c_outboundBuffer x) = [] ->
  match err with None => 0 <= sent <= len data | Some _ => sent = -1 end ->
  wire (w_env w1) (c_fd x) = wire (w_env w) (c_fd x) ++ take (Z.to_nat sent) data ->
  appends w1 c x all data ->
  (0 <= sent < len data -> appends w1 c x rest (drop (Z.to_nat sent) data)) ->
  exists n err' w', match err with
    | Some errno =>
        if errno =? EAGAIN then
          w' ← all w1; '(err', w') ← do_epoll w' ModReadWrite x; Ok (len data, err', w')
        else '(rerr, w') ← closeConn w1 c (Some (ESys errno)) ConnErr; Ok (-1, rerr, w')
    | None =>
        if sent <? len data then
          w' ← rest w1; '(err', w') ← do_epoll w' ModReadWrite x; Ok (len data, err', w')
        else Ok (len data, None, w1)
    end = Ok (n : Z, err', w') /\ sends w c x data w'.
Proof.
  intros Hwr Hinv Ho1 Hempty Hn Hwire Hall Hrest. destruct err as [errno|].
  - subst sent. rewrite app_nil_r in Hwire. destruct (errno =? EAGAIN).
    + destruct (buffered_sends w c x w1 data data (len data) all) as (err & w' & -> & Hsends);
        [done|done|done|by rewrite Hwire|done|done|]. by eexists _, _, _.
    + assert (writable w1 c x) as Hwr1.
      { replace x with (set_outbound x (c_outboundBuffer x)) by (by destruct x).
        eapply writable_out; [done|done|apply Hwr]. }
      assert (winv w1) as Hinv1 by (eapply out_only_winv; [done|apply Hwr|done]).
      destruct (closeConn_spec w1 c x (Some (ESys errno)) ConnErr Hwr1 Hinv1)
        as (rerr & w2 & -> & x2 & Hx2 & Hcl & Hpre). rewrite res_bind_Ok.
      eexists _, _, _. split; [done|]. right. exists x2. split_and!; [done..|]. etrans; [exact Hpre|].
      unfold outgoing. rewrite Hwire. by apply prefix_app_r.
  - case_if.
    + destruct (buffered_sends w c x w1 data (drop (Z.to_nat sent) data) (len data) rest)
        as (err & w' & -> & Hsends); [done|done|done| |done|apply Hrest; lia|by eexists _, _, _].
      by rewrite Hwire, <- app_assoc, take_drop.
    + eexists _, _, _. split; [done|]. eapply sends_open; [done|done|exact Ho1|apply Hwr|].
      rewrite Hwire. unfold outgoing. rewrite Hempty, !app_nil_r.
      by rewrite take_ge by (unfold len in *; lia).
Qed.

Lemma write_spec w c x data :
  writable w c x -> winv w -> len (Elastic.contents (c_outboundBuffer x)) + len data <= 2 ^ 57 ->
  exists n err w', write w c data = Ok (n, err, w') /\ sends w c x data w'.
Proof.
  intros Hwr Hinv Hl. pose proof Hwr as [Hx Hopen Hatt Ht Hs]. unfold write.
  rewrite (get_conn_Ok _ _ _ Hx), res_bind_Ok.
  destruct (Elastic.IsEmpty (c_outboundBuffer x)) eqn:Ee; cbn [negb].
  2:{ destruct (out_Write_spec w c x data Hx Hs Hl) as (w1 & b & -> & Ho & Hsb & Hcb & Hw1).
      rewrite res_bind_Ok. eexists _, _, _. split; [done|]. eapply sends_open; [done..|].
      rewrite Hw1, Hcb. unfold outgoing. by rewrite app_assoc. }
  destruct (sys_write (w_env w) (c_fd x) data) as [e [sent err]] eqn:Ew.
  destruct (sys_write_spec _ _ _ _ _ _ Ew) as [Hn Hwire].
  specialize (Hwire (c_fd x)). rewrite Z.eqb_refl in Hwire.
  pose proof (out_only_refl w c x e Hx) as Ho1.
  destruct (attempt_sends w c x (with_env w e) data sent err (fun w => out_Write w c data)
    (fun w => rest ← slice data sent (len data); out_Write w c rest)) as (n & err' & w' & HR & Hsends).
  - done.
  - done.
  - done.
  - apply (Elastic.IsEmpty_nil _ (proj1 Hs) Ee).
  - by destruct err.
  - done.
  - by apply out_Write_spec.
  - intros Hsent. unfold appends. rewrite slice_Ok, res_bind_Ok, subl_drop by lia.
    apply out_Write_spec; [done|done|]. unfold len in *. rewrite length_drop. lia.
  - exists n, err', w'. split; [|done]. rewrite <- HR. destruct err as [errno|]; [done|].
    destruct (sent <? len data); [|done]. by destruct (slice data sent (len data)).
Qed.

Lemma fold_len (bs : list bytes) k : fold_left (fun n b => n + len b) bs k = k + len (concat bs).
Proof.
  revert k. induction bs as [|b bs IH]; intros k; simpl; [change (len []) with 0; lia|].
  rewrite IH, len_app. lia.
Qed.

Lemma unsent_spec bs sent :
  0 <= sent < len (concat bs) -> exists l, unsent bs sent = Some l /\ concat l = drop (Z.to_nat sent) (concat bs).
Proof.
  revert sent. induction bs as [|b bs IH]; intros sent Hs; simpl in *; [unfold len in Hs; simpl in Hs; lia|].
  rewrite len_app in Hs. case_if.
  - eexists. split; [done|]. simpl. rewrite subl_drop by lia. by rewrite drop_app_le by (unfold len in *; lia).
  - destruct (IH (sent - len b)) as (l & -> & Hl); [lia|]. exists l. split; [done|].
    by rewrite Hl, drop_unread by lia.
Qed.

Lemma writev_spec w c x bs :
  writable w c x -> winv w -> len (Elastic.contents (c_outboundBuffer x)) + len (concat bs) <= 2 ^ 57 ->
  exists n err w', writev w c bs = Ok (n, err, w') /\ sends w c x (concat bs) w'.
Proof.
  intros Hwr Hinv Hl. pose proof Hwr as [Hx Hopen Hatt Ht Hs]. unfold writev.
  rewrite (get_conn_Ok _ _ _ Hx), res_bind_Ok, fold_len, Z.add_0_l.
  destruct (Elastic.IsEmpty (c_outboundBuffer x)) eqn:Ee; cbn [negb].
  2:{ destruct (out_Writev_spec w c x bs Hx Hs Hl) as (w1 & b & -> & Ho & Hsb & Hcb & Hw1).
      rewrite res_bind_Ok. eexists _, _, _. split; [done|]. eapply sends_open; [done..|].
      rewrite Hw1, Hcb. unfold outgoing. by rewrite app_assoc. }
  destruct (io_Writev w (c_fd x) bs) as [[sent err] w1] eqn:Ew.
  destruct (io_Writev_spec _ _ _ _ _ _ Ew) as (Hw1 & Hn & _ & Hwire).
  specialize (Hwire (c_fd x)). rewrite Z.eqb_refl in Hwire.
  assert (out_only w c x w1 (c_outboundBuffer x)) as Ho1 by (rewrite Hw1; by apply out_only_refl).
  assert (w_conns w1 !! c = Some x) as Hx1 by (by rewrite Hw1).
  apply (attempt_sends w c x w1 (concat bs) sent err (fun w => out_Writev w c bs)
    (fun w => out_Writev w c (default bs (unsent bs sent)))); try done.
  - apply (Elastic.IsEmpty_nil _ (proj1 Hs) Ee).
  - by apply out_Writev_spec.
  - intros Hsent. destruct (unsent_spec bs sent Hsent) as (l & -> & Hd). rewrite <- Hd.
    apply out_Writev_spec; [done|done|]. cbn [default]. rewrite Hd. unfold len in *. rewrite length_drop. lia.
Qed.

(** [Discard] after an attempt that sent [n] bytes, or failed with [n = -1]. *)
Lemma discard_sent b n :
  Elastic.solid b -> -1 <= n <= len (Elastic.contents b) ->
  exists k err b', Elastic.Discard b n = Ok (k, err, b') /\ Elastic.solid b' /\
    Elastic.contents b' = drop (Z.to_nat n) (Elastic.contents b).
Proof.
  intros Hs Hn. destruct (decide (0 < n)) as [Hp|].
  - destruct (Elastic.elastic_Discard_spec b n (proj1 Hs) Hp) as (b' & Hb & Hw & Hc).
    eexists _, _, b'. split; [done|]. split; [split; [done|eapply Elastic.Discard_solid; [apply Hs|done]]|done].
  - destruct (Elastic.Discard_nonpos b n Hs) as (k & err & b' & Hb & Hs' & Hc); [lia|].
    exists k, err, b'. split; [done|]. split; [done|]. rewrite Hc.
    by replace (Z.to_nat n) with 0%nat by lia.
Qed.

(** The write of [el_write]: a prefix [p] of the buffered bytes is offered. *)
Lemma el_attempt w x iov :
  iov <> [] -> exists n err w1,
    (if 1 <? len iov then
       Ok (io_Writev w (c_fd x) (if iovMax <? len iov then take (Z.to_nat iovMax) iov else iov))
     else
       b ← index iov 0;
       let '(e, (n, err)) := sys_write (w_env w) (c_fd x) b in
       Ok (n, err, with_env w e)) = Ok (n, err, w1) /\
    w1 = with_env w (w_env w1) /\
    match err with None => 0 <= n <= len (concat (take (Z.to_nat iovMax) iov)) | Some _ => n = -1 end /\
    wire (w_env w1) (c_fd x) = wire (w_env w) (c_fd x) ++ take (Z.to_nat n) (concat (take (Z.to_nat iovMax) iov)).
Proof.
  intros Hne. case_if.
  - assert ((if iovMax <? len iov then take (Z.to_nat iovMax) iov else iov) = take (Z.to_nat iovMax) iov) as ->.
    { case_if; [done|]. by rewrite take_ge by (unfold len in *; lia). }
    destruct (io_Writev w (c_fd x) (take (Z.to_nat iovMax) iov)) as [[n err] w1] eqn:Ew.
    destruct (io_Writev_spec _ _ _ _ _ _ Ew) as (Hw1 & Hn & _ & Hwire).
    exists n, err, w1. split_and!; [done|done|by destruct err|]. by rewrite Hwire, Z.eqb_refl.
  - destruct iov as [|b [|b' iov]]; [done| |rewrite !len_cons in *; pose proof (len_nonneg iov); lia].
    change (index [b] 0) with (Ok b). rewrite res_bind_Ok.
    destruct (sys_write (w_env w) (c_fd x) b) as [e [n err]] eqn:Ew.
    destruct (sys_write_spec _ _ _ _ _ _ Ew) as [Hn Hwire].
    exists n, err, (with_env w e). rewrite take_ge by (simpl; unfold iovMax; lia). cbn [concat]. rewrite app_nil_r.
    split_and!; [done|by destruct w|by destruct err|]. cbn [w_env with_env]. by rewrite Hwire, Z.eqb_refl.
Qed.

Lemma el_write_spec w c x :
  writable w c x -> winv w -> Elastic.IsEmpty (c_outboundBuffer x) = false ->
  exists err w', el_write w c = Ok (err, w') /\ sends w c x [] w'.
Proof.
  intros Hwr Hinv Ee. pose proof Hwr as [Hx Hopen Hatt Ht Hs]. unfold el_write.
  rewrite (get_conn_Ok _ _ _ Hx), res_bind_Ok. pose proof (Elastic.solid_nonempty _ Hs Ee) as Hne.
  destruct (Elastic.Peek_iov (c_outboundBuffer x) (Z.to_nat iovMax)) as (iov & HP & Hiov & Hpre & _);
    [done|done|unfold iovMax; lia|].
  change (Elastic.Peek (c_outboundBuffer x) (-1)) with (Elastic.Peek (c_outboundBuffer x) 0).
  rewrite HP, res_bind_Ok. destruct (el_attempt w x iov Hiov) as (n & err & w1 & -> & Hw1 & Hn & Hwire).
  rewrite res_bind_Ok. set (p := concat (take (Z.to_nat iovMax) iov)) in *.
  pose proof (prefix_length _ _ Hpre) as Hpl.
  destruct (discard_sent (c_outboundBuffer x) n Hs) as (k & e & b & Hb & Hsb & Hc).
  { pose proof (len_nonneg p). destruct err; unfold len in *; lia. }
  rewrite Hb, res_bind_Ok. set (w2 := put_conn w1 c (set_outbound x b)).
  assert (out_only w c x w2 b) as Ho by (subst w2; rewrite Hw1; done).
  assert (sends w c x [] w2) as Hsends.
  { eapply sends_open; [done|done|done|done|]. subst w2. cbn [w_env put_conn with_conns_heap].
    rewrite Hwire, app_nil_r. apply (sent_moves _ p); [done| |done].
    pose proof (len_nonneg p). destruct err; lia. }
  destruct err as [errno|].
  - destruct (errno =? EAGAIN); [by eexists _, _|].
    assert (winv w2) as Hinv2 by (by eapply out_only_winv).
    destruct (closeConn_spec w2 c (set_outbound x b) (Some (ESys errno)) ConnErr) as (rerr & w3 & -> & Hcl);
      [by eapply writable_out|done|]. eexists _, _. split; [done|]. right.
    destruct Hsends as [(x' & _ & _ & _ & Hout)|(x' & Hx' & Hcl' & _)].
    + destruct Hcl as (x3 & Hx3 & Hop & Hp3). exists x3. split_and!; [done..|]. etrans; [exact Hp3|].
      unfold outgoing in *. cbn [c_fd c_outboundBuffer set_outbound]. subst w2.
      cbn [w_env put_conn with_conns_heap] in *. rewrite Hwire, Hc, app_nil_r. subst n.
      change (Z.to_nat (-1)) with 0%nat. by rewrite take_0, app_nil_r, drop_0.
    + apply out_only_at in Ho. rewrite Ho in Hx'. simplify_eq. simpl in Hcl'. congruence.
  - destruct (Elastic.IsEmpty b); [|by eexists _, _].
    destruct (do_epoll_spec w2 ModRead c x b) as (err & w3 & Hep & Ho3 & Hw3); [by eapply out_only_at|done|].
    unfold do_epoll in *. cbn [c_attached c_fd set_outbound]. rewrite Hep, res_bind_Ok.
    eexists _, _. split; [done|]. eapply sends_open; [done|done|by eapply out_only_trans|done|].
    rewrite Hw3. subst w2. cbn [w_env put_conn with_conns_heap]. rewrite Hwire, app_nil_r.
    apply (sent_moves _ p); [done|lia|done].
Qed.

(** *** Scripts of writes *)

Inductive writer_op : Type := WWrite (data : bytes) | WWritev (bs : list bytes) | WFlush.

Definition op_bytes (o : writer_op) : bytes :=
  match o with WWrite d => d | WWritev bs => concat bs | WFlush => [] end.

Definition writer_step w (c : cid) (o : writer_op) : res (World T) :=
  match o with
  | WWrite d => '(_, _, w) ← write w c d; Ok w
  | WWritev bs => '(_, _, w) ← writev w c bs; Ok w
  | WFlush => '(_, w) ← Flush w c; Ok w
  end.

(** The loop stops using a connection once it is closed. *)
Fixpoint writer_run w (c : cid) (os : list writer_op) : res (World T) :=
  match os with
  | [] => Ok w
  | o :: os =>
      x ← get_conn w c;
      if negb (c_opened x) then Ok w else w ← writer_step w c o; writer_run w c os
  end.

Lemma writer_step_spec w c x o :
  writable w c x -> winv w -> len (outgoing w x) + len (op_bytes o) <= 2 ^ 57 ->
  exists w', writer_step w c o = Ok w' /\ sends w c x (op_bytes o) w'.
Proof.
  intros Hwr Hinv Hl.
  assert (len (Elastic.contents (c_outboundBuffer x)) + len (op_bytes o) <= 2 ^ 57) as Hl'.
  { unfold outgoing in Hl. rewrite len_app in Hl. pose proof (len_nonneg (wire (w_env w) (c_fd x))). lia. }
  destruct o as [d|bs|]; simpl in *.
  - destruct (write_spec w c x d Hwr Hinv Hl') as (n & err & w' & -> & ?). rewrite res_bind_Ok. eauto.
  - destruct (writev_spec w c x bs Hwr Hinv Hl') as (n & err & w' & -> & ?). rewrite res_bind_Ok. eauto.
  - unfold Flush. rewrite (get_conn_Ok _ _ _ (wr_at _ _ _ Hwr)), res_bind_Ok.
    destruct (Elastic.IsEmpty (c_outboundBuffer x)) eqn:Ee.
    + rewrite res_bind_Ok. exists w. split; [done|]. left. exists x. by rewrite app_nil_r.
    + destruct (el_write_spec w c x Hwr Hinv Ee) as (err & w' & -> & ?). rewrite res_bind_Ok. eauto.
Qed.

(** C17: what a connection sends is what was written to it, in order: after any
    sequence of [write], [writev] and flushes, whatever part of each buffer the
    kernel accepts and whenever it asks to wait, the bytes on the wire followed
    by the buffered ones are exactly the bytes written, none lost, repeated or
    reordered; if an error closes the connection in between, the peer has
    received a prefix of them. *)
Theorem writer_sends_in_order w c x os (Hwr : writable w c x) (Hinv : winv w)
    (Hb : len (outgoing w x) + len (concat (map op_bytes os)) <= 2 ^ 57) :
  exists w' x', writer_run w c os = Ok w' /\ w_conns w' !! c = Some x' /\
    let all := outgoing w x ++ concat (map op_bytes os) in
    if c_opened x' then wire (w_env w') (c_fd x) ++ Elastic.contents (c_outboundBuffer x') = all
    else wire (w_env w') (c_fd x) `prefix_of` all.
Proof.
  revert w x Hwr Hinv Hb. induction os as [|o os IH]; intros w x Hwr Hinv Hb; simpl in *.
  { exists w, x. rewrite app_nil_r. split; [done|]. split; [apply Hwr|]. by rewrite (wr_open _ _ _ Hwr). }
  rewrite (get_conn_Ok _ _ _ (wr_at _ _ _ Hwr)), res_bind_Ok, (wr_open _ _ _ Hwr). cbn [negb].
  rewrite len_app in Hb. pose proof (len_nonneg (concat (map op_bytes os))).
  destruct (writer_step_spec w c x o Hwr Hinv) as (w1 & -> & Hsends); [lia|]. rewrite res_bind_Ok.
  destruct Hsends as [(x1 & Hwr1 & Hinv1 & Hfd & Hout)|(x1 & Hx1 & Hcl & Hpre)].
  - destruct (IH w1 x1 Hwr1 Hinv1) as (w2 & x2 & -> & Hx2 & Hres); [rewrite Hout, len_app; lia|].
    exists w2, x2. rewrite Hfd, Hout, <- app_assoc in Hres. done.
  - exists w1, x1. split; [|split; [done|]].
    + destruct os; simpl; [done|]. by rewrite (get_conn_Ok _ _ _ Hx1), res_bind_Ok, Hcl.
    + rewrite Hcl, app_assoc. by apply prefix_app_r.
Qed.
End writer.

(** ** A scripted environment

    Every write consumes one entry of the script: [Some k] accepts up to [k]
    bytes (at least one), [None] asks to try again; after the script everything
    is accepted. *)
Record script := mkScript { s_wires : gmap Z bytes; s_plan : list (option Z); s_clock : Z }.

Definition script_write (e : script) (fd : Z) (p : bytes) : script * (Z * option Z) :=
  let accept (n : Z) (plan : list (option Z)) :=
    (mkScript (<[fd := default [] (s_wires e !! fd) ++ take (Z.to_nat n) p]> (s_wires e)) plan (s_clock e), (n, None)) in
  match s_plan e with
  | [] => accept (len p) []
  | Some k :: plan => accept (Z.min (Z.max 1 k) (len p)) plan
  | None :: plan => (mkScript (s_wires e) plan (s_clock e), (-1, Some EAGAIN))
  end.

Lemma script_write_spec e fd p e' n err :
  script_write e fd p = (e', (n, err)) ->
  match err with None => 0 <= n <= len p | Some _ => n = -1 end /\
  (forall k, default [] (s_wires e' !! k) =
     if k =? fd then default [] (s_wires e !! fd) ++ take (Z.to_nat n) p else default [] (s_wires e !! k)).
Proof.
  pose proof (len_nonneg p).
  assert (forall m plan k, default [] (s_wires (mkScript (<[fd := default [] (s_wires e !! fd) ++ take m p]> (s_wires e))
      plan (s_clock e)) !! k) =
    if k =? fd then default [] (s_wires e !! fd) ++ take m p else default [] (s_wires e !! k)) as Hins.
  { intros m plan k. simpl. destruct (k =? fd) eqn:E.
    - apply Z.eqb_eq in E as ->. by rewrite lookup_insert_eq.
    - rewrite lookup_insert_ne by lia. done. }
  unfold script_write. destruct (s_plan e) as [|[k|] plan]; intros [= <- <- <-]; (split; [lia|]); try apply Hins.
  intros k. simpl. rewrite app_nil_r. destruct (k =? fd) eqn:E; [by apply Z.eqb_eq in E as ->|done].
Qed.

Program Definition script_env : Env := {|
  env := script;
  sys_write := script_write;
  sys_writev e fd bs := script_write e fd (concat bs);
  sys_read e fd n := (e, ([], Some EAGAIN));
  sys_close e fd := (e, None);
  epoll_ctl e o fd := (e, None);
  wake e := (e, None);
  time_Now e := (mkScript (s_wires e) (s_plan e) (s_clock e + 1), s_clock e);
  ring_Get e := (e, tiny_ring);
  pool_choice e := (e, Some 0%nat);
  rand_Intn e n := (e, 0);
  net_Dial e a := (e, inl (100 + s_clock e, str "10.0.0.5:40000", a));
  sys_accept e := (e, inr (Some EAGAIN));
  wire e fd := default [] (s_wires e !! fd);
  sys_write_spec := script_write_spec;
  sys_writev_spec e fd bs := script_write_spec e fd (concat bs);
  ring_Get_ok _ := pool_tiny;
|}.
Next Obligation.
  intros e fd bs e' n Hw Hne. simpl in Hw. unfold script_write in Hw.
  assert (0 < len (concat bs)).
  { destruct (concat bs) as [|x l]; [done|]. rewrite len_cons. pose proof (len_nonneg l). lia. }
  destruct (s_plan e) as [|[k|] plan]; simplify_eq; lia.
Qed.
Solve All Obligations with (intros; simpl; done || lia).

(** A handler that does nothing. *)
Definition quiet_handler `{Env} : @ConnHandler _ (list (Z * fid)) _ (gmap_HashMap ClusterNode) := {|
  OnCOpened w c := Ok (None, ActNone, w);
  OnSOpened w c := Ok (None, ActNone, w);
  OnCClosed w c err := Ok w;
  OnSClosed w c err := Ok w;
|}.

Lemma quiet_closed `{Env} (w : @World _ (list (Z * fid)) (gmap_HashMap ClusterNode)) c x (err : option error) :
  w_conns w !! c = Some x ->
  exists w', match c_connType x with
             | ConnClient => @OnCClosed _ _ _ _ quiet_handler w c err
             | _ => @OnSClosed _ _ _ _ quiet_handler w c err
             end = Ok w' /\
    (forall k, wire (w_env w') k = wire (w_env w) k) /\
    exists x', w_conns w' !! c = Some x' /\ c_outboundBuffer x' = c_outboundBuffer x /\ c_fd x' = c_fd x.
Proof. intros Hx. exists w. split; [by destruct (c_connType x)|]. split; [done|]. by exists x. Qed.

Definition quiet_laws `{Env} : @ConnHandlerLaws _ _ _ _ quiet_handler := {|
  winv _ := True;
  winv_out _ _ _ _ _ _ _ := I;
  winv_connections _ _ _ _ _ := I;
  closed_ok w c x err _ Hx _ := quiet_closed w c x err Hx;
|}.

Definition world_of (e : script) (cs : gmap cid conn) (s : Store) : @World script_env (list (Z * fid)) (gmap_HashMap ClusterNode) :=
  @mkWorld script_env (list (Z * fid)) (gmap_HashMap ClusterNode) e cs 9%positive s [] [] [] false ∅ 0 0 0 ∅ [] []
    no_nodes [].

Definition emptyStore : Store := mkStore ∅ ∅ 0 0 [] 1%positive.
Definition open_conn : conn := set_opened sample_conn true.
Definition writer_world := world_of (mkScript ∅ [Some 2; None; Some 3] 0) {[ 1%positive := open_conn ]} emptyStore.
Definition writer_ops : list writer_op :=
  [WWrite (str "hello"); WWritev [str "big"; []; str "world"]; WFlush; WFlush; WWrite (str "!")].

Lemma writer_sends_in_order_witness :
  exists w' x', @writer_run empty_pool script_env _ _ _ quiet_handler writer_world 1%positive writer_ops = Ok w' /\
    w_conns w' !! 1%positive = Some x' /\
    let all := outgoing writer_world open_conn ++ concat (map op_bytes writer_ops) in
    if c_opened x' then wire (w_env w') (c_fd open_conn) ++ Elastic.contents (c_outboundBuffer x') = all
    else wire (w_env w') (c_fd open_conn) `prefix_of` all.
Proof.
  apply (@writer_sends_in_order empty_pool script_env _ _ _ quiet_handler quiet_laws writer_world 1%positive
           open_conn writer_ops).
  - split; [reflexivity|reflexivity|reflexivity|by left|]. by apply (Elastic.solid_New 65536).
  - exact I.
  - vm_compute. discriminate.
Defined.

(** Two bytes go out at once, three more at the second flush; the rest waits. *)
Example writer_sample :
  (fun w => (wire (w_env w) 7, Elastic.contents <$> (c_outboundBuffer <$> w_conns w !! 1%positive))) <$>
    @writer_run empty_pool script_env _ _ _ quiet_handler writer_world 1%positive writer_ops =
  Ok (str "hello", Some (str "bigworld!")).
Proof. vm_compute. reflexivity. Qed.
