(* ===== verification/EventLoop.v ===== *)
(** * The event loop

    [core/eventloop.go] with the decoding methods of [core/connection.go], the
    dispatch of [core/reactor_default_linux.go], the task queues of the poller
    ([core/internal/netpoll/epoll_default_poller.go]), [accept] of
    [core/acceptor.go] and [Dial] of [core/engine.go].

    Loops take fuel.  The loop over the requests of a client consumes at least
    one buffered byte per round, so the number of unread bytes is enough; the
    loop over the replies of a server does not always make progress, and
    [Timeouts] shows an input on which it never ends. *)

From S2P Require Import Prelude Errors Byteslice Ring LinkedList Elastic Commands Codec Message CodecC CodecS Pool Cluster World Conn.

(** The callbacks of [EventHandler] for requests, redirections and the ticker. *)
Class LoopHandler `{Env} (T : Type) `{LLRB T} `{HashMap ClusterNode} := {
  OnCReact : World T -> option mid -> cid -> res (option bytes * Action * World T);
  OnMoved : World T -> bytes -> Z -> cid -> fid -> res (World T);
  OnTicker : World T -> res (World T);
}.

(** [BuiltinEventEngine]: every callback does nothing. *)
Section builtin.
Context `{Env} {T : Type} `{LLRB T} `{HashMap ClusterNode}.
Definition builtin_ConnHandler : ConnHandler T := {|
  OnCOpened w _ := Ok (None, ActNone, w);
  OnSOpened w _ := Ok (None, ActNone, w);
  OnCClosed w _ _ := Ok w;
  OnSClosed w _ _ := Ok w;
|}.
Definition builtin_LoopHandler : LoopHandler T := {|
  OnCReact w _ _ := Ok (None, ActNone, w);
  OnMoved w _ _ _ _ := Ok w;
  OnTicker w := Ok w;
|}.
End builtin.

Section decoding.
Context `{BytePool} `{Env} {T : Type} `{LLRB T} `{HashMap ClusterNode} `{!ConnHandler T}
  `{MapRange} (opts : Options).
Implicit Types w : World T.

(** The request decoder lowers the command name inside the slice [Peek]
    returned: this reaches the loop's buffer or the ring when the slice aliases
    them, and is lost with the loop's [cache]. *)
Definition poke (x : conn) (new : bytes) : conn :=
  if Elastic.ring_IsEmpty (c_inboundBuffer x) then set_inbound x (c_inboundBuffer x) (copy_at (c_buffer x) 0 new)
  else
    match c_inboundBuffer x with
    | Some rb =>
        match Elastic.ring_Peek (Some rb) (len new) with
        | Ok (head, _) =>
            if len new <=? len head
            then set_inbound x (Some (Ring.set_buf rb (copy_at (Ring.buf rb) (Ring.r rb) new))) (c_buffer x)
            else x
        | _ => x
        end
    | None => x
    end.

(** [conn.cread], with the [Discard] of the decoder. *)
Definition conn_cread w (c : cid) : res (option mid * option error * World T) :=
  x ← get_conn w c;
  '(bs, _) ← conn_Peek x 0;
  let '(e, choice) := pool_choice (w_env w) in
  let '(t, w) := now (with_env w e) in
  d ← CodecC.Decode (RedisMsgMaxLength opts) (w_store w) choice t c bs;
  let w := with_store w (d_store d) in
  let x := poke x (d_buf d) in
  match d_msg d with
  | None => Ok (None, d_err d, put_conn w c x)
  | Some m => '(_, x) ← conn_Discard x (d_discard d); Ok (Some m, d_err d, put_conn w c x)
  end.

(** The initialisation step of [conn.sread]. *)
Definition initializing w (s : cid) : res (option error * World T) :=
  x ← get_conn w s;
  '(bs, _) ← conn_Peek x 0;
  '(err, disc) ← InitializingDecode bs (c_initStep x);
  match disc with
  | None => Ok (err, w)
  | Some n => '(_, x) ← conn_Discard x n; Ok (err, put_conn w s (set_init x (c_initStep x) Initialized))
  end.

(** [SRespCodec.Decode] on a connection. *)
Definition sdecode w (s : cid) : res (option fid * option error * World T) :=
  x ← get_conn w s;
  '(bs, _) ← conn_Peek x 0;
  d ← CodecS.Decode w (fun w => DequeueInFrag w s) bs;
  let w := sd_state d in
  match sd_frag d with
  | None => Ok (None, sd_err d, w)
  | Some f =>
      x ← get_conn w s;
      '(_, x) ← conn_Discard x (sd_discard d);
      Ok (Some f, sd_err d, put_conn w s x)
  end.

(** [conn.sread]. *)
Definition conn_sread w (s : cid) : res (option fid * option error * World T) :=
  x ← get_conn w s;
  '(err, w) ← (if bool_decide (c_initStatus x = Initializing) then initializing w s else Ok (None, w));
  match err with
  | Some e => Ok (None, Some e, w)
  | None =>
      '(r, err, w) ← sdecode w s;
      match r, err with
      | Some f, None =>
          x ← get_frag (w_store w) f;
          match f_Owner x, f_Peer x with
          | None, _ | Some _, None => Ok (Some f, None, w)
          | Some _, Some _ =>
              match f_Type x with
              | RspMoved | RspAsk => Ok (Some f, Some (ECodec MovedOrAsk), w)
              | _ =>
                  if f_Done x then Ok (None, Some (ECodec Continue), w)
                  else
                    '(err, st) ← assemble (RedisMsgMaxLength opts) (w_store w) f;
                    Ok (Some f, err, with_store w st)
              end
          end
      | _, e => Ok (None, e, w)
      end
  end.

(** The loop of [handleWriteSignal] and [sread] that writes slices in chunks of
    [iovMax]: the error that stopped it, and the slices left, as [writev] left
    them in the array it shares with its caller. *)
Fixpoint writev_chunks (fuel : nat) w (c : cid) (bs : list bytes) : res (option error * list bytes * World T) :=
  match fuel with
  | O => OutOfFuel
  | S fuel =>
      if len bs <=? 0 then Ok (None, bs, w)
      else
        let r := Z.min (len bs) iovMax in
        chunk ← writev_slices w c (take (Z.to_nat r) bs);
        '(_, err, w) ← writev w c (take (Z.to_nat r) bs);
        match err with
        | Some e => Ok (Some e, chunk ++ drop (Z.to_nat r) bs, w)
        | None =>
            x ← get_conn w c;
            if negb (c_opened x) then Ok (None, chunk ++ drop (Z.to_nat r) bs, w)
            else writev_chunks fuel w c (drop (Z.to_nat r) bs)
        end
  end.

(** The loop of [handleWriteSignal] that moves the queued fragments to the queue
    of fragments waiting for a reply. *)
Fixpoint take_out (fuel : nat) w (c : cid) (bs : list bytes) : res (list bytes * World T) :=
  match fuel with
  | O => OutOfFuel
  | S fuel =>
      x ← get_conn w c;
      q ← the_queue (c_outFragQueue x);
      match q_head q with
      | None => Ok (bs, w)
      | Some f =>
          w ← dequeueOutFrag w c;
          w ← enqueueInFrag opts w c f;
          y ← get_frag (w_store w) f;
          take_out fuel w c (bs ++ [f_Req y])
      end
  end.

Definition handleWriteSignal w (c : cid) : res (option error * World T) :=
  x ← get_conn w c;
  if negb (c_opened x) then Ok (None, w)
  else
    match c_outFragQueue x with
    | None => Ok (None, w)
    | Some q =>
        if q_count q <? 1 then Ok (None, w)
        else
          '(bs, w) ← take_out (S (Z.to_nat (q_count q))) w c [];
          '(_, bs, w) ← writev_chunks (S (length bs)) w c bs;
          '(_, err, w) ← writev w c bs;
          Ok (err, w)
    end.

(** ** Opening and reading *)

Definition handleAction w (c : cid) (a : Action) : res (option error * World T) :=
  match a with
  | ActNone => Ok (None, w)
  | ActClose => closeConn w c None ConnEof
  | ActShutdown => Ok (Some (EEngine ErrEngineShutdown), w)
  end.

(** [eventloop.open]. *)
Definition el_open w (c : cid) : res (option error * World T) :=
  x ← get_conn w c;
  let w := put_conn w c (set_opened x true) in
  '(out, action, w) ←
    match c_connType x with
    | ConnClient => OnCOpened (with_connections w (w_connections w) (wrap32 (w_cConnCount w + 1)) (w_sConnCount w)) c
    | ConnServer => OnSOpened (with_connections w (w_connections w) (w_cConnCount w) (wrap32 (w_sConnCount w + 1))) c
    | ConnNone => Ok (None, ActClose, w)
    end;
  '(err, w) ← match out with Some o => conn_open w c o | None => Ok (None, w) end;
  match err with
  | Some e => Ok (Some e, w)
  | None =>
      x ← get_conn w c;
      '(err, w) ← (if negb (Elastic.IsEmpty (c_outboundBuffer x)) then do_epoll w AddWrite x else Ok (None, w));
      match err with
      | Some e => Ok (Some e, w)
      | None => handleAction w c action
      end
  end.

(** Register a new connection: [register], and the end of [accept] and [Dial]. *)
Definition register w (x : conn) : res (option error * cid * World T) :=
  let '(c, w) := alloc_conn w x in
  '(err, w) ← do_epoll w AddRead x;
  match err with
  | Some e =>
      let '(env', _) := sys_close (w_env w) (c_fd x) in
      x ← releaseTCP x;
      Ok (Some e, c, put_conn (with_env w env') c x)
  | None =>
      let w := with_connections w (<[c_fd x := c]> (w_connections w)) (w_cConnCount w) (w_sConnCount w) in
      '(err, w) ← el_open w c;
      Ok (err, c, w)
  end.

(** [engine.Dial]. *)
Definition Dial w (address : bytes) (isSlave : bool) : res ((cid + error) * World T) :=
  let '(e, r) := net_Dial (w_env w) address in
  let w := with_env w e in
  match r with
  | inr err => Ok (inr err, w)
  | inl (fd, local, remote) =>
      let st := if 0 <? len (RedisPasswd opts) then InitializeNone else Initialized in
      '(err, c, w) ← register w (newTCPConn fd (Some local) (Some remote) ConnServer st isSlave (WriteBufferCap opts));
      match err with Some e => Ok (inr e, w) | None => Ok (inl c, w) end
  end.

(** [eventloop.accept]; here a failed registration leaves the descriptor open. *)
Definition accept w (lnAddr : bytes) : res (option error * World T) :=
  let '(e, r) := sys_accept (w_env w) in
  let w := with_env w e in
  match r with
  | inr (Some errno) => if errno =? EAGAIN then Ok (None, w) else Ok (Some (ESys errno), w)
  | inr None => Ok (Some (EText (str "fcntl nonblock")), w)
  | inl (fd, remote) =>
      let x := newTCPConn fd (Some lnAddr) (Some remote) ConnClient Initialized false (WriteBufferCap opts) in
      let '(c, w) := alloc_conn w x in
      '(err, w) ← do_epoll w AddRead x;
      match err with
      | Some e => Ok (Some e, w)
      | None =>
          el_open (with_connections w (<[fd := c]> (w_connections w)) (w_cConnCount w) (w_sConnCount w)) c
      end
  end.
End decoding.

Section loop.
Context `{BytePool} `{Env} {T : Type} `{LLRB T} `{HashMap ClusterNode} `{!ConnHandler T} `{!LoopHandler T}
  `{MapRange} (opts : Options).
Implicit Types w : World T.

(** Keep the unread bytes for the next event. *)
Definition keep w (c : cid) : res (option error * World T) :=
  x ← get_conn w c;
  let '(e, g) := ring_Get (w_env w) in
  x ← keep_unread g x;
  Ok (None, put_conn (with_env w e) c x).

(** [eventloop.cread]. *)
Fixpoint el_cread (fuel : nat) w (c : cid) : res (option error * World T) :=
  match fuel with
  | O => OutOfFuel
  | S fuel =>
      '(r, err, w) ← conn_cread opts w c;
      if bool_decide (err = Some (ECodec ErrInvalidResp)) then closeConn w c None ConnErr
      else
        match err with
        | Some _ => keep w c
        | None =>
            '(out, action, w) ← OnCReact w r c;
            '(err, w) ←
              match out with
              | None => Ok (None, w)
              | Some o =>
                  s ← msgPool_Put (w_store w) r;
                  '(_, err, w) ← write (with_store w s) c o;
                  Ok (err, w)
              end;
            match err with
            | Some e => Ok (Some e, w)
            | None =>
                match action with
                | ActClose => closeConn w c None ProxyEof
                | ActShutdown => Ok (Some (EEngine ErrEngineShutdown), w)
                | ActNone =>
                    x ← get_conn w c;
                    if negb (c_opened x) then Ok (None, w) else el_cread fuel w c
                end
            end
        end
  end.

(** The replies of a client's queue, oldest first. *)
Fixpoint collect_rsp (fuel : nat) (h : gmap mid Msg) (cur : option mid) : res (list bytes) :=
  match cur with
  | None => Ok []
  | Some m =>
      match fuel, h !! m with
      | O, _ => OutOfFuel
      | _, None => Panic
      | S fuel, Some x => rest ← collect_rsp fuel h (m_prev x); Ok (m_RspBody x :: rest)
      end
  end.

(** The loop that takes the answered messages from the queue and recycles them. *)
Fixpoint release_msgs (fuel : nat) w (c : cid) : res (World T) :=
  match fuel with
  | O => OutOfFuel
  | S fuel =>
      '(om, w) ← dequeueInMsg w c;
      match om with
      | None => Ok w
      | Some m => s ← msgPool_Put (w_store w) (Some m); release_msgs fuel (with_store w s) c
      end
  end.

(** The part of [eventloop.sread] that answers the client of a fragment: nothing
    until every message of its queue is done, then all the replies; [true] when
    the queue was answered and released.  A write error is logged with a field of
    the nil pointer [cur]. *)
Definition answer w (c : cid) : res (bool * World T) :=
  x ← get_conn w c;
  if negb (c_opened x) then Ok (false, w)
  else
    q ← the_queue (c_inMsgQueue x);
    if Queue_Empty q then '(_, w) ← closeConn w c None ProxyEof; Ok (false, w)
    else
      all ← AllDone q (msgs (w_store w));
      if negb all then Ok (false, w)
      else
        bs ← collect_rsp (S (Z.to_nat (q_count q))) (msgs (w_store w)) (q_head q);
        '(err, bs, w) ← writev_chunks (S (length bs)) w c bs;
        match err with
        | Some _ => Panic
        | None =>
            '(_, err, w) ← writev w c bs;
            match err with
            | Some _ => Panic
            | None =>
                x ← get_conn w c;
                if negb (c_opened x) then Ok (false, w)
                else w ← release_msgs (S (Z.to_nat (q_count q))) w c; Ok (true, w)
            end
        end.

(** The errors after which [eventloop.sread] goes on with the next reply. *)
Definition skips (e : error) : bool :=
  bool_decide (e = EReply ErrUnKnown) || bool_decide (e = ECodec ErrInvalidResp) ||
  bool_decide (e = ECodec ErrInvalidInitializing).

(** [eventloop.sread]. *)
Fixpoint el_sread (fuel : nat) w (s : cid) : res (option error * World T) :=
  match fuel with
  | O => OutOfFuel
  | S fuel =>
      '(r, err, w) ← conn_sread opts w s;
      match err with
      | Some e =>
          if skips e then el_sread fuel w s
          else if bool_decide (e = ECodec MovedOrAsk) then
            f ← deref r;
            x ← get_frag (w_store w) f;
            '(addr, slot) ← parseMovedOrAsk x;
            w ← OnMoved w addr slot s f;
            el_sread fuel w s
          else if bool_decide (e = ECodec Continue) then el_sread fuel w s
          else keep w s
      | None =>
          f ← deref r;
          x ← get_frag (w_store w) f;
          match f_Type x with
          | RspNeedNtAuth | RspNeedAuth | RspAuthFailed => Ok (Some (EEngine ErrEngineShutdown), w)
          | _ =>
              match f_Owner x with
              | None =>
                  let w := if len (w_clusterChan w) <? 3 then with_chan w (w_clusterChan w ++ [f_RspBody x]) else w in
                  el_sread fuel w s
              | Some c =>
                  '(answered, w) ← answer w c;
                  y ← get_conn w s;
                  if answered && negb (c_opened y) then Ok (None, w) else el_sread fuel w s
              end
          end
      end
  end.

(** [eventloop.read]. *)
Definition el_read (fuel : nat) w (c : cid) : res (option error * World T) :=
  x ← get_conn w c;
  let '(e, (data, err)) := sys_read (w_env w) (c_fd x) (ReadBufferCap opts) in
  let w := with_env w e in
  match err with
  | Some errno => if errno =? EAGAIN then Ok (None, w) else closeConn w c (Some (ESys errno)) ConnErr
  | None =>
      if len data =? 0 then closeConn w c (Some (EText (str "read"))) ConnEof
      else
        let w := put_conn w c (set_inbound x (c_inboundBuffer x) data) in
        match c_connType x with
        | ConnClient => el_cread fuel w c
        | ConnServer => el_sread fuel w c
        | ConnNone => closeConn w c (Some (EText (str "conn closed"))) ConnErr
        end
  end.

(** The part of [msgTimeout] on one message: its unfinished fragments fail. *)
Fixpoint fail_frags (s : Store) (fs : list fid) : res Store :=
  match fs with
  | [] => Ok s
  | f :: fs =>
      x ← get_frag s f;
      fail_frags (if f_Done x then s else put_frag s f (set_fdone (set_ferror x ErrMsgRequestTimeout))) fs
  end.

Definition set_merror (m : Msg) (e : bytes) : Msg :=
  mkMsg (m_prev m) (m_next m) (m_Owner m) (m_Id m) (m_Body m) (m_RspBody m) e (m_Fd2Slot m) (m_Keys m)
    (m_Frags m) (m_Frags2 m) (m_FragDoneNumber m) (m_DelNum m) (m_Type m) (m_Done m).

(** [eventloop.msgTimeout]. *)
Fixpoint msgTimeout (fuel : nat) w : res (World T) :=
  match fuel with
  | O => OutOfFuel
  | S fuel =>
      match getFromTimeoutQueue (w_timeouts w) with
      | None => Ok w
      | Some f =>
          x ← get_frag (w_store w) f;
          t ← deleteFromTimeoutQueue (w_store w) (w_timeouts w) f;
          if f_Done x then msgTimeout fuel (with_timeouts w t)
          else
            let '(time, w) := now w in
            if time <? f_Timeout x then Ok w
            else
              let w := with_timeouts w t in
              m ← deref (f_Peer x);
              msg ← get_msg (w_store w) m;
              s ← fail_frags (w_store w) ((range (m_Body msg)).*2);
              let w := with_store w (put_msg s m (set_merror msg ErrMsgRequestTimeout)) in
              match f_Owner x with
              | None => msgTimeout fuel w
              | Some c =>
                  y ← get_conn w c;
                  if negb (c_opened y) then msgTimeout fuel w
                  else msgTimeout fuel (AsyncWrite w c ErrMsgRequestTimeout).2
              end
      end
  end.

(** [closeAllSockets], in the order [cs] in which the map is visited. *)
Fixpoint closeAllSockets w (cs : list cid) : res (World T) :=
  match cs with
  | [] => Ok w
  | c :: cs => '(_, w) ← closeConn w c None ConnEof; closeAllSockets w cs
  end.

(** [callback] of [reactor_default_linux.go] for an event on [fd], with the
    readable and writable parts of its mask. *)
Definition callback (fuel : nat) w (lnAddr : bytes) (fd : Z) (inEv outEv : bool) : res (option error * World T) :=
  match w_connections w !! fd with
  | None => accept opts w lnAddr
  | Some c =>
      x ← get_conn w c;
      '(err, w) ← (if outEv && negb (Elastic.IsEmpty (c_outboundBuffer x)) then el_write w c else Ok (None, w));
      match err with
      | Some e => Ok (Some e, w)
      | None => if inEv : bool then el_read fuel w c else Ok (None, w)
      end
  end.

(** ** The poller's task queues *)

Definition run_task w (t : task) : res (option error * World T) :=
  match t with
  | TWriteSignal c => handleWriteSignal opts w c
  | TAsyncWrite c d => asyncWrite w c d
  | TAsyncWritev c bs => asyncWritev w c bs
  | TClusterNodes c => w ← writeClusterNodes w c; Ok (None, w)
  | TClose c => closeConn w c None ConnEof
  | TShutdown => Ok (Some (EEngine ErrEngineShutdown), w)
  end.

(** Run the tasks of the urgent queue until it is empty. *)
Fixpoint run_urgent (fuel : nat) w : res (option error * World T) :=
  match fuel with
  | O => OutOfFuel
  | S fuel =>
      match w_urgent w with
      | [] => Ok (None, w)
      | t :: us =>
          '(err, w) ← run_task (with_tasks w (w_tasks w) us (w_wakeup w)) t;
          if bool_decide (err = Some (EEngine ErrEngineShutdown)) then Ok (err, w) else run_urgent fuel w
      end
  end.

(** At most [k] tasks of the other queue. *)
Fixpoint run_async (k : nat) w : res (option error * World T) :=
  match k with
  | O => Ok (None, w)
  | S k =>
      match w_tasks w with
      | [] => Ok (None, w)
      | t :: ts =>
          '(err, w) ← run_task (with_tasks w ts (w_urgent w) (w_wakeup w)) t;
          if bool_decide (err = Some (EEngine ErrEngineShutdown)) then Ok (err, w) else run_async k w
      end
  end.

(** The chores of [Polling], with at most [max] tasks of the other queue: whether
    they are due again, and the error that ends the loop. *)
Definition chores (max fuel : nat) w : res (option error * bool * World T) :=
  '(err, w) ← run_urgent fuel w;
  if bool_decide (err = Some (EEngine ErrEngineShutdown)) then Ok (err, false, w)
  else
    '(err, w) ← run_async max w;
    if bool_decide (err = Some (EEngine ErrEngineShutdown)) then Ok (err, false, w)
    else
      let w := with_tasks w (w_tasks w) (w_urgent w) false in
      match w_tasks w, w_urgent w with
      | [], [] => Ok (None, false, w)
      | _, _ =>
          let '(e, r) := wake (w_env w) in
          let w := with_tasks (with_env w e) (w_tasks w) (w_urgent w) true in
          Ok (None, match r with Some n => negb (n =? EAGAIN) | None => false end, w)
      end.
End loop.
