(* ===== verification/Pipelining.v ===== *)
(** * Pipelining

    Requests travel in batches and replies come back as one stream per server.
    The theorems here say that nothing is mixed up on the way: requests leave in
    the order in which they were queued, each reply goes to the request it
    answers however the network cuts the stream, and a client gets its replies
    in the order of its requests.  They are about [handleWriteSignal], [sdecode]
    and [answer] of [EventLoop], and hold for every kernel: a registration that is
    refused or a write that fails is one of the outcomes. *)

From S2P Require Import Prelude Errors Byteslice Ring LinkedList Elastic Commands Codec Message CodecC CodecS Pool Cluster World Conn EventLoop.

(** ** Replies and the fragments they belong to *)

(** A fragment without its links: what the queues leave alone. *)
Definition payload (f : Frag) : Frag := set_prev None (set_next None f).

Lemma payload_prev p (f : Frag) : payload (set_prev p f) = payload f.
Proof. by destruct f. Qed.
Lemma payload_next p (f : Frag) : payload (set_next p f) = payload f.
Proof. by destruct f. Qed.
Lemma payload_lookup (h h' : gmap fid Frag) f x :
  payload <$> h' !! f = payload <$> h !! f -> h !! f = Some x -> exists y, h' !! f = Some y /\ payload y = payload x.
Proof. intros Hp Hx. rewrite Hx in Hp. destruct (h' !! f) as [y|]; [|done]. simpl in Hp. exists y. split; congruence. Qed.

Lemma payload_reply (x y : Frag) : payload x = payload y -> f_Type x = f_Type y /\ f_RspBody x = f_RspBody y.
Proof. intros Hp. split; [exact (f_equal f_Type Hp)|exact (f_equal f_RspBody Hp)]. Qed.
Lemma payload_set_reply (x y : Frag) t body : payload x = payload y -> payload (set_reply x t body) = payload (set_reply y t body).
Proof. destruct x, y. unfold payload, set_reply. simpl. intros Hp. by injection Hp as ? ? ? ? ? ? ? ? ? ? ? ? ?; subst. Qed.

Section pairing.
Context `{BytePool} `{Env} {T : Type} `{LLRB T} `{HashMap ClusterNode}.
Implicit Types w : World T.

(** The server connection [s] is open for reading and [fs] are the fragments
    sent on it that wait for a reply, oldest first. *)
Record awaiting w (s : cid) (x : conn) (fs : list fid) : Prop := {
  aw_at : w_conns w !! s = Some x;
  aw_reader : reader_ok x;
  aw_queue : exists q, c_inFragQueue x = Some q /\ queue_repr q (frags (w_store w)) fs;
}.

Lemma DequeueInFrag_eq w s x f fs :
  awaiting w s x (f :: fs) ->
  exists y q h, frags (w_store w) !! f = Some y /\
    (forall k, payload <$> h !! k = payload <$> frags (w_store w) !! k) /\
    let w' := with_timeouts
      (put_conn (with_store w (with_frags (w_store w) h)) s (set_queues x (c_inMsgQueue x) (Some q) (c_outFragQueue x)))
      (tree_Delete (w_timeouts w) (f_Timeout y)) in
    DequeueInFrag w s = Ok (Some f, w') /\
    awaiting w' s (set_queues x (c_inMsgQueue x) (Some q) (c_outFragQueue x)) fs.
Proof.
  intros [Hx Hr (q & Hq & Hrepr)]. unfold DequeueInFrag. rewrite (get_conn_Ok _ _ _ Hx), res_bind_Ok, Hq.
  cbn [the_queue]. rewrite res_bind_Ok. pose proof (qr_chain _ _ _ Hrepr) as Hc. simpl in Hc.
  destruct Hc as (Hh & y & Hy & _). rewrite Hh.
  destruct (PopHead_spec q _ f fs Hrepr) as (q' & h' & Hpop & Hrepr' & (z & Hz & _) & _).
  rewrite Hpop, res_bind_Ok. unfold deleteFromTimeoutQueue.
  cbn [w_store put_conn with_conns_heap with_store w_timeouts]. rewrite (get_frag_Ok _ _ z) by exact Hz.
  rewrite !res_bind_Ok.
  assert (forall k, payload <$> h' !! k = payload <$> frags (w_store w) !! k) as Hpay.
  { intros k. apply (queue_step_proj payload payload_prev payload_next) with (o := QPopHead) (l := q) (l' := q'). exact Hpop. }
  assert (f_Timeout z = f_Timeout y) as ->.
  { specialize (Hpay f). rewrite Hy, Hz in Hpay. assert (payload z = payload y) as Hp by (simpl in Hpay; congruence).
    exact (f_equal f_Timeout Hp). }
  exists y, q', h'. split; [done|]. split; [done|]. split; [done|].
  split; [simpl; apply lookup_insert_eq|done|]. exists q'. by split.
Qed.

Lemma DequeueInFrag_spec w s x f fs :
  awaiting w s x (f :: fs) ->
  exists w' q, DequeueInFrag w s = Ok (Some f, w') /\
    awaiting w' s (set_queues x (c_inMsgQueue x) (Some q) (c_outFragQueue x)) fs /\
    msgs (w_store w') = msgs (w_store w) /\ (forall c, c <> s -> w_conns w' !! c = w_conns w !! c) /\
    forall k, payload <$> frags (w_store w') !! k = payload <$> frags (w_store w) !! k.
Proof.
  intros Ha. destruct (DequeueInFrag_eq w s x f fs Ha) as (y & q & h & Hy & Hpay & Hd & Ha').
  eexists _, q. split; [exact Hd|]. split; [exact Ha'|]. split; [done|]. split; [|exact Hpay].
  intros c Hc. simpl. by rewrite lookup_insert_ne.
Qed.

(** One reply: it goes to the oldest waiting fragment, exactly its bytes are
    consumed, and the other fragments keep their contents. *)
Lemma sdecode_spec w s x f fs r rest :
  awaiting w s x (f :: fs) -> reply_ok r -> unread x = encode r ++ rest ->
  exists w' x' fr, sdecode w s = Ok (Some f, None, w') /\ awaiting w' s x' fs /\ unread x' = rest /\
    frags (w_store w) !! f = Some fr /\ msgs (w_store w') = msgs (w_store w) /\
    c_initStatus x' = c_initStatus x /\ (forall c, c <> s -> w_conns w' !! c = w_conns w !! c) /\
    forall k, payload <$> frags (w_store w') !! k =
      if bool_decide (k = f) then Some (payload (set_reply fr (type_of r) (encode r)))
      else payload <$> frags (w_store w) !! k.
Proof.
  intros Ha Hrok Hu. pose proof Ha as [Hx Hr (q & Hq & Hrepr)]. unfold sdecode.
  rewrite (get_conn_Ok _ _ _ Hx), res_bind_Ok, conn_Peek_all, res_bind_Ok, Hu by done.
  destruct (DequeueInFrag_spec w s x f fs Ha) as (w1 & q1 & Hdq & Ha1 & Hms & Hcs & Hpay).
  destruct (chain_lookup _ _ _ _ f (qr_chain _ _ _ Hrepr)) as [fr Hfr]; [set_solver|].
  destruct (payload_lookup _ _ _ _ (Hpay f) Hfr) as (fr1 & Hfr1 & Hpf).
  rewrite (@CodecS.Decode_reply (World T) World_HasStore w _ r rest f fr1 w1 Hrok Hdq Hfr1), res_bind_Ok.
  cbn [sd_frag sd_err sd_discard sd_state set_store World_HasStore store_of].
  set (w2 := with_store w1 _). destruct Ha1 as [Hx1 Hr1 (q2 & Hq2 & Hrepr2)].
  rewrite (get_conn_Ok w2 _ _ Hx1), res_bind_Ok.
  set (x1 := set_queues x (c_inMsgQueue x) (Some q1) (c_outFragQueue x)) in *.
  assert (unread x1 = encode r ++ rest) as Hu1 by (by rewrite <- Hu).
  destruct (conn_Discard_spec x1 (len (encode r)) Hr1) as (x2 & Hd & Hr2 & Hu2).
  apply conn_Discard_inbound in Hd as Hx2. rewrite Hd, res_bind_Ok.
  assert (f ∉ fs) as Hnf by (pose proof (qr_nodup _ _ _ Hrepr) as Hnd; by apply NoDup_cons in Hnd as [? _]).
  pose proof (encode_pos r) as Hpos. rewrite Hu1, len_app in Hu2. pose proof (len_nonneg rest).
  replace ((len (encode r) + len rest <? len (encode r)) || (len (encode r) <=? 0)) with false in Hu2 by lia.
  rewrite drop_app_length' in Hu2 by (unfold len; lia).
  exists (put_conn w2 s x2), x2, fr. split; [done|]. split; [|split; [done|split; [done|split; [done|split; [by rewrite Hx2|split; [|]]]]]].
  - split; [simpl; apply lookup_insert_eq|done|]. exists q2. rewrite Hx2. split; [done|].
    by apply queue_repr_frame.
  - intros c Hc. simpl. rewrite lookup_insert_ne by done. by apply Hcs.
  - intros k. simpl. case_bool_decide as Hk.
    + subst k. rewrite lookup_insert_eq. simpl. f_equal. by apply payload_set_reply.
    + by rewrite lookup_insert_ne, Hpay.
Qed.

(** Nothing happens on the beginning of a reply. *)
Lemma sdecode_waits w s x fs r p :
  awaiting w s x fs -> reply_ok r -> strict_prefix p (encode r) -> unread x = p ->
  exists e, sdecode w s = Ok (None, Some e, w).
Proof.
  intros [Hx Hr _] Hrok Hp Hu. unfold sdecode.
  rewrite (get_conn_Ok _ _ _ Hx), res_bind_Ok, conn_Peek_all, res_bind_Ok, Hu by done.
  destruct (@CodecS.Decode_reply_waits (World T) World_HasStore w (fun w => DequeueInFrag w s) r p Hrok Hp)
    as (e & _ & _ & Hd). rewrite Hd, res_bind_Ok. by exists e.
Qed.

(** [f] carries the reply [r]. *)
Definition answered_by w (f : fid) (r : reply) : Prop :=
  exists y, frags (w_store w) !! f = Some y /\ f_Type y = type_of r /\ f_RspBody y = encode r.

Lemma answered_payload w w' f r :
  payload <$> frags (w_store w') !! f = payload <$> frags (w_store w) !! f -> answered_by w f r -> answered_by w' f r.
Proof.
  intros Hp (y & Hy & Ht & Hb). destruct (payload_lookup _ _ _ _ Hp Hy) as (z & Hz & Hpz). exists z.
  apply payload_reply in Hpz as [-> ->]. done.
Qed.

(** Decode the buffered replies until none is complete. *)
Fixpoint drain (fuel : nat) w (s : cid) : res (World T) :=
  match fuel with
  | O => OutOfFuel
  | S fuel =>
      '(_, err, w) ← sdecode w s;
      match err with Some _ => Ok w | None => drain fuel w s end
  end.

Definition others_kept w w' (fs : list fid) : Prop :=
  forall k, k ∉ fs -> payload <$> frags (w_store w') !! k = payload <$> frags (w_store w) !! k.

Lemma drain_spec fuel w s x fs rs more p r' :
  awaiting w s x (fs ++ more) -> Forall reply_ok rs -> reply_ok r' -> strict_prefix p (encode r') ->
  length rs = length fs -> unread x = concat (map encode rs) ++ p -> (length rs < fuel)%nat ->
  exists w' x', drain fuel w s = Ok w' /\ awaiting w' s x' more /\ unread x' = p /\
    Forall2 (answered_by w') fs rs /\ others_kept w w' fs.
Proof.
  intros Ha Hrs Hr' Hp. revert fuel w x fs Ha. induction Hrs as [|r rs Hr Hrs IH]; intros fuel w x fs Ha Hl Hu Hf;
    (destruct fuel as [|fuel]; [lia|]); cbn [drain].
  - destruct fs; [|done]. simpl in Hu. destruct (sdecode_waits w s x more r' p Ha Hr' Hp Hu) as (e & ->).
    rewrite res_bind_Ok. exists w, x. split_and!; [done..|by constructor|done].
  - destruct fs as [|f fs]; [done|]. simpl in *. rewrite <- app_assoc in Hu.
    destruct (sdecode_spec w s x f (fs ++ more) r _ Ha Hr Hu) as (w1 & x1 & fr & -> & Ha1 & Hu1 & Hfr & _ & _ & _ & Hpay).
    rewrite res_bind_Ok.
    destruct (IH fuel w1 x1 fs Ha1) as (w2 & x2 & -> & Ha2 & Hu2 & Hall & Hkept); [lia|done|lia|].
    exists w2, x2. split; [done|]. split; [done|]. split; [done|].
    assert (f ∉ fs) as Hnf.
    { destruct Ha as [_ _ (q & _ & [_ Hnd _ _])]. apply NoDup_cons in Hnd as [Hnf _]. set_solver. }
    split.
    + constructor; [|done]. apply (answered_payload w1 w2); [by apply Hkept|]. specialize (Hpay f).
      rewrite bool_decide_true in Hpay by done.
      destruct (frags (w_store w1) !! f) as [y|] eqn:Hy; [|done]. exists y. split; [done|].
      apply (payload_reply y (set_reply fr (type_of r) (encode r))). cbn [fmap option_fmap option_map] in Hpay. congruence.
    + intros k [Hk Hkf]%not_elem_of_cons. rewrite Hkept by done. by rewrite Hpay, bool_decide_false.
Qed.

(** Cut a stream of replies anywhere: the first part is some whole replies and
    the beginning of the next. *)
Lemma split_stream rs p r' (u rest : bytes) :
  u ++ rest = concat (map encode rs) ++ p -> strict_prefix p (encode r') ->
  exists rs1 rs2 p1, rs = rs1 ++ rs2 /\ u = concat (map encode rs1) ++ p1 /\
    p1 ++ rest = concat (map encode rs2) ++ p /\ strict_prefix p1 (encode (default r' (hd_error rs2))).
Proof.
  intros Hs Hp. revert u Hs. induction rs as [|r rs IH]; intros u Hs; simpl in *.
  - exists [], [], u. split_and!; [done..|]. destruct Hp as (t & Hne & Ht). exists (rest ++ t).
    split; [by destruct rest|]. simpl. by rewrite Ht, app_assoc, Hs.
  - rewrite <- app_assoc in Hs. apply app_eq_inv in Hs as [(k & Hk1 & Hk2)|(k & Hk1 & Hk2)].
    + destruct (IH k) as (rs1 & rs2 & p1 & -> & Hu & Hrest & Hp1); [done|].
      exists (r :: rs1), rs2, p1. split_and!; [done| |done|done]. simpl. by rewrite <- app_assoc, <- Hu.
    + destruct (decide (k = [])) as [->|Hne].
      * destruct (IH []) as (rs1 & rs2 & p1 & -> & Hu & Hrest & Hp1); [by rewrite Hk2|].
        exists (r :: rs1), rs2, p1. split_and!; [done| |done|done]. simpl. rewrite <- app_assoc, <- Hu.
        by rewrite Hk1, !app_nil_r.
      * exists [], (r :: rs), u. split_and!; [done|by rewrite app_nil_l| |by exists k]. simpl. by rewrite Hk1, Hk2, <- !app_assoc.
Qed.

Lemma keep_spec w s x fs :
  awaiting w s x fs -> len (unread x) <= 2 ^ 57 ->
  exists w' x', keep w s = Ok (None, w') /\ awaiting w' s x' fs /\ w_store w' = w_store w /\
    Elastic.ring_contents (c_inboundBuffer x') = unread x.
Proof.
  intros [Hx Hr (q & Hq & Hrepr)] Hl. unfold keep, keep_unread. rewrite (get_conn_Ok _ _ _ Hx), res_bind_Ok.
  pose proof (ring_Get_ok (w_env w)) as Hg. destruct (ring_Get (w_env w)) as [e g]. simpl in Hg.
  unfold unread in *. rewrite len_app in Hl.
  destruct (Elastic.lazy_ring_Write_spec g (c_inboundBuffer x) (c_buffer x)) as (rb & -> & Hr' & Hc); [done..|].
  rewrite !res_bind_Ok. eexists _, (set_inbound x rb (c_buffer x)). split; [done|]. split; [|done].
  split; [simpl; apply lookup_insert_eq|done|by exists q].
Qed.

(** An event on [s] delivers [data]: the bytes are put into [buffer], the
    complete replies are decoded and the rest is kept for the next event. *)
Definition receive w (s : cid) (data : bytes) : res (World T) :=
  x ← get_conn w s;
  let x := set_inbound x (c_inboundBuffer x) data in
  w ← drain (S (length (unread x))) (put_conn w s x) s;
  '(_, w) ← keep w s;
  Ok w.

Fixpoint receive_all w (s : cid) (chunks : list bytes) : res (World T) :=
  match chunks with
  | [] => Ok w
  | d :: chunks => w ← receive w s d; receive_all w s chunks
  end.

Lemma length_encoded rs : (length rs <= length (concat (map encode rs)))%nat.
Proof.
  induction rs as [|r rs IH]; simpl; [lia|]. rewrite length_app. pose proof (encode_pos r). unfold len in *. lia.
Qed.

Lemma awaiting_buffer w s x fs data :
  awaiting w s x fs ->
  awaiting (put_conn w s (set_inbound x (c_inboundBuffer x) data)) s (set_inbound x (c_inboundBuffer x) data) fs.
Proof. intros [Hx Hr Hq]. split; [simpl; apply lookup_insert_eq|done|done]. Qed.

Lemma receive_spec w s x fs more rs p r' data :
  awaiting w s x (fs ++ more) -> Forall reply_ok rs -> reply_ok r' -> strict_prefix p (encode r') ->
  length rs = length fs -> Elastic.ring_contents (c_inboundBuffer x) ++ data = concat (map encode rs) ++ p ->
  len p <= 2 ^ 57 ->
  exists w' x', receive w s data = Ok w' /\ awaiting w' s x' more /\
    Elastic.ring_contents (c_inboundBuffer x') = p /\ Forall2 (answered_by w') fs rs /\ others_kept w w' fs.
Proof.
  intros Ha Hrs Hr' Hp Hl Hu Hlp. unfold receive. rewrite (get_conn_Ok _ _ _ (aw_at _ _ _ _ Ha)), res_bind_Ok.
  set (x0 := set_inbound x (c_inboundBuffer x) data).
  destruct (drain_spec (S (length (unread x0))) (put_conn w s x0) s x0 fs rs more p r')
    as (w1 & x1 & -> & Ha1 & Hu1 & Hall & Hkept); [by apply awaiting_buffer|done..| |].
  { unfold unread. cbn [x0 c_inboundBuffer c_buffer set_inbound]. rewrite Hu, length_app.
    pose proof (length_encoded rs). lia. }
  rewrite res_bind_Ok.
  destruct (keep_spec w1 s x1 more Ha1) as (w2 & x2 & -> & Ha2 & Hst & Hc); [by rewrite Hu1|].
  rewrite res_bind_Ok. exists w2, x2. split; [done|]. split; [done|]. split; [by rewrite Hc|]. split.
  - eapply Forall2_impl; [exact Hall|]. intros f r Hfr. apply (answered_payload w1 w2); [by rewrite Hst|done].
  - intros k Hk. rewrite Hst. by rewrite Hkept.
Qed.

Lemma strict_prefix_whole r (p q l : bytes) : strict_prefix p (encode r) -> p <> encode r ++ q ++ l.
Proof.
  intros (t & Hne & Ht) Hp. rewrite Ht, <- !app_assoc in Hp.
  apply (f_equal length) in Hp. rewrite !length_app in Hp. destruct t; [done|]. simpl in Hp. lia.
Qed.

Lemma receive_all_spec chunks w s x fs more rs p r' :
  awaiting w s x (fs ++ more) -> Forall reply_ok rs -> reply_ok r' -> strict_prefix p (encode r') ->
  length rs = length fs ->
  strict_prefix (Elastic.ring_contents (c_inboundBuffer x)) (encode (default r' (hd_error rs))) ->
  Elastic.ring_contents (c_inboundBuffer x) ++ concat chunks = concat (map encode rs) ++ p ->
  len (Elastic.ring_contents (c_inboundBuffer x) ++ concat chunks) <= 2 ^ 57 ->
  exists w' x', receive_all w s chunks = Ok w' /\ awaiting w' s x' more /\
    Elastic.ring_contents (c_inboundBuffer x') = p /\ Forall2 (answered_by w') fs rs /\ others_kept w w' fs.
Proof.
  revert w x fs rs. induction chunks as [|d chunks IH]; intros w x fs rs Ha Hrs Hr' Hp Hl Hp0 Hs Hb.
  - simpl in Hs. rewrite app_nil_r in Hs. destruct rs as [|r rs].
    + destruct fs; [|done]. exists w, x. split_and!; [done..|constructor|done].
    + exfalso. simpl in *. rewrite <- app_assoc in Hs. by eapply strict_prefix_whole.
  - cbn [concat receive_all] in *. rewrite app_assoc in Hs.
    destruct (split_stream rs p r' _ _ Hs Hp) as (rs1 & rs2 & p1 & -> & Hu & Hrest & Hp1).
    apply Forall_app in Hrs as [Hrs1 Hrs2].
    assert (reply_ok (default r' (hd_error rs2))) as Hrd by (destruct Hrs2; done).
    assert (fs = take (length rs1) fs ++ drop (length rs1) fs) as Hfs by (by rewrite take_drop).
    rewrite length_app in Hl. rewrite Hfs in Ha. rewrite <- app_assoc in Ha.
    assert (len p1 + len (concat chunks) <= 2 ^ 57) as Hb1.
    { rewrite app_assoc, Hu, !len_app in Hb. pose proof (len_nonneg (concat (map encode rs1))). lia. }
    pose proof (len_nonneg (concat chunks)).
    destruct (receive_spec w s x (take (length rs1) fs) (drop (length rs1) fs ++ more) rs1 p1 _ d Ha Hrs1 Hrd Hp1)
      as (w1 & x1 & -> & Ha1 & Hc1 & Hall1 & Hk1); [rewrite length_take; lia|done|lia|]. rewrite res_bind_Ok.
    destruct (IH w1 x1 (drop (length rs1) fs) rs2) as (w2 & x2 & -> & Ha2 & Hc2 & Hall2 & Hk2);
      [done|done|done|done|rewrite length_drop; lia|by rewrite Hc1|by rewrite Hc1|by rewrite Hc1, len_app|].
    exists w2, x2. split; [done|]. split; [done|]. split; [done|].
    destruct Ha as [_ _ (q & _ & [_ Hnd _ _])]. rewrite app_assoc in Hnd. apply NoDup_app in Hnd as (Hnd & _ & _).
    apply NoDup_app in Hnd as (_ & Hdis & _). split.
    + rewrite Hfs. apply Forall2_app; [|done]. apply Forall2_same_length_lookup_2;
        [by eapply Forall2_length|]. intros i f r Hf Hr. apply (answered_payload w1 w2).
      * apply Hk2, Hdis. by eapply list_elem_of_lookup_2.
      * by eapply Forall2_lookup_lr.
    + intros k Hk. rewrite Hk2, Hk1; [done|..]; intros Hin; apply Hk; rewrite Hfs; set_solver.
Qed.

(** C2: pipelining on a server connection.  However the network cuts the stream
    of replies into reads, the proxy attaches the replies, in order and whole,
    to the fragments in the order in which these were sent, one each; the
    fragments behind them keep waiting untouched, and the beginning of a further
    reply waits in the inbound ring. *)
Theorem replies_pair_in_order w s x fs more rs p r' chunks
    (Ha : awaiting w s x (fs ++ more)) (Hempty : Elastic.ring_contents (c_inboundBuffer x) = [])
    (Hrs : Forall reply_ok rs) (Hr' : reply_ok r') (Hp : strict_prefix p (encode r'))
    (Hl : length rs = length fs) (Hs : concat chunks = concat (map encode rs) ++ p)
    (Hb : len (concat chunks) <= 2 ^ 57) :
  exists w' x', receive_all w s chunks = Ok w' /\ awaiting w' s x' more /\
    Elastic.ring_contents (c_inboundBuffer x') = p /\ Forall2 (answered_by w') fs rs /\ others_kept w w' fs.
Proof.
  apply (receive_all_spec chunks w s x fs more rs p r'); rewrite ?Hempty; try done.
  exists (encode (default r' (hd_error rs))). split; [|done]. intros He. pose proof (encode_pos (default r' (hd_error rs))) as Hpos.
  rewrite He in Hpos. done.
Qed.
End pairing.

(** *** A sample: three fragments in flight *)
Definition linked_frag (prev next : option fid) : Frag := set_prev prev (set_next next live_frag).
Definition three_frags : Store :=
  mkStore ∅ {[ 1%positive := linked_frag (Some 2%positive) None;
               2%positive := linked_frag (Some 3%positive) (Some 1%positive);
               3%positive := linked_frag None (Some 2%positive) ]} 0 3 [] 4%positive.
Definition three_queue : Queue := mkQueue (Some 3%positive) (Some 1%positive) 3.
Definition server_conn : conn :=
  set_queues (set_opened (newTCPConn 8 None (Some (str "10.0.0.7:6379")) ConnServer Initialized false 65536) true)
    (Some emptyQueue) (Some three_queue) (Some emptyQueue).
Definition flight_world := world_of (mkScript ∅ [] 0) {[ 1%positive := server_conn ]} three_frags.

Lemma three_repr : queue_repr three_queue (frags three_frags) [1; 2; 3]%positive.
Proof.
  split; [|repeat constructor; set_solver|done|done]. simpl.
  repeat (split; [done|]; eexists; split; [done|]; split; [done|]). done.
Qed.

Lemma flight_awaiting : @awaiting script_env _ _ flight_world 1%positive server_conn [1; 2; 3]%positive.
Proof. split; [done|exact I|]. exists three_queue. split; [done|exact three_repr]. Qed.

Definition flight_chunks : list bytes := [str "+O"; str "K" ++ crlf ++ str "$2" ++ crlf ++ str "v"; str "1" ++ crlf; str ":1"].

Lemma replies_pair_in_order_witness :
  exists w' x', @receive_all empty_pool script_env _ _ _ flight_world 1%positive flight_chunks = Ok w' /\
    awaiting w' 1%positive x' [3%positive] /\
    Elastic.ring_contents (c_inboundBuffer x') = str ":1" /\
    Forall2 (answered_by w') [1; 2]%positive [RStatus (str "OK"); RBulk (str "v1")] /\
    others_kept flight_world w' [1; 2]%positive.
Proof.
  apply (@replies_pair_in_order empty_pool script_env _ _ _ flight_world 1%positive server_conn [1; 2]%positive
           [3%positive] [RStatus (str "OK"); RBulk (str "v1")] (str ":1") (RInt (str "12")) flight_chunks).
  - exact flight_awaiting.
  - reflexivity.
  - repeat constructor; not_in.
  - constructor; not_in.
  - exists (str "2" ++ crlf). split; [done|reflexivity].
  - reflexivity.
  - reflexivity.
  - vm_compute. discriminate.
Defined.

(** ** Batches of requests and replies

    Nothing is assumed of the kernel beyond the laws of [Env]: a write may take a
    part of the bytes or fail with any error, and a registration may be refused. *)

Section writing.
Context `{BytePool} `{Env} {T : Type} `{LLRB T} `{HashMap ClusterNode} `{!ConnHandler T} (opts : Options).
Implicit Types w : World T.

(** The two failures: [w'] is the state right after a registration for writability
    was refused, or after a write failed for good. *)
Definition refused w' (fd : Z) : Prop :=
  exists e errno, epoll_ctl e ModReadWrite fd = (w_env w', Some errno).
Definition write_failed w' (fd : Z) (bs : list bytes) (errno : Z) : Prop :=
  errno <> EAGAIN /\ exists e, sys_writev e fd bs = (w_env w', (-1, Some errno)).

(** The connection took [data]: the bytes are behind the earlier ones and only its
    outbound buffer changed. *)
Definition took w (c : cid) (x : conn) (data : bytes) w' : Prop :=
  exists b, out_only w c x w' b /\ Elastic.solid b /\
    wire (w_env w') (c_fd x) ++ Elastic.contents b = outgoing w x ++ data.

Lemma took_nothing w c x w' :
  writable w c x -> out_only w c x w' (c_outboundBuffer x) ->
  wire (w_env w') (c_fd x) = wire (w_env w) (c_fd x) -> took w c x [] w'.
Proof. intros [] Ho Hw. exists (c_outboundBuffer x). by rewrite Hw, app_nil_r. Qed.

Lemma took_trans w c x w1 x1 d1 d2 w2 :
  w_conns w1 !! c = Some x1 -> took w c x d1 w1 -> took w1 c x1 d2 w2 -> took w c x (d1 ++ d2) w2.
Proof.
  intros Hx1 (b1 & Ho1 & Hs1 & Hc1) (b2 & Ho2 & Hs2 & Hc2).
  rewrite (out_only_at _ _ _ _ _ Ho1) in Hx1. simplify_eq. exists b2.
  split; [by eapply out_only_trans|]. split; [done|]. unfold outgoing in *. simpl in *.
  by rewrite Hc2, Hc1, app_assoc.
Qed.

(** The state after the bytes were taken, with its connection. *)
Lemma took_next w c x d w' :
  writable w c x -> took w c x d w' ->
  exists b, writable w' c (set_outbound x b) /\ out_only w c x w' b /\
    outgoing w' (set_outbound x b) = outgoing w x ++ d.
Proof. intros Hwr (b & Ho & Hs & Hc). exists b. split; [by eapply writable_out|done]. Qed.

Lemma outgoing_buffered w x : len (Elastic.contents (c_outboundBuffer x)) <= len (outgoing w x).
Proof. unfold outgoing. rewrite len_app. pose proof (len_nonneg (wire (w_env w) (c_fd x))). lia. Qed.

(** The bytes are in the outbound buffer, whose end is written later. *)
Definition buffered w (c : cid) : Prop :=
  exists x, w_conns w !! c = Some x /\ Elastic.IsEmpty (c_outboundBuffer x) = false.

(** Buffer and register for writability, after an attempt that sent a part. *)
Lemma buffer_rest w c x w1 data bs n :
  writable w c x -> out_only w c x w1 (c_outboundBuffer x) -> Elastic.contents (c_outboundBuffer x) = [] ->
  wire (w_env w1) (c_fd x) ++ concat bs = wire (w_env w) (c_fd x) ++ data -> len (concat bs) <= 2 ^ 57 ->
  exists err w', (w ← out_Writev w1 c bs; '(err, w) ← do_epoll w ModReadWrite x; Ok (n, err, w)) =
      Ok (n : Z, err, w') /\ took w c x data w' /\
    match err with None => True | Some _ => refused w' (c_fd x) end /\ (concat bs <> [] -> buffered w' c).
Proof.
  intros Hwr Ho1 He Hd Hb. pose proof Hwr as [Hx Hopen Hatt Ht Hs].
  destruct (out_Writev_spec w1 c x bs) as (w2 & b & -> & Ho2 & Hsb & Hcb & Hw2).
  { apply out_only_at in Ho1. rewrite Ho1. by destruct x. }
  { done. }
  { by rewrite He, len_nil, Z.add_0_l. }
  rewrite res_bind_Ok. assert (out_only w c x w2 b) as Ho by (eapply out_only_trans; [exact Ho1|by destruct x]).
  destruct (do_epoll_spec w2 ModReadWrite c x b) as (err & w3 & Hep & Ho3 & Hw3); [by eapply out_only_at|done|].
  rewrite Hep, res_bind_Ok. exists err, w3. split; [done|].
  assert (out_only w c x w3 b) as Ho3' by (by eapply out_only_trans). split; [|split].
  - exists b. split; [done|]. split; [done|].
    rewrite Hw3, Hw2, Hcb, He, app_nil_l, Hd. unfold outgoing. by rewrite He, app_nil_r.
  - destruct err as [err|]; [|done]. unfold do_epoll in Hep. rewrite Hatt in Hep.
    destruct (epoll_ctl (w_env w2) ModReadWrite (c_fd x)) as [e [r|]] eqn:E; simplify_eq. by eexists _, r.
  - intros Hne. exists (set_outbound x b). split; [by eapply out_only_at|]. cbn [c_outboundBuffer set_outbound].
    destruct (Elastic.IsEmpty b) eqn:Eb; [|done]. apply (Elastic.IsEmpty_nil _ (proj1 Hsb)) in Eb.
    rewrite Eb, He in Hcb. by destruct (concat bs).
Qed.

Lemma cut_slices_suffix bs sent :
  0 <= sent -> Forall2 (fun a b => a `suffix_of` b) (cut_slices bs sent) bs.
Proof.
  revert sent. induction bs as [|b bs IH]; intros sent Hs; simpl; [constructor|]. case_if.
  - constructor; [|reflexivity]. rewrite subl_drop by lia. eexists. symmetry. apply take_drop.
  - constructor; [done|apply IH; lia].
Qed.

(** What [writev] can do with [bs], and the slices it leaves. *)
Inductive wrote w (c : cid) (x : conn) (bs : list bytes) :
    res (Z * option error * World T) -> list bytes -> Prop :=
  | wrote_all n w' chunk : took w c x (concat bs) w' -> wrote w c x bs (Ok (n, None, w')) chunk
  | wrote_unwatched n e w' chunk :
      took w c x (concat bs) w' -> refused w' (c_fd x) -> (concat bs <> [] -> buffered w' c) ->
      Forall2 (fun a b => a `suffix_of` b) chunk bs -> wrote w c x bs (Ok (n, Some e, w')) chunk
  | wrote_failed w1 errno :
      took w c x [] w1 -> write_failed w1 (c_fd x) bs errno ->
      wrote w c x bs ('(rerr, w) ← closeConn w1 c (Some (ESys errno)) ConnErr; Ok (-1, rerr, w)) bs.

Lemma wrote_rest w c x bs n chunk (r : res (Z * option error * World T)) :
  Forall2 (fun a b => a `suffix_of` b) chunk bs ->
  (exists err w', r = Ok (n, err, w') /\ took w c x (concat bs) w' /\
    match err with None => True | Some _ => refused w' (c_fd x) end /\ (concat bs <> [] -> buffered w' c)) ->
  wrote w c x bs r chunk.
Proof.
  intros Hc ([e|] & w' & -> & Htk & Hr & Hb); [by apply wrote_unwatched|by apply wrote_all].
Qed.

Lemma writev_outcome w c x bs :
  writable w c x -> len (Elastic.contents (c_outboundBuffer x)) + len (concat bs) <= 2 ^ 57 ->
  exists chunk, writev_slices w c bs = Ok chunk /\ wrote w c x bs (writev w c bs) chunk.
Proof.
  intros Hwr Hl. pose proof Hwr as [Hx Hopen Hatt Ht Hs]. unfold writev, writev_slices.
  rewrite (get_conn_Ok _ _ _ Hx), !res_bind_Ok, fold_len, Z.add_0_l.
  destruct (Elastic.IsEmpty (c_outboundBuffer x)) eqn:Ee; cbn [negb].
  2:{ destruct (out_Writev_spec w c x bs Hx Hs Hl) as (w1 & b & -> & Ho & Hsb & Hcb & Hw1).
      rewrite res_bind_Ok. eexists. split; [done|]. apply wrote_all. exists b. split; [done|]. split; [done|].
      rewrite Hw1, Hcb. unfold outgoing. by rewrite app_assoc. }
  pose proof (Elastic.IsEmpty_nil _ (proj1 Hs) Ee) as Hnil. rewrite Hnil, len_nil, Z.add_0_l in Hl.
  destruct (io_Writev w (c_fd x) bs) as [[sent err] w1] eqn:Ew.
  destruct (io_Writev_spec _ _ _ _ _ _ Ew) as (Hw1 & Hn & _ & Hwire).
  specialize (Hwire (c_fd x)). rewrite Z.eqb_refl in Hwire.
  assert (out_only w c x w1 (c_outboundBuffer x)) as Ho1 by (rewrite Hw1; by apply out_only_refl).
  destruct err as [errno|].
  - subst sent. simpl in Hwire. rewrite app_nil_r in Hwire. eexists. split; [done|].
    destruct (errno =? EAGAIN) eqn:Ea.
    + apply (wrote_rest _ _ _ _ (len (concat bs))); [reflexivity|].
      apply (buffer_rest w c x w1 (concat bs) bs); [done|done|done|by rewrite Hwire|done].
    + apply wrote_failed; [by apply took_nothing|]. split; [lia|]. unfold io_Writev in Ew. case_if_in Ew; [done|].
      destruct (sys_writev (w_env w) (c_fd x) bs) as [e [n err]] eqn:Es. simplify_eq. by exists (w_env w).
  - case_if.
    + eexists. split; [done|]. apply (wrote_rest _ _ _ _ (len (concat bs))); [apply cut_slices_suffix; lia|].
      destruct (unsent_spec bs sent) as (l & -> & Hd); [lia|]. change (default bs (Some l)) with l.
      assert (concat l <> []) as Hne by (rewrite Hd; apply (f_equal len) in Hd; intros E; unfold len in *; apply (f_equal length) in E; rewrite length_drop in E; simpl in E; lia).
      destruct (buffer_rest w c x w1 (concat bs) l (len (concat bs))) as (err & w' & HR & Htk & Hr & Hb).
      { done. } { done. } { done. } { by rewrite Hwire, Hd, <- app_assoc, take_drop. }
      { rewrite Hd. unfold len in *. rewrite length_drop. lia. }
      exists err, w'. split; [exact HR|]. split; [done|]. split; [done|]. intros _. by apply Hb.
    + eexists. split; [done|]. apply wrote_all. exists (c_outboundBuffer x). split; [done|]. split; [done|].
      rewrite Hwire, take_ge by (unfold len in *; lia). unfold outgoing. by rewrite Hnil, !app_nil_r.
Qed.

(** A connection that was closed stays in the heap, not open. *)
Lemma closeConn_closed w c x err t rerr w' :
  w_conns w !! c = Some x -> c_opened x = true -> closeConn w c err t = Ok (rerr, w') ->
  exists x', w_conns w' !! c = Some x' /\ c_opened x' = false.
Proof.
  intros Hx Hopen. unfold closeConn. rewrite (get_conn_Ok _ _ _ Hx), res_bind_Ok, Hopen. cbn [negb].
  intros (w1 & _ & Hc)%res_bind_inv. destruct (epoll_ctl _ _ _) as [e e0]. destruct (sys_close _ _) as [e' e1].
  apply res_bind_inv in Hc as (w2 & _ & Hc). apply res_bind_inv in Hc as (x2 & _ & Hc).
  apply res_bind_inv in Hc as (x3 & Hr & Hc). simplify_eq. exists x3. split; [simpl; apply lookup_insert_eq|].
  unfold releaseTCP in Hr. apply res_bind_inv in Hr as (b & _ & Hr). by simplify_eq.
Qed.

(** The slices of a chunk that ends at slice [k] are sent again: each of them
    whole, or, where the kernel cut it, the part that was not sent. *)
Definition resent (bs : list bytes) (k : nat) (again : list bytes) : Prop :=
  exists k0, (k0 <= k)%nat /\ Forall2 (fun a b => a `suffix_of` b) again (drop k0 (take k bs)).

(** What the loop over the chunks can do with [bs]. *)
Inductive chunked w (c : cid) (x : conn) (bs : list bytes) : res (option error * list bytes * World T) -> Prop :=
  | chunked_all w' : took w c x (concat bs) w' -> chunked w c x bs (Ok (None, [], w'))
  | chunked_unwatched e w' k again :
      took w c x (concat (take k bs)) w' -> refused w' (c_fd x) ->
      (Forall (fun b => b <> []) bs -> buffered w' c) -> resent bs k again ->
      chunked w c x bs (Ok (Some e, again ++ drop k bs, w'))
  | chunked_failed w1 k m errno :
      took w c x (concat (take k bs)) w1 -> write_failed w1 (c_fd x) (take m (drop k bs)) errno ->
      chunked w c x bs ('(rerr, w) ← closeConn w1 c (Some (ESys errno)) ConnErr; Ok (rerr, drop k bs, w)).

(** The outcome of the rest of the slices, after the first chunk of [r]. *)
Lemma chunked_next w c x w1 x1 bs r res :
  c_fd x1 = c_fd x -> w_conns w1 !! c = Some x1 -> took w c x (concat (take r bs)) w1 ->
  chunked w1 c x1 (drop r bs) res -> chunked w c x bs res.
Proof.
  intros Hfd Hx1 Htk Hch.
  assert (forall k, concat (take (r + k) bs) = concat (take r bs) ++ concat (take k (drop r bs))) as Hcat.
  { intros k. by rewrite <- concat_app, <- take_take_drop. }
  destruct Hch as [w2 Htk2|e w2 k again Htk2 Hr Hb (k0 & Hk & Hag)|w2 k m errno Htk2 Hf]; rewrite ?drop_drop, ?Hfd in *.
  - apply chunked_all. rewrite <- (take_drop r bs) at 1. rewrite concat_app. by eapply took_trans.
  - apply (chunked_unwatched _ _ _ _ _ _ (r + k)); [rewrite Hcat; by eapply took_trans|done| |].
    { intros Hall. apply Hb. by apply Forall_drop. }
    exists (r + k0)%nat. split; [lia|]. by rewrite take_drop_commute, drop_drop in Hag.
  - apply (chunked_failed _ _ _ _ _ (r + k) m); [rewrite Hcat; by eapply took_trans|done].
Qed.

Lemma writev_chunks_outcome fuel w c x bs :
  writable w c x -> len (outgoing w x) + len (concat bs) <= 2 ^ 57 -> (length bs < fuel)%nat ->
  chunked w c x bs (writev_chunks fuel w c bs).
Proof.
  revert w x bs. induction fuel as [|fuel IH]; intros w x bs Hwr Hl Hf; [lia|]. cbn [writev_chunks].
  destruct bs as [|b0 bs].
  { apply chunked_all, took_nothing; [done|by apply out_only_id, Hwr|done]. }
  assert (0 < len (b0 :: bs)) as Hpos by (rewrite len_cons; pose proof (len_nonneg bs); lia).
  set (l := b0 :: bs) in *. clearbody l. replace (len l <=? 0) with false by lia.
  set (r := Z.to_nat (Z.min (len l) iovMax)).
  assert (0 < r)%nat as Hr by (unfold r, iovMax; lia).
  assert (concat l = concat (take r l) ++ concat (drop r l)) as Hcat by (by rewrite <- concat_app, take_drop).
  rewrite Hcat, len_app in Hl. pose proof (len_nonneg (concat (drop r l))). pose proof (outgoing_buffered w x) as Hco.
  destruct (writev_outcome w c x (take r l) Hwr) as (chunk & -> & Hw); [lia|]. rewrite res_bind_Ok.
  destruct Hw as [n w1 chunk Htk|n e w1 chunk Htk Href Hbuf Hag|w1 errno Htk Hfail].
  - rewrite res_bind_Ok. destruct (took_next _ _ _ _ _ Hwr Htk) as (b & Hwr1 & _ & Ho).
    rewrite (get_conn_Ok _ _ _ (wr_at _ _ _ Hwr1)), res_bind_Ok, (wr_open _ _ _ Hwr1). cbn [negb].
    eapply chunked_next; [|apply Hwr1|done|]; [done|]. apply IH; [done| |rewrite length_drop; unfold len in *; lia].
    rewrite Ho, len_app. lia.
  - rewrite res_bind_Ok. apply chunked_unwatched; [done|done| |].
    + intros Hall. apply Hbuf. destruct l as [|b l]; [done|]. destruct r; [lia|]. simpl.
      inversion_clear Hall. by destruct b.
    + exists 0%nat. split; [lia|]. by rewrite drop_0.
  - destruct (took_next _ _ _ _ _ Hwr Htk) as (b & Hwr1 & _ & _).
    rewrite take_drop. pose proof (chunked_failed w c x l w1 0 r errno Htk) as Hch. rewrite drop_0 in Hch.
    specialize (Hch Hfail). revert Hch.
    destruct (closeConn w1 c (Some (ESys errno)) ConnErr) as [[rerr w2]| |] eqn:Hcl; [|done..].
    rewrite !res_bind_Ok. destruct rerr; [done|]. cbv beta iota.
    destruct (closeConn_closed _ _ _ _ _ _ _ (wr_at _ _ _ Hwr1) (wr_open _ _ _ Hwr1) Hcl) as (x2 & Hx2 & Hop).
    by rewrite (get_conn_Ok _ _ _ Hx2), res_bind_Ok, Hop.
Qed.

(** A buffered connection only appends. *)
Lemma writev_appends w c x bs :
  writable w c x -> buffered w c \/ bs = [] -> len (outgoing w x) + len (concat bs) <= 2 ^ 57 ->
  exists n w', writev w c bs = Ok (n, None, w') /\ took w c x (concat bs) w'.
Proof.
  intros Hwr Hbuf Hl. pose proof Hwr as [Hx Hopen Hatt Ht Hs]. unfold writev.
  rewrite (get_conn_Ok _ _ _ Hx), res_bind_Ok. pose proof (outgoing_buffered w x).
  destruct (Elastic.IsEmpty (c_outboundBuffer x)) eqn:Ee; cbn [negb].
  - destruct Hbuf as [(x' & Hx' & Hne)| ->]; [congruence|]. change (io_Writev w (c_fd x) []) with (0, @None Z, w).
    eexists _, _. split; [done|]. apply took_nothing; [done|by apply out_only_id|done].
  - destruct (out_Writev_spec w c x bs Hx Hs) as (w1 & b & -> & Ho & Hsb & Hcb & Hw1); [lia|].
    rewrite res_bind_Ok. eexists _, _. split; [done|]. exists b. split; [done|]. split; [done|].
    rewrite Hw1, Hcb. unfold outgoing. by rewrite app_assoc.
Qed.

End writing.

(** ** The lists behind the queues *)
Section lists.
Context `{BytePool} `{Env} {T : Type} `{LLRB T} `{HashMap ClusterNode} `{!ConnHandler T} (opts : Options).
Implicit Types w : World T.

(** *** The requests of a server connection *)

Definition req_of w (f : fid) : bytes := default [] (f_Req <$> frags (w_store w) !! f).

(** The fragments [fs] wait to be sent on [c], and [gs] were sent and wait for
    their replies. *)
Record outgoing_queue w (x : conn) (fs gs : list fid) : Prop := {
  oq_out : exists q, c_outFragQueue x = Some q /\ queue_repr q (frags (w_store w)) fs;
  oq_in : exists q, c_inFragQueue x = Some q /\ queue_repr q (frags (w_store w)) gs;
  oq_disjoint : forall f, f ∈ fs -> f ∉ gs;
}.

(** Only the queues of [c] and the fragments' links and timeouts change. *)
Record requeued w (c : cid) (x : conn) w' (x' : conn) : Prop := {
  rq_conns : w_conns w' = <[c := x']> (w_conns w);
  rq_conn : exists qi qo, x' = set_queues x (c_inMsgQueue x) qi qo;
  rq_req : forall k, f_Req <$> frags (w_store w') !! k = f_Req <$> frags (w_store w) !! k;
  rq_wire : forall k, wire (w_env w') k = wire (w_env w) k;
}.

Lemma f_Req_links (h h' : gmap fid Frag) q q' o :
  queue_step q h o = Ok (q', h') -> forall k, f_Req <$> h' !! k = f_Req <$> h !! k.
Proof. intros Hs k. by apply (queue_step_proj f_Req) with (l := q) (o := o) (l' := q'). Qed.

Lemma dequeueOutFrag_spec w c x f fs gs :
  w_conns w !! c = Some x -> outgoing_queue w x (f :: fs) gs ->
  exists w' x', dequeueOutFrag w c = Ok w' /\ requeued w c x w' x' /\ outgoing_queue w' x' fs gs /\
    f ∉ fs /\ is_Some (frags (w_store w') !! f).
Proof.
  intros Hx [(q & Hq & Hrepr) (qi & Hqi & Hrepri) Hdis]. unfold dequeueOutFrag.
  rewrite (get_conn_Ok _ _ _ Hx), res_bind_Ok, Hq. cbn [the_queue]. rewrite res_bind_Ok.
  destruct (PopHead_spec q _ f fs Hrepr) as (q' & h' & Hpop & Hrepr' & (y & Hy & _) & Hkeep).
  rewrite Hpop, res_bind_Ok. eexists _, _. split; [done|]. split; [|split; [|split]].
  - split; [done|by eexists _, _| |done]. simpl. by apply (f_Req_links _ _ q q' QPopHead).
  - split; [by exists q'| |set_solver]. exists qi. split; [done|]. simpl. eapply queue_repr_links; [|exact Hrepri].
    intros k Hk. rewrite Hkeep; [done|..]; intros Hin; eapply (Hdis k); set_solver.
  - pose proof (qr_nodup _ _ _ Hrepr) as Hnd. by apply NoDup_cons in Hnd as [? _].
  - simpl. by exists y.
Qed.

Lemma set_timeout_links (s : Store) f x t k :
  frags s !! f = Some x -> links <$> frags (put_frag s f (set_timeout x t)) !! k = links <$> frags s !! k.
Proof.
  intros Hx. simpl. destruct (decide (k = f)) as [->|]; [by rewrite lookup_insert_eq, Hx|by rewrite lookup_insert_ne].
Qed.

Lemma pushToTimeoutQueue_spec (s : Store) (t : T) f x timeout now :
  frags s !! f = Some x ->
  exists s' t', pushToTimeoutQueue s t f timeout now = Ok (s', t') /\
    forall k, links <$> frags s' !! k = links <$> frags s !! k /\ f_Req <$> frags s' !! k = f_Req <$> frags s !! k.
Proof.
  intros Hx. unfold pushToTimeoutQueue. case_if; [eauto|]. rewrite (get_frag_Ok _ _ _ Hx), res_bind_Ok.
  destruct (f_Owner x), (f_Peer x); eauto. eexists _, _. split; [done|]. intros k.
  split; [by apply set_timeout_links|]. simpl.
  destruct (decide (k = f)) as [->|]; [by rewrite lookup_insert_eq, Hx|by rewrite lookup_insert_ne].
Qed.

Lemma enqueueInFrag_spec w c x f fs gs :
  w_conns w !! c = Some x -> outgoing_queue w x fs gs -> f ∉ fs -> f ∉ gs -> is_Some (frags (w_store w) !! f) ->
  exists w' x', enqueueInFrag opts w c f = Ok w' /\ requeued w c x w' x' /\ outgoing_queue w' x' fs (gs ++ [f]).
Proof.
  intros Hx [(q & Hq & Hrepr) (qi & Hqi & Hrepri) Hdis] Hf Hg [y Hy]. unfold enqueueInFrag.
  rewrite (get_conn_Ok _ _ _ Hx), res_bind_Ok, Hqi. cbn [the_queue]. rewrite res_bind_Ok.
  destruct (PushTail_spec qi _ gs f y Hrepri Hy Hg) as (q' & h' & Hpush & Hrepr' & Hkeep).
  rewrite Hpush, res_bind_Ok. unfold now. simpl. pose proof (time_Now_wire (w_env w)) as Hwire.
  destruct (time_Now (w_env w)) as [e t]. simpl in Hwire.
  pose proof (f_Req_links _ _ qi q' (QPushTail f) Hpush) as Hreq.
  destruct (chain_lookup _ _ _ _ f (qr_chain _ _ _ Hrepr')) as [z Hz]; [set_solver|].
  destruct (pushToTimeoutQueue_spec (with_frags (w_store w) h') (w_timeouts w) f z (RedisRequestTimeout opts) t Hz)
    as (s' & t' & Hpt & Hsame). simpl. rewrite Hpt, res_bind_Ok.
  eexists _, _. split; [done|]. split.
  - split; [done|by eexists _, _| |done]. intros k. simpl. destruct (Hsame k) as [_ ->]. simpl. by rewrite Hreq.
  - split.
    + exists q. split; [done|]. simpl. eapply queue_repr_links; [|exact Hrepr]. intros k Hk.
      destruct (Hsame k) as [-> _]. simpl. rewrite Hkeep; [done|by intros ->|by apply Hdis].
    + exists q'. split; [done|]. simpl. eapply queue_repr_links; [|exact Hrepr']. intros k Hk. apply Hsame.
    + intros k Hk. specialize (Hdis k Hk). set_solver.
Qed.

Lemma requeued_trans w c x w1 x1 w2 x2 :
  requeued w c x w1 x1 -> requeued w1 c x1 w2 x2 -> requeued w c x w2 x2.
Proof.
  intros [Hc1 (qi1 & qo1 & ->) Hr1 Hw1] [Hc2 (qi2 & qo2 & ->) Hr2 Hw2]. split.
  - by rewrite Hc2, Hc1, insert_insert_eq.
  - by exists qi2, qo2.
  - intros k. by rewrite Hr2, Hr1.
  - intros k. by rewrite Hw2, Hw1.
Qed.

Lemma requeued_at w c x w' x' : requeued w c x w' x' -> w_conns w' !! c = Some x'.
Proof. intros [-> _ _ _]. apply lookup_insert_eq. Qed.

Lemma requeued_refl w c x : w_conns w !! c = Some x -> requeued w c x w x.
Proof.
  intros Hx. split; [by rewrite insert_id|exists (c_inFragQueue x), (c_outFragQueue x); by destruct x|done|done].
Qed.

Lemma req_of_requeued w c x w' x' f : requeued w c x w' x' -> req_of w' f = req_of w f.
Proof. intros [_ _ Hr _]. unfold req_of. by rewrite Hr. Qed.

Lemma take_out_spec fuel w c x fs gs bs :
  w_conns w !! c = Some x -> outgoing_queue w x fs gs -> (length fs < fuel)%nat ->
  exists w' x', take_out opts fuel w c bs = Ok (bs ++ map (req_of w) fs, w') /\ requeued w c x w' x' /\
    outgoing_queue w' x' [] (gs ++ fs).
Proof.
  revert w x fs gs bs. induction fuel as [|fuel IH]; intros w x fs gs bs Hx Hoq Hf; [lia|]. cbn [take_out].
  rewrite (get_conn_Ok _ _ _ Hx), res_bind_Ok. pose proof Hoq as [(q & Hq & Hrepr) _ Hdis]. rewrite Hq.
  cbn [the_queue]. rewrite res_bind_Ok. pose proof (qr_chain _ _ _ Hrepr) as Hc. destruct fs as [|f fs]; simpl in Hc.
  { rewrite Hc. exists w, x. split; [by rewrite app_nil_r|]. split; [by apply requeued_refl|]. by rewrite app_nil_r. }
  destruct Hc as (-> & _).
  destruct (dequeueOutFrag_spec w c x f fs gs Hx Hoq) as (w1 & x1 & -> & Hrq1 & Hoq1 & Hnf & Hsome).
  rewrite res_bind_Ok. destruct (enqueueInFrag_spec w1 c x1 f fs gs) as (w2 & x2 & -> & Hrq2 & Hoq2);
    [by eapply requeued_at|done|done|set_solver|done|]. rewrite res_bind_Ok.
  pose proof (requeued_trans _ _ _ _ _ _ _ Hrq1 Hrq2) as Hrq.
  assert (exists y, frags (w_store w2) !! f = Some y /\ f_Req y = req_of w f) as (y & Hy & Hreq).
  { rewrite <- (req_of_requeued _ _ _ _ _ f Hrq). destruct Hsome as [z Hz]. pose proof (rq_req _ _ _ _ _ Hrq2 f) as Hr.
    rewrite Hz in Hr. unfold req_of. destruct (frags (w_store w2) !! f) as [y|]; [|done]. by exists y. }
  rewrite (get_frag_Ok _ _ _ Hy), res_bind_Ok, Hreq.
  destruct (IH w2 x2 fs (gs ++ [f]) (bs ++ [req_of w f])) as (w3 & x3 & -> & Hrq3 & Hoq3);
    [by eapply requeued_at|done|simpl in Hf; lia|].
  exists w3, x3. split; [|split; [by eapply requeued_trans|by rewrite <- app_assoc in Hoq3]].
  rewrite <- app_assoc. simpl. do 4 f_equal. apply map_ext. intros k. by eapply req_of_requeued.
Qed.

(** *** The replies to a client *)

Definition rsp_of w (m : mid) : bytes := default [] (m_RspBody <$> msgs (w_store w) !! m).
Definition msg_done w (m : mid) : bool := default false (m_Done <$> msgs (w_store w) !! m).

(** [ms] are the requests of the client that were not answered, oldest first. *)
Definition pending w (x : conn) (ms : list mid) : Prop :=
  exists q, c_inMsgQueue x = Some q /\ queue_repr q (msgs (w_store w)) ms.

Lemma collect_rsp_spec (h : gmap mid Msg) fuel nx p ms :
  chain h nx p ms -> (length ms <= fuel)%nat ->
  collect_rsp fuel h p = Ok (map (fun m => default [] (m_RspBody <$> h !! m)) ms).
Proof.
  revert nx p fuel. induction ms as [|m ms IH]; intros nx p fuel; cbn [chain length map].
  - intros -> _. by destruct fuel.
  - intros (-> & x & Hx & _ & Hc) Hf. destruct fuel as [|fuel]; [lia|]. cbn [collect_rsp]. rewrite Hx.
    rewrite (IH (Some m) (m_prev x) fuel Hc) by lia. done.
Qed.

Lemma release_msgs_spec fuel w c x ms :
  w_conns w !! c = Some x -> pending w x ms -> (length ms < fuel)%nat ->
  exists w' q, release_msgs fuel w c = Ok w' /\
    w_conns w' = <[c := set_queues x (Some q) (c_inFragQueue x) (c_outFragQueue x)]> (w_conns w) /\
    queue_repr q (msgs (w_store w')) [] /\ w_env w' = w_env w /\
    pool (w_store w') = rev ms ++ pool (w_store w) /\
    (forall m, m ∈ ms -> msgs (w_store w') !! m = Some zeroMsg) /\
    (forall m, m ∉ ms -> msgs (w_store w') !! m = msgs (w_store w) !! m).
Proof.
  revert w x ms. induction fuel as [|fuel IH]; intros w x ms Hx (q & Hq & Hrepr) Hf; [lia|]. cbn [release_msgs].
  unfold dequeueInMsg. rewrite (get_conn_Ok _ _ _ Hx), res_bind_Ok, Hq. cbn [the_queue]. rewrite res_bind_Ok.
  unfold Queue_Empty. rewrite (qr_count _ _ _ Hrepr). destruct ms as [|m ms].
  { change (len [] <? 1) with true. cbv iota. rewrite res_bind_Ok. exists w, q. split; [done|]. split; [|split; [done|split; [done|split; [done|split; [set_solver|done]]]]].
    rewrite <- Hq. rewrite insert_id; [done|]. rewrite Hx. by destruct x. }
  rewrite len_cons. pose proof (len_nonneg ms). replace (1 + len ms <? 1) with false by lia.
  pose proof (qr_chain _ _ _ Hrepr) as Hc. simpl in Hc. destruct Hc as (-> & _).
  pose proof (qr_nodup _ _ _ Hrepr) as Hnd. apply NoDup_cons in Hnd as [Hm Hnd].
  destruct (PopHead_spec q _ m ms Hrepr) as (q' & h' & -> & Hrepr' & (y & Hy & _) & Hkeep). rewrite !res_bind_Ok.
  unfold msgPool_Put. cbn [w_store put_conn with_conns_heap with_store]. rewrite (get_msg_Ok _ _ y) by exact Hy.
  rewrite !res_bind_Ok. set (w1 := with_store _ _). set (x1 := set_queues x (Some q') (c_inFragQueue x) (c_outFragQueue x)).
  destruct (IH w1 x1 ms) as (w2 & q2 & -> & Hc2 & Hr2 & He2 & Hp2 & Hz2 & Hk2).
  - simpl. apply lookup_insert_eq.
  - exists q'. split; [done|]. simpl. by apply queue_repr_frame.
  - simpl in Hf. lia.
  - exists w2, q2. split; [done|]. split; [by rewrite Hc2; simpl; rewrite insert_insert_eq|]. split; [done|].
    split; [done|]. split; [by rewrite Hp2; simpl; rewrite <- app_assoc|]. split.
    + intros k [->|Hk]%elem_of_cons; [|by apply Hz2]. rewrite Hk2 by done. simpl.
      by rewrite lookup_insert_eq, clear_msg_zero.
    + intros k [Hk Hk']%not_elem_of_cons. rewrite Hk2 by done. simpl. rewrite lookup_insert_ne by done. by apply Hkeep.
Qed.

Lemma forallb_done w ms :
  forallb (fun m => match msgs (w_store w) !! m with Some x => m_Done x | None => false end) ms = forallb (msg_done w) ms.
Proof.
  induction ms as [|m ms IH]; [done|]. simpl. rewrite IH. unfold msg_done. by destruct (msgs (w_store w) !! m).
Qed.

Lemma answer_waits w c x ms :
  w_conns w !! c = Some x -> c_opened x = true -> pending w x ms -> ms <> [] -> forallb (msg_done w) ms = false ->
  answer w c = Ok (false, w).
Proof.
  intros Hx Hopen (q & Hq & Hrepr) Hne Hall. unfold answer. rewrite (get_conn_Ok _ _ _ Hx), res_bind_Ok, Hopen, Hq.
  cbn [negb the_queue]. rewrite res_bind_Ok. unfold Queue_Empty. rewrite (qr_count _ _ _ Hrepr).
  replace (len ms <? 1) with false by (destruct ms; [done|]; rewrite len_cons; pose proof (len_nonneg ms); lia).
  by rewrite (AllDone_spec _ _ _ Hrepr), res_bind_Ok, (forallb_done w), Hall.
Qed.

End lists.

(** ** Whole batches *)
Section batches.
Context `{BytePool} `{Env} {T : Type} `{LLRB T} `{HashMap ClusterNode} `{!ConnHandler T} (opts : Options).
Implicit Types w : World T.

(** The batch of requests is handed over: the connection is open, nothing is queued
    and the requests wait for their replies; its outgoing bytes are [out]. *)
Record handed_over w (c : cid) (x : conn) (waiting : list fid) (out : bytes) : Prop := {
  ho_writable : writable w c x;
  ho_queue : outgoing_queue w x [] waiting;
  ho_bytes : outgoing w x = out;
}.

Lemma handed_over_took w c x waiting out d w' :
  handed_over w c x waiting out -> took w c x d w' ->
  exists b, handed_over w' c (set_outbound x b) waiting (out ++ d).
Proof.
  intros [Hwr Hoq <-] Htk. destruct (took_next _ _ _ _ _ Hwr Htk) as (b & Hwr' & Ho & Hc). exists b.
  split; [done| |done]. destruct Hoq as [? ? ?]. rewrite Ho. by split.
Qed.

Lemma resent_len (bs : list bytes) k again : resent bs k again -> len (concat again) <= len (concat bs).
Proof.
  intros (k0 & _ & Hag).
  assert (len (concat again) <= len (concat (drop k0 (take k bs)))) as Hle.
  { induction Hag as [|a b l l' [p ->] _ IH]; [done|]. simpl. rewrite !len_app. pose proof (len_nonneg p). lia. }
  etrans; [exact Hle|]. rewrite <- (take_drop k bs) at 2. rewrite <- (take_drop k0 (take k bs)) at 2.
  rewrite !concat_app, !len_app. pose proof (len_nonneg (concat (take k0 (take k bs)))).
  pose proof (len_nonneg (concat (drop k bs))). lia.
Qed.

(** The writes of a batch that was handed over up to its bytes. *)
Lemma write_batch w c x waiting out bs :
  handed_over w c x waiting out -> Forall (fun b => b <> []) bs -> len out + 2 * len (concat bs) <= 2 ^ 57 ->
  let write := ('(_, bs, w) ← writev_chunks (S (length bs)) w c bs; '(_, err, w) ← writev w c bs; Ok (err, w)) in
  (exists w' x', write = Ok (None, w') /\ handed_over w' c x' waiting (out ++ concat bs)) \/
  (exists w1 x1 k again w' x', refused w1 (c_fd x) /\ resent bs k again /\
     handed_over w1 c x1 waiting (out ++ concat (take k bs)) /\
     write = ('(_, err, w2) ← writev w1 c (again ++ drop k bs); Ok (err, w2)) /\
     write = Ok (None, w') /\
     handed_over w' c x' waiting (out ++ concat (take k bs) ++ concat again ++ concat (drop k bs))) \/
  (exists w1 x1 k m errno, write_failed w1 (c_fd x) (take m (drop k bs)) errno /\
     handed_over w1 c x1 waiting (out ++ concat (take k bs)) /\
     write = ('(_, w2) ← closeConn w1 c (Some (ESys errno)) ConnErr;
              '(_, err, w3) ← writev w2 c (drop k bs); Ok (err, w3))).
Proof.
  intros Hho Hall Hb. pose proof (len_nonneg (concat bs)). pose proof Hho as [Hwr _ Ho]. cbv zeta.
  assert (forall k, len (concat (take k bs)) + len (concat (drop k bs)) = len (concat bs)) as Hcat.
  { intros k. by rewrite <- len_app, <- concat_app, take_drop. }
  destruct (writev_chunks_outcome (S (length bs)) w c x bs Hwr) as [w1 Htk|e w1 k again Htk Hr Hbuf Hag|w1 k m errno Htk Hf];
    [rewrite Ho; lia|lia|..].
  - left. destruct (handed_over_took _ _ _ _ _ _ _ Hho Htk) as (b & Hho1). pose proof (ho_bytes _ _ _ _ _ Hho1) as Hout.
    destruct (writev_appends w1 c (set_outbound x b) []) as (n & w2 & Hwv & Htk2); [apply Hho1|by right| |].
    { rewrite Hout, len_app. change (len (concat (@nil bytes))) with 0. lia. }
    destruct (handed_over_took _ _ _ _ _ _ _ Hho1 Htk2) as (b2 & Hho2). rewrite app_nil_r in Hho2.
    rewrite res_bind_Ok, Hwv, res_bind_Ok. by eexists _, _.
  - right. left. destruct (handed_over_took _ _ _ _ _ _ _ Hho Htk) as (b & Hho1).
    pose proof (ho_bytes _ _ _ _ _ Hho1) as Hout. pose proof (resent_len _ _ _ Hag). specialize (Hcat k).
    pose proof (len_nonneg (concat (drop k bs))).
    destruct (writev_appends w1 c (set_outbound x b) (again ++ drop k bs)) as (n & w2 & Hwv & Htk2);
      [apply Hho1|left; by apply Hbuf| |]. { rewrite Hout, concat_app, !len_app. lia. }
    destruct (handed_over_took _ _ _ _ _ _ _ Hho1 Htk2) as (b2 & Hho2). rewrite concat_app, <- !app_assoc in Hho2.
    rewrite res_bind_Ok. eexists w1, _, k, again, w2, _. split_and!; [done|done|exact Hho1|done|by rewrite Hwv|exact Hho2].
  - right. right. destruct (handed_over_took _ _ _ _ _ _ _ Hho Htk) as (b & Hho1).
    eexists w1, _, k, m, errno. split; [done|]. split; [exact Hho1|].
    by destruct (closeConn w1 c (Some (ESys errno)) ConnErr) as [[rerr w2]| |].
Qed.

(** C3: the write signal of a server connection takes all the queued requests, in
    one batch, to the fragments that wait for replies, in the order in which they
    were queued.  Then, whatever part of the batch the kernel takes at each write,
    all their bytes follow the earlier ones in that order, with two exceptions.
    When the kernel refuses to watch the socket for writability after it took the
    requests up to [k] in part, the slices of that chunk are sent a second time in
    front of the others; when a write fails for good, the connection is closed
    after the bytes of the first [k] requests, and one more write follows, to the
    closed connection. *)
Theorem handleWriteSignal_in_order w c x fs gs (Hwr : writable w c x) (Hoq : outgoing_queue w x fs gs)
    (Hne : fs <> []) (Hreq : Forall (fun f => req_of w f <> []) fs)
    (Hb : len (outgoing w x) + 2 * len (concat (map (req_of w) fs)) <= 2 ^ 57) :
  let bs := map (req_of w) fs in
  (exists w' x', handleWriteSignal opts w c = Ok (None, w') /\
     handed_over w' c x' (gs ++ fs) (outgoing w x ++ concat bs)) \/
  (exists w1 x1 k again w' x', refused w1 (c_fd x) /\ resent bs k again /\
     handed_over w1 c x1 (gs ++ fs) (outgoing w x ++ concat (take k bs)) /\
     handleWriteSignal opts w c = ('(_, err, w2) ← writev w1 c (again ++ drop k bs); Ok (err, w2)) /\
     handleWriteSignal opts w c = Ok (None, w') /\
     handed_over w' c x' (gs ++ fs) (outgoing w x ++ concat (take k bs) ++ concat again ++ concat (drop k bs))) \/
  (exists w1 x1 k m errno, write_failed w1 (c_fd x) (take m (drop k bs)) errno /\
     handed_over w1 c x1 (gs ++ fs) (outgoing w x ++ concat (take k bs)) /\
     handleWriteSignal opts w c =
       ('(_, w2) ← closeConn w1 c (Some (ESys errno)) ConnErr;
        '(_, err, w3) ← writev w2 c (drop k bs);
        Ok (err, w3))).
Proof.
  intros bs. pose proof Hwr as [Hx Hopen Hatt Ht Hs]. unfold handleWriteSignal.
  rewrite (get_conn_Ok _ _ _ Hx), res_bind_Ok, Hopen. cbn [negb].
  pose proof Hoq as [(q & Hq & Hrepr) _ _]. rewrite Hq, (qr_count _ _ _ Hrepr).
  destruct (len fs <? 1) eqn:E.
  { destruct fs as [|f fs]; [done|]. rewrite len_cons in E. pose proof (len_nonneg fs). lia. }
  destruct (take_out_spec opts (S (Z.to_nat (len fs))) w c x fs gs [] Hx Hoq) as (w1 & x1 & -> & Hrq & Hoq1);
    [unfold len; lia|]. rewrite res_bind_Ok, app_nil_l. fold bs in Hb |- *.
  pose proof (rq_conn _ _ _ _ _ Hrq) as (qi & qo & ->). set (x1 := set_queues _ _ _ _) in *.
  assert (writable w1 c x1) as Hwr1 by (split; [by eapply requeued_at|done..]).
  apply (write_batch w1 c x1).
  - split; [done|done|]. unfold outgoing. by rewrite (rq_wire _ _ _ _ _ Hrq).
  - by apply Forall_map.
  - done.
Qed.

(** A closed connection is not opened by a write. *)
Definition closed w (c : cid) : Prop := exists x, w_conns w !! c = Some x /\ c_opened x = false.

Lemma put_closed w c x b : c_opened x = false -> closed (put_conn w c (set_outbound x b)) c.
Proof. intros Hx. exists (set_outbound x b). split; [simpl; apply lookup_insert_eq|done]. Qed.

Lemma out_Writev_closed w c bs w' : closed w c -> out_Writev w c bs = Ok w' -> closed w' c.
Proof.
  intros (x & Hx & Hcl). unfold out_Writev. rewrite (get_conn_Ok _ _ _ Hx), res_bind_Ok.
  destruct (ring_Get (w_env w)) as [e g]. intros ([n b] & _ & Hw)%res_bind_inv. simplify_eq.
  by apply (put_closed (with_env w e)).
Qed.

Lemma do_epoll_closed w o x c err w' : closed w c -> do_epoll w o x = Ok (err, w') -> closed w' c.
Proof. intros Hc. unfold do_epoll. case_if; [|done]. destruct (epoll_ctl _ _ _) as [e r]. by intros [= <- <-]. Qed.

Lemma writev_closed w c bs n err w' : closed w c -> writev w c bs = Ok (n, err, w') -> closed w' c.
Proof.
  intros Hc. pose proof Hc as (x & Hx & Hcl). unfold writev. rewrite (get_conn_Ok _ _ _ Hx), res_bind_Ok.
  destruct (Elastic.IsEmpty (c_outboundBuffer x)); cbn [negb].
  2:{ intros (w1 & Ho & Hw)%res_bind_inv. simplify_eq. by eapply out_Writev_closed. }
  destruct (io_Writev w (c_fd x) bs) as [[sent r] w1] eqn:Ew.
  assert (closed w1 c) as Hc1 by (destruct (io_Writev_spec _ _ _ _ _ _ Ew) as (-> & _); done).
  assert (forall l k, (w ← out_Writev w1 c l; '(err, w) ← do_epoll w ModReadWrite x; Ok (k, err, w)) = Ok (n, err, w') ->
    closed w' c) as Hbuf.
  { intros l k (w2 & Ho & Hw)%res_bind_inv. apply res_bind_inv in Hw as ([e w3] & Hep & Hw). simplify_eq.
    eapply do_epoll_closed; [|done]. by eapply out_Writev_closed. }
  destruct r as [errno|]; [|case_if; [by apply Hbuf|by intros [= <- <- <-]]].
  case_if; [by apply Hbuf|]. pose proof Hc1 as (x1 & Hx1 & Hcl1). unfold closeConn.
  rewrite (get_conn_Ok _ _ _ Hx1), res_bind_Ok, Hcl1. cbn [negb]. by intros [= <- <- <-].
Qed.

(** The end of an answer whose bytes were all taken. *)
Lemma answered w c x w1 ms d :
  writable w c x -> pending w x ms -> took w c x d w1 -> len (outgoing w x) + len d <= 2 ^ 57 ->
  exists w' x', ('(_, err, w) ← writev w1 c [];
      match err with
      | Some _ => Panic
      | None =>
          x ← get_conn w c;
          if negb (c_opened x) then Ok (false, w)
          else w ← release_msgs (S (Z.to_nat (len ms))) w c; Ok (true, w)
      end) = Ok (true, w') /\ writable w' c x' /\ pending w' x' [] /\ outgoing w' x' = outgoing w x ++ d /\
    pool (w_store w') = rev ms ++ pool (w_store w) /\ Forall (fun m => msgs (w_store w') !! m = Some zeroMsg) ms.
Proof.
  intros Hwr (q & Hq & Hrepr) Htk Hb. destruct (took_next _ _ _ _ _ Hwr Htk) as (b1 & Hwr1 & _ & Hc1).
  destruct (writev_appends w1 c (set_outbound x b1) [] Hwr1) as (n & w2 & -> & Htk2).
  { by right. } { rewrite Hc1, len_app. change (len (concat (@nil bytes))) with 0. lia. }
  pose proof (took_trans _ _ _ _ _ _ _ _ (wr_at _ _ _ Hwr1) Htk Htk2) as Htk3. rewrite app_nil_r in Htk3.
  destruct (took_next _ _ _ _ _ Hwr Htk3) as (b & Hwr2 & Ho & Hc). rewrite res_bind_Ok.
  rewrite (get_conn_Ok _ _ _ (wr_at _ _ _ Hwr2)), res_bind_Ok, (wr_open _ _ _ Hwr2). cbn [negb].
  assert (w_store w2 = w_store w) as Hst by (by rewrite Ho).
  destruct (release_msgs_spec (S (Z.to_nat (len ms))) w2 c (set_outbound x b) ms)
    as (w3 & q3 & -> & Hc3 & Hr3 & He3 & Hp3 & Hz3 & _);
    [apply Hwr2|exists q; by rewrite Hst|unfold len; lia|]. rewrite res_bind_Ok.
  eexists w3, _. split; [done|]. split; [split; [rewrite Hc3; apply lookup_insert_eq|apply Hwr2..]|].
  split; [by exists q3|]. split; [|split; [by rewrite Hp3, Hst|by apply Forall_forall]].
  unfold outgoing in *. by rewrite He3.
Qed.

(** C4: replies to a client.  Until the last of its pending requests is done
    nothing is written and nothing changes.  Then the replies of all of them are
    written in the order of the requests, each once and whole, the queue is empty
    afterwards and the messages go back to the pool cleared, with two exceptions.
    When the kernel refuses to watch the socket for writability after it took the
    replies up to [k] in part, the loop panics in the line that logs the error;
    when a write fails for good, the connection is closed after the replies of the
    first [k] requests, the others are written to the closed connection, and the
    loop panics if that or the closing reports an error. *)
Theorem answer_in_order w c x ms (Hwr : writable w c x) (Hp : pending w x ms) (Hne : ms <> [])
    (Hb : len (outgoing w x) + len (concat (map (rsp_of w) ms)) <= 2 ^ 57) :
  let bs := map (rsp_of w) ms in
  if forallb (msg_done w) ms then
    (exists w' x', answer w c = Ok (true, w') /\ writable w' c x' /\ pending w' x' [] /\
      outgoing w' x' = outgoing w x ++ concat bs /\
      pool (w_store w') = rev ms ++ pool (w_store w) /\
      Forall (fun m => msgs (w_store w') !! m = Some zeroMsg) ms) \/
    (exists w1 x1 k e rest, writev_chunks (S (length bs)) w c bs = Ok (Some e, rest, w1) /\ refused w1 (c_fd x) /\
      writable w1 c x1 /\ pending w1 x1 ms /\ outgoing w1 x1 = outgoing w x ++ concat (take k bs) /\
      answer w c = Panic) \/
    (exists w1 x1 k m errno, write_failed w1 (c_fd x) (take m (drop k bs)) errno /\
      writable w1 c x1 /\ pending w1 x1 ms /\ outgoing w1 x1 = outgoing w x ++ concat (take k bs) /\
      answer w c =
        ('(err, w2) ← closeConn w1 c (Some (ESys errno)) ConnErr;
         match err with
         | Some _ => Panic
         | None =>
             '(_, err, w3) ← writev w2 c (drop k bs);
             match err with Some _ => Panic | None => Ok (false, w3) end
         end))
  else answer w c = Ok (false, w).
Proof.
  intros bs. destruct (forallb (msg_done w) ms) eqn:Hall; [|by eapply answer_waits; [apply Hwr|apply Hwr|done..]].
  pose proof Hwr as [Hx Hopen Hatt Ht Hs]. pose proof Hp as (q & Hq & Hrepr). unfold answer.
  rewrite (get_conn_Ok _ _ _ Hx), res_bind_Ok, Hopen, Hq. cbn [negb the_queue]. rewrite res_bind_Ok.
  unfold Queue_Empty. rewrite (qr_count _ _ _ Hrepr).
  replace (len ms <? 1) with false by (destruct ms; [done|]; rewrite len_cons; pose proof (len_nonneg ms); lia).
  rewrite (AllDone_spec _ _ _ Hrepr), res_bind_Ok, (forallb_done w), Hall. cbn [negb].
  rewrite (collect_rsp_spec _ _ _ _ _ (qr_chain _ _ _ Hrepr)), res_bind_Ok by (unfold len; lia).
  fold (rsp_of w). fold bs.
  assert (forall w1 b, out_only w c x w1 b -> pending w1 (set_outbound x b) ms) as Hpend.
  { intros w1 b ->. by exists q. }
  destruct (writev_chunks_outcome (S (length bs)) w c x bs Hwr Hb)
    as [w1 Htk|e w1 k again Htk Hr Hbuf Hag|w1 k m errno Htk Hf]; [lia| | |];
    destruct (took_next _ _ _ _ _ Hwr Htk) as (b & Hwr1 & Ho & Hc).
  - left. rewrite res_bind_Ok. by apply (answered w c x w1).
  - right. left. by eexists w1, _, k, e, _; split_and!; [done|done|exact Hwr1|by apply Hpend|done|].
  - right. right. eexists w1, _, k, m, errno. split_and!; [done|exact Hwr1|by apply Hpend|done|].
    destruct (closeConn w1 c (Some (ESys errno)) ConnErr) as [[rerr w2]| |] eqn:Hcl; [|done..].
    rewrite !res_bind_Ok. destruct rerr; [done|].
    assert (closed w2 c) as Hc2 by (eapply closeConn_closed; [apply Hwr1|apply Hwr1|done]).
    destruct (writev w2 c (drop k bs)) as [[[n [e|]] w3]| |] eqn:Hwv; [done| |done..]. rewrite !res_bind_Ok.
    destruct (writev_closed _ _ _ _ _ _ Hc2 Hwv) as (x3 & Hx3 & Hcl3).
    by rewrite (get_conn_Ok _ _ _ Hx3), res_bind_Ok, Hcl3.
Qed.
End batches.

(** *** Samples *)

Definition sample_opts : Options := mkOptions 65536 65536 200 1048576 [] 1 true 100.

(** Three queued requests; the kernel takes five bytes of the batch, then none. *)
Definition req_frag (prev next : option fid) (req : bytes) : Frag := set_req (linked_frag prev next) req.
Definition req_store : Store :=
  mkStore ∅ {[ 1%positive := req_frag (Some 2%positive) None (str "first");
               2%positive := req_frag (Some 3%positive) (Some 1%positive) (str "second");
               3%positive := req_frag None (Some 2%positive) (str "third") ]} 0 3 [] 4%positive.
Definition queued_conn : conn :=
  set_queues server_conn (Some emptyQueue) (Some emptyQueue) (Some three_queue).
Definition queued_world := world_of (mkScript ∅ [Some 5; None] 0) {[ 1%positive := queued_conn ]} req_store.

Lemma req_repr : queue_repr three_queue (frags req_store) [1; 2; 3]%positive.
Proof.
  split; [|repeat constructor; set_solver|done|done]. simpl.
  repeat (split; [done|]; eexists; split; [done|]; split; [done|]). done.
Qed.

Lemma queued_writable : writable queued_world 1%positive queued_conn.
Proof. split; [done|done|done|by right|by apply (Elastic.solid_New 65536)]. Qed.

Lemma queued_queue : outgoing_queue queued_world queued_conn [1; 2; 3]%positive [].
Proof.
  split; [exists three_queue; split; [done|exact req_repr]|exists emptyQueue; split; [done|apply queue_repr_empty]|].
  intros f _ Hf. by apply elem_of_nil in Hf.
Qed.

(** The sample kernel takes bytes or asks to wait; it refuses no registration. *)
Definition sample_world : Type := @World script_env (list (Z * fid)) (gmap_HashMap ClusterNode).
Lemma script_never_refuses (w : sample_world) fd : ~ refused w fd.
Proof. intros (e & errno & [=]). Qed.
Lemma script_never_fails (w : sample_world) fd bs errno : ~ write_failed w fd bs errno.
Proof.
  intros [Hne (e & Hw)]. simpl in Hw. unfold script_write in Hw.
  destruct (s_plan e) as [|[k|] plan]; congruence.
Qed.

Lemma handleWriteSignal_in_order_witness :
  exists w' x', @handleWriteSignal empty_pool script_env _ _ _ quiet_handler sample_opts queued_world 1%positive = Ok (None, w') /\
    handed_over w' 1%positive x' [1; 2; 3]%positive (outgoing queued_world queued_conn ++ str "firstsecondthird").
Proof.
  destruct (@handleWriteSignal_in_order empty_pool script_env _ _ _ quiet_handler sample_opts queued_world 1%positive
           queued_conn [1; 2; 3]%positive []) as [HR|[HR|HR]].
  - exact queued_writable.
  - exact queued_queue.
  - discriminate.
  - repeat constructor; discriminate.
  - vm_compute. discriminate.
  - exact HR.
  - exfalso. destruct HR as (w1 & x1 & k & again & w' & x' & Hr & _). exact (script_never_refuses _ _ Hr).
  - exfalso. destruct HR as (w1 & x1 & k & m & errno & Hf & _). exact (script_never_fails _ _ _ _ Hf).
Defined.

(** Two requests of one client, both done. *)
Definition done_msg (prev next : option mid) (body : bytes) : Msg :=
  set_prev prev (set_next next (set_answer zeroMsg body [])).
Definition done_store : Store :=
  mkStore {[ 1%positive := done_msg (Some 2%positive) None (str "+OK" ++ crlf);
             2%positive := done_msg None (Some 1%positive) (str ":7" ++ crlf) ]} ∅ 2 0 [] 3%positive.
Definition two_queue : Queue := mkQueue (Some 2%positive) (Some 1%positive) 2.
Definition client_conn : conn := set_queues open_conn (Some two_queue) (Some emptyQueue) (Some emptyQueue).
Definition done_world := world_of (mkScript ∅ [Some 3] 0) {[ 1%positive := client_conn ]} done_store.

Lemma done_repr : queue_repr two_queue (msgs done_store) [1; 2]%positive.
Proof.
  split; [|repeat constructor; set_solver|done|done]. simpl.
  repeat (split; [done|]; eexists; split; [done|]; split; [done|]). done.
Qed.

Lemma answer_in_order_witness :
  exists w' x', @answer empty_pool script_env _ _ _ quiet_handler done_world 1%positive = Ok (true, w') /\
    writable w' 1%positive x' /\ pending w' x' [] /\
    outgoing w' x' = outgoing done_world client_conn ++ str "+OK" ++ crlf ++ str ":7" ++ crlf /\
    pool (w_store w') = [2; 1]%positive /\ Forall (fun m => msgs (w_store w') !! m = Some zeroMsg) [1; 2]%positive.
Proof.
  destruct (@answer_in_order empty_pool script_env _ _ _ quiet_handler done_world 1%positive client_conn [1; 2]%positive)
    as [HR|[HR|HR]].
  - split; [done|done|done|by left|by apply (Elastic.solid_New 65536)].
  - exists two_queue. split; [done|exact done_repr].
  - discriminate.
  - vm_compute. discriminate.
  - exact HR.
  - exfalso. destruct HR as (w1 & x1 & k & e & rest & _ & Hr & _). exact (script_never_refuses _ _ Hr).
  - exfalso. destruct HR as (w1 & x1 & k & m & errno & Hf & _). exact (script_never_fails _ _ _ _ Hf).
Defined.

(** The same kernel, except that it refuses to watch a file: every registration
    fails with [ENOMEM].  The batch of requests is then sent twice, and answering
    a client panics. *)
Definition refusing_env : Env := {|
  env := script;
  sys_write := @sys_write script_env;
  sys_writev := @sys_writev script_env;
  sys_read := @sys_read script_env;
  sys_close := @sys_close script_env;
  epoll_ctl e o fd := (e, Some 12);
  wake := @wake script_env;
  time_Now := @time_Now script_env;
  ring_Get := @ring_Get script_env;
  pool_choice := @pool_choice script_env;
  rand_Intn := @rand_Intn script_env;
  net_Dial := @net_Dial script_env;
  sys_accept := @sys_accept script_env;
  wire := @wire script_env;
  sys_write_spec := @sys_write_spec script_env;
  sys_writev_spec := @sys_writev_spec script_env;
  sys_writev_progress := @sys_writev_progress script_env;
  sys_read_wire := @sys_read_wire script_env;
  sys_close_wire := @sys_close_wire script_env;
  epoll_ctl_wire e o fd k := eq_refl;
  wake_wire := @wake_wire script_env;
  time_Now_wire := @time_Now_wire script_env;
  ring_Get_wire := @ring_Get_wire script_env;
  pool_choice_wire := @pool_choice_wire script_env;
  rand_Intn_wire := @rand_Intn_wire script_env;
  rand_Intn_range := @rand_Intn_range script_env;
  net_Dial_wire := @net_Dial_wire script_env;
  sys_accept_wire := @sys_accept_wire script_env;
  ring_Get_ok := @ring_Get_ok script_env;
|}.
Definition refusing_world (e : script) (cs : gmap cid conn) (s : Store) :
    @World refusing_env (list (Z * fid)) (gmap_HashMap ClusterNode) :=
  @mkWorld refusing_env (list (Z * fid)) (gmap_HashMap ClusterNode) e cs 9%positive s [] [] [] false ∅ 0 0 0 ∅ [] []
    no_nodes [].
Example refused_watch_resends :
  match @handleWriteSignal empty_pool refusing_env _ _ _ quiet_handler sample_opts
          (refusing_world (mkScript ∅ [Some 5; None] 0) {[ 1%positive := queued_conn ]} req_store) 1%positive with
  | Ok (None, w) => (outgoing w <$> w_conns w !! 1%positive) =
      Some (str "firstsecondthird" ++ str "firstsecondthird")
  | _ => False
  end.
Proof. vm_compute. reflexivity. Qed.

Example refused_watch_panics :
  @answer empty_pool refusing_env _ _ _ quiet_handler
    (refusing_world (mkScript ∅ [Some 3] 0) {[ 1%positive := client_conn ]} done_store) 1%positive = Panic.
Proof. vm_compute. reflexivity. Qed.
