(* ===== verification/Timeouts.v ===== *)
(** * Timeouts and unexpected replies

    Theorems about [msgTimeout] and [el_sread] of [EventLoop]: the loop over the
    timeout queue ends and fails what is due, what a late reply does, and an
    input on which the loop over replies never ends. *)

From S2P Require Import Prelude Errors Byteslice Ring LinkedList Elastic Commands Codec Message CodecC CodecS Pool Cluster World Conn EventLoop Pipelining.

(** ** A server that sends what the proxy does not expect *)
Section stuck.
Context `{BytePool} `{Env} {T : Type} `{LLRB T} `{HashMap ClusterNode} `{!ConnHandler T} `{!LoopHandler T}
  `{MapRange} (opts : Options).
Implicit Types w : World T.

(** The unread bytes [bs] start with a complete reply although no fragment of
    [fs] waits for one, or with a line that is not the start of a reply. *)
Definition unexpected (fs : list fid) (bs : bytes) : Prop :=
  (fs = [] /\ exists r rest, reply_ok r /\ bs = encode r ++ rest) \/
  (exists c l rest, bs = (c :: l) ++ crlf ++ rest /\ 10 ∉ l /\ c ∉ [10; 43; 58; 45; 36; 42]).

Lemma Decode_unexpected w s x fs :
  awaiting w s x fs -> unexpected fs (unread x) ->
  exists e, skips e = true /\
    CodecS.Decode w (fun w => DequeueInFrag w s) (unread x) = Ok (SDecoded None (Some e) 0 w).
Proof.
  intros [Hx Hr (q & Hq & Hrepr)] [(-> & r & rest & Hok & ->)|(c & l & rest & -> & Hl & Hc)]; unfold CodecS.Decode;
    rewrite NewBuffer_at.
  - exists (EReply ErrUnKnown). split; [done|]. unfold Empty. change (buf (at_ [] ?l)) with l.
    rewrite len_app. pose proof (encode_pos r). pose proof (len_nonneg rest). replace (_ <? 1) with false by lia.
    rewrite (readReply_frames r Hok) by (unfold reply_fuel; simpl; rewrite length_app; lia). rewrite res_bind_Ok.
    unfold DequeueInFrag. rewrite (get_conn_Ok _ _ _ Hx), res_bind_Ok, Hq. cbn [the_queue]. rewrite res_bind_Ok.
    pose proof (qr_chain _ _ _ Hrepr) as Hc. simpl in Hc. by rewrite Hc.
  - exists (ECodec ErrInvalidResp). split; [done|]. unfold Empty. change (buf (at_ [] ?l)) with l.
    rewrite !len_app, len_cons. pose proof (len_nonneg l). pose proof (len_nonneg crlf). pose proof (len_nonneg rest).
    replace (_ <? 1) with false by lia. rewrite !not_elem_of_cons in Hc.
    destruct Hc as (? & ? & ? & ? & ? & ? & _). unfold reply_fuel. rewrite readReply_line by done.
    repeat (rewrite (proj2 (Z.eqb_neq c _)) by done). done.
Qed.

(** When a server sends a line that is not the start of a reply, or a reply
    while no request waits for one, [sread] skips it without taking it from the
    buffer: the loop meets the same bytes again and never ends, with any amount
    of fuel, and no other connection is served again. *)
Theorem sread_spins w s x fs (Ha : awaiting w s x fs) (Hi : c_initStatus x = Initialized)
    (Hu : unexpected fs (unread x)) (fuel : nat) : el_sread opts fuel w s = OutOfFuel.
Proof.
  assert (exists e, skips e = true /\ conn_sread opts w s = Ok (None, Some e, w)) as (e & He & Hs).
  { destruct (Decode_unexpected w s x fs Ha Hu) as (e & He & Hd). exists e. split; [done|].
    unfold conn_sread. rewrite (get_conn_Ok _ _ _ (aw_at _ _ _ _ Ha)), res_bind_Ok, Hi.
    rewrite bool_decide_false, res_bind_Ok by done. unfold sdecode.
    rewrite (get_conn_Ok _ _ _ (aw_at _ _ _ _ Ha)), res_bind_Ok, conn_Peek_all, res_bind_Ok by apply Ha. by rewrite Hd. }
  induction fuel as [|fuel IH]; [done|]. cbn [el_sread]. rewrite Hs, res_bind_Ok, He. exact IH.
Qed.
End stuck.

(** ** Timeouts *)
Section timeouts.
Context `{BytePool} `{Env} {T : Type} `{LLRB T} `{HashMap ClusterNode} `{!ConnHandler T} `{MapRange} (opts : Options).
Implicit Types w : World T.

(** What [msgTimeout] relies on in a fragment of the timeout queue. *)
Definition timed w (k : Z) (f : fid) : Prop :=
  exists y m msg, frags (w_store w) !! f = Some y /\ f_Timeout y = k /\
    f_Peer y = Some m /\ msgs (w_store w) !! m = Some msg /\
    (forall g, g ∈ (range (m_Body msg)).*2 -> is_Some (frags (w_store w) !! g)) /\
    f ∈ (range (m_Body msg)).*2 /\
    (forall c, f_Owner y = Some c -> is_Some (w_conns w !! c)).

Record timeouts_ok w : Prop := {
  to_timed : forall k f, (k, f) ∈ items (w_timeouts w) -> timed w k f;
  to_keys : NoDup (items (w_timeouts w)).*1;
}.

Definition frag_done w (f : fid) : bool := default false (f_Done <$> frags (w_store w) !! f).

(** Failing fragments: a fragment keeps everything but its error and is done
    afterwards if it was or if it is one of [fs]. *)
Definition fate (f : Frag) : option cid * option mid * Z := (f_Owner f, f_Peer f, f_Timeout f).

Lemma fail_frags_spec s fs :
  (forall g, g ∈ fs -> is_Some (frags s !! g)) ->
  exists s', fail_frags s fs = Ok s' /\ msgs s' = msgs s /\
    (forall k, fate <$> frags s' !! k = fate <$> frags s !! k) /\
    (forall k, f_Done <$> frags s' !! k =
       (fun y => f_Done y || bool_decide (k ∈ fs)) <$> frags s !! k).
Proof.
  revert s. induction fs as [|f fs IH]; intros s Hfs; cbn [fail_frags].
  { exists s. split_and!; [done|done|done|]. intros k. destruct (frags s !! k); [|done].
    unfold fmap, option_fmap, option_map. by rewrite bool_decide_false, orb_false_r by set_solver. }
  destruct (Hfs f) as [x Hx]; [by left|]. rewrite (get_frag_Ok _ _ _ Hx), res_bind_Ok.
  set (s1 := if f_Done x then s else _).
  assert (forall k, fate <$> frags s1 !! k = fate <$> frags s !! k) as Hf1.
  { intros k. subst s1. destruct (f_Done x); [done|]. simpl.
    destruct (decide (k = f)) as [->|]; [by rewrite lookup_insert_eq, Hx|by rewrite lookup_insert_ne]. }
  assert (forall k, f_Done <$> frags s1 !! k = (fun y => f_Done y || bool_decide (k = f)) <$> frags s !! k) as Hd1.
  { intros k. subst s1. destruct (decide (k = f)) as [->|Hne].
    - rewrite Hx. unfold fmap, option_fmap, option_map. rewrite bool_decide_true, orb_true_r by done.
      destruct (f_Done x) eqn:E; [by rewrite Hx, E|]. simpl. by rewrite lookup_insert_eq.
    - rewrite bool_decide_false by done. destruct (f_Done x); simpl; rewrite ?lookup_insert_ne by done;
        destruct (frags s !! k); simpl; by rewrite ?orb_false_r. }
  destruct (IH s1) as (s' & -> & Hm & Hf & Hd).
  { intros g Hg. destruct (Hfs g) as [y Hy]; [by right|]. specialize (Hf1 g). rewrite Hy in Hf1.
    destruct (frags s1 !! g); [by eexists|done]. }
  exists s'. split; [done|]. split; [rewrite Hm; subst s1; by destruct (f_Done x)|]. split.
  - intros k. by rewrite Hf, Hf1.
  - intros k. rewrite Hd. specialize (Hd1 k). destruct (frags s1 !! k) as [y|], (frags s !! k) as [z|]; try done.
    unfold fmap, option_fmap, option_map in *. injection Hd1 as Hd1. f_equal. rewrite Hd1, <- orb_assoc. f_equal.
    repeat case_bool_decide; set_solver.
Qed.

(** How the timeouts change the state: connections and queues stay, fragments
    only become done, no message does, and errors are queued for the clients. *)
Definition msg_part (x : Msg) := (links x, m_Body x, m_Done x).
Definition timeout_error (t : task) : Prop := exists c, t = TAsyncWrite c ErrMsgRequestTimeout.

Record expired w w' : Prop := {
  ex_conns : w_conns w' = w_conns w;
  ex_fate : forall k, fate <$> frags (w_store w') !! k = fate <$> frags (w_store w) !! k;
  ex_done : forall k, frag_done w k = true -> frag_done w' k = true;
  ex_msgs : forall m, msg_part <$> msgs (w_store w') !! m = msg_part <$> msgs (w_store w) !! m;
  ex_tasks : exists errs, w_tasks w' = w_tasks w ++ errs /\ Forall timeout_error errs;
}.

Lemma expired_trans w1 w2 w3 : expired w1 w2 -> expired w2 w3 -> expired w1 w3.
Proof.
  intros [Hc1 Hf1 Hd1 Hm1 (e1 & Ht1 & He1)] [Hc2 Hf2 Hd2 Hm2 (e2 & Ht2 & He2)]. split; [congruence| |eauto| |].
  - intros k. by rewrite Hf2.
  - intros k. by rewrite Hm2.
  - exists (e1 ++ e2). rewrite Ht2, Ht1, <- app_assoc. split; [done|by apply Forall_app].
Qed.

(** Steps that touch neither connections, store nor tasks. *)
Lemma expired_same w w' :
  w_conns w' = w_conns w -> w_store w' = w_store w -> w_tasks w' = w_tasks w -> expired w w'.
Proof.
  intros Hc Hs Ht. split; [done|by rewrite Hs|unfold frag_done; by rewrite Hs|by rewrite Hs|].
  exists []. by rewrite app_nil_r.
Qed.

Lemma timed_expired w w' k f : expired w w' -> timed w k f -> timed w' k f.
Proof.
  intros [Hc Hf _ Hm _] (y & m & msg & Hy & Hk & Hp & Hmsg & Hbody & Hin & Hown).
  pose proof (Hf f) as Hff. rewrite Hy in Hff. destruct (frags (w_store w') !! f) as [y'|] eqn:Hy'; [|done].
  injection Hff as Ho' Hp' Hk'. pose proof (Hm m) as Hmm. rewrite Hmsg in Hmm.
  destruct (msgs (w_store w') !! m) as [msg'|] eqn:Hmsg'; [|done]. injection Hmm as _ _ Hb' _.
  exists y', m, msg'. rewrite Hb', Hk', Hp', Ho', Hc. split_and!; try done.
  intros g Hg. destruct (Hbody g Hg) as [z Hz]. pose proof (Hf g) as Hfg. rewrite Hz in Hfg.
  destruct (frags (w_store w') !! g); [by eexists|done].
Qed.

(** From one state of the outside to a later one, as the clock is read and the poller woken. *)
Definition during : relation env := rtc (fun e e' => e' = (time_Now e).1 \/ e' = (wake e).1).

Lemma AsyncWrite_expired w c :
  expired w (AsyncWrite w c ErrMsgRequestTimeout).2 /\
  w_timeouts (AsyncWrite w c ErrMsgRequestTimeout).2 = w_timeouts w /\
  during (w_env w) (w_env (AsyncWrite w c ErrMsgRequestTimeout).2) /\
  w_store (AsyncWrite w c ErrMsgRequestTimeout).2 = w_store w /\
  w_tasks (AsyncWrite w c ErrMsgRequestTimeout).2 = w_tasks w ++ [TAsyncWrite c ErrMsgRequestTimeout].
Proof.
  unfold AsyncWrite, Trigger, wake_up. cbn [w_wakeup with_tasks].
  assert (forall w', w_conns w' = w_conns w -> w_store w' = w_store w ->
    w_tasks w' = w_tasks w ++ [TAsyncWrite c ErrMsgRequestTimeout] -> expired w w') as Hex.
  { intros w' Hc Hs Ht. split; [done|by rewrite Hs|unfold frag_done; by rewrite Hs|by rewrite Hs|].
    eexists. split; [exact Ht|]. constructor; [by exists c|constructor]. }
  destruct (w_wakeup w); [split_and!; [by apply Hex|done|apply rtc_refl|done..]|]. cbn [w_env].
  destruct (wake (w_env _)) as [e r] eqn:Ew. cbn. split_and!; [by apply Hex|done| |done..].
  apply rtc_once. right. cbn in Ew. by rewrite Ew.
Qed.

(** At an instant of the call the clock showed [k] or later. *)
Definition due w w' (k : Z) : Prop :=
  exists e e1 t, time_Now e = (e1, t) /\ k <= t /\ during (w_env w) e /\ during e1 (w_env w').

(** [g] is a fragment of the request of [f]. *)
Definition sibling w (f g : fid) : Prop :=
  exists y m msg, frags (w_store w) !! f = Some y /\ f_Peer y = Some m /\ msgs (w_store w) !! m = Some msg /\
    g ∈ (range (m_Body msg)).*2.

(** What a run that takes the entries [ts] from the timeout queue does: they are done; a
    fragment that was not done has failed only because a fragment of its request was
    among them and due; and only owners of such fragments get the error. *)
Record fails w w' (ts : list (Z * fid)) : Prop := {
  fl_expired : expired w w';
  fl_during : during (w_env w) (w_env w');
  fl_done : Forall (fun kf => frag_done w' kf.2 = true) ts;
  fl_failed : forall g, frag_done w g = false -> frag_done w' g = true ->
    exists k f, (k, f) ∈ ts /\ frag_done w f = false /\ due w w' k /\ sibling w f g;
  fl_errors : exists errs, w_tasks w' = w_tasks w ++ errs /\
    Forall (fun t => exists k f y c, (k, f) ∈ ts /\ frag_done w f = false /\ due w w' k /\
      frags (w_store w) !! f = Some y /\ f_Owner y = Some c /\ t = TAsyncWrite c ErrMsgRequestTimeout) errs;
}.

Lemma due_wider w w1 w2 w3 k : during (w_env w) (w_env w1) -> during (w_env w2) (w_env w3) -> due w1 w2 k -> due w w3 k.
Proof.
  intros Hw1 Hw2 (e & e1 & t & Ht & Hk & Ha & Hb). exists e, e1, t. split_and!; [done|done|by etrans|by etrans].
Qed.

Lemma sibling_expired w w1 f g : expired w w1 -> sibling w1 f g -> sibling w f g.
Proof.
  intros [_ Hf _ Hm _] (y & m & msg & Hy & Hp & Hmsg & Hg).
  pose proof (Hf f) as Hff. rewrite Hy in Hff. destruct (frags (w_store w) !! f) as [y0|] eqn:Hy0; [|done].
  injection Hff as _ Hp' _. pose proof (Hm m) as Hmm. rewrite Hmsg in Hmm.
  destruct (msgs (w_store w) !! m) as [msg0|] eqn:Hmsg0; [|done]. injection Hmm as _ _ Hb _.
  exists y0, m, msg0. rewrite <- Hb. split_and!; [done|congruence|done|done].
Qed.

Lemma not_done_before w w1 k : expired w w1 -> frag_done w1 k = false -> frag_done w k = false.
Proof. intros He Hd. destruct (frag_done w k) eqn:E; [|done]. apply (ex_done _ _ He) in E. congruence. Qed.

Lemma fails_trans w w1 w2 ts us : fails w w1 ts -> fails w1 w2 us -> fails w w2 (ts ++ us).
Proof.
  intros [He1 Hd1 Ht1 Hf1 (errs1 & Hw1 & Hr1)] [He2 Hd2 Ht2 Hf2 (errs2 & Hw2 & Hr2)].
  assert (forall k, due w w1 k -> due w w2 k) as Hl by (intros k; by apply due_wider).
  assert (forall k, due w1 w2 k -> due w w2 k) as Hr by (intros k; by apply due_wider).
  split; [by eapply expired_trans|by etrans|apply Forall_app; split; [|done]| |].
  - eapply Forall_impl; [exact Ht1|]. intros [k f]. apply He2.
  - intros g Hg Hg2. destruct (frag_done w1 g) eqn:E.
    + destruct (Hf1 g Hg E) as (k & f & Hin & Hn & Hk & Hs). exists k, f. split_and!; [set_solver|done|auto|done].
    + destruct (Hf2 g E Hg2) as (k & f & Hin & Hn & Hk & Hs). exists k, f.
      split_and!; [set_solver|by eapply not_done_before|auto|by eapply sibling_expired].
  - exists (errs1 ++ errs2). rewrite Hw2, Hw1, <- app_assoc. split; [done|]. apply Forall_app. split.
    + eapply Forall_impl; [exact Hr1|]. intros t (k & f & y & c & Hin & Hn & Hk & Hy & Ho & ->).
      exists k, f, y, c. split_and!; [set_solver|done|auto|done..].
    + eapply Forall_impl; [exact Hr2|]. intros t (k & f & y & c & Hin & Hn & Hk & Hy & Ho & ->).
      pose proof (ex_fate _ _ He1 f) as Hff. rewrite Hy in Hff.
      destruct (frags (w_store w) !! f) as [y0|] eqn:Hy0; [|done]. injection Hff as Ho' _ _.
      exists k, f, y0, c. split_and!; [set_solver|by eapply not_done_before|auto|done|congruence|done].
Qed.

(** Failing the fragments of one message. *)
Lemma fail_message w t m msg f :
  msgs (w_store w) !! m = Some msg ->
  (forall g, g ∈ (range (m_Body msg)).*2 -> is_Some (frags (w_store w) !! g)) -> f ∈ (range (m_Body msg)).*2 ->
  exists s, fail_frags (w_store w) ((range (m_Body msg)).*2) = Ok s /\
    let w' := with_store (with_timeouts w t) (put_msg s m (set_merror msg ErrMsgRequestTimeout)) in
    expired w w' /\ frag_done w' f = true /\
    forall g, frag_done w g = false -> frag_done w' g = true -> g ∈ (range (m_Body msg)).*2.
Proof.
  intros Hm Hb Hf. destruct (fail_frags_spec (w_store w) _ Hb) as (s & -> & Hms & Hfate & Hdone).
  exists s. split; [done|]. split.
  - split; [done|done| | |exists []; by rewrite app_nil_r].
    + intros k Hk. unfold frag_done in *. simpl. rewrite Hdone.
      destruct (frags (w_store w) !! k) as [y|]; [|done]. simpl in *. by rewrite Hk.
    + intros k. simpl. rewrite Hms. destruct (decide (k = m)) as [->|]; [by rewrite lookup_insert_eq, Hm|by rewrite lookup_insert_ne].
  - unfold frag_done. simpl. split.
    + rewrite Hdone. destruct (Hb f Hf) as [y Hy]. rewrite Hy.
      unfold fmap, option_fmap, option_map. cbn [default]. rewrite bool_decide_true by done. apply orb_true_r.
    + intros g. rewrite Hdone. destruct (frags (w_store w) !! g) as [y|]; simpl; [|done]. intros ->. simpl.
      apply bool_decide_eq_true.
Qed.

Lemma delete_min (t : T) k f l :
  items t = (k, f) :: l -> NoDup (items t).*1 -> items (tree_Delete t k) = l.
Proof.
  intros Hi Hnd. rewrite tree_Delete_items, Hi, filter_cons_False by (simpl; naive_solver).
  rewrite Hi in Hnd. simpl in Hnd. apply NoDup_cons in Hnd as [Hk _].
  clear -Hk. induction l as [|[k' f'] l IH]; [done|]. simpl in Hk. apply not_elem_of_cons in Hk as [Hne Hk].
  rewrite filter_cons_True by (simpl; congruence). by rewrite IH.
Qed.

Lemma timeouts_ok_next w w' kf l :
  timeouts_ok w -> items (w_timeouts w) = kf :: l -> expired w w' -> items (w_timeouts w') = l -> timeouts_ok w'.
Proof.
  intros [Ht Hk] Hi He Hi'. split.
  - intros k f Hin. eapply timed_expired; [done|]. apply Ht. rewrite Hi. right. by rewrite <- Hi'.
  - rewrite Hi'. rewrite Hi in Hk. simpl in Hk. by apply NoDup_cons in Hk as [_ ?].
Qed.

(** Where the loop stops: the queue is empty, or its first fragment is not done
    and was not due when the clock was read last. *)
Definition not_due w : Prop :=
  match items (w_timeouts w) with
  | [] => True
  | (k, f) :: _ => frag_done w f = false /\ exists e t, time_Now e = (w_env w, t) /\ t < k
  end.

Lemma fails_nothing w w' ts :
  expired w w' -> during (w_env w) (w_env w') -> (forall g, frag_done w' g = frag_done w g) -> w_tasks w' = w_tasks w ->
  Forall (fun kf => frag_done w kf.2 = true) ts -> fails w w' ts.
Proof.
  intros He Hd Hg Ht Hts. split; [done|done| | |exists []; by rewrite app_nil_r].
  - eapply Forall_impl; [exact Hts|]. intros kf. by rewrite Hg.
  - intros g H1' H2'. rewrite Hg in H2'. congruence.
Qed.

(** One due fragment: its request fails, and its owner, if it is there, gets the error. *)
Lemma fail_one w e t k f y m msg s :
  time_Now (w_env w) = (e, t) -> k <= t -> frags (w_store w) !! f = Some y -> f_Done y = false -> f_Peer y = Some m ->
  msgs (w_store w) !! m = Some msg ->
  let w1 := with_store (with_timeouts (with_env w e) (tree_Delete (w_timeouts w) k)) (put_msg s m (set_merror msg ErrMsgRequestTimeout)) in
  expired w w1 -> frag_done w1 f = true ->
  (forall g, frag_done w g = false -> frag_done w1 g = true -> g ∈ (range (m_Body msg)).*2) ->
  fails w w1 [(k, f)] /\
  forall c, f_Owner y = Some c -> fails w (AsyncWrite w1 c ErrMsgRequestTimeout).2 [(k, f)].
Proof.
  intros Et Hk Hy Hdone Hp Hm w1 He Hd Hg.
  assert (frag_done w f = false) as Hnd by (unfold frag_done; rewrite Hy; done).
  assert (during (w_env w) e) as Hwe by (apply rtc_once; left; by rewrite Et).
  assert (forall w', expired w w' -> during e (w_env w') -> w_store w' = w_store w1 -> forall errs, w_tasks w' = w_tasks w ++ errs ->
    Forall (fun t => exists c, f_Owner y = Some c /\ t = TAsyncWrite c ErrMsgRequestTimeout) errs -> fails w w' [(k, f)]) as Hfail.
  { intros w' He' Hd' Hs errs Ht Herr.
    assert (due w w' k) as Hdue by (exists (w_env w), e, t; split_and!; [done|done|apply rtc_refl|done]).
    assert (forall g, frag_done w' g = frag_done w1 g) as Hsame by (intros g; unfold frag_done; by rewrite Hs).
    split; [done|by etrans| | |].
    - repeat constructor. cbn. by rewrite Hsame.
    - intros g Hg1 Hg2. rewrite Hsame in Hg2. exists k, f. split_and!; [set_solver|done|done|].
      exists y, m, msg. split_and!; [done..|]. by apply Hg.
    - exists errs. split; [done|]. eapply Forall_impl; [exact Herr|]. intros tk (c & Ho & ->).
      exists k, f, y, c. split_and!; [set_solver|done..]. }
  split; [apply (Hfail w1 He (rtc_refl _ _) eq_refl []); [by rewrite app_nil_r|constructor]|].
  intros c Ho. destruct (AsyncWrite_expired w1 c) as (Ha1 & _ & Ha3 & Ha4 & Ha5).
  apply (Hfail _ (expired_trans _ _ _ He Ha1) Ha3 Ha4 [TAsyncWrite c ErrMsgRequestTimeout] Ha5).
  constructor; [by exists c|constructor].
Qed.

Lemma msgTimeout_spec fuel w :
  timeouts_ok w -> (length (items (w_timeouts w)) < fuel)%nat ->
  exists w' n, msgTimeout fuel w = Ok w' /\ fails w w' (take n (items (w_timeouts w))) /\
    items (w_timeouts w') = drop n (items (w_timeouts w)) /\ not_due w'.
Proof.
  revert w. induction fuel as [|fuel IH]; intros w Hok Hf; [lia|]. cbn [msgTimeout].
  unfold getFromTimeoutQueue. rewrite tree_Min_items.
  destruct (items (w_timeouts w)) as [|[k f] l] eqn:Hi; cbn [hd_error fmap option_fmap option_map snd].
  { exists w, 0%nat. split; [done|]. split; [by apply fails_nothing; [apply expired_same|apply rtc_refl|..]|]. split; [done|].
    unfold not_due. by rewrite Hi. }
  destruct (to_timed w Hok k f) as (y & m & msg & Hy & Hk & Hp & Hm & Hb & Hin & Hown); [rewrite Hi; left|].
  rewrite (get_frag_Ok _ _ _ Hy), res_bind_Ok. unfold deleteFromTimeoutQueue.
  rewrite (get_frag_Ok _ _ _ Hy), !res_bind_Ok, Hk.
  pose proof (delete_min _ _ _ _ Hi (to_keys w Hok)) as Hdel.
  (* the rounds that remove the first fragment *)
  assert (forall w1, fails w w1 [(k, f)] -> items (w_timeouts w1) = l ->
    exists w' n, msgTimeout fuel w1 = Ok w' /\ fails w w' (take n ((k, f) :: l)) /\
      items (w_timeouts w') = drop n ((k, f) :: l) /\ not_due w') as Hround.
  { intros w1 He1 Hi1. destruct (IH w1) as (w2 & n & -> & He2 & Hi2 & Hstop).
    - eapply timeouts_ok_next; [done|done|apply He1|done].
    - rewrite Hi1. simpl in Hf. lia.
    - exists w2, (S n). split; [done|]. rewrite Hi1 in Hi2, He2. split; [|done].
      apply (fails_trans _ _ _ [(k, f)] _ He1 He2). }
  destruct (f_Done y) eqn:Hdone.
  { apply Hround; [|done]. apply fails_nothing; [by apply expired_same|apply rtc_refl|done|done|].
    repeat constructor. unfold frag_done. simpl. by rewrite Hy. }
  unfold now. destruct (time_Now (w_env w)) as [e t] eqn:Et. destruct (t <? k) eqn:Edue.
  { exists (with_env w e), 0%nat. split; [done|]. split; [|split; [by simpl|]].
    - apply fails_nothing; [by apply expired_same| |done|done|constructor]. apply rtc_once. left. simpl. by rewrite Et.
    - unfold not_due. simpl. rewrite Hi. split; [unfold frag_done; simpl; by rewrite Hy|].
      exists (w_env w), t. split; [done|lia]. }
  rewrite Hp. cbn [deref]. rewrite res_bind_Ok. cbn [w_store with_timeouts with_env].
  rewrite (get_msg_Ok _ _ _ Hm), res_bind_Ok.
  destruct (fail_message (with_env w e) (tree_Delete (w_timeouts w) k) m msg f Hm Hb Hin) as (s & Hs & He & Hd & Hg).
  cbn [w_store with_env] in Hs. rewrite Hs, res_bind_Ok. cbn [w_timeouts with_env].
  assert (expired w (with_store (with_timeouts (with_env w e) (tree_Delete (w_timeouts w) k))
    (put_msg s m (set_merror msg ErrMsgRequestTimeout)))) as He1
    by (eapply expired_trans; [by apply (expired_same w (with_env w e))|done]).
  destruct (fail_one w e t k f y m msg s Et ltac:(lia) Hy Hdone Hp Hm He1 Hd Hg) as [Hno Herr].
  set (w1 := with_store _ _) in *.
  destruct (f_Owner y) as [c|] eqn:Ho; [|by apply Hround].
  destruct (Hown c eq_refl) as [x Hx]. rewrite (get_conn_Ok w1 c x) by exact Hx. rewrite res_bind_Ok.
  destruct (negb (c_opened x)); [by apply Hround|]. destruct (AsyncWrite_expired w1 c) as (_ & Ha2 & _).
  apply Hround; [by apply Herr|by rewrite Ha2].
Qed.

(** C34: [msgTimeout] always ends and fails, in the order of their deadlines, the
    fragments that are due.  For a timeout queue that lists fragments under their
    deadlines, each in a request that exists: the
    first entries are taken and done; every fragment that failed in the call belongs to a request
    one of whose fragments was taken and not done, and its deadline had passed at an instant of the call;
    only the owners of such fragments get the timeout error; and it stops at a
    fragment that is not done and was not due.  No message becomes done by it. *)
Theorem msgTimeout_expires w (Hok : timeouts_ok w) :
  exists w' n, msgTimeout (S (length (items (w_timeouts w)))) w = Ok w' /\
    fails w w' (take n (items (w_timeouts w))) /\
    items (w_timeouts w') = drop n (items (w_timeouts w)) /\ not_due w'.
Proof. apply msgTimeout_spec; [done|lia]. Qed.

(** After its fragment timed out, a request is never answered: the late reply
    is read and dropped, no message changes, and so a client that waits for a
    request that is not done gets nothing, neither for this request nor for the
    ones pipelined with it. *)
Lemma late_reply_dropped w s x f fs r rest y o m c xc ms
    (Ha : awaiting w s x (f :: fs)) (Hi : c_initStatus x = Initialized) (Hr : reply_ok r)
    (Hu : unread x = encode r ++ rest) (Hy : frags (w_store w) !! f = Some y)
    (Ho : f_Owner y = Some o) (Hp : f_Peer y = Some m) (Hd : f_Done y = true)
    (Ht : type_of r <> RspMoved /\ type_of r <> RspAsk)
    (Hc : w_conns w !! c = Some xc) (Hcs : c <> s) (Hco : c_opened xc = true)
    (Hms : pending w xc ms) (Hne : ms <> []) (Hnd : forallb (msg_done w) ms = false) :
  exists w' x', conn_sread opts w s = Ok (None, Some (ECodec Continue), w') /\
    awaiting w' s x' fs /\ unread x' = rest /\ msgs (w_store w') = msgs (w_store w) /\
    answer w' c = Ok (false, w').
Proof.
  destruct (sdecode_spec w s x f fs r rest Ha Hr Hu)
    as (w' & x' & fr & Hs & Ha' & Hu' & Hfr & Hm & _ & Hcons & Hpay). simplify_eq.
  exists w', x'. assert (answer w' c = Ok (false, w')) as Hans.
  { apply (answer_waits w' c xc ms); [by rewrite Hcons|done| |done|].
    - destruct Hms as (q & Hq & Hrepr). exists q. by rewrite Hm.
    - rewrite <- Hnd. unfold msg_done. by rewrite Hm. }
  split; [|done]. specialize (Hpay f). rewrite bool_decide_true in Hpay by done.
  destruct (frags (w_store w') !! f) as [y'|] eqn:Hy'; [|done].
  assert (payload y' = payload (set_reply y (type_of r) (encode r))) as Hpy by (simpl in Hpay; congruence).
  unfold conn_sread. rewrite (get_conn_Ok _ _ _ (aw_at _ _ _ _ Ha)), res_bind_Ok, Hi, bool_decide_false by done.
  rewrite res_bind_Ok, Hs, res_bind_Ok, (get_frag_Ok _ _ _ Hy'), res_bind_Ok.
  assert (f_Owner y' = Some o) as -> by (rewrite <- Ho; exact (f_equal f_Owner Hpy)).
  assert (f_Peer y' = Some m) as -> by (rewrite <- Hp; exact (f_equal f_Peer Hpy)).
  assert (f_Type y' = type_of r) as -> by exact (f_equal f_Type Hpy).
  assert (f_Done y' = true) as -> by (rewrite <- Hd; exact (f_equal f_Done Hpy)).
  destruct Ht as [Ht1 Ht2]. by destruct (type_of r).
Qed.
End timeouts.

(** ** Samples *)

Definition quiet_loop `{Env} : @LoopHandler _ (list (Z * fid)) _ (gmap_HashMap ClusterNode) := {|
  OnCReact w r c := Ok (None, ActNone, w);
  OnMoved w addr slot s f := Ok w;
  OnTicker w := Ok w;
|}.

(** A push message of a newer protocol version. *)
Definition push_conn : conn := set_inbound server_conn None (str ">2" ++ crlf).
Definition push_world := world_of (mkScript ∅ [] 0) {[ 1%positive := push_conn ]} three_frags.

Lemma sread_spins_witness :
  unread push_conn = str ">2" ++ crlf /\
  forall fuel, @el_sread empty_pool script_env _ _ _ quiet_handler quiet_loop sorted_range sample_opts fuel push_world 1%positive
    = OutOfFuel.
Proof.
  split; [reflexivity|].
  apply (@sread_spins empty_pool script_env _ _ _ quiet_handler quiet_loop sorted_range sample_opts push_world 1%positive
    push_conn [1; 2; 3]%positive).
  - split; [done|exact I|]. exists three_queue. split; [done|exact three_repr].
  - reflexivity.
  - right. exists 62, (str "2"), []. split; [reflexivity|]. split; [not_in|]. rewrite !not_elem_of_cons.
    repeat split; try discriminate. apply not_elem_of_nil.
Defined.

(** Two fragments of one request: the first is due at time 5, the second later. *)
Definition slow_frag (t : Z) : Frag := set_timeout (linked_frag None None) t.
Definition slow_msg : Msg :=
  mkMsg None None (Some 9%positive) 1 {[ 10 := 1%positive; 20 := 2%positive ]} [] [] (Some ∅) [] ∅ ∅ 0 0 ReqMget false.
Definition slow_store : Store :=
  mkStore {[ 1%positive := slow_msg ]} {[ 1%positive := slow_frag 5; 2%positive := slow_frag 90 ]} 1 2 [] 3%positive.
Definition slow_world :=
  with_timeouts (world_of (mkScript ∅ [] 7) {[ 9%positive := open_conn ]} slow_store)
    [(5, 1%positive); (90, 2%positive)].

Lemma slow_timeouts_ok : @timeouts_ok script_env _ _ _ sorted_range slow_world.
Proof.
  assert (forall g, g ∈ (map_to_list (m_Body slow_msg)).*2 -> is_Some (frags slow_store !! g)) as Hb.
  { intros g Hg. vm_compute in Hg. repeat (apply elem_of_cons in Hg as [->|Hg]; [by eexists|]). by apply elem_of_nil in Hg. }
  split; [|vm_compute; repeat constructor; set_solver].
  intros k f Hin. cbn [w_timeouts slow_world with_timeouts items list_tree] in Hin.
  apply elem_of_cons in Hin as [[= -> ->]|Hin].
  - exists (slow_frag 5), 1%positive, slow_msg. split_and!; [done|done|done|done|exact Hb|vm_compute; set_solver|].
    intros c [= <-]. by eexists.
  - apply elem_of_cons in Hin as [[= -> ->]|Hin]; [|by apply elem_of_nil in Hin].
    exists (slow_frag 90), 1%positive, slow_msg. split_and!; [done|done|done|done|exact Hb|vm_compute; set_solver|].
    intros c [= <-]. by eexists.
Qed.

Lemma msgTimeout_expires_witness :
  exists w' n, @msgTimeout script_env _ _ _ sorted_range 3 slow_world = Ok w' /\
    @fails script_env _ _ sorted_range slow_world w' (take n [(5, 1%positive); (90, 2%positive)]) /\
    items (w_timeouts w') = drop n [(5, 1%positive); (90, 2%positive)] /\ not_due w'.
Proof.
  exact (@msgTimeout_expires script_env _ _ _ sorted_range slow_world slow_timeouts_ok).
Defined.

(** The whole request fails, with one error for the client. *)
Example msgTimeout_sample :
  (fun w => (items (w_timeouts w), w_tasks w)) <$> @msgTimeout script_env _ _ _ sorted_range 3 slow_world =
  Ok ([], [TAsyncWrite 9%positive ErrMsgRequestTimeout]).
Proof. vm_compute. reflexivity. Qed.

(** The reply to a fragment that timed out arrives. *)
Definition late_frag : Frag := set_fdone (linked_frag None None).
Definition late_queue : Queue := mkQueue (Some 1%positive) (Some 1%positive) 1.
Definition late_msg : Msg := slow_msg.
Definition late_store : Store := mkStore {[ 1%positive := late_msg ]} {[ 1%positive := late_frag ]} 1 1 [] 2%positive.
Definition late_server : conn :=
  set_inbound (set_queues server_conn (Some emptyQueue) (Some late_queue) (Some emptyQueue)) None (str "+OK" ++ crlf).
Definition late_client : conn := set_queues open_conn (Some late_queue) (Some emptyQueue) (Some emptyQueue).
Definition late_world :=
  world_of (mkScript ∅ [] 0) {[ 1%positive := late_server; 9%positive := late_client ]} late_store.

Lemma late_reply_dropped_witness :
  exists w' x', @conn_sread script_env _ _ _ sorted_range sample_opts late_world 1%positive
      = Ok (None, Some (ECodec Continue), w') /\
    awaiting w' 1%positive x' [] /\ unread x' = [] /\ msgs (w_store w') = msgs late_store /\
    @answer empty_pool script_env _ _ _ quiet_handler w' 9%positive = Ok (false, w').
Proof.
  apply (@late_reply_dropped empty_pool script_env _ _ _ quiet_handler sorted_range sample_opts late_world 1%positive
    late_server 1%positive [] (RStatus (str "OK")) [] late_frag 9%positive 1%positive 9%positive late_client [1%positive]).
  - split; [done|exact I|]. exists late_queue. split; [done|].
    split; [|apply NoDup_singleton|done|done]. simpl. split; [done|]. eexists. split; [done|]. by split.
  - reflexivity.
  - constructor. not_in.
  - reflexivity.
  - reflexivity.
  - reflexivity.
  - reflexivity.
  - reflexivity.
  - split; discriminate.
  - reflexivity.
  - discriminate.
  - reflexivity.
  - exists late_queue. split; [done|]. split; [|apply NoDup_singleton|done|done]. simpl. split; [done|].
    eexists. split; [done|]. by split.
  - discriminate.
  - reflexivity.
Defined.
