(* ===== verification/Server.v ===== *)
(** * The proxy's event handler

    [core/server]: what the proxy does with the events of the loop.  A request
    of a client is answered at once or routed, fragment by fragment, to the
    servers of its slots ([OnCReact], [getConn], [route]); redirections move a
    fragment to another server ([OnMoved]); the ticker asks for the cluster
    topology ([OnTicker]).  [ticker] of [core/eventloop.go], which installs a new
    topology, is here too, because it dials and closes connections.

    The callbacks are instances of [ConnHandler] and [LoopHandler], so the loop
    of [EventLoop] runs with them, and [server_laws] discharges what the
    connection theorems require of a handler. *)

From S2P Require Import Prelude Errors Byteslice Ring LinkedList Elastic Commands Codec Message CodecC CodecS Pool Cluster AuthIp World Conn EventLoop Pipelining.

(** ** Opening and closing connections *)
Section open_close.
Context `{BytePool} `{Env} {T : Type} `{LLRB T} `{HashMap ClusterNode} `{HashMap unit}
  (opts : Options) (IpMap : ipMap).
Implicit Types w : World T.

(** [authCmd], as [OnBoot] sets it. *)
Definition OnBoot : bytes :=
  if 0 <? len (RedisPasswd opts) then
    str "*2" ++ crlf ++ str "$4" ++ crlf ++ str "auth" ++ crlf ++ str "$" ++ Itoa (len (RedisPasswd opts)) ++ crlf ++
      RedisPasswd opts ++ crlf
  else [].
Definition ReadOnly : bytes := str "*1" ++ crlf ++ str "$8" ++ crlf ++ str "READONLY" ++ crlf.

(** [RemoteAddr] of [core/connection.go]. *)
Definition RemoteAddr (x : conn) : bytes := default (str "-") (c_remoteAddr x).

Definition server_OnCOpened w (c : cid) : res (option bytes * Action * World T) :=
  x ← get_conn w c;
  let access := Split (RemoteAddr x) 58 in
  ip ← index access 0;
  if negb (Validate IpMap ip) then Ok (None, ActClose, w) else Ok (None, ActNone, w).

Definition server_OnSOpened w (s : cid) : res (option bytes * Action * World T) :=
  x ← get_conn w s;
  let authCmd := OnBoot in
  let '(step, initCmd) := if 0 <? len authCmd then (1, authCmd) else (0, []) in
  let '(step, initCmd) := if c_isSlave x then (step + 1, initCmd ++ ReadOnly) else (step, initCmd) in
  if 0 <? len initCmd
  then Ok (Some initCmd, ActNone, put_conn w s (set_init x step Initializing))
  else Ok (None, ActNone, put_conn w s (set_init x 0 Initialized)).

Definition server_OnCClosed w (c : cid) (err : option error) : res (World T) := Ok w.

(** The loop of [OnSClosed]: the fragments waiting for replies are taken from the
    queue; the owner and the message are only looked at for the log. *)
Fixpoint drop_frags (fuel : nat) w (s : cid) : res (World T) :=
  match fuel with
  | O => OutOfFuel
  | S fuel =>
      '(frag, w) ← DequeueInFrag w s;
      match frag with
      | None => Ok w
      | Some f =>
          x ← get_frag (w_store w) f;
          match f_Owner x with
          | None => drop_frags fuel w s
          | Some o =>
              y ← get_conn w o;
              if negb (c_opened y) || f_Done x then drop_frags fuel w s
              else
                m ← deref (f_Peer x);
                _ ← get_msg (w_store w) m;
                drop_frags fuel w s
          end
      end
  end.

Definition server_OnSClosed w (s : cid) (err : option error) : res (World T) :=
  x ← get_conn w s;
  q ← the_queue (c_inFragQueue x);
  drop_frags (S (Z.to_nat (q_count q))) w s.

#[export] Instance server_ConnHandler : ConnHandler T := {|
  OnCOpened := server_OnCOpened;
  OnSOpened := server_OnSOpened;
  OnCClosed := server_OnCClosed;
  OnSClosed := server_OnSClosed;
|}.
End open_close.

(** ** Requests *)
Section handler.
Context `{BytePool} `{Env} {T : Type} `{LLRB T} `{HashMap ClusterNode} `{HashMap unit} `{MapRange}
  (opts : Options) (IpMap : ipMap).
Implicit Types w : World T.
#[local] Existing Instance server_ConnHandler.

(** The server's [Dial] of the loop, and whether a connection is open. *)
Definition server_Dial w (addr : bytes) (isSlave : bool) : res ((cid + error) * World T) :=
  @Dial _ _ T _ _ (server_ConnHandler opts IpMap) opts w addr isSlave.
Definition IsOpened w (c : cid) : bool := default false (c_opened <$> w_conns w !! c).

(** [pool.Get()] on the pool of [addr], which stays in the table. *)
Definition pool_Get w (addr : bytes) (p : Pool) : res (option cid * Pool * World T) :=
  '(c, p, w) ← Pool.Get server_Dial IsOpened p w;
  Ok (c, p, with_pools w (<[addr := p]> (w_ProxyPool w))).

Definition master_addr w (slot : Z) : res bytes :=
  rs ← slots_Get (w_Slots2Node w) slot;
  match rs with Some rs => Ok (n_Addr (rs_Master rs)) | None => Panic end.

(** The loop of [route] over the slaves: the first slave that is not banned.
    [liveSlaves] has one element when it is used. *)
Fixpoint live_slave w (slaves : list ClusterNode) : res (option bytes * World T) :=
  match slaves with
  | [] => Ok (None, w)
  | v :: slaves =>
      match w_ProxyPool w !! n_Addr v with
      | None => live_slave w slaves
      | Some pool =>
          '(skip, w) ←
            (if p_AutoBanFlag pool then
               let '(t, w) := now w in
               if p_LiftBanTime pool <? t then Ok (true, w) else Ok (false, w)
             else Ok (false, w));
          if skip : bool then live_slave w slaves
          else
            let pool := with_ban pool (p_LiftBanOrder pool) (p_LiftBanTime pool) false in
            let w := with_pools w (<[n_Addr v := pool]> (w_ProxyPool w)) in
            let liveSlaves := [n_Addr v] in
            let '(e, i) := rand_Intn (w_env w) (len liveSlaves) in
            addr ← index liveSlaves i;
            Ok (Some addr, with_env w e)
      end
  end.

Definition route w (r : Msg) (slot : Z) : res (bytes * bool * World T) :=
  if DisableSlave opts then addr ← master_addr w slot; Ok (addr, false, w)
  else if Command_code ReqWriteCmdStart <? Command_code (m_Type r) then
    addr ← master_addr w slot; Ok (addr, false, w)
  else
    match m_Type r with
    | ReqHscan | ReqSscan | ReqZscan => addr ← master_addr w slot; Ok (addr, false, w)
    | _ =>
        rs ← slots_Get (w_Slots2Node w) slot;
        match rs with
        | None => Panic
        | Some rs =>
            '(a, w) ← live_slave w (rs_Slaves rs);
            match a with
            | Some addr => Ok (addr, true, w)
            | None => addr ← master_addr w slot; Ok (addr, false, w)
            end
        end
    end.

(** [getConn]: the connection or the error, whether to retry, the address. *)
Definition getConn w (r : Msg) (slot : Z) : res ((cid + codec_error) * bool * bytes * World T) :=
  '(addr, isSlave, w) ← route w r slot;
  if len addr <? 1 then Ok (inr AddrNotFound, isSlave, [], w)
  else
    match w_ProxyPool w !! addr with
    | None => Ok (inr UnKnownProxyPool, isSlave, addr, w)
    | Some pool =>
        '(c, pool, w) ← pool_Get w addr pool;
        match c with
        | None =>
            let '(t, w) := now w in
            let period := wrap64 (wrap64 (ServerRetryTimeout opts * Z.shiftl 1 (p_LiftBanOrder pool)) * 1000000) in
            let order := if 5 <=? p_LiftBanOrder pool then 5 else p_LiftBanOrder pool + 1 in
            let pool := with_ban pool order (t + period) true in
            Ok (inr UnKnownProxyPoolConn, isSlave, addr, with_pools w (<[addr := pool]> (w_ProxyPool w)))
        | Some c =>
            let pool := with_ban pool 0 (p_LiftBanTime pool) (p_AutoBanFlag pool) in
            Ok (inl c, false, addr, with_pools w (<[addr := pool]> (w_ProxyPool w)))
        end
    end.

(** The text of the error for the client when no connection was found. *)
Definition conn_error (e : codec_error) : bytes :=
  match e with
  | AddrNotFound => ErrAddrNotFoundError
  | UnKnownProxyPool => ErrUnKnownProxyPoolError
  | UnKnownProxyPoolConn => ErrUnKnownProxyPoolConnError
  | _ => ErrUnKnown
  end.

Definition set_owner (f : Frag) (c : cid) : Frag :=
  mkFrag (f_prev f) (f_next f) (Some c) (f_Peer f) (f_Id f) (f_Time f) (f_Timeout f) (f_Key f) (f_Error f)
    (f_Req f) (f_RspBody f) (f_Rsp f) (f_Type f) (f_Ok f) (f_Done f).

(** Route one fragment: the reply that ends the request, if any. *)
Definition send_frag w (msg : Msg) (slot : Z) (f : fid) (c : cid) : res (option bytes * World T) :=
  missing ← slots_NotExist (w_Slots2Node w) slot;
  if missing : bool then Ok (Some ErrUnKnownSlot, w)
  else
    '(r, retry, _, w) ← getConn w msg slot;
    '(r, w) ←
      match r with
      | inr _ => if retry : bool then '(r, _, _, w) ← getConn w msg slot; Ok (r, w) else Ok (r, w)
      | inl s => Ok (inl s, w)
      end;
    match r with
    | inr e => Ok (Some (conn_error e), w)
    | inl s =>
        x ← get_frag (w_store w) f;
        w ← EnqueueOutFrag (with_store w (put_frag (w_store w) f (set_owner x c))) s f;
        Ok (None, w)
    end.

(** The loop of [OnCReact] over the fragments of a request. *)
Fixpoint send_frags w (msg : Msg) (fs : list (Z * fid)) (c : cid) : res (option bytes * World T) :=
  match fs with
  | [] => Ok (None, w)
  | (slot, f) :: fs =>
      match m_Type msg with
      | ReqAuth =>
          x ← get_frag (w_store w) f;
          if len (RedisPasswd opts) <? 1 then Ok (Some ErrAuthNeedNtPassword, w)
          else if negb (bool_decide (RedisPasswd opts = f_Key x)) then Ok (Some ErrAuthInvalidPassword, w)
          else Ok (Some OK, w)
      | _ =>
          '(out, w) ← send_frag w msg slot f c;
          match out with
          | Some o => Ok (Some o, w)
          | None => send_frags w msg fs c
          end
      end
  end.

Definition server_OnCReact w (r : option mid) (c : cid) : res (option bytes * Action * World T) :=
  m ← deref r;
  msg ← get_msg (w_store w) m;
  if (Command_code (m_Type msg) <=? Command_code UNKNOWN) || (Command_code Sentinel <=? Command_code (m_Type msg))
  then Ok (Some ErrUnKnownCommand, ActNone, w)
  else
    match m_Type msg with
    | ReqTooLarge => Ok (Some ErrMsgReqTooLarge, ActNone, w)
    | ReqWrongArgumentsNumber => Ok (Some ErrMsgReqWrongArgumentsNumber, ActNone, w)
    | ReqPing => Ok (Some PONG, ActNone, w)
    | ReqQuit => Ok (Some OK, ActClose, w)
    | _ =>
        '(out, w) ← send_frags w msg (range (m_Body msg)) c;
        match out with
        | Some o => Ok (Some o, ActNone, w)
        | None => w ← EnqueueInMsg w c m; Ok (None, ActNone, w)
        end
    end.

Definition clear_rsp (f : Frag) : Frag :=
  mkFrag (f_prev f) (f_next f) (f_Owner f) (f_Peer f) (f_Id f) (f_Time f) (f_Timeout f) (f_Key f) (f_Error f)
    (f_Req f) [] (f_Rsp f) (f_Type f) (f_Ok f) (f_Done f).
Definition set_fd2slot (m : Msg) (h : gmap Z Z) : Msg :=
  mkMsg (m_prev m) (m_next m) (m_Owner m) (m_Id m) (m_Body m) (m_RspBody m) (m_Error m) (Some h) (m_Keys m)
    (m_Frags m) (m_Frags2 m) (m_FragDoneNumber m) (m_DelNum m) (m_Type m) (m_Done m).

(** [OnMoved]: the fragment goes to the server the redirection names. *)
Definition server_OnMoved w (addr : bytes) (slot : Z) (s : cid) (f : fid) : res (World T) :=
  x ← get_frag (w_store w) f;
  let w := with_store w (put_frag (w_store w) f (clear_rsp x)) in
  match w_ProxyPool w !! addr with
  | None => Ok w
  | Some pool =>
      '(c, _, w) ← pool_Get w addr pool;
      match c with
      | None => Ok w
      | Some sc =>
          y ← get_conn w s;
          z ← get_conn w sc;
          m ← deref (f_Peer x);
          msg ← get_msg (w_store w) m;
          match m_Fd2Slot msg with
          | None => Panic                       (* assignment to an entry of a nil map *)
          | Some h =>
              let h := <[c_fd z := slot]> (delete (c_fd y) h) in
              EnqueueOutFrag (with_store w (put_msg (w_store w) m (set_fd2slot msg h))) sc f
          end
      end
  end.

Definition server_OnTicker w : res (World T) :=
  let nAddr := len (w_ProxyAddrs w) in
  if nAddr <? 1 then Ok w
  else
    let '(e, i) := rand_Intn (w_env w) nAddr in
    let w := with_env w e in
    addr ← index (w_ProxyAddrs w) i;
    match w_ProxyPool w !! addr with
    | None => Ok w
    | Some pool =>
        '(c, _, w) ← pool_Get w addr pool;
        match c with
        | None => Ok w
        | Some sc => Ok (WriteClusterNodes w sc).2
        end
    end.

#[export] Instance server_LoopHandler : LoopHandler T := {|
  OnCReact := server_OnCReact;
  OnMoved := server_OnMoved;
  OnTicker := server_OnTicker;
|}.

(** ** The ticker *)

(** Close the pools of the servers that left, in the order [ks]. *)
Fixpoint remove_pools w (ks : list bytes) : res (World T) :=
  match ks with
  | [] => Ok w
  | k :: ks =>
      match hm_Get (ServerMap (w_ClusterNodes w)) k, w_ProxyPool w !! k with
      | None, Some v =>
          '(_, w) ← Pool.Close (fun w c => Ok (Close w c).2) v w;
          remove_pools (with_pools w (delete k (w_ProxyPool w))) ks
      | _, _ => remove_pools w ks
      end
  end.

(** Set the role of the pools of the servers [kvs], with new pools where needed. *)
Fixpoint add_pools w (kvs : list (bytes * ClusterNode)) : res (World T) :=
  match kvs with
  | [] => Ok w
  | (k, v) :: kvs =>
      let isSlave := bool_decide (n_Role v = Slave) in
      match w_ProxyPool w !! k with
      | Some pool =>
          '(pool, w) ← SetIsSlave (fun w c => Ok (Close w c).2) pool isSlave w;
          add_pools (with_pools w (<[k := pool]> (w_ProxyPool w))) kvs
      | None =>
          let pool := newPool k (RedisPasswd opts) (RedisServerConnections opts) isSlave in
          add_pools (with_pools w (<[k := pool]> (w_ProxyPool w))) kvs
      end
  end.

Definition clear_changed (c : ClusterNodes) : ClusterNodes :=
  mkClusterNodes (ServerMap c) (Replicasets c) (lastServerNames c) false.

(** [eventloop.ticker].  [order] is the order in which a map of pools is ranged
    over. *)
Definition ticker (order : gmap bytes Pool -> list bytes) w : res (World T) :=
  let '(t, w) := now w in
  if t <? w_nextTicker w then Ok w
  else
    let w := with_ticker w (t + 1000000000) (w_ProxyAddrs w) (w_ClusterNodes w) (w_Slots2Node w) in
    w ←
      (if serverChanged (w_ClusterNodes w) then
         w ← remove_pools w (order (w_ProxyPool w));
         w ← add_pools w (hm_Iter (ServerMap (w_ClusterNodes w)));
         sr ← loadSlots (w_Slots2Node w) (Replicasets (w_ClusterNodes w));
         Ok (with_ticker w (w_nextTicker w) (order (w_ProxyPool w)) (clear_changed (w_ClusterNodes w)) sr)
       else Ok w);
    server_OnTicker w.
End handler.

(** * Theorems *)

(** ** A server connection closes *)
Section closing.
Context `{BytePool} `{Env} {T : Type} `{LLRB T} `{HashMap ClusterNode} `{HashMap unit}
  (opts : Options) (IpMap : ipMap).
Implicit Types w : World T.

(** What the handler follows in a fragment: its owner, and its message. *)
Definition frag_ok w (f : fid) : Prop :=
  forall y o, frags (w_store w) !! f = Some y -> f_Owner y = Some o ->
    is_Some (w_conns w !! o) /\ exists m, f_Peer y = Some m /\ is_Some (msgs (w_store w) !! m).

(** What dropping the fragments [fs] of [s] leaves alone, and what happens to
    their timeouts. *)
Record dropped w (s : cid) (x : conn) (fs : list fid) w' : Prop := {
  dr_conn : exists q, awaiting w' s (set_queues x (c_inMsgQueue x) q (c_outFragQueue x)) [];
  dr_others : forall c, c <> s -> w_conns w' !! c = w_conns w !! c;
  dr_env : w_env w' = w_env w;
  dr_tasks : w_tasks w' = w_tasks w;
  dr_msgs : msgs (w_store w') = msgs (w_store w);
  dr_frags : forall k, payload <$> frags (w_store w') !! k = payload <$> frags (w_store w) !! k;
  dr_timeouts : forall k g, (k, g) ∈ items (w_timeouts w') ->
    (k, g) ∈ items (w_timeouts w) /\ forall f y, f ∈ fs -> frags (w_store w) !! f = Some y -> f_Timeout y <> k;
}.

Lemma frag_ok_payload w w' f :
  (forall k, payload <$> frags (w_store w') !! k = payload <$> frags (w_store w) !! k) ->
  msgs (w_store w') = msgs (w_store w) -> (forall c, is_Some (w_conns w !! c) -> is_Some (w_conns w' !! c)) ->
  frag_ok w f -> frag_ok w' f.
Proof.
  intros Hp Hm Hc Hf y o Hy Ho. destruct (payload_lookup _ _ _ _ (eq_sym (Hp f)) Hy) as (z & Hz & Hpz).
  destruct (Hf z o Hz) as (Hs & m & Hpe & Hms); [rewrite <- Ho; exact (f_equal f_Owner Hpz)|].
  split; [by apply Hc|]. exists m. rewrite Hm. split; [|done]. rewrite <- Hpe. symmetry. exact (f_equal f_Peer Hpz).
Qed.

Lemma dropped_nil w s x : awaiting w s x [] -> dropped w s x [] w.
Proof.
  intros Ha. split; [exists (c_inFragQueue x); by destruct x|done..|]. intros k g Hin. split; [done|].
  intros f y Hf. by apply elem_of_nil in Hf.
Qed.

Lemma drop_frags_spec fuel w s x fs :
  awaiting w s x fs -> Forall (frag_ok w) fs -> (length fs < fuel)%nat ->
  exists w', drop_frags fuel w s = Ok w' /\ dropped w s x fs w'.
Proof.
  revert w x fs. induction fuel as [|fuel IH]; intros w x fs Ha Hok Hf; [lia|]. cbn [drop_frags].
  destruct fs as [|f fs].
  { unfold DequeueInFrag. pose proof Ha as [Hx Hr (q & Hq & Hrepr)].
    rewrite (get_conn_Ok _ _ _ Hx), res_bind_Ok, Hq. cbn [the_queue]. rewrite res_bind_Ok.
    pose proof (qr_chain _ _ _ Hrepr) as Hc. simpl in Hc. rewrite Hc, res_bind_Ok. exists w.
    split; [done|by apply dropped_nil]. }
  destruct (DequeueInFrag_eq w s x f fs Ha) as (y & q & h & Hy & Hpay & Hd & Ha'). cbv zeta in Hd, Ha'.
  set (w1 := with_timeouts _ _) in *. set (x1 := set_queues _ _ _ _) in *. rewrite Hd, res_bind_Ok.
  assert (forall c, is_Some (w_conns w !! c) -> is_Some (w_conns w1 !! c)) as Hcs.
  { intros c Hc. simpl. destruct (decide (c = s)) as [->|]; [rewrite lookup_insert_eq; by eexists|by rewrite lookup_insert_ne]. }
  apply Forall_cons in Hok as [Hokf Hok].
  assert (Forall (frag_ok w1) fs) as Hok1.
  { eapply Forall_impl; [exact Hok|]. intros g Hg. by eapply (frag_ok_payload w w1). }
  assert (frag_ok w1 f) as Hokf1 by (by eapply (frag_ok_payload w w1)).
  destruct (IH w1 x1 fs Ha' Hok1) as (w2 & Hw2 & Hdr); [simpl in Hf; lia|].
  destruct (payload_lookup _ _ _ _ (Hpay f) Hy) as (z & Hz & Hpz).
  exists w2. split.
  - rewrite (get_frag_Ok (w_store w1) f z Hz), res_bind_Ok. destruct (f_Owner z) as [o|] eqn:Ho; [|done].
    destruct (Hokf1 z o Hz Ho) as ([xo Hxo] & m & Hpe & msg & Hmsg).
    rewrite (get_conn_Ok w1 o xo Hxo), res_bind_Ok. destruct (negb (c_opened xo) || f_Done z); [done|].
    rewrite Hpe. cbn [deref]. rewrite res_bind_Ok, (get_msg_Ok _ _ _ Hmsg), res_bind_Ok. done.
  - destruct Hdr as [(q' & Haq) Ho He Ht Hm Hp Hto]. split.
    + exists q'. exact Haq.
    + intros c Hc. rewrite Ho by done. simpl. by rewrite lookup_insert_ne.
    + by rewrite He.
    + by rewrite Ht.
    + by rewrite Hm.
    + intros k. by rewrite Hp, <- Hpay.
    + intros k g Hin. destruct (Hto k g Hin) as [Hin1 Hk]. simpl in Hin1. rewrite tree_Delete_items in Hin1.
      apply list_elem_of_filter in Hin1 as [Hne Hin1]. simpl in Hne. split; [done|].
      intros g' y' [->|Hg']%elem_of_cons Hy'.
      * simplify_eq. congruence.
      * destruct (payload_lookup _ _ _ _ (Hpay g') Hy') as (z' & Hz' & Hpz').
        specialize (Hk g' z' Hg' Hz'). intros <-. apply Hk. exact (f_equal f_Timeout Hpz').
Qed.

Lemma OnSClosed_spec w s x fs err :
  awaiting w s x fs -> Forall (frag_ok w) fs -> exists w', server_OnSClosed w s err = Ok w' /\ dropped w s x fs w'.
Proof.
  intros Ha Hok. pose proof Ha as [Hx Hr (q & Hq & Hrepr)]. unfold server_OnSClosed.
  rewrite (get_conn_Ok _ _ _ Hx), res_bind_Ok, Hq. cbn [the_queue]. rewrite res_bind_Ok, (qr_count _ _ _ Hrepr).
  apply drop_frags_spec; [done|done|unfold len; lia].
Qed.

(** When a server connection closes, the requests in flight on it are lost.
    Their fragments leave the queue and the timeout queue, but no message
    changes, no task is queued for a client and nothing is sent: the clients get
    neither a reply nor a timeout error. *)
Theorem closed_server_strands w s x fs err
    (Ha : awaiting w s x fs) (Hok : Forall (frag_ok w) fs) :
  exists w', server_OnSClosed w s err = Ok w' /\ dropped w s x fs w'.
Proof. by apply OnSClosed_spec. Qed.

(** ** The promises of a connection handler *)

(** The fragments waiting on a server connection can be followed. *)
Definition server_winv w : Prop :=
  forall c x, w_conns w !! c = Some x -> c_connType x = ConnServer ->
    exists fs, awaiting w c x fs /\ Forall (frag_ok w) fs.

Lemma server_winv_out w c x e b :
  server_winv w -> w_conns w !! c = Some x ->
  server_winv (with_conns_heap (with_env w e) (<[c := set_outbound x b]> (w_conns w))).
Proof.
  intros Hw Hx d y Hy Ht. set (w' := with_conns_heap _ _) in *.
  assert (forall d, is_Some (w_conns w !! d) -> is_Some (w_conns w' !! d)) as Hcs.
  { intros d' Hd. simpl. destruct (decide (d' = c)) as [->|]; [rewrite lookup_insert_eq; by eexists|by rewrite lookup_insert_ne]. }
  assert (exists z, w_conns w !! d = Some z /\ c_connType z = ConnServer /\ c_inboundBuffer y = c_inboundBuffer z /\
    c_inFragQueue y = c_inFragQueue z) as (z & Hz & Htz & Hib & Hif).
  { simpl in Hy. destruct (decide (d = c)) as [->|].
    - rewrite lookup_insert_eq in Hy. simplify_eq. by exists x.
    - rewrite lookup_insert_ne in Hy by done. by exists y. }
  destruct (Hw d z Hz Htz) as (fs & [_ Hr Hq] & Hok). exists fs. split.
  - split; [done|unfold reader_ok; by rewrite Hib|by rewrite Hif].
  - eapply Forall_impl; [exact Hok|]. intros f Hf. by apply (frag_ok_payload w w').
Qed.

Lemma server_winv_connections w m cc sc : server_winv w -> server_winv (with_connections w m cc sc).
Proof. intros Hw c x Hx Ht. destruct (Hw c x Hx Ht) as (fs & [? ? ?] & Hok). exists fs. by split. Qed.

Lemma server_closed_ok w c x err :
  server_winv w -> w_conns w !! c = Some x -> c_connType x = ConnClient \/ c_connType x = ConnServer ->
  exists w', match c_connType x with
             | ConnClient => server_OnCClosed w c err
             | _ => server_OnSClosed w c err
             end = Ok w' /\
    (forall k, wire (w_env w') k = wire (w_env w) k) /\
    exists x', w_conns w' !! c = Some x' /\ c_outboundBuffer x' = c_outboundBuffer x /\ c_fd x' = c_fd x.
Proof.
  intros Hw Hx [Ht|Ht]; rewrite Ht.
  - exists w. split; [done|]. split; [done|]. by exists x.
  - destruct (Hw c x Hx Ht) as (fs & Ha & Hok). destruct (OnSClosed_spec w c x fs err Ha Hok) as (w' & -> & Hdr).
    exists w'. split; [done|]. split; [intros k; by rewrite (dr_env _ _ _ _ _ Hdr)|].
    destruct (dr_conn _ _ _ _ _ Hdr) as (q & Ha'). eexists. split; [apply Ha'|done].
Qed.

#[export] Instance server_laws : @ConnHandlerLaws _ T _ _ (server_ConnHandler opts IpMap).
Proof.
  refine {| winv := server_winv; winv_out := server_winv_out; winv_connections := server_winv_connections |}.
  intros w c x err Hw Hx Ht. destruct (server_closed_ok w c x err Hw Hx Ht) as (w' & Hw' & Hrest).
  exists w'. split; [|done]. by destruct Ht as [Ht|Ht]; rewrite Ht in *.
Defined.
End closing.
