(* ===== verification/Routing.v ===== *)
(** * Routing requests

    Theorems about [route], [getConn] and [OnCReact] of [Server]: which server a
    fragment is sent to, that a request that can be routed reaches the
    queues of those servers, fragment by fragment, and the queue of its client, and
    how far one gets that cannot. *)

From S2P Require Import Prelude Errors Byteslice Ring LinkedList Elastic Commands Codec Message Forest CodecC CodecS Pool Cluster AuthIp World Conn EventLoop Pipelining Server.

Section routing.
Context `{BytePool} `{Env} {T : Type} `{LLRB T} `{HashMap ClusterNode} `{HashMap unit} `{MapRange}
  (opts : Options) (IpMap : ipMap).
Implicit Types w : World T.

(** Commands a slave may serve. *)
Definition slave_command (t : Command) : bool :=
  (Command_code t <=? Command_code ReqWriteCmdStart) &&
  match t with ReqHscan | ReqSscan | ReqZscan => false | _ => true end.

(** Only the clock, the random numbers and the ban flags of pools change. *)
Definition pools_only w w' : Prop :=
  exists e p, w' = with_pools (with_env w e) p /\ dom p = dom (w_ProxyPool w).

Lemma pools_only_refl w : pools_only w w.
Proof. exists (w_env w), (w_ProxyPool w). by destruct w. Qed.

Lemma pools_only_trans w1 w2 w3 : pools_only w1 w2 -> pools_only w2 w3 -> pools_only w1 w3.
Proof. intros (e & p & -> & Hd) (e' & p' & -> & Hd'). exists e', p'. split; [done|]. simpl in *. congruence. Qed.

Lemma now_pools_only w : pools_only w (now w).2.
Proof. unfold now. destruct (time_Now (w_env w)) as [e t]. exists e, (w_ProxyPool w). by destruct w. Qed.

(** The slave loop: a slave of the list with a pool, or nothing. *)
Lemma live_slave_spec w slaves :
  exists a w', live_slave w slaves = Ok (a, w') /\ pools_only w w' /\
    match a with
    | None => True
    | Some addr => (exists v, v ∈ slaves /\ n_Addr v = addr) /\ is_Some (w_ProxyPool w !! addr)
    end.
Proof.
  revert w. induction slaves as [|v slaves IH]; intros w; cbn [live_slave].
  { exists None, w. split; [done|]. split; [apply pools_only_refl|done]. }
  assert (forall w1, pools_only w w1 -> exists a w', live_slave w1 slaves = Ok (a, w') /\ pools_only w w' /\
    match a with
    | None => True
    | Some addr => (exists v', v' ∈ v :: slaves /\ n_Addr v' = addr) /\ is_Some (w_ProxyPool w !! addr)
    end) as Hnext.
  { intros w1 Hw1. destruct (IH w1) as (a & w2 & -> & Hw2 & Ha). exists a, w2. split; [done|].
    split; [by eapply pools_only_trans|]. destruct a as [addr|]; [|done]. destruct Ha as [(v' & Hv' & Hav) Hp].
    split; [exists v'; split; [by right|done]|]. destruct Hw1 as (e & p & -> & Hd). simpl in Hp.
    by rewrite <- elem_of_dom, Hd, elem_of_dom in Hp. }
  destruct (w_ProxyPool w !! n_Addr v) as [pool|] eqn:Hpool; [|apply Hnext, pools_only_refl].
  assert (exists skip w1, (if p_AutoBanFlag pool then
      let '(t, w1) := now w in if p_LiftBanTime pool <? t then Ok (true, w1) else Ok (false, w1)
    else Ok (false, w)) = Ok (skip, w1) /\ pools_only w w1) as (skip & w1 & -> & Hw1).
  { destruct (p_AutoBanFlag pool); [|eexists _, _; split; [done|apply pools_only_refl]].
    pose proof (now_pools_only w) as Hn. destruct (now w) as [t w1].
    destruct (p_LiftBanTime pool <? t); eexists _, _; by split. }
  rewrite res_bind_Ok. destruct skip; [by apply Hnext|]. set (pool' := with_ban _ _ _ _). set (w2 := with_pools w1 _).
  pose proof (rand_Intn_range (w_env w2) (len [n_Addr v]) ltac:(done)) as Hi.
  destruct (rand_Intn (w_env w2) (len [n_Addr v])) as [e i]. simpl in Hi. assert (i = 0) as -> by (unfold len in Hi; simpl in Hi; lia).
  change (index [n_Addr v] 0) with (Ok (n_Addr v)). rewrite res_bind_Ok. eexists _, _. split; [done|]. split.
  - eapply pools_only_trans; [exact Hw1|]. exists e, (<[n_Addr v := pool']> (w_ProxyPool w1)).
    split; [done|]. destruct Hw1 as (e1 & p1 & -> & Hd1). simpl in *. rewrite dom_insert_L.
    apply elem_of_dom_2 in Hpool. rewrite Hd1. set_solver.
  - split; [by exists v; split; [left|]|]. by exists pool.
Qed.

(** Where [route] sends a request for a slot with a replica set. *)
Lemma route_spec w r slot rs :
  slots_Get (w_Slots2Node w) slot = Ok (Some rs) ->
  exists addr isSlave w', route opts w r slot = Ok (addr, isSlave, w') /\ pools_only w w' /\
    if isSlave : bool then
      DisableSlave opts = false /\ slave_command (m_Type r) = true /\
      (exists v, v ∈ rs_Slaves rs /\ n_Addr v = addr) /\ is_Some (w_ProxyPool w !! addr)
    else addr = n_Addr (rs_Master rs).
Proof.
  intros Hrs.
  assert (forall w', pools_only w w' -> exists addr isSlave w2, (addr ← master_addr w' slot; Ok (addr, false, w')) =
    Ok (addr, isSlave, w2) /\ pools_only w w2 /\ if isSlave : bool then
      DisableSlave opts = false /\ slave_command (m_Type r) = true /\
      (exists v, v ∈ rs_Slaves rs /\ n_Addr v = addr) /\ is_Some (w_ProxyPool w !! addr)
    else addr = n_Addr (rs_Master rs)) as Hmaster.
  { intros w' Hw'. unfold master_addr. destruct Hw' as (e & p & -> & Hd).
    cbn [w_Slots2Node with_pools with_env]. rewrite Hrs, !res_bind_Ok. eexists _, false, _. split; [done|].
    split; [by eexists _, _|done]. }
  unfold route. destruct (DisableSlave opts) eqn:Hdis; [apply Hmaster, pools_only_refl|].
  destruct (Command_code ReqWriteCmdStart <? Command_code (m_Type r)) eqn:Hw; [apply Hmaster, pools_only_refl|].
  destruct (slave_command (m_Type r)) eqn:Hsc.
  - destruct (live_slave_spec w (rs_Slaves rs)) as (a & w' & Hls & Hw' & Ha).
    assert (exists addr isSlave w2, (rs ← slots_Get (w_Slots2Node w) slot; match rs with
        | None => Panic
        | Some rs => '(a, w) ← live_slave w (rs_Slaves rs); match a with
            | Some addr => Ok (addr, true, w)
            | None => addr ← master_addr w slot; Ok (addr, false, w) end end) = Ok (addr, isSlave, w2) /\
        pools_only w w2 /\ if isSlave : bool then false = false /\ true = true /\
          (exists v, v ∈ rs_Slaves rs /\ n_Addr v = addr) /\ is_Some (w_ProxyPool w !! addr)
        else addr = n_Addr (rs_Master rs)) as Hread.
    { rewrite Hrs, res_bind_Ok, Hls, res_bind_Ok. destruct a as [addr|]; [|by apply Hmaster].
      eexists _, true, _. split; [done|]. by destruct Ha. }
    unfold slave_command in Hsc. destruct (m_Type r); first [exact Hread | by apply andb_true_iff in Hsc as [_ ?]].
  - unfold slave_command in Hsc. destruct (Command_code (m_Type r) <=? Command_code ReqWriteCmdStart) eqn:Hle; [|lia].
    simpl in Hsc. destruct (m_Type r); try done; apply Hmaster, pools_only_refl.
Qed.

(** C5: routing.  For a slot with a replica set, [route] always answers with the
    address of the master of the slot, or, only when slaves are enabled and the
    command is a read command that is not a scan, with the address of one of the
    slaves of that master that has a pool.  Writes always go to the master. *)
Theorem route_serves w r slot rs (Hrs : slots_Get (w_Slots2Node w) slot = Ok (Some rs)) :
  exists addr isSlave w', route opts w r slot = Ok (addr, isSlave, w') /\ pools_only w w' /\
    if isSlave : bool then
      DisableSlave opts = false /\ slave_command (m_Type r) = true /\
      (exists v, v ∈ rs_Slaves rs /\ n_Addr v = addr) /\ is_Some (w_ProxyPool w !! addr)
    else addr = n_Addr (rs_Master rs).
Proof. by apply route_spec. Qed.

(** The ban on a slave that could not be reached works the wrong way round.
    While the ban lasts the slave is chosen and the ban lifted; once the ban has
    expired the slave is skipped and the master serves the read. *)
Theorem ban_inverted w r slot rs v pool e t
    (Hrs : slots_Get (w_Slots2Node w) slot = Ok (Some rs)) (Hs : rs_Slaves rs = [v])
    (Hp : w_ProxyPool w !! n_Addr v = Some pool) (Hban : p_AutoBanFlag pool = true)
    (Hdis : DisableSlave opts = false) (Hcmd : m_Type r = ReqGet) (Hnow : time_Now (w_env w) = (e, t)) :
  exists w', route opts w r slot =
    Ok (if p_LiftBanTime pool <? t then (n_Addr (rs_Master rs), false, w') else (n_Addr v, true, w')).
Proof.
  unfold route. rewrite Hdis, Hcmd. change (Command_code ReqWriteCmdStart <? Command_code ReqGet) with false. cbv iota.
  rewrite Hrs, res_bind_Ok, Hs. cbn [live_slave]. rewrite Hp, Hban. unfold now. rewrite Hnow.
  destruct (p_LiftBanTime pool <? t); rewrite res_bind_Ok.
  - rewrite res_bind_Ok. unfold master_addr. cbn [w_Slots2Node with_env]. rewrite Hrs, !res_bind_Ok. by eexists.
  - set (w2 := with_pools _ _). pose proof (rand_Intn_range (w_env w2) (len [n_Addr v]) ltac:(done)) as Hi.
    destruct (rand_Intn (w_env w2) (len [n_Addr v])) as [e' i]. simpl in Hi.
    assert (i = 0) as -> by (unfold len in Hi; simpl in Hi; lia).
    change (index [n_Addr v] 0) with (Ok (n_Addr v)). rewrite !res_bind_Ok. by eexists.
Qed.

(** ** Forwarding a request *)

(** The queues of fragments of the connections: what waits to be sent ([true])
    and what waits for a reply ([false]). *)
Definition frag_queue w (i : cid * bool) : option Queue :=
  match w_conns w !! i.1 with
  | Some x => if i.2 then c_outFragQueue x else c_inFragQueue x
  | None => None
  end.
Definition frag_queues w (F : cid * bool -> list fid) : Prop := forest (frags (w_store w)) (frag_queue w) F.

(** The pool of [addr] is full of open connections, those of [D]. *)
Definition pool_ready w (addr : bytes) (D : list cid) : Prop :=
  exists p cs, w_ProxyPool w !! addr = Some p /\ conns p cs /\ p_closed p = false /\ p_maxActive p <= len cs /\
    cs ≡ₚ D /\ D <> [] /\
    Forall (fun c => exists x, w_conns w !! c = Some x /\ c_opened x = true /\ is_Some (c_outFragQueue x)) D.

(** Every pool of the proxy is full of open connections: no connection has to be
    dialled. *)
Definition pools_ready w (D : bytes -> list cid) : Prop :=
  forall addr, is_Some (w_ProxyPool w !! addr) -> 0 < len addr /\ pool_ready w addr (D addr).

(** A slave may serve the request. *)
Definition may_use_slave (r : Msg) : bool := negb (DisableSlave opts) && slave_command (m_Type r).

(** What a fragment for [slot] meets: a connection of the pool of a slave or of the
    master of the slot, or the error for the client. *)
Inductive serves w (D : bytes -> list cid) (r : Msg) (slot : Z) : cid + bytes -> Prop :=
  | serves_slave rs v d :
      slots_Get (w_Slots2Node w) slot = Ok (Some rs) -> may_use_slave r = true -> v ∈ rs_Slaves rs ->
      is_Some (w_ProxyPool w !! n_Addr v) -> d ∈ D (n_Addr v) -> serves w D r slot (inl d)
  | serves_master rs d :
      slots_Get (w_Slots2Node w) slot = Ok (Some rs) ->
      is_Some (w_ProxyPool w !! n_Addr (rs_Master rs)) -> d ∈ D (n_Addr (rs_Master rs)) -> serves w D r slot (inl d)
  | serves_no_slot :
      slots_Get (w_Slots2Node w) slot = Ok None -> serves w D r slot (inr ErrUnKnownSlot)
  | serves_no_address rs :
      slots_Get (w_Slots2Node w) slot = Ok (Some rs) -> n_Addr (rs_Master rs) = [] ->
      serves w D r slot (inr ErrAddrNotFoundError)
  | serves_no_pool rs :
      slots_Get (w_Slots2Node w) slot = Ok (Some rs) -> n_Addr (rs_Master rs) <> [] ->
      w_ProxyPool w !! n_Addr (rs_Master rs) = None -> serves w D r slot (inr ErrUnKnownProxyPoolError).

(** The fragments of [fs] that go to [d]. *)
Definition sent_to (fs : list (Z * fid)) (ds : list cid) (d : cid) : list fid :=
  (filter (fun p => p.2 = d) (zip fs.*2 ds)).*1.

Lemma pool_Get_ready w addr D :
  pool_ready w addr D ->
  exists p c p', w_ProxyPool w !! addr = Some p /\
    pool_Get opts IpMap w addr p = Ok (Some c, p', with_pools w (<[addr := p']> (w_ProxyPool w))) /\
    c ∈ D /\ pool_ready (with_pools w (<[addr := p']> (w_ProxyPool w))) addr D.
Proof.
  intros (p & cs & Hp & Hc & Hcl & Hmax & HD & Hne & Hopen). exists p.
  destruct cs as [|c cs]; [by apply Permutation_nil_l in HD|].
  assert (c ∈ D) as HcD by (rewrite <- HD; left).
  pose proof Hopen as Hopen'. rewrite Forall_forall in Hopen'. destruct (Hopen' c HcD) as (x & Hx & Ho & _).
  destruct (Get_loop_spec IsOpened (S (Z.to_nat (len (c :: cs)))) p (c :: cs) w Hc) as (p' & Hg & Hc' & Hsame);
    [unfold len; lia|].
  assert (rotate (IsOpened w) (c :: cs) = (Some c, cs ++ [c])) as Hrot.
  { cbn [rotate]. unfold IsOpened. rewrite Hx. simpl. by rewrite Ho. }
  rewrite Hrot in Hg, Hc'. cbn [fst snd] in Hg, Hc'. exists c, p'. split; [done|]. split; [|split; [done|]].
  - unfold pool_Get, Pool.Get. rewrite Hcl, (conns_count _ _ Hc). replace (len (c :: cs) <? p_maxActive p) with false by lia.
    by rewrite Hg, !res_bind_Ok.
  - destruct Hsame as (Hs1 & Hs2 & Hs3 & Hs4). exists p', (cs ++ [c]). simpl. rewrite lookup_insert_eq. split_and!; try done.
    + congruence.
    + rewrite Hs2. unfold len in *. rewrite length_app. simpl in *. lia.
    + rewrite <- HD. by rewrite Permutation_app_comm.
Qed.

(** What forwarding a fragment of client [c] keeps. *)
Definition owned w (c : cid) (f : fid) : Prop := exists y, frags (w_store w) !! f = Some y /\ f_Owner y = Some c.

Record forwarding (c : cid) w w' : Prop := {
  fw_msgs : msgs (w_store w') = msgs (w_store w);
  fw_frags : forall k, is_Some (frags (w_store w) !! k) -> is_Some (frags (w_store w') !! k);
  fw_owned : forall k, owned w c k -> owned w' c k;
  fw_conns : forall d x, w_conns w !! d = Some x -> exists q,
    w_conns w' !! d = Some (set_queues x (c_inMsgQueue x) (c_inFragQueue x) q) /\
    (is_Some (c_outFragQueue x) -> is_Some q);
  fw_slots : w_Slots2Node w' = w_Slots2Node w;
  fw_pools : dom (w_ProxyPool w') = dom (w_ProxyPool w);
  fw_ready : forall a D, pool_ready w a D -> pool_ready w' a D;
}.

Lemma forwarding_refl c w : forwarding c w w.
Proof. split; try done. intros d x Hx. exists (c_outFragQueue x). split; [by destruct x|done]. Qed.

Lemma forwarding_trans c w1 w2 w3 : forwarding c w1 w2 -> forwarding c w2 w3 -> forwarding c w1 w3.
Proof.
  intros [Hm1 Hf1 Ho1 Hc1 Hs1 Hp1 Hr1] [Hm2 Hf2 Ho2 Hc2 Hs2 Hp2 Hr2].
  split; [congruence|eauto|eauto| |congruence|congruence|eauto].
  intros d x Hx. destruct (Hc1 d x Hx) as (q1 & Hx1 & Hq1). destruct (Hc2 d _ Hx1) as (q2 & Hx2 & Hq2).
  exists q2. split; [exact Hx2|]. simpl in Hq2. auto.
Qed.

Lemma conns_unique p cs1 cs2 : conns p cs1 -> conns p cs2 -> cs1 = cs2.
Proof.
  intros (n1 & Hr1 & Hf1 & _) (n2 & Hr2 & Hf2 & _).
  assert (n1 = n2) as <- by (eapply chain_unique; [apply Hr1|apply Hr2]).
  clear Hr1 Hr2. revert cs2 Hf2. induction Hf1 as [|n c n1 cs1 Hn Hf1 IH]; intros cs2 Hf2; inversion Hf2; subst; [done|].
  f_equal; [congruence|by apply IH].
Qed.

(** A pool that keeps its connections stays ready. *)
Lemma pool_ready_update w a D addr p p' order t flag :
  w_ProxyPool w !! addr = Some p -> p' = with_ban p order t flag ->
  pool_ready w a D -> pool_ready (with_pools w (<[addr := p']> (w_ProxyPool w))) a D.
Proof.
  intros Hp -> (p0 & cs & Hp0 & Hc & Hcl & Hm & HD & Hne & Ho). destruct (decide (a = addr)) as [->|Hna].
  - simplify_eq. exists (with_ban p order t flag), cs. split; [simpl; apply lookup_insert_eq|]. done.
  - exists p0, cs. split; [simpl; by rewrite lookup_insert_ne|done].
Qed.

(** Routing changes ban flags only. *)
Definition keeps_ready w w' : Prop := forall a D, pool_ready w a D -> pool_ready w' a D.

Lemma keeps_ready_env w e : keeps_ready w (with_env w e).
Proof. intros a D Ha. exact Ha. Qed.

Lemma live_slave_ready w slaves a w' : live_slave w slaves = Ok (a, w') -> keeps_ready w w'.
Proof.
  revert w. induction slaves as [|v slaves IH]; intros w; cbn [live_slave]; [intros [= <- <-] ? ? ?; done|].
  destruct (w_ProxyPool w !! n_Addr v) as [pool|] eqn:Hpool; [|apply IH].
  intros ([skip w1] & Hskip & Hgo)%res_bind_inv.
  assert (exists e, w1 = with_env w e) as (e1 & ->).
  { destruct (p_AutoBanFlag pool); [|injection Hskip as <- <-; exists (w_env w); by destruct w]. unfold now in Hskip.
    destruct (time_Now (w_env w)) as [e t]. case_if_in Hskip; simplify_eq; by exists e. }
  destruct skip; [intros a0 D Ha; by eapply (IH (with_env w e1))|].
  destruct (rand_Intn _ _) as [e i]. apply res_bind_inv in Hgo as (addr & _ & Hgo). simplify_eq.
  intros a0 D Ha. eapply (keeps_ready_env (with_pools (with_env w e1) _)).
  by eapply (pool_ready_update (with_env w e1)).
Qed.

Lemma route_ready w r slot addr b w' : route opts w r slot = Ok (addr, b, w') -> keeps_ready w w'.
Proof.
  assert (forall w0, (addr ← master_addr w0 slot; Ok (addr, false, w0)) = Ok (addr, b, w') -> keeps_ready w0 w') as Hm.
  { intros w0 (a & _ & Ha)%res_bind_inv. simplify_eq. by intros ? ? ?. }
  assert (forall rs, ('(a, w) ← live_slave w (rs_Slaves rs);
      match a with
      | Some addr => Ok (addr, true, w)
      | None => addr ← master_addr w slot; Ok (addr, false, w)
      end) = Ok (addr, b, w') -> keeps_ready w w') as Hs.
  { intros rs ([[a|] w1] & Hl & Ha)%res_bind_inv; apply live_slave_ready in Hl; [simplify_eq; done|].
    apply Hm in Ha. intros a D Hr. auto. }
  unfold route. destruct (DisableSlave opts); [apply Hm|]. case_if; [apply Hm|].
  destruct (m_Type r); try apply Hm; intros ([rs|] & _ & Hr)%res_bind_inv; try done; by eapply Hs.
Qed.

Lemma pools_ready_only w w' D : pools_only w w' -> keeps_ready w w' -> pools_ready w D -> pools_ready w' D.
Proof.
  intros (e & p & -> & Hd) Hk Hr addr Ha. destruct (Hr addr) as [Hl Hp]; [|split; [done|by apply Hk]].
  rewrite <- !elem_of_dom in *. by rewrite <- Hd.
Qed.

Lemma pool_Get_keeps w addr D :
  pool_ready w addr D ->
  exists p c p', w_ProxyPool w !! addr = Some p /\
    pool_Get opts IpMap w addr p = Ok (Some c, p', with_pools w (<[addr := p']> (w_ProxyPool w))) /\ c ∈ D /\
    keeps_ready w (with_pools w (<[addr := p']> (w_ProxyPool w))).
Proof.
  intros Hready. destruct (pool_Get_ready w addr D Hready) as (p & d & p' & Hp & Hg & Hd & Hready').
  exists p, d, p'. split_and!; [done..|]. intros a D' Ha. destruct (decide (a = addr)) as [->|Hne].
  - destruct Hready' as (q & cs & Hq & Hc & Hcl & Hmx & HD & Hne & Ho).
    destruct Ha as (q0 & cs0 & Hq0 & Hc0 & Hcl0 & Hmx0 & HD0 & Hne0 & Ho0). exists q, cs. split_and!; try done.
    rewrite HD. destruct Hready as (q1 & cs1 & Hq1 & Hc1 & _ & _ & HD1 & _). simplify_eq.
    rewrite <- HD1, <- HD0. by rewrite (conns_unique _ _ _ Hc1 Hc0).
  - destruct Ha as (q0 & cs0 & Hq0 & Hrest). exists q0, cs0. split; [simpl; by rewrite lookup_insert_ne|done].
Qed.

(** The connection of a pool that [getConn] found. *)
Lemma getConn_pool w addr D :
  pool_ready w addr D ->
  exists p d p', w_ProxyPool w !! addr = Some p /\
    pool_Get opts IpMap w addr p = Ok (Some d, p', with_pools w (<[addr := p']> (w_ProxyPool w))) /\ d ∈ D /\
    let w1 := with_pools w (<[addr := p']> (w_ProxyPool w)) in
    let w2 := with_pools w1 (<[addr := with_ban p' 0 (p_LiftBanTime p') (p_AutoBanFlag p')]> (w_ProxyPool w1)) in
    pools_only w w2 /\ keeps_ready w w2.
Proof.
  intros Hready. destruct (pool_Get_keeps w addr D Hready) as (p & d & p' & Hp & Hg & Hd & Hk).
  exists p, d, p'. split_and!; [done..|]. cbv zeta. split.
  - eexists (w_env w), _. split; [by destruct w|]. simpl. rewrite !dom_insert_L. apply elem_of_dom_2 in Hp. set_solver.
  - intros a D' Ha. eapply pool_ready_update; [simpl; apply lookup_insert_eq|done|]. by apply Hk.
Qed.

Lemma getConn_serves w r slot rs D :
  slots_Get (w_Slots2Node w) slot = Ok (Some rs) -> pools_ready w D ->
  exists o addr w', getConn opts IpMap w r slot = Ok (o, false, addr, w') /\ pools_only w w' /\ keeps_ready w w' /\
    serves w D r slot (match o with inl d => inl d | inr e => inr (conn_error e) end).
Proof.
  intros Hrs Hready. unfold getConn.
  destruct (route_spec w r slot rs Hrs) as (addr & isSlave & w1 & Hroute & Hw1 & Hto).
  pose proof (route_ready _ _ _ _ _ _ Hroute) as Hk1. rewrite Hroute, res_bind_Ok.
  pose proof (pools_ready_only _ _ _ Hw1 Hk1 Hready) as Hready1.
  assert (forall a, is_Some (w_ProxyPool w1 !! a) <-> is_Some (w_ProxyPool w !! a)) as Hdom.
  { intros a. destruct Hw1 as (e & p & -> & Hd). simpl. by rewrite <- !elem_of_dom, Hd. }
  destruct (w_ProxyPool w1 !! addr) as [p|] eqn:Hp.
  - destruct (Hready1 addr) as [Hl Hpr]; [by exists p|]. replace (len addr <? 1) with false by lia.
    destruct (getConn_pool w1 addr (D addr) Hpr) as (p0 & d & p' & Hp0 & Hg & Hd & Hw2 & Hk2). simplify_eq.
    rewrite Hg, res_bind_Ok. eexists (inl d), addr, _. split; [done|]. split; [by eapply pools_only_trans|].
    split; [intros a D' Ha; by apply Hk2, Hk1|].
    assert (is_Some (w_ProxyPool w !! addr)) as Hsome by (apply Hdom; by eexists). destruct isSlave; [|subst addr].
    + destruct Hto as (Hdis & Hsc & (v & Hv & <-) & _). eapply serves_slave; try done.
      unfold may_use_slave. by rewrite Hdis, Hsc.
    + by eapply serves_master.
  - assert (w_ProxyPool w !! addr = None) as Hp0.
    { apply eq_None_not_Some. rewrite <- Hdom, Hp. by apply is_Some_None. }
    destruct isSlave; [destruct Hto as (_ & _ & _ & [? ?]); congruence|]. subst addr. case_if.
    + eexists (inr AddrNotFound), _, w1. split; [done|]. split; [done|]. split; [done|]. eapply serves_no_address; [done|].
      destruct (n_Addr (rs_Master rs)) as [|b l]; [done|]. rewrite len_cons in *. pose proof (len_nonneg l). lia.
    + eexists (inr UnKnownProxyPool), _, w1. split; [done|]. split; [done|]. split; [done|].
      eapply serves_no_pool; [done| |done]. intros E. rewrite E in *. done.
Qed.

(** Queueing a fragment on an open connection. *)
Lemma EnqueueOutFrag_forest w s x f F :
  frag_queues w F -> w_conns w !! s = Some x -> is_Some (c_outFragQueue x) ->
  is_Some (frags (w_store w) !! f) -> (forall i, f ∉ F i) ->
  exists w' q h, EnqueueOutFrag w s f = Ok w' /\ frag_queues w' (upd F (s, true) (F (s, true) ++ [f])) /\
    w_store w' = with_frags (w_store w) h /\ (forall k, payload <$> h !! k = payload <$> frags (w_store w) !! k) /\
    w_conns w' = <[s := set_queues x (c_inMsgQueue x) (c_inFragQueue x) (Some q)]> (w_conns w) /\
    w_Slots2Node w' = w_Slots2Node w /\ w_ProxyPool w' = w_ProxyPool w.
Proof.
  intros Hf Hx [q Hq] [y Hy] Hnf. unfold EnqueueOutFrag. rewrite (get_conn_Ok _ _ _ Hx), res_bind_Ok, Hq.
  cbn [the_queue]. rewrite res_bind_Ok.
  destruct (forest_push _ _ _ (s, true) q f y Hf) as (q' & h' & Hp & Hf'); [unfold frag_queue; simpl; by rewrite Hx|done|done|].
  rewrite Hp, res_bind_Ok. unfold sendWriteSignal, Trigger.
  set (w1 := put_conn _ _ _). set (w2 := with_tasks w1 _ _ _).
  assert (forall w', w_conns w' = w_conns w1 -> w_store w' = w_store w1 -> frag_queues w' (upd F (s, true) (F (s, true) ++ [f]))) as Hfq.
  { intros w' Hc Hs. unfold frag_queues. rewrite Hs. eapply forest_ext; [| |exact Hf']; [|done].
    intros [c k]. unfold frag_queue at 1. rewrite Hc. simpl. destruct (decide (c = s)) as [->|Hne].
    - rewrite lookup_insert_eq. destruct k; simpl; [by rewrite upd_eq|]. rewrite upd_ne by congruence.
      unfold frag_queue. simpl. by rewrite Hx.
    - rewrite lookup_insert_ne, upd_ne by congruence. done. }
  assert (forall k, payload <$> h' !! k = payload <$> frags (w_store w) !! k) as Hpay.
  { intros k. apply (queue_step_proj payload payload_prev payload_next) with (o := QPushTail f) (l := q) (l' := q'). exact Hp. }
  unfold wake_up. destruct (w_wakeup w2).
  - exists w2, q', h'. split; [done|]. split; [by apply Hfq|]. done.
  - destruct (wake (w_env w2)) as [e r]. eexists _, q', h'. split; [done|]. split; [by apply Hfq|]. done.
Qed.

Lemma pools_only_forwarding c w w' : pools_only w w' -> keeps_ready w w' -> forwarding c w w'.
Proof.
  intros (e & p & -> & Hd) Hk. split; try done. intros d x Hx. exists (c_outFragQueue x). split; [by destruct x|done].
Qed.

(** A fragment is queued on a connection of a pool. *)
Lemma enqueue_forwards w f y c d a D F :
  frag_queues w F -> pool_ready w a D -> d ∈ D -> frags (w_store w) !! f = Some y -> (forall i, f ∉ F i) ->
  exists w', EnqueueOutFrag (with_store w (put_frag (w_store w) f (set_owner y c))) d f = Ok w' /\
    frag_queues w' (upd F (d, true) (F (d, true) ++ [f])) /\ forwarding c w w' /\ owned w' c f.
Proof.
  intros Hf (p0 & cs & _ & _ & _ & _ & _ & _ & Hopen) Hd Hy Hnf. set (w2 := with_store w _).
  rewrite Forall_forall in Hopen. destruct (Hopen d Hd) as (x & Hx & Ho & Hq).
  destruct (EnqueueOutFrag_forest w2 d x f F) as (w3 & q & h & -> & Hf3 & Hs3 & Hpay & Hc3 & Hsl3 & Hp3); try done.
  { eapply forest_ext; [| |exact Hf]; [done|]. intros i k Hk. simpl.
    rewrite lookup_insert_ne by (intros ->; by apply (Hnf i)). done. }
  { simpl. rewrite lookup_insert_eq. by eexists. }
  exists w3. split; [done|]. split; [done|].
  assert (forall k, k <> f -> payload <$> frags (w_store w3) !! k = payload <$> frags (w_store w) !! k) as Hother.
  { intros k Hk. rewrite Hs3. simpl. rewrite Hpay. simpl. by rewrite lookup_insert_ne. }
  assert (owned w3 c f) as Hown.
  { specialize (Hpay f). simpl in Hpay. rewrite lookup_insert_eq in Hpay. unfold owned. rewrite Hs3. simpl.
    destruct (h !! f) as [z|]; [|done]. exists z. split; [done|].
    assert (payload z = payload (set_owner y c)) as Hz by (simpl in Hpay; congruence). exact (f_equal f_Owner Hz). }
  split; [|done]. split.
  - by rewrite Hs3.
  - intros k Hk. destruct (decide (k = f)) as [->|Hne]; [by destruct Hown as (z & Hz & _); exists z|].
    specialize (Hother k Hne). destruct Hk as [z Hz]. rewrite Hz in Hother.
    destruct (frags (w_store w3) !! k); [by eexists|done].
  - intros k (z & Hz & Hoz). destruct (decide (k = f)) as [->|Hne]; [done|].
    destruct (payload_lookup _ _ _ _ (Hother k Hne) Hz) as (z' & Hz' & Hpz). exists z'. split; [done|].
    rewrite <- Hoz. exact (f_equal f_Owner Hpz).
  - intros e xe Hxe. rewrite Hc3. simpl. destruct (decide (e = d)) as [->|Hne].
    + rewrite lookup_insert_eq. simplify_eq. exists (Some q). split; [done|by eexists].
    + rewrite lookup_insert_ne by done. exists (c_outFragQueue xe). split; [by destruct xe|done].
  - by rewrite Hsl3.
  - by rewrite Hp3.
  - intros a' D' (q0 & cs0 & Hq0 & Hc0 & Hcl0 & Hm0 & HD0 & Hne0 & Ho0).
    exists q0, cs0. rewrite Hp3. split_and!; try done. eapply Forall_impl; [exact Ho0|].
    intros e (xe & Hxe & Hoe & Hqe). rewrite Hc3. simpl in *. destruct (decide (e = d)) as [->|Hne].
    + rewrite lookup_insert_eq. simplify_eq. eexists. split; [done|]. split; [done|by eexists].
    + rewrite lookup_insert_ne by done. by exists xe.
Qed.

(** The pool of a connection that serves. *)
Lemma serves_pool w D r slot d :
  pools_ready w D -> serves w D r slot (inl d) -> exists a, pool_ready w a (D a) /\ d ∈ D a.
Proof. intros Hr Hs. inversion_clear Hs; eexists; (split; [|done]); by apply Hr. Qed.

(** Forwarding does not change what serves. *)
Lemma serves_forwarding c w w' D r slot o : forwarding c w w' -> serves w' D r slot o -> serves w D r slot o.
Proof.
  intros Hfw Hs. assert (forall a, is_Some (w_ProxyPool w' !! a) <-> is_Some (w_ProxyPool w !! a)) as Hdom.
  { intros a. by rewrite <- !elem_of_dom, (fw_pools _ _ _ Hfw). }
  pose proof (fw_slots _ _ _ Hfw) as Hsl.
  destruct Hs as [rs v d Hg Hm Hv Hp Hd|rs d Hg Hp Hd|Hg|rs Hg Ha|rs Hg Ha Hp]; rewrite Hsl in Hg.
  - eapply serves_slave; [done|done|done|by apply Hdom|done].
  - eapply serves_master; [done|by apply Hdom|done].
  - by eapply serves_no_slot.
  - by eapply serves_no_address.
  - eapply serves_no_pool; [done..|]. apply eq_None_not_Some. intros Hs%Hdom. rewrite Hp in Hs. by destruct Hs.
Qed.

Lemma pools_ready_forwarding c w w' D : forwarding c w w' -> pools_ready w D -> pools_ready w' D.
Proof.
  intros Hfw Hr addr Ha. destruct (Hr addr) as [Hl Hp]; [|split; [done|by apply (fw_ready _ _ _ Hfw)]].
  rewrite <- !elem_of_dom, <- (fw_pools _ _ _ Hfw) in *. done.
Qed.

Lemma send_frag_serves w msg slot f c F D o :
  frag_queues w F -> pools_ready w D -> slots_Get (w_Slots2Node w) slot = Ok o ->
  is_Some (frags (w_store w) !! f) -> (forall i, f ∉ F i) ->
  exists w', forwarding c w w' /\
    ((exists d, send_frag opts IpMap w msg slot f c = Ok (None, w') /\ serves w D msg slot (inl d) /\
       frag_queues w' (upd F (d, true) (F (d, true) ++ [f])) /\ owned w' c f) \/
     (exists e, send_frag opts IpMap w msg slot f c = Ok (Some e, w') /\ serves w D msg slot (inr e) /\ frag_queues w' F)).
Proof.
  intros Hf Hready Hsl [y Hy] Hnf. unfold send_frag. pose proof Hsl as Hslot. unfold slots_NotExist.
  unfold slots_Get in Hsl. rewrite Hsl, res_bind_Ok. destruct o as [rs|]; rewrite ?res_bind_Ok.
  2:{ exists w. split; [apply forwarding_refl|]. right. exists ErrUnKnownSlot. split; [done|]. split; [|done].
      by apply serves_no_slot. }
  destruct (getConn_serves w msg slot rs D Hslot Hready) as (o & addr & w1 & -> & Hw1 & Hk1 & Hs). rewrite res_bind_Ok.
  pose proof (pools_only_forwarding c _ _ Hw1 Hk1) as Hfw1. pose proof (pools_ready_forwarding _ _ _ _ Hfw1 Hready) as Hr1.
  assert (frag_queues w1 F) as Hf1 by (destruct Hw1 as (e & p & -> & _); exact Hf).
  destruct o as [d|e]; rewrite res_bind_Ok.
  - assert (frags (w_store w1) !! f = Some y) as Hy1 by (by destruct Hw1 as (e & p & -> & _)).
    rewrite (get_frag_Ok (w_store w1) f y Hy1), res_bind_Ok.
    destruct (serves_pool w D msg slot d Hready Hs) as (a & Ha & Hd).
    destruct (enqueue_forwards w1 f y c d a (D a) F) as (w2 & -> & Hf2 & Hfw2 & Hown); try done; [by apply Hk1|].
    rewrite res_bind_Ok. exists w2. split; [by eapply forwarding_trans|]. left. by exists d.
  - exists w1. split; [done|]. right. by exists (conn_error e).
Qed.

Lemma sent_to_cons sf fs d ds e :
  sent_to (sf :: fs) (d :: ds) e = (if decide (d = e) then [sf.2] else []) ++ sent_to fs ds e.
Proof. unfold sent_to. simpl. rewrite filter_cons. simpl. by destruct (decide (d = e)). Qed.

(** The first [n] fragments of [fs] went to [ds], and the next one, if any, met the
    error [out]. *)
Definition forwarded w D (r : Msg) (fs : list (Z * fid)) (n : nat) (ds : list cid) (out : option bytes) : Prop :=
  Forall2 (fun sf d => serves w D r sf.1 (inl d)) (take n fs) ds /\
  match out with
  | None => n = length fs
  | Some e => exists sf, fs !! n = Some sf /\ serves w D r sf.1 (inr e)
  end.

Lemma send_frags_serves msg c D fs w F :
  frag_queues w F -> pools_ready w D -> m_Type msg <> ReqAuth ->
  Forall (fun slot => exists o, slots_Get (w_Slots2Node w) slot = Ok o) fs.*1 ->
  (forall f, f ∈ fs.*2 -> is_Some (frags (w_store w) !! f) /\ forall i, f ∉ F i) -> NoDup fs.*2 ->
  exists w' n ds out, send_frags opts IpMap w msg fs c = Ok (out, w') /\ forwarded w D msg fs n ds out /\
    frag_queues w' (fun i => F i ++ if i.2 : bool then sent_to (take n fs) ds i.1 else []) /\
    forwarding c w w' /\ Forall (owned w' c) (take n fs).*2.
Proof.
  intros Hf Hr Ht Hsl Hfs Hnd. revert w F Hf Hr Hsl Hfs. induction fs as [|[slot f] fs IH]; intros w F Hf Hr Hsl Hfs; cbn [send_frags].
  { exists w, 0%nat, [], None. split; [done|]. split; [by split|]. split; [|split; [apply forwarding_refl|constructor]].
    eapply forest_lists; [|exact Hf]. intros [i k]. simpl. destruct k; by rewrite app_nil_r. }
  simpl in Hsl, Hnd. apply Forall_cons in Hsl as [[o Hsl1] Hsl]. apply NoDup_cons in Hnd as [Hnf Hnd].
  destruct (Hfs f) as [Hsome Hnone]; [simpl; left|].
  replace (match m_Type msg with ReqAuth => _ | _ => _ end) with
    ('(out, w) ← send_frag opts IpMap w msg slot f c;
     match out with Some o => Ok (Some o, w) | None => send_frags opts IpMap w msg fs c end); [|by destruct (m_Type msg)].
  destruct (send_frag_serves w msg slot f c F D o) as (w1 & Hfw1 & [(d & -> & Hd & Hf1 & Hown)|(e & -> & He & Hf1)]);
    try done; rewrite res_bind_Ok.
  2:{ exists w1, 0%nat, [], (Some e). split; [done|]. split; [split; [constructor|by eexists]|].
      split; [|split; [done|constructor]]. eapply forest_lists; [|exact Hf1]. intros [i k]. simpl. destruct k; by rewrite app_nil_r. }
  destruct (IH Hnd w1 (upd F (d, true) (F (d, true) ++ [f]))) as (w2 & n & ds & out & -> & [Hall Hout] & Hf2 & Hfw2 & Hown2).
  - done.
  - by eapply pools_ready_forwarding.
  - by rewrite (fw_slots _ _ _ Hfw1).
  - intros g Hg. destruct (Hfs g) as [Hgs Hgn]; [simpl; by right|]. split; [by apply (fw_frags _ _ _ Hfw1)|].
    intros i. destruct (decide (i = (d, true))) as [->|Hne]; [|by rewrite upd_ne]. rewrite upd_eq, elem_of_app.
    intros [Hin|Hin]; [by apply (Hgn (d, true))|]. apply list_elem_of_singleton in Hin as ->. done.
  - exists w2, (S n), (d :: ds), out. split; [done|]. split; [split|split; [|split; [by eapply forwarding_trans|]]].
    + constructor; [done|]. eapply Forall2_impl; [exact Hall|]. intros sf e. by eapply serves_forwarding.
    + destruct out as [e|]; [|simpl; by f_equal]. destruct Hout as (sf & Hsf & He). exists sf. split; [done|].
      by eapply serves_forwarding.
    + eapply forest_lists; [|exact Hf2]. intros [i k]. cbn [fst snd]. destruct k.
      * cbn [take firstn]. rewrite sent_to_cons. destruct (decide (d = i)) as [->|Hne].
        -- rewrite upd_eq. simpl. by rewrite <- app_assoc.
        -- rewrite upd_ne by congruence. done.
      * rewrite upd_ne by congruence. done.
    + constructor; [by apply (fw_owned _ _ _ Hfw2)|done].
Qed.

(** Requests that [OnCReact] does not answer itself. *)
Definition forwarded_type (t : Command) : bool :=
  negb ((Command_code t <=? Command_code UNKNOWN) || (Command_code Sentinel <=? Command_code t)) &&
  match t with ReqTooLarge | ReqWrongArgumentsNumber | ReqPing | ReqQuit | ReqAuth => false | _ => true end.

Lemma EnqueueInMsg_spec w c x m ms :
  w_conns w !! c = Some x -> pending w x ms -> is_Some (msgs (w_store w) !! m) -> m ∉ ms ->
  exists w' q h, EnqueueInMsg w c m = Ok w' /\
    w' = put_conn (with_store w (with_msgs (w_store w) h)) c (set_queues x (Some q) (c_inFragQueue x) (c_outFragQueue x)) /\
    queue_repr q h (ms ++ [m]).
Proof.
  intros Hx (q & Hq & Hr) [y Hy] Hm. unfold EnqueueInMsg. rewrite (get_conn_Ok _ _ _ Hx), res_bind_Ok, Hq.
  cbn [the_queue]. rewrite res_bind_Ok. destruct (PushTail_spec q _ ms m y Hr Hy Hm) as (q' & h' & -> & Hr' & _).
  rewrite res_bind_Ok. by eexists _, q', h'.
Qed.


(** A client can stop the proxy with one line.  A request that announces no
    arguments decodes to neither a message nor an error, so the handler is called
    without a message and dereferences a nil pointer: reading it panics, whatever
    the state of the proxy. *)
Theorem empty_request_panics w c x rest n fuel
    (Hc : w_conns w !! c = Some x) (Hr : reader_ok x) (Hn : n = str "0" \/ n = str "-1")
    (Hu : unread x = (42 :: n) ++ crlf ++ rest) :
  @el_cread _ _ T _ _ (server_ConnHandler opts IpMap) (server_LoopHandler opts IpMap) _ opts (S fuel) w c = Panic.
Proof.
  cbn [el_cread]. unfold conn_cread. rewrite (get_conn_Ok _ _ _ Hc), res_bind_Ok, conn_Peek_all, res_bind_Ok, Hu by done.
  destruct (pool_choice (w_env w)) as [e choice]. unfold now. destruct (time_Now _) as [e' t].
  rewrite Decode_empty_array, res_bind_Ok by done. cbn [d_msg d_err d_store d_buf]. rewrite res_bind_Ok.
  rewrite bool_decide_false by done. done.
Qed.
End routing.

(** ** A sample: one master with a slave, and a client *)
Definition r_master : ClusterNode := sample_node "aa" 7000 Master "-" [mkSlots 0 16383].
Definition r_slave : ClusterNode := sample_node "dd" 7003 Slave "aa" [].
Definition r_set : replicaset := mkReplicaset r_master [r_slave].
Definition r_pools : gmap bytes Pool :=
  {[ n_Addr r_master := full_pool;
     n_Addr r_slave := with_ban (newPool (n_Addr r_slave) [] 1 true) 1 50 true ]}.
Definition idle_server : conn := set_queues server_conn (Some emptyQueue) (Some emptyQueue) (Some emptyQueue).
Definition idle_client : conn := set_queues open_conn (Some emptyQueue) (Some emptyQueue) (Some emptyQueue).
(** MSET with two fragments, not sent yet. *)
Definition r_msg : Msg :=
  mkMsg None None (Some 9%positive) 1 {[ 100 := 1%positive; 7000 := 2%positive ]} [] [] (Some ∅) [] ∅ ∅ 0 0 ReqMset false.
Definition r_frag : Frag := mkFrag None None None (Some 1%positive) 1 0 0 [] [] (str "req") [] [] UNKNOWN false false.
Definition r_store : Store :=
  mkStore {[ 1%positive := r_msg ]} {[ 1%positive := r_frag; 2%positive := r_frag ]} 1 2 [] 3%positive.
Definition r_world (clock : Z) :=
  with_pools
    (with_ticker
       (world_of (mkScript ∅ [] clock)
          {[ 1%positive := idle_server; 2%positive := idle_server; 3%positive := idle_server; 9%positive := idle_client ]}
          r_store)
       0 [] no_nodes (replicate 16384 (Some r_set))) r_pools.
Definition slave_opts : Options := mkOptions 65536 65536 200 1048576 [] 1 false 100.
Definition no_whitelist : @ipMap (gmap_HashMap unit) := no_ips.

Lemma route_serves_witness :
  exists addr isSlave w', route slave_opts (r_world 10) r_msg 7000 = Ok (addr, isSlave, w') /\ pools_only (r_world 10) w' /\
    if isSlave : bool then
      DisableSlave slave_opts = false /\ slave_command (m_Type r_msg) = true /\
      (exists v, v ∈ rs_Slaves r_set /\ n_Addr v = addr) /\ is_Some (w_ProxyPool (r_world 10) !! addr)
    else addr = n_Addr (rs_Master r_set).
Proof.
  apply (@route_serves script_env _ _ slave_opts (r_world 10) r_msg 7000 r_set). vm_compute. reflexivity.
Defined.

(** The ban lasts until 50: at 10 the slave is used. *)
Lemma ban_inverted_witness :
  exists w', route slave_opts (r_world 10)
      (mkMsg None None None 1 ∅ [] [] None [] ∅ ∅ 0 0 ReqGet false) 7000 = Ok (n_Addr r_slave, true, w').
Proof.
  apply (@ban_inverted script_env _ _ slave_opts (r_world 10) (mkMsg None None None 1 ∅ [] [] None [] ∅ ∅ 0 0 ReqGet false)
    7000 r_set r_slave (with_ban (newPool (n_Addr r_slave) [] 1 true) 1 50 true) (mkScript ∅ [] 11) 10).
  - vm_compute. reflexivity.
  - reflexivity.
  - vm_compute. reflexivity.
  - reflexivity.
  - reflexivity.
  - reflexivity.
  - reflexivity.
Defined.

(** A proxy with full pools for the master and for its slave, and an MGET with two
    fragments; slot 7000 may have no replica set. *)
Definition replica_pool : Pool :=
  match pool_run count_dial (fun _ _ => true) skip_close id (newPool (str "a:2") [] 3 true) 4%positive
          [OGet; OGet; OGet] with
  | Ok (_, p, _) => p
  | _ => newPool [] [] 0 false
  end.
Lemma conns_replica_pool : conns replica_pool [4; 5; 6]%positive.
Proof.
  exists [1; 2; 3]%positive. split_and!.
  - split; [|repeat constructor; set_solver|vm_compute; reflexivity..].
    vm_compute. repeat (split; [reflexivity|eexists; split; [reflexivity|split; [reflexivity|]]]). reflexivity.
  - repeat constructor.
  - repeat constructor.
Qed.

Definition f_pools : gmap bytes Pool := {[ n_Addr r_master := full_pool; n_Addr r_slave := replica_pool ]}.
Definition f_msg : Msg :=
  mkMsg None None (Some 9%positive) 1 {[ 100 := 1%positive; 7000 := 2%positive ]} [] [] (Some ∅) [] ∅ ∅ 0 0 ReqMget false.
Definition f_cids : gmap cid conn :=
  {[ 1%positive := idle_server; 2%positive := idle_server; 3%positive := idle_server; 4%positive := idle_server;
     5%positive := idle_server; 6%positive := idle_server; 9%positive := idle_client ]}.
Definition f_store : Store :=
  mkStore {[ 1%positive := f_msg ]} {[ 1%positive := r_frag; 2%positive := r_frag ]} 1 2 [] 3%positive.
Definition f_world (last : option replicaset) :=
  with_pools
    (with_ticker (world_of (mkScript ∅ [] 10) f_cids f_store)
       0 [] no_nodes (replicate 7000 (Some r_set) ++ replicate 9384 last)) f_pools.
Definition f_conns (addr : bytes) : list cid :=
  if bool_decide (addr = n_Addr r_master) then [1; 2; 3]%positive else [4; 5; 6]%positive.

Lemma f_ready last : pools_ready (f_world last) f_conns.
Proof.
  assert (Forall (fun c => exists x, f_cids !! c = Some x /\ c_opened x = true /\ is_Some (c_outFragQueue x))
    [1; 2; 3; 4; 5; 6]%positive) as Hall.
  { repeat constructor; exists idle_server; (split; [reflexivity|]; split; [reflexivity|by eexists]). }
  intros addr [p Hp]. change (w_ProxyPool (f_world last)) with f_pools in *. unfold f_pools in Hp.
  rewrite lookup_insert_Some, lookup_singleton_Some in Hp. destruct Hp as [[<- <-]|[_ [<- <-]]]; (split; [vm_compute; reflexivity|]).
  - exists full_pool, [1; 2; 3]%positive. split; [vm_compute; reflexivity|]. split; [apply conns_full_pool|].
    split; [reflexivity|]. split; [vm_compute; discriminate|]. split; [reflexivity|]. split; [discriminate|].
    exact (Forall_take _ 3 _ Hall).
  - exists replica_pool, [4; 5; 6]%positive. split; [vm_compute; reflexivity|]. split; [apply conns_replica_pool|].
    split; [reflexivity|]. split; [vm_compute; discriminate|]. split; [reflexivity|]. split; [discriminate|].
    exact (Forall_drop _ 3 _ Hall).
Qed.

Lemma f_queues last : frag_queues (f_world last) (fun _ => []).
Proof.
  split; [|done|intros i j k Hk; by apply elem_of_nil in Hk].
  assert (forall c x, f_cids !! c = Some x -> x = idle_server \/ x = idle_client) as Hc.
  { intros c x Hx. unfold f_cids in Hx. rewrite !lookup_insert_Some, lookup_singleton_Some in Hx. naive_solver. }
  intros [c k] q Hq. unfold frag_queue in Hq. cbn [fst snd] in Hq. change (w_conns (f_world last)) with f_cids in Hq.
  destruct (f_cids !! c) as [x|] eqn:Hx; [|done].
  assert (q = emptyQueue) as ->; [|apply queue_repr_empty]. destruct (Hc c x Hx) as [-> | ->]; destruct k; by simplify_eq/=.
Qed.


(** The two fragments go to different connections of the slave; with slaves
    disabled to two of the master; when slot 7000 has no replica set the first
    fragment stays queued and the client gets an error. *)
Definition head_of (w : sample_world) (c : cid) : option fid :=
  match w_conns w !! c with
  | Some x => match c_outFragQueue x with Some q => q_head q | None => None end
  | None => None
  end.
Definition heads (o : Options) (last : option replicaset) : res (option bytes * Action * list (option fid)) :=
  '(out, a, w) ← @server_OnCReact empty_pool script_env _ _ _ (gmap_HashMap unit) sorted_range o no_whitelist (f_world last)
    (Some 1%positive) 9%positive;
  Ok (out, a, map (head_of w) [1; 2; 4; 5]%positive).
Example forwarding_sample :
  heads slave_opts (Some r_set) = Ok ((None, ActNone), [None; None; Some 1%positive; Some 2%positive]) /\
  heads sample_opts (Some r_set) = Ok ((None, ActNone), [Some 1%positive; Some 2%positive; None; None]) /\
  heads slave_opts None = Ok ((Some ErrUnKnownSlot, ActNone), [None; None; Some 1%positive; None]).
Proof. vm_compute. done. Qed.

Lemma empty_request_panics_witness :
  @el_cread empty_pool script_env _ _ _ (@server_ConnHandler script_env _ _ _ (gmap_HashMap unit) sample_opts no_whitelist)
    (@server_LoopHandler empty_pool script_env _ _ _ (gmap_HashMap unit) sorted_range sample_opts no_whitelist) sorted_range sample_opts 1
    (put_conn (r_world 10) 9%positive (set_inbound idle_client None (str "*0" ++ crlf))) 9%positive = Panic.
Proof.
  apply (@empty_request_panics empty_pool script_env _ _ _ (gmap_HashMap unit) sorted_range sample_opts no_whitelist _
    9%positive (set_inbound idle_client None (str "*0" ++ crlf)) [] (str "0") 0).
  - reflexivity.
  - exact I.
  - by left.
  - reflexivity.
Defined.

(** The server connection of [flight_world] closes with three requests in flight. *)
Definition stranded_world :=
  world_of (mkScript ∅ [] 0) {[ 1%positive := server_conn; 9%positive := idle_client ]}
    (mkStore {[ 1%positive := r_msg ]} (frags three_frags) 1 3 [] 4%positive).

Lemma closed_server_strands_witness :
  exists w', server_OnSClosed stranded_world 1%positive None = Ok w' /\
    dropped stranded_world 1%positive server_conn [1; 2; 3]%positive w'.
Proof.
  apply (@closed_server_strands script_env _ _ _ stranded_world 1%positive server_conn [1; 2; 3]%positive None).
  - split; [reflexivity|exact I|]. exists three_queue. split; [reflexivity|exact three_repr].
  - apply Forall_forall. intros f Hf y o Hy Ho. change (frags (w_store stranded_world)) with (frags three_frags) in Hy.
    assert (f_Owner y = Some 9%positive /\ f_Peer y = Some 1%positive) as [Hoy Hpy].
    { cbn [frags three_frags] in Hy. rewrite !lookup_insert_Some, lookup_singleton_Some in Hy. naive_solver. }
    rewrite Ho in Hoy. injection Hoy as ->. split; [by eexists|]. exists 1%positive. split; [done|by eexists].
Defined.
