(* ===== verification/LockFreeQueue.v ===== *)
(** * The lock-free task queue

    [core/internal/queue/lock_free_queue.go], the Michael-Scott queue of the
    poller's tasks.  Any number of threads run [Enqueue], [Dequeue] and [IsEmpty]
    at once; every load, compare-and-swap and addition of the code is one atomic
    step, and the steps of the threads interleave in any order.  Memory is
    garbage collected, so a node is never reused while a thread can reach it:
    new nodes have new addresses.

    Calls and returns are the events of a run.  The theorems: every history of events
    is one of an atomic FIFO queue, in which each operation takes effect at one
    instant between its call and its return; and in every reachable state no thread
    follows a nil pointer, the tail is reached from the head along the linked
    nodes, and the length counter is the number of nodes linked behind the head up
    to the additions still under way. *)

From stdpp Require Import relations.
From S2P Require Import Prelude.

Abbreviation task_ptr := positive.   (* a [*Task] *)
Abbreviation loc := positive.        (* a [*node] *)

Record node := mkNode { value : option task_ptr; next : option loc }.

(** The shared state: the nodes and the three fields of [lockFreeQueue]. *)
Record shared := mkShared {
  nodes : gmap loc node;
  fresh : loc;
  head : loc;
  tail : loc;
  length_ : Z;                        (* int32 *)
}.

Definition set_nodes (m : shared) (h : gmap loc node) : shared := mkShared h (fresh m) (head m) (tail m) (length_ m).
Definition set_head (m : shared) (n : loc) : shared := mkShared (nodes m) (fresh m) n (tail m) (length_ m).
Definition set_tail (m : shared) (n : loc) : shared := mkShared (nodes m) (fresh m) (head m) n (length_ m).
Definition add_length (m : shared) (d : Z) : shared :=
  mkShared (nodes m) (fresh m) (head m) (tail m) (wrap32 (length_ m + d)).

(** [NewLockFreeQueue]: a dummy node. *)
Definition NewLockFreeQueue : shared := mkShared {[ 1%positive := mkNode None None ]} 2 1 1 0.

(** What a call returned. *)
Inductive result : Set := REnqueue | RDequeue (t : option task_ptr) | RIsEmpty (b : bool).

(** Where a thread is: what it does next, with its local variables. *)
Inductive pc : Set :=
  | PRet (r : option result)                              (* between calls *)
  | E1 (n : loc)                                          (* tail := load(&q.tail) *)
  | E2 (n tl : loc)                                       (* next := load(&tail.next) *)
  | E3 (n tl : loc) (nx : option loc)                     (* tail == load(&q.tail) *)
  | E4 (n tl : loc)                                       (* cas(&tail.next, nil, n) *)
  | E4' (n tl nx : loc)                                   (* cas(&q.tail, tail, next) *)
  | E5 (n tl : loc)                                       (* cas(&q.tail, tail, n) *)
  | E6                                                    (* atomic.AddInt32(&q.length, 1) *)
  | D1                                                    (* head := load(&q.head) *)
  | D2 (hd : loc)                                         (* tail := load(&q.tail) *)
  | D3 (hd tl : loc)                                      (* next := load(&head.next) *)
  | D4 (hd tl : loc) (nx : option loc)                    (* head == load(&q.head) *)
  | D5 (tl nx : loc)                                      (* cas(&q.tail, tail, next) *)
  | D6 (hd nx : loc) (t : option task_ptr)                (* cas(&q.head, head, next) *)
  | D7 (t : option task_ptr)                              (* atomic.AddInt32(&q.length, -1) *)
  | L1.                                                   (* atomic.LoadInt32(&q.length) == 0 *)

Definition load (m : shared) (n : loc) : res node :=
  match nodes m !! n with Some x => Ok x | None => Panic end.

(** The calls a thread can make; [Enqueue] allocates its node first. *)
Inductive call : Set := CEnqueue (t : task_ptr) | CDequeue | CIsEmpty.

Definition invoke (m : shared) (c : call) : shared * pc :=
  match c with
  | CEnqueue t =>
      (mkShared (<[fresh m := mkNode (Some t) None]> (nodes m)) (Pos.succ (fresh m)) (head m) (tail m) (length_ m),
       E1 (fresh m))
  | CDequeue => (m, D1)
  | CIsEmpty => (m, L1)
  end.

(** One atomic step of a thread that is inside a call. *)
Definition exec (m : shared) (p : pc) : res (shared * pc) :=
  match p with
  | PRet r => Ok (m, PRet r)
  | E1 n => Ok (m, E2 n (tail m))
  | E2 n tl => x ← load m tl; Ok (m, E3 n tl (next x))
  | E3 n tl nx =>
      if bool_decide (tl = tail m)
      then match nx with None => Ok (m, E4 n tl) | Some nx => Ok (m, E4' n tl nx) end
      else Ok (m, E1 n)
  | E4 n tl =>
      x ← load m tl;
      if bool_decide (next x = None)
      then Ok (set_nodes m (<[tl := mkNode (value x) (Some n)]> (nodes m)), E5 n tl)
      else Ok (m, E1 n)
  | E4' n tl nx => Ok (if bool_decide (tail m = tl) then set_tail m nx else m, E1 n)
  | E5 n tl => Ok (if bool_decide (tail m = tl) then set_tail m n else m, E6)
  | E6 => Ok (add_length m 1, PRet (Some REnqueue))
  | D1 => Ok (m, D2 (head m))
  | D2 hd => Ok (m, D3 hd (tail m))
  | D3 hd tl => x ← load m hd; Ok (m, D4 hd tl (next x))
  | D4 hd tl nx =>
      if bool_decide (hd = head m) then
        if bool_decide (hd = tl) then
          match nx with
          | None => Ok (m, PRet (Some (RDequeue None)))
          | Some nx => Ok (m, D5 tl nx)
          end
        else
          match nx with
          | None => Panic                                  (* next.value *)
          | Some nx => x ← load m nx; Ok (m, D6 hd nx (value x))
          end
      else Ok (m, D1)
  | D5 tl nx => Ok (if bool_decide (tail m = tl) then set_tail m nx else m, D1)
  | D6 hd nx t => if bool_decide (head m = hd) then Ok (set_head m nx, D7 t) else Ok (m, D1)
  | D7 t => Ok (add_length m (-1), PRet (Some (RDequeue t)))
  | L1 => Ok (m, PRet (Some (RIsEmpty (length_ m =? 0))))
  end.

(** The threads, by number. *)
Record state := mkState { mem : shared; threads : list pc }.

Definition init (n : nat) : state := mkState NewLockFreeQueue (replicate n (PRet None)).

(** What can be observed of a run: thread [i] calls, thread [i] returns. *)
Inductive event : Set := Invoke (i : nat) (c : call) | Return (i : nat) (r : result).

(** The event of a step of thread [i] inside a call: the last one returns. *)
Definition returns (i : nat) (p p' : pc) : list event :=
  match p, p' with PRet _, _ => [] | _, PRet (Some r) => [Return i r] | _, _ => [] end.

Inductive step : state -> list event -> state -> Prop :=
  | step_call s i r c m p :
      threads s !! i = Some (PRet r) -> invoke (mem s) c = (m, p) ->
      step s [Invoke i c] (mkState m (<[i := p]> (threads s)))
  | step_exec s i p m p' :
      threads s !! i = Some p -> exec (mem s) p = Ok (m, p') ->
      step s (returns i p p') (mkState m (<[i := p']> (threads s))).

(** A run with its history. *)
Inductive run (s : state) : list event -> state -> Prop :=
  | run_start : run s [] s
  | run_step h s1 e s2 : run s h s1 -> step s1 e s2 -> run s (h ++ e) s2.

(** ** The atomic queue *)

(** A thread of the specification: between calls, in a call that has not taken
    effect, or in one that has. *)
Inductive athread : Set :=
  | ARet (r : option result)
  | AEnqueue (t : task_ptr)
  | AEnqueued
  | ADequeue (empty : bool)           (* [true]: the queue was seen empty *)
  | ADequeued (t : task_ptr)
  | AIsEmpty.

Record astate := mkAbs { queue : list task_ptr; athreads : list athread }.

Inductive atomic (q : list task_ptr) : athread -> list task_ptr -> athread -> Prop :=
  | at_call_enq r t : atomic q (ARet r) q (AEnqueue t)
  | at_call_deq r : atomic q (ARet r) q (ADequeue false)
  | at_call_empty r : atomic q (ARet r) q AIsEmpty
  | at_enq t : atomic q (AEnqueue t) (q ++ [t]) AEnqueued
  | at_ret_enq : atomic q AEnqueued q (ARet (Some REnqueue))
  | at_see_empty b : q = [] -> atomic q (ADequeue b) q (ADequeue true)
  | at_retry b : atomic q (ADequeue b) q (ADequeue false)
  | at_deq b t q' : q = t :: q' -> atomic q (ADequeue b) q' (ADequeued t)
  | at_ret_deq t : atomic q (ADequeued t) q (ARet (Some (RDequeue (Some t))))
  | at_ret_none : atomic q (ADequeue true) q (ARet (Some (RDequeue None)))
  | at_ret_empty b : atomic q AIsEmpty q (ARet (Some (RIsEmpty b)))
  | at_stay a : atomic q a q a.

(** The event of a move of thread [i], and its effect on the queue. *)
Definition shown (i : nat) (a a' : athread) : list event :=
  match a, a' with
  | ARet _, AEnqueue t => [Invoke i (CEnqueue t)]
  | ARet _, ADequeue _ => [Invoke i CDequeue]
  | ARet _, AIsEmpty => [Invoke i CIsEmpty]
  | ARet _, _ => []
  | _, ARet (Some r) => [Return i r]
  | _, _ => []
  end.

Inductive effect : Set := Enq (t : task_ptr) | Deq (t : task_ptr).
Definition effects (a a' : athread) : list effect :=
  match a, a' with
  | AEnqueue t, AEnqueued => [Enq t]
  | ADequeue _, ADequeued t => [Deq t]
  | _, _ => []
  end.

Inductive astep : astate -> list event -> list effect -> astate -> Prop :=
  | astep_thread s i a q a' :
      athreads s !! i = Some a -> atomic (queue s) a q a' ->
      astep s (shown i a a') (effects a a') (mkAbs q (<[i := a']> (athreads s))).

(** A run of the atomic queue with its history and its effects, in order. *)
Inductive arun (s : astate) : list event -> list effect -> astate -> Prop :=
  | arun_start : arun s [] [] s
  | arun_step h es s1 h' es' s2 : arun s h es s1 -> astep s1 h' es' s2 -> arun s (h ++ h') (es ++ es') s2.

Definition enqueued (es : list effect) : list task_ptr := omap (fun e => match e with Enq t => Some t | _ => None end) es.
Definition dequeued (es : list effect) : list task_ptr := omap (fun e => match e with Deq t => Some t | _ => None end) es.

(** The tasks given to [Enqueue] and those that [Dequeue] returned, in a history. *)
Definition called (h : list event) : list task_ptr :=
  omap (fun e => match e with Invoke _ (CEnqueue t) => Some t | _ => None end) h.
Definition answered (h : list event) : list task_ptr :=
  omap (fun e => match e with Return _ (RDequeue t) => t | _ => None end) h.

(** The tasks of calls under way: not enqueued yet, and taken but not returned. *)
Definition waiting (ts : list athread) : list task_ptr := omap (fun a => match a with AEnqueue t => Some t | _ => None end) ts.
Definition holding (ts : list athread) : list task_ptr := omap (fun a => match a with ADequeued t => Some t | _ => None end) ts.

Definition ainit (n : nat) : astate := mkAbs [] (replicate n (ARet None)).

(** ** Running a schedule *)

(** A schedule names the thread that moves and, when it is between calls, the call
    it makes. *)
Definition move (s : state) (k : nat * option call) : option state :=
  match threads s !! fst k, snd k with
  | Some (PRet _), Some c => let '(m, p) := invoke (mem s) c in Some (mkState m (<[fst k := p]> (threads s)))
  | Some p, None =>
      match exec (mem s) p with Ok (m, p') => Some (mkState m (<[fst k := p']> (threads s))) | _ => None end
  | _, _ => None
  end.

Fixpoint schedule (s : state) (ks : list (nat * option call)) : option state :=
  match ks with
  | [] => Some s
  | k :: ks => match move s k with Some s' => schedule s' ks | None => None end
  end.

(** The history of a schedule. *)
Definition move_event (s s' : state) (k : nat * option call) : list event :=
  match snd k, threads s !! fst k, threads s' !! fst k with
  | Some c, _, _ => [Invoke (fst k) c]
  | None, Some p, Some p' => returns (fst k) p p'
  | _, _, _ => []
  end.

Fixpoint history (s : state) (ks : list (nat * option call)) : list event :=
  match ks with
  | [] => []
  | k :: ks => match move s k with Some s' => move_event s s' k ++ history s' ks | None => [] end
  end.

Lemma move_step s k s' : move s k = Some s' -> step s (move_event s s' k) s'.
Proof.
  unfold move, move_event. destruct k as [i [c|]]; cbn [fst snd]; destruct (threads s !! i) as [p|] eqn:Ht; try done.
  - destruct p; try done. destruct (invoke (mem s) c) as [m q] eqn:Hi. intros [= <-]. by eapply step_call.
  - intros Hm. assert (exists m p', exec (mem s) p = Ok (m, p') /\ s' = mkState m (<[i:=p']> (threads s)))
      as (m & p' & He & ->).
    { destruct p; destruct (exec (mem s) _) as [[m p']| |] eqn:He; try done; naive_solver. }
    cbn [threads]. rewrite list_lookup_insert_eq by by eapply lookup_lt_Some. by eapply step_exec.
Qed.

Lemma run_trans s h1 s1 h2 s2 : run s h1 s1 -> run s1 h2 s2 -> run s (h1 ++ h2) s2.
Proof.
  intros H1. induction 1 as [|h sa e sb _ IH Hs]; [by rewrite app_nil_r|].
  rewrite app_assoc. by eapply run_step.
Qed.

Lemma schedule_run ks s s' : schedule s ks = Some s' -> run s (history s ks) s'.
Proof.
  revert s. induction ks as [|k ks IH]; intros s; cbn [schedule history]; [intros [= ->]; apply run_start|].
  destruct (move s k) as [s1|] eqn:Hm; [|done]. intros Hs. apply (run_trans _ _ s1); [|by apply IH].
  apply (run_step s [] s); [apply run_start|by apply move_step].
Qed.

(** ** Accounts of the atomic queue *)

Lemma omap_insert {A B} (f : A -> option B) (l : list A) i x y :
  l !! i = Some x -> omap f (<[i := y]> l) ++ omap f [x] ≡ₚ omap f l ++ omap f [y].
Proof.
  revert i. induction l as [|a l IH]; intros [|i] Hi; simplify_eq/=.
  - destruct (f x) as [b|], (f y) as [c|]; simpl; rewrite ?app_nil_r; solve_Permutation.
  - specialize (IH _ Hi). simpl in IH. destruct (f a) as [b|]; [|done]. simpl. by rewrite IH.
Qed.

(** First in, first out; and what comes out was put in, once. *)
Record accounts (h : list event) (es : list effect) (a : astate) : Prop := {
  ac_fifo : enqueued es = dequeued es ++ queue a;
  ac_in : called h ≡ₚ enqueued es ++ waiting (athreads a);
  ac_out : dequeued es ≡ₚ answered h ++ holding (athreads a);
}.

Lemma accounts_step h es a h' es' a' : accounts h es a -> astep a h' es' a' -> accounts (h ++ h') (es ++ es') a'.
Proof.
  intros [Hf Hi Ho] Hs. destruct Hs as [[q ts] i x q' x' Hx Ha]. cbn [queue athreads] in *.
  pose proof (omap_insert (fun a => match a with AEnqueue t => Some t | _ => None end) ts i x x' Hx) as Hw.
  pose proof (omap_insert (fun a => match a with ADequeued t => Some t | _ => None end) ts i x x' Hx) as Hh.
  fold (waiting ts) (waiting (<[i:=x']> ts)) in Hw. fold (holding ts) (holding (<[i:=x']> ts)) in Hh.
  assert (Hstay : forall a, shown i a a = [] /\ effects a a = []) by (intros []; done).
  unfold enqueued, dequeued, called, answered in *.
  split; cbn [queue athreads]; unfold enqueued, dequeued, called, answered in *; rewrite !omap_app; [rewrite Hf|rewrite Hi|rewrite Ho];
    destruct Ha; try rewrite (proj1 (Hstay _)); try rewrite (proj2 (Hstay _)); simpl in *; rewrite ?app_nil_r in *;
    simplify_eq/=; rewrite <- ?app_assoc; try done; rewrite ?Hw, ?Hh; try done; f_equiv;
    solve [by rewrite list_insert_id | rewrite <- ?Hw, <- ?Hh; solve_Permutation].
Qed.

Lemma arun_accounts n h es a : arun (ainit n) h es a -> accounts h es a.
Proof.
  induction 1 as [|h es s1 h' es' s2 _ IH Hs]; [|by eapply accounts_step].
  split; cbn; [done|..]; unfold waiting, holding; by induction n.
Qed.

(** ** The invariant *)

(** [L] is every node that was ever linked, in order. *)
Definition chain (h : gmap loc node) (L : list loc) : Prop :=
  forall i n, L !! i = Some n -> exists v, h !! n = Some (mkNode v (L !! S i)) /\ ((0 < i)%nat -> is_Some v).

(** A node only its thread knows: allocated, not linked. *)
Definition private (h : gmap loc node) (L : list loc) (n : loc) : Prop :=
  n ∉ L /\ exists v, h !! n = Some (mkNode (Some v) None).

Definition own (p : pc) : option loc :=
  match p with
  | E1 n | E2 n _ | E3 n _ _ | E4 n _ | E4' n _ _ => Some n
  | _ => None
  end.

(** What a thread knows of the chain, with the head at position [hp] and the tail
    at position [tp]. *)
Definition knows (h : gmap loc node) (L : list loc) (hp tp : nat) (p : pc) : Prop :=
  match p with
  | PRet _ | E1 _ | E6 | D1 | L1 => True
  | E2 _ tl | E4 _ tl => exists i, L !! i = Some tl /\ i <= tp
  | E3 _ tl nx => exists i, L !! i = Some tl /\ i <= tp /\ (nx = None \/ nx = L !! S i)
  | E4' _ tl nx | E5 nx tl | D5 tl nx => exists i, L !! i = Some tl /\ i <= tp /\ L !! S i = Some nx
  | D2 hd => exists i, L !! i = Some hd /\ i <= hp
  | D3 hd tl => exists i j, L !! i = Some hd /\ L !! j = Some tl /\ i <= j <= tp /\ i <= hp
  | D4 hd tl nx =>
      exists i j, L !! i = Some hd /\ L !! j = Some tl /\ i <= j <= tp /\ i <= hp /\
                  match nx with None => i = j | Some n => L !! S i = Some n end
  | D6 hd nx t =>
      exists i v x, L !! i = Some hd /\ L !! S i = Some nx /\ i < tp /\
                    h !! nx = Some (mkNode (Some v) x) /\ t = Some v
  | D7 t => is_Some t
  end%nat.

(** What is still to be added to the counter, subtracted. *)
Definition pending (p : pc) : Z :=
  match p with E5 _ _ | E6 => -1 | D7 _ => 1 | _ => 0 end.

Definition total (T : list pc) : Z := foldr (fun p z => pending p + z) 0 T.

Record inv (s : state) (L : list loc) (hp tp : nat) : Prop := mkInv {
  inv_nodup : NoDup L;
  inv_chain : chain (nodes (mem s)) L;
  inv_fresh n : is_Some (nodes (mem s) !! n) -> (n < fresh (mem s))%positive;
  inv_head : L !! hp = Some (head (mem s));
  inv_tail : L !! tp = Some (tail (mem s));
  inv_le : (hp <= tp)%nat;
  inv_knows i p : threads s !! i = Some p -> knows (nodes (mem s)) L hp tp p;
  inv_private i p n : threads s !! i = Some p -> own p = Some n -> private (nodes (mem s)) L n;
  inv_own i j p q n :
    threads s !! i = Some p -> threads s !! j = Some q -> own p = Some n -> own q = Some n -> i = j;
  inv_length : length_ (mem s) = wrap32 (Z.of_nat (length (drop (S hp) L)) + total (threads s));
}.

(** *** How the invariant grows *)

(** Nodes are never dropped and their values never change. *)
Definition keeps (h h' : gmap loc node) : Prop :=
  forall n x, h !! n = Some x -> exists y, h' !! n = Some y /\ value y = value x.

Lemma keeps_refl h : keeps h h.
Proof. intros n x Hx. by exists x. Qed.

Lemma keeps_value h h' n v x : keeps h h' -> h !! n = Some (mkNode v x) -> exists y, h' !! n = Some (mkNode v y).
Proof. intros Hk Hn. destruct (Hk _ _ Hn) as ([v' y] & Hy & Hv). simpl in Hv. subst. eauto. Qed.

Lemma prefix_lookup' (L L' : list loc) i n : L `prefix_of` L' -> L !! i = Some n -> L' !! i = Some n.
Proof. intros [K ->] Hi. rewrite lookup_app_l; [done|]. by eapply lookup_lt_Some. Qed.

Lemma knows_mono h h' L L' hp hp' tp tp' p :
  keeps h h' -> L `prefix_of` L' -> (hp <= hp')%nat -> (tp <= tp')%nat ->
  knows h L hp tp p -> knows h' L' hp' tp' p.
Proof.
  intros Hk HL Hh Ht.
  assert (forall i n, L !! i = Some n -> L' !! i = Some n) as HP by (intros; by eapply prefix_lookup').
  destruct p as [ |n|n tl|n tl nx|n tl|n tl nx|n tl| | |hd|hd tl|hd tl nx|tl nx|hd nx t|t| ]; cbn [knows]; try done.
  - intros (i & H1 & H2). exists i. split; [auto|lia].
  - intros (i & H1 & H2 & H3). exists i. split_and!; [auto|lia|].
    destruct nx as [nx|]; [|by left]. right. destruct H3 as [|H3]; [done|]. symmetry. by apply HP.
  - intros (i & H1 & H2). exists i. split; [auto|lia].
  - intros (i & H1 & H2 & H3). exists i. split_and!; [auto|lia|auto].
  - intros (i & H1 & H2 & H3). exists i. split_and!; [auto|lia|auto].
  - intros (i & H1 & H2). exists i. split; [auto|lia].
  - intros (i & j & H1 & H2 & H3 & H4). exists i, j. split_and!; [auto|auto|lia|lia|lia].
  - intros (i & j & H1 & H2 & H3 & H4 & H5). exists i, j. split_and!; [auto|auto|lia|lia|lia|].
    destruct nx; [by apply HP|done].
  - intros (i & H1 & H2 & H3). exists i. split_and!; [auto|lia|auto].
  - intros (i & v & x & H1 & H2 & H3 & H4 & ->). destruct (keeps_value _ _ _ _ _ Hk H4) as [y Hy].
    exists i, v, y. split_and!; [auto|auto|lia|done|done].
Qed.

Lemma total_insert T i p p' : T !! i = Some p -> total (<[i:=p']> T) = total T - pending p + pending p'.
Proof.
  revert i. induction T as [|q T IH]; intros [|i]; simpl; try done.
  - intros [= ->]. fold (total T). lia.
  - intros Hi. fold (total (<[i:=p']> T)) (total T). rewrite (IH _ Hi). lia.
Qed.

(** A thread moves from [p] to [p'] and the memory from the state's to [m']. *)
Lemma inv_update s L hp tp i p m' L' hp' tp' p' :
  inv s L hp tp -> threads s !! i = Some p ->
  NoDup L' -> chain (nodes m') L' ->
  (forall n, is_Some (nodes m' !! n) -> (n < fresh m')%positive) ->
  L' !! hp' = Some (head m') -> L' !! tp' = Some (tail m') -> (hp' <= tp')%nat ->
  L `prefix_of` L' -> (hp <= hp')%nat -> (tp <= tp')%nat -> keeps (nodes (mem s)) (nodes m') ->
  (forall n, own p <> Some n -> private (nodes (mem s)) L n -> private (nodes m') L' n) ->
  knows (nodes m') L' hp' tp' p' ->
  (forall n, own p' = Some n -> private (nodes m') L' n /\ (own p = Some n \/ nodes (mem s) !! n = None)) ->
  length_ m' = wrap32 (Z.of_nat (length (drop (S hp') L')) + (total (threads s) - pending p + pending p')) ->
  inv (mkState m' (<[i:=p']> (threads s))) L' hp' tp'.
Proof.
  intros Hs Hi Hnd Hch Hfr Hhd Htl Hle HL Hhp Htp Hk Hpr Hkn Hown Hlen.
  split; cbn [mem threads]; try done.
  - intros j q. destruct (decide (i = j)) as [->|Hne].
    + rewrite list_lookup_insert_eq by by eapply lookup_lt_Some. by intros [= <-].
    + rewrite list_lookup_insert_ne by done. intros Hq. eapply knows_mono; [done..|]. by eapply inv_knows.
  - intros j q n. destruct (decide (i = j)) as [->|Hne].
    + rewrite list_lookup_insert_eq by by eapply lookup_lt_Some. intros [= <-] Hq. by apply Hown.
    + rewrite list_lookup_insert_ne by done. intros Hq Ho. apply Hpr; [|by eapply inv_private].
      intros Hp. apply Hne. by eapply (inv_own _ _ _ _ Hs i j).
  - assert (forall j q n, i <> j -> threads s !! j = Some q -> own q = Some n -> own p' = Some n -> False) as Hdis.
    { intros j q n Hne Hq Hn Hn'. destruct (Hown _ Hn') as [_ [Hp|Hnone]].
      - apply Hne. by eapply (inv_own _ _ _ _ Hs i j).
      - destruct (inv_private _ _ _ _ Hs j q n Hq Hn) as [_ [v Hv]]. congruence. }
    assert (i < length (threads s))%nat as Hlt by by eapply lookup_lt_Some.
    intros j k q r n. destruct (decide (i = j)) as [<-|Hj]; destruct (decide (i = k)) as [<-|Hk'];
      rewrite ?list_lookup_insert_eq, ?list_lookup_insert_ne by done; intros Hq Hr Hnq Hnr; simplify_eq.
    + done.
    + by destruct (Hdis k r n).
    + by destruct (Hdis j q n).
    + by eapply (inv_own _ _ _ _ Hs j k).
  - rewrite Hlen. f_equal. by rewrite (total_insert _ _ _ _ Hi).
Qed.

(** The nodes stay as they are; the head and the tail may have moved on. *)
Lemma inv_move s L hp tp i p m' hp' tp' p' :
  inv s L hp tp -> threads s !! i = Some p -> nodes m' = nodes (mem s) -> fresh m' = fresh (mem s) ->
  L !! hp' = Some (head m') -> L !! tp' = Some (tail m') -> (hp <= hp' <= tp')%nat -> (tp <= tp')%nat ->
  knows (nodes (mem s)) L hp' tp' p' ->
  (forall n, own p' = Some n -> own p = Some n) ->
  length_ m' = wrap32 (Z.of_nat (length (drop (S hp') L)) + (total (threads s) - pending p + pending p')) ->
  inv (mkState m' (<[i:=p']> (threads s))) L hp' tp'.
Proof.
  intros Hs Hi Hn Hf Hh Ht Hle Htp Hkn Hown Hlen.
  eapply (inv_update s L hp tp i p); rewrite ?Hn, ?Hf; try done; try apply Hs; try lia.
  - apply keeps_refl.
  - intros n Hp. apply Hown in Hp as Hp'. split; [|by left]. by eapply (inv_private _ _ _ _ Hs i p).
Qed.

(** Only the thread moves. *)
Lemma inv_local s L hp tp i p p' :
  inv s L hp tp -> threads s !! i = Some p ->
  knows (nodes (mem s)) L hp tp p' -> (forall n, own p' = Some n -> own p = Some n) -> pending p = pending p' ->
  inv (mkState (mem s) (<[i:=p']> (threads s))) L hp tp.
Proof.
  intros Hs Hi Hkn Hown Hpe. eapply (inv_move s L hp tp i p); try done; try apply Hs.
  - split; [lia|apply Hs].
  - rewrite (inv_length _ _ _ _ Hs). f_equal. lia.
Qed.

(** A compare-and-swap of the tail towards the next node. *)
Lemma inv_swing s L hp tp i p tl nx p' :
  inv s L hp tp -> threads s !! i = Some p ->
  (exists k, L !! k = Some tl /\ (k <= tp)%nat /\ L !! S k = Some nx) ->
  (forall tp', (tp <= tp')%nat -> knows (nodes (mem s)) L hp tp' p') ->
  (forall n, own p' = Some n -> own p = Some n) -> pending p = pending p' ->
  let m' := if bool_decide (tail (mem s) = tl) then set_tail (mem s) nx else mem s in
  exists tp', inv (mkState m' (<[i:=p']> (threads s))) L hp tp' /\ nodes m' = nodes (mem s).
Proof.
  intros Hs Hi (k & Hk & Hle & Hnx) Hkn Hown Hpe. case_bool_decide as Heq; simpl.
  - exists (S tp). split; [|done].
    assert (k = tp) as ->.
    { apply (NoDup_lookup L k tp tl); [apply Hs|done|]. rewrite <- Heq. apply Hs. }
    eapply (inv_move s L hp tp i p); try done; try apply Hs.
    + pose proof (inv_le _ _ _ _ Hs). lia.
    + lia.
    + apply Hkn. lia.
    + simpl. rewrite (inv_length _ _ _ _ Hs). f_equal. lia.
  - exists tp. split; [|done]. apply (inv_local s L hp tp i p p'); [done|done|by apply Hkn|done|done].
Qed.

(** ** The abstraction *)

Definition node_task (h : gmap loc node) (n : loc) : option task_ptr :=
  match h !! n with Some x => value x | None => None end.

(** The tasks linked behind the head. *)
Definition contents (h : gmap loc node) (L : list loc) (hp : nat) : list task_ptr :=
  omap (node_task h) (drop (S hp) L).

Definition abs_pc (h : gmap loc node) (p : pc) : athread :=
  match p with
  | PRet r => ARet r
  | E1 n | E2 n _ | E3 n _ _ | E4 n _ | E4' n _ _ => AEnqueue (default 1%positive (node_task h n))
  | E5 _ _ | E6 => AEnqueued
  | D1 | D2 _ | D3 _ _ | D5 _ _ | D6 _ _ _ | D4 _ _ (Some _) => ADequeue false
  | D4 _ _ None => ADequeue true
  | D7 t => ADequeued (default 1%positive t)
  | L1 => AIsEmpty
  end.

Lemma node_task_keeps h h' n : keeps h h' -> is_Some (h !! n) -> node_task h' n = node_task h n.
Proof. intros Hk [x Hx]. unfold node_task. destruct (Hk _ _ Hx) as (y & -> & Hy). by rewrite Hx. Qed.

Lemma contents_keeps h h' L hp :
  keeps h h' -> (forall n, n ∈ L -> is_Some (h !! n)) -> contents h' L hp = contents h L hp.
Proof.
  intros Hk HL. unfold contents. assert (forall n, n ∈ drop (S hp) L -> is_Some (h !! n)) as HD.
  { intros n Hn. apply HL. apply list_elem_of_lookup in Hn as [j Hj].
    rewrite lookup_drop in Hj. by eapply list_elem_of_lookup_2. }
  revert HD. induction (drop (S hp) L) as [|n K IH]; intros HD; [done|].
  cbn [omap list_omap]. rewrite (node_task_keeps h h' n) by (try done; apply HD; set_solver).
  rewrite IH; [done|]. set_solver.
Qed.

Lemma abs_keeps h h' p L : keeps h h' -> (forall n, own p = Some n -> private h L n) -> abs_pc h' p = abs_pc h p.
Proof.
  intros Hk Hp. destruct p; try done; cbn [abs_pc]; f_equal; f_equal; apply node_task_keeps; try done;
    destruct (Hp _ eq_refl) as [_ [v Hv]]; eauto.
Qed.

Lemma chain_some s L hp tp n : inv s L hp tp -> n ∈ L -> is_Some (nodes (mem s) !! n).
Proof.
  intros Hs Hn. apply list_elem_of_lookup in Hn as [i Hi]. destruct (inv_chain _ _ _ _ Hs _ _ Hi) as (v & Hv & _). eauto.
Qed.

(** ** The simulation *)

(** Thread [i] moves from [p] to [p'], the memory to [m']: the invariant holds again
    and the atomic queue makes one move. *)
Definition simulates (s : state) (L : list loc) (hp i : nat) (p : pc) (m' : shared) (p' : pc) : Prop :=
  exists L' hp' tp',
    inv (mkState m' (<[i:=p']> (threads s))) L' hp' tp' /\ keeps (nodes (mem s)) (nodes m') /\
    atomic (contents (nodes (mem s)) L hp) (abs_pc (nodes (mem s)) p)
           (contents (nodes m') L' hp') (abs_pc (nodes m') p').

Lemma simulates_local s L hp tp i p p' :
  inv s L hp tp -> threads s !! i = Some p ->
  knows (nodes (mem s)) L hp tp p' -> (forall n, own p' = Some n -> own p = Some n) -> pending p = pending p' ->
  atomic (contents (nodes (mem s)) L hp) (abs_pc (nodes (mem s)) p)
         (contents (nodes (mem s)) L hp) (abs_pc (nodes (mem s)) p') ->
  simulates s L hp i p (mem s) p'.
Proof.
  intros Hs Hi Hk Ho Hp Ha. exists L, hp, tp. split_and!; [|apply keeps_refl|done].
  by eapply (inv_local s L hp tp i p).
Qed.

Lemma simulates_swing s L hp tp i p tl nx p' :
  inv s L hp tp -> threads s !! i = Some p ->
  (exists k, L !! k = Some tl /\ (k <= tp)%nat /\ L !! S k = Some nx) ->
  (forall tp', (tp <= tp')%nat -> knows (nodes (mem s)) L hp tp' p') ->
  (forall n, own p' = Some n -> own p = Some n) -> pending p = pending p' ->
  atomic (contents (nodes (mem s)) L hp) (abs_pc (nodes (mem s)) p)
         (contents (nodes (mem s)) L hp) (abs_pc (nodes (mem s)) p') ->
  simulates s L hp i p (if bool_decide (tail (mem s) = tl) then set_tail (mem s) nx else mem s) p'.
Proof.
  intros Hs Hi Hnx Hk Ho Hp Ha.
  destruct (inv_swing s L hp tp i p tl nx p' Hs Hi Hnx Hk Ho Hp) as (tp' & Hinv & Hn).
  exists L, hp, tp'. rewrite Hn. split_and!; [done|apply keeps_refl|done].
Qed.

(** The counter moves by [d]. *)
Lemma simulates_count s L hp tp i p d p' :
  inv s L hp tp -> threads s !! i = Some p ->
  knows (nodes (mem s)) L hp tp p' -> own p' = None -> d = pending p' - pending p ->
  atomic (contents (nodes (mem s)) L hp) (abs_pc (nodes (mem s)) p)
         (contents (nodes (mem s)) L hp) (abs_pc (nodes (mem s)) p') ->
  simulates s L hp i p (add_length (mem s) d) p'.
Proof.
  intros Hs Hi Hk Ho Hd Ha. exists L, hp, tp. split_and!; [|apply keeps_refl|done].
  eapply (inv_move s L hp tp i p); try done; try apply Hs.
  - split; [lia|apply Hs].
  - by rewrite Ho.
  - simpl. rewrite (inv_length _ _ _ _ Hs), wrap32_add. f_equal. lia.
Qed.

(** *** Linking a node: where [Enqueue] takes effect *)

Lemma chain_link h L n v w tl :
  NoDup L -> chain h L -> n ∉ L -> h !! n = Some (mkNode (Some v) None) ->
  L !! (length L - 1)%nat = Some tl -> h !! tl = Some (mkNode w None) ->
  chain (<[tl := mkNode w (Some n)]> h) (L ++ [n]).
Proof.
  intros Hnd Hc Hn Hv Hl Htl i k Hk.
  assert (0 < length L)%nat by (apply lookup_lt_Some in Hl; lia).
  assert (tl ∈ L) by by eapply list_elem_of_lookup_2.
  apply lookup_app_Some in Hk as [Hk|[Hge Hk]].
  - assert (i < length L)%nat by by eapply lookup_lt_Some.
    destruct (Hc _ _ Hk) as (u & Hu & Hp). destruct (decide (k = tl)) as [->|Hne].
    + assert (i = length L - 1)%nat as -> by by eapply NoDup_lookup.
      rewrite lookup_insert_eq. exists w. simplify_eq. split; [|done]. f_equal. f_equal.
      rewrite lookup_app_r by lia. by replace (S (length L - 1) - length L)%nat with 0%nat by lia.
    + rewrite lookup_insert_ne by done. exists u. split; [|done].
      rewrite Hu. f_equal. f_equal. rewrite lookup_app_l; [done|].
      destruct (decide (S i = length L)); [|lia]. exfalso. apply Hne.
      replace (length L - 1)%nat with i in Hl by lia. congruence.
  - apply list_lookup_singleton_Some in Hk as [Hi <-].
    rewrite lookup_insert_ne by (intros ->; done). exists (Some v). split; [|eauto].
    rewrite Hv. f_equal. f_equal. symmetry. apply lookup_ge_None. rewrite length_app. simpl. lia.
Qed.

Lemma drop_snoc {A} (L : list A) k x : (k <= length L)%nat -> drop k (L ++ [x]) = drop k L ++ [x].
Proof. intros Hk. by rewrite drop_app_le. Qed.

Lemma simulates_link s L hp tp i n tl w :
  inv s L hp tp -> threads s !! i = Some (E4 n tl) -> nodes (mem s) !! tl = Some (mkNode w None) ->
  simulates s L hp i (E4 n tl) (set_nodes (mem s) (<[tl := mkNode w (Some n)]> (nodes (mem s)))) (E5 n tl).
Proof.
  intros Hs Hi Htl. destruct (inv_knows _ _ _ _ Hs _ _ Hi) as (k & Hk & Hle).
  destruct (inv_private _ _ _ _ Hs _ _ n Hi eq_refl) as [Hn [v Hv]].
  destruct (inv_chain _ _ _ _ Hs _ _ Hk) as (w' & Hw' & _). rewrite Htl in Hw'. injection Hw' as <- Hend.
  assert (S k = length L) as Hlast.
  { apply lookup_lt_Some in Hk. symmetry in Hend. apply lookup_ge_None in Hend. lia. }
  assert (hp < length L)%nat by (eapply lookup_lt_Some, (inv_head _ _ _ _ Hs)).
  assert (tp < length L)%nat by (eapply lookup_lt_Some, (inv_tail _ _ _ _ Hs)).
  assert (Hkeep : keeps (nodes (mem s)) (<[tl := mkNode w (Some n)]> (nodes (mem s)))).
  { intros m x Hm. destruct (decide (m = tl)) as [->|]; [rewrite lookup_insert_eq|rewrite lookup_insert_ne by done]; naive_solver. }
  exists (L ++ [n]), hp, tp. split_and!; [|done|].
  - eapply (inv_update s L hp tp i (E4 n tl)); simpl; try done; try apply Hs.
    + apply NoDup_app. split_and!; [apply Hs|set_solver|apply NoDup_singleton].
    + eapply chain_link; try done; try apply Hs. by replace (length L - 1)%nat with k by lia.
    + intros m. destruct (decide (m = tl)) as [->|]; [|rewrite lookup_insert_ne by done; apply Hs].
      intros _. apply (inv_fresh _ _ _ _ Hs). eauto.
    + rewrite lookup_app_l by done. apply Hs.
    + rewrite lookup_app_l by done. apply Hs.
    + by exists [n].
    + intros m Hne [Hm [u Hu]]. split; [set_solver|]. exists u. rewrite lookup_insert_ne; [done|].
      intros <-. apply Hm. by eapply list_elem_of_lookup_2.
    + exists k. split_and!; [by rewrite lookup_app_l by lia|done|]. rewrite lookup_app_r by lia.
      by replace (S k - length L)%nat with 0%nat by lia.
    + rewrite (inv_length _ _ _ _ Hs), drop_snoc, length_app by lia. simpl. f_equal. lia.
  - cbn [abs_pc nodes set_nodes].
    assert (contents (<[tl:=mkNode w (Some n)]> (nodes (mem s))) (L ++ [n]) hp = contents (nodes (mem s)) L hp ++ [v]) as ->.
    { rewrite (contents_keeps (nodes (mem s))); [|done|].
      - unfold contents. rewrite drop_snoc, omap_app by lia. f_equal. simpl. unfold node_task. by rewrite Hv.
      - intros m Hm. apply elem_of_app in Hm as [Hm|Hm]; [by eapply chain_some|].
        apply list_elem_of_singleton in Hm as ->. eauto. }
    unfold node_task. rewrite Hv. constructor.
Qed.

(** *** Moving the head: where [Dequeue] takes effect *)

Lemma simulates_take s L hp tp i hd nx t :
  inv s L hp tp -> threads s !! i = Some (D6 hd nx t) -> head (mem s) = hd ->
  simulates s L hp i (D6 hd nx t) (set_head (mem s) nx) (D7 t).
Proof.
  intros Hs Hi Hhd. destruct (inv_knows _ _ _ _ Hs _ _ Hi) as (k & v & x & Hk & Hnx & Hlt & Hv & ->).
  assert (k = hp) as ->.
  { apply (NoDup_lookup L k hp hd); [apply Hs|done|]. rewrite <- Hhd. apply Hs. }
  exists L, (S hp), tp. split_and!; [|apply keeps_refl|].
  - eapply (inv_move s L hp tp i (D6 hd nx (Some v))); try done; try apply Hs.
    + lia.
    + by eexists.
    + cbn [length_ set_head pending]. rewrite (inv_length _ _ _ _ Hs).
      rewrite (drop_S L nx (S hp)) by done. simpl length. f_equal. lia.
  - cbn [abs_pc nodes set_head default]. unfold contents. rewrite (drop_S L nx (S hp)) by done.
    cbn [omap list_omap]. unfold node_task at 1. rewrite Hv. simpl. by eapply at_deq.
Qed.

(** *** The calls *)

Lemma simulates_call s L hp tp i r c m' p' :
  inv s L hp tp -> threads s !! i = Some (PRet r) -> invoke (mem s) c = (m', p') ->
  simulates s L hp i (PRet r) m' p'.
Proof.
  intros Hs Hi. destruct c as [t| |]; cbn [invoke]; intros [= <- <-].
  2-3: by eapply simulates_local; try done; constructor.
  assert (nodes (mem s) !! fresh (mem s) = None) as Hf.
  { apply eq_None_not_Some. intros Hf. apply (inv_fresh _ _ _ _ Hs) in Hf. lia. }
  assert (forall n, is_Some (nodes (mem s) !! n) -> n <> fresh (mem s)) as Hne.
  { intros n Hn ->. rewrite Hf in Hn. by destruct Hn. }
  assert (Hkeep : keeps (nodes (mem s)) (<[fresh (mem s) := mkNode (Some t) None]> (nodes (mem s)))).
  { intros n x Hx. exists x. split; [|done]. rewrite lookup_insert_ne; [done|]. symmetry. apply Hne. eauto. }
  exists L, hp, tp. split_and!; [|done|].
  - eapply (inv_update s L hp tp i (PRet r)); cbn [nodes fresh head tail length_]; try done; try apply Hs.
    + intros k n Hk. destruct (inv_chain _ _ _ _ Hs _ _ Hk) as (v & Hv & Hp). exists v. split; [|done].
      rewrite lookup_insert_ne; [done|]. symmetry. apply Hne. eauto.
    + intros n. destruct (decide (n = fresh (mem s))) as [->|]; [lia|].
      rewrite lookup_insert_ne by done. intros Hn. apply (inv_fresh _ _ _ _ Hs) in Hn. lia.
    + intros n _ [Hn [v Hv]]. split; [done|]. exists v. rewrite lookup_insert_ne; [done|].
      symmetry. apply Hne. eauto.
    + intros n [= <-]. split; [|by right]. split.
      * intros Hin. eapply Hne; [by eapply chain_some|done].
      * exists t. by rewrite lookup_insert_eq.
    + rewrite (inv_length _ _ _ _ Hs). simpl. f_equal. lia.
  - cbn [abs_pc nodes]. rewrite (contents_keeps _ _ _ _ Hkeep) by (intros; by eapply chain_some).
    unfold node_task. rewrite lookup_insert_eq. constructor.
Qed.

(** *** The other steps *)

Lemma contents_last s L hp tp :
  inv s L hp tp -> L !! S hp = None -> contents (nodes (mem s)) L hp = [].
Proof. intros Hs Hn. unfold contents. by rewrite drop_ge by by apply lookup_ge_None. Qed.

(** The load of the head's successor, where an empty queue is noticed. *)
Lemma exec_load_next s L hp tp i hd tl :
  inv s L hp tp -> threads s !! i = Some (D3 hd tl) ->
  exists m' p', exec (mem s) (D3 hd tl) = Ok (m', p') /\ simulates s L hp i (D3 hd tl) m' p'.
Proof.
  intros Hs Hi. pose proof (inv_knows _ _ _ _ Hs _ _ Hi) as Hk. cbn [exec knows] in *.
  destruct Hk as (k & j & Hk & Hj & Hle & Hh). destruct (inv_chain _ _ _ _ Hs _ _ Hk) as (v & Hv & _).
  unfold load. rewrite Hv. do 2 eexists. split; [done|]. cbn [next].
  assert (Hend : L !! S k = None -> k = j /\ L !! S hp = None).
  { intros Hn%lookup_ge_None. apply lookup_lt_Some in Hj. split; [lia|]. apply lookup_ge_None. lia. }
  eapply simulates_local; try done.
  + exists k, j. split_and!; try done; try lia. destruct (L !! S k); [done|]. by apply Hend.
  + destruct (L !! S k); cbn [abs_pc]; constructor. eapply contents_last; [done|]. by apply Hend.
Qed.

(** The comparisons of [Dequeue] after its three loads. *)
Lemma exec_head_branch s L hp tp i hd tl nx :
  inv s L hp tp -> threads s !! i = Some (D4 hd tl nx) ->
  exists m' p', exec (mem s) (D4 hd tl nx) = Ok (m', p') /\ simulates s L hp i (D4 hd tl nx) m' p'.
Proof.
  intros Hs Hi. pose proof (inv_knows _ _ _ _ Hs _ _ Hi) as Hk. cbn [exec knows] in *.
  destruct Hk as (k & j & Hk & Hj & Hle & Hh & Hnx). case_bool_decide as Hhd.
  2: { do 2 eexists. split; [done|]. eapply simulates_local; try done. destruct nx; constructor. }
  case_bool_decide as Heq.
  + destruct nx as [nx|]; do 2 eexists; (split; [done|]); eapply simulates_local; try done; try constructor.
    exists k. subst. split_and!; try done. lia.
  + destruct nx as [nx|].
    2: { subst j. congruence. }
    destruct (inv_chain _ _ _ _ Hs _ _ Hnx) as (v & Hv & Hp). destruct Hp as [u ->]; [lia|].
    unfold load. rewrite Hv. do 2 eexists. split; [done|]. eapply simulates_local; try done; [|constructor].
    assert (k <> j) by congruence.
    exists k, u, (L !! S (S k)). split_and!; try done. lia.
Qed.

(** Every load finds its node. *)
Lemma exec_simulates s L hp tp i p :
  inv s L hp tp -> threads s !! i = Some p ->
  exists m' p', exec (mem s) p = Ok (m', p') /\ simulates s L hp i p m' p'.
Proof.
  intros Hs Hi. pose proof (inv_knows _ _ _ _ Hs _ _ Hi) as Hk.
  destruct p as [r|n|n tl|n tl nx|n tl|n tl nx|n tl| | |hd|hd tl|hd tl nx|tl nx|hd nx t|t| ]; cbn [exec knows] in *.
  - do 2 eexists. split; [done|]. eapply simulates_local; try done. constructor.
  - do 2 eexists. split; [done|]. eapply simulates_local; try done; [|constructor].
    exists tp. split; [apply Hs|lia].
  - destruct Hk as (k & Hk & Hle). destruct (inv_chain _ _ _ _ Hs _ _ Hk) as (v & Hv & _).
    unfold load. rewrite Hv. do 2 eexists. split; [done|]. eapply simulates_local; try done; [|constructor].
    exists k. split_and!; [done..|by right].
  - destruct Hk as (k & Hk & Hle & Hnx). case_bool_decide.
    + destruct nx as [nx|]; (do 2 eexists; split; [done|]; eapply simulates_local; try done; [|constructor]).
      * exists k. split_and!; try done. by destruct Hnx.
      * by exists k.
    + do 2 eexists. split; [done|]. eapply simulates_local; try done. constructor.
  - destruct Hk as (k & Hk & Hle). destruct (inv_chain _ _ _ _ Hs _ _ Hk) as (v & Hv & _).
    unfold load. rewrite Hv. cbn [mbind res_bind next value]. case_bool_decide as Hnx; do 2 eexists; (split; [done|]).
    + rewrite Hnx in Hv. by eapply simulates_link.
    + eapply simulates_local; try done. constructor.
  - do 2 eexists. split; [done|]. eapply simulates_swing; try done. constructor.
  - do 2 eexists. split; [done|]. eapply simulates_swing; try done. constructor.
  - do 2 eexists. split; [done|]. eapply simulates_count; try done. constructor.
  - do 2 eexists. split; [done|]. eapply simulates_local; try done; [|constructor].
    exists hp. split; [apply Hs|lia].
  - destruct Hk as (k & Hk & Hle). do 2 eexists. split; [done|]. eapply simulates_local; try done; [|constructor].
    exists k, tp. pose proof (inv_le _ _ _ _ Hs). split_and!; [done|apply Hs|lia..].
  - by eapply exec_load_next.
  - by eapply exec_head_branch.
  - do 2 eexists. split; [done|]. eapply simulates_swing; try done. constructor.
  - case_bool_decide as Hhd; do 2 eexists; (split; [done|]).
    + by eapply simulates_take.
    + eapply simulates_local; try done. constructor.
  - destruct Hk as [u ->]. do 2 eexists. split; [done|]. eapply simulates_count; try done. constructor.
  - do 2 eexists. split; [done|]. eapply simulates_local; try done. constructor.
Qed.

(** ** Reachable states *)

Lemma inv_init n : inv (init n) [1%positive] 0 0.
Proof.
  assert (forall i p, replicate n (PRet None) !! i = Some p -> p = PRet None) as Hr.
  { intros i p Hp. by apply lookup_replicate in Hp as [-> _]. }
  split; cbn [mem threads init NewLockFreeQueue nodes fresh head tail length_]; try done.
  - apply NoDup_singleton.
  - intros [|i] k; [|done]. intros [= <-]. exists None. split; [done|lia].
  - intros k [x Hx]. apply lookup_singleton_Some in Hx as [<- _]. lia.
  - intros i p Hp. by rewrite (Hr _ _ Hp).
  - intros i p k Hp. by rewrite (Hr _ _ Hp).
  - intros i j p q k Hp. by rewrite (Hr _ _ Hp).
  - simpl. induction n as [|n IH]; [done|]. simpl. fold (total (replicate n (PRet None))).
    rewrite Z.add_0_l in *. apply IH. intros i p Hp. by apply (Hr (S i) p).
Qed.

(** The state of the atomic queue that a state stands for. *)
Definition abstraction (s : state) (L : list loc) (hp : nat) : astate :=
  mkAbs (contents (nodes (mem s)) L hp) (abs_pc (nodes (mem s)) <$> threads s).

(** The steps of a call show in both machines when it returns. *)
Lemma exec_shown i m p m' p' : exec m p = Ok (m', p') -> shown i (abs_pc (nodes m) p) (abs_pc (nodes m') p') = returns i p p'.
Proof.
  destruct p; cbn [exec]; unfold load; intros He; repeat (case_match; simplify_eq/=; try done); by simplify_eq/=.
Qed.

Lemma call_shown i m c m' p' r :
  invoke m c = (m', p') -> shown i (ARet r) (abs_pc (nodes m') p') = [Invoke i c].
Proof.
  destruct c; cbn [invoke]; intros [= <- <-]; [|done..]. cbn. unfold node_task. by rewrite lookup_insert_eq.
Qed.

Lemma simulates_astep s L hp tp i p m' p' :
  inv s L hp tp -> threads s !! i = Some p -> simulates s L hp i p m' p' ->
  exists L' hp' tp' es, inv (mkState m' (<[i:=p']> (threads s))) L' hp' tp' /\
    astep (abstraction s L hp) (shown i (abs_pc (nodes (mem s)) p) (abs_pc (nodes m') p')) es
      (abstraction (mkState m' (<[i:=p']> (threads s))) L' hp').
Proof.
  intros Hs Hi (L' & hp' & tp' & Hinv & Hk & Ha). exists L', hp', tp'. eexists. split; [done|].
  unfold abstraction. cbn [mem threads]. rewrite list_fmap_insert.
  assert (abs_pc (nodes m') <$> threads s = abs_pc (nodes (mem s)) <$> threads s) as ->.
  { apply list_fmap_ext. intros j q Hq. eapply (abs_keeps _ _ _ L); [done|]. intros n Hn.
    by eapply inv_private. }
  refine (astep_thread (mkAbs _ _) i (abs_pc (nodes (mem s)) p) _ _ _ Ha). cbn [athreads].
  by rewrite list_lookup_fmap, Hi.
Qed.

Lemma step_simulates s h s' L hp tp :
  inv s L hp tp -> step s h s' ->
  exists L' hp' tp' es, inv s' L' hp' tp' /\ astep (abstraction s L hp) h es (abstraction s' L' hp').
Proof.
  intros Hs Hst. destruct Hst as [s i r c m p Hi Hc|s i p m p' Hi He].
  - rewrite <- (call_shown i (mem s) c m p r Hc). change (ARet r) with (abs_pc (nodes (mem s)) (PRet r)).
    eapply simulates_astep; [done..|]. by eapply simulates_call.
  - destruct (exec_simulates s L hp tp i p Hs Hi) as (m1 & p1 & He1 & Hsim).
    rewrite <- (exec_shown i _ _ _ _ He). rewrite He in He1. simplify_eq. by eapply simulates_astep.
Qed.

Lemma reachable_inv n h s :
  run (init n) h s ->
  exists L hp tp es, inv s L hp tp /\ arun (ainit n) h es (abstraction s L hp).
Proof.
  induction 1 as [|h s1 e s2 _ (L & hp & tp & es & Hinv & Ha) Hst].
  - exists [1%positive], 0%nat, 0%nat, []. split; [apply inv_init|].
    unfold abstraction. cbn [init threads mem]. rewrite fmap_replicate. apply arun_start.
  - destruct (step_simulates _ _ _ _ _ _ Hinv Hst) as (L' & hp' & tp' & es' & Hinv' & Ha').
    exists L', hp', tp', (es ++ es'). split; [done|]. by eapply arun_step.
Qed.

(** [ts] are the tasks of the nodes linked behind [n]. *)
Fixpoint linked (h : gmap loc node) (n : loc) (ts : list task_ptr) : Prop :=
  match ts with
  | [] => exists v, h !! n = Some (mkNode v None)
  | t :: ts => exists v n', h !! n = Some (mkNode v (Some n')) /\ node_task h n' = Some t /\ linked h n' ts
  end.

Lemma contents_linked h L hp n : chain h L -> L !! hp = Some n -> linked h n (contents h L hp).
Proof.
  intros Hc. unfold contents. remember (length L - hp)%nat as d eqn:Hd. revert hp n Hd.
  induction d as [|d IH]; intros hp n Hd Hn; [apply lookup_lt_Some in Hn; lia|].
  destruct (Hc _ _ Hn) as (v & Hv & _). destruct (L !! S hp) as [n'|] eqn:Hn'.
  - destruct (Hc _ _ Hn') as (v' & Hv' & Hp). destruct Hp as [u ->]; [lia|].
    rewrite (drop_S L n' (S hp)) by done. cbn [omap list_omap].
    assert (node_task h n' = Some u) as Hu by (unfold node_task; by rewrite Hv').
    rewrite Hu. exists v, n'. split_and!; [done..|]. apply IH; [lia|done].
  - rewrite drop_ge by by apply lookup_ge_None. by exists v.
Qed.

(** [ts] are the tasks of the nodes linked from [n], exclusive, to [n'], inclusive. *)
Fixpoint path (h : gmap loc node) (n n' : loc) (ts : list task_ptr) : Prop :=
  match ts with
  | [] => n = n'
  | t :: ts => exists v k, h !! n = Some (mkNode v (Some k)) /\ node_task h k = Some t /\ path h k n' ts
  end.

Lemma linked_unique h n ts ts' : linked h n ts -> linked h n ts' -> ts = ts'.
Proof.
  revert n ts'. induction ts as [|t ts IH]; intros n [|t' ts']; cbn [linked]; [done|naive_solver..|].
  intros (v & k & Hn & Ht & Hl) (v' & k' & Hn' & Ht' & Hl'). simplify_eq. f_equal. by eapply IH.
Qed.

Lemma path_linked h n n' ts ts' : path h n n' ts -> linked h n' ts' -> linked h n (ts ++ ts').
Proof. revert n. induction ts as [|t ts IH]; intros n; cbn; [by intros ->|]. naive_solver. Qed.

Lemma contents_path h L hp d n n' :
  chain h L -> L !! hp = Some n -> L !! (hp + d)%nat = Some n' ->
  exists ts, path h n n' ts /\ linked h n' (contents h L (hp + d)).
Proof.
  intros Hc Hn Hn'. pose proof (contents_linked h L (hp + d) n' Hc Hn') as Hl. revert hp n Hn Hn' Hl.
  induction d as [|d IH]; intros hp n Hn Hn' Hl.
  { rewrite Nat.add_0_r in *. simplify_eq. by exists []. }
  destruct (Hc _ _ Hn) as (v & Hv & _). assert (S hp < length L)%nat as Hlt by (apply lookup_lt_Some in Hn'; lia).
  apply lookup_lt_is_Some in Hlt as [k Hk]. rewrite Hk in Hv.
  destruct (Hc _ _ Hk) as (v' & Hv' & Hp). destruct Hp as [u ->]; [lia|].
  destruct (IH (S hp) k Hk) as (ts & Hts & Hl'); [by replace (S hp + d)%nat with (hp + S d)%nat by lia..|].
  exists (u :: ts). replace (hp + S d)%nat with (S hp + d)%nat by lia. split; [|done].
  exists v, k. split_and!; [done| |done]. unfold node_task. by rewrite Hv'.
Qed.

Lemma contents_length s L hp tp : inv s L hp tp -> length (contents (nodes (mem s)) L hp) = length (drop (S hp) L).
Proof.
  intros Hs. unfold contents.
  assert (forall n, n ∈ drop (S hp) L -> is_Some (node_task (nodes (mem s)) n)) as Hd.
  { intros n Hn. apply list_elem_of_lookup in Hn as [j Hj]. rewrite lookup_drop in Hj.
    destruct (inv_chain _ _ _ _ Hs _ _ Hj) as (v & Hv & Hp). unfold node_task. rewrite Hv. apply Hp. lia. }
  induction (drop (S hp) L) as [|n K IH]; [done|]. cbn [omap list_omap].
  destruct (Hd n) as [t ->]; [left|]. cbn [length]. rewrite IH; [done|]. intros k Hk. apply Hd. by right.
Qed.

(** C9: Whatever the number of threads and however their loads, compare-and-swaps
    and additions interleave, [Enqueue], [Dequeue] and [IsEmpty] are linearizable: the history of
    calls and returns is the history of a run of one atomic FIFO queue, in which every call
    takes effect once, between its call and its return, and at the end of which
    every thread is in the same call, or has the same result, and the queue holds the tasks
    linked behind the head.  So tasks leave in the order in which their [Enqueue]s took
    effect; the tasks of all calls of [Enqueue] are those that took effect and those that
    have not yet; and the tasks that left are those that [Dequeue] returned and those it is
    about to return.  [Dequeue] answers nil only after an instant at which the queue was
    empty.  What [IsEmpty] answers, from a counter that lags behind, is not specified. *)
Theorem lockfree_refines_atomic n h s :
  run (init n) h s ->
  exists a es, arun (ainit n) h es a /\
    athreads a = abs_pc (nodes (mem s)) <$> threads s /\
    linked (nodes (mem s)) (head (mem s)) (queue a) /\
    enqueued es = dequeued es ++ queue a /\
    called h ≡ₚ enqueued es ++ waiting (athreads a) /\
    dequeued es ≡ₚ answered h ++ holding (athreads a).
Proof.
  intros Hr. destruct (reachable_inv n h s Hr) as (L & hp & tp & es & Hs & Ha).
  destruct (arun_accounts _ _ _ _ Ha) as [Hf Hi Ho].
  exists (abstraction s L hp), es. split_and!; [done..| |done|done|done]. apply contents_linked; apply Hs.
Qed.

(** C31: In every reachable state of the lock-free queue no thread follows a nil pointer, whatever it
    is about to do; the tail is reached from the head along the linked nodes, and so is the
    last node from the tail; and the
    length counter that [IsEmpty] reads is the number of nodes linked behind the head, corrected by the
    additions of the calls that have taken effect and not yet counted, as an int32. *)
Theorem lockfree_invariant n h s :
  run (init n) h s ->
  (forall i p, threads s !! i = Some p -> exists m p', exec (mem s) p = Ok (m, p')) /\
  (exists ts ts', path (nodes (mem s)) (head (mem s)) (tail (mem s)) ts /\ linked (nodes (mem s)) (tail (mem s)) ts') /\
  (exists ts, linked (nodes (mem s)) (head (mem s)) ts) /\
  forall ts, linked (nodes (mem s)) (head (mem s)) ts -> length_ (mem s) = wrap32 (len ts + total (threads s)).
Proof.
  intros Hr. destruct (reachable_inv n h s Hr) as (L & hp & tp & es & Hs & _).
  assert (linked (nodes (mem s)) (head (mem s)) (contents (nodes (mem s)) L hp)) as Hl
    by (apply contents_linked; apply Hs).
  split_and!; [| |by eexists|].
  - intros i p Hi. destruct (exec_simulates s L hp tp i p Hs Hi) as (m & p' & He & _). eauto.
  - pose proof (inv_le _ _ _ _ Hs). destruct (contents_path (nodes (mem s)) L hp (tp - hp) (head (mem s)) (tail (mem s)))
      as (ts & Hp & Ht); [apply Hs..|replace (hp + (tp - hp))%nat with tp by lia; apply Hs|]. eauto.
  - intros ts Hts. rewrite (linked_unique _ _ _ _ Hts Hl). unfold len. rewrite (contents_length _ _ _ _ Hs). apply Hs.
Qed.

(** Two threads enqueue at once, one helping the other's tail; then one dequeues. *)
Definition race : list (nat * option call) :=
  [(0%nat, Some (CEnqueue 7)); (1%nat, Some (CEnqueue 8)); (0%nat, None); (0%nat, None); (1%nat, None);
   (0%nat, None); (0%nat, None); (1%nat, None); (1%nat, None); (1%nat, None); (1%nat, None); (1%nat, None);
   (1%nat, None); (1%nat, None); (0%nat, None); (1%nat, None); (0%nat, None); (1%nat, None);
   (0%nat, Some CDequeue); (0%nat, None); (0%nat, None); (0%nat, None); (0%nat, None); (0%nat, None); (0%nat, None)].

Definition after_race : state := default (init 2) (schedule (init 2) race).

Lemma after_race_reachable : run (init 2) (history (init 2) race) after_race.
Proof. apply schedule_run. vm_compute. reflexivity. Qed.

(** The history of the race, and that it is one of an atomic queue. *)
Lemma lockfree_refines_atomic_witness :
  history (init 2) race =
    [Invoke 0 (CEnqueue 7); Invoke 1 (CEnqueue 8); Return 0 REnqueue; Return 1 REnqueue; Invoke 0 CDequeue;
     Return 0 (RDequeue (Some 7%positive))] /\
  exists a es, arun (ainit 2) (history (init 2) race) es a /\
    athreads a = abs_pc (nodes (mem after_race)) <$> threads after_race /\
    linked (nodes (mem after_race)) (head (mem after_race)) (queue a) /\
    enqueued es = dequeued es ++ queue a /\
    called (history (init 2) race) ≡ₚ enqueued es ++ waiting (athreads a) /\
    dequeued es ≡ₚ answered (history (init 2) race) ++ holding (athreads a).
Proof.
  split; [vm_compute; reflexivity|]. apply (lockfree_refines_atomic 2 _ after_race after_race_reachable).
Defined.

Lemma lockfree_invariant_witness :
  length_ (mem after_race) = 1 /\ total (threads after_race) = 0 /\
  (exists m p', exec (mem after_race) (PRet (Some REnqueue)) = Ok (m, p')) /\
  length_ (mem after_race) = wrap32 (len [8%positive] + total (threads after_race)).
Proof.
  destruct (lockfree_invariant 2 _ after_race after_race_reachable) as (Hx & _ & _ & Hl).
  split; [vm_compute; reflexivity|]. split; [vm_compute; reflexivity|]. split.
  - apply (Hx 1%nat). vm_compute. reflexivity.
  - apply Hl. vm_compute. do 2 eexists. split; [reflexivity|]. split; [reflexivity|]. eexists. reflexivity.
Defined.
