(* ===== verification/TaskPool.v ===== *)
(** * The pool of tasks

    [core/internal/queue/queue.go]: the records in which a function and its
    argument travel through the task queues.  They are recycled through a
    [sync.Pool], which hands out any record it holds, or a new one.  The theorem:
    as long as a record is put back only by its user, no two users ever hold the
    same one, and every record that is handed out is blank. *)

From S2P Require Import Prelude.

Section tasks.
(** [TaskFunc] and the dynamic type of the argument. *)
Context {F A : Type}.

(** [Task]; nil is [None]. *)
Record Task := mkTask { Run : option F; Arg : option A }.

(** The records, those in [taskPool], and the next new one. *)
Record heap := mkHeap { h_tasks : gmap positive Task; taskPool : list positive; h_next : positive }.

(** [GetTask]: [choice] is the record [sync.Pool] takes, if it takes one. *)
Definition GetTask (h : heap) (choice : option nat) : positive * heap :=
  match (i ← choice; taskPool h !! i) with
  | Some t => (t, mkHeap (h_tasks h) (delete (default 0%nat choice) (taskPool h)) (h_next h))
  | None => (h_next h, mkHeap (<[h_next h := mkTask None None]> (h_tasks h)) (taskPool h) (Pos.succ (h_next h)))
  end.

Definition PutTask (h : heap) (t : positive) : heap :=
  mkHeap (<[t := mkTask None None]> (h_tasks h)) (t :: taskPool h) (h_next h).

(** A user fills the record it holds. *)
Definition fill (h : heap) (t : positive) (f : F) (a : A) : heap :=
  mkHeap (<[t := mkTask (Some f) (Some a)]> (h_tasks h)) (taskPool h) (h_next h).

(** What the users do: take a record, fill one of theirs, put one back. *)
Inductive uses : heap * list positive -> heap * list positive -> Prop :=
  | uses_get h l choice t h' : GetTask h choice = (t, h') -> uses (h, l) (h', t :: l)
  | uses_fill h l t f a : t ∈ l -> uses (h, l) (fill h t f a, l)
  | uses_put h l1 t l2 : uses (h, l1 ++ t :: l2) (PutTask h t, l1 ++ l2).

(** The pooled records are blank, and no record is held twice. *)
Definition pool_ok (s : heap * list positive) : Prop :=
  NoDup (taskPool s.1 ++ s.2) /\ (forall t, t ∈ taskPool s.1 -> h_tasks s.1 !! t = Some (mkTask None None)) /\
  (forall t, t ∈ taskPool s.1 ++ s.2 -> (t < h_next s.1)%positive).

Lemma GetTask_ok h l choice t h' :
  pool_ok (h, l) -> GetTask h choice = (t, h') -> pool_ok (h', t :: l) /\ h_tasks h' !! t = Some (mkTask None None).
Proof.
  intros (Hnd & Hblank & Hlt) Hg. unfold GetTask in Hg. cbn [fst snd] in *.
  destruct (i ← choice; taskPool h !! i) as [u|] eqn:E; injection Hg as <- <-.
  - destruct choice as [i|]; [|done]. cbn in E. cbn [default]. pose proof (delete_Permutation _ _ _ E) as Hp.
    assert (Hp2 : taskPool h ++ l ≡ₚ delete i (taskPool h) ++ u :: l) by (rewrite Hp at 1; cbn; apply Permutation_middle).
    split; [|by apply Hblank, list_elem_of_lookup_2 with i]. unfold pool_ok. cbn [fst snd taskPool h_tasks h_next].
    split_and!; [by rewrite <- Hp2| |by setoid_rewrite <- Hp2].
    intros v Hv. apply Hblank. rewrite Hp. by right.
  - split; [|by apply lookup_insert_eq]. unfold pool_ok. cbn [fst snd taskPool h_tasks h_next]. split_and!.
    + rewrite <- Permutation_middle. constructor; [|done]. intros Hin. apply Hlt in Hin. lia.
    + intros v Hv. rewrite lookup_insert_ne; [by apply Hblank|]. intros <-.
      assert (h_next h ∈ taskPool h ++ l) as Hin by (apply elem_of_app; by left). apply Hlt in Hin. lia.
    + intros v. rewrite <- Permutation_middle, elem_of_cons. intros [->|Hin]; [lia|]. apply Hlt in Hin. lia.
Qed.

(** Recycling is invisible: in every state the users can reach, a record that
    [GetTask] hands out is blank and is nobody else's. *)
Theorem tasks_recycled s choice t h' :
  rtc uses (mkHeap ∅ [] 1, []) s -> GetTask s.1 choice = (t, h') ->
  h_tasks h' !! t = Some (mkTask None None) /\ t ∉ s.2.
Proof.
  intros Hr Hg. assert (Hok : pool_ok s).
  { clear Hg. assert (Hinit : pool_ok (mkHeap ∅ [] 1, [])) by (split; [constructor|split; intros u Hin; by apply elem_of_nil in Hin]).
    revert Hinit. induction Hr as [|x y z Hu _ IH]; [done|]. intros Hx. apply IH. clear IH.
    destruct Hu as [h l ch u h2 Hget|h l u f a Hin|h l1 u l2].
    - by apply (GetTask_ok _ _ _ _ _ Hx) in Hget as [? _].
    - destruct Hx as (Hnd & Hblank & Hlt). unfold pool_ok. split_and!; [done| |done]. cbn in *. intros v Hv.
      rewrite lookup_insert_ne; [by apply Hblank|]. intros <-. apply NoDup_app in Hnd as (_ & Hd & _). by apply (Hd u).
    - destruct Hx as (Hnd & Hblank & Hlt). unfold pool_ok. cbn [fst snd taskPool h_tasks h_next PutTask] in *.
      assert (Hp : (u :: taskPool h) ++ l1 ++ l2 ≡ₚ taskPool h ++ l1 ++ u :: l2)
        by (rewrite <- (Permutation_middle l1), <- (Permutation_middle (taskPool h)); done).
      split_and!; [by rewrite Hp| |by setoid_rewrite Hp]. intros v [->|Hv]%elem_of_cons; [by apply lookup_insert_eq|].
      destruct (decide (u = v)) as [<-|Hne]; [by apply lookup_insert_eq|]. rewrite lookup_insert_ne by done. by apply Hblank. }
  destruct s as [h l]. apply (GetTask_ok _ _ _ _ _ Hok) in Hg as [Hok' Hb]. split; [done|].
  destruct Hok' as (Hnd & _). cbn in *. apply NoDup_app in Hnd as (_ & _ & Hnd). by apply NoDup_cons in Hnd as [? _].
Qed.
End tasks.
