(* ===== verification/Polling.v ===== *)
(** * The polling loop

    [Polling] of [core/internal/netpoll/epoll_default_poller.go] with the event list
    of [epoll_events.go] and [run] of [core/reactor_default_linux.go]: each round
    runs the ticker, waits for events, dispatches them, runs the task queues when
    the poller was woken up, adapts the event list and expires requests.  What the
    wait returns is the list of waits.

    The loop is written once ([poll_loop]), for any kind of event and any dispatch of
    one event; the other pollers of the repository ([Pollers]) are instances too. *)

From S2P Require Import Prelude Errors Byteslice Ring LinkedList Elastic Commands Codec Message CodecC CodecS Pool Cluster AuthIp World Conn EventLoop Server.

(** ** The event list *)

Record PollLimits := mkLimits {
  InitPollEventsCap : Z;
  MaxPollEventsCap : Z;
  MinPollEventsCap : Z;
  MaxAsyncTasksAtOneTime : nat;
}.
Definition epoll_limits : PollLimits := mkLimits 128 1024 32 256.

Definition newEventList (size : Z) : Z := size.
Definition expand (lim : PollLimits) (size : Z) : Z :=
  let newSize := Z.shiftl size 1 in if newSize <=? MaxPollEventsCap lim then newSize else size.
Definition shrink (lim : PollLimits) (size : Z) : Z :=
  let newSize := Z.shiftr size 1 in if MinPollEventsCap lim <=? newSize then newSize else size.

(** The adaptation at the end of a round with [n] events. *)
Definition resize (lim : PollLimits) (size n : Z) : Z :=
  if n =? size then expand lim size else if n <? Z.shiftr size 1 then shrink lim size else size.

(** ** Rounds *)

(** What the wait returned: events (none at a time-out), an interruption, or an error. *)
Inductive wait (E : Type) : Type := Events (evs : list E) | Interrupted | Failed (errno : Z).
Arguments Events {_} evs.
Arguments Interrupted {_}.
Arguments Failed {_} errno.

(** The errors that end the loop. *)
Definition ends_loop (err : option error) : bool :=
  bool_decide (err = Some (EEngine ErrAcceptSocket)) || bool_decide (err = Some (EEngine ErrEngineShutdown)).

Section polling.
Context `{BytePool} `{Env} {T : Type} `{LLRB T} `{HashMap ClusterNode} `{HashMap unit} `{MapRange}
  (opts : Options) (IpMap : ipMap) (order : gmap bytes Pool -> list bytes) (fuel : nat).
Implicit Types w : World T.
#[local] Existing Instance server_ConnHandler.
#[local] Existing Instance server_LoopHandler.

(** [dispatch w ev] handles one event; [None] when the event is the waking one. *)
Context {E : Type} (lim : PollLimits) (dispatch : World T -> E -> option (res (option error * World T))).

Fixpoint run_events w (evs : list E) (doChores : bool) : res (option error * bool * World T) :=
  match evs with
  | [] => Ok (None, doChores, w)
  | ev :: evs =>
      match dispatch w ev with
      | None => run_events w evs true
      | Some r =>
          '(err, w) ← r;
          if ends_loop err then Ok (err, doChores, w) else run_events w evs doChores
      end
  end.

(** One round: [inl] with the error when the loop returns, or the size of the event
    list and whether chores are left. *)
Definition poll_round w (size : Z) (doChores : bool) (x : wait E) : res ((error + Z * bool) * World T) :=
  w ← ticker opts IpMap order w;
  match x with
  | Interrupted | Events [] => Ok (inr (size, doChores), w)
  | Failed errno => Ok (inl (ESys errno), w)
  | Events evs =>
      '(err, doChores, w) ← run_events w evs doChores;
      match err with
      | Some e => Ok (inl e, w)
      | None =>
          '(err, doChores, w) ←
            (if doChores : bool
             then @chores _ _ T _ _ (server_ConnHandler opts IpMap) opts (MaxAsyncTasksAtOneTime lim) fuel w
             else Ok (None, false, w));
          match err with
          | Some e => Ok (inl e, w)
          | None =>
              let size := resize lim size (len evs) in
              w ← msgTimeout fuel w;
              Ok (inr (size, doChores), w)
          end
      end
  end.

(** The loop over the waits [xs]: the error it returned, or the size of the event
    list when the waits are over. *)
Fixpoint poll w (size : Z) (doChores : bool) (xs : list (wait E)) : res ((error + Z * bool) * World T) :=
  match xs with
  | [] => Ok (inr (size, doChores), w)
  | x :: xs =>
      '(r, w) ← poll_round w size doChores x;
      match r with
      | inl e => Ok (inl e, w)
      | inr (size, doChores) => poll w size doChores xs
      end
  end.

Definition poll_loop w (xs : list (wait E)) : res ((error + Z * bool) * World T) :=
  poll w (newEventList (InitPollEventsCap lim)) false xs.

(** When the loop returns, every connection is closed, in the order [cs] of the map. *)
Definition run_loop w (xs : list (wait E)) (cs : World T -> list cid) : res (World T) :=
  '(r, w) ← poll_loop w xs;
  match r with
  | inl _ => @closeAllSockets _ T _ _ (server_ConnHandler opts IpMap) w (cs w)
  | inr _ => Ok w
  end.
End polling.

(** ** The default poller of Linux *)

(** A ready descriptor with its event mask. *)
Record epollevent := mkEpollEvent { ev_fd : Z; ev_events : Z }.

(** The bits of [sys/epoll.h]. *)
Definition EPOLLIN : Z := 1.
Definition EPOLLPRI : Z := 2.
Definition EPOLLOUT : Z := 4.
Definition EPOLLERR : Z := 8.
Definition EPOLLHUP : Z := 16.
Definition EPOLLRDHUP : Z := 8192.
Definition ErrEvents : Z := Z.lor (Z.lor EPOLLERR EPOLLHUP) EPOLLRDHUP.
Definition OutEvents : Z := Z.lor ErrEvents EPOLLOUT.
Definition InEvents : Z := Z.lor (Z.lor ErrEvents EPOLLIN) EPOLLPRI.

(** [ev&mask != 0]. *)
Definition any_of (ev mask : Z) : bool := negb (Z.land ev mask =? 0).

Section epoll.
Context `{BytePool} `{Env} {T : Type} `{LLRB T} `{HashMap ClusterNode} `{HashMap unit} `{MapRange}
  (opts : Options) (IpMap : ipMap) (order : gmap bytes Pool -> list bytes) (lnAddr : bytes) (efd : Z) (fuel : nat).
Implicit Types w : World T.

(** The loop's body for one event: [efd] is the eventfd. *)
Definition epoll_dispatch w (ev : epollevent) : option (res (option error * World T)) :=
  if negb (ev_fd ev =? efd) then
    Some (@callback _ _ T _ _ (server_ConnHandler opts IpMap) (server_LoopHandler opts IpMap) _ opts fuel w lnAddr (ev_fd ev)
            (any_of (ev_events ev) InEvents) (any_of (ev_events ev) OutEvents))
  else None.

Definition Polling w (xs : list (wait epollevent)) : res ((error + Z * bool) * World T) :=
  poll_loop opts IpMap order fuel epoll_limits epoll_dispatch w xs.

Definition run w (xs : list (wait epollevent)) (cs : World T -> list cid) : res (World T) :=
  run_loop opts IpMap order fuel epoll_limits epoll_dispatch w xs cs.
End epoll.

(** ** The event list stays within its bounds *)

(** The limits are powers of two, so that doubling and halving meet them. *)
Record limits_ok (lim : PollLimits) : Prop := {
  lim_min : exists a, 0 < a /\ MinPollEventsCap lim = 2 ^ a;
  lim_max : exists b, 0 < b /\ MaxPollEventsCap lim = 2 ^ b;
}.

Definition list_size (lim : PollLimits) (n : Z) : Prop :=
  MinPollEventsCap lim <= n <= MaxPollEventsCap lim /\ exists k, 0 < k /\ n = 2 ^ k.

Lemma resize_size lim n m : limits_ok lim -> list_size lim n -> list_size lim (resize lim n m).
Proof.
  intros [(a & Ha & Hmin) (b & Hb & Hmax)] (Hn & k & Hk & ->). unfold list_size, resize, expand, shrink in *. rewrite Hmin, Hmax in *.
  rewrite Z.shiftl_mul_pow2, !Z.shiftr_div_pow2 by lia. change (2 ^ 1) with 2.
  assert (2 ^ k * 2 = 2 ^ (k + 1)) as Hup by (rewrite Z.pow_add_r by lia; done).
  assert (2 ^ k / 2 = 2 ^ (k - 1)) as Hdown by (rewrite Z.pow_sub_r by lia; done). rewrite Hup, Hdown.
  assert (2 ^ k < 2 ^ (k + 1)) by (apply Z.pow_lt_mono_r; lia). assert (2 ^ (k - 1) < 2 ^ k) by (apply Z.pow_lt_mono_r; lia).
  assert (a <= k) by (apply (Z.pow_le_mono_r_iff 2); lia).
  destruct (m =? 2 ^ k); [destruct (2 ^ (k + 1) <=? 2 ^ b) eqn:E|destruct (m <? 2 ^ (k - 1)); [destruct (2 ^ a <=? 2 ^ (k - 1)) eqn:E|]];
    (split; [lia|]); first [by exists k | exists (k + 1); split; [lia|done] | exists (k - 1); split; [|done]].
  assert (a <= k - 1) by (apply (Z.pow_le_mono_r_iff 2); lia). lia.
Qed.

Section sizes.
Context `{BytePool} `{Env} {T : Type} `{LLRB T} `{HashMap ClusterNode} `{HashMap unit} `{MapRange}
  (opts : Options) (IpMap : ipMap) (order : gmap bytes Pool -> list bytes) (fuel : nat)
  {E : Type} (lim : PollLimits) (dispatch : World T -> E -> option (res (option error * World T))).

Lemma poll_size w size b xs size' b' w' :
  limits_ok lim -> list_size lim size ->
  poll opts IpMap order fuel lim dispatch w size b xs = Ok (inr (size', b'), w') -> list_size lim size'.
Proof.
  intros Hlim. revert w size b. induction xs as [|x xs IH]; intros w size b Hs; cbn [poll]; [by intros [= <- _ _]|].
  intros Hp. apply res_bind_inv in Hp as ([[e|[size1 b1]] w1] & Hr & Hp); [done|].
  eapply IH; [|exact Hp]. unfold poll_round in Hr. apply res_bind_inv in Hr as (w2 & _ & Hr).
  destruct x as [[|ev evs]| |]; simplify_eq; try done.
  apply res_bind_inv in Hr as ([[err dc] w3] & _ & Hr). destruct err; [done|].
  apply res_bind_inv in Hr as ([[err dc'] w4] & _ & Hr). destruct err; [done|].
  apply res_bind_inv in Hr as (w5 & _ & Hr). simplify_eq. by apply resize_size.
Qed.
End sizes.

Lemma epoll_limits_ok : limits_ok epoll_limits.
Proof. split; [by exists 5|by exists 10]. Qed.
