(* ===== verification/Table.v ===== *)
(** * The connection table of the event loop

    What holds of [eventloop.connections] and the counters [cConnCount] and
    [sConnCount] ([core/eventloop.go]) whenever the loop is between two events:
    every entry is an open connection of that descriptor, every open connection
    is in the table, and the counters are the numbers of open client and server
    connections.

    [invariant] of the loop is proved once for every operation of [Conn],
    [EventLoop], [Server] and [Polling].  Most of them leave the table alone
    ([stable]); the ones that open and close connections change it, and the others
    are built from these.  Both facts compose the same way ([holds]). *)

From S2P Require Import Prelude Errors Byteslice Ring LinkedList Elastic Commands Codec Message CodecC CodecS Pool Cluster World Conn EventLoop.

(** ** Descriptors

    The kernel hands out descriptors that are not in use, and only [close] ends
    the use of one. *)
Class Descriptors `{Env} := {
  open_fds : env -> gset Z;
  accept_fds : forall e e' r, sys_accept e = (e', r) -> open_fds e ⊆ open_fds e' /\
    (match r with inl (fd, _) => (fd ∉ open_fds e) /\ (fd ∈ open_fds e') | inr _ => True end);
  Dial_fds : forall e a e' r, net_Dial e a = (e', r) -> open_fds e ⊆ open_fds e' /\
    (match r with inl (fd, _, _) => (fd ∉ open_fds e) /\ (fd ∈ open_fds e') | inr _ => True end);
  close_fds : forall e fd e' r, sys_close e fd = (e', r) -> open_fds e ∖ {[fd]} ⊆ open_fds e';
  write_fds : forall e fd p e' r, sys_write e fd p = (e', r) -> open_fds e ⊆ open_fds e';
  writev_fds : forall e fd bs e' r, sys_writev e fd bs = (e', r) -> open_fds e ⊆ open_fds e';
  read_fds : forall e fd n e' r, sys_read e fd n = (e', r) -> open_fds e ⊆ open_fds e';
  epoll_fds : forall e o fd e' r, epoll_ctl e o fd = (e', r) -> open_fds e ⊆ open_fds e';
  wake_fds : forall e e' r, wake e = (e', r) -> open_fds e ⊆ open_fds e';
  now_fds : forall e e' r, time_Now e = (e', r) -> open_fds e ⊆ open_fds e';
  ring_fds : forall e e' r, ring_Get e = (e', r) -> open_fds e ⊆ open_fds e';
  choice_fds : forall e e' r, pool_choice e = (e', r) -> open_fds e ⊆ open_fds e';
  rand_fds : forall e n e' r, rand_Intn e n = (e', r) -> open_fds e ⊆ open_fds e';
}.

Create HintDb fds.
#[export] Hint Resolve write_fds writev_fds read_fds epoll_fds wake_fds now_fds ring_fds choice_fds rand_fds : fds.

(** ** What the table depends on *)

(** The fields of a connection the table talks about. *)
Record key := mkKey { k_fd : Z; k_opened : bool; k_attached : bool; k_type : ConnType }.
Definition conn_key (x : conn) : key := mkKey (c_fd x) (c_opened x) (c_attached x) (c_connType x).

(** Open connections of a kind. *)
Definition open_of (t : ConnType) (k : cid * key) : Prop := k_opened k.2 = true /\ k_type k.2 = t.
#[export] Instance open_of_dec t k : Decision (open_of t k).
Proof. unfold open_of. apply _. Defined.
Definition open_count (t : ConnType) (ks : gmap cid key) : Z := Z.of_nat (base.size (filter (open_of t) ks)).

(** Opening and closing one connection. *)
Lemma open_count_delete t ks c k :
  k_opened k = false -> open_count t (<[c := k]> ks) = Z.of_nat (base.size (delete c (filter (open_of t) ks))).
Proof.
  intros Hk. unfold open_count. rewrite map_filter_insert_False, map_filter_delete; [done|].
  intros [Ho _]. simpl in Ho. congruence.
Qed.
Lemma open_count_close t ks c j k :
  ks !! c = Some j -> k_opened j = true -> k_opened k = false ->
  open_count t (<[c := k]> ks) = open_count t ks - (if decide (k_type j = t) then 1 else 0).
Proof.
  intros Hj Ho Hk. rewrite open_count_delete by done. unfold open_count. case_decide as Ht.
  - assert (filter (open_of t) ks !! c = Some j) as Hl by by apply map_lookup_filter_Some.
    rewrite map_size_delete_Some by by exists j.
    assert (base.size (filter (open_of t) ks) <> 0%nat) as Hz; [|lia].
    intros Hz. apply map_size_empty_inv in Hz. rewrite Hz in Hl. by rewrite lookup_empty in Hl.
  - rewrite map_size_delete_None; [lia|]. apply map_lookup_filter_None_2. right. intros j' Hj' [_ Hty].
    simpl in Hty. congruence.
Qed.
Lemma open_count_unopened t ks c k :
  (forall j, ks !! c = Some j -> k_opened j = false) -> k_opened k = false ->
  open_count t (<[c := k]> ks) = open_count t ks.
Proof.
  intros Hj Hk. rewrite open_count_delete by done. unfold open_count. rewrite map_size_delete_None; [done|].
  apply map_lookup_filter_None_2. right. intros j Hl [Ho _]. simpl in Ho. specialize (Hj j Hl). congruence.
Qed.
Lemma open_count_open t ks c k :
  ks !! c = None -> k_opened k = true ->
  open_count t (<[c := k]> ks) = open_count t ks + (if decide (k_type k = t) then 1 else 0).
Proof.
  intros Hc Hk. unfold open_count. case_decide as Ht.
  - rewrite map_filter_insert_True by done. rewrite map_size_insert_None; [lia|].
    apply map_lookup_filter_None_2. by left.
  - rewrite map_filter_insert_False, map_filter_delete by by intros [_ Ho]. rewrite map_size_delete_None; [lia|].
    apply map_lookup_filter_None_2. by left.
Qed.

Lemma wrap32_wrap a : wrap32 (wrap32 a) = wrap32 a.
Proof. pose proof (wrap32_add a 0) as Hw. by rewrite !Z.add_0_r in Hw. Qed.

Section table.
Context `{BytePool} `{!Env, !Descriptors} {T : Type} `{!LLRB T} `{!HashMap ClusterNode}.
Implicit Types w : World T.

Definition keys w : gmap cid key := conn_key <$> w_conns w.

(** The world a result carries. *)
Class ToWorld (A : Type) := to_world : A -> World T.
#[export] Instance World_ToWorld : ToWorld (World T) := fun w => w.
#[export] Instance prod_ToWorld {A B} `{!ToWorld B} : ToWorld (A * B) := fun p => to_world p.2.
#[export] Instance sdecoded_ToWorld : ToWorld (sdecoded (World T)) := sd_state.

(** [R] relates the state before a computation to the one it returns. *)
Definition holds (R : relation (World T)) {A} `{!ToWorld A} w (m : res A) : Prop :=
  forall a, m = Ok a -> R w (to_world a).

Section rules.
Context (R : relation (World T)) `{!PreOrder R}.

Lemma holds_Ok {A} `{!ToWorld A} w (a : A) : R w (to_world a) -> holds R w (Ok a).
Proof. intros Ha ? [= <-]. done. Qed.
Lemma holds_Panic {A} `{!ToWorld A} w : holds R w (@Panic A).
Proof. by intros ?. Qed.
Lemma holds_OutOfFuel {A} `{!ToWorld A} w : holds R w (@OutOfFuel A).
Proof. by intros ?. Qed.
Lemma holds_bind {A B} `{!ToWorld A, !ToWorld B} w (m : res A) (f : A -> res B) :
  holds R w m -> (forall a, holds R (to_world a) (f a)) -> holds R w (m ≫= f).
Proof. intros Hm Hf b Hb. bind_inv Hb. etrans; [by apply Hm|by eapply Hf]. Qed.
Lemma holds_pure {A B} `{!ToWorld B} w (m : res A) (f : A -> res B) :
  (forall a, m = Ok a -> holds R w (f a)) -> holds R w (m ≫= f).
Proof. intros Hf b Hb. bind_inv Hb. by eapply Hf. Qed.
Lemma holds_trans {A} `{!ToWorld A} w w' (m : res A) : R w w' -> holds R w' m -> holds R w m.
Proof. intros Hw Hm a Ha. etrans; [done|by apply Hm]. Qed.
End rules.

(** The table, the counters and the connections' keys are as they were. *)
Record stable w w' : Prop := {
  st_keys : keys w' = keys w;
  st_next : w_next w' = w_next w;
  st_table : w_connections w' = w_connections w;
  st_cCount : w_cConnCount w' = w_cConnCount w;
  st_sCount : w_sConnCount w' = w_sConnCount w;
  st_fds : open_fds (w_env w) ⊆ open_fds (w_env w');
}.

#[export] Instance stable_preorder : PreOrder stable.
Proof.
  split.
  - by intros w.
  - intros w1 w2 w3 [] []. split; [congruence..|set_solver].
Qed.

(** ** The invariant *)
Record invariant w : Prop := {
  in_entry : forall fd c, w_connections w !! fd = Some c ->
    exists k, keys w !! c = Some k /\ k_fd k = fd /\ k_opened k = true;
  in_open : forall c k, keys w !! c = Some k -> k_opened k = true ->
    w_connections w !! k_fd k = Some c /\ k_attached k = true /\ k_type k <> ConnNone;
  in_fresh : forall c, (w_next w <= c)%positive -> keys w !! c = None;
  in_fds : forall fd, is_Some (w_connections w !! fd) -> fd ∈ open_fds (w_env w);
  in_cCount : w_cConnCount w = wrap32 (open_count ConnClient (keys w));
  in_sCount : w_sConnCount w = wrap32 (open_count ConnServer (keys w));
}.

Definition inv_step w w' : Prop := invariant w -> invariant w'.
#[export] Instance inv_step_preorder : PreOrder inv_step.
Proof. split; [by intros w Hw|]. intros w1 w2 w3 H12 H23 Hw. by apply H23, H12. Qed.

Lemma stable_inv w w' : stable w w' -> inv_step w w'.
Proof.
  intros [Hk Hn Ht Hc Hs Hf] []. split; rewrite ?Hk, ?Hn, ?Ht, ?Hc, ?Hs; try done. set_solver.
Qed.
Lemma stable_put w w' c x y :
  stable w w' -> w_conns w !! c = Some x -> conn_key y = conn_key x -> stable w (put_conn w' c y).
Proof.
  intros Hst Hx Hy. split; try apply Hst. unfold keys. cbn. rewrite fmap_insert. rewrite insert_id; [apply Hst|].
  fold (keys w'). rewrite (st_keys _ _ Hst). unfold keys. by rewrite lookup_fmap, Hx, Hy.
Qed.
Lemma holds_stable_inv {A} `{!ToWorld A} w (m : res A) : holds stable w m -> holds inv_step w m.
Proof. intros Hm a Ha. by apply stable_inv, Hm. Qed.

(** ** Operations that leave the table alone *)

Lemma keys_put w c x y :
  w_conns w !! c = Some x -> conn_key y = conn_key x -> conn_key <$> <[c := y]> (w_conns w) = keys w.
Proof.
  intros Hx Hy. unfold keys. rewrite fmap_insert. apply insert_id. by rewrite lookup_fmap, Hx, Hy.
Qed.

Lemma get_conn_inv w c x : get_conn w c = Ok x -> w_conns w !! c = Some x.
Proof. unfold get_conn. destruct (w_conns w !! c); congruence. Qed.
End table.

(** The operations on the inbound bytes of a connection keep its key. *)
Section bytes.
Context `{BytePool}.
Lemma conn_Discard_key x n k y : conn_Discard x n = Ok (k, y) -> conn_key y = conn_key x.
Proof. intros ->%conn_Discard_inbound. done. Qed.
Lemma poke_key x b : conn_key (poke x b) = conn_key x.
Proof. unfold poke. by repeat case_match. Qed.
Lemma keep_unread_key g x y : keep_unread g x = Ok y -> conn_key y = conn_key x.
Proof. unfold keep_unread. intros Hk. bind_inv Hk. by destruct a; simplify_eq. Qed.
End bytes.

Ltac solve_key :=
  first
    [ reflexivity
    | match goal with
      | E : conn_Discard _ _ = Ok (_, ?y) |- conn_key ?y = _ => rewrite (conn_Discard_key _ _ _ _ E); solve_key
      | E : keep_unread _ _ = Ok ?y |- conn_key ?y = _ => rewrite (keep_unread_key _ _ _ E); solve_key
      | |- conn_key (poke _ _) = _ => rewrite poke_key; solve_key
      | |- conn_key (set_init ?y _ _) = ?k => change (conn_key y = k); solve_key
      end ].

Ltac solve_stable :=
  repeat match goal with H : get_conn _ _ = Ok _ |- _ => apply get_conn_inv in H end;
  split; cbn;
  [ first [ reflexivity | eapply keys_put; [eassumption|solve_key] ]
  | reflexivity | reflexivity | reflexivity | reflexivity
  | first [ reflexivity | eauto with fds ] ].

Section operations.
Context `{BytePool} `{!Env, !Descriptors} {T : Type} `{!LLRB T} `{!HashMap ClusterNode} (opts : Options).
Implicit Types w : World T.

Lemma now_stable w t w' : now w = (t, w') -> stable w w'.
Proof. unfold now. destruct (time_Now _) eqn:E. intros [= <- <-]. solve_stable. Qed.
Lemma wake_up_stable w : stable w (wake_up w).2.
Proof. unfold wake_up. destruct (w_wakeup w); [done|]. destruct (wake _) eqn:E. solve_stable. Qed.
Lemma Trigger_stable w t : stable w (Trigger w t).2.
Proof. etrans; [|apply wake_up_stable]. solve_stable. Qed.
Lemma do_epoll_stable w o x : holds stable w (do_epoll w o x).
Proof.
  unfold do_epoll. destruct (c_attached x); [|apply holds_Panic]. destruct (epoll_ctl _ _ _) eqn:E.
  apply holds_Ok. solve_stable.
Qed.
Lemma Trigger_stable_eq w t r w' : Trigger w t = (r, w') -> stable w w'.
Proof. intros E. replace w' with (Trigger w t).2 by by rewrite E. apply Trigger_stable. Qed.

Lemma io_Writev_stable w fd bs n err w' : io_Writev w fd bs = (n, err, w') -> stable w w'.
Proof.
  unfold io_Writev. case_match; [by intros [= <- <- <-]|].
  destruct (sys_writev _ _ _) as [e [? ?]] eqn:E. intros [= <- <- <-]. solve_stable.
Qed.
End operations.

(** ** Automation

    [run_table] walks through a computation: it opens binds, with the lemmas of the
    database [table] for the operations that have one, and splits on tests and
    matches.  [solve_stable] closes the branches that change no key, [solve_chain]
    those that also called an operation which returned by an equation. *)
Create HintDb table.
#[export] Hint Resolve holds_stable_inv | 10 : table.
#[export] Hint Resolve do_epoll_stable : table.

Ltac via w2 w1 lem solve := transitivity w2; [transitivity w1; [solve|exact lem]|solve_stable].

Ltac solve_chain :=
  first
    [ solve_stable
    | eassumption
    | match goal with
      | |- stable _ (snd (AsyncWrite _ _ _)) => etrans; [|apply Trigger_stable]; solve_chain
      | |- stable _ (snd (WriteClusterNodes _ _)) => etrans; [|apply Trigger_stable]; solve_chain
      | |- stable _ (snd (Close _ _)) => etrans; [|apply Trigger_stable]; solve_chain
      | E : get_conn ?w _ = Ok ?x |- stable ?w (put_conn _ _ _) =>
          eapply stable_put; [solve_chain|exact (get_conn_inv _ _ _ E)|solve_key]
      end
    | match goal with
      | E : io_Writev ?w1 _ _ = (_, _, ?w2) |- stable _ ?g =>
          match g with context [w2] => via w2 w1 (io_Writev_stable _ _ _ _ _ _ E) ltac:(clear E; solve_chain) end
      | E : now ?w1 = (_, ?w2) |- stable _ ?g =>
          match g with context [w2] => via w2 w1 (now_stable _ _ _ E) ltac:(clear E; solve_chain) end
      | E : Trigger ?w1 _ = (_, ?w2) |- stable _ ?g =>
          match g with context [w2] => via w2 w1 (Trigger_stable_eq _ _ _ _ E) ltac:(clear E; solve_chain) end
      end ].

Ltac table_state := cbv beta delta [to_world World_ToWorld prod_ToWorld sdecoded_ToWorld]; cbn [fst snd].

(** The state is unchanged but for fields the table does not look at. *)
Ltac solve_state := table_state; first [ reflexivity | solve_chain | apply stable_inv; solve_chain ].

(** A call of an operation that has a lemma, from the state of the goal. *)
Ltac call :=
  table_state;
  first [ solve [eauto with table nocore]
        | eapply holds_trans; [apply _| |solve [eauto with table nocore]]; solve_state ].

(** [walk] does this for any relation: [call] closes the call of an operation that has
    a lemma, [state] a branch that only changes the state. *)
Ltac case_table p := tryif is_var p then destruct p else destruct p eqn:?.

Ltac split_match := match goal with |- holds _ _ (match ?p with _ => _ end) => case_table p end.

Ltac walk call state :=
  repeat first
    [ progress table_state
    | match goal with
      | |- holds _ _ Panic => apply holds_Panic
      | |- holds _ _ OutOfFuel => apply holds_OutOfFuel
      | |- holds _ _ (Ok _) => apply holds_Ok
      | |- holds _ _ (Ok _ ≫= _) => rewrite res_bind_Ok
      | |- holds _ _ (get_conn _ _ ≫= _) => apply holds_pure; intros ? ?
      | |- holds _ _ (_ ≫= _) =>
          first [ eapply holds_bind; [apply _|call ()|]; intros ?
                | eapply holds_bind; [apply _|split_match; solve [walk call state; state ()]|]; intros ?
                | apply holds_pure; intros ? ? ]
      | |- holds _ _ (match ?p with _ => _ end) => case_table p
      end
    | call () ].
Ltac run_table := walk ltac:(fun _ => call) ltac:(fun _ => solve_state).

(** [run_table] with the branches closed. *)
Ltac table := run_table; try solve_state.

Section queues.
Context `{BytePool} `{!Env, !Descriptors} {T : Type} `{!LLRB T} `{!HashMap ClusterNode} (opts : Options).
Implicit Types w : World T.

Lemma EnqueueInMsg_stable w c m : holds stable w (EnqueueInMsg w c m).
Proof. unfold EnqueueInMsg. table. Qed.
Lemma enqueueInFrag_stable w c f : holds stable w (enqueueInFrag opts w c f).
Proof. unfold enqueueInFrag. table. Qed.
Lemma EnqueueOutFrag_stable w c f : holds stable w (EnqueueOutFrag w c f).
Proof. unfold EnqueueOutFrag, sendWriteSignal. table. Qed.
Lemma DequeueInFrag_stable w c : holds stable w (DequeueInFrag w c).
Proof. unfold DequeueInFrag. table. Qed.
Lemma dequeueOutFrag_stable w c : holds stable w (dequeueOutFrag w c).
Proof. unfold dequeueOutFrag. table. Qed.
Lemma dequeueInMsg_stable w c : holds stable w (dequeueInMsg w c).
Proof. unfold dequeueInMsg. table. Qed.

Hint Resolve EnqueueOutFrag_stable : table.
Lemma writeClusterNodes_stable w c : holds stable w (writeClusterNodes w c).
Proof. unfold writeClusterNodes. table. Qed.
Lemma out_Write_stable w c p : holds stable w (out_Write w c p).
Proof. unfold out_Write. table. Qed.
Lemma out_Writev_stable w c bs : holds stable w (out_Writev w c bs).
Proof. unfold out_Writev. table. Qed.
End queues.
#[export] Hint Resolve EnqueueInMsg_stable enqueueInFrag_stable EnqueueOutFrag_stable DequeueInFrag_stable
  dequeueOutFrag_stable dequeueInMsg_stable writeClusterNodes_stable out_Write_stable out_Writev_stable : table.

(** ** The handler's part

    The callbacks that open and close a connection leave the table alone. *)
Class ConnHandlerStable `{!Env, !Descriptors} {T : Type} `{!LLRB T} `{!HashMap ClusterNode} `{!ConnHandler T} := {
  OnCOpened_stable : forall (w : World T) c, holds stable w (OnCOpened w c);
  OnSOpened_stable : forall (w : World T) c, holds stable w (OnSOpened w c);
  OnCClosed_stable : forall (w : World T) c err, holds stable w (OnCClosed w c err);
  OnSClosed_stable : forall (w : World T) c err, holds stable w (OnSClosed w c err);
}.
Arguments ConnHandlerStable {_ _} T {_ _ _}.
#[export] Hint Resolve OnCOpened_stable OnSOpened_stable OnCClosed_stable OnSClosed_stable : table.

(** ** Closing a connection *)
Section closing.
Context `{BytePool} `{!Env, !Descriptors} {T : Type} `{!LLRB T} `{!HashMap ClusterNode} `{!ConnHandler T, !ConnHandlerStable T}.
Implicit Types w : World T.

Lemma flush_residual_stable fuel w c : holds stable w (flush_residual fuel w c).
Proof.
  revert w. induction fuel as [|fuel IH]; intros w; [apply holds_OutOfFuel|]. cbn [flush_residual]. table.
Qed.
Hint Resolve flush_residual_stable : table.

Lemma conn_open_stable w c buf : holds stable w (conn_open w c buf).
Proof. unfold conn_open. table. Qed.
Hint Resolve conn_open_stable : table.

(** The connection [c] with key [k] is closed and leaves the table. *)
Record closes w (c : cid) (k : key) w' : Prop := {
  cl_keys : keys w' = <[c := mkKey (k_fd k) false false ConnNone]> (keys w);
  cl_next : w_next w' = w_next w;
  cl_table : w_connections w' = delete (k_fd k) (w_connections w);
  cl_cCount : w_cConnCount w' = wrap32 (w_cConnCount w - (if decide (k_type k = ConnClient) then 1 else 0));
  cl_sCount : w_sConnCount w' = wrap32 (w_sConnCount w - (if decide (k_type k = ConnServer) then 1 else 0));
  cl_fds : open_fds (w_env w) ∖ {[k_fd k]} ⊆ open_fds (w_env w');
}.

Lemma closes_stable w w1 c k w' : stable w w1 -> closes w1 c k w' -> closes w c k w'.
Proof. intros [Hk Hn Ht Hc Hs Hf] []. split; rewrite <- ?Hk, <- ?Hn, <- ?Ht, <- ?Hc, <- ?Hs; try done. set_solver. Qed.

Lemma closes_inv w w' c k :
  invariant w -> keys w !! c = Some k -> k_opened k = true -> closes w c k w' -> invariant w'.
Proof.
  intros [He Ho Hf Hd Hc Hs] Hk Hop [Hks Hn Ht Hcc Hsc Hfds].
  destruct (Ho c k Hk Hop) as (Htab & _ & _). split; rewrite ?Hks, ?Hn, ?Ht.
  - intros fd d Hl. apply lookup_delete_Some in Hl as [Hne Hl]. destruct (He fd d Hl) as (j & Hj & Hjf & Hjo).
    exists j. rewrite lookup_insert_ne; [done|]. intros <-. simplify_eq.
  - intros d j [[<- <-]|[Hne Hj]]%lookup_insert_Some Hjo; [done|]. destruct (Ho d j Hj Hjo) as (Hl & Ha & Hty).
    split; [|done]. rewrite lookup_delete_ne; [done|]. intros Heq. rewrite <- Heq in Hl. congruence.
  - intros d Hd'. rewrite lookup_insert_ne; [by apply Hf|]. intros <-. rewrite Hf in Hk by done. done.
  - intros fd [d Hl]. apply lookup_delete_Some in Hl as [Hne Hl]. apply Hfds.
    assert (fd ∈ open_fds (w_env w)) by (apply Hd; by exists d). set_solver.
  - rewrite Hcc, Hc, (open_count_close _ _ _ k) by done. apply wrap32_add.
  - rewrite Hsc, Hs, (open_count_close _ _ _ k) by done. apply wrap32_add.
Qed.

Lemma keys_lookup w c x : w_conns w !! c = Some x -> keys w !! c = Some (conn_key x).
Proof. intros Hx. unfold keys. by rewrite lookup_fmap, Hx. Qed.

Lemma releaseTCP_key x y :
  releaseTCP x = Ok y -> conn_key y = mkKey (c_fd x) false false ConnNone.
Proof. unfold releaseTCP. intros Hr. bind_inv Hr. by simplify_eq. Qed.

(** The state in which the closing callback runs. *)
Lemma close_callback w c x err :
  w_conns w !! c = Some x ->
  forall w', match c_connType x with
    | ConnClient =>
        w ← OnCClosed w c err;
        Ok (with_connections w (w_connections w) (wrap32 (w_cConnCount w - 1)) (w_sConnCount w))
    | ConnServer =>
        w ← OnSClosed w c err;
        Ok (with_connections w (w_connections w) (w_cConnCount w) (wrap32 (w_sConnCount w - 1)))
    | ConnNone => Ok w
    end = Ok w' ->
  keys w' = keys w /\ w_next w' = w_next w /\ w_connections w' = w_connections w /\
  (wrap32 (w_cConnCount w) = w_cConnCount w -> w_cConnCount w' = wrap32 (w_cConnCount w - (if decide (c_connType x = ConnClient) then 1 else 0))) /\
  (wrap32 (w_sConnCount w) = w_sConnCount w -> w_sConnCount w' = wrap32 (w_sConnCount w - (if decide (c_connType x = ConnServer) then 1 else 0))) /\
  open_fds (w_env w) ⊆ open_fds (w_env w').
Proof.
  intros Hx w' Hw'. destruct (c_connType x) eqn:Ht.
  - simplify_eq. rewrite !Z.sub_0_r. done.
  - bind_inv Hw'. pose proof (OnCClosed_stable w c err a Ha) as [Hk Hn Hc Hcc Hsc Hfd].
    unfold to_world, World_ToWorld in *. simplify_eq. cbn.
    split_and!; try done; rewrite ?Z.sub_0_r, ?Hcc, ?Hsc; done.
  - bind_inv Hw'. pose proof (OnSClosed_stable w c err a Ha) as [Hk Hn Hc Hcc Hsc Hfd].
    unfold to_world, World_ToWorld in *. simplify_eq. cbn.
    split_and!; try done; rewrite ?Z.sub_0_r, ?Hcc, ?Hsc; done.
Qed.

(** [closeConn] closes an open connection and does nothing to another one. *)
Lemma closeConn_effect w c err t r :
  invariant w -> closeConn w c err t = Ok r ->
  exists k, keys w !! c = Some k /\ if k_opened k then closes w c k (to_world r) else to_world r = w.
Proof.
  intros Hw Hr. unfold closeConn in Hr. bind_inv Hr. apply get_conn_inv in Ha. rename a into x.
  exists (conn_key x). split; [by apply keys_lookup|]. cbn [conn_key k_opened].
  destruct (c_opened x) eqn:Hop; cbn [negb] in Hr; [|by injection Hr as <-].
  bind_inv Hr. rename a into w1. apply flush_residual_stable in Ha0 as Hst. unfold to_world, World_ToWorld in Hst.
  apply (closes_stable w w1); [done|]. pose proof (stable_inv _ _ Hst Hw) as Hw1.
  destruct (epoll_ctl _ _ _) as [e0 err0] eqn:E0. destruct (sys_close _ _) as [e1 err1] eqn:E1.
  apply epoll_fds in E0. apply close_fds in E1.
  bind_inv Hr. rename a into w2. bind_inv Hr. rename a into y. bind_inv Hr. rename a into z. simplify_eq.
  pose proof (keys_lookup _ _ _ Ha) as Hk. rewrite <- (st_keys _ _ Hst) in Hk.
  assert (exists x1, w_conns w1 !! c = Some x1 /\ conn_key x1 = conn_key x) as (x1 & Hx1 & Hkx1).
  { unfold keys in Hk. rewrite lookup_fmap in Hk. destruct (w_conns w1 !! c) as [x1|]; [|done].
    exists x1. split; [done|]. by apply (inj Some) in Hk. }
  assert (c_connType x = c_connType x1) as Hty by (by apply (f_equal k_type) in Hkx1). rewrite Hty in Ha1.
  set (w0 := with_connections _ _ _ _) in Ha1.
  destruct (close_callback w0 c x1 err Hx1 w2 Ha1) as (Hk2 & Hn2 & Ht2 & Hc2 & Hs2 & Hf2).
  apply get_conn_inv, keys_lookup in Ha2. rewrite Hk2 in Ha2. change (keys w0) with (keys w1) in *.
  rewrite Hk in Ha2. apply (inj Some), (f_equal k_fd) in Ha2 as Hfd. cbn in Hfd. apply releaseTCP_key in Ha3. rewrite <- Hfd in Ha3.
  split; cbn.
  - unfold keys. cbn. rewrite fmap_insert, Ha3. fold (keys w2). by rewrite Hk2.
  - done.
  - done.
  - rewrite Hc2; [by rewrite Hty|]. subst w0. cbn. rewrite (in_cCount _ Hw1). apply wrap32_wrap.
  - rewrite Hs2; [by rewrite Hty|]. subst w0. cbn. rewrite (in_sCount _ Hw1). apply wrap32_wrap.
  - subst w0. cbn in *. set_solver.
Qed.

Lemma closeConn_inv w c err t : holds inv_step w (closeConn w c err t).
Proof.
  intros r Hr Hw. destruct (closeConn_effect w c err t r Hw Hr) as (k & Hk & Hcl). destruct (k_opened k) eqn:Ho.
  - by apply (closes_inv w _ c k).
  - by rewrite Hcl.
Qed.
End closing.
#[export] Hint Resolve flush_residual_stable conn_open_stable closeConn_inv : table.

(** ** Writing *)
Section writing.
Context `{BytePool} `{!Env, !Descriptors} {T : Type} `{!LLRB T} `{!HashMap ClusterNode} `{!ConnHandler T, !ConnHandlerStable T}
  (opts : Options).
Implicit Types w : World T.

Lemma write_inv w c data : holds inv_step w (write w c data).
Proof. unfold write. table. Qed.
Lemma writev_inv w c bs : holds inv_step w (writev w c bs).
Proof. unfold writev. table. Qed.
Hint Resolve write_inv writev_inv : table.

Lemma el_write_inv w c : holds inv_step w (el_write w c).
Proof.
  unfold el_write. apply holds_pure; intros x Hx. apply holds_pure; intros iov _.
  apply holds_pure; intros [[n err] w1] Hn. assert (stable w w1) as Hst.
  { destruct (1 <? len iov).
    - injection Hn as Hn. by eapply io_Writev_stable.
    - bind_inv Hn. destruct (sys_write _ _ _) as [e [? ?]] eqn:E. simplify_eq. solve_stable. }
  clear Hn. table.
Qed.
Lemma asyncWrite_inv w c data : holds inv_step w (asyncWrite w c data).
Proof. unfold asyncWrite. table. Qed.
Lemma asyncWritev_inv w c data : holds inv_step w (asyncWritev w c data).
Proof. unfold asyncWritev. table. Qed.
Lemma writev_chunks_inv fuel w c bs : holds inv_step w (writev_chunks fuel w c bs).
Proof. revert w bs. induction fuel as [|fuel IH]; intros w bs; cbn [writev_chunks]; table. Qed.
Lemma take_out_stable fuel w c bs : holds stable w (take_out opts fuel w c bs).
Proof. revert w bs. induction fuel as [|fuel IH]; intros w bs; cbn [take_out]; table. Qed.
Hint Resolve writev_chunks_inv take_out_stable : table.
Lemma handleWriteSignal_inv w c : holds inv_step w (handleWriteSignal opts w c).
Proof. unfold handleWriteSignal. table. Qed.
End writing.
#[export] Hint Resolve write_inv writev_inv el_write_inv asyncWrite_inv asyncWritev_inv writev_chunks_inv
  handleWriteSignal_inv : table.

(** ** Opening a connection *)
Section opening.
Context `{BytePool} `{!Env, !Descriptors} {T : Type} `{!LLRB T} `{!HashMap ClusterNode} `{!ConnHandler T, !ConnHandlerStable T}
  (opts : Options).
Implicit Types w : World T.

(** A new connection enters the table. *)
Lemma opened_inv w w' k :
  invariant w -> w_connections w !! k_fd k = None -> k_opened k = true -> k_attached k = true -> k_type k <> ConnNone ->
  keys w' = <[w_next w := k]> (keys w) -> w_next w' = Pos.succ (w_next w) ->
  w_connections w' = <[k_fd k := w_next w]> (w_connections w) ->
  w_cConnCount w' = wrap32 (w_cConnCount w + (if decide (k_type k = ConnClient) then 1 else 0)) ->
  w_sConnCount w' = wrap32 (w_sConnCount w + (if decide (k_type k = ConnServer) then 1 else 0)) ->
  open_fds (w_env w) ∪ {[k_fd k]} ⊆ open_fds (w_env w') -> invariant w'.
Proof.
  intros [He Ho Hf Hd Hc Hs] Hfd Hop Hat Hty Hks Hn Ht Hcc Hsc Hfds.
  assert (keys w !! w_next w = None) as Hnew by (apply Hf; done). split; rewrite ?Hks, ?Hn, ?Ht.
  - intros fd d [[<- <-]|[Hne Hl]]%lookup_insert_Some; [exists k; by rewrite lookup_insert_eq|].
    destruct (He fd d Hl) as (j & Hj & Hjf). exists j. rewrite lookup_insert_ne; [done|]. congruence.
  - intros d j [[<- <-]|[Hne Hj]]%lookup_insert_Some Hjo; [by rewrite lookup_insert_eq|].
    destruct (Ho d j Hj Hjo) as (Hl & Hrest). split; [|done]. rewrite lookup_insert_ne; [done|congruence].
  - intros d Hd'. rewrite lookup_insert_ne by lia. apply Hf. lia.
  - intros fd Hl. apply Hfds. destruct (decide (fd = k_fd k)) as [->|Hne]; [set_solver|].
    rewrite lookup_insert_ne in Hl by done. apply Hd in Hl. set_solver.
  - by rewrite Hcc, Hc, open_count_open, wrap32_add.
  - by rewrite Hsc, Hs, open_count_open, wrap32_add.
Qed.

(** A connection that was not registered is never opened. *)
Lemma unopened_inv w w' k :
  invariant w -> k_opened k = false ->
  keys w' = <[w_next w := k]> (keys w) -> w_next w' = Pos.succ (w_next w) ->
  w_connections w' = w_connections w -> w_cConnCount w' = w_cConnCount w -> w_sConnCount w' = w_sConnCount w ->
  (forall fd, is_Some (w_connections w !! fd) -> fd ∈ open_fds (w_env w')) -> invariant w'.
Proof.
  intros [He Ho Hf Hd Hc Hs] Hop Hks Hn Ht Hcc Hsc Hfds.
  assert (keys w !! w_next w = None) as Hnew by (apply Hf; done). split; rewrite ?Hks, ?Hn, ?Ht.
  - intros fd d Hl. destruct (He fd d Hl) as (j & Hj & Hjf). exists j. rewrite lookup_insert_ne; [done|]. congruence.
  - intros d j [[<- <-]|[Hne Hj]]%lookup_insert_Some Hjo; [congruence|]. by apply Ho.
  - intros d Hd'. rewrite lookup_insert_ne by lia. apply Hf. lia.
  - done.
  - rewrite Hcc, Hc, open_count_unopened; [done|congruence|done].
  - rewrite Hsc, Hs, open_count_unopened; [done|congruence|done].
Qed.

(** [open] once the connection is counted. *)
Definition counted w (c : cid) (x : conn) : World T :=
  let w := put_conn w c (set_opened x true) in
  match c_connType x with
  | ConnClient => with_connections w (w_connections w) (wrap32 (w_cConnCount w + 1)) (w_sConnCount w)
  | ConnServer => with_connections w (w_connections w) (w_cConnCount w) (wrap32 (w_sConnCount w + 1))
  | ConnNone => w
  end.

Lemma handleAction_inv w c a : holds inv_step w (handleAction w c a).
Proof. unfold handleAction. table. Qed.
Hint Resolve handleAction_inv : table.

Lemma el_open_inv w c x r :
  w_conns w !! c = Some x -> invariant (counted w c x) -> el_open w c = Ok r -> invariant (to_world r).
Proof.
  intros Hx Hw Hr. unfold el_open in Hr. rewrite (get_conn_Ok _ _ _ Hx), res_bind_Ok in Hr. revert Hw. revert r Hr.
  apply (holds_bind inv_step).
  - unfold counted. destruct (c_connType x); table.
  - intros [[out action] w1]. table.
Qed.

(** A connection the kernel just handed out, before it is registered. *)
Record newborn w (x : conn) : Prop := {
  nb_absent : w_connections w !! c_fd x = None;
  nb_fd : c_fd x ∈ open_fds (w_env w);
  nb_closed : c_opened x = false;
  nb_attached : c_attached x = true;
  nb_type : c_connType x <> ConnNone;
}.

Lemma counted_inv w x e :
  invariant w -> newborn w x -> open_fds (w_env w) ⊆ open_fds e ->
  invariant (counted (with_connections (with_env (alloc_conn w x).2 e) (<[c_fd x := w_next w]> (w_connections w))
    (w_cConnCount w) (w_sConnCount w)) (w_next w) x).
Proof.
  intros Hw [Hfd Hop Hno Hat Hty] He.
  apply (opened_inv w _ (conn_key (set_opened x true))); try done; unfold counted.
  - unfold keys. destruct (c_connType x); cbn; by rewrite insert_insert_eq, fmap_insert.
  - by destruct (c_connType x).
  - by destruct (c_connType x).
  - cbn [conn_key k_type set_opened c_connType]. destruct (c_connType x) eqn:Ht; [done|done|].
    cbn. by rewrite Z.add_0_r, (in_cCount _ Hw), wrap32_wrap.
  - cbn [conn_key k_type set_opened c_connType]. destruct (c_connType x) eqn:Ht; [done| |done].
    cbn. by rewrite Z.add_0_r, (in_sCount _ Hw), wrap32_wrap.
  - destruct (c_connType x); cbn; set_solver.
Qed.

Lemma register_inv w x r :
  invariant w -> newborn w x -> register w x = Ok r -> invariant (to_world r).
Proof.
  intros Hw Hx Hr. pose proof Hx as [Hfd Hop Hno Hat Hty]. unfold register, alloc_conn in Hr. cbv zeta in Hr.
  unfold do_epoll in Hr. rewrite Hat in Hr. destruct (epoll_ctl _ _ _) as [e1 err] eqn:E1. apply epoll_fds in E1. cbn in E1.
  rewrite res_bind_Ok in Hr. destruct err as [n|]; cbn [fmap option_fmap option_map] in Hr.
  - destruct (sys_close _ _) as [e2 err2] eqn:E2. apply close_fds in E2. cbn in E2. bind_inv Hr. simplify_eq.
    apply releaseTCP_key in Ha. apply (unopened_inv w _ (conn_key a)); try done.
    + by rewrite Ha.
    + unfold to_world, prod_ToWorld, World_ToWorld, keys. cbn. by rewrite insert_insert_eq, fmap_insert.
    + intros fd Hl. apply (in_fds _ Hw) in Hl as Hin. cbn. assert (fd <> c_fd x); [|set_solver].
      intros ->. rewrite Hfd in Hl. by destruct Hl.
  - bind_inv Hr. destruct a as [err w1]. simplify_eq.
    refine (el_open_inv _ _ x _ _ _ Ha); [cbn; by rewrite lookup_insert_eq|]. exact (counted_inv w x e1 Hw Hx E1).
Qed.

Lemma newTCPConn_newborn w e fd l rm t st sl cap :
  invariant w -> fd ∉ open_fds (w_env w) -> fd ∈ open_fds e -> t <> ConnNone ->
  newborn (with_env w e) (newTCPConn fd l rm t st sl cap).
Proof.
  intros Hw Hnew Hin Ht. split; try done. cbn. apply eq_None_not_Some. intros Hs. by apply Hnew, (in_fds _ Hw).
Qed.

Lemma Dial_inv w address isSlave : holds inv_step w (Dial opts w address isSlave).
Proof.
  intros r Hr Hw. unfold Dial in Hr. destruct (net_Dial _ _) as [e res] eqn:E. apply Dial_fds in E as [Hsub Hfd].
  assert (invariant (with_env w e)) as Hw1 by (by apply (stable_inv w)). destruct res as [[[fd local] remote]|err].
  - destruct Hfd as [Hnew Hin]. bind_inv Hr. destruct a as [[err c] w1].
    apply register_inv in Ha; [|done|by apply newTCPConn_newborn]. unfold to_world in *. by destruct err; simplify_eq.
  - by simplify_eq.
Qed.

Lemma accept_inv w lnAddr : holds inv_step w (accept opts w lnAddr).
Proof.
  intros r Hr Hw. unfold accept in Hr. destruct (sys_accept _) as [e res] eqn:E. apply accept_fds in E as [Hsub Hfd].
  assert (invariant (with_env w e)) as Hw1 by (by apply (stable_inv w)). destruct res as [[fd remote]|[n|]].
  - destruct Hfd as [Hnew Hin]. unfold alloc_conn in Hr. cbv zeta in Hr.
    set (x := newTCPConn _ _ _ _ _ _ _) in Hr.
    assert (newborn (with_env w e) x) as Hx by (by apply newTCPConn_newborn).
    unfold do_epoll in Hr. rewrite (nb_attached _ _ Hx) in Hr. destruct (epoll_ctl _ _ _) as [e1 err] eqn:E1.
    apply epoll_fds in E1. cbn in E1. rewrite res_bind_Ok in Hr. destruct err as [n|]; cbn [fmap option_fmap option_map] in Hr.
    + simplify_eq. apply (unopened_inv (with_env w e) _ (conn_key x)); try done.
      * unfold to_world, prod_ToWorld, World_ToWorld, keys. cbn. by rewrite fmap_insert.
      * intros fd' Hl. apply (in_fds _ Hw1) in Hl. cbn in *. set_solver.
    + refine (el_open_inv _ _ x _ _ _ Hr); [cbn; by rewrite lookup_insert_eq|].
      exact (counted_inv (with_env w e) x e1 Hw1 Hx E1).
  - case_if_in Hr; by simplify_eq.
  - by simplify_eq.
Qed.
End opening.
#[export] Hint Resolve Dial_inv accept_inv : table.
