(* ===== verification/LoopTable.v ===== *)
(** * The connection table in the running loop

    The invariant of [Table] for the loop itself: reading and answering requests
    ([EventLoop]), the proxy's handler ([Server]), the task queues and the rounds of
    [Polling].  The loop is proved against the interface [LoopHandlerInv], which the
    proxy's handler discharges.  At the end: the table and the counters agree with
    the connections after any number of rounds, and a loop that ends closes every
    connection. *)

From S2P Require Import Prelude Errors Byteslice Ring LinkedList Elastic Commands Codec Message CodecC CodecS Pool Cluster AuthIp World Conn EventLoop Pipelining Server Polling Table.

(** ** The loop *)
Class LoopHandlerInv `{!Env, !Descriptors} {T : Type} `{!LLRB T} `{!HashMap ClusterNode} `{!LoopHandler T} := {
  OnCReact_inv : forall (w : World T) r c, holds inv_step w (OnCReact w r c);
  OnMoved_inv : forall (w : World T) addr slot s f, holds inv_step w (OnMoved w addr slot s f);
}.
Arguments LoopHandlerInv {_ _} T {_ _ _}.
#[export] Hint Resolve OnCReact_inv OnMoved_inv : table.

Section loop.
Context `{BytePool} `{!Env, !Descriptors} {T : Type} `{!LLRB T} `{!HashMap ClusterNode} `{!ConnHandler T, !ConnHandlerStable T}
  `{!LoopHandler T, !LoopHandlerInv T} `{!MapRange} (opts : Options).
Implicit Types w : World T.

Lemma conn_cread_stable w c : holds stable w (conn_cread opts w c).
Proof. unfold conn_cread. table. Qed.
Lemma initializing_stable w s : holds stable w (initializing w s).
Proof. unfold initializing. table. Qed.
Lemma sdecode_state w s bs : holds stable w (CodecS.Decode w (fun w => DequeueInFrag w s) bs).
Proof. unfold CodecS.Decode. cbv zeta. table. Qed.
Hint Resolve conn_cread_stable initializing_stable sdecode_state : table.
Lemma sdecode_stable w s : holds stable w (sdecode w s).
Proof. unfold sdecode. table. Qed.
Hint Resolve sdecode_stable : table.
Lemma conn_sread_stable w s : holds stable w (conn_sread opts w s).
Proof. unfold conn_sread. table. Qed.
Lemma keep_stable w c : holds stable w (keep w c).
Proof. unfold keep. table. Qed.
Lemma release_msgs_stable fuel w c : holds stable w (release_msgs fuel w c).
Proof. revert w. induction fuel as [|fuel IH]; intros w; cbn [release_msgs]; table. Qed.
Hint Resolve conn_sread_stable keep_stable release_msgs_stable : table.

Lemma el_cread_inv fuel w c : holds inv_step w (el_cread opts fuel w c).
Proof. revert w. induction fuel as [|fuel IH]; intros w; cbn [el_cread]; table. Qed.
Lemma answer_inv w c : holds inv_step w (answer w c).
Proof. unfold answer. table. Qed.
Hint Resolve el_cread_inv answer_inv : table.
Lemma el_sread_inv fuel w s : holds inv_step w (el_sread opts fuel w s).
Proof.
  revert w. induction fuel as [|fuel IH]; intros w; cbn [el_sread]; [table|].
  eapply holds_bind; [apply _|call|]. intros [[r err] w1]. table_state. destruct err as [e|]; [table|].
  apply holds_pure; intros f _. apply holds_pure; intros x _.
  assert (holds inv_step w1
    match f_Owner x with
    | None =>
        el_sread opts fuel (if len (w_clusterChan w1) <? 3 then with_chan w1 (w_clusterChan w1 ++ [f_RspBody x]) else w1) s
    | Some c =>
        '(answered, w) ← answer w1 c; y ← get_conn w s;
        if answered && negb (c_opened y) then Ok (None, w) else el_sread opts fuel w s
    end) as Hgo by (destruct (f_Owner x) as [c|]; [|case_if]; table).
  destruct (f_Type x); first [exact Hgo | table].
Qed.
Hint Resolve el_sread_inv : table.
Lemma el_read_inv fuel w c : holds inv_step w (el_read opts fuel w c).
Proof. unfold el_read. table. Qed.
Lemma msgTimeout_stable fuel w : holds stable w (msgTimeout fuel w).
Proof. revert w. induction fuel as [|fuel IH]; intros w; cbn [msgTimeout]; table. Qed.
Hint Resolve el_read_inv : table.
Lemma closeAllSockets_inv cs w : holds inv_step w (closeAllSockets w cs).
Proof. revert w. induction cs as [|c cs IH]; intros w; cbn [closeAllSockets]; table. Qed.
Lemma callback_inv fuel w lnAddr fd i o : holds inv_step w (callback opts fuel w lnAddr fd i o).
Proof. unfold callback. table. Qed.
Lemma run_task_inv w t : holds inv_step w (run_task opts w t).
Proof. unfold run_task. table. Qed.
Hint Resolve run_task_inv : table.
Lemma run_urgent_inv fuel w : holds inv_step w (run_urgent opts fuel w).
Proof. revert w. induction fuel as [|fuel IH]; intros w; cbn [run_urgent]; table. Qed.
Lemma run_async_inv k w : holds inv_step w (run_async opts k w).
Proof. revert w. induction k as [|k IH]; intros w; cbn [run_async]; table. Qed.
Hint Resolve run_urgent_inv run_async_inv : table.
Lemma chores_inv max fuel w : holds inv_step w (chores opts max fuel w).
Proof. unfold chores. table. Qed.
End loop.
#[export] Hint Resolve el_cread_inv el_sread_inv el_read_inv msgTimeout_stable closeAllSockets_inv callback_inv run_task_inv
  run_urgent_inv run_async_inv chores_inv : table.

(** ** The proxy's handler keeps its part *)
Section server.
Context `{BytePool} `{!Env, !Descriptors} {T : Type} `{!LLRB T} `{!HashMap ClusterNode} `{!HashMap unit} `{!MapRange}
  (opts : Options) (IpMap : ipMap).
Implicit Types w : World T.

Lemma drop_frags_stable fuel w s : holds stable w (drop_frags fuel w s).
Proof. revert w. induction fuel as [|fuel IH]; intros w; cbn [drop_frags]; table. Qed.
Hint Resolve drop_frags_stable : table.

#[export] Instance server_ConnHandlerStable : @ConnHandlerStable _ _ T _ _ (server_ConnHandler opts IpMap).
Proof.
  split; intros w c; cbn.
  - unfold server_OnCOpened. table.
  - unfold server_OnSOpened. table.
  - intros err. unfold server_OnCClosed. table.
  - intros err. unfold server_OnSClosed. table.
Qed.

Lemma server_Dial_inv w addr isSlave : holds inv_step w (server_Dial opts IpMap w addr isSlave).
Proof. apply (@Dial_inv _ _ _ T _ _ (server_ConnHandler opts IpMap) _). Qed.
Hint Resolve server_Dial_inv : table.
Lemma pool_Get_inv w addr p : holds inv_step w (pool_Get opts IpMap w addr p).
Proof. unfold pool_Get, Pool.Get, dial_front. table. Qed.
Hint Resolve pool_Get_inv : table.
Lemma live_slave_inv w slaves : holds inv_step w (live_slave w slaves).
Proof. revert w. induction slaves as [|v slaves IH]; intros w; cbn [live_slave]; table. Qed.
Hint Resolve live_slave_inv : table.
Lemma route_inv w r slot : holds inv_step w (route opts w r slot).
Proof. unfold route. table. Qed.
Hint Resolve route_inv : table.
Lemma getConn_inv w r slot : holds inv_step w (getConn opts IpMap w r slot).
Proof. unfold getConn. table. Qed.
Hint Resolve getConn_inv : table.
Lemma send_frag_inv w msg slot f c : holds inv_step w (send_frag opts IpMap w msg slot f c).
Proof. unfold send_frag. table. Qed.
Hint Resolve send_frag_inv : table.
Lemma send_frags_inv w msg fs c : holds inv_step w (send_frags opts IpMap w msg fs c).
Proof. revert w. induction fs as [|[slot f] fs IH]; intros w; cbn [send_frags]; table. Qed.
Hint Resolve send_frags_inv : table.

Lemma server_OnCReact_inv w r c : holds inv_step w (server_OnCReact opts IpMap w r c).
Proof.
  unfold server_OnCReact. apply holds_pure; intros m _. apply holds_pure; intros msg _. case_if; [table|].
  assert (holds inv_step w
    ('(out, w) ← send_frags opts IpMap w msg (range (m_Body msg)) c;
     match out with
     | Some o => Ok (Some o, ActNone, w)
     | None => w ← EnqueueInMsg w c m; Ok (None, ActNone, w)
     end)) as Hgo by table.
  destruct (m_Type msg); first [exact Hgo | table].
Qed.
Lemma server_OnMoved_inv w addr slot s f : holds inv_step w (server_OnMoved opts IpMap w addr slot s f).
Proof. unfold server_OnMoved. table. Qed.
Lemma server_OnTicker_inv w : holds inv_step w (server_OnTicker opts IpMap w).
Proof. unfold server_OnTicker. table. Qed.
Hint Resolve server_OnTicker_inv : table.

#[export] Instance server_LoopHandlerInv : @LoopHandlerInv _ _ T _ _ (server_LoopHandler opts IpMap).
Proof. split; intros; cbn; [apply server_OnCReact_inv|apply server_OnMoved_inv]. Qed.

(** Closing the connections of a pool only queues tasks. *)
Lemma close_from_stable fuel h pc w : holds stable w (close_from (fun w c => Ok (Close w c).2) fuel h pc w).
Proof. revert w pc. induction fuel as [|fuel IH]; intros w [n|]; cbn [close_from]; table. Qed.
Hint Resolve close_from_stable : table.
Lemma Release_stable p w : holds stable w (Release (fun w c => Ok (Close w c).2) p w).
Proof. unfold Release. table. Qed.
Hint Resolve Release_stable : table.
Lemma pool_Close_stable p w : holds stable w (Pool.Close (fun w c => Ok (Close w c).2) p w).
Proof. unfold Pool.Close. table. Qed.
Lemma SetIsSlave_stable p b w : holds stable w (SetIsSlave (fun w c => Ok (Close w c).2) p b w).
Proof. unfold SetIsSlave. table. Qed.
Hint Resolve pool_Close_stable SetIsSlave_stable : table.
Lemma remove_pools_stable w ks : holds stable w (remove_pools w ks).
Proof. revert w. induction ks as [|k ks IH]; intros w; cbn [remove_pools]; table. Qed.
Lemma add_pools_stable w kvs : holds stable w (add_pools opts w kvs).
Proof. revert w. induction kvs as [|[k v] kvs IH]; intros w; cbn [add_pools]; table. Qed.
Hint Resolve remove_pools_stable add_pools_stable : table.
Lemma ticker_inv order w : holds inv_step w (ticker opts IpMap order w).
Proof. unfold ticker. table. Qed.
Hint Resolve ticker_inv : table.

Context (order : gmap bytes Pool -> list bytes) (fuel : nat).

Lemma server_chores_inv max w : holds inv_step w (@chores _ _ T _ _ (server_ConnHandler opts IpMap) opts max fuel w).
Proof. apply chores_inv. Qed.
Hint Resolve server_chores_inv : table.

(** Any polling loop whose dispatch keeps the table. *)
Section any_poller.
Context {E : Type} (lim : PollLimits) (dispatch : World T -> E -> option (res (option error * World T))).
Hypothesis dispatch_inv : forall w ev r, dispatch w ev = Some r -> holds inv_step w r.

Lemma run_events_inv w evs b : holds inv_step w (run_events dispatch w evs b).
Proof.
  revert w b. induction evs as [|ev evs IH]; intros w b; cbn [run_events]; [table|].
  destruct (dispatch w ev) as [r|] eqn:Ed; [|table].
  eapply (holds_bind inv_step); [by eapply dispatch_inv|]. intros [err w1]. table.
Qed.
Hint Resolve run_events_inv : table.
Lemma poll_round_inv w size b x : holds inv_step w (poll_round opts IpMap order fuel lim dispatch w size b x).
Proof. unfold poll_round. table. Qed.
Hint Resolve poll_round_inv : table.
Lemma poll_inv w size b xs : holds inv_step w (poll opts IpMap order fuel lim dispatch w size b xs).
Proof. revert w size b. induction xs as [|x xs IH]; intros w size b; cbn [poll]; table. Qed.
End any_poller.

(** *** Every entry an open connection, every open connection an entry *)

(** [CountConnections] of [core/gnet.go]. *)
Definition CountConnections w : Z := w_cConnCount w + w_sConnCount w.

(** The open connections, clients and servers. *)
Lemma open_disjoint (ks : gmap cid key) : filter (open_of ConnClient) ks ##ₘ filter (open_of ConnServer) ks.
Proof.
  apply map_disjoint_spec. intros c k j [Hk [_ Hc]]%map_lookup_filter_Some [Hj [_ Hs]]%map_lookup_filter_Some.
  cbn in *. simplify_map_eq. congruence.
Qed.
Lemma open_split w c k :
  invariant w ->
  (filter (open_of ConnClient) (keys w) ∪ filter (open_of ConnServer) (keys w)) !! c = Some k <->
  keys w !! c = Some k /\ k_opened k = true.
Proof.
  intros Hw. rewrite lookup_union_Some by apply open_disjoint.
  rewrite !map_lookup_filter_Some. split; [by intros [[Hk [Ho _]]|[Hk [Ho _]]]|]. intros [Hk Ho].
  destruct (in_open _ Hw c k Hk Ho) as (_ & _ & Ht). unfold open_of. cbn. destruct (k_type k) eqn:E; [done|by left|by right].
Qed.

Lemma table_size w :
  invariant w -> Z.of_nat (base.size (w_connections w)) = open_count ConnClient (keys w) + open_count ConnServer (keys w).
Proof.
  intros Hw. unfold open_count. rewrite <- Nat2Z.inj_add. f_equal. rewrite <- map_size_disj_union by apply open_disjoint.
  rewrite <- !length_map_to_list, <- (length_fmap snd), <- (length_fmap fst (map_to_list (_ ∪ _))).
  apply Permutation_length, NoDup_Permutation.
  - apply NoDup_fmap_2_strong; [|apply NoDup_map_to_list]. intros [fd c] [fd' c'] Hin Hin' Heq. cbn in Heq. subst c'.
    apply elem_of_map_to_list in Hin, Hin'. destruct (in_entry _ Hw _ _ Hin) as (k & Hk & <- & _).
    destruct (in_entry _ Hw _ _ Hin') as (k' & Hk' & <- & _). congruence.
  - apply NoDup_fst_map_to_list.
  - intros c. rewrite !list_elem_of_fmap. split.
    + intros ([fd c'] & -> & Hin). apply elem_of_map_to_list in Hin. destruct (in_entry _ Hw _ _ Hin) as (k & Hk & Hf & Ho).
      exists (c', k). split; [done|]. apply elem_of_map_to_list. by apply open_split.
    + intros ([c' k] & -> & Hin). apply elem_of_map_to_list, open_split in Hin as [Hk Ho]; [|done].
      destruct (in_open _ Hw _ _ Hk Ho) as (Hl & _). exists (k_fd k, c'). split; [done|]. by apply elem_of_map_to_list.
Qed.

(** The table holds the open connections and the counters count them. *)
Record table_ok w : Prop := {
  tb_entries : forall fd c, w_connections w !! fd = Some c <->
    exists x, w_conns w !! c = Some x /\ c_fd x = fd /\ c_opened x = true;
  tb_counts : Z.of_nat (base.size (w_connections w)) < 2 ^ 31 ->
    w_cConnCount w = open_count ConnClient (keys w) /\ w_sConnCount w = open_count ConnServer (keys w) /\
    CountConnections w = Z.of_nat (base.size (w_connections w));
}.

Lemma inv_table_ok w : invariant w -> table_ok w.
Proof.
  intros Hw. split.
  - intros fd c. split.
    + intros Hl. destruct (in_entry _ Hw _ _ Hl) as (k & Hk & Hf & Ho). unfold keys in Hk.
      rewrite lookup_fmap in Hk. destruct (w_conns w !! c) as [x|]; [|done]. apply (inj Some) in Hk as <-. by exists x.
    + intros (x & Hx & <- & Ho). by destruct (in_open _ Hw c (conn_key x)) as (Hl & _); [apply keys_lookup|done|].
  - intros Hsz. pose proof (table_size w Hw) as Hs. unfold CountConnections. rewrite (in_cCount _ Hw), (in_sCount _ Hw).
    assert (0 <= open_count ConnClient (keys w)) by (unfold open_count; lia).
    assert (0 <= open_count ConnServer (keys w)) by (unfold open_count; lia).
    rewrite !wrap32_id by lia. split_and!; [done..|lia].
Qed.

Lemma epoll_dispatch_inv lnAddr efd w ev r :
  epoll_dispatch opts IpMap lnAddr efd fuel w ev = Some r -> holds inv_step w r.
Proof. unfold epoll_dispatch. case_if; [|done]. intros [= <-]. apply callback_inv. Qed.

(** After any number of rounds of [Polling], whatever the events, the table
    [connections] holds exactly the open connections, each under its descriptor, and
    (as long as there are fewer than 2^31) the two counters are the numbers of open
    client and server connections and [CountConnections] is the size of the table.
    The loop starts in a state with this property, for instance without connections. *)
Theorem connection_table lnAddr efd w xs r w'
    (Hw : invariant w) (Hrun : Polling opts IpMap order lnAddr efd fuel w xs = Ok (r, w')) :
  table_ok w' /\ invariant w'.
Proof.
  assert (invariant w') as Hw' by exact (poll_inv _ _ (epoll_dispatch_inv lnAddr efd) _ _ _ _ _ Hrun Hw).
  split; [by apply inv_table_ok|done].
Qed.

(** *** The end of the loop *)

Lemma closeAllSockets_closes w cs r :
  invariant w -> @closeAllSockets _ T _ _ (server_ConnHandler opts IpMap) w cs = Ok r ->
  invariant r /\ forall c k, keys r !! c = Some k -> k_opened k = true -> c ∉ cs /\ keys w !! c = Some k.
Proof.
  revert w. induction cs as [|d cs IH]; intros w Hw Hr; cbn [closeAllSockets] in Hr.
  { simplify_eq. split; [done|]. intros c k Hk Ho. split; [by apply not_elem_of_nil|done]. }
  bind_inv Hr. destruct a as [e w1]. pose proof (closeConn_effect _ _ _ _ _ Hw Ha) as (j & Hj & Hcl).
  pose proof (closeConn_inv _ _ _ _ _ Ha Hw) as Hw1. cbv beta delta [to_world prod_ToWorld World_ToWorld] in Hcl, Hw1. cbn [snd] in Hcl, Hw1.
  destruct (IH w1 Hw1 Hr) as [Hri Hrest]. split; [done|]. intros c k Hk Ho. destruct (Hrest c k Hk Ho) as [Hnin Hk1].
  destruct (k_opened j) eqn:Hoj.
  - rewrite (cl_keys _ _ _ _ Hcl) in Hk1. apply lookup_insert_Some in Hk1 as [[<- <-]|[Hne Hk1]]; [done|].
    split; [|done]. by intros [->|Hin]%elem_of_cons.
  - subst w1. split; [|done]. intros [->|Hin]%elem_of_cons; [congruence|done].
Qed.

(** The end of any polling loop that keeps the table. *)
Lemma run_loop_closes {E} lim (dispatch : World T -> E -> option (res (option error * World T))) w xs e w1 cs w' :
  (forall w ev r, dispatch w ev = Some r -> holds inv_step w r) -> invariant w ->
  (forall w, cs w ≡ₚ (map_to_list (w_connections w)).*2) ->
  poll_loop opts IpMap order fuel lim dispatch w xs = Ok (inl e, w1) ->
  run_loop opts IpMap order fuel lim dispatch w xs cs = Ok w' ->
  w_connections w' = ∅ /\ w_cConnCount w' = 0 /\ w_sConnCount w' = 0 /\
  forall c x, w_conns w' !! c = Some x -> c_opened x = false.
Proof.
  intros Hd Hw Hcs Hend Hrun. unfold run_loop in Hrun. rewrite Hend, res_bind_Ok in Hrun.
  assert (invariant w1) as Hw1 by (exact (poll_inv _ _ Hd _ _ _ _ _ Hend Hw)).
  destruct (closeAllSockets_closes _ _ _ Hw1 Hrun) as [Hw' Hcl].
  assert (forall c k, keys w' !! c = Some k -> k_opened k = false) as Hall.
  { intros c k Hk. destruct (k_opened k) eqn:Ho; [|done]. destruct (Hcl c k Hk Ho) as [Hnin Hk1]. exfalso. apply Hnin.
    rewrite Hcs. apply list_elem_of_fmap. exists (k_fd k, c). split; [done|]. apply elem_of_map_to_list. by apply (in_open _ Hw1). }
  assert (w_connections w' = ∅) as Hempty.
  { apply map_empty. intros fd. apply eq_None_not_Some. intros [c Hl]. destruct (in_entry _ Hw' _ _ Hl) as (k & Hk & _ & Ho).
    rewrite (Hall _ _ Hk) in Ho. done. }
  pose proof (table_size w' Hw') as Hs. rewrite Hempty, map_size_empty in Hs.
  assert (0 <= open_count ConnClient (keys w')) by (unfold open_count; lia).
  assert (0 <= open_count ConnServer (keys w')) by (unfold open_count; lia).
  split_and!; [done| | |].
  - rewrite (in_cCount _ Hw'), wrap32_id; lia.
  - rewrite (in_sCount _ Hw'), wrap32_id; lia.
  - intros c x Hx. exact (Hall c (conn_key x) (keys_lookup _ _ _ Hx)).
Qed.

(** When the polling loop ends with an error (a failed wait, or the shutdown),
    [run] closes every connection, whatever the order in which the map is visited:
    the table is empty, no connection is open and both counters are 0. *)
Theorem run_closes_all lnAddr efd w xs e w1 cs w' (Hw : invariant w)
    (Hcs : forall w, cs w ≡ₚ (map_to_list (w_connections w)).*2)
    (Hend : Polling opts IpMap order lnAddr efd fuel w xs = Ok (inl e, w1))
    (Hrun : run opts IpMap order lnAddr efd fuel w xs cs = Ok w') :
  w_connections w' = ∅ /\ w_cConnCount w' = 0 /\ w_sConnCount w' = 0 /\
  forall c x, w_conns w' !! c = Some x -> c_opened x = false.
Proof. exact (run_loop_closes _ _ w xs e w1 cs w' (epoll_dispatch_inv lnAddr efd) Hw Hcs Hend Hrun). Qed.
End server.

(** ** A kernel with descriptors

    New descriptors are fresh; every write is taken; a read returns the next piece of
    the descriptor's input, or end of file. *)
Record kernel := mkKernel { n_wires : gmap Z bytes; n_fds : gset Z; n_input : gmap Z (list bytes); n_clock : Z }.

Definition kernel_write (e : kernel) (fd : Z) (p : bytes) : kernel * (Z * option Z) :=
  (mkKernel (<[fd := default [] (n_wires e !! fd) ++ p]> (n_wires e)) (n_fds e) (n_input e) (n_clock e), (len p, None)).
Definition kernel_read (e : kernel) (fd n : Z) : kernel * (bytes * option Z) :=
  match n_input e !! fd with
  | Some (p :: ps) => (mkKernel (n_wires e) (n_fds e) (<[fd := ps]> (n_input e)) (n_clock e), (p, None))
  | _ => (e, ([], None))
  end.
Definition kernel_open (e : kernel) : kernel := mkKernel (n_wires e) ({[fresh (n_fds e)]} ∪ n_fds e) (n_input e) (n_clock e).
Definition kernel_close (e : kernel) (fd : Z) : kernel := mkKernel (n_wires e) (n_fds e ∖ {[fd]}) (n_input e) (n_clock e).

Lemma kernel_write_spec e fd p e' n err :
  kernel_write e fd p = (e', (n, err)) ->
  match err with None => 0 <= n <= len p | Some _ => n = -1 end /\
  (forall k, default [] (n_wires e' !! k) =
     if k =? fd then default [] (n_wires e !! fd) ++ take (Z.to_nat n) p else default [] (n_wires e !! k)).
Proof.
  intros [= <- <- <-]. pose proof (len_nonneg p). split; [lia|]. intros k. cbn. destruct (k =? fd) eqn:E.
  - apply Z.eqb_eq in E as ->. rewrite lookup_insert_eq. cbn. rewrite take_ge; [done|unfold len; lia].
  - by rewrite lookup_insert_ne by lia.
Qed.

(** Every reading of the clock takes [tick] nanoseconds. *)
Program Definition kernel_at (tick : Z) : Env := {|
  env := kernel;
  sys_write := kernel_write;
  sys_writev e fd bs := kernel_write e fd (concat bs);
  sys_read := kernel_read;
  sys_close e fd := (kernel_close e fd, None);
  epoll_ctl e o fd := (e, None);
  wake e := (e, None);
  time_Now e := (mkKernel (n_wires e) (n_fds e) (n_input e) (n_clock e + tick), n_clock e);
  ring_Get e := (e, tiny_ring);
  pool_choice e := (e, Some 0%nat);
  rand_Intn e n := (e, 0);
  net_Dial e a := (kernel_open e, inl (fresh (n_fds e), str "10.0.0.5:40000", a));
  sys_accept e := (kernel_open e, inl (fresh (n_fds e), str "10.0.0.9:51000"));
  wire e fd := default [] (n_wires e !! fd);
  sys_write_spec := kernel_write_spec;
  sys_writev_spec e fd bs := kernel_write_spec e fd (concat bs);
  ring_Get_ok _ := pool_tiny;
|}.
Next Obligation.
  intros tick e fd bs e' n [= <- <-] Hne. destruct (concat bs) as [|x l]; [done|]. rewrite len_cons. pose proof (len_nonneg l). lia.
Qed.
Next Obligation. intros tick e fd n k. cbn. unfold kernel_read. by repeat case_match. Qed.
Solve All Obligations with (intros; simpl; done || lia).

Definition kernel_env : Env := kernel_at 1.

Program Definition kernel_fds_at (tick : Z) : @Descriptors (kernel_at tick) := {| open_fds := n_fds |}.
Next Obligation. intros tick e e' r [= <- <-]. cbn. pose proof (is_fresh (n_fds e)). set_solver. Qed.
Next Obligation. intros tick e a e' r [= <- <-]. cbn. pose proof (is_fresh (n_fds e)). set_solver. Qed.
Next Obligation. intros tick e fd e' r [= <- <-]. cbn. set_solver. Qed.
Next Obligation. intros tick e fd p e' r [= <- <-]. done. Qed.
Next Obligation. intros tick e fd p e' r [= <- <-]. done. Qed.
Next Obligation. intros tick e fd n e' r. cbn. unfold kernel_read. repeat case_match; by intros [= <- <-]. Qed.
Solve All Obligations with (intros; simpl in *; simplify_eq; done).
Definition kernel_fds : @Descriptors kernel_env := kernel_fds_at 1.

(** No connection yet; descriptors 0 to 6 are in use, 6 is the listener. *)
Definition idle_world : @World kernel_env (list (Z * fid)) (gmap_HashMap ClusterNode) :=
  @mkWorld kernel_env (list (Z * fid)) (gmap_HashMap ClusterNode)
    (mkKernel ∅ (list_to_set [0; 1; 2; 3; 4; 5; 6]) {[ 7 := [str "*1" ++ crlf ++ str "$4" ++ crlf ++ str "PING" ++ crlf] ]} 0)
    ∅ 1%positive (mkStore ∅ ∅ 0 0 [] 1%positive) [] [] [] false ∅ 0 0 0 ∅ [] [] no_nodes (slots_Reset []).
Definition table_opts : Options := mkOptions 65536 65536 200 1048576 [] 1 true 100.

(** Two clients connect, the first one sends PING, the second one leaves; 5 is the
    eventfd. *)
Definition table_waits : list (wait epollevent) :=
  [Events [mkEpollEvent 6 EPOLLIN]; Events [mkEpollEvent 6 EPOLLIN; mkEpollEvent 7 EPOLLIN]; Interrupted;
   Events [mkEpollEvent 8 (EPOLLIN + EPOLLRDHUP); mkEpollEvent 5 EPOLLIN]].

Definition table_poll :=
  @Polling empty_pool kernel_env _ _ _ (gmap_HashMap unit) sorted_range table_opts no_ips (fun m => (map_to_list m).*1)
    (str "0.0.0.0:9736") 5 100 idle_world.

Lemma idle_inv : @invariant kernel_env kernel_fds _ _ idle_world.
Proof.
  assert (w_connections idle_world = ∅) as Ht by done. assert (keys idle_world = ∅) as Hk by done.
  split; rewrite ?Ht, ?Hk; try done.
  intros fd [c Hl]. by rewrite lookup_empty in Hl.
Qed.

Definition returns {A} (x : res A) : bool := match x with Ok _ => true | _ => false end.
Definition ends {A B C} (x : res ((A + B) * C)) : bool := match x with Ok (inl _, _) => true | _ => false end.

Lemma returns_inv {A} (x : res A) : returns x = true -> exists a, x = Ok a.
Proof. destruct x as [a| |]; try discriminate. by exists a. Qed.
Lemma ends_inv {A B C} (x : res ((A + B) * C)) : ends x = true -> exists e c, x = Ok (inl e, c).
Proof. destruct x as [[[e|b] c]| |]; try discriminate. by exists e, c. Qed.

Lemma connection_table_witness :
  match table_poll table_waits with
  | Ok (_, w') => @table_ok kernel_env _ _ w' /\ @invariant kernel_env kernel_fds _ _ w'
  | _ => False
  end.
Proof.
  destruct (returns_inv (table_poll table_waits)) as [[r w'] E]; [vm_compute; reflexivity|]. rewrite E.
  exact (@connection_table empty_pool kernel_env kernel_fds _ _ _ (gmap_HashMap unit) sorted_range table_opts no_ips
    (fun m => (map_to_list m).*1) 100 (str "0.0.0.0:9736") 5 idle_world table_waits r w' idle_inv E).
Defined.

(** The first client stays, with its reply. *)
Example table_sample :
  (fun x : _ * @World kernel_env _ _ =>
     (map_to_list (w_connections x.2), CountConnections x.2, wire (w_env x.2) 7)) <$> table_poll table_waits =
  Ok ([(7, 1%positive)], 1, str "+PONG" ++ crlf).
Proof. vm_compute. reflexivity. Qed.

Definition table_stop :=
  @run empty_pool kernel_env _ _ _ (gmap_HashMap unit) sorted_range table_opts no_ips (fun m => (map_to_list m).*1)
    (str "0.0.0.0:9736") 5 100 idle_world.
Definition all_conns (w : @World kernel_env (list (Z * fid)) (gmap_HashMap ClusterNode)) : list cid :=
  (map_to_list (w_connections w)).*2.

Lemma run_closes_all_witness :
  match table_stop (table_waits ++ [Failed 9]) all_conns with
  | Ok w' => w_connections w' = ∅ /\ w_cConnCount w' = 0 /\ w_sConnCount w' = 0 /\
      forall c x, w_conns w' !! c = Some x -> c_opened x = false
  | _ => False
  end.
Proof.
  destruct (returns_inv (table_stop (table_waits ++ [Failed 9]) all_conns)) as [w' Er]; [vm_compute; reflexivity|]. rewrite Er.
  destruct (ends_inv (table_poll (table_waits ++ [Failed 9]))) as (e & w1 & E); [vm_compute; reflexivity|].
  exact (@run_closes_all empty_pool kernel_env kernel_fds _ _ _ (gmap_HashMap unit) sorted_range table_opts no_ips
    (fun m => (map_to_list m).*1) 100 (str "0.0.0.0:9736") 5 idle_world (table_waits ++ [Failed 9]) e w1 all_conns w' idle_inv
    (fun w => Permutation_refl _) E Er).
Defined.
