(* ===== verification/Queues.v ===== *)
(** * The queues of the event loop

    What holds of the messages and fragments of [core/message.go] and of the queues
    of [core/connection.go] whenever the loop is between two events: the queues of all
    connections are well-formed lists that share no element, recycled messages are in
    no queue, the timeout queue holds only fragments that wait for a reply, each under
    its own expiry time, only server connections have fragments, and the fragments
    point to messages and connections that exist.

    The state of the queues is described by two families of lists, [F] for the
    fragments (waiting and outgoing, per connection) and [M] for the messages of the
    clients.  [keeps] relates two states when the second has such lists whenever the
    first has, and every element that is in a queue now was in one before or is new.
    Most operations change nothing the queues look at ([same]). *)

From S2P Require Import Prelude Errors Byteslice Ring LinkedList Elastic Commands Codec Message Forest CodecC CodecS Pool Cluster World Conn EventLoop Pipelining Table.

(** ** The invariant *)

(** The two queues of fragments of a connection: [inFragQueue] and [outFragQueue]. *)
Inductive side : Set := Waiting | Outgoing.
#[export] Instance side_eq_dec : EqDecision side.
Proof. solve_decision. Defined.

Definition conn_frags (x : conn) (d : side) : option Queue :=
  match d with Waiting => c_inFragQueue x | Outgoing => c_outFragQueue x end.

(** The heaps of messages and fragments: new locations are fresh, the pool has no
    duplicates, and the references between messages and fragments lead somewhere. *)
Record store_ok (s : Store) : Prop := {
  so_fresh_msg : forall l, (next_loc s <= l)%positive -> msgs s !! l = None;
  so_fresh_frag : forall l, (next_loc s <= l)%positive -> frags s !! l = None;
  so_pool : NoDup (pool s);
  so_pooled : forall m, m ∈ pool s -> is_Some (msgs s !! m);
  so_peer : forall f y m, frags s !! f = Some y -> f_Peer y = Some m -> is_Some (msgs s !! m);
  so_owned : forall f y, frags s !! f = Some y -> is_Some (f_Owner y) -> is_Some (f_Peer y);
  so_body : forall m x slot f, msgs s !! m = Some x -> m_Body x !! slot = Some f ->
    exists y, frags s !! f = Some y /\ f_Peer y = Some m;
  so_body_inj : forall m x i j f, msgs s !! m = Some x -> m_Body x !! i = Some f -> m_Body x !! j = Some f -> i = j;
}.

(** Some queue of the family has the element. *)
Definition has {I} (F : I -> list positive) (k : positive) : Prop := exists i, k ∈ F i.

Section invariant.
Context `{!Env} {T : Type} `{!LLRB T} `{!HashMap ClusterNode}.
Implicit Types (w : World T) (F : cid * side -> list fid) (M : cid -> list mid).

Definition frag_queue w (i : cid * side) : option Queue := x ← w_conns w !! i.1; conn_frags x i.2.
Definition msg_queue w (c : cid) : option Queue := x ← w_conns w !! c; c_inMsgQueue x.

(** A connection that is, or was, one to a server. *)
Definition server_conn w (c : cid) : Prop := exists x, w_conns w !! c = Some x /\ c_connType x <> ConnClient.

(** The connection is in some pool of [ProxyPool]. *)
Definition pooled w (c : cid) : Prop :=
  exists addr p n x, w_ProxyPool w !! addr = Some p /\ p_nodes p !! n = Some x /\ pc_c x = c.

Record queues w (F : cid * side -> list fid) (M : cid -> list mid) : Prop := {
  qu_store : store_ok (w_store w);
  qu_frags : forest (frags (w_store w)) (frag_queue w) F;
  qu_msgs : forest (msgs (w_store w)) (msg_queue w) M;
  qu_free : forall m c, m ∈ pool (w_store w) -> m ∉ M c;
  qu_next : forall c, (w_next w <= c)%positive -> w_conns w !! c = None;
  qu_owner : forall f y o, frags (w_store w) !! f = Some y -> f_Owner y = Some o -> is_Some (w_conns w !! o);
  qu_server : forall c x d, w_conns w !! c = Some x -> c_connType x <> ConnServer -> F (c, d) = [];
  qu_none : forall c x d, w_conns w !! c = Some x -> c_connType x = ConnNone -> conn_frags x d = None;
  qu_timeout : forall k f, (k, f) ∈ items (w_timeouts w) -> exists c y,
    f ∈ F (c, Waiting) /\ frags (w_store w) !! f = Some y /\ f_Timeout y = k /\ is_Some (f_Owner y);
  qu_tasks : forall c, TClusterNodes c ∈ w_tasks w ++ w_urgent w -> server_conn w c;
  qu_pools : forall c, pooled w c -> server_conn w c;
}.

(** From [w] to [w'] no existing fragment gets into a queue except those of [X], no
    message into a queue or the pool except those of [Y], and everything that existed
    still does. *)
Record grows (X : fid -> Prop) (Y : mid -> Prop) w F M w' F' M' : Prop := {
  gr_frag : forall f, is_Some (frags (w_store w) !! f) -> has F' f -> has F f \/ X f;
  gr_msg : forall m, is_Some (msgs (w_store w) !! m) ->
    has M' m \/ m ∈ pool (w_store w') -> (has M m \/ m ∈ pool (w_store w)) \/ Y m;
  gr_peer : forall f y, frags (w_store w) !! f = Some y ->
    exists y', frags (w_store w') !! f = Some y' /\ f_Peer y' = f_Peer y;
  gr_msgs : forall m, is_Some (msgs (w_store w) !! m) -> is_Some (msgs (w_store w') !! m);
  gr_type : forall c x, w_conns w !! c = Some x ->
    exists x', w_conns w' !! c = Some x' /\ (c_connType x' = c_connType x \/ c_connType x' = ConnNone);
}.

Definition steps (X : fid -> Prop) (Y : mid -> Prop) w w' : Prop :=
  forall F M, queues w F M -> exists F' M', queues w' F' M' /\ grows X Y w F M w' F' M'.

Definition nothing (k : positive) : Prop := False.
Definition keeps : relation (World T) := steps nothing nothing.

Lemma gr_conns X Y w F M w' F' M' c : grows X Y w F M w' F' M' -> is_Some (w_conns w !! c) -> is_Some (w_conns w' !! c).
Proof. intros Hg [x Hx]. destruct (gr_type _ _ _ _ _ _ _ _ Hg c x Hx) as (x' & Hx' & _). by exists x'. Qed.
Lemma gr_server X Y w F M w' F' M' c : grows X Y w F M w' F' M' -> server_conn w c -> server_conn w' c.
Proof.
  intros Hg (x & Hx & Ht). destruct (gr_type _ _ _ _ _ _ _ _ Hg c x Hx) as (x' & Hx' & Ht'). exists x'. split; [done|].
  destruct Ht' as [-> | ->]; done.
Qed.

Lemma grows_refl X Y w F M : grows X Y w F M w F M.
Proof. split; try done; [by left|by left|by intros f y Hf; exists y|by intros c x Hx; exists x; auto]. Qed.
Lemma grows_trans X Y w F M w1 F1 M1 w2 F2 M2 :
  grows X Y w F M w1 F1 M1 -> grows X Y w1 F1 M1 w2 F2 M2 -> grows X Y w F M w2 F2 M2.
Proof.
  intros [Hf Hm Hp Hms Hc] [Hf' Hm' Hp' Hms' Hc']. split; eauto.
  - intros f [y Hy] Hh. destruct (Hp f y Hy) as (y1 & Hy1 & _).
    destruct (Hf' f) as [Hh1|Hx]; [by exists y1|done| |by right]. apply Hf; [by exists y|done].
  - intros m Hsm Hh. destruct (Hm' m) as [Hh1|Hy]; [by apply Hms|done| |by right]. by apply Hm.
  - intros f y Hy. destruct (Hp f y Hy) as (y1 & Hy1 & <-). destruct (Hp' f y1 Hy1) as (y2 & Hy2 & <-). by exists y2.
  - intros c x Hx. destruct (Hc c x Hx) as (x1 & Hx1 & Ht1). destruct (Hc' c x1 Hx1) as (x2 & Hx2 & Ht2). exists x2.
    split; [done|]. destruct Ht2 as [-> |]; auto.
Qed.
Lemma grows_weaken X Y X' Y' w F M w' F' M' :
  (forall f, X f -> X' f) -> (forall m, Y m -> Y' m) -> grows X Y w F M w' F' M' -> grows X' Y' w F M w' F' M'.
Proof. intros HX HY []. split; try done; naive_solver. Qed.

#[export] Instance steps_preorder X Y : PreOrder (steps X Y).
Proof.
  split.
  - intros w F M Hq. exists F, M. split; [done|apply grows_refl].
  - intros w1 w2 w3 H12 H23 F M Hq. destruct (H12 F M Hq) as (F1 & M1 & Hq1 & Hg1).
    destruct (H23 F1 M1 Hq1) as (F2 & M2 & Hq2 & Hg2). exists F2, M2. split; [done|by eapply grows_trans].
Qed.
#[export] Instance keeps_preorder : PreOrder keeps.
Proof. apply steps_preorder. Qed.
End invariant.

(** ** Operations the queues do not notice *)

(** What the invariant looks at in a message, a fragment and a connection. *)
Definition msg_spine (x : Msg) := (m_prev x, m_next x, m_Body x).
Definition frag_spine (y : Frag) := (f_prev y, f_next y, f_Owner y, f_Peer y, f_Timeout y).
Definition conn_spine (x : conn) := (c_inMsgQueue x, c_inFragQueue x, c_outFragQueue x, c_connType x).

(** A lookup through equal projections of two heaps. *)
Lemma spine_lookup {A B} (g : A -> B) (h h' : gmap positive A) k x :
  g <$> h' = g <$> h -> h' !! k = Some x -> exists y, h !! k = Some y /\ g y = g x.
Proof.
  intros Hg Hx. assert ((g <$> h') !! k = (g <$> h) !! k) as Hk by by rewrite Hg.
  rewrite !lookup_fmap, Hx in Hk. destruct (h !! k) as [y|]; [|done]. exists y. split; [done|]. by apply (inj Some) in Hk.
Qed.
Lemma spine_None {A B} (g : A -> B) (h h' : gmap positive A) k : g <$> h' = g <$> h -> h !! k = None -> h' !! k = None.
Proof.
  intros Hg Hx. destruct (h' !! k) as [x|] eqn:E; [|done]. destruct (spine_lookup g h h' k x Hg E) as (y & Hy & _). congruence.
Qed.

Section same.
Context `{!Env} {T : Type} `{!LLRB T} `{!HashMap ClusterNode}.
Implicit Types (w : World T) (F : cid * side -> list fid) (M : cid -> list mid).

Record same w w' : Prop := {
  sm_msgs : msg_spine <$> msgs (w_store w') = msg_spine <$> msgs (w_store w);
  sm_frags : frag_spine <$> frags (w_store w') = frag_spine <$> frags (w_store w);
  sm_pool : pool (w_store w') = pool (w_store w);
  sm_loc : next_loc (w_store w') = next_loc (w_store w);
  sm_conns : conn_spine <$> w_conns w' = conn_spine <$> w_conns w;
  sm_next : w_next w' = w_next w;
  sm_timeouts : forall e, e ∈ items (w_timeouts w') -> e ∈ items (w_timeouts w);
  sm_tasks : forall c, TClusterNodes c ∈ w_tasks w' ++ w_urgent w' -> TClusterNodes c ∈ w_tasks w ++ w_urgent w;
  sm_pools : forall c, pooled w' c -> pooled w c;
}.

#[export] Instance same_preorder : PreOrder same.
Proof.
  split; [by intros w|]. intros w1 w2 w3 [] []. split; try (etrans; eassumption); eauto.
Qed.

Lemma same_store w w' : same w w' -> store_ok (w_store w) -> store_ok (w_store w').
Proof.
  intros [Hm Hf Hp Hl _ _ _ _ _] [Hfm Hff Hnd Hpl Hpe How Hb Hbi].
  assert (forall m, is_Some (msgs (w_store w) !! m) -> is_Some (msgs (w_store w') !! m)) as Hms.
  { intros m [x Hx]. symmetry in Hm. destruct (spine_lookup _ _ _ m x Hm Hx) as (y & Hy & _). by exists y. }
  split; rewrite ?Hp, ?Hl.
  - intros l Hle. eapply spine_None; [exact Hm|by apply Hfm].
  - intros l Hle. eapply spine_None; [exact Hf|by apply Hff].
  - done.
  - eauto.
  - intros f y m Hy Hpy. destruct (spine_lookup _ _ _ f y Hf Hy) as (z & Hz & Hs). unfold frag_spine in Hs.
    apply Hms, (Hpe f z); [done|]. congruence.
  - intros f y Hy Ho. destruct (spine_lookup _ _ _ f y Hf Hy) as (z & Hz & Hs). unfold frag_spine in Hs.
    specialize (How f z Hz). replace (f_Owner y) with (f_Owner z) in Ho by congruence. replace (f_Peer y) with (f_Peer z) by congruence. auto.
  - intros m x slot f Hx Hs. destruct (spine_lookup _ _ _ m x Hm Hx) as (z & Hz & Hsp). unfold msg_spine in Hsp.
    destruct (Hb m z slot f Hz) as (y & Hy & Hpy); [congruence|]. symmetry in Hf.
    destruct (spine_lookup _ _ _ f y Hf Hy) as (y' & Hy' & Hs'). unfold frag_spine in Hs'. exists y'. split; [done|]. congruence.
  - intros m x i j f Hx Hi Hj. destruct (spine_lookup _ _ _ m x Hm Hx) as (z & Hz & Hsp). unfold msg_spine in Hsp.
    apply (Hbi m z i j f Hz); congruence.
Qed.

Lemma same_conn w w' c x : same w w' -> w_conns w' !! c = Some x -> exists y, w_conns w !! c = Some y /\ conn_spine y = conn_spine x.
Proof. intros Hs. apply spine_lookup, Hs. Qed.
Lemma same_conn_r w w' c x : same w w' -> w_conns w !! c = Some x -> exists y, w_conns w' !! c = Some y /\ conn_spine y = conn_spine x.
Proof. intros Hs. apply spine_lookup. symmetry. apply Hs. Qed.

Lemma same_frag_queue w w' i : same w w' -> frag_queue w' i = frag_queue w i.
Proof.
  intros Hs. unfold frag_queue. destruct (w_conns w' !! i.1) as [x|] eqn:E.
  - destruct (same_conn _ _ _ _ Hs E) as (y & -> & Hy). unfold conn_spine in Hy. simpl. destruct i.2; cbn; congruence.
  - destruct (w_conns w !! i.1) as [x|] eqn:E'; [|done]. destruct (same_conn_r _ _ _ _ Hs E') as (y & Hy & _). congruence.
Qed.
Lemma same_msg_queue w w' c : same w w' -> msg_queue w' c = msg_queue w c.
Proof.
  intros Hs. unfold msg_queue. destruct (w_conns w' !! c) as [x|] eqn:E.
  - destruct (same_conn _ _ _ _ Hs E) as (y & -> & Hy). unfold conn_spine in Hy. simpl. congruence.
  - destruct (w_conns w !! c) as [x|] eqn:E'; [|done]. destruct (same_conn_r _ _ _ _ Hs E') as (y & Hy & _). congruence.
Qed.

Lemma same_server w w' c : same w w' -> server_conn w c -> server_conn w' c.
Proof.
  intros Hs (x & Hx & Ht). destruct (same_conn_r _ _ _ _ Hs Hx) as (y & Hy & Hsp). unfold conn_spine in Hsp.
  exists y. split; [done|]. congruence.
Qed.

Lemma links_spine_frag (h h' : gmap fid Frag) k : frag_spine <$> h' = frag_spine <$> h -> links <$> h' !! k = links <$> h !! k.
Proof.
  intros Hs. destruct (h' !! k) as [x|] eqn:E.
  - destruct (spine_lookup _ _ _ _ _ Hs E) as (y & -> & Hy). unfold frag_spine in Hy. cbn. unfold links. cbn. congruence.
  - symmetry in Hs. by rewrite (spine_None _ _ _ _ Hs E).
Qed.
Lemma links_spine_msg (h h' : gmap mid Msg) k : msg_spine <$> h' = msg_spine <$> h -> links <$> h' !! k = links <$> h !! k.
Proof.
  intros Hs. destruct (h' !! k) as [x|] eqn:E.
  - destruct (spine_lookup _ _ _ _ _ Hs E) as (y & -> & Hy). unfold msg_spine in Hy. cbn. unfold links. cbn. congruence.
  - symmetry in Hs. by rewrite (spine_None _ _ _ _ Hs E).
Qed.

Lemma same_queues w w' F M : same w w' -> queues w F M -> queues w' F M.
Proof.
  intros Hs [Hst Hf Hm Hfree Hn Ho Hsv Hno Ht Htk Hpl]. split.
  - by eapply same_store.
  - eapply forest_ext; [| |exact Hf]; [intros i; by apply same_frag_queue|intros i k _; apply links_spine_frag, Hs].
  - eapply forest_ext; [| |exact Hm]; [intros i; by apply same_msg_queue|intros i k _; apply links_spine_msg, Hs].
  - rewrite (sm_pool _ _ Hs). done.
  - intros c Hc. rewrite (sm_next _ _ Hs) in Hc. eapply spine_None; [apply Hs|by apply Hn].
  - intros f y o Hy Hoy. destruct (spine_lookup _ _ _ f y (sm_frags _ _ Hs) Hy) as (z & Hz & Hsp). unfold frag_spine in Hsp.
    destruct (Ho f z o Hz) as [x Hx]; [congruence|]. destruct (same_conn_r _ _ _ _ Hs Hx) as (y' & Hy' & _). by exists y'.
  - intros c x d Hx Hty. destruct (same_conn _ _ _ _ Hs Hx) as (z & Hz & Hsp). unfold conn_spine in Hsp.
    apply (Hsv c z d Hz). congruence.
  - intros c x d Hx Hty. destruct (same_conn _ _ _ _ Hs Hx) as (z & Hz & Hsp). unfold conn_spine in Hsp.
    specialize (Hno c z d Hz). destruct d; cbn in *; rewrite <- Hno; congruence.
  - intros k f Hin. destruct (Ht k f (sm_timeouts _ _ Hs _ Hin)) as (c & y & Hw & Hy & Hk & Hoy).
    pose proof (sm_frags _ _ Hs) as Hfs. symmetry in Hfs. destruct (spine_lookup _ _ _ f y Hfs Hy) as (z & Hz & Hsp).
    unfold frag_spine in Hsp. exists c, z. split_and!; [done|done|congruence|].
    replace (f_Owner z) with (f_Owner y) by congruence. done.
  - intros c Hc. eapply same_server, Htk; [done|]. by apply Hs.
  - intros c Hc. eapply same_server, Hpl; [done|]. by apply Hs.
Qed.

Lemma same_grows X Y w w' F M : same w w' -> grows X Y w F M w' F M.
Proof.
  intros Hs. split.
  - by left.
  - rewrite (sm_pool _ _ Hs). by left.
  - intros f y Hy. pose proof (sm_frags _ _ Hs) as Hf. symmetry in Hf. destruct (spine_lookup _ _ _ f y Hf Hy) as (z & Hz & Hsp).
    unfold frag_spine in Hsp. exists z. split; [done|]. congruence.
  - intros m [x Hx]. pose proof (sm_msgs _ _ Hs) as Hf. symmetry in Hf. destruct (spine_lookup _ _ _ m x Hf Hx) as (z & Hz & _). by exists z.
  - intros c x Hx. destruct (same_conn_r _ _ _ _ Hs Hx) as (y & Hy & Hsp). unfold conn_spine in Hsp. exists y. split; [done|]. left. congruence.
Qed.

Lemma same_steps X Y w w' : same w w' -> steps X Y w w'.
Proof. intros Hs F M Hq. exists F, M. split; [by eapply same_queues|by apply same_grows]. Qed.
Lemma same_keeps w w' : same w w' -> keeps w w'.
Proof. apply same_steps. Qed.
End same.

(** ** Pushing and popping *)

Definition set_side (x : conn) (d : side) (q : Queue) : conn :=
  match d with
  | Waiting => set_queues x (c_inMsgQueue x) (Some q) (c_outFragQueue x)
  | Outgoing => set_queues x (c_inMsgQueue x) (c_inFragQueue x) (Some q)
  end.

(** The payload has the owner, the message and the expiry time. *)
Lemma payload_fields (y z : Frag) :
  payload y = payload z -> f_Owner y = f_Owner z /\ f_Peer y = f_Peer z /\ f_Timeout y = f_Timeout z.
Proof. intros Hp. split_and!; [exact (f_equal f_Owner Hp)|exact (f_equal f_Peer Hp)|exact (f_equal f_Timeout Hp)]. Qed.

Lemma push_payload q (h : gmap fid Frag) f q' h' : PushTail q h f = Ok (q', h') -> forall k, payload <$> h' !! k = payload <$> h !! k.
Proof. intros Hp k. by apply (queue_step_proj payload payload_prev payload_next) with (o := QPushTail f) (l := q) (l' := q'). Qed.
Lemma pop_payload q (h : gmap fid Frag) q' h' : PopHead q h = Ok (q', h') -> forall k, payload <$> h' !! k = payload <$> h !! k.
Proof. intros Hp k. by apply (queue_step_proj payload payload_prev payload_next) with (o := QPopHead) (l := q) (l' := q'). Qed.

Lemma has_upd_app {I} `{EqDecision I} (F : I -> list positive) i k j : has (upd F i (F i ++ [k])) j -> has F j \/ k = j.
Proof.
  intros [i' Hi]. destruct (decide (i' = i)) as [->|Hne].
  - rewrite upd_eq in Hi. apply elem_of_app in Hi as [Hi|Hi]; [left; by exists i|]. right. by apply list_elem_of_singleton in Hi.
  - rewrite upd_ne in Hi by done. left. by exists i'.
Qed.
Lemma has_upd_tail {I} `{EqDecision I} (F : I -> list positive) i j : has (upd F i (drop 1 (F i))) j -> has F j.
Proof.
  intros [i' Hi]. destruct (decide (i' = i)) as [->|Hne].
  - rewrite upd_eq in Hi. exists i. destruct (F i); [done|by right].
  - rewrite upd_ne in Hi by done. by exists i'.
Qed.

(** The element that was popped is in no queue. *)
Lemma popped_detached {A I} `{Linked A} `{EqDecision I} (h : gmap positive A) (qs : I -> option Queue) F i k ls :
  forest h qs F -> F i = k :: ls -> ~ has (upd F i ls) k.
Proof.
  intros [Hr Hn Hd] Hls [j Hj]. destruct (decide (j = i)) as [->|Hne].
  - rewrite upd_eq in Hj. destruct (qs i) as [q|] eqn:Eq; [|rewrite (Hn i Eq) in Hls; done].
    pose proof (qr_nodup _ _ _ (Hr i q Eq)) as Hnd. rewrite Hls in Hnd. by apply NoDup_cons in Hnd as [? _].
  - rewrite upd_ne in Hj by done. apply Hne, (Hd _ _ k); [done|]. rewrite Hls. left.
Qed.

Section links.
Context `{!Env} {T : Type} `{!LLRB T} `{!HashMap ClusterNode}.
Implicit Types (w : World T) (F : cid * side -> list fid) (M : cid -> list mid).

(** A connection gets another queue of fragments and the fragments other links. *)
Definition relinked w (c : cid) (x : conn) (d : side) (q : Queue) (h : gmap fid Frag) : World T :=
  put_conn (with_store w (with_frags (w_store w) h)) c (set_side x d q).

Lemma relinked_Waiting w c x q h :
  relinked w c x Waiting q h =
  put_conn (with_store w (with_frags (w_store w) h)) c (set_queues x (c_inMsgQueue x) (Some q) (c_outFragQueue x)).
Proof. done. Qed.
Lemma relinked_Outgoing w c x q h :
  relinked w c x Outgoing q h =
  put_conn (with_store w (with_frags (w_store w) h)) c (set_queues x (c_inMsgQueue x) (c_inFragQueue x) (Some q)).
Proof. done. Qed.

Lemma relinked_queue w c x d q h i :
  w_conns w !! c = Some x -> frag_queue (relinked w c x d q h) i = upd (frag_queue w) (c, d) (Some q) i.
Proof.
  intros Hx. destruct i as [c' d']. unfold frag_queue. cbn. destruct (decide (c' = c)) as [->|Hne].
  - rewrite lookup_insert_eq. cbn. destruct (decide (d' = d)) as [->|Hd]; [rewrite upd_eq; by destruct d|].
    rewrite upd_ne by congruence. cbn. rewrite Hx. by destruct d, d'.
  - rewrite lookup_insert_ne, upd_ne by congruence. done.
Qed.
Lemma relinked_msg_queue w c x d q h i :
  w_conns w !! c = Some x -> msg_queue (relinked w c x d q h) i = msg_queue w i.
Proof.
  intros Hx. unfold msg_queue. cbn. destruct (decide (i = c)) as [->|Hne].
  - rewrite lookup_insert_eq, Hx. cbn. by destruct d.
  - by rewrite lookup_insert_ne.
Qed.
Lemma relinked_conn w c x d q h c' y :
  w_conns w !! c = Some x -> w_conns (relinked w c x d q h) !! c' = Some y ->
  exists z, w_conns w !! c' = Some z /\ c_connType z = c_connType y /\
    forall d', conn_frags y d' = if decide ((c', d') = (c, d)) then Some q else conn_frags z d'.
Proof.
  intros Hx Hy. cbn in Hy. apply lookup_insert_Some in Hy as [[<- <-]|[Hne Hy]].
  - exists x. split; [done|]. split; [by destruct d|]. intros d'. case_decide as Hd.
    + injection Hd as ->. by destruct d.
    + by destruct d, d'.
  - exists y. split_and!; [done..|]. intros d'. rewrite decide_False by congruence. done.
Qed.
Lemma relinked_conns w c x d q h c' :
  is_Some (w_conns w !! c') -> is_Some (w_conns (relinked w c x d q h) !! c').
Proof. intros Hs. cbn. destruct (decide (c' = c)) as [->|]; [rewrite lookup_insert_eq; by eexists|by rewrite lookup_insert_ne]. Qed.
Lemma relinked_server w c x d q h c' :
  w_conns w !! c = Some x -> server_conn w c' -> server_conn (relinked w c x d q h) c'.
Proof.
  intros Hx (z & Hz & Ht). unfold server_conn. cbn. destruct (decide (c' = c)) as [->|].
  - rewrite lookup_insert_eq. eexists. split; [done|]. simplify_eq. by destruct d.
  - rewrite lookup_insert_ne by done. by exists z.
Qed.

(** The payloads of the fragments are what the store's invariant needs of them. *)
Lemma payload_store (s : Store) h :
  (forall k, payload <$> h !! k = payload <$> frags s !! k) -> store_ok s -> store_ok (with_frags s h).
Proof.
  intros Hp [Hfm Hff Hnd Hpl Hpe How Hb Hbi]. split; cbn; try done.
  - intros l Hl. specialize (Hp l). rewrite (Hff l Hl) in Hp. by destruct (h !! l).
  - intros f y m Hy Hpy. destruct (payload_lookup _ _ _ _ (eq_sym (Hp f)) Hy) as (z & Hz & Hpz).
    apply payload_fields in Hpz as (_ & Hpz & _). apply (Hpe f z); [done|congruence].
  - intros f y Hy Ho. destruct (payload_lookup _ _ _ _ (eq_sym (Hp f)) Hy) as (z & Hz & Hpz).
    apply payload_fields in Hpz as (Hoz & Hpz & _). rewrite <- Hpz. apply (How f z); [done|]. by rewrite Hoz.
  - intros m x slot f Hx Hs. destruct (Hb m x slot f Hx Hs) as (y & Hy & Hpy).
    destruct (payload_lookup _ _ _ _ (Hp f) Hy) as (z & Hz & Hpz). apply payload_fields in Hpz as (_ & Hpz & _).
    exists z. split; [done|congruence].
Qed.

(** The lists change at [(c, d)] only. *)
Lemma relinked_queues w F M c x d q0 q h t ls :
  queues w F M -> w_conns w !! c = Some x -> conn_frags x d = Some q0 -> c_connType x = ConnServer ->
  (forall k, payload <$> h !! k = payload <$> frags (w_store w) !! k) ->
  forest h (upd (frag_queue w) (c, d) (Some q)) (upd F (c, d) ls) ->
  (forall k f, (k, f) ∈ items t -> (k, f) ∈ items (w_timeouts w) /\ (f ∈ F (c, Waiting) -> d = Waiting -> f ∈ ls)) ->
  queues (with_timeouts (relinked w c x d q h) t) (upd F (c, d) ls) M.
Proof.
  intros [Hst Hf Hm Hfree Hn Ho Hsv Hno Htm Htk Hpl] Hx Hq0 Hty Hp Hf' Ht. split; cbn [w_store with_timeouts w_timeouts w_tasks w_urgent].
  - by apply payload_store.
  - eapply forest_ext; [| |exact Hf']; [intros i; by apply relinked_queue|done].
  - eapply forest_ext; [| |exact Hm]; [intros i; by apply relinked_msg_queue|done].
  - done.
  - intros c' Hc'. cbn. rewrite lookup_insert_ne; [by apply Hn|]. intros <-. rewrite Hn in Hx by done. done.
  - intros f y o Hy Hoy. destruct (payload_lookup _ _ _ _ (eq_sym (Hp f)) Hy) as (z & Hz & Hpz).
    apply payload_fields in Hpz as (Hoz & _ & _). apply relinked_conns, (Ho f z); [done|congruence].
  - intros c' y d' Hy Ht'. destruct (relinked_conn w c x d q h c' y Hx Hy) as (z & Hz & Htz & _).
    rewrite upd_ne; [apply (Hsv c' z); [done|congruence]|]. intros [= -> ->]. simplify_eq. congruence.
  - intros c' y d' Hy Ht'. destruct (relinked_conn w c x d q h c' y Hx Hy) as (z & Hz & Htz & Hfr). rewrite Hfr.
    case_decide as Hd; [injection Hd as -> ->; simplify_eq; congruence|]. apply (Hno c' z); [done|congruence].
  - intros k f Hin. destruct (Ht k f Hin) as [Hin' Hl]. destruct (Htm k f Hin') as (c' & y & Hw & Hy & Hk & Hoy).
    destruct (payload_lookup _ _ _ _ (Hp f) Hy) as (z & Hz & Hpz). apply payload_fields in Hpz as (Hoz & _ & Htz).
    exists c', z. split_and!; [|done|congruence|by rewrite Hoz].
    destruct (decide ((c', Waiting) = (c, d))) as [[= -> <-]|Hne]; [|by rewrite upd_ne]. rewrite upd_eq. auto.
  - intros c' Hc'. apply relinked_server; [done|]. by apply Htk.
  - intros c' Hc'. apply relinked_server; [done|]. by apply Hpl.
Qed.

Lemma relinked_grows X Y w F M c x d q h t ls :
  w_conns w !! c = Some x -> (forall k, payload <$> h !! k = payload <$> frags (w_store w) !! k) ->
  (forall f, has (upd F (c, d) ls) f -> has F f \/ X f) ->
  grows X Y w F M (with_timeouts (relinked w c x d q h) t) (upd F (c, d) ls) M.
Proof.
  intros Hx Hp Hl. split.
  - intros f _ Hf. by apply Hl.
  - by left.
  - intros f y Hy. destruct (payload_lookup _ _ _ _ (Hp f) Hy) as (z & Hz & Hpz). apply payload_fields in Hpz as (_ & Hpz & _). by exists z.
  - done.
  - intros c' z Hz. cbn. destruct (decide (c' = c)) as [->|]; [|rewrite lookup_insert_ne by done; by exists z; auto].
    rewrite lookup_insert_eq. eexists. split; [done|]. left. simplify_eq. by destruct d.
Qed.

Lemma frag_queue_at w c x d : w_conns w !! c = Some x -> frag_queue w (c, d) = conn_frags x d.
Proof. intros Hx. unfold frag_queue. cbn. by rewrite Hx. Qed.

Lemma push_frag w F M c x d q f y :
  queues w F M -> w_conns w !! c = Some x -> conn_frags x d = Some q -> c_connType x = ConnServer ->
  frags (w_store w) !! f = Some y -> ~ has F f ->
  exists q' h', PushTail q (frags (w_store w)) f = Ok (q', h') /\
    queues (relinked w c x d q' h') (upd F (c, d) (F (c, d) ++ [f])) M /\
    grows (eq f) nothing w F M (relinked w c x d q' h') (upd F (c, d) (F (c, d) ++ [f])) M.
Proof.
  intros Hw Hx Hq Hty Hy Hnf. pose proof (frag_queue_at w c x d Hx) as Hfq. rewrite Hq in Hfq.
  destruct (forest_push _ _ _ (c, d) q f y (qu_frags _ _ _ Hw) Hfq Hy) as (q' & h' & Hpush & Hf').
  { intros j Hj. apply Hnf. by exists j. }
  pose proof (push_payload _ _ _ _ _ Hpush) as Hp. exists q', h'. split; [done|].
  change (relinked w c x d q' h') with (with_timeouts (relinked w c x d q' h') (w_timeouts w)). split.
  - apply (relinked_queues w F M c x d q); try done. intros k g Hin. split; [done|]. intros Hg ->. apply elem_of_app. by left.
  - apply relinked_grows; [done|done|]. apply has_upd_app.
Qed.

Lemma pop_frag w F M c x d q f ls :
  queues w F M -> w_conns w !! c = Some x -> conn_frags x d = Some q -> F (c, d) = f :: ls ->
  exists q' h', PopHead q (frags (w_store w)) = Ok (q', h') /\ q_head q = Some f /\
    (forall k, payload <$> h' !! k = payload <$> frags (w_store w) !! k) /\ ~ has (upd F (c, d) ls) f /\
    forall t, (forall k g, (k, g) ∈ items t -> (k, g) ∈ items (w_timeouts w) /\ (d = Waiting -> g <> f)) ->
      queues (with_timeouts (relinked w c x d q' h') t) (upd F (c, d) ls) M /\
      grows nothing nothing w F M (with_timeouts (relinked w c x d q' h') t) (upd F (c, d) ls) M.
Proof.
  intros Hw Hx Hq Hls. pose proof (frag_queue_at w c x d Hx) as Hfq. rewrite Hq in Hfq.
  assert (c_connType x = ConnServer) as Hty.
  { destruct (decide (c_connType x = ConnServer)) as [|Hne]; [done|]. rewrite (qu_server _ _ _ Hw c x d Hx Hne) in Hls. done. }
  destruct (forest_pop _ _ _ (c, d) q f ls (qu_frags _ _ _ Hw) Hfq Hls) as (q' & h' & Hpop & Hh & Hf' & Hnf).
  pose proof (pop_payload _ _ _ _ Hpop) as Hp. exists q', h'. split_and!; [done..| |].
  { intros [i Hi]. by destruct (Hnf i). }
  intros t Ht. split.
  - apply (relinked_queues w F M c x d q); try done. intros k g Hin. destruct (Ht k g Hin) as [Hin' Hne]. split; [done|].
    intros Hg ->. rewrite Hls in Hg. apply elem_of_cons in Hg as [->|Hg]; [by destruct (Hne eq_refl)|done].
  - apply relinked_grows; [done|done|]. intros g Hg. left. apply (has_upd_tail F (c, d)). by rewrite Hls.
Qed.

Lemma empty_head w F M c x d q :
  queues w F M -> w_conns w !! c = Some x -> conn_frags x d = Some q -> F (c, d) = [] ->
  q_head q = None /\ PopHead q (frags (w_store w)) = Ok (q, frags (w_store w)).
Proof.
  intros Hw Hx Hq Hnil. pose proof (frag_queue_at w c x d Hx) as Hfq. rewrite Hq in Hfq.
  pose proof (fo_repr _ _ _ (qu_frags _ _ _ Hw) _ _ Hfq) as Hr. rewrite Hnil in Hr.
  split; [apply (qr_chain _ _ _ Hr)|by apply PopHead_nil].
Qed.

(** Only the elements of the lists matter. *)
Lemma upd_id {I A} `{EqDecision I} (f : I -> A) i a : a = f i -> forall j, upd f i a j = f j.
Proof. intros -> j. destruct (decide (j = i)) as [->|]; [by rewrite upd_eq|by rewrite upd_ne]. Qed.
Lemma queues_lists X Y w F M F' : queues w F M -> (forall i, F' i = F i) -> queues w F' M /\ grows X Y w F M w F' M.
Proof.
  intros [] He. split; split; try done.
  - by eapply forest_lists.
  - intros. rewrite He. eauto.
  - intros k f Hin. destruct (qu_timeout0 k f Hin) as (c' & y & Hc & Hy). exists c', y. by rewrite He.
  - intros f _ [i Hi]. rewrite He in Hi. left. by exists i.
  - by left.
  - intros f y Hf. by exists y.
  - intros c x Hx. exists x. auto.
Qed.

(** *** Fragments *)

Lemma EnqueueOutFrag_ok w F M s x q f y :
  queues w F M -> w_conns w !! s = Some x -> c_outFragQueue x = Some q -> c_connType x = ConnServer ->
  frags (w_store w) !! f = Some y -> ~ has F f ->
  exists w', EnqueueOutFrag w s f = Ok w' /\ queues w' (upd F (s, Outgoing) (F (s, Outgoing) ++ [f])) M /\
    grows (eq f) nothing w F M w' (upd F (s, Outgoing) (F (s, Outgoing) ++ [f])) M.
Proof.
  intros Hw Hx Hq Hty Hy Hnf. destruct (push_frag w F M s x Outgoing q f y Hw Hx Hq Hty Hy Hnf) as (q' & h' & Hp & Hw' & Hg).
  unfold EnqueueOutFrag. rewrite (get_conn_Ok _ _ _ Hx), res_bind_Ok, Hq. cbn [the_queue]. rewrite res_bind_Ok, Hp, res_bind_Ok.
  rewrite <- relinked_Outgoing. destruct (sendWriteSignal _ s) as [r w2] eqn:E. exists w2. split; [done|].
  assert (same (relinked w s x Outgoing q' h') w2) as Hs.
  { unfold sendWriteSignal, Trigger, wake_up in E.
    assert (forall c, TClusterNodes c ∈ (w_tasks w ++ [TWriteSignal s]) ++ w_urgent w -> TClusterNodes c ∈ w_tasks w ++ w_urgent w)
      as Htk by set_solver.
    cbn in E. destruct (w_wakeup w); [by simplify_eq|]. destruct (wake (w_env w)). by simplify_eq. }
  split; [by eapply same_queues|]. eapply grows_trans; [exact Hg|by apply same_grows].
Qed.

(** A fragment changes, but not its links and its message. *)
Lemma put_frag_queues X Y w F M f y y' t :
  queues w F M -> frags (w_store w) !! f = Some y -> links y' = links y -> f_Peer y' = f_Peer y ->
  (forall o, f_Owner y' = Some o -> is_Some (f_Peer y) /\ is_Some (w_conns w !! o)) ->
  (forall k g, (k, g) ∈ items t -> (g <> f /\ (k, g) ∈ items (w_timeouts w)) \/
     (g = f /\ (exists c, f ∈ F (c, Waiting)) /\ f_Timeout y' = k /\ is_Some (f_Owner y'))) ->
  queues (with_timeouts (with_store w (put_frag (w_store w) f y')) t) F M /\
  grows X Y w F M (with_timeouts (with_store w (put_frag (w_store w) f y')) t) F M.
Proof.
  intros [Hst Hf Hm Hfree Hn Ho Hsv Hno Htm Htk Hpl] Hy Hl Hp Hown Ht.
  assert (forall k z, frags (put_frag (w_store w) f y') !! k = Some z ->
    exists z0, frags (w_store w) !! k = Some z0 /\ f_Peer z = f_Peer z0 /\ links z = links z0 /\ (k <> f -> z = z0)) as Hback.
  { intros k z Hz. cbn in Hz. apply lookup_insert_Some in Hz as [[<- <-]|[Hne Hz]]; [by exists y|by exists z]. }
  assert (forall k, links <$> frags (put_frag (w_store w) f y') !! k = links <$> frags (w_store w) !! k) as Hlinks.
  { intros k. cbn. destruct (decide (k = f)) as [->|]; [rewrite lookup_insert_eq, Hy; cbn; by rewrite Hl|by rewrite lookup_insert_ne]. }
  split; [split; cbn [w_store with_timeouts with_store w_timeouts w_tasks w_urgent w_conns w_next]|].
  - destruct Hst as [Hfm Hff Hnd Hpd Hpe How Hb Hbi]. split; try done.
    + intros l Hle. cbn. rewrite lookup_insert_ne; [by apply Hff|]. intros <-. rewrite (Hff _ Hle) in Hy. done.
    + intros g z m Hz Hpz. destruct (Hback _ _ Hz) as (z0 & Hz0 & Hpz0 & _). apply (Hpe g z0); [done|congruence].
    + intros g z Hz Hoz. destruct (decide (g = f)) as [->|Hne].
      * cbn in Hz. rewrite lookup_insert_eq in Hz. simplify_eq. rewrite Hp. destruct Hoz as [o Hoz]. by apply (Hown o).
      * destruct (Hback _ _ Hz) as (z0 & Hz0 & _ & _ & Hzz). rewrite (Hzz Hne) in *. by apply (How g z0).
    + intros m x slot g Hx Hs. destruct (Hb m x slot g Hx Hs) as (z & Hz & Hpz). destruct (decide (g = f)) as [->|Hne].
      * exists y'. cbn. rewrite lookup_insert_eq. split; [done|]. simplify_eq. congruence.
      * exists z. cbn. by rewrite lookup_insert_ne.
  - eapply forest_ext; [done|intros i k _; apply Hlinks|done].
  - done.
  - done.
  - done.
  - intros g z o Hz Hoz. destruct (decide (g = f)) as [->|Hne].
    + cbn in Hz. rewrite lookup_insert_eq in Hz. simplify_eq. by apply (Hown o).
    + destruct (Hback _ _ Hz) as (z0 & Hz0 & _ & _ & Hzz). rewrite (Hzz Hne) in *. by apply (Ho g z0).
  - done.
  - done.
  - intros k g Hin. destruct (Ht k g Hin) as [[Hne Hin']|(-> & [c Hc] & Hk & Hoy)].
    + destruct (Htm k g Hin') as (c & z & Hw & Hz & Hk & Hoz). exists c, z. cbn. by rewrite lookup_insert_ne.
    + exists c, y'. cbn. by rewrite lookup_insert_eq.
  - done.
  - done.
  - split; try done; [by left|by left| |by intros c x Hx; exists x; auto]. intros g z Hz. destruct (decide (g = f)) as [->|Hne].
    + exists y'. cbn. rewrite lookup_insert_eq. split; [done|]. simplify_eq. done.
    + exists z. cbn. by rewrite lookup_insert_ne.
Qed.

Lemma elem_of_ins k f l e : e ∈ ins k f l -> e = (k, f) \/ e ∈ l.
Proof.
  induction l as [|[k' f'] l IH]; cbn [ins]; [set_solver|]. destruct (k <? k'); [set_solver|]. destruct (k' <? k); set_solver.
Qed.

(** Detached fragments have no timeout. *)
Lemma detached_timeout w F M k f : queues w F M -> ~ has F f -> (k, f) ∉ items (w_timeouts w).
Proof. intros Hw Hnf Hin. destruct (qu_timeout _ _ _ Hw k f Hin) as (c & y & Hc & _). apply Hnf. by exists (c, Waiting). Qed.

Context (opts : Options).

Lemma enqueueInFrag_ok w F M c x q f y :
  queues w F M -> w_conns w !! c = Some x -> c_inFragQueue x = Some q -> c_connType x = ConnServer ->
  frags (w_store w) !! f = Some y -> ~ has F f ->
  exists w', enqueueInFrag opts w c f = Ok w' /\ queues w' (upd F (c, Waiting) (F (c, Waiting) ++ [f])) M /\
    grows (eq f) nothing w F M w' (upd F (c, Waiting) (F (c, Waiting) ++ [f])) M.
Proof.
  intros Hw Hx Hq Hty Hy Hnf. destruct (push_frag w F M c x Waiting q f y Hw Hx Hq Hty Hy Hnf) as (q' & h' & Hp & Hw' & Hg).
  unfold enqueueInFrag. rewrite (get_conn_Ok _ _ _ Hx), res_bind_Ok, Hq. cbn [the_queue]. rewrite res_bind_Ok, Hp, res_bind_Ok.
  rewrite <- relinked_Waiting. set (w1 := relinked w c x Waiting q' h') in *. set (F' := upd _ _ _) in *.
  unfold now. destruct (time_Now (w_env w1)) as [e time]. set (w2 := with_env w1 e).
  assert (same w1 w2) as Hs by done. apply (same_queues _ _ _ _ Hs) in Hw'.
  assert (grows (eq f) nothing w F M w2 F' M) as Hg2 by (eapply grows_trans; [exact Hg|by apply same_grows]).
  destruct (gr_peer _ _ _ _ _ _ _ _ Hg2 f y Hy) as (z & Hz & Hpz). unfold pushToTimeoutQueue.
  destruct (RedisRequestTimeout opts <=? 0); [rewrite res_bind_Ok; by exists w2|].
  rewrite (get_frag_Ok _ _ _ Hz), res_bind_Ok. destruct (f_Owner z) as [o|] eqn:Eo; [|rewrite res_bind_Ok; by exists w2].
  destruct (f_Peer z) as [m|] eqn:Ep; [|rewrite res_bind_Ok; by exists w2]. rewrite res_bind_Ok.
  set (k := time + _). eexists. split; [done|].
  destruct (put_frag_queues (eq f) nothing w2 F' M f z (set_timeout z k) (ReplaceOrInsert (w_timeouts w2) k f)) as [Hw3 Hg3]; try done.
  - intros o' Ho'. split; [rewrite Ep; by eexists|]. cbn in Ho'. by apply (qu_owner _ _ _ Hw' f z).
  - intros k' g Hin. rewrite ReplaceOrInsert_items in Hin. apply elem_of_ins in Hin as [[= -> ->]|Hin].
    + right. split; [done|]. split; [exists c; subst F'; rewrite upd_eq; set_solver|]. split; [done|]. cbn. by rewrite Eo.
    + left. split; [|done]. intros ->. by apply (detached_timeout w F M k' f).
  - split; [exact Hw3|]. eapply grows_trans; [exact Hg2|exact Hg3].
Qed.

Lemma DequeueInFrag_ok w F M c x q :
  queues w F M -> w_conns w !! c = Some x -> c_inFragQueue x = Some q ->
  exists w', DequeueInFrag w c = Ok (hd_error (F (c, Waiting)), w') /\ queues w' (upd F (c, Waiting) (drop 1 (F (c, Waiting)))) M /\
    grows nothing nothing w F M w' (upd F (c, Waiting) (drop 1 (F (c, Waiting)))) M.
Proof.
  intros Hw Hx Hq. unfold DequeueInFrag. rewrite (get_conn_Ok _ _ _ Hx), res_bind_Ok, Hq. cbn [the_queue]. rewrite res_bind_Ok.
  destruct (F (c, Waiting)) as [|f ls] eqn:Hls.
  - destruct (empty_head w F M c x Waiting q Hw Hx Hq Hls) as [-> _]. exists w. split; [done|].
    apply queues_lists; [done|]. apply upd_id. by rewrite Hls.
  - destruct (pop_frag w F M c x Waiting q f ls Hw Hx Hq Hls) as (q' & h' & Hpop & -> & Hp & Hnf & Hgo).
    rewrite Hpop, res_bind_Ok, <- relinked_Waiting.
    assert (is_Some (frags (w_store w) !! f)) as [y Hy].
    { eapply (forest_elem _ _ _ (c, Waiting)); [exact (qu_frags _ _ _ Hw)|rewrite Hls; left]. }
    destruct (payload_lookup _ _ _ _ (Hp f) Hy) as (z & Hz & Hpz). unfold deleteFromTimeoutQueue.
    rewrite (get_frag_Ok _ _ z) by exact Hz. rewrite !res_bind_Ok. eexists. split; [done|]. apply Hgo.
    intros k g Hin. cbn in Hin. rewrite tree_Delete_items in Hin. apply list_elem_of_filter in Hin as [Hk Hin]. split; [done|].
    intros _ ->. destruct (qu_timeout _ _ _ Hw k f Hin) as (c' & y' & _ & Hy' & Hk' & _). apply Hk.
    apply payload_fields in Hpz as (_ & _ & Hpz). cbn. congruence.
Qed.

Lemma dequeueOutFrag_ok w F M c x q :
  queues w F M -> w_conns w !! c = Some x -> c_outFragQueue x = Some q ->
  exists w', dequeueOutFrag w c = Ok w' /\ q_head q = hd_error (F (c, Outgoing)) /\
    queues w' (upd F (c, Outgoing) (drop 1 (F (c, Outgoing)))) M /\
    grows nothing nothing w F M w' (upd F (c, Outgoing) (drop 1 (F (c, Outgoing)))) M.
Proof.
  intros Hw Hx Hq. unfold dequeueOutFrag. rewrite (get_conn_Ok _ _ _ Hx), res_bind_Ok, Hq. cbn [the_queue]. rewrite res_bind_Ok.
  destruct (F (c, Outgoing)) as [|f ls] eqn:Hls.
  - destruct (empty_head w F M c x Outgoing q Hw Hx Hq Hls) as [-> ->]. rewrite res_bind_Ok. eexists. split; [done|]. split; [done|].
    assert (same w (put_conn (with_store w (with_frags (w_store w) (frags (w_store w)))) c
      (set_queues x (c_inMsgQueue x) (c_inFragQueue x) (Some q)))) as Hs.
    { split; try done. cbn. rewrite fmap_insert. apply insert_id. rewrite lookup_fmap, Hx. unfold conn_spine. cbn. by rewrite Hq. }
    apply (same_queues _ _ _ _ Hs) in Hw.
    destruct (queues_lists nothing nothing _ F M (upd F (c, Outgoing) []) Hw) as [Hw' Hg']; [apply upd_id; by rewrite Hls|].
    split; [done|]. eapply grows_trans; [by apply same_grows|done].
  - destruct (pop_frag w F M c x Outgoing q f ls Hw Hx Hq Hls) as (q' & h' & Hpop & -> & Hp & Hnf & Hgo).
    rewrite Hpop, res_bind_Ok, <- relinked_Outgoing. eexists. split; [done|]. split; [done|]. apply (Hgo (w_timeouts w)).
    by intros k g Hin.
Qed.

(** *** Messages *)

(** A message without its links. *)
Definition msg_payload (x : Msg) : Msg := set_prev None (set_next None x).
Lemma msg_payload_prev p (x : Msg) : msg_payload (set_prev p x) = msg_payload x.
Proof. by destruct x. Qed.
Lemma msg_payload_next p (x : Msg) : msg_payload (set_next p x) = msg_payload x.
Proof. by destruct x. Qed.

Lemma msg_payload_store (s : Store) h :
  (forall k, msg_payload <$> h !! k = msg_payload <$> msgs s !! k) -> store_ok s -> store_ok (with_msgs s h).
Proof.
  intros Hp [Hfm Hff Hnd Hpl Hpe How Hb Hbi].
  assert (forall m, is_Some (msgs s !! m) -> is_Some (h !! m)) as Hs.
  { intros m [x Hx]. specialize (Hp m). rewrite Hx in Hp. destruct (h !! m) as [z|]; [by exists z|done]. }
  assert (forall m x, h !! m = Some x -> exists z, msgs s !! m = Some z /\ m_Body x = m_Body z) as Hback.
  { intros m x Hx. specialize (Hp m). rewrite Hx in Hp. destruct (msgs s !! m) as [z|]; [|done]. exists z. split; [done|].
    apply (inj Some) in Hp. exact (f_equal m_Body Hp). }
  split; cbn; try done; eauto.
  - intros l Hl. specialize (Hp l). rewrite (Hfm l Hl) in Hp. by destruct (h !! l).
  - intros m x slot f Hx Hbx. destruct (Hback m x Hx) as (z & Hz & Hzb). rewrite Hzb in Hbx. by apply (Hb m z slot).
  - intros m x i j f Hx. destruct (Hback m x Hx) as (z & Hz & ->). by apply (Hbi m z).
Qed.

(** The queue of messages of [c] and the links of the messages change. *)
Definition msg_relinked w (c : cid) (x : conn) (q : Queue) (h : gmap mid Msg) : World T :=
  put_conn (with_store w (with_msgs (w_store w) h)) c (set_queues x (Some q) (c_inFragQueue x) (c_outFragQueue x)).

Lemma msg_relinked_conn w c x q h c' y :
  w_conns w !! c = Some x -> w_conns (msg_relinked w c x q h) !! c' = Some y ->
  exists z, w_conns w !! c' = Some z /\ c_connType z = c_connType y /\ forall d, conn_frags y d = conn_frags z d.
Proof.
  intros Hx Hy. cbn in Hy. apply lookup_insert_Some in Hy as [[<- <-]|[Hne Hy]]; [by exists x|by exists y].
Qed.
Lemma msg_relinked_conns w c x q h c' : is_Some (w_conns w !! c') -> is_Some (w_conns (msg_relinked w c x q h) !! c').
Proof. intros Hs. cbn. destruct (decide (c' = c)) as [->|]; [rewrite lookup_insert_eq; by eexists|by rewrite lookup_insert_ne]. Qed.
Lemma msg_relinked_server w c x q h c' : w_conns w !! c = Some x -> server_conn w c' -> server_conn (msg_relinked w c x q h) c'.
Proof.
  intros Hx (z & Hz & Ht). unfold server_conn. cbn. destruct (decide (c' = c)) as [->|].
  - rewrite lookup_insert_eq. eexists. split; [done|]. simplify_eq. done.
  - rewrite lookup_insert_ne by done. by exists z.
Qed.

Lemma msg_relinked_queues w F M c x q h ls :
  queues w F M -> w_conns w !! c = Some x ->
  (forall k, msg_payload <$> h !! k = msg_payload <$> msgs (w_store w) !! k) ->
  forest h (upd (msg_queue w) c (Some q)) (upd M c ls) -> (forall m, m ∈ pool (w_store w) -> m ∉ ls) ->
  queues (msg_relinked w c x q h) F (upd M c ls).
Proof.
  intros [Hst Hf Hm Hfree Hn Ho Hsv Hno Htm Htk Hpl] Hx Hp Hf' Hls.
  assert (forall i, frag_queue (msg_relinked w c x q h) i = frag_queue w i) as Hfq.
  { intros [c' d]. unfold frag_queue. cbn. destruct (decide (c' = c)) as [->|]; [|by rewrite lookup_insert_ne].
    rewrite lookup_insert_eq, Hx. by destruct d. }
  assert (forall i, msg_queue (msg_relinked w c x q h) i = upd (msg_queue w) c (Some q) i) as Hmq.
  { intros i. unfold msg_queue. cbn. destruct (decide (i = c)) as [->|]; [by rewrite upd_eq, lookup_insert_eq|].
    by rewrite upd_ne, lookup_insert_ne. }
  split; cbn [w_store with_timeouts w_timeouts w_tasks w_urgent].
  - by apply msg_payload_store.
  - eapply forest_ext; [exact Hfq|done|exact Hf].
  - eapply forest_ext; [exact Hmq|done|exact Hf'].
  - intros m c' Hin. destruct (decide (c' = c)) as [->|]; [rewrite upd_eq; by apply Hls|rewrite upd_ne by done; by apply Hfree].
  - intros c' Hc'. cbn. rewrite lookup_insert_ne; [by apply Hn|]. intros <-. rewrite Hn in Hx by done. done.
  - intros f y o Hy Hoy. by eapply msg_relinked_conns, Ho.
  - intros c' y d Hy Ht. destruct (msg_relinked_conn w c x q h c' y Hx Hy) as (z & Hz & Htz & _).
    apply (Hsv c' z); [done|congruence].
  - intros c' y d Hy Ht. destruct (msg_relinked_conn w c x q h c' y Hx Hy) as (z & Hz & Htz & ->).
    apply (Hno c' z); [done|congruence].
  - done.
  - intros c' Hc'. apply msg_relinked_server; [done|]. by apply Htk.
  - intros c' Hc'. apply msg_relinked_server; [done|]. by apply Hpl.
Qed.

Lemma msg_relinked_grows X Y w F M c x q h ls :
  w_conns w !! c = Some x -> (forall k, msg_payload <$> h !! k = msg_payload <$> msgs (w_store w) !! k) ->
  (forall m, has (upd M c ls) m -> (has M m \/ m ∈ pool (w_store w)) \/ Y m) ->
  grows X Y w F M (msg_relinked w c x q h) F (upd M c ls).
Proof.
  intros Hx Hp Hl. split.
  - by left.
  - intros m _ [Hm|Hm]; [by apply Hl|left; by right].
  - intros f y Hy. by exists y.
  - intros m [y Hy]. specialize (Hp m). rewrite Hy in Hp. cbn. destruct (h !! m) as [z|]; [by exists z|done].
  - intros c' z Hz. cbn. destruct (decide (c' = c)) as [->|]; [|rewrite lookup_insert_ne by done; by exists z; auto].
    rewrite lookup_insert_eq. eexists. split; [done|]. left. by simplify_eq.
Qed.

Lemma msg_queue_at w c x : w_conns w !! c = Some x -> msg_queue w c = c_inMsgQueue x.
Proof. intros Hx. unfold msg_queue. by rewrite Hx. Qed.

Lemma EnqueueInMsg_ok w F M c x q m y :
  queues w F M -> w_conns w !! c = Some x -> c_inMsgQueue x = Some q ->
  msgs (w_store w) !! m = Some y -> ~ has M m -> m ∉ pool (w_store w) ->
  exists w', EnqueueInMsg w c m = Ok w' /\ queues w' F (upd M c (M c ++ [m])) /\
    grows nothing (eq m) w F M w' F (upd M c (M c ++ [m])).
Proof.
  intros Hw Hx Hq Hy Hnm Hnp. unfold EnqueueInMsg. rewrite (get_conn_Ok _ _ _ Hx), res_bind_Ok, Hq. cbn [the_queue]. rewrite res_bind_Ok.
  pose proof (msg_queue_at w c x Hx) as Hmq. rewrite Hq in Hmq.
  destruct (forest_push _ _ _ c q m y (qu_msgs _ _ _ Hw) Hmq Hy) as (q' & h' & Hpush & Hf').
  { intros j Hj. apply Hnm. by exists j. }
  assert (forall k, msg_payload <$> h' !! k = msg_payload <$> msgs (w_store w) !! k) as Hp.
  { intros k. apply (queue_step_proj msg_payload msg_payload_prev msg_payload_next) with (o := QPushTail m) (l := q) (l' := q'). exact Hpush. }
  rewrite Hpush, res_bind_Ok. eexists. split; [done|]. split.
  - apply (msg_relinked_queues w F M c x q' h'); try done. intros k Hk. apply not_elem_of_app. split; [by apply (qu_free _ _ _ Hw)|].
    intros ->%list_elem_of_singleton. done.
  - apply msg_relinked_grows; [done|done|]. intros k [Hk|Hk]%has_upd_app; [left; by left|by right].
Qed.

Lemma dequeueInMsg_ok w F M c x q :
  queues w F M -> w_conns w !! c = Some x -> c_inMsgQueue x = Some q ->
  exists w', dequeueInMsg w c = Ok (hd_error (M c), w') /\ queues w' F (upd M c (drop 1 (M c))) /\
    grows nothing nothing w F M w' F (upd M c (drop 1 (M c))) /\ pool (w_store w') = pool (w_store w).
Proof.
  intros Hw Hx Hq. unfold dequeueInMsg. rewrite (get_conn_Ok _ _ _ Hx), res_bind_Ok, Hq. cbn [the_queue]. rewrite res_bind_Ok.
  pose proof (msg_queue_at w c x Hx) as Hmq. rewrite Hq in Hmq.
  pose proof (fo_repr _ _ _ (qu_msgs _ _ _ Hw) _ _ Hmq) as Hr. unfold Queue_Empty. rewrite (qr_count _ _ _ Hr).
  destruct (M c) as [|m ls] eqn:Hls.
  - cbn. exists w. split; [done|]. assert (forall i, upd M c [] i = M i) as He by (apply upd_id; by rewrite Hls).
    split_and!; [|split; try done|done].
    + destruct Hw. split; try done; [by eapply forest_lists|]. intros. rewrite He. eauto.
    + by left.
    + intros m _ [[i Hi]|Hm]; [rewrite He in Hi; left; left; by exists i|left; by right].
    + intros f y Hy. by exists y.
    + intros c' z Hz. exists z. auto.
  - replace (len (m :: ls) <? 1) with false by (rewrite len_cons; pose proof (len_nonneg ls); lia).
    destruct (forest_pop _ _ _ c q m ls (qu_msgs _ _ _ Hw) Hmq Hls) as (q' & h' & Hpop & Hh & Hf' & Hnm).
    assert (forall k, msg_payload <$> h' !! k = msg_payload <$> msgs (w_store w) !! k) as Hp.
    { intros k. apply (queue_step_proj msg_payload msg_payload_prev msg_payload_next) with (o := QPopHead) (l := q) (l' := q'). exact Hpop. }
    rewrite Hpop, res_bind_Ok, Hh. eexists. split; [done|]. split_and!; [| |done].
    + apply (msg_relinked_queues w F M c x q' h'); try done. intros k Hk Hin. apply (qu_free _ _ _ Hw k c Hk). rewrite Hls. by right.
    + apply msg_relinked_grows; [done|done|]. intros k Hk. left. left. apply (has_upd_tail M c). by rewrite Hls.
Qed.
End links.

(** ** Recycling and allocating *)

(** The store [s'] has the messages and fragments of [s], except for the messages [P],
    which were in the pool or did not exist, and new fragments without owner. *)
Record extends (P : mid -> Prop) (s s' : Store) : Prop := {
  et_ok : store_ok s';
  et_frags : forall f y, frags s !! f = Some y -> frags s' !! f = Some y;
  et_msgs : forall m x, ~ P m -> msgs s !! m = Some x -> msgs s' !! m = Some x;
  et_dom : forall m, is_Some (msgs s !! m) -> is_Some (msgs s' !! m);
  et_pool : forall m, m ∈ pool s' -> m ∈ pool s /\ ~ P m;
  et_new : forall m, P m -> m ∈ pool s \/ msgs s !! m = None;
  et_unowned : forall f y, frags s' !! f = Some y -> frags s !! f = None -> f_Owner y = None;
}.

(** A new fragment without owner; its message exists. *)
Lemma add_new_frag (s : Store) y id :
  store_ok s -> f_Owner y = None -> (forall m, f_Peer y = Some m -> is_Some (msgs s !! m)) ->
  store_ok (mkStore (msgs s) (<[next_loc s := y]> (frags s)) (msgId s) id (pool s) (Pos.succ (next_loc s))).
Proof.
  intros [Hfm Hff Hnd Hpl Hpe How Hb Hbi] Hoy Hpy. split; cbn; try done.
  - intros l Hl. apply Hfm. lia.
  - intros l Hl. rewrite lookup_insert_ne by lia. apply Hff. lia.
  - intros f z m [[<- <-]|[Hne Hz]]%lookup_insert_Some Hpz; [by apply Hpy|by apply (Hpe f z)].
  - intros f z [[<- <-]|[Hne Hz]]%lookup_insert_Some Hoz; [rewrite Hoy in Hoz; by destruct Hoz|by apply (How f z)].
  - intros m x slot f Hx Hs. destruct (Hb m x slot f Hx Hs) as (z & Hz & Hpz). exists z. split; [|done].
    rewrite lookup_insert_ne; [done|]. intros <-. rewrite Hff in Hz by done. done.
Qed.

(** A message changes except for its fragments. *)
Lemma put_msg_ok (s : Store) m x x' :
  store_ok s -> msgs s !! m = Some x -> m_Body x' = m_Body x -> store_ok (put_msg s m x').
Proof.
  intros [Hfm Hff Hnd Hpl Hpe How Hb Hbi] Hx Hbd.
  assert (forall k, is_Some (msgs s !! k) -> is_Some (<[m := x']> (msgs s) !! k)) as Hs.
  { intros k Hk. destruct (decide (k = m)) as [->|]; [rewrite lookup_insert_eq; by eexists|by rewrite lookup_insert_ne]. }
  assert (forall k z, <[m := x']> (msgs s) !! k = Some z -> exists z0, msgs s !! k = Some z0 /\ m_Body z = m_Body z0) as Hback.
  { intros k z [[<- <-]|[Hne Hz]]%lookup_insert_Some; [by exists x|by exists z]. }
  split; cbn; try done; eauto.
  - intros l Hl. rewrite lookup_insert_ne; [by apply Hfm|]. intros <-. rewrite Hfm in Hx by done. done.
  - intros k z slot f Hz Hzb. destruct (Hback k z Hz) as (z0 & Hz0 & E). rewrite E in Hzb. by apply (Hb k z0 slot).
  - intros k z i j f Hz. destruct (Hback k z Hz) as (z0 & Hz0 & ->). by apply (Hbi k z0).
Qed.

(** A request under construction: the message [m] is new, and so are its fragments. *)
Record building (m : mid) (s0 s : Store) : Prop := {
  bd_extends : extends (eq m) s0 s;
  bd_msg : is_Some (msgs s !! m);
  bd_loc : forall l, (next_loc s <= l)%positive -> frags s0 !! l = None;
  bd_body : forall x slot f, msgs s !! m = Some x -> m_Body x !! slot = Some f -> frags s0 !! f = None;
}.

Lemma building_put m s0 s x x' :
  building m s0 s -> msgs s !! m = Some x -> m_Body x' = m_Body x -> building m s0 (put_msg s m x').
Proof.
  intros [[Hok Hf Hm Hd Hp Hn Hu] Hs Hl Hb] Hx Hbd. split; [split; cbn; try done|..].
  - by eapply put_msg_ok.
  - intros k z Hk Hz. rewrite lookup_insert_ne by done. by apply Hm.
  - intros k Hk. destruct (decide (k = m)) as [->|]; [rewrite lookup_insert_eq; by eexists|]. rewrite lookup_insert_ne by done. by apply Hd.
  - cbn. rewrite lookup_insert_eq. by eexists.
  - done.
  - intros z slot f Hz Hzb. cbn in Hz. rewrite lookup_insert_eq in Hz. simplify_eq. rewrite Hbd in Hzb. by apply (Hb x slot).
Qed.

Lemma building_add m s0 s now slot key req s' :
  building m s0 s -> add_frag s now m slot key req = Ok s' -> building m s0 s'.
Proof.
  intros [[Hok Hf Hm Hd Hp Hn Hu] [x Hx] Hl Hb] Ha. unfold add_frag, fragPool_Get in Ha. cbv zeta in Ha.
  rewrite (get_frag_Ok _ _ _ (lookup_insert_eq _ _ _)), res_bind_Ok in Ha.
  set (f := next_loc s) in *. set (y := set_Req _ _ _ _) in Ha. set (s1 := put_frag _ _ _) in Ha.
  assert (s1 = mkStore (msgs s) (<[f := y]> (frags s)) (msgId s) (uwrap64 (fragId s + 1)) (pool s) (Pos.succ f)) as Es1.
  { subst s1. unfold put_frag, with_frags. cbn. by rewrite insert_insert_eq. }
  rewrite (get_msg_Ok s1 m x), res_bind_Ok in Ha by (by rewrite Es1). injection Ha as <-.
  assert (store_ok s1) as Hok1.
  { rewrite Es1. apply add_new_frag; [done|done|]. cbn. intros k [= <-]. by exists x. }
  assert (frags s !! f = None) as Hnew by (apply (so_fresh_frag _ Hok); done).
  rewrite Es1 in *. clear s1 Es1. split; [split; cbn; try done|..].
  - destruct Hok1 as [Hfm Hff Hnd Hpl Hpe How Hbd Hbi]. cbn in *.
    assert (forall k, is_Some (msgs s !! k) -> is_Some (<[m := set_Body x (<[slot := f]> (m_Body x))]> (msgs s) !! k)) as Hs.
    { intros k Hk. destruct (decide (k = m)) as [->|]; [rewrite lookup_insert_eq; by eexists|by rewrite lookup_insert_ne]. }
    split; cbn; try done; eauto.
    + intros l Hle. rewrite lookup_insert_ne; [by apply Hfm|]. intros <-. rewrite Hfm in Hx by done. done.
    + intros k z i g [[<- <-]|[Hne Hz]]%lookup_insert_Some Hg; [|by apply (Hbd k z i)]. cbn in Hg.
      apply lookup_insert_Some in Hg as [[<- <-]|[Hi Hg]]; [exists y; by rewrite lookup_insert_eq|by apply (Hbd m x i)].
    + intros k z i j g [[<- <-]|[Hne Hz]]%lookup_insert_Some Hi Hj; [|by apply (Hbi k z i j g)]. cbn in Hi, Hj.
      assert (forall i', m_Body x !! i' <> Some f) as Hno.
      { intros i' Hi'. destruct (so_body _ Hok m x i' f Hx Hi') as (z & Hz & _). congruence. }
      apply lookup_insert_Some in Hi as [[<- <-]|[Hi' Hi]]; apply lookup_insert_Some in Hj as [[Hj' Hj]|[Hj' Hj]]; try done; subst.
      * by destruct (Hno j).
      * by destruct (Hno i).
      * by apply (Hbi m x i j g).
  - intros g z Hz. rewrite lookup_insert_ne; [by apply Hf|]. intros <-. rewrite Hl in Hz by done. done.
  - intros k z Hk Hz. rewrite lookup_insert_ne by done. by apply Hm.
  - intros k Hk. destruct (decide (k = m)) as [->|]; [rewrite lookup_insert_eq; by eexists|]. rewrite lookup_insert_ne by done. by apply Hd.
  - intros g z [[<- <-]|[Hne Hz]]%lookup_insert_Some Hg; [done|by apply (Hu g z)].
  - cbn. rewrite lookup_insert_eq. by eexists.
  - cbn. intros l Hle. apply Hl. lia.
  - intros z i g Hz Hzb. cbn in Hz. rewrite lookup_insert_eq in Hz. simplify_eq. cbn in Hzb.
    apply lookup_insert_Some in Hzb as [[<- <-]|[Hi Hzb]]; [apply Hl; done|by apply (Hb x i)].
Qed.

Section decode.
Context `{!MapRange} (MsgMaxLength : Z).

Lemma each_building {A} (body : Store -> A -> res Store) m s0 :
  (forall s a s', building m s0 s -> body s a = Ok s' -> building m s0 s') ->
  forall l s s', building m s0 s -> each body s l = Ok s' -> building m s0 s'.
Proof.
  intros Hb l. induction l as [|a l IH]; intros s s' Hs He; cbn [each] in He; [by simplify_eq|].
  bind_inv He. eapply IH; [|done]. by eapply Hb.
Qed.

Lemma Frag1_loop_body k resp b r : Frag1_loop k resp b = Ok r -> m_Body r.1.2 = m_Body resp.
Proof.
  revert resp b. induction k as [|k IH]; intros resp b Hr; cbn [Frag1_loop] in Hr; [by simplify_eq|].
  bind_inv Hr. destruct a as [[seg|err] b1]; [|by simplify_eq]. bind_inv Hr. by rewrite (IH _ _ Hr).
Qed.
Lemma Frag2_loop_body k resp b r : Frag2_loop k resp b = Ok r -> m_Body r.1.2 = m_Body resp.
Proof.
  revert resp b. induction k as [|k IH]; intros resp b Hr; cbn [Frag2_loop] in Hr; [by simplify_eq|].
  bind_inv Hr. destruct a as [[seg|err] b1]; [|by simplify_eq]. bind_inv Hr. destruct a as [[seg2|err] b2]; [|by simplify_eq].
  bind_inv Hr. by rewrite (IH _ _ Hr).
Qed.

Lemma keys_building name now m s0 s e s' : building m s0 s -> keys_frag name now m s e = Ok s' -> building m s0 s'.
Proof. intros Hs Hk. destruct e as [slot keys]. unfold keys_frag in Hk. bind_inv Hk. by eapply building_add. Qed.
Lemma pairs_building now m s0 s e s' : building m s0 s -> pairs_frag now m s e = Ok s' -> building m s0 s'.
Proof. intros Hs Hk. destruct e as [slot keys]. unfold pairs_frag in Hk. bind_inv Hk. by eapply building_add. Qed.
Lemma single_building now m s0 s key slot b s' : building m s0 s -> single_frag s now m key slot b = Ok s' -> building m s0 s'.
Proof. intros Hs Hk. unfold single_frag in Hk. bind_inv Hk. by eapply building_add. Qed.

Lemma Eval_building s now n m b s0 r : building m s0 s -> Eval s now n m b = Ok r -> building m s0 r.1.2.
Proof.
  intros Hs Hr. unfold Eval in Hr. bind_inv Hr. rename a into resp.
  assert (msgs s !! m = Some resp) as Hx by (unfold get_msg in Ha; destruct (msgs s !! m); congruence).
  set (s1 := if n <? 3 then _ else _) in Hr.
  assert (building m s0 s1) as Hs1 by (subst s1; case_if; [by eapply building_put|done]).
  bind_inv Hr. destruct a as [[[key slot]|err] b1]; [|by simplify_eq]. bind_inv Hr. simplify_eq. by eapply single_building.
Qed.
Lemma Default_building s now n m b s0 r : building m s0 s -> CodecC.Default s now n m b = Ok r -> building m s0 r.1.2.
Proof.
  intros Hs Hr. unfold CodecC.Default in Hr. bind_inv Hr. destruct a as [[[key slot]|err] b1]; [|by simplify_eq].
  bind_inv Hr. simplify_eq. by eapply single_building.
Qed.

(** The splitters, once the keys are read into the message. *)
Lemma split_building s m s0 resp resp' (go : Store -> res Store) (err : option error) (b : Buffer) r :
  building m s0 s -> msgs s !! m = Some resp -> m_Body resp' = m_Body resp ->
  (forall s s', building m s0 s -> go s = Ok s' -> building m s0 s') ->
  (match err with Some e => Ok (Some e, put_msg s m resp', b) | None => s ← go (put_msg s m resp'); Ok (None, s, b) end) = Ok r ->
  building m s0 r.1.2.
Proof.
  intros Hs Hx Hb Hgo Hr. pose proof (building_put m s0 s resp resp' Hs Hx Hb) as Hs1. destruct err as [e|]; [by simplify_eq|].
  bind_inv Hr. simplify_eq. by eapply Hgo.
Qed.

Lemma dispatch_building s now n m b s0 r : building m s0 s -> dispatch s now n m b = Ok r -> building m s0 r.1.2.
Proof.
  intros Hs Hr. unfold dispatch in Hr. bind_inv Hr. rename a into resp.
  assert (msgs s !! m = Some resp) as Hx by (unfold get_msg in Ha; destruct (msgs s !! m); congruence). clear Ha.
  assert (forall r, CodecC.Default s now n m b = Ok r -> building m s0 r.1.2) as Hdef by (intros; by eapply Default_building).
  assert (forall r, Eval s now n m b = Ok r -> building m s0 r.1.2) as Hev by (intros; by eapply Eval_building).
  destruct (m_Type resp); try (by apply Hdef); try (by apply Hev);
    bind_inv Hr; destruct a as [[err resp'] b1]; cbv zeta in Hr;
    (match type of Hr with context [?g (put_msg s m resp') now m] => eapply (split_building s m s0 resp resp' (fun s => g s now m)) end;
      [done|done|first [unfold Frag1 in Ha; by apply Frag1_loop_body in Ha|unfold Frag2 in Ha; by apply Frag2_loop_body in Ha]| |exact Hr]);
    intros s1 s2 Hs1 Hg; unfold CodecC.MGet, CodecC.Del, CodecC.MSet in Hg; bind_inv Hg;
    (eapply each_building; [|exact Hs1|exact Hg]; eauto using keys_building, pairs_building).
Qed.

(** The message a request is built in. *)
Lemma Get_building s choice m s1 resp id c t :
  store_ok s -> msgPool_Get s choice = (m, s1) -> get_msg s1 m = Ok resp ->
  building m s (put_msg s1 m (set_head resp id c t)).
Proof.
  intros Hok Hg Hr. unfold msgPool_Get in Hg. destruct (choice ≫= _) as [k|] eqn:E.
  - apply bind_Some in E as (i & -> & Hi). injection Hg as <- <-. cbn [default from_option] in *.
    unfold get_msg in Hr. cbn in Hr. destruct (msgs s !! k) as [x|] eqn:Hx; [|done]. simplify_eq.
    assert (k ∈ pool s) as Hin by (by eapply list_elem_of_lookup_2).
    assert (forall m, m ∈ base.delete i (pool s) -> m ∈ pool s /\ m <> k) as Hdel.
    { intros m Hm. destruct Hok as [_ _ Hnd _ _ _ _ _]. clear -Hnd Hi Hm. revert i Hi Hm. induction (pool s) as [|p ps IH]; intros i Hi Hm; [done|].
      apply NoDup_cons in Hnd as [Hp Hnd]. destruct i as [|i]; cbn in Hi, Hm.
      - simplify_eq. split; [by right|]. by intros ->.
      - apply elem_of_cons in Hm as [->|Hm]; [split; [left|]; intros ->; apply Hp; by eapply list_elem_of_lookup_2|].
        destruct (IH Hnd i Hi Hm). split; [by right|done]. }
    assert (store_ok (put_msg (mkStore (msgs s) (frags s) (msgId s) (fragId s) (base.delete i (pool s)) (next_loc s)) k (set_head resp id c t))) as Hok'.
    { destruct Hok as [Hfm Hff Hnd Hpl Hpe How Hb Hbi].
      assert (forall j, is_Some (msgs s !! j) -> is_Some (<[k := set_head resp id c t]> (msgs s) !! j)) as Hs.
      { intros j Hj. destruct (decide (j = k)) as [->|]; [rewrite lookup_insert_eq; by eexists|by rewrite lookup_insert_ne]. }
      split; cbn; try done; eauto.
      - intros l Hl. rewrite lookup_insert_ne; [by apply Hfm|]. intros <-. rewrite Hfm in Hx by done. done.
      - eapply sublist_NoDup; [exact Hnd|apply sublist_delete].
      - intros m Hm. apply Hs, Hpl. by apply Hdel.
      - intros m z slot f [[<- <-]|[Hne Hz]]%lookup_insert_Some Hzb; [done|by apply (Hb m z slot)].
      - intros m z i' j f [[<- <-]|[Hne Hz]]%lookup_insert_Some Hi' Hj; [done|by apply (Hbi m z i' j f)]. }
    split; [split; cbn; try done|..].
    + intros m z Hne Hz. by rewrite lookup_insert_ne.
    + intros m Hm. destruct (decide (m = k)) as [->|]; [rewrite lookup_insert_eq; by eexists|by rewrite lookup_insert_ne].
    + intros m Hm. destruct (Hdel m Hm). split; [done|congruence].
    + intros m <-. by left.
    + intros f y Hy Hn. congruence.
    + cbn. rewrite lookup_insert_eq. by eexists.
    + by apply (so_fresh_frag _ Hok).
    + intros z slot f Hz Hzb. cbn in Hz. rewrite lookup_insert_eq in Hz. by simplify_eq.
  - injection Hg as <- <-. unfold get_msg in Hr. cbn in Hr. rewrite lookup_insert_eq in Hr. simplify_eq.
    assert (msgs s !! next_loc s = None) as Hnew by (by apply (so_fresh_msg _ Hok)).
    unfold put_msg, with_msgs. cbn. rewrite insert_insert_eq. destruct Hok as [Hfm Hff Hnd Hpl Hpe How Hb Hbi].
    assert (forall j, is_Some (msgs s !! j) -> is_Some (<[next_loc s := set_head zeroMsg id c t]> (msgs s) !! j)) as Hs.
    { intros j [z Hz]. rewrite lookup_insert_ne; [by exists z|congruence]. }
    split; [split; cbn; try done|..]; [split; cbn; try done; eauto|..].
    + intros l Hl. rewrite lookup_insert_ne by lia. apply Hfm. lia.
    + intros l Hl. apply Hff. lia.
    + intros m z slot f [[<- <-]|[Hne Hz]]%lookup_insert_Some Hzb; [done|by apply (Hb m z slot)].
    + intros m z i' j f [[<- <-]|[Hne Hz]]%lookup_insert_Some Hi' Hj; [done|by apply (Hbi m z i' j f)].
    + intros m z Hne Hz. by rewrite lookup_insert_ne.
    + intros m Hm. split; [done|]. intros <-. destruct (Hpl _ Hm). congruence.
    + intros m <-. by right.
    + intros f y Hy Hn. congruence.
    + cbn. rewrite lookup_insert_eq. by eexists.
    + intros l Hl. apply Hff. cbn in Hl. lia.
    + intros z slot f Hz Hzb. cbn in Hz. rewrite lookup_insert_eq in Hz. by simplify_eq.
Qed.

Lemma extends_refl s : store_ok s -> extends nothing s s.
Proof. intros Hok. split; try done; [intros m Hm; by split; [|intros []]|intros f y Hy Hn; congruence]. Qed.
Lemma bump_ok s : store_ok s -> store_ok (bump_msgId s).
Proof. by intros []. Qed.

Lemma Decode_building s choice now c bs d :
  store_ok s -> CodecC.Decode MsgMaxLength s choice now c bs = Ok d ->
  (extends nothing s (d_store d) /\ d_msg d = None) \/
  exists m, building m s (d_store d) /\ forall m', d_msg d = Some m' -> m' = m.
Proof.
  intros Hok Hd. unfold CodecC.Decode in Hd.
  assert (extends nothing s (bump_msgId s)) as Hbump by (destruct (extends_refl s Hok); split; try done; by apply bump_ok).
  case_if_in Hd; [left; simplify_eq; split; [by apply extends_refl|done]|].
  bind_inv Hd. destruct a as [[line|err] b]; [|left; simplify_eq; split; [by apply extends_refl|done]].
  bind_inv Hd. case_if_in Hd; [left; simplify_eq; done|]. destruct (parseLen _) as [n err]. case_if_in Hd; [left; by simplify_eq|].
  bind_inv Hd. destruct a0 as [[msg|err'] b']; [|left; by simplify_eq]. right. cbv zeta in Hd.
  destruct (msgPool_Get _ _) as [m s1] eqn:Eg. bind_inv Hd. rename a0 into resp. destruct (Transform2Type _ _) as [t lowered].
  bind_inv Hd. destruct a0 as [[e s2] b2].
  pose proof (Get_building _ _ _ _ _ (msgId s1) c (if sizeTooLarge MsgMaxLength (TotalSize
    (mkBuf (copy_at (buf b') (r b' - 2 - len msg) lowered) (r b'))) then ReqTooLarge else t) (bump_ok s Hok) Eg Ha2) as Hb.
  apply (dispatch_building _ _ _ _ _ _ _ Hb) in Ha3. cbn [fst snd] in Ha3. exists m.
  assert (building m s s2) as Hs2 by (destruct Ha3 as [[] ? ? ?]; split; [split|..]; done).
  destruct e; simplify_eq; split; try done. by intros m' [= <-].
Qed.
End decode.

Section alloc.
Context `{!Env} {T : Type} `{!LLRB T} `{!HashMap ClusterNode}.
Implicit Types (w : World T) (F : cid * side -> list fid) (M : cid -> list mid).

Lemma extends_queues X Y P w F M s' :
  queues w F M -> extends P (w_store w) s' ->
  queues (with_store w s') F M /\ grows X Y w F M (with_store w s') F M /\ forall m, P m -> ~ has M m /\ m ∉ pool s'.
Proof.
  intros [Hst Hf Hm Hfree Hn Ho Hsv Hno Htm Htk Hpl] [Hok Hef Hem Hd Hp Hnew Hu].
  assert (forall m, P m -> ~ has M m) as HPM.
  { intros m Pm [c Hc]. destruct (Hnew m Pm) as [Hin|Hnone]; [by apply (Hfree m c)|].
    destruct (forest_elem _ _ _ c m Hm Hc) as [x Hx]. congruence. }
  split_and!; [split; cbn [w_store with_store w_timeouts w_tasks w_urgent w_conns w_next]|split|].
  - done.
  - eapply forest_ext; [done| |exact Hf]. intros i k Hk. destruct (forest_elem _ _ _ i k Hf Hk) as [y Hy]. by rewrite Hy, (Hef k y Hy).
  - eapply forest_ext; [done| |exact Hm]. intros i k Hk. destruct (forest_elem _ _ _ i k Hm Hk) as [x Hx].
    rewrite Hx, (Hem k x); [done| |done]. intros Pk. apply (HPM k Pk). by exists i.
  - intros m c Hin. apply Hp in Hin as [Hin _]. by apply Hfree.
  - done.
  - intros f y o Hy Hoy. destruct (frags (w_store w) !! f) as [z|] eqn:E.
    + rewrite (Hef f z E) in Hy. simplify_eq. by apply (Ho f y).
    + rewrite (Hu f y Hy E) in Hoy. done.
  - done.
  - done.
  - intros k f Hin. destruct (Htm k f Hin) as (c & y & Hc & Hy & Hrest). exists c, y. by rewrite (Hef f y Hy).
  - done.
  - done.
  - by left.
  - intros m _ [Hin|Hin]; [by do 2 left|]. apply Hp in Hin as [Hin _]. left. by right.
  - intros f y Hy. exists y. split; [by apply Hef|done].
  - done.
  - intros c x Hx. exists x. auto.
  - intros m Pm. split; [by apply HPM|]. intros Hin. by apply Hp in Hin as [_ Hin].
Qed.

(** [Put]: a message that is in no queue goes to the pool. *)
Lemma recycle_ok w F M m x :
  queues w F M -> msgs (w_store w) !! m = Some x -> ~ has M m -> m ∉ pool (w_store w) ->
  exists s, msgPool_Put (w_store w) (Some m) = Ok s /\ queues (with_store w s) F M /\
    grows nothing (eq m) w F M (with_store w s) F M.
Proof.
  intros [Hst Hf Hm Hfree Hn Ho Hsv Hno Htm Htk Hpl] Hx Hnm Hnp. unfold msgPool_Put. rewrite (get_msg_Ok _ _ _ Hx), res_bind_Ok.
  eexists. split; [done|].
  assert (forall k, is_Some (msgs (w_store w) !! k) -> is_Some (<[m := clear_msg x]> (msgs (w_store w)) !! k)) as Hs.
  { intros k Hk. destruct (decide (k = m)) as [->|]; [rewrite lookup_insert_eq; by eexists|by rewrite lookup_insert_ne]. }
  split; [split; cbn [w_store with_store w_timeouts w_tasks w_urgent w_conns w_next]; try done|split; try done].
  - destruct Hst as [Hfm Hff Hnd Hpd Hpe How Hb Hbi]. split; cbn; try done; eauto.
    + intros l Hl. rewrite lookup_insert_ne; [by apply Hfm|]. intros <-. rewrite Hfm in Hx by done. done.
    + by apply NoDup_cons.
    + intros k [->|Hk]%elem_of_cons; [rewrite lookup_insert_eq; by eexists|by apply Hs, Hpd].
    + intros k z slot f [[<- <-]|[Hne Hz]]%lookup_insert_Some Hzb; [done|by apply (Hb k z slot)].
    + intros k z i j f [[<- <-]|[Hne Hz]]%lookup_insert_Some Hi Hj; [done|by apply (Hbi k z i j f)].
  - eapply forest_ext; [done| |exact Hm]. intros i k Hk. cbn. rewrite lookup_insert_ne; [done|]. intros <-. apply Hnm. by exists i.
  - intros k c [->|Hk]%elem_of_cons; [intros Hc; apply Hnm; by exists c|by apply Hfree].
  - by left.
  - intros k _ [Hk|[->|Hk]%elem_of_cons]; [by do 2 left|by right|left; by right].
  - intros f y Hy. by exists y.
  - intros c z Hz. exists z. auto.
Qed.

(** A request as the decoder leaves it: neither the message nor its fragments are in
    a queue. *)
Record request w F M (m : mid) : Prop := {
  rq_msg : is_Some (msgs (w_store w) !! m);
  rq_free : ~ has M m;
  rq_unpooled : m ∉ pool (w_store w);
  rq_frags : forall x slot f, msgs (w_store w) !! m = Some x -> m_Body x !! slot = Some f -> ~ has F f;
}.
End alloc.
