(* ===== verification/LoopQueues.v ===== *)
(** * The queues in the running loop

    The invariant of [Queues] for the operations of [Conn], [EventLoop] and [Server]
    and for the rounds of [Polling].  The loop is proved against the interfaces
    [ConnHandlerQueues] and [LoopHandlerQueues], which the proxy's handler discharges.
    At the end: after any number of rounds the queues are lists that share nothing,
    recycled messages are in none of them, and the timeout queue holds only fragments
    that wait for a reply. *)

From S2P Require Import Prelude Errors Byteslice Ring LinkedList Elastic Commands Codec Message Forest CodecC CodecS Pool Cluster AuthIp World Conn EventLoop Pipelining Server Polling Table LoopTable Queues.

(** ** Operations the queues do not notice *)
Section spines.
Context `{BytePool}.
Lemma conn_Discard_spine x n k y : conn_Discard x n = Ok (k, y) -> conn_spine y = conn_spine x.
Proof. intros ->%conn_Discard_inbound. done. Qed.
Lemma poke_spine x b : conn_spine (poke x b) = conn_spine x.
Proof. unfold poke. by repeat case_match. Qed.
Lemma keep_unread_spine g x y : keep_unread g x = Ok y -> conn_spine y = conn_spine x.
Proof. unfold keep_unread. intros Hk. bind_inv Hk. by destruct a; simplify_eq. Qed.
End spines.

(** One entry of a heap changes, but not its projection. *)
Lemma spine_put {A B} (g : A -> B) (h : gmap positive A) k x y :
  h !! k = Some x -> g y = g x -> g <$> <[k := y]> h = g <$> h.
Proof. intros Hx Hg. rewrite fmap_insert. apply insert_id. by rewrite lookup_fmap, Hx, Hg. Qed.
Lemma get_msg_inv s m x : get_msg s m = Ok x -> msgs s !! m = Some x.
Proof. unfold get_msg. destruct (msgs s !! m); congruence. Qed.
Lemma get_frag_inv s f x : get_frag s f = Ok x -> frags s !! f = Some x.
Proof. unfold get_frag. destruct (frags s !! f); congruence. Qed.

Ltac solve_spine :=
  first
    [ reflexivity
    | match goal with
      | E : conn_Discard _ _ = Ok (_, ?y) |- conn_spine ?y = _ => rewrite (conn_Discard_spine _ _ _ _ E); solve_spine
      | E : keep_unread _ _ = Ok ?y |- conn_spine ?y = _ => rewrite (keep_unread_spine _ _ _ E); solve_spine
      | |- conn_spine (poke _ _) = _ => rewrite poke_spine; solve_spine
      | |- conn_spine (set_init ?y _ _) = ?k => change (conn_spine y = k); solve_spine
      end ].

Lemma tasks_app (ts us : list task) t c :
  (forall c, t <> TClusterNodes c) -> TClusterNodes c ∈ (ts ++ [t]) ++ us -> TClusterNodes c ∈ ts ++ us.
Proof. intros Ht. rewrite !elem_of_app, list_elem_of_singleton. intros [[Hin|Hin]|Hin]; [by left|by destruct (Ht c)|by right]. Qed.

Ltac solve_same :=
  repeat match goal with
    | H : get_conn _ _ = Ok _ |- _ => apply get_conn_inv in H
    | H : get_msg _ _ = Ok _ |- _ => apply get_msg_inv in H
    | H : get_frag _ _ = Ok _ |- _ => apply get_frag_inv in H
    end;
  split; cbn;
  [ first [ reflexivity | eapply spine_put; [eassumption|reflexivity] ]
  | first [ reflexivity | eapply spine_put; [eassumption|reflexivity] ]
  | reflexivity | reflexivity
  | first [ reflexivity | eapply spine_put; [eassumption|solve_spine] ]
  | reflexivity
  | first [ done | intros ? ?; eauto ]
  | first [ done | intros ?; apply tasks_app; done ]
  | done ].

Section same_ops.
Context `{BytePool} `{!Env} {T : Type} `{!LLRB T} `{!HashMap ClusterNode} (opts : Options).
Implicit Types w : World T.

Lemma same_put w w' c x y :
  same w w' -> w_conns w !! c = Some x -> conn_spine y = conn_spine x -> same w (put_conn w' c y).
Proof.
  intros Hs Hx Hy. pose proof Hs as []. split; try done. cbn.
  destruct (same_conn_r _ _ _ _ Hs Hx) as (z & Hz & Hzx). rewrite (spine_put conn_spine _ _ z); [done|done|congruence].
Qed.

Lemma now_same w t w' : now w = (t, w') -> same w w'.
Proof. unfold now. destruct (time_Now _) eqn:E. intros [= <- <-]. solve_same. Qed.
Lemma wake_up_same w : same w (wake_up w).2.
Proof. unfold wake_up. destruct (w_wakeup w); [done|]. destruct (wake _) eqn:E. solve_same. Qed.
Lemma Trigger_same w t : (forall c, t <> TClusterNodes c) -> same w (Trigger w t).2.
Proof. intros Ht. etrans; [|apply wake_up_same]. solve_same. Qed.
Lemma Trigger_same_eq w t r w' : (forall c, t <> TClusterNodes c) -> Trigger w t = (r, w') -> same w w'.
Proof. intros Ht E. replace w' with (Trigger w t).2 by by rewrite E. by apply Trigger_same. Qed.
Lemma do_epoll_same w o x : holds same w (do_epoll w o x).
Proof.
  unfold do_epoll. destruct (c_attached x); [|apply holds_Panic]. destruct (epoll_ctl _ _ _) eqn:E.
  apply holds_Ok. cbn. solve_same.
Qed.
Lemma io_Writev_same w fd bs n err w' : io_Writev w fd bs = (n, err, w') -> same w w'.
Proof.
  unfold io_Writev. case_match; [by intros [= <- <- <-]|].
  destruct (sys_writev _ _ _) as [e [? ?]] eqn:E. intros [= <- <- <-]. solve_same.
Qed.

Lemma holds_same_keeps {A} `{!ToWorld A} w (m : res A) : holds same w m -> holds keeps w m.
Proof. intros Hm a Ha. by apply same_keeps, Hm. Qed.
End same_ops.

(** ** Automation, as in [Table] *)
Create HintDb queue.
#[export] Hint Resolve holds_same_keeps | 10 : queue.
#[export] Hint Resolve do_epoll_same : queue.

Ltac via_same w2 w1 lem solve := transitivity w2; [transitivity w1; [solve|exact lem]|solve_same].

Ltac same_chain :=
  first
    [ solve_same
    | eassumption
    | match goal with
      | |- same _ (snd (AsyncWrite _ _ _)) => etrans; [|apply Trigger_same; done]; same_chain
      | |- same _ (snd (Close _ _)) => etrans; [|apply Trigger_same; done]; same_chain
      | E : get_conn ?w _ = Ok ?x |- same ?w (put_conn _ _ _) =>
          eapply same_put; [same_chain|exact (get_conn_inv _ _ _ E)|solve_spine]
      end
    | match goal with
      | E : io_Writev ?w1 _ _ = (_, _, ?w2) |- same _ ?g =>
          match g with context [w2] => via_same w2 w1 (io_Writev_same _ _ _ _ _ _ E) ltac:(clear E; same_chain) end
      | E : now ?w1 = (_, ?w2) |- same _ ?g =>
          match g with context [w2] => via_same w2 w1 (now_same _ _ _ E) ltac:(clear E; same_chain) end
      end ].

Ltac queue_state := table_state; first [ reflexivity | same_chain | apply same_keeps; same_chain ].
Ltac queue_call :=
  table_state;
  first [ solve [eauto with queue nocore]
        | eapply holds_trans; [apply _| |solve [eauto with queue nocore]]; queue_state ].
Ltac run_queue := walk ltac:(fun _ => queue_call) ltac:(fun _ => queue_state).
Ltac queue := run_queue; try queue_state.

Section bytes_ops.
Context `{BytePool} `{!Env} {T : Type} `{!LLRB T} `{!HashMap ClusterNode} (opts : Options).
Implicit Types w : World T.

Lemma out_Write_same w c p : holds same w (out_Write w c p).
Proof. unfold out_Write. queue. Qed.
Lemma out_Writev_same w c bs : holds same w (out_Writev w c bs).
Proof. unfold out_Writev. queue. Qed.
Lemma flush_residual_same fuel w c : holds same w (flush_residual fuel w c).
Proof. revert w. induction fuel as [|fuel IH]; intros w; [apply holds_OutOfFuel|]. cbn [flush_residual]. queue. Qed.
Hint Resolve out_Write_same : queue.
Lemma conn_open_same w c buf : holds same w (conn_open w c buf).
Proof. unfold conn_open. queue. Qed.
End bytes_ops.
#[export] Hint Resolve out_Write_same out_Writev_same flush_residual_same conn_open_same : queue.

(** ** Closing and opening connections *)

(** The callbacks of the handler: none queues anything, and the callback of a server
    connection leaves no fragment waiting on it. *)
Class ConnHandlerQueues `{!Env} {T : Type} `{!LLRB T} `{!HashMap ClusterNode} `{!ConnHandler T} := {
  OnCOpened_keeps : forall (w : World T) c, holds keeps w (OnCOpened w c);
  OnSOpened_keeps : forall (w : World T) c, holds keeps w (OnSOpened w c);
  OnCClosed_keeps : forall (w : World T) c err, holds keeps w (OnCClosed w c err);
  OnSClosed_empties : forall (w : World T) c err w' F M, queues w F M -> OnSClosed w c err = Ok w' ->
    exists F' M', queues w' F' M' /\ grows nothing nothing w F M w' F' M' /\ F' (c, Waiting) = [];
}.
Arguments ConnHandlerQueues {_} T {_ _ _}.
#[export] Hint Resolve OnCOpened_keeps OnSOpened_keeps OnCClosed_keeps : queue.

Section closing.
Context `{BytePool} `{!Env} {T : Type} `{!LLRB T} `{!HashMap ClusterNode} `{!ConnHandler T, !ConnHandlerQueues T}
  (opts : Options).
Implicit Types (w : World T) (F : cid * side -> list fid) (M : cid -> list mid).

(** Another connection value without queues, of no type: the lists of [c] disappear. *)
Lemma dropped_queues X Y w F M c x y :
  queues w F M -> w_conns w !! c = Some x -> F (c, Waiting) = [] ->
  conn_spine y = (None, None, None, ConnNone) ->
  exists F' M', queues (put_conn w c y) F' M' /\ grows X Y w F M (put_conn w c y) F' M'.
Proof.
  intros [Hst Hf Hm Hfree Hn Ho Hsv Hno Htm Htk Hpl] Hx Hnil Hy. unfold conn_spine in Hy. injection Hy as Hyi Hyf Hyo Hyt.
  pose proof (forest_drop _ _ _ (fun i : cid * side => bool_decide (i.1 = c)) Hf) as Hf'.
  pose proof (forest_drop _ _ _ (fun i : cid => bool_decide (i = c)) Hm) as Hm'.
  set (F' := fun i : cid * side => if bool_decide (i.1 = c) then [] else F i) in Hf'.
  set (M' := fun i : cid => if bool_decide (i = c) then [] else M i) in Hm'.
  assert (forall i, F' i = if decide (i.1 = c) then [] else F i) as HF' by (intros i; subst F'; cbn; by case_decide; case_bool_decide).
  assert (forall i, M' i = if decide (i = c) then [] else M i) as HM' by (intros i; subst M'; cbn; by case_decide; case_bool_decide).
  assert (forall k, has F' k -> has F k) as HsubF.
  { intros k [i Hi]. rewrite HF' in Hi. case_decide; [by apply elem_of_nil in Hi|by exists i]. }
  assert (forall k, has M' k -> has M k) as HsubM.
  { intros k [i Hi]. rewrite HM' in Hi. case_decide; [by apply elem_of_nil in Hi|by exists i]. }
  assert (forall d, server_conn w d -> server_conn (put_conn w c y) d) as Hserv.
  { intros d (z & Hz & Ht). unfold server_conn. cbn. destruct (decide (d = c)) as [->|]; [|rewrite lookup_insert_ne by done; by exists z].
    rewrite lookup_insert_eq. exists y. by rewrite Hyt. }
  exists F', M'. split; [split; cbn [w_store put_conn with_conns_heap w_timeouts w_tasks w_urgent w_conns w_next]; try done|].
  - eapply forest_ext; [|done|exact Hf']. intros [d s]. unfold frag_queue. cbn. destruct (decide (d = c)) as [->|].
    + rewrite lookup_insert_eq, bool_decide_eq_true_2 by done. cbn. by destruct s.
    + by rewrite lookup_insert_ne, bool_decide_eq_false_2.
  - eapply forest_ext; [|done|exact Hm']. intros d. unfold msg_queue. cbn. destruct (decide (d = c)) as [->|].
    + by rewrite lookup_insert_eq, bool_decide_eq_true_2.
    + by rewrite lookup_insert_ne, bool_decide_eq_false_2.
  - intros m d Hin Hd. rewrite HM' in Hd. case_decide; [by apply elem_of_nil in Hd|by apply (Hfree m d)].
  - intros d Hd. rewrite lookup_insert_ne; [by apply Hn|]. intros <-. rewrite Hn in Hx by done. done.
  - intros f z o Hz Hoz. destruct (decide (o = c)) as [->|]; [rewrite lookup_insert_eq; by eexists|].
    rewrite lookup_insert_ne by done. by apply (Ho f z).
  - intros d z s [[<- <-]|[Hne Hz]]%lookup_insert_Some Ht; rewrite HF'; cbn; [by rewrite decide_True|].
    case_decide; [done|]. by apply (Hsv d z).
  - intros d z s [[<- <-]|[Hne Hz]]%lookup_insert_Some Ht; [by destruct s|by apply (Hno d z)].
  - intros k f Hin. destruct (Htm k f Hin) as (d & z & Hd & Hz & Hrest). exists d, z. split; [|done].
    rewrite HF'. cbn. case_decide as Hdc; [|done]. subst d. by rewrite Hnil in Hd.
  - intros d Hd. by apply Hserv, Htk.
  - intros d Hd. by apply Hserv, Hpl.
  - split; try done.
    + intros f _ Hfh. left. by apply HsubF.
    + intros m _ [Hmh|Hmh]; left; [left; by apply HsubM|by right].
    + intros f z Hz. by exists z.
    + intros d z Hz. cbn. destruct (decide (d = c)) as [->|]; [|rewrite lookup_insert_ne by done; by exists z; auto].
      rewrite lookup_insert_eq. exists y. auto.
Qed.

Lemma releaseTCP_spine x y : releaseTCP x = Ok y -> conn_spine y = (None, None, None, ConnNone).
Proof. unfold releaseTCP. intros Hr. bind_inv Hr. by simplify_eq. Qed.

Lemma closeConn_keeps w c err t : holds keeps w (closeConn w c err t).
Proof.
  intros r Hr. unfold closeConn in Hr. bind_inv Hr. apply get_conn_inv in Ha. rename a into x.
  case_if_in Hr; [by injection Hr as <-|]. bind_inv Hr. rename a into w1. apply flush_residual_same in Ha0 as Hs1. cbn in Hs1.
  destruct (epoll_ctl _ _ _) as [e0 err0]. destruct (sys_close _ _) as [e1 err1]. bind_inv Hr. rename a into w3.
  set (w2 := with_connections _ _ _ _) in Ha1. assert (same w w2) as Hs2 by (etrans; [exact Hs1|solve_same]).
  bind_inv Hr. rename a into y. apply get_conn_inv in Ha2. bind_inv Hr. rename a into z. simplify_eq. cbn.
  intros F M Hw. apply (same_queues _ _ _ _ Hs2) in Hw as Hw2.
  destruct (same_conn_r _ _ _ _ Hs2 Ha) as (x2 & Hx2 & Hsp). unfold conn_spine in Hsp.
  assert (exists F' M', queues w3 F' M' /\ grows nothing nothing w2 F M w3 F' M' /\ F' (c, Waiting) = []) as (F' & M' & Hw3 & Hg3 & Hnil).
  { assert (forall w3, keeps w2 w3 -> c_connType x <> ConnServer ->
      exists F' M', queues w3 F' M' /\ grows nothing nothing w2 F M w3 F' M' /\ F' (c, Waiting) = []) as Hnon.
    { intros w4 Hk Ht. destruct (Hk F M Hw2) as (F' & M' & Hw4 & Hg4). exists F', M'. split_and!; [done..|].
      destruct (gr_type _ _ _ _ _ _ _ _ Hg4 c x2 Hx2) as (x4 & Hx4 & Ht4). apply (qu_server _ _ _ Hw4 c x4); [done|].
      destruct Ht4 as [Ht4|Ht4]; congruence. }
    destruct (c_connType x).
    - simplify_eq. by apply Hnon.
    - bind_inv Ha1. apply OnCClosed_keeps in Ha4. cbn in Ha4. apply Hnon; [|done]. etrans; [exact Ha4|]. simplify_eq.
      apply same_keeps. solve_same.
    - bind_inv Ha1. destruct (OnSClosed_empties _ _ _ _ _ _ Hw2 Ha4) as (F' & M' & Hw4 & Hg4 & Hnil). simplify_eq. exists F', M'.
      assert (same a (with_connections a (w_connections a) (w_cConnCount a) (wrap32 (w_sConnCount a - 1)))) as Hs4 by solve_same.
      split_and!; [by eapply same_queues| |done]. eapply grows_trans; [exact Hg4|by apply same_grows]. }
  destruct (dropped_queues nothing nothing w3 F' M' c y z Hw3 Ha2 Hnil) as (F4 & M4 & Hw4 & Hg4); [by eapply releaseTCP_spine|].
  exists F4, M4. split; [done|]. eapply grows_trans; [apply (same_grows _ _ _ _ F M Hs2)|]. by eapply grows_trans.
Qed.
Hint Resolve closeConn_keeps : queue.

Lemma write_keeps w c data : holds keeps w (write w c data).
Proof. unfold write. queue. Qed.
Lemma writev_keeps w c bs : holds keeps w (writev w c bs).
Proof. unfold writev. queue. Qed.
Hint Resolve write_keeps writev_keeps : queue.
Lemma el_write_keeps w c : holds keeps w (el_write w c).
Proof.
  unfold el_write. apply holds_pure; intros x Hx. apply holds_pure; intros iov _.
  apply holds_pure; intros [[n err] w1] Hn. assert (same w w1) as Hst.
  { destruct (1 <? len iov).
    - injection Hn as Hn. by eapply io_Writev_same.
    - bind_inv Hn. destruct (sys_write _ _ _) as [e [? ?]] eqn:E. simplify_eq. solve_same. }
  clear Hn. queue.
Qed.
Lemma asyncWrite_keeps w c data : holds keeps w (asyncWrite w c data).
Proof. unfold asyncWrite. queue. Qed.
Lemma asyncWritev_keeps w c data : holds keeps w (asyncWritev w c data).
Proof. unfold asyncWritev. queue. Qed.
Lemma writev_chunks_keeps fuel w c bs : holds keeps w (writev_chunks fuel w c bs).
Proof. revert w bs. induction fuel as [|fuel IH]; intros w bs; cbn [writev_chunks]; queue. Qed.
End closing.
#[export] Hint Resolve closeConn_keeps write_keeps writev_keeps el_write_keeps asyncWrite_keeps asyncWritev_keeps
  writev_chunks_keeps : queue.

(** ** Moving and creating fragments *)
Section moving.
Context `{BytePool} `{!Env} {T : Type} `{!LLRB T} `{!HashMap ClusterNode} (opts : Options).
Implicit Types (w : World T) (F : cid * side -> list fid) (M : cid -> list mid).

(** What is queued in the second step was queued before the first. *)
Lemma grows_absorb X Y w F M w1 F1 M1 w2 F2 M2 :
  grows nothing nothing w F M w1 F1 M1 -> grows X Y w1 F1 M1 w2 F2 M2 ->
  (forall f, X f -> is_Some (frags (w_store w) !! f) -> has F f) ->
  (forall m, Y m -> is_Some (msgs (w_store w) !! m) -> has M m \/ m ∈ pool (w_store w)) ->
  grows nothing nothing w F M w2 F2 M2.
Proof.
  intros H1 H2 HX HY.
  assert (grows X Y w F M w2 F2 M2) as [Hf Hm Hp Hms Ht].
  { eapply grows_trans; [|exact H2]. eapply grows_weaken; [| |exact H1]; by intros ? []. }
  split; try done.
  - intros f Hs Hh. destruct (Hf f Hs Hh); left; [done|by apply HX].
  - intros m Hs Hh. destruct (Hm m Hs Hh); left; [done|by apply HY].
Qed.

(** A server connection with a queue of fragments is open to them. *)
Lemma server_type w F M s x d q :
  queues w F M -> server_conn w s -> w_conns w !! s = Some x -> conn_frags x d = Some q -> c_connType x = ConnServer.
Proof.
  intros Hw (y & Hy & Ht) Hx Hq. assert (y = x) as -> by congruence. destruct (c_connType x) eqn:E; [|done|done].
  rewrite (qu_none _ _ _ Hw s x d Hx E) in Hq. done.
Qed.

Lemma EnqueueOutFrag_step w F M s f w' :
  queues w F M -> server_conn w s -> is_Some (frags (w_store w) !! f) -> ~ has F f -> EnqueueOutFrag w s f = Ok w' ->
  exists F', queues w' F' M /\ grows (eq f) nothing w F M w' F' M.
Proof.
  intros Hw Hs [y Hy] Hnf He. pose proof He as Ho. unfold EnqueueOutFrag in Ho. bind_inv Ho. apply get_conn_inv in Ha. bind_inv Ho.
  unfold the_queue in Ha0. destruct (c_outFragQueue a) as [q|] eqn:Eq; [|done].
  destruct (EnqueueOutFrag_ok w F M s a q f y Hw Ha Eq) as (w2 & Hw2 & Hq & Hg); [by eapply (server_type w F M s a Outgoing)|done|done|].
  assert (w' = w2) as -> by congruence. by eexists.
Qed.
Lemma enqueueInFrag_step w F M s f w' :
  queues w F M -> server_conn w s -> is_Some (frags (w_store w) !! f) -> ~ has F f -> enqueueInFrag opts w s f = Ok w' ->
  exists F', queues w' F' M /\ grows (eq f) nothing w F M w' F' M.
Proof.
  intros Hw Hs [y Hy] Hnf He. pose proof He as Ho. unfold enqueueInFrag in Ho. bind_inv Ho. apply get_conn_inv in Ha. bind_inv Ho.
  unfold the_queue in Ha0. destruct (c_inFragQueue a) as [q|] eqn:Eq; [|done].
  destruct (enqueueInFrag_ok opts w F M s a q f y Hw Ha Eq) as (w2 & Hw2 & Hq & Hg); [by eapply (server_type w F M s a Waiting)|done|done|].
  assert (w' = w2) as -> by congruence. by eexists.
Qed.
Lemma DequeueInFrag_step w F M s r w' :
  queues w F M -> DequeueInFrag w s = Ok (r, w') ->
  r = hd_error (F (s, Waiting)) /\ queues w' (upd F (s, Waiting) (drop 1 (F (s, Waiting)))) M /\
  grows nothing nothing w F M w' (upd F (s, Waiting) (drop 1 (F (s, Waiting)))) M.
Proof.
  intros Hw He. pose proof He as Ho. unfold DequeueInFrag in Ho. bind_inv Ho. apply get_conn_inv in Ha. bind_inv Ho.
  unfold the_queue in Ha0. destruct (c_inFragQueue a) as [q|] eqn:Eq; [|done].
  destruct (DequeueInFrag_ok w F M s a q Hw Ha Eq) as (w2 & Hw2 & Hq & Hg). rewrite Hw2 in He. by simplify_eq.
Qed.
Lemma dequeueOutFrag_step w F M s w' :
  queues w F M -> dequeueOutFrag w s = Ok w' ->
  exists x q, w_conns w !! s = Some x /\ c_outFragQueue x = Some q /\ q_head q = hd_error (F (s, Outgoing)) /\
    queues w' (upd F (s, Outgoing) (drop 1 (F (s, Outgoing)))) M /\
    grows nothing nothing w F M w' (upd F (s, Outgoing) (drop 1 (F (s, Outgoing)))) M.
Proof.
  intros Hw He. pose proof He as Ho. unfold dequeueOutFrag in Ho. bind_inv Ho. apply get_conn_inv in Ha. bind_inv Ho.
  unfold the_queue in Ha0. destruct (c_outFragQueue a) as [q|] eqn:Eq; [|done].
  destruct (dequeueOutFrag_ok w F M s a q Hw Ha Eq) as (w2 & Hw2 & Hh & Hq & Hg). exists a, q.
  assert (w' = w2) as -> by congruence. done.
Qed.

Lemma take_out_keeps fuel w c bs : holds keeps w (take_out opts fuel w c bs).
Proof.
  revert w bs. induction fuel as [|fuel IH]; intros w bs; cbn [take_out]; [apply holds_OutOfFuel|].
  apply holds_pure; intros x Hx%get_conn_inv. apply holds_pure; intros q Hq. destruct (q_head q) as [f|] eqn:Eh; [|by apply holds_Ok].
  unfold the_queue in Hq. destruct (c_outFragQueue x) as [q'|] eqn:Eq; [|done]. injection Hq as ->.
  intros r Hr. bind_inv Hr. rename a into w1. bind_inv Hr. rename a into w2. bind_inv Hr. etrans; [|by eapply IH].
  cbn. intros F M Hw. destruct (dequeueOutFrag_step _ _ _ _ _ Hw Ha) as (x' & q' & Hx' & Hq' & Hh & Hw1 & Hg1). simplify_eq.
  rewrite Eh in Hh. destruct (F (c, Outgoing)) as [|g ls] eqn:Hls; [done|]. injection Hh as <-. cbn [drop] in *.
  rewrite (skipn_O ls) in *.
  pose proof (popped_detached _ _ _ _ _ _ (qu_frags _ _ _ Hw) Hls) as Hnf.
  assert (is_Some (frags (w_store w) !! f)) as Hsf.
  { eapply (forest_elem _ _ _ (c, Outgoing)); [exact (qu_frags _ _ _ Hw)|rewrite Hls; left]. }
  destruct (enqueueInFrag_step w1 _ M c f w2 Hw1) as (F2 & Hw2 & Hg2); [| |done|done|].
  - eapply gr_server; [exact Hg1|]. exists x. split; [done|]. intros Ht.
    rewrite (qu_server _ _ _ Hw c x Outgoing Hx) in Hls by congruence. done.
  - destruct Hsf as [y Hy]. destruct (gr_peer _ _ _ _ _ _ _ _ Hg1 f y Hy) as (z & Hz & _). by exists z.
  - exists F2, M. split; [done|]. eapply grows_absorb; [exact Hg1|exact Hg2| |by intros ? []].
    intros g <- _. exists (c, Outgoing). rewrite Hls. left.
Qed.
End moving.
#[export] Hint Resolve take_out_keeps : queue.

Section opening.
Context `{BytePool} `{!Env} {T : Type} `{!LLRB T} `{!HashMap ClusterNode} `{!ConnHandler T, !ConnHandlerQueues T}
  (opts : Options).
Implicit Types (w : World T) (F : cid * side -> list fid) (M : cid -> list mid).

Lemma handleWriteSignal_keeps w c : holds keeps w (handleWriteSignal opts w c).
Proof. unfold handleWriteSignal. queue. Qed.

(** A new connection starts with empty queues. *)
Lemma alloc_conn_keeps w x t :
  conn_spine x = (Some emptyQueue, Some emptyQueue, Some emptyQueue, t) -> t <> ConnNone -> keeps w (alloc_conn w x).2.
Proof.
  intros Hx Ht F M [Hst Hf Hm Hfree Hn Ho Hsv Hno Htm Htk Hpl]. unfold conn_spine in Hx. injection Hx as Him Hif Hof Hty.
  assert (w_conns w !! w_next w = None) as Hnew by (by apply Hn).
  assert (forall d, F (w_next w, d) = []) as HF.
  { intros d. apply (fo_none _ _ _ Hf). unfold frag_queue. cbn. by rewrite Hnew. }
  assert (M (w_next w) = []) as HM by (apply (fo_none _ _ _ Hm); unfold msg_queue; by rewrite Hnew).
  assert (forall d, is_Some (w_conns w !! d) -> d <> w_next w) as Hne by (intros d [z Hz] ->; congruence).
  assert (forall d, server_conn w d -> server_conn (alloc_conn w x).2 d) as Hserv.
  { intros d (z & Hz & Hzt). exists z. cbn. split; [|done]. rewrite lookup_insert_ne; [done|]. congruence. }
  exists F, M. split; [split; cbn [alloc_conn snd w_store w_timeouts w_tasks w_urgent w_conns w_next]; try done|].
  - destruct Hf as [Hr Hnn Hd]. split; [|intros i Hi|done].
    + intros [d s] q Hq. unfold frag_queue in Hq. cbn in Hq. destruct (decide (d = w_next w)) as [->|].
      * rewrite lookup_insert_eq in Hq. cbn in Hq. rewrite HF. destruct s; cbn in Hq; [rewrite Hif in Hq|rewrite Hof in Hq];
          injection Hq as <-; apply queue_repr_empty.
      * rewrite lookup_insert_ne in Hq by done. by apply (Hr (d, s)).
    + destruct i as [d s]. destruct (decide (d = w_next w)) as [->|]; [apply HF|]. apply Hnn. unfold frag_queue in *. cbn in *.
      by rewrite lookup_insert_ne in Hi.
  - destruct Hm as [Hr Hnn Hd]. split; [|intros i Hi|done].
    + intros d q Hq. unfold msg_queue in Hq. cbn in Hq. destruct (decide (d = w_next w)) as [->|].
      * rewrite lookup_insert_eq in Hq. cbn in Hq. rewrite HM. rewrite Him in Hq. injection Hq as <-. apply queue_repr_empty.
      * rewrite lookup_insert_ne in Hq by done. by apply (Hr d).
    + destruct (decide (i = w_next w)) as [->|]; [apply HM|]. apply Hnn. unfold msg_queue in *. cbn in *.
      by rewrite lookup_insert_ne in Hi.
  - intros d Hd. rewrite lookup_insert_ne by lia. apply Hn. lia.
  - intros f y o Hy Hoy. pose proof (Ho f y o Hy Hoy) as Hs. rewrite lookup_insert_ne; [done|]. by apply not_eq_sym, Hne.
  - intros d z s [[<- <-]|[Hdne Hz]]%lookup_insert_Some Hzt; [apply HF|by apply (Hsv d z)].
  - intros d z s [[<- <-]|[Hdne Hz]]%lookup_insert_Some Hzt; [congruence|by apply (Hno d z)].
  - intros d Hd. by apply Hserv, Htk.
  - intros d Hd. by apply Hserv, Hpl.
  - split; try done; [by left|by left|by intros f y Hy; exists y|]. intros d z Hz. cbn. exists z.
    rewrite lookup_insert_ne; [auto|]. congruence.
Qed.

Lemma newTCPConn_spine fd l rm t st sl cap :
  conn_spine (newTCPConn fd l rm t st sl cap) = (Some emptyQueue, Some emptyQueue, Some emptyQueue, t).
Proof. done. Qed.

Lemma handleAction_keeps w c a : holds keeps w (handleAction w c a).
Proof. unfold handleAction. queue. Qed.
Hint Resolve handleAction_keeps : queue.
Lemma el_open_keeps w c : holds keeps w (el_open w c).
Proof. unfold el_open. queue. Qed.
Hint Resolve el_open_keeps : queue.

(** A connection that was allocated, as the rest of its life sees it. *)
Lemma alloc_then w x t w' :
  conn_spine x = (Some emptyQueue, Some emptyQueue, Some emptyQueue, t) -> t <> ConnNone ->
  keeps (alloc_conn w x).2 w' -> keeps w w' /\
  forall F M, queues w F M -> t = ConnServer -> server_conn w' (w_next w).
Proof.
  intros Hx Ht Hk. split; [etrans; [by eapply alloc_conn_keeps|done]|]. intros F M Hw ->.
  destruct (alloc_conn_keeps w x _ Hx Ht F M Hw) as (F1 & M1 & Hw1 & _). destruct (Hk F1 M1 Hw1) as (F2 & M2 & _ & Hg).
  eapply gr_server; [exact Hg|]. exists x. cbn. rewrite lookup_insert_eq. split; [done|]. unfold conn_spine in Hx. congruence.
Qed.

Lemma register_keeps w x t r :
  conn_spine x = (Some emptyQueue, Some emptyQueue, Some emptyQueue, t) -> t <> ConnNone -> register w x = Ok r ->
  r.1.2 = w_next w /\ keeps (alloc_conn w x).2 (to_world r).
Proof.
  intros Hx Ht Hr. unfold register in Hr. destruct (alloc_conn w x) as [c w1] eqn:Ea. cbn [snd].
  assert (c = w_next w /\ w_conns w1 !! c = Some x) as [Hc Hcx].
  { unfold alloc_conn in Ea. simplify_eq. split; [done|]. cbn. by rewrite lookup_insert_eq. }
  bind_inv Hr. destruct a as [err w2]. apply do_epoll_same in Ha. cbn in Ha. destruct err as [e|].
  - destruct (sys_close _ _) as [env' err']. bind_inv Hr. simplify_eq. split; [done|]. cbn.
    assert (same w1 (with_env w2 env')) as Hs by (etrans; [exact Ha|solve_same]). intros F M Hw1.
    apply (same_queues _ _ _ _ Hs) in Hw1 as Hw2. destruct (same_conn_r _ _ _ _ Hs Hcx) as (x2 & Hx2 & Hsp).
    assert (F (w_next w, Waiting) = []) as Hnil.
    { pose proof (fo_repr _ _ _ (qu_frags _ _ _ Hw1) (w_next w, Waiting) emptyQueue) as Hr.
      rewrite (frag_queue_at _ _ _ _ Hcx) in Hr. unfold conn_spine in Hx. cbn in Hr.
      destruct Hr as [_ _ _ Hcount]; [congruence|]. cbn in Hcount. symmetry in Hcount. by apply len_0_nil in Hcount. }
    destruct (dropped_queues nothing nothing _ F M (w_next w) x2 a Hw2 Hx2 Hnil) as (F' & M' & Hw3 & Hg3); [by eapply releaseTCP_spine|].
    exists F', M'. split; [done|]. eapply grows_trans; [by apply (same_grows _ _ _ _ F M Hs)|done].
  - bind_inv Hr. destruct a as [err w3]. simplify_eq. split; [done|]. cbn. apply el_open_keeps in Ha0. cbn in Ha0.
    etrans; [|exact Ha0]. apply same_keeps. etrans; [exact Ha|solve_same].
Qed.

(** A dialled connection is one to a server. *)
Lemma Dial_step w address isSlave r w' :
  Dial opts w address isSlave = Ok (r, w') ->
  keeps w w' /\ forall F M c, queues w F M -> r = inl c -> server_conn w' c.
Proof.
  intros Hr. unfold Dial in Hr. destruct (net_Dial _ _) as [e res] eqn:E.
  assert (same w (with_env w e)) as Hs by solve_same. destruct res as [[[fd local] remote]|err].
  - bind_inv Hr. destruct a as [[err c] w1]. destruct (register_keeps _ _ ConnServer _ (newTCPConn_spine _ _ _ _ _ _ _) ltac:(done) Ha) as [Hc Hk].
    destruct (alloc_then _ _ ConnServer w1 (newTCPConn_spine _ _ _ _ _ _ _) ltac:(done) Hk) as [Hk1 Hsv].
    assert (w' = w1) as -> by (by destruct err; simplify_eq). split; [etrans; [by apply same_keeps|done]|].
    intros F M d Hw ->. cbn in Hc. destruct err; simplify_eq. apply (Hsv F M); [by eapply same_queues|done].
  - simplify_eq. split; [by apply same_keeps|]. done.
Qed.

Lemma accept_keeps w lnAddr : holds keeps w (accept opts w lnAddr).
Proof.
  intros r Hr. unfold accept in Hr. destruct (sys_accept _) as [e res] eqn:E.
  assert (same w (with_env w e)) as Hs by solve_same. destruct res as [[fd remote]|[n|]].
  - set (x := newTCPConn _ _ _ _ _ _ _) in Hr. destruct (alloc_conn (with_env w e) x) as [c w1] eqn:Ea.
    assert (keeps w w1) as Hk.
    { etrans; [by apply same_keeps|]. replace w1 with (alloc_conn (with_env w e) x).2 by by rewrite Ea. by eapply alloc_conn_keeps. }
    bind_inv Hr. destruct a as [err w2]. apply do_epoll_same in Ha. cbn in Ha. destruct err as [e'|].
    + simplify_eq. cbn. etrans; [exact Hk|by apply same_keeps].
    + apply el_open_keeps in Hr. etrans; [exact Hk|]. etrans; [|exact Hr]. apply same_keeps. etrans; [exact Ha|solve_same].
  - case_if_in Hr; simplify_eq; by apply same_keeps.
  - simplify_eq. by apply same_keeps.
Qed.
End opening.
#[export] Hint Resolve handleWriteSignal_keeps accept_keeps : queue.

(** ** Replies and timeouts only change contents *)

Record contents_only (s s' : Store) : Prop := {
  co_msgs : msg_spine <$> msgs s' = msg_spine <$> msgs s;
  co_frags : frag_spine <$> frags s' = frag_spine <$> frags s;
  co_pool : pool s' = pool s;
  co_loc : next_loc s' = next_loc s;
}.
#[export] Instance contents_only_preorder : PreOrder contents_only.
Proof. split; [by intros s|]. intros s1 s2 s3 [] []. split; congruence. Qed.

Lemma put_msg_contents s m x y : get_msg s m = Ok x -> msg_spine y = msg_spine x -> contents_only s (put_msg s m y).
Proof. intros Hx%get_msg_inv Hy. split; try done. cbn. by eapply spine_put. Qed.
Lemma put_frag_contents s f x y : get_frag s f = Ok x -> frag_spine y = frag_spine x -> contents_only s (put_frag s f y).
Proof. intros Hx%get_frag_inv Hy. split; try done. cbn. by eapply spine_put. Qed.

Section contents.
Context `{!MapRange} (MsgMaxLength : Z).

(** Steps through the code of the assembly. *)
Ltac solve_contents :=
  repeat match goal with
    | H : (_ ≫= _) = Ok _ |- _ => bind_inv H
    | H : (if ?b then _ else _) = Ok _ |- _ => destruct b
    | H : Ok _ = Ok _ |- _ => injection H as <-
    end;
  cbn [fst snd];
  repeat first
    [ reflexivity
    | eassumption
    | match goal with
      | |- contents_only ?s (put_msg ?s ?m _) => eapply put_msg_contents; [eassumption|reflexivity]
      | |- contents_only ?s (put_frag ?s ?m _) => eapply put_frag_contents; [eassumption|reflexivity]
      | |- contents_only ?s (put_msg ?s' ?m _) => transitivity s'; [|eapply put_msg_contents; [first [eassumption|apply get_put_msg]|reflexivity]]
      | |- contents_only ?s (put_frag ?s' ?m _) => transitivity s'; [|eapply put_frag_contents; [first [eassumption|apply get_put_frag]|reflexivity]]
      end ].

Lemma CodecS_MGet_contents s f r : CodecS.MGet MsgMaxLength s f = Ok r -> contents_only s r.2.
Proof. unfold CodecS.MGet. intros Hr. solve_contents. Qed.
Lemma CodecS_MSet_contents s f r : CodecS.MSet s f = Ok r -> contents_only s r.2.
Proof. unfold CodecS.MSet. intros Hr. solve_contents. Qed.
Lemma CodecS_Default_contents s f r : CodecS.Default MsgMaxLength s f = Ok r -> contents_only s r.2.
Proof. unfold CodecS.Default. intros Hr. solve_contents. Qed.
Lemma CodecS_Del_contents s f r : CodecS.Del s f = Ok r -> contents_only s r.2.
Proof. unfold CodecS.Del. intros Hr. solve_contents. Qed.

Lemma mark_done_contents s fs s' : mark_done s fs = Ok s' -> contents_only s s'.
Proof.
  revert s. induction fs as [|f fs IH]; intros s Hs; cbn [mark_done] in Hs; [by simplify_eq|]. bind_inv Hs.
  apply IH in Hs. etrans; [|exact Hs]. by eapply put_frag_contents.
Qed.
Lemma fail_frags_contents s fs s' : fail_frags s fs = Ok s' -> contents_only s s'.
Proof.
  revert s. induction fs as [|f fs IH]; intros s Hs; cbn [fail_frags] in Hs; [by simplify_eq|]. bind_inv Hs.
  apply IH in Hs. etrans; [|exact Hs]. case_if; [done|by eapply put_frag_contents].
Qed.

Lemma assemble_contents s f r : assemble MsgMaxLength s f = Ok r -> contents_only s r.2.
Proof.
  intros Hr. unfold assemble in Hr. bind_inv Hr. rename a into x. cbv zeta in Hr.
  set (x1 := if MsgMaxLength <? len (f_RspBody x) then set_ferror x ErrMsgRspTooLarge else x) in Hr.
  assert (contents_only s (put_frag s f x1)) as H1 by (eapply put_frag_contents; [done|]; subst x1; by case_if).
  bind_inv Hr. rename a into m. bind_inv Hr. rename a into msg. set (s2 := put_msg _ _ _) in Hr.
  assert (contents_only s s2) as H2 by (etrans; [exact H1|by eapply put_msg_contents]). bind_inv Hr. destruct a as [err s3].
  assert (contents_only s s3) as H3.
  { etrans; [exact H2|]. case_if_in Ha2; [|by simplify_eq].
    assert (forall r, CodecS.Default MsgMaxLength s2 f = Ok r -> contents_only s2 r.2) as Hd by apply CodecS_Default_contents.
    destruct (m_Type msg); first [exact (Hd _ Ha2) | exact (CodecS_MGet_contents _ _ _ Ha2) | exact (CodecS_MSet_contents _ _ _ Ha2)
      | exact (CodecS_Del_contents _ _ _ Ha2)]. }
  bind_inv Hr. rename a into y. case_if_in Hr; [|by simplify_eq]. bind_inv Hr. bind_inv Hr. bind_inv Hr. simplify_eq. cbn.
  etrans; [exact H3|]. etrans; [|by eapply mark_done_contents]. by eapply put_msg_contents.
Qed.
End contents.

Section reading.
Context `{BytePool} `{!Env} {T : Type} `{!LLRB T} `{!HashMap ClusterNode} `{!MapRange} (opts : Options).
Implicit Types (w : World T) (F : cid * side -> list fid) (M : cid -> list mid).

Lemma contents_same w s : contents_only (w_store w) s -> same w (with_store w s).
Proof. intros []. by split. Qed.

Lemma initializing_same w s : holds same w (initializing w s).
Proof. unfold initializing. queue. Qed.
Lemma keep_same w c : holds same w (keep w c).
Proof. unfold keep. queue. Qed.

(** A decoded request is in no queue, and new. *)
Lemma conn_cread_step w F M c r err w' :
  queues w F M -> conn_cread opts w c = Ok (r, err, w') ->
  queues w' F M /\ grows nothing nothing w F M w' F M /\ forall m, r = Some m ->
    request w' F M m /\ (m ∈ pool (w_store w) \/ msgs (w_store w) !! m = None) /\
    forall x slot f, msgs (w_store w') !! m = Some x -> m_Body x !! slot = Some f -> frags (w_store w) !! f = None.
Proof.
  intros Hw Hr. unfold conn_cread in Hr. bind_inv Hr. apply get_conn_inv in Ha. rename a into x. bind_inv Hr. destruct a as [bs e0].
  destruct (pool_choice _) as [e choice]. destruct (now _) as [t w1] eqn:En.
  assert (same w w1) as Hs1 by (etrans; [|by eapply now_same]; solve_same). apply (same_queues _ _ _ _ Hs1) in Hw as Hw1.
  assert (w_store w1 = w_store w) as Est by (unfold now in En; destruct (time_Now _); by simplify_eq).
  bind_inv Hr. rename a into d. set (w2 := with_store w1 (d_store d)) in Hr.
  assert (forall y, conn_spine y = conn_spine x -> same w2 (put_conn w2 c y)) as Hput.
  { intros y Hy. destruct (same_conn_r _ _ _ _ Hs1 Ha) as (z & Hz & Hzs). apply (same_put w2 w2 c z); [done|done|congruence]. }
  assert (exists y, w' = put_conn w2 c y /\ conn_spine y = conn_spine x /\ r = d_msg d) as (y & -> & Hy & ->).
  { destruct (d_msg d); [|simplify_eq; eexists; split; [done|]; by rewrite poke_spine].
    bind_inv Hr. destruct a as [k y]. simplify_eq. exists y. rewrite (conn_Discard_spine _ _ _ _ Ha2), poke_spine. done. }
  clear Hr. assert (forall P, extends P (w_store w1) (d_store d) ->
    queues (put_conn w2 c y) F M /\ grows nothing nothing w F M (put_conn w2 c y) F M /\ forall m, P m -> ~ has M m /\ m ∉ pool (d_store d)) as Hext.
  { intros P He. destruct (extends_queues nothing nothing P w1 F M (d_store d) Hw1 He) as (Hw2 & Hg2 & HP).
    split_and!; [exact (same_queues _ _ _ _ (Hput y Hy) Hw2)| |done]. eapply grows_trans; [by apply (same_grows _ _ _ _ F M Hs1)|].
    eapply grows_trans; [exact Hg2|exact (same_grows _ _ _ _ F M (Hput y Hy))]. }
  destruct (Decode_building _ _ _ _ _ _ _ (qu_store _ _ _ Hw1) Ha1) as [[He Hn]|(m & Hb & Hm)].
  - destruct (Hext _ He) as (Hq & Hg & _). split_and!; [done..|]. intros m Hm. congruence.
  - destruct (Hext _ (bd_extends _ _ _ Hb)) as (Hq & Hg & HP). split_and!; [done..|]. intros m' Hm'. rewrite (Hm m' Hm').
    destruct (HP m eq_refl) as [Hnm Hnp]. split_and!.
    + split; [exact (bd_msg _ _ _ Hb)|done|done|]. intros z slot f Hz Hf [i Hi].
      pose proof (bd_body _ _ _ Hb z slot f Hz Hf) as Hnew. destruct (forest_elem _ _ _ i f (qu_frags _ _ _ Hw1) Hi) as [fr Hfr]. congruence.
    + rewrite <- Est. by apply (et_new _ _ _ (bd_extends _ _ _ Hb)).
    + rewrite <- Est. intros z slot f Hz Hf. by apply (bd_body _ _ _ Hb z slot).
Qed.

(** A reply takes the oldest waiting fragment out of its queue. *)
Definition taken w F M (s : cid) (r : option fid) w' : Prop :=
  exists F', queues w' F' M /\ grows nothing nothing w F M w' F' M /\
    forall f, r = Some f -> has F f /\ ~ has F' f /\ is_Some (frags (w_store w') !! f).

Lemma taken_same w F M s r w1 w' : taken w F M s r w1 -> same w1 w' -> taken w F M s r w'.
Proof.
  intros (F' & Hq & Hg & Hf) Hs. pose proof (same_grows nothing nothing _ _ F' M Hs) as Hg1.
  exists F'. split_and!; [by eapply same_queues|by eapply grows_trans|]. intros f Hr. destruct (Hf f Hr) as (Hh & Hnh & y & Hy).
  split_and!; [done..|]. destruct (gr_peer _ _ _ _ _ _ _ _ Hg1 f y Hy) as (z & Hz & _). by exists z.
Qed.
Lemma taken_None w F M s r w' : taken w F M s r w' -> taken w F M s None w'.
Proof. intros (F' & Hq & Hg & _). by exists F'. Qed.
Lemma taken_from w F M s r w1 w' : queues w F M -> same w w1 -> (queues w1 F M -> taken w1 F M s r w') -> taken w F M s r w'.
Proof.
  intros Hw Hs Ht. destruct (Ht (same_queues _ _ _ _ Hs Hw)) as (F' & Hq & Hg & Hf). exists F'. split_and!; [done| |done].
  eapply grows_trans; [by apply same_grows|done].
Qed.

Lemma DequeueInFrag_taken w F M s r w' : queues w F M -> DequeueInFrag w s = Ok (r, w') -> taken w F M s r w'.
Proof.
  intros Hw Hd. destruct (DequeueInFrag_step _ _ _ _ _ _ Hw Hd) as (-> & Hq & Hg). eexists. split_and!; [exact Hq|exact Hg|].
  intros f Hf. destruct (F (s, Waiting)) as [|g ls] eqn:Hls; [done|]. injection Hf as ->. cbn [drop] in *. rewrite (skipn_O ls) in *.
  split_and!; [exists (s, Waiting); rewrite Hls; left|exact (popped_detached _ _ _ _ _ _ (qu_frags _ _ _ Hw) Hls)|].
  destruct (forest_elem _ _ _ (s, Waiting) f (qu_frags _ _ _ Hw)) as [y Hy]; [rewrite Hls; left|].
  destruct (gr_peer _ _ _ _ _ _ _ _ Hg f y Hy) as (z & Hz & _). by exists z.
Qed.

Lemma sdecode_taken w F M s r err w' : queues w F M -> sdecode w s = Ok (r, err, w') -> taken w F M s r w'.
Proof.
  intros Hw Hr. unfold sdecode in Hr. bind_inv Hr. bind_inv Hr. destruct a0 as [bs e0]. bind_inv Hr. rename a0 into d.
  assert (taken w F M s (sd_frag d) (sd_state d)) as Ht.
  { assert (taken w F M s None w) as Hid by (exists F; split_and!; [done|apply grows_refl|done]).
    unfold CodecS.Decode in Ha1. cbv zeta in Ha1. case_if_in Ha1; [by simplify_eq|]. bind_inv Ha1. destruct a0 as [[rt|e] b]; [|by simplify_eq].
    bind_inv Ha1. destruct a0 as [hd w1]. apply (DequeueInFrag_taken _ _ _ _ _ _ Hw) in Ha3. destruct hd as [f|]; [|by simplify_eq].
    bind_inv Ha1. bind_inv Ha1. simplify_eq. cbn. eapply taken_same; [exact Ha3|]. apply contents_same. by eapply put_frag_contents. }
  destruct (sd_frag d) as [f|]; [|by simplify_eq]. bind_inv Hr. bind_inv Hr. destruct a1 as [k y]. simplify_eq.
  eapply taken_same; [exact Ht|]. solve_same.
Qed.

Lemma conn_sread_taken w F M s r err w' : queues w F M -> conn_sread opts w s = Ok (r, err, w') -> taken w F M s r w'.
Proof.
  intros Hw Hr. unfold conn_sread in Hr. bind_inv Hr. bind_inv Hr. destruct a0 as [e1 w1].
  assert (same w w1) as Hs1 by (case_if_in Ha0; [by apply initializing_same in Ha0|by simplify_eq]).
  apply (taken_from w F M s r w1 w' Hw Hs1). intros Hw1.
  assert (taken w1 F M s None w1) as Hid by (exists F; split_and!; [done|apply grows_refl|done]).
  destruct e1 as [e|]; [by simplify_eq|]. bind_inv Hr. destruct a0 as [[r2 e2] w2]. apply (sdecode_taken _ _ _ _ _ _ _ Hw1) in Ha1 as Ht.
  destruct r2 as [f|]; [|by simplify_eq]. destruct e2 as [e|]; [simplify_eq; by eapply taken_None|]. bind_inv Hr. rename a0 into x.
  assert (forall r err w', (if f_Done x then Ok (None, Some (ECodec Continue), w2)
    else '(err, st) ← assemble (RedisMsgMaxLength opts) (w_store w2) f; Ok (Some f, err, with_store w2 st)) = Ok (r, err, w') ->
    taken w1 F M s r w') as Hgo.
  { intros r' err' w3 H3. case_if_in H3; [simplify_eq; by eapply taken_None|]. bind_inv H3. destruct a0 as [e4 st]. simplify_eq.
    eapply taken_same; [exact Ht|]. apply contents_same. by apply assemble_contents in Ha3. }
  destruct (f_Owner x); [|by simplify_eq]. destruct (f_Peer x); [|by simplify_eq].
  destruct (f_Type x); first [exact (Hgo _ _ _ Hr) | simplify_eq; exact Ht].
Qed.

Lemma dequeueInMsg_step w F M c r w' :
  queues w F M -> dequeueInMsg w c = Ok (r, w') ->
  r = hd_error (M c) /\ queues w' F (upd M c (drop 1 (M c))) /\ grows nothing nothing w F M w' F (upd M c (drop 1 (M c))) /\
  pool (w_store w') = pool (w_store w).
Proof.
  intros Hw He. pose proof He as Hd. unfold dequeueInMsg in Hd. bind_inv Hd. apply get_conn_inv in Ha. bind_inv Hd.
  unfold the_queue in Ha0. destruct (c_inMsgQueue a) as [q|] eqn:Eq; [|done].
  destruct (dequeueInMsg_ok w F M c a q Hw Ha Eq) as (w3 & Hw3 & Hrest). rewrite He in Hw3. by simplify_eq.
Qed.

(** [release_msgs] moves the messages of a queue to the pool. *)
Lemma release_msgs_keeps fuel w c : holds keeps w (release_msgs fuel w c).
Proof.
  revert w. induction fuel as [|fuel IH]; intros w; cbn [release_msgs]; [apply holds_OutOfFuel|]. intros r Hr. bind_inv Hr.
  destruct a as [[m|] w1]; cbv beta iota in Hr.
  - bind_inv Hr. rename a into s. etrans; [|by eapply IH]. cbn. intros F M Hw.
    destruct (dequeueInMsg_step _ _ _ _ _ _ Hw Ha) as (Hm & Hq1 & Hg1 & Hpl).
    destruct (M c) as [|m' ls] eqn:Hls; [done|]. injection Hm as ->. cbn [drop] in *. rewrite (skipn_O ls) in *.
    assert (is_Some (msgs (w_store w) !! m')) as Hsm.
    { eapply (forest_elem _ _ _ c); [exact (qu_msgs _ _ _ Hw)|rewrite Hls; left]. }
    destruct (gr_msgs _ _ _ _ _ _ _ _ Hg1 m' Hsm) as [x Hx].
    destruct (recycle_ok w1 F _ m' x Hq1 Hx) as (s' & Hs & Hq2 & Hg2).
    { exact (popped_detached _ _ _ _ _ _ (qu_msgs _ _ _ Hw) Hls). }
    { rewrite Hpl. intros Hin. apply (qu_free _ _ _ Hw m' c Hin). rewrite Hls. left. }
    assert (s = s') as -> by congruence. eexists _, _. split; [exact Hq2|]. eapply grows_absorb; [exact Hg1|exact Hg2|by intros ? []|].
    intros k <- _. left. exists c. rewrite Hls. left.
  - simplify_eq. intros F M Hw. destruct (dequeueInMsg_step _ _ _ _ _ _ Hw Ha) as (_ & Hq1 & Hg1 & _). by eexists _, _.
Qed.

(** Timeouts mark fragments and messages and forget expiry times. *)
Lemma delete_same w f t : deleteFromTimeoutQueue (w_store w) (w_timeouts w) f = Ok t -> same w (with_timeouts w t).
Proof.
  intros Ht. unfold deleteFromTimeoutQueue in Ht. bind_inv Ht. simplify_eq. split; try done. intros e He. cbn in He.
  rewrite tree_Delete_items in He. by apply list_elem_of_filter in He as [_ He].
Qed.
Lemma expire_same w f t time w1 m msg s :
  deleteFromTimeoutQueue (w_store w) (w_timeouts w) f = Ok t -> now w = (time, w1) -> get_msg (w_store w1) m = Ok msg ->
  fail_frags (w_store w1) (range (m_Body msg)).*2 = Ok s ->
  same w (with_store (with_timeouts w1 t) (put_msg s m (set_merror msg ErrMsgRequestTimeout))).
Proof.
  intros Ht En Hmsg Hs. assert (w_timeouts w1 = w_timeouts w /\ w_store w1 = w_store w) as [Etm Est].
  { unfold now in En. destruct (time_Now _). by simplify_eq. }
  etrans; [by eapply now_same|]. transitivity (with_timeouts w1 t); [apply (delete_same w1 f); by rewrite Etm, Est|].
  apply contents_same. apply fail_frags_contents in Hs as Hc. etrans; [exact Hc|].
  destruct Hc as [Hcm _ _ _]. apply get_msg_inv in Hmsg. destruct (spine_lookup _ _ _ m msg (eq_sym Hcm) Hmsg) as (z & Hz & Hzs).
  eapply put_msg_contents; [by apply get_msg_Ok|]. by rewrite Hzs.
Qed.

Lemma msgTimeout_same fuel w : holds same w (msgTimeout fuel w).
Proof.
  revert w. induction fuel as [|fuel IH]; intros w; cbn [msgTimeout]; [apply holds_OutOfFuel|].
  destruct (getFromTimeoutQueue _) as [f|]; [|by apply holds_Ok]. apply holds_pure; intros x Hx. apply holds_pure; intros t Ht.
  case_if; [eapply holds_trans; [apply _|by eapply delete_same|apply IH]|].
  destruct (now w) as [time w1] eqn:En. case_if; [apply holds_Ok; by eapply now_same|]. cbv zeta.
  apply holds_pure; intros m Hm. apply holds_pure; intros msg Hmsg. apply holds_pure; intros s Hs.
  pose proof (expire_same _ _ _ _ _ _ _ _ Ht En Hmsg Hs) as Hs2. set (w2 := with_store _ _) in *.
  destruct (f_Owner x) as [c|]; [|by eapply holds_trans; [apply _|exact Hs2|apply IH]].
  apply holds_pure; intros y _. case_if; [by eapply holds_trans; [apply _|exact Hs2|apply IH]|].
  eapply holds_trans; [apply _| |apply IH]. etrans; [exact Hs2|]. by apply Trigger_same.
Qed.
End reading.
#[export] Hint Resolve keep_same release_msgs_keeps msgTimeout_same : queue.

(** ** The loop *)

(** The fragments of the request [r]. *)
Definition body_of `{!Env} {T} `{!HashMap ClusterNode} (w : World T) (r : option mid) (f : fid) : Prop :=
  exists m x slot, r = Some m /\ msgs (w_store w) !! m = Some x /\ m_Body x !! slot = Some f.

(** The callbacks of the loop.  A request is queued, fragments and message, or answered,
    and then its message is still in no queue; a redirected fragment is queued again or
    dropped. *)
Class LoopHandlerQueues `{!Env} {T : Type} `{!LLRB T} `{!HashMap ClusterNode} `{!LoopHandler T} := {
  OnCReact_step : forall (w : World T) r c out act w' F M, queues w F M -> (forall m, r = Some m -> request w F M m) ->
    is_Some (w_conns w !! c) -> OnCReact w r c = Ok (out, act, w') ->
    exists F' M', queues w' F' M' /\ grows (body_of w r) (fun m => r = Some m /\ out = None) w F M w' F' M';
  OnMoved_step : forall (w : World T) addr slot s f w' F M, queues w F M -> ~ has F f -> is_Some (frags (w_store w) !! f) ->
    OnMoved w addr slot s f = Ok w' -> exists F' M', queues w' F' M' /\ grows (eq f) nothing w F M w' F' M';
}.
Arguments LoopHandlerQueues {_} T {_ _ _}.

Section loop.
Context `{BytePool} `{!Env} {T : Type} `{!LLRB T} `{!HashMap ClusterNode} `{!ConnHandler T, !ConnHandlerQueues T}
  `{!LoopHandler T, !LoopHandlerQueues T} `{!MapRange} (opts : Options).
Implicit Types (w : World T) (F : cid * side -> list fid) (M : cid -> list mid).

(** One request, read and given to the handler; a message that was answered at once
    goes back to the pool. *)
Lemma request_keeps w c r err w1 out act w2 w3 :
  conn_cread opts w c = Ok (r, err, w1) -> OnCReact w1 r c = Ok (out, act, w2) ->
  match out with
  | None => w3 = w2
  | Some _ => exists s, msgPool_Put (w_store w2) r = Ok s /\ w3 = with_store w2 s
  end -> keeps w w3.
Proof.
  intros Hr Hc Ho F M Hw. destruct (conn_cread_step opts _ _ _ _ _ _ _ Hw Hr) as (Hw1 & Hg1 & Hnew).
  assert (is_Some (w_conns w1 !! c)) as Hcs.
  { eapply gr_conns; [exact Hg1|]. unfold conn_cread in Hr. bind_inv Hr. apply get_conn_inv in Ha. by exists a. }
  destruct (OnCReact_step _ _ _ _ _ _ _ _ Hw1 (fun m Hm => proj1 (Hnew m Hm)) Hcs Hc) as (F2 & M2 & Hw2 & Hg2).
  assert (forall f, body_of w1 r f -> is_Some (frags (w_store w) !! f) -> has F f) as HX.
  { intros f (m & x & slot & -> & Hx & Hf) [y Hy]. destruct (Hnew m eq_refl) as (_ & _ & Hb).
    rewrite (Hb x slot f Hx Hf) in Hy. done. }
  assert (forall m, r = Some m -> is_Some (msgs (w_store w) !! m) -> has M m \/ m ∈ pool (w_store w)) as HY.
  { intros m -> [x Hx]. destruct (Hnew m eq_refl) as (_ & [Hp|Hn] & _); [by right|congruence]. }
  destruct out as [o|].
  - destruct Ho as (s & Hs & ->). destruct r as [m|].
    + destruct (Hnew m eq_refl) as (Hrq & _ & _).
      destruct (gr_msgs _ _ _ _ _ _ _ _ Hg2 m (rq_msg _ _ _ _ Hrq)) as [x Hx].
      assert (~ (has M2 m \/ m ∈ pool (w_store w2))) as Hdet.
      { intros Hin. destruct (gr_msg _ _ _ _ _ _ _ _ Hg2 m (rq_msg _ _ _ _ Hrq) Hin) as [[Hh|Hp]|[_ ?]]; [|by apply (rq_unpooled _ _ _ _ Hrq)|done].
        by apply (rq_free _ _ _ _ Hrq). }
      destruct (recycle_ok w2 F2 M2 m x Hw2 Hx) as (s' & Hs' & Hw3 & Hg3); [by intros ?; apply Hdet; left|by intros ?; apply Hdet; right|].
      assert (s = s') as -> by congruence. exists F2, M2. split; [done|].
      assert (grows (body_of w1 (Some m)) (eq m) w1 F M (with_store w2 s') F2 M2) as Hg23.
      { eapply grows_trans; [eapply grows_weaken; [| |exact Hg2]|eapply grows_weaken; [| |exact Hg3]]; try done; naive_solver. }
      eapply grows_absorb; [exact Hg1|exact Hg23|done|]. intros k <-. by apply HY.
    + cbn in Hs. injection Hs as <-. assert (same w2 (with_store w2 (w_store w2))) as Hs by by split.
      exists F2, M2. split; [by eapply same_queues|].
      eapply grows_absorb; [exact Hg1|eapply grows_trans; [exact Hg2|by apply same_grows]|done|]. by intros m [Hm _].
  - subst w3. exists F2, M2. split; [done|]. eapply grows_absorb; [exact Hg1|exact Hg2|done|]. intros m [Hm _]. by apply HY.
Qed.

Lemma el_cread_keeps fuel w c : holds keeps w (el_cread opts fuel w c).
Proof.
  revert w. induction fuel as [|fuel IH]; intros w; cbn [el_cread]; [apply holds_OutOfFuel|].
  apply holds_pure; intros [[r err] w1] Hr.
  assert (keeps w w1) as Hk1.
  { intros F M Hw. destruct (conn_cread_step opts _ _ _ _ _ _ _ Hw Hr) as (Hw1 & Hg1 & _). by exists F, M. }
  case_if; [eapply holds_trans; [apply _|exact Hk1|queue_call]|].
  destruct err as [e|]; [eapply holds_trans; [apply _|exact Hk1|queue_call]|].
  apply holds_pure; intros [[out act] w2] Hc.
  assert (forall w3, match out with None => w3 = w2 | Some _ => exists s, msgPool_Put (w_store w2) r = Ok s /\ w3 = with_store w2 s end ->
    keeps w w3) as Hreq by (intros w3; by apply (request_keeps w c r None w1 out act w2 w3)).
  apply holds_pure; intros [err3 w3] H3.
  assert (keeps w w3) as Hk3.
  { destruct out as [o|]; [|simplify_eq; by apply Hreq]. bind_inv H3. bind_inv H3. destruct a0 as [[n e] w4]. simplify_eq.
    apply write_keeps in Ha0. cbn in Ha0. etrans; [|exact Ha0]. apply Hreq. by exists a. }
  eapply holds_trans; [apply _|exact Hk3|]. clear Hr Hk1 Hc Hreq H3 Hk3. queue.
Qed.

Lemma answer_keeps w c : holds keeps w (answer w c).
Proof. unfold answer. queue. Qed.
Hint Resolve el_cread_keeps answer_keeps : queue.

Lemma el_sread_keeps fuel w s : holds keeps w (el_sread opts fuel w s).
Proof.
  revert w. induction fuel as [|fuel IH]; intros w; cbn [el_sread]; [apply holds_OutOfFuel|].
  apply holds_pure; intros [[r err] w1] Hr.
  assert (keeps w w1) as Hk1.
  { intros F M Hw. destruct (conn_sread_taken opts _ _ _ _ _ _ _ Hw Hr) as (F' & Hw1 & Hg1 & _). by exists F', M. }
  destruct err as [e|].
  - case_if; [eapply holds_trans; [apply _|exact Hk1|apply IH]|]. case_if.
    + apply holds_pure; intros f Hf. apply holds_pure; intros x Hx. apply holds_pure; intros [addr slot] _.
      apply holds_pure; intros w2 H2. eapply holds_trans; [apply _| |apply IH]. intros F M Hw.
      destruct (conn_sread_taken opts _ _ _ _ _ _ _ Hw Hr) as (F' & Hw1 & Hg1 & Ht).
      assert (r = Some f) as -> by (unfold deref in Hf; destruct r; congruence). destruct (Ht f eq_refl) as (Hh & Hnh & Hs).
      destruct (OnMoved_step _ _ _ _ _ _ _ _ Hw1 Hnh Hs H2) as (F2 & M2 & Hw2 & Hg2). exists F2, M2. split; [done|].
      eapply grows_absorb; [exact Hg1|exact Hg2|by intros g <-|by intros ? []].
    + case_if; [eapply holds_trans; [apply _|exact Hk1|apply IH]|]. eapply holds_trans; [apply _|exact Hk1|queue_call].
  - eapply holds_trans; [apply _|exact Hk1|]. clear Hr Hk1. apply holds_pure; intros f _. apply holds_pure; intros x _.
    assert (holds keeps w1
      match f_Owner x with
      | None =>
          el_sread opts fuel (if len (w_clusterChan w1) <? 3 then with_chan w1 (w_clusterChan w1 ++ [f_RspBody x]) else w1) s
      | Some c =>
          '(answered, w) ← answer w1 c; y ← get_conn w s;
          if answered && negb (c_opened y) then Ok (None, w) else el_sread opts fuel w s
      end) as Hgo by (destruct (f_Owner x) as [c|]; [|case_if]; queue).
    destruct (f_Type x); first [exact Hgo | queue].
Qed.
Hint Resolve el_sread_keeps : queue.
Lemma el_read_keeps fuel w c : holds keeps w (el_read opts fuel w c).
Proof. unfold el_read. queue. Qed.
Hint Resolve el_read_keeps : queue.
Lemma closeAllSockets_keeps cs w : holds keeps w (closeAllSockets w cs).
Proof. revert w. induction cs as [|c cs IH]; intros w; cbn [closeAllSockets]; queue. Qed.
Lemma callback_keeps fuel w lnAddr fd i o : holds keeps w (callback opts fuel w lnAddr fd i o).
Proof. unfold callback. queue. Qed.
End loop.
#[export] Hint Resolve el_cread_keeps el_sread_keeps el_read_keeps closeAllSockets_keeps callback_keeps : queue.

(** ** Tasks *)
Section tasks.
Context `{BytePool} `{!Env} {T : Type} `{!LLRB T} `{!HashMap ClusterNode} `{!ConnHandler T, !ConnHandlerQueues T} (opts : Options).
Implicit Types (w : World T) (F : cid * side -> list fid) (M : cid -> list mid).

(** The request for the topology is a new fragment without owner. *)
Lemma writeClusterNodes_step w F M c w' :
  queues w F M -> server_conn w c -> writeClusterNodes w c = Ok w' ->
  exists F' M', queues w' F' M' /\ grows nothing nothing w F M w' F' M'.
Proof.
  intros Hw Hc Hr. unfold writeClusterNodes in Hr. bind_inv Hr. case_if_in Hr; [simplify_eq; exists F, M; split; [done|apply grows_refl]|].
  destruct (now w) as [t w1] eqn:En. assert (w_store w1 = w_store w) as Est by (unfold now in En; destruct (time_Now _); by simplify_eq).
  apply now_same in En as Hs1. apply (same_queues _ _ _ _ Hs1) in Hw as Hw1. unfold fragPool_Get in Hr. cbv zeta in Hr.
  rewrite (get_frag_Ok _ _ _ (lookup_insert_eq _ _ _)), res_bind_Ok in Hr. set (f := next_loc (w_store w1)) in *.
  set (y := set_req _ _) in Hr. unfold put_frag, with_frags in Hr. cbn [frags msgs msgId fragId pool next_loc] in Hr. rewrite insert_insert_eq in Hr.
  set (s2 := mkStore _ _ _ _ _ _) in Hr.
  assert (frags (w_store w1) !! f = None) as Hnew by (apply (so_fresh_frag _ (qu_store _ _ _ Hw1)); done).
  assert (extends nothing (w_store w1) s2) as He.
  { split; try done.
    - apply add_new_frag; [apply Hw1|done|done].
    - intros g z Hz. cbn. rewrite lookup_insert_ne; [done|]. congruence.
    - intros m Hm. by split; [|intros []].
    - intros g z Hz Hg. cbn in Hz. apply lookup_insert_Some in Hz as [[<- <-]|[Hne Hz]]; [done|congruence]. }
  destruct (extends_queues nothing nothing _ w1 F M s2 Hw1 He) as (Hw2 & Hg2 & _).
  assert (~ has F f) as Hnf.
  { intros [i Hi]. destruct (forest_elem _ _ _ i f (qu_frags _ _ _ Hw1) Hi) as [z Hz]. congruence. }
  assert (grows nothing nothing w F M (with_store w1 s2) F M) as Hg.
  { eapply grows_trans; [exact (same_grows _ _ _ _ F M Hs1)|exact Hg2]. }
  destruct (EnqueueOutFrag_step _ F M c f w' Hw2) as (F' & Hw3 & Hg3); [by eapply gr_server| |done|done|].
  { cbn. rewrite lookup_insert_eq. by eexists. }
  exists F', M. split; [done|]. eapply grows_absorb; [exact Hg|exact Hg3| |by intros ? []].
  intros g <- [z Hz]. rewrite <- Est in Hz. congruence.
Qed.

Lemma run_task_step w F M t r :
  queues w F M -> (forall c, t = TClusterNodes c -> server_conn w c) -> run_task opts w t = Ok r ->
  exists F' M', queues (to_world r) F' M' /\ grows nothing nothing w F M (to_world r) F' M'.
Proof.
  intros Hw Ht Hr.
  destruct t as [c|c d|c bs|c|c|]; cbn [run_task] in Hr.
  - by apply (handleWriteSignal_keeps opts w c r Hr F M).
  - by apply (asyncWrite_keeps w c d r Hr F M).
  - by apply (asyncWritev_keeps w c bs r Hr F M).
  - bind_inv Hr. simplify_eq. eapply writeClusterNodes_step; eauto.
  - by apply (closeConn_keeps w c None ConnEof r Hr F M).
  - simplify_eq. exists F, M. split; [done|apply grows_refl].
Qed.

(** A task is taken from one of the queues of the poller and run. *)
Lemma popped_task w ts us t r :
  (forall c, TClusterNodes c ∈ ts ++ us -> TClusterNodes c ∈ w_tasks w ++ w_urgent w) -> t ∈ w_tasks w ++ w_urgent w ->
  run_task opts (with_tasks w ts us (w_wakeup w)) t = Ok r -> keeps w (to_world r).
Proof.
  intros Hsub Ht Hr F M Hw. assert (same w (with_tasks w ts us (w_wakeup w))) as Hs by by split.
  destruct (run_task_step _ F M t r (same_queues _ _ _ _ Hs Hw)) as (F' & M' & Hw' & Hg'); [|done|].
  - intros c ->. eapply same_server, (qu_tasks _ _ _ Hw); done.
  - exists F', M'. split; [done|]. eapply grows_trans; [by apply (same_grows _ _ _ _ F M Hs)|done].
Qed.

Lemma run_urgent_keeps fuel w : holds keeps w (run_urgent opts fuel w).
Proof.
  revert w. induction fuel as [|fuel IH]; intros w; cbn [run_urgent]; [apply holds_OutOfFuel|].
  destruct (w_urgent w) as [|t us] eqn:E; [by apply holds_Ok|]. apply holds_pure; intros [err w1] H1.
  eapply holds_trans; [apply _| |case_if; [apply holds_Ok|apply IH]]; [|done].
  apply (popped_task w _ us t _) in H1; [done|rewrite E; set_solver..].
Qed.
Lemma run_async_keeps k w : holds keeps w (run_async opts k w).
Proof.
  revert w. induction k as [|k IH]; intros w; cbn [run_async]; [by apply holds_Ok|].
  destruct (w_tasks w) as [|t ts] eqn:E; [by apply holds_Ok|]. apply holds_pure; intros [err w1] H1.
  eapply holds_trans; [apply _| |case_if; [apply holds_Ok|apply IH]]; [|done].
  apply (popped_task w ts _ t _) in H1; [done|rewrite E; set_solver..].
Qed.
Hint Resolve run_urgent_keeps run_async_keeps : queue.
Lemma chores_keeps max fuel w : holds keeps w (chores opts max fuel w).
Proof.
  unfold chores. queue; apply same_keeps; split; try done; cbn in *; intros c;
    repeat match goal with E : w_tasks _ = _ |- _ => rewrite E; clear E | E : w_urgent _ = _ |- _ => rewrite E; clear E end; done.
Qed.
End tasks.
#[export] Hint Resolve chores_keeps : queue.

(** ** The proxy's handler *)

(** Pools keep the connections in their nodes. *)
Lemma pushFront_conns l h pc l' h' k : pushFront l h pc = Ok (l', h') -> pc_c <$> h' !! k = pc_c <$> h !! k.
Proof.
  rewrite pushFront_queue. intros Hp. bind_inv Hp. destruct a as [q h1]. simplify_eq.
  by apply (queue_step_proj pc_c ltac:(done) ltac:(done)) with (o := QPushTail pc) (l := as_queue l) (l' := q).
Qed.
Lemma popBack_conns l h l' h' k : al_count l <> 0 -> popBack l h = Ok (l', h') -> pc_c <$> h' !! k = pc_c <$> h !! k.
Proof.
  intros Hc. rewrite popBack_queue by done. intros Hp. bind_inv Hp. destruct a as [q h1]. simplify_eq.
  by apply (queue_step_proj pc_c ltac:(done) ltac:(done)) with (o := QPopHead) (l := as_queue l) (l' := q).
Qed.

Section server.
Context `{BytePool} `{!Env} {T : Type} `{!LLRB T} `{!HashMap ClusterNode} `{!HashMap unit} `{!MapRange}
  (opts : Options) (IpMap : ipMap).
Implicit Types (w : World T) (F : cid * side -> list fid) (M : cid -> list mid).

Lemma drop_frags_empties fuel w F M s w' :
  queues w F M -> drop_frags fuel w s = Ok w' ->
  exists F' M', queues w' F' M' /\ grows nothing nothing w F M w' F' M' /\ F' (s, Waiting) = [].
Proof.
  revert w F. induction fuel as [|fuel IH]; intros w F Hw Hd; cbn [drop_frags] in Hd; [done|]. bind_inv Hd. destruct a as [fr w1].
  destruct (DequeueInFrag_step _ _ _ _ _ _ Hw Ha) as (Hf & Hw1 & Hg1). set (F1 := upd _ _ _) in *.
  assert (drop_frags fuel w1 s = Ok w' -> exists F' M', queues w' F' M' /\ grows nothing nothing w F M w' F' M' /\ F' (s, Waiting) = []) as Hgo.
  { intros Hd'. destruct (IH _ _ Hw1 Hd') as (F2 & M2 & Hw2 & Hg2 & Hn2). exists F2, M2. split_and!; [done|by eapply grows_trans|done]. }
  destruct fr as [f|].
  - bind_inv Hd. destruct (f_Owner a); [|by apply Hgo]. bind_inv Hd. case_if_in Hd; [by apply Hgo|]. bind_inv Hd. bind_inv Hd. by apply Hgo.
  - simplify_eq. exists F1, M. split_and!; [done..|]. subst F1. rewrite upd_eq. by destruct (F (s, Waiting)).
Qed.

#[export] Instance server_ConnHandlerQueues : @ConnHandlerQueues _ T _ _ (server_ConnHandler opts IpMap).
Proof.
  split; cbn.
  - intros w c. unfold server_OnCOpened. queue.
  - intros w c. unfold server_OnSOpened. queue.
  - intros w c err. unfold server_OnCClosed. queue.
  - intros w c err w' F M Hw Hc. unfold server_OnSClosed in Hc. bind_inv Hc. bind_inv Hc. by eapply drop_frags_empties.
Qed.

(** *** Pools of server connections *)
Definition nodes_ok w (p : Pool) : Prop := forall n x, p_nodes p !! n = Some x -> server_conn w (pc_c x).

Lemma nodes_ok_proj w (p p' : Pool) :
  nodes_ok w p -> (forall k, pc_c <$> p_nodes p' !! k = pc_c <$> p_nodes p !! k) -> nodes_ok w p'.
Proof.
  intros Hp Hk n x Hx. specialize (Hk n). rewrite Hx in Hk. destruct (p_nodes p !! n) as [y|] eqn:E; [|done].
  apply (inj Some) in Hk. rewrite Hk. by apply (Hp n).
Qed.
Lemma nodes_ok_grows X Y w F M w' F' M' p : grows X Y w F M w' F' M' -> nodes_ok w p -> nodes_ok w' p.
Proof. intros Hg Hp n x Hx. eapply gr_server; [exact Hg|by eapply Hp]. Qed.
Lemma pool_nodes w F M addr p : queues w F M -> w_ProxyPool w !! addr = Some p -> nodes_ok w p.
Proof. intros Hw Hp n x Hx. apply (qu_pools _ _ _ Hw). by exists addr, p, n, x. Qed.

Lemma with_pools_queues X Y w F M addr p :
  queues w F M -> nodes_ok w p ->
  queues (with_pools w (<[addr := p]> (w_ProxyPool w))) F M /\ grows X Y w F M (with_pools w (<[addr := p]> (w_ProxyPool w))) F M.
Proof.
  intros [Hst Hf Hm Hfree Hn Ho Hsv Hno Htm Htk Hpl] Hp. split.
  - split; try done. intros c (a & p' & n & x & Ha & Hx & <-). cbn in Ha.
    apply lookup_insert_Some in Ha as [[<- <-]|[Hne Ha]]; [by apply (Hp n)|]. apply Hpl. by exists a, p', n, x.
  - split; try done; [by left|by left|by intros f y Hy; exists y|by intros c x Hx; exists x; auto].
Qed.

(** A pool that is in the table is put back with the same nodes, or removed. *)
Lemma put_pool_same w addr p p' :
  w_ProxyPool w !! addr = Some p -> p_nodes p' = p_nodes p -> same w (with_pools w (<[addr := p']> (w_ProxyPool w))).
Proof.
  intros Hp Hn. split; try done. intros c (a & q & n & x & Ha & Hx & <-). cbn in Ha.
  apply lookup_insert_Some in Ha as [[<- <-]|[Hne Ha]]; [|by exists a, q, n, x]. exists addr, p, n, x. by rewrite <- Hn.
Qed.
Lemma delete_pool_same w addr : same w (with_pools w (delete addr (w_ProxyPool w))).
Proof.
  split; try done. intros c (a & q & n & x & Ha & Hx & <-). cbn in Ha. apply lookup_delete_Some in Ha as [_ Ha]. by exists a, q, n, x.
Qed.

Lemma Get_loop_ok fuel w p r p' :
  nodes_ok w p -> Get_loop IsOpened fuel p w = Ok (r, p') ->
  nodes_ok w p' /\ forall c, r = Some c -> server_conn w c.
Proof.
  revert p. induction fuel as [|fuel IH]; intros p Hp Hg; cbn [Get_loop] in Hg; [done|]. case_if_in Hg; [by simplify_eq|].
  bind_inv Hg. bind_inv Hg. destruct a0 as [l h].
  assert (forall k, pc_c <$> h !! k = pc_c <$> p_nodes p !! k) as Hk by (intros k; eapply popBack_conns; [|done]; lia).
  assert (nodes_ok w (with_active p l h)) as Hp1 by (by eapply nodes_ok_proj).
  destruct (h !! a) as [x|] eqn:Ex; [|done]. case_if_in Hg; [by eapply IH|]. bind_inv Hg. destruct a0 as [l2 h2]. simplify_eq. split.
  - eapply nodes_ok_proj; [exact Hp1|]. intros k. by eapply pushFront_conns.
  - intros c [= <-]. by apply (Hp1 a).
Qed.

Lemma add_conn_ok w p c p' : nodes_ok w p -> server_conn w c -> add_conn p c = Ok p' -> nodes_ok w p'.
Proof.
  intros Hp Hc Ha. unfold add_conn in Ha. bind_inv Ha. destruct a as [l h]. simplify_eq. intros n x Hx. cbn in Hx.
  pose proof (pushFront_conns _ _ _ _ _ n Ha0) as Hk. rewrite Hx in Hk. cbn in Hk.
  destruct (decide (n = p_next p)) as [->|]; [rewrite lookup_insert_eq in Hk; cbn in Hk; by simplify_eq/=|].
  rewrite lookup_insert_ne in Hk by done. destruct (p_nodes p !! n) as [y|] eqn:E; [|done]. apply (inj Some) in Hk. rewrite Hk. by apply (Hp n).
Qed.

(** What a call that may dial leaves behind: the connection it returns is one to a
    server. *)
Definition served w F M (r : option cid) (p : Pool) w' : Prop :=
  exists F' M', queues w' F' M' /\ grows nothing nothing w F M w' F' M' /\ nodes_ok w' p /\ forall c, r = Some c -> server_conn w' c.

Lemma dial_front_served w F M p r p' w' :
  queues w F M -> nodes_ok w p -> dial_front (server_Dial opts IpMap) p w = Ok (r, p', w') -> served w F M r p' w'.
Proof.
  intros Hw Hp Hd. unfold dial_front in Hd. bind_inv Hd. destruct a as [x w1].
  destruct (@Dial_step _ _ T _ _ (server_ConnHandler opts IpMap) _ _ _ _ _ _ _ Ha) as [Hk Hs].
  destruct (Hk F M Hw) as (F1 & M1 & Hw1 & Hg1). destruct x as [c|e].
  - bind_inv Hd. simplify_eq. exists F1, M1. split_and!; [done..| |intros d [= <-]; by eapply Hs].
    eapply add_conn_ok; [|by eapply Hs|done]. by eapply nodes_ok_grows.
  - simplify_eq. exists F1, M1. split_and!; [done..|by eapply nodes_ok_grows|done].
Qed.

Lemma pool_Get_served w F M addr p r p' w' :
  queues w F M -> nodes_ok w p -> pool_Get opts IpMap w addr p = Ok (r, p', w') -> served w F M r p' w'.
Proof.
  intros Hw Hp Hg. unfold pool_Get in Hg. bind_inv Hg. destruct a as [[c p1] w1]. simplify_eq.
  assert (served w F M r p' w1) as (F1 & M1 & Hw1 & Hg1 & Hp1 & Hc1).
  { unfold Pool.Get in Ha. case_if_in Ha; [simplify_eq; exists F, M; split_and!; [done|apply grows_refl|done|done]|].
    case_if_in Ha; [by eapply dial_front_served|]. bind_inv Ha. destruct a as [r1 p1].
    destruct (Get_loop_ok _ _ _ _ _ Hp Ha0) as [Hp1 Hr1]. destruct r1 as [c|]; [|by eapply dial_front_served].
    simplify_eq. exists F, M. split_and!; [done|apply grows_refl|done|done]. }
  destruct (with_pools_queues nothing nothing w1 F1 M1 addr p' Hw1 Hp1) as [Hw2 Hg2].
  exists F1, M1. split_and!; [done|by eapply grows_trans|by eapply nodes_ok_grows|].
  intros d Hd. eapply gr_server; [exact Hg2|by apply Hc1].
Qed.

(** *** Routing *)
Lemma now_pools w t w' : now w = (t, w') -> w_ProxyPool w' = w_ProxyPool w.
Proof. unfold now. destruct (time_Now _). by intros [= <- <-]. Qed.

Lemma live_slave_same w slaves : holds same w (live_slave w slaves).
Proof.
  revert w. induction slaves as [|v slaves IH]; intros w; cbn [live_slave]; [by apply holds_Ok|].
  destruct (w_ProxyPool w !! n_Addr v) as [p|] eqn:Ep; [|apply IH]. apply holds_pure; intros [skip w1] Hb.
  assert (same w w1 /\ w_ProxyPool w1 = w_ProxyPool w) as [Hs1 Hp1].
  { case_if_in Hb; [|by simplify_eq]. destruct (now w) as [t w2] eqn:En.
    assert (w1 = w2) as -> by (case_if_in Hb; by simplify_eq). split; [by eapply now_same|by eapply now_pools]. }
  case_if; [by eapply holds_trans; [apply _|exact Hs1|apply IH]|].
  destruct (rand_Intn _ _) as [e i]. apply holds_pure; intros addr _. apply holds_Ok. cbn.
  etrans; [exact Hs1|]. rewrite <- Hp1 in Ep.
  etrans; [eapply (put_pool_same w1 _ _ (with_ban p (p_LiftBanOrder p) (p_LiftBanTime p) false) Ep); done|]. by split.
Qed.
Hint Resolve live_slave_same : queue.
Lemma route_same w r slot : holds same w (route opts w r slot).
Proof. unfold route. queue. Qed.

(** The connection for a fragment is one to a server. *)
Lemma getConn_step w F M r slot res b addr w' :
  queues w F M -> getConn opts IpMap w r slot = Ok (res, b, addr, w') ->
  exists F' M', queues w' F' M' /\ grows nothing nothing w F M w' F' M' /\ forall c, res = inl c -> server_conn w' c.
Proof.
  intros Hw Hr. unfold getConn in Hr. bind_inv Hr. destruct a as [[adr sl] w1]. apply route_same in Ha. cbn in Ha.
  apply (same_queues _ _ _ _ Ha) in Hw as Hw1. pose proof (same_grows nothing nothing _ _ F M Ha) as Hg1.
  case_if_in Hr; [simplify_eq; by exists F, M|]. destruct (w_ProxyPool w1 !! adr) as [p|] eqn:Ep; [|simplify_eq; by exists F, M].
  bind_inv Hr. destruct a as [[c p2] w2].
  destruct (pool_Get_served _ _ _ _ _ _ _ _ Hw1 (pool_nodes _ _ _ _ _ Hw1 Ep) Ha0) as (F2 & M2 & Hw2 & Hg2 & Hp2 & Hc2).
  assert (forall w3 p3, same w2 w3 -> p_nodes p3 = p_nodes p2 ->
    exists F' M', queues (with_pools w3 (<[adr := p3]> (w_ProxyPool w3))) F' M' /\
      grows nothing nothing w F M (with_pools w3 (<[adr := p3]> (w_ProxyPool w3))) F' M' /\
      forall c, server_conn w2 c -> server_conn (with_pools w3 (<[adr := p3]> (w_ProxyPool w3))) c) as Hput.
  { intros w3 p3 Hs3 Hn3. pose proof (same_grows nothing nothing _ _ F2 M2 Hs3) as Hg3.
    destruct (with_pools_queues nothing nothing w3 F2 M2 adr p3) as [Hw4 Hg4]; [by eapply same_queues| |].
    - intros n x Hx. rewrite Hn3 in Hx. eapply same_server; [exact Hs3|by apply (Hp2 n)].
    - exists F2, M2. split_and!; [done| |intros d Hd; eapply gr_server; [exact Hg4|by eapply same_server]].
      eapply grows_trans; [exact Hg1|]. eapply grows_trans; [exact Hg2|]. by eapply grows_trans. }
  destruct c as [c|].
  - simplify_eq. destruct (Hput w2 (with_ban p2 0 (p_LiftBanTime p2) (p_AutoBanFlag p2))) as (F3 & M3 & Hw3 & Hg3 & Hs3); [done..|].
    exists F3, M3. split_and!; [done..|]. intros d [= <-]. by apply Hs3, Hc2.
  - destruct (now w2) as [t w3] eqn:En. simplify_eq. apply now_same in En.
    match goal with |- context [<[addr := ?p]> _] => destruct (Hput w3 p) as (F3 & M3 & Hw3 & Hg3 & Hs3); [done..|] end.
    by exists F3, M3.
Qed.

(** *** Requests *)

(** A fragment of a message that is in no queue. *)
Definition detached w F (f : fid) : Prop := ~ has F f /\ exists y, frags (w_store w) !! f = Some y /\ is_Some (f_Peer y).

Lemma detached_grows X Y w F M w' F' M' f : grows X Y w F M w' F' M' -> ~ X f -> detached w F f -> detached w' F' f.
Proof.
  intros Hg HX [Hn (y & Hy & Hp)]. split.
  - intros Hh. by destruct (gr_frag _ _ _ _ _ _ _ _ Hg f (mk_is_Some _ _ Hy) Hh).
  - destruct (gr_peer _ _ _ _ _ _ _ _ Hg f y Hy) as (z & Hz & Hpz). exists z. by rewrite Hpz.
Qed.

Lemma set_owner_queues X Y w F M f y c :
  queues w F M -> frags (w_store w) !! f = Some y -> detached w F f -> is_Some (w_conns w !! c) ->
  queues (with_store w (put_frag (w_store w) f (set_owner y c))) F M /\
  grows X Y w F M (with_store w (put_frag (w_store w) f (set_owner y c))) F M.
Proof.
  intros Hw Hy [Hn (y' & Hy' & Hp)] Hc. simplify_eq.
  destruct (put_frag_queues X Y w F M f y (set_owner y c) (w_timeouts w) Hw Hy) as [Hw1 Hg1]; [done|done|by intros o [= <-]| |].
  - intros k g Hin. left. split; [|done]. intros ->. by apply (detached_timeout w F M k f).
  - assert (same (with_timeouts (with_store w (put_frag (w_store w) f (set_owner y c))) (w_timeouts w))
      (with_store w (put_frag (w_store w) f (set_owner y c)))) as Hs by by split.
    split; [by eapply same_queues|]. eapply grows_trans; [exact Hg1|by apply same_grows].
Qed.

Lemma send_frag_step w F M msg slot f c out w' :
  queues w F M -> detached w F f -> is_Some (w_conns w !! c) -> send_frag opts IpMap w msg slot f c = Ok (out, w') ->
  exists F' M', queues w' F' M' /\ grows (eq f) nothing w F M w' F' M'.
Proof.
  intros Hw Hd Hc Hr. unfold send_frag in Hr. bind_inv Hr. case_if_in Hr; [simplify_eq; exists F, M; split; [done|apply grows_refl]|].
  bind_inv Hr. destruct a0 as [[[r retry] adr] w1]. destruct (getConn_step _ _ _ _ _ _ _ _ _ Hw Ha0) as (F1 & M1 & Hw1 & Hg1 & Hs1).
  bind_inv Hr. destruct a0 as [r2 w2].
  assert (exists F2 M2, queues w2 F2 M2 /\ grows nothing nothing w F M w2 F2 M2 /\ forall s, r2 = inl s -> server_conn w2 s)
    as (F2 & M2 & Hw2 & Hg2 & Hs2).
  { destruct r as [s|e]; [simplify_eq; by exists F1, M1|]. case_if_in Ha1; [|simplify_eq; by exists F1, M1].
    bind_inv Ha1. destruct a0 as [[[r3 b3] ad3] w3]. simplify_eq.
    destruct (getConn_step _ _ _ _ _ _ _ _ _ Hw1 Ha2) as (F3 & M3 & Hw3 & Hg3 & Hs3). exists F3, M3.
    split_and!; [done|by eapply grows_trans|done]. }
  assert (grows (eq f) nothing w F M w2 F2 M2) as Hg2' by (eapply grows_weaken; [| |exact Hg2]; by intros ? []).
  destruct r2 as [s|e]; [|simplify_eq; by exists F2, M2]. bind_inv Hr. apply get_frag_inv in Ha2. rename a0 into y. bind_inv Hr. simplify_eq.
  assert (detached w2 F2 f) as Hd2 by (eapply detached_grows; [exact Hg2|by intros []|done]).
  destruct (set_owner_queues nothing nothing w2 F2 M2 f y c Hw2 Ha2 Hd2) as [Hw3 Hg3]; [by eapply gr_conns|].
  destruct (EnqueueOutFrag_step _ F2 M2 s f w' Hw3) as (F4 & Hw4 & Hg4); [| |apply Hd2|done|].
  - eapply gr_server; [exact Hg3|by apply Hs2].
  - cbn. rewrite lookup_insert_eq. by eexists.
  - exists F4, M2. split; [done|]. eapply grows_trans; [exact Hg2'|]. eapply grows_trans; [|exact Hg4].
    eapply grows_weaken; [| |exact Hg3]; by intros ? [].
Qed.

Lemma send_frags_step w F M msg fs c out w' :
  queues w F M -> NoDup fs.*2 -> (forall f, f ∈ fs.*2 -> detached w F f) -> is_Some (w_conns w !! c) ->
  send_frags opts IpMap w msg fs c = Ok (out, w') ->
  exists F' M', queues w' F' M' /\ grows (fun f => f ∈ fs.*2) nothing w F M w' F' M'.
Proof.
  revert w F M. induction fs as [|[slot f] fs IH]; intros w F M Hw Hnd Hd Hc Hr; cbn [send_frags] in Hr.
  { simplify_eq. exists F, M. split; [done|apply grows_refl]. }
  cbn in Hnd. apply NoDup_cons in Hnd as [Hnin Hnd].
  assert (('(out, w) ← send_frag opts IpMap w msg slot f c;
    match out with Some o => Ok (Some o, w) | None => send_frags opts IpMap w msg fs c end) = Ok (out, w') ->
    exists F' M', queues w' F' M' /\ grows (fun g => g ∈ ((slot, f) :: fs).*2) nothing w F M w' F' M') as Hgo.
  { intros Hs. bind_inv Hs. destruct a as [o w1].
    destruct (send_frag_step _ _ _ _ _ _ _ _ _ Hw (Hd f ltac:(left)) Hc Ha) as (F1 & M1 & Hw1 & Hg1).
    assert (grows (fun g => g ∈ ((slot, f) :: fs).*2) nothing w F M w1 F1 M1) as Hg1'.
    { eapply grows_weaken; [| |exact Hg1]; [intros g <-; left|done]. }
    destruct o as [o|]; [simplify_eq; by exists F1, M1|].
    destruct (IH w1 F1 M1 Hw1 Hnd) as (F2 & M2 & Hw2 & Hg2); [|by eapply gr_conns|done|].
    - intros g Hg. eapply detached_grows; [exact Hg1|by intros <-|]. apply Hd. by right.
    - exists F2, M2. split; [done|]. eapply grows_trans; [exact Hg1'|]. eapply grows_weaken; [| |exact Hg2]; [|done].
      intros g Hg. by right. }
  destruct (m_Type msg); first [exact (Hgo Hr) | idtac].
  bind_inv Hr. assert (w' = w) as -> by (repeat case_if_in Hr; by simplify_eq). exists F, M. split; [done|apply grows_refl].
Qed.

Lemma EnqueueInMsg_step w F M c m w' :
  queues w F M -> is_Some (msgs (w_store w) !! m) -> ~ has M m -> m ∉ pool (w_store w) -> EnqueueInMsg w c m = Ok w' ->
  exists M', queues w' F M' /\ grows nothing (eq m) w F M w' F M'.
Proof.
  intros Hw [y Hy] Hn Hp He. pose proof He as Ho. unfold EnqueueInMsg in Ho. bind_inv Ho. apply get_conn_inv in Ha. bind_inv Ho.
  unfold the_queue in Ha0. destruct (c_inMsgQueue a) as [q|] eqn:Eq; [|done].
  destruct (EnqueueInMsg_ok w F M c a q m y Hw Ha Eq Hy Hn Hp) as (w2 & Hw2 & Hq & Hg). assert (w' = w2) as -> by congruence. by eexists.
Qed.

(** The fragments of a decoded request are different and detached. *)
Lemma request_frags w F M m msg :
  queues w F M -> request w F M m -> msgs (w_store w) !! m = Some msg ->
  NoDup (range (m_Body msg)).*2 /\ forall f, f ∈ (range (m_Body msg)).*2 ->
    detached w F f /\ exists slot, m_Body msg !! slot = Some f.
Proof.
  intros Hw Hr Hm. split.
  - rewrite range_perm. apply NoDup_fmap_2_strong; [|apply NoDup_map_to_list]. intros [i f] [j g] Hi%elem_of_map_to_list Hj%elem_of_map_to_list Heq.
    cbn in Heq. subst g. by rewrite (so_body_inj _ (qu_store _ _ _ Hw) m msg i j f Hm Hi Hj).
  - intros f Hin. rewrite range_perm in Hin. apply list_elem_of_fmap in Hin as ([slot g] & -> & Hf%elem_of_map_to_list). split; [|by exists slot]. split; [by eapply rq_frags|].
    destruct (so_body _ (qu_store _ _ _ Hw) m msg slot g Hm Hf) as (y & Hy & Hp). exists y. by rewrite Hp.
Qed.

Lemma server_OnCReact_step w r c out act w' F M :
  queues w F M -> (forall m, r = Some m -> request w F M m) -> is_Some (w_conns w !! c) ->
  server_OnCReact opts IpMap w r c = Ok (out, act, w') ->
  exists F' M', queues w' F' M' /\ grows (body_of w r) (fun m => r = Some m /\ out = None) w F M w' F' M'.
Proof.
  intros Hw Hrq Hc Hr. unfold server_OnCReact in Hr. bind_inv Hr. unfold deref in Ha. destruct r as [m|]; [|done]. injection Ha as ->.
  rename a into m. specialize (Hrq m eq_refl). bind_inv Hr. apply get_msg_inv in Ha. rename a into msg.
  destruct (request_frags _ _ _ _ _ Hw Hrq Ha) as [Hnd Hdet].
  assert (('(out, w) ← send_frags opts IpMap w msg (range (m_Body msg)) c;
     match out with
     | Some o => Ok (Some o, ActNone, w)
     | None => w ← EnqueueInMsg w c m; Ok (None, ActNone, w)
     end) = Ok (out, act, w') ->
    exists F' M', queues w' F' M' /\ grows (body_of w (Some m)) (fun k => Some m = Some k /\ out = None) w F M w' F' M') as Hgo.
  { intros Hs. bind_inv Hs. destruct a as [o w1].
    destruct (send_frags_step _ _ _ _ _ _ _ _ Hw Hnd (fun f Hf => proj1 (Hdet f Hf)) Hc Ha0) as (F1 & M1 & Hw1 & Hg1).
    assert (forall Y : mid -> Prop, grows (body_of w (Some m)) Y w F M w1 F1 M1) as Hg1'.
    { intros Y. eapply grows_weaken; [| |exact Hg1]; [|by intros ? []]. intros f Hf. destruct (Hdet f Hf) as [_ [slot Hs1]].
      by exists m, msg, slot. }
    destruct o as [o|]; [simplify_eq; exists F1, M1; auto|]. bind_inv Hs. simplify_eq.
    assert (~ (has M1 m \/ m ∈ pool (w_store w1))) as Hnm.
    { intros Hin. destruct (gr_msg _ _ _ _ _ _ _ _ Hg1 m (rq_msg _ _ _ _ Hrq) Hin) as [[Hh|Hh]|[]];
        [by apply (rq_free _ _ _ _ Hrq)|by apply (rq_unpooled _ _ _ _ Hrq)]. }
    destruct (EnqueueInMsg_step w1 F1 M1 c m w' Hw1) as (M2 & Hw2 & Hg2);
      [apply (gr_msgs _ _ _ _ _ _ _ _ Hg1), Hrq|by intros ?; apply Hnm; left|by intros ?; apply Hnm; right|done|].
    exists F1, M2. split; [done|]. eapply grows_trans; [apply Hg1'|]. eapply grows_weaken; [| |exact Hg2]; [by intros ? []|].
    by intros k <-. }
  case_if_in Hr; [simplify_eq; exists F, M; split; [done|apply grows_refl]|].
  destruct (m_Type msg); first [exact (Hgo Hr) | simplify_eq; exists F, M; split; [done|apply grows_refl]].
Qed.

Lemma server_OnMoved_step w addr slot s f w' F M :
  queues w F M -> ~ has F f -> is_Some (frags (w_store w) !! f) -> server_OnMoved opts IpMap w addr slot s f = Ok w' ->
  exists F' M', queues w' F' M' /\ grows (eq f) nothing w F M w' F' M'.
Proof.
  intros Hw Hn Hs Hr. unfold server_OnMoved in Hr. bind_inv Hr. rename a into x. cbv zeta in Hr.
  set (w1 := with_store w _) in Hr. assert (same w w1) as Hs1 by (subst w1; solve_same).
  apply (same_queues _ _ _ _ Hs1) in Hw as Hw1. pose proof (same_grows nothing nothing _ _ F M Hs1) as Hg1.
  assert (forall w' F' M', grows nothing nothing w F M w' F' M' -> grows (eq f) nothing w F M w' F' M') as Hwk.
  { intros v F' M' Hg. eapply grows_weaken; [| |exact Hg]; by intros ? []. }
  destruct (w_ProxyPool w1 !! addr) as [p|] eqn:Ep; [|simplify_eq; exists F, M; auto]. bind_inv Hr. destruct a as [[c p2] w2].
  destruct (pool_Get_served _ _ _ _ _ _ _ _ Hw1 (pool_nodes _ _ _ _ _ Hw1 Ep) Ha0) as (F2 & M2 & Hw2 & Hg2 & Hp2 & Hc2).
  pose proof (grows_trans _ _ _ _ _ _ _ _ _ _ _ Hg1 Hg2) as Hg12. destruct c as [sc|]; [|simplify_eq; exists F2, M2; auto].
  bind_inv Hr. bind_inv Hr. bind_inv Hr. rename a1 into m. bind_inv Hr. rename a1 into msg. apply get_msg_inv in Ha4.
  destruct (m_Fd2Slot msg) as [h|]; [|done]. set (w3 := with_store w2 _) in Hr.
  assert (same w2 w3) as Hs3 by (subst w3; split; try done; cbn; by eapply spine_put).
  apply (same_queues _ _ _ _ Hs3) in Hw2 as Hw3. pose proof (same_grows nothing nothing _ _ F2 M2 Hs3) as Hg3.
  pose proof (grows_trans _ _ _ _ _ _ _ _ _ _ _ Hg12 Hg3) as Hg13.
  destruct (EnqueueOutFrag_step w3 F2 M2 sc f w' Hw3) as (F4 & Hw4 & Hg4); [| | |done|].
  - eapply gr_server; [exact Hg3|by apply Hc2].
  - destruct Hs as [y Hy]. destruct (gr_peer _ _ _ _ _ _ _ _ Hg13 f y Hy) as (z & Hz & _). by exists z.
  - intros Hh. by destruct (gr_frag _ _ _ _ _ _ _ _ Hg13 f Hs Hh).
  - exists F4, M2. split; [done|]. eapply grows_trans; [by apply Hwk|exact Hg4].
Qed.

#[export] Instance server_LoopHandlerQueues : @LoopHandlerQueues _ T _ _ (server_LoopHandler opts IpMap).
Proof. split; intros; cbn in *; [by eapply server_OnCReact_step|by eapply server_OnMoved_step]. Qed.

(** *** The ticker *)
Lemma server_OnTicker_keeps w : holds keeps w (server_OnTicker opts IpMap w).
Proof.
  intros w' Hr F M Hw. unfold server_OnTicker in Hr. case_if_in Hr; [simplify_eq; exists F, M; split; [done|apply grows_refl]|].
  destruct (rand_Intn _ _) as [e i]. bind_inv Hr. set (w1 := with_env w e) in *. assert (same w w1) as Hs1 by (subst w1; solve_same).
  apply (same_queues _ _ _ _ Hs1) in Hw as Hw1. pose proof (same_grows nothing nothing _ _ F M Hs1) as Hg1.
  destruct (w_ProxyPool w1 !! a) as [p|] eqn:Ep; [|simplify_eq; by exists F, M]. bind_inv Hr. destruct a0 as [[c p2] w2].
  destruct (pool_Get_served _ _ _ _ _ _ _ _ Hw1 (pool_nodes _ _ _ _ _ Hw1 Ep) Ha0) as (F2 & M2 & Hw2 & Hg2 & Hp2 & Hc2).
  pose proof (grows_trans _ _ _ _ _ _ _ _ _ _ _ Hg1 Hg2) as Hg12. destruct c as [sc|]; simplify_eq; [|by exists F2, M2].
  unfold WriteClusterNodes, Trigger. set (w3 := with_tasks w2 _ _ _). cbn.
  assert (queues w3 F2 M2 /\ grows nothing nothing w2 F2 M2 w3 F2 M2) as [Hw3 Hg3].
  { split.
    - destruct Hw2. split; try done. intros d. cbn. rewrite !elem_of_app, list_elem_of_singleton. intros [[Hd|[= ->]]|Hd];
        [apply qu_tasks; set_solver|by apply Hc2|apply qu_tasks; set_solver].
    - split; try done; [by left|by left|by intros f y Hy; exists y|by intros d x Hx; exists x; auto]. }
  pose proof (wake_up_same w3) as Hs4. exists F2, M2. split; [by eapply same_queues|]. eapply grows_trans; [exact Hg12|].
  eapply grows_trans; [exact Hg3|by apply same_grows].
Qed.

(** Closing the connections of a pool only queues tasks, and the nodes stay. *)
Notation close_task := (fun w c => Ok (Close w c).2).
Lemma close_from_same fuel h pc w : holds same w (close_from close_task fuel h pc w).
Proof. revert w pc. induction fuel as [|fuel IH]; intros w [n|]; cbn [close_from]; queue. Qed.
Lemma Release_same p w p' w' : Release close_task p w = Ok (p', w') -> same w w' /\ p_nodes p' = p_nodes p.
Proof.
  intros Hr. unfold Release in Hr. case_if_in Hr; [by simplify_eq|]. bind_inv Hr. apply close_from_same in Ha. by simplify_eq.
Qed.
Lemma pool_Close_same p w p' w' : Pool.Close close_task p w = Ok (p', w') -> same w w'.
Proof.
  intros Hr. unfold Pool.Close in Hr. case_if_in Hr; [by simplify_eq|]. bind_inv Hr. destruct a as [p1 w1].
  apply Release_same in Ha as [Hs _]. by simplify_eq.
Qed.
Lemma SetIsSlave_same p b w p' w' : SetIsSlave close_task p b w = Ok (p', w') -> same w w' /\ p_nodes p' = p_nodes p.
Proof. intros Hr. unfold SetIsSlave in Hr. case_if_in Hr; [by apply Release_same in Hr|by simplify_eq]. Qed.

Lemma Close_pools w c : w_ProxyPool (Close w c).2 = w_ProxyPool w.
Proof. unfold Close, Trigger, wake_up. cbn. case_match; [done|]. by destruct (wake _). Qed.
Lemma close_from_pools fuel h pc w w' : close_from close_task fuel h pc w = Ok w' -> w_ProxyPool w' = w_ProxyPool w.
Proof.
  revert w pc. induction fuel as [|fuel IH]; intros w [n|] Hr; cbn [close_from] in Hr; [done|by simplify_eq| |by simplify_eq].
  destruct (h !! n) as [x|]; [|done]. rewrite res_bind_Ok in Hr. by rewrite (IH _ _ Hr), Close_pools.
Qed.
Lemma SetIsSlave_pools p b w p' w' : SetIsSlave close_task p b w = Ok (p', w') -> w_ProxyPool w' = w_ProxyPool w.
Proof.
  intros Hr. unfold SetIsSlave, Release in Hr. repeat case_if_in Hr; try by simplify_eq. bind_inv Hr.
  apply close_from_pools in Ha. by simplify_eq.
Qed.

Lemma remove_pools_same w ks : holds same w (remove_pools w ks).
Proof.
  revert w. induction ks as [|k ks IH]; intros w; cbn [remove_pools]; [by apply holds_Ok|].
  destruct (hm_Get _ _); [apply IH|]. destruct (w_ProxyPool w !! k) as [v|]; [|apply IH].
  apply holds_pure; intros [p1 w1] Hc. eapply holds_trans; [apply _| |apply IH].
  etrans; [by eapply pool_Close_same|apply delete_pool_same].
Qed.
Lemma add_pools_keeps w kvs : holds keeps w (add_pools opts w kvs).
Proof.
  revert w. induction kvs as [|[k v] kvs IH]; intros w; cbn [add_pools]; [by apply holds_Ok|].
  destruct (w_ProxyPool w !! k) as [p|] eqn:Ep.
  - apply holds_pure; intros [p1 w1] Hs. apply SetIsSlave_pools in Hs as Hp. apply SetIsSlave_same in Hs as [Hs Hn].
    eapply holds_trans; [apply _| |apply IH]. apply same_keeps. etrans; [exact Hs|]. eapply put_pool_same; [by rewrite Hp|done].
  - eapply holds_trans; [apply _| |apply IH]. intros F M Hw. exists F, M. apply with_pools_queues; [done|].
    intros n x Hx. cbn in Hx. by rewrite lookup_empty in Hx.
Qed.
Hint Resolve remove_pools_same add_pools_keeps server_OnTicker_keeps : queue.
Lemma ticker_keeps order w : holds keeps w (ticker opts IpMap order w).
Proof. unfold ticker. queue. Qed.
Hint Resolve ticker_keeps : queue.

Context (order : gmap bytes Pool -> list bytes) (fuel : nat).

Lemma server_chores_keeps max w : holds keeps w (@chores _ _ T _ _ (server_ConnHandler opts IpMap) opts max fuel w).
Proof. apply chores_keeps. Qed.
Hint Resolve server_chores_keeps : queue.

(** Any polling loop whose dispatch keeps the queues. *)
Section any_poller.
Context {E : Type} (lim : PollLimits) (dispatch : World T -> E -> option (res (option error * World T))).
Hypothesis dispatch_keeps : forall w ev r, dispatch w ev = Some r -> holds keeps w r.

Lemma run_events_keeps w evs b : holds keeps w (run_events dispatch w evs b).
Proof.
  revert w b. induction evs as [|ev evs IH]; intros w b; cbn [run_events]; [by apply holds_Ok|].
  destruct (dispatch w ev) as [r|] eqn:Ed; [|apply IH].
  eapply (holds_bind keeps); [by eapply dispatch_keeps|]. intros [err w1]. case_if; [by apply holds_Ok|apply IH].
Qed.
Hint Resolve run_events_keeps : queue.
Lemma poll_round_keeps w size b x : holds keeps w (poll_round opts IpMap order fuel lim dispatch w size b x).
Proof. unfold poll_round. queue. Qed.
Hint Resolve poll_round_keeps : queue.
Lemma poll_keeps w size b xs : holds keeps w (poll opts IpMap order fuel lim dispatch w size b xs).
Proof. revert w size b. induction xs as [|x xs IH]; intros w size b; cbn [poll]; queue. Qed.
End any_poller.

Lemma epoll_dispatch_keeps lnAddr efd w ev r :
  epoll_dispatch opts IpMap lnAddr efd fuel w ev = Some r -> holds keeps w r.
Proof. unfold epoll_dispatch. case_if; [|done]. intros [= <-]. apply callback_keeps. Qed.

Lemma Polling_keeps lnAddr efd w xs r w' :
  Polling opts IpMap order lnAddr efd fuel w xs = Ok (r, w') -> keeps w w'.
Proof. exact (poll_keeps _ _ (epoll_dispatch_keeps lnAddr efd) w _ _ xs (r, w')). Qed.
End server.
