(* ===== verification/Pollers.v ===== *)
(** * The other pollers

    The repository has four pollers, chosen by build tags: epoll and kqueue, each with
    events found by descriptor (the default) or by a pointer in the event data
    ([poll_opt]).  [Polling] models the default one of Linux; here are the others, as
    instances of the same loop: [core/internal/netpoll/epoll_optimized_poller.go],
    [kqueue_default_poller.go] and [kqueue_optimized_poller.go] with
    [kqueue_events.go], the attachments of [poll_data_unix.go], the event handlers
    [core/connection_linux.go], [core/connection_bsd.go] and
    [core/reactor_default_bsd.go], and the two [reactor_optimized] files.

    The theorems: dispatching by attachment and by descriptor is the same as long as
    the attachments are live, and the connection table is kept by every poller. *)

From S2P Require Import Prelude Errors Byteslice Ring LinkedList Elastic Commands Codec Message CodecC CodecS Pool Cluster AuthIp World Conn EventLoop Server Polling Table LoopTable.

(** ** Attachments *)

(** What an attachment calls: [el.accept], or [handleEvents] of a connection. *)
Inductive PollEventHandler : Set := HAccept | HConn (c : cid).

Record PollAttachment := mkAttachment { pa_FD : Z; pa_Callback : option PollEventHandler }.

(** [pollAttachmentPool]: which pooled attachment [sync.Pool] returns, if any, is the
    argument [choice]. *)
Definition GetPollAttachment (pool : list PollAttachment) (choice : option nat) : PollAttachment * list PollAttachment :=
  match choice with
  | Some i =>
      match pool !! i with
      | Some pa => (pa, delete i pool)
      | None => (mkAttachment 0 None, pool)
      end
  | None => (mkAttachment 0 None, pool)
  end.
Definition PutPollAttachment (pool : list PollAttachment) (pa : option PollAttachment) : list PollAttachment :=
  match pa with
  | None => pool
  | Some _ => mkAttachment 0 None :: pool
  end.

(** [packPollAttachment] of [core/listener.go]. *)
Definition packPollAttachment (ln_fd : Z) (handler : PollEventHandler) : PollAttachment := mkAttachment ln_fd (Some handler).

(** The attachment of a connection, as [newTCPConn] fills it. *)
Definition conn_attachment (fd : Z) (c : cid) : PollAttachment := mkAttachment fd (Some (HConn c)).

(** ** Events of the BSDs *)

Definition kqueue_limits : PollLimits := mkLimits 64 512 16 128.

(** The event list of [kqueue_events.go]. *)
Definition kqueue_newEventList : Z -> Z := newEventList.
Definition kqueue_expand : Z -> Z := expand kqueue_limits.
Definition kqueue_shrink : Z -> Z := shrink kqueue_limits.
Lemma kqueue_limits_ok : limits_ok kqueue_limits.
Proof. split; [by exists 4|by exists 9]. Qed.

Definition EVFilterRead : Z := -1.
Definition EVFilterWrite : Z := -2.
Definition EVFilterSock : Z := -13.
Definition EV_EOF : Z := 32768.
Definition EV_ERROR : Z := 16384.
Definition ECONNRESET : Z := 54.

Record Kevent := mkKevent { k_Ident : Z; k_Filter : Z; k_Flags : Z; k_Udata : option PollAttachment }.

(** The filter the handler sees. *)
Definition evFilter (ev : Kevent) : Z :=
  if any_of (k_Flags ev) EV_EOF || any_of (k_Flags ev) EV_ERROR then EVFilterSock else k_Filter ev.

Section pollers.
Context `{BytePool} `{Env} {T : Type} `{LLRB T} `{HashMap ClusterNode} `{HashMap unit} `{MapRange}
  (opts : Options) (IpMap : ipMap) (order : gmap bytes Pool -> list bytes) (lnAddr : bytes) (fuel : nat).
Implicit Types w : World T.

(** The handlers of the loop, with the proxy's callbacks. *)
Definition loop_write w (c : cid) := @el_write _ T _ _ (server_ConnHandler opts IpMap) w c.
Definition loop_read w (c : cid) :=
  @el_read _ _ T _ _ (server_ConnHandler opts IpMap) (server_LoopHandler opts IpMap) _ opts fuel w c.
Definition loop_close w (c : cid) (err : option error) (t : ConnCloseType) :=
  @closeConn _ T _ _ (server_ConnHandler opts IpMap) w c err t.
Definition loop_accept w := @accept _ _ T _ _ (server_ConnHandler opts IpMap) opts w lnAddr.

(** [conn.handleEvents] of [core/connection_linux.go]. *)
Definition handleEvents w (c : cid) (ev : Z) : res (option error * World T) :=
  x ← get_conn w c;
  '(err, w) ←
    (if any_of ev OutEvents && negb (Elastic.IsEmpty (c_outboundBuffer x)) then loop_write w c else Ok (None, w));
  match err with
  | Some e => Ok (Some e, w)
  | None => if any_of ev InEvents then loop_read w c else Ok (None, w)
  end.

(** [conn.handleEvents] of [core/connection_bsd.go]. *)
Definition handleEvents_bsd w (c : cid) (filter : Z) : res (option error * World T) :=
  if filter =? EVFilterSock then loop_close w c (Some (ESys ECONNRESET)) ConnEof
  else if filter =? EVFilterWrite then
    x ← get_conn w c;
    if negb (Elastic.IsEmpty (c_outboundBuffer x)) then loop_write w c else Ok (None, w)
  else if filter =? EVFilterRead then loop_read w c
  else Ok (None, w).

(** [eventloop.callback] of [core/reactor_default_bsd.go]. *)
Definition callback_bsd w (fd filter : Z) : res (option error * World T) :=
  match w_connections w !! fd with
  | Some c =>
      if filter =? EVFilterSock then loop_close w c (Some (ESys ECONNRESET)) ConnEof
      else if filter =? EVFilterWrite then
        x ← get_conn w c;
        if negb (Elastic.IsEmpty (c_outboundBuffer x)) then loop_write w c else Ok (None, w)
      else if filter =? EVFilterRead then loop_read w c
      else Ok (None, w)
  | None => loop_accept w
  end.

(** A call through an attachment; a nil function panics. *)
Definition call_handler w (h : option PollEventHandler) (on_conn : World T -> cid -> res (option error * World T))
    : res (option error * World T) :=
  match h with
  | None => Panic
  | Some HAccept => loop_accept w
  | Some (HConn c) => on_conn w c
  end.

(** *** The optimised poller of Linux

    The event data points to an attachment; [oe_pa] are its fields when the event's
    turn comes. *)
Record opt_event := mkOptEvent { oe_pa : PollAttachment; oe_events : Z }.

Definition opt_dispatch (efd : Z) w (ev : opt_event) : option (res (option error * World T)) :=
  if negb (pa_FD (oe_pa ev) =? efd) then
    Some (call_handler w (pa_Callback (oe_pa ev)) (fun w c => handleEvents w c (oe_events ev)))
  else None.

Definition Polling_opt (efd : Z) w (xs : list (wait opt_event)) :=
  poll_loop opts IpMap order fuel epoll_limits (opt_dispatch efd) w xs.
Definition run_opt (efd : Z) w (xs : list (wait opt_event)) (cs : World T -> list cid) :=
  run_loop opts IpMap order fuel epoll_limits (opt_dispatch efd) w xs cs.

(** *** The pollers of the BSDs *)

Definition kqueue_dispatch w (ev : Kevent) : option (res (option error * World T)) :=
  if negb (k_Ident ev =? 0) then Some (callback_bsd w (k_Ident ev) (evFilter ev)) else None.

Definition kqueue_opt_dispatch w (ev : Kevent) : option (res (option error * World T)) :=
  if negb (k_Ident ev =? 0) then
    Some (match k_Udata ev with
          | None => Panic
          | Some pa => call_handler w (pa_Callback pa) (fun w c => handleEvents_bsd w c (evFilter ev))
          end)
  else None.

Definition Polling_kqueue w (xs : list (wait Kevent)) := poll_loop opts IpMap order fuel kqueue_limits kqueue_dispatch w xs.
Definition run_kqueue w (xs : list (wait Kevent)) (cs : World T -> list cid) :=
  run_loop opts IpMap order fuel kqueue_limits kqueue_dispatch w xs cs.
Definition Polling_kqueue_opt w (xs : list (wait Kevent)) :=
  poll_loop opts IpMap order fuel kqueue_limits kqueue_opt_dispatch w xs.
Definition run_kqueue_opt w (xs : list (wait Kevent)) (cs : World T -> list cid) :=
  run_loop opts IpMap order fuel kqueue_limits kqueue_opt_dispatch w xs cs.

(** ** Dispatch by attachment *)

(** A live attachment belongs to the connection its descriptor has in the table, or to
    the listener. *)
Definition live w (pa : PollAttachment) : Prop :=
  match pa_Callback pa with
  | Some HAccept => w_connections w !! pa_FD pa = None
  | Some (HConn c) => w_connections w !! pa_FD pa = Some c
  | None => False
  end.

Section same.
Context {E F : Type} (f : E -> F) (d1 : World T -> E -> option (res (option error * World T)))
  (d2 : World T -> F -> option (res (option error * World T))) (ok : World T -> E -> Prop).
Hypothesis same : forall w ev, ok w ev -> d1 w ev = d2 w (f ev).

(** Every event is handled while [ok] holds of it. *)
Fixpoint all_ok w (evs : list E) : Prop :=
  match evs with
  | [] => True
  | ev :: evs =>
      ok w ev /\
      match d1 w ev with
      | None => all_ok w evs
      | Some (Ok (err, w')) => ends_loop err = false -> all_ok w' evs
      | Some _ => True
      end
  end.

Lemma run_events_same w evs b : all_ok w evs -> run_events d1 w evs b = run_events d2 w (f <$> evs) b.
Proof.
  revert w b. induction evs as [|ev evs IH]; intros w b; [done|]. cbn [run_events all_ok fmap list_fmap].
  intros [Hok Hrest]. rewrite <- (same w ev Hok). destruct (d1 w ev) as [[[err w']| |]|]; [|done|done|by apply IH].
  rewrite !res_bind_Ok. destruct (ends_loop err); [done|]. by apply IH, Hrest.
Qed.
End same.

(** The event of the default poller for the same descriptor. *)
Definition by_fd (ev : opt_event) : epollevent := mkEpollEvent (pa_FD (oe_pa ev)) (oe_events ev).

Lemma opt_same efd w ev :
  pa_FD (oe_pa ev) = efd \/ live w (oe_pa ev) ->
  opt_dispatch efd w ev = epoll_dispatch opts IpMap lnAddr efd fuel w (by_fd ev).
Proof.
  unfold opt_dispatch, epoll_dispatch, live. cbn [ev_fd by_fd ev_events]. intros Hl. case_if; [|done]. destruct Hl as [|Hl]; [lia|].
  f_equal. unfold callback. destruct (pa_Callback _) as [[|c]|]; cbn [call_handler]; [by rewrite Hl|by rewrite Hl|done].
Qed.

Lemma kqueue_opt_same w ev :
  k_Ident ev = 0 \/ (exists pa, k_Udata ev = Some pa /\ pa_FD pa = k_Ident ev /\ live w pa) ->
  kqueue_opt_dispatch w ev = kqueue_dispatch w ev.
Proof.
  unfold kqueue_opt_dispatch, kqueue_dispatch, live. intros Hl. case_if; [|done]. destruct Hl as [|(pa & -> & Hfd & Hl)]; [lia|].
  f_equal. unfold callback_bsd. rewrite Hfd in Hl. destruct (pa_Callback pa) as [[|c]|]; cbn [call_handler]; [by rewrite Hl|by rewrite Hl|done].
Qed.

(** C22: the optimised pollers handle a batch of events exactly as the default pollers do, as
    long as the attachment of each event is live when its turn comes: it belongs to
    the connection registered for its descriptor, or to the listener. *)
Theorem optimised_dispatch efd w evs kevs b
    (Hlive : all_ok (opt_dispatch efd) (fun w ev => pa_FD (oe_pa ev) = efd \/ live w (oe_pa ev)) w evs)
    (Hklive : all_ok kqueue_opt_dispatch
       (fun w ev => k_Ident ev = 0 \/ exists pa, k_Udata ev = Some pa /\ pa_FD pa = k_Ident ev /\ live w pa) w kevs) :
  run_events (opt_dispatch efd) w evs b = run_events (epoll_dispatch opts IpMap lnAddr efd fuel) w (by_fd <$> evs) b /\
  run_events kqueue_opt_dispatch w kevs b = run_events kqueue_dispatch w kevs b.
Proof.
  split.
  - apply (run_events_same by_fd _ _ _ (opt_same efd)). done.
  - rewrite (run_events_same id _ kqueue_dispatch _ kqueue_opt_same) by done. by rewrite list_fmap_id.
Qed.

(** The attachment of a connection that was closed earlier in the batch is zeroed:
    the call through it panics. *)
Lemma stale_panics efd w ev :
  pa_FD (oe_pa ev) <> efd -> pa_Callback (oe_pa ev) = None -> opt_dispatch efd w ev = Some Panic.
Proof. intros Hfd Hc. unfold opt_dispatch. case_if. by rewrite Hc. Qed.
End pollers.

(** ** The table under every poller *)
Section table.
Context `{BytePool} `{!Env, !Descriptors} {T : Type} `{!LLRB T} `{!HashMap ClusterNode} `{!HashMap unit} `{!MapRange}
  (opts : Options) (IpMap : ipMap) (order : gmap bytes Pool -> list bytes) (lnAddr : bytes) (fuel : nat).
Implicit Types w : World T.

Lemma loop_write_inv w c : holds inv_step w (loop_write opts IpMap w c).
Proof. apply el_write_inv. Qed.
Lemma loop_read_inv w c : holds inv_step w (loop_read opts IpMap fuel w c).
Proof. apply el_read_inv. Qed.
Lemma loop_close_inv w c err t : holds inv_step w (loop_close opts IpMap w c err t).
Proof. apply closeConn_inv. Qed.
Lemma loop_accept_inv w : holds inv_step w (loop_accept opts IpMap lnAddr w).
Proof. apply accept_inv. Qed.
Hint Resolve loop_write_inv loop_read_inv loop_close_inv loop_accept_inv : table.

Lemma handleEvents_inv w c ev : holds inv_step w (handleEvents opts IpMap fuel w c ev).
Proof. unfold handleEvents. table. Qed.
Lemma handleEvents_bsd_inv w c f : holds inv_step w (handleEvents_bsd opts IpMap fuel w c f).
Proof. unfold handleEvents_bsd. table. Qed.
Lemma callback_bsd_inv w fd f : holds inv_step w (callback_bsd opts IpMap lnAddr fuel w fd f).
Proof. unfold callback_bsd. table. Qed.
Hint Resolve handleEvents_inv handleEvents_bsd_inv callback_bsd_inv : table.
Lemma call_handler_inv w h on_conn :
  (forall w c, holds inv_step w (on_conn w c)) -> holds inv_step w (call_handler opts IpMap lnAddr w h on_conn).
Proof. intros Hc. unfold call_handler. table. Qed.

Lemma opt_dispatch_inv efd w ev r : opt_dispatch opts IpMap lnAddr fuel efd w ev = Some r -> holds inv_step w r.
Proof. unfold opt_dispatch. case_if; [|done]. intros [= <-]. apply call_handler_inv. intros. apply handleEvents_inv. Qed.
Lemma kqueue_dispatch_inv w ev r : kqueue_dispatch opts IpMap lnAddr fuel w ev = Some r -> holds inv_step w r.
Proof. unfold kqueue_dispatch. case_if; [|done]. intros [= <-]. apply callback_bsd_inv. Qed.
Lemma kqueue_opt_dispatch_inv w ev r : kqueue_opt_dispatch opts IpMap lnAddr fuel w ev = Some r -> holds inv_step w r.
Proof.
  unfold kqueue_opt_dispatch. case_if; [|done]. intros [= <-]. case_match; [|apply holds_Panic].
  apply call_handler_inv. intros. apply handleEvents_bsd_inv.
Qed.

(** The other three pollers keep the connection table as the default one does: after any
    number of rounds it holds exactly the open connections and the counters count them. *)
Theorem pollers_keep_table efd w (Hw : invariant w) :
  (forall xs r w', Polling_opt opts IpMap order lnAddr fuel efd w xs = Ok (r, w') -> table_ok w' /\ invariant w') /\
  (forall xs r w', Polling_kqueue opts IpMap order lnAddr fuel w xs = Ok (r, w') -> table_ok w' /\ invariant w') /\
  (forall xs r w', Polling_kqueue_opt opts IpMap order lnAddr fuel w xs = Ok (r, w') -> table_ok w' /\ invariant w').
Proof.
  split_and!; intros xs r w' Hrun.
  - pose proof (poll_inv opts IpMap order fuel _ _ (opt_dispatch_inv efd) _ _ _ _ _ Hrun Hw) as Hw'.
    split; [by apply inv_table_ok|done].
  - pose proof (poll_inv opts IpMap order fuel _ _ kqueue_dispatch_inv _ _ _ _ _ Hrun Hw) as Hw'.
    split; [by apply inv_table_ok|done].
  - pose proof (poll_inv opts IpMap order fuel _ _ kqueue_opt_dispatch_inv _ _ _ _ _ Hrun Hw) as Hw'.
    split; [by apply inv_table_ok|done].
Qed.
End table.

(** ** Witnesses *)

(** The world of [LoopTable] with one client, on descriptor 7. *)
Definition one_client : @World kernel_env (list (Z * fid)) (gmap_HashMap ClusterNode) :=
  with_connections (with_conns_heap idle_world {[ 1%positive :=
    set_opened (newTCPConn 7 None (Some (str "10.0.0.9:51000")) ConnClient Initialized false 65536) true ]}) {[ 7 := 1%positive ]} 1 0.

Definition one_read : list opt_event := [mkOptEvent (conn_attachment 7 1%positive) EPOLLIN; mkOptEvent (mkAttachment 5 None) EPOLLIN].
Definition one_kread : list Kevent := [mkKevent 7 EVFilterRead 0 (Some (conn_attachment 7 1%positive)); mkKevent 0 (-10) 0 None].

Lemma optimised_dispatch_witness :
  run_events (@opt_dispatch empty_pool kernel_env _ _ _ (gmap_HashMap unit) sorted_range table_opts no_ips (str "0.0.0.0:9736") 100 5)
    one_client one_read false =
  run_events (@epoll_dispatch empty_pool kernel_env _ _ _ (gmap_HashMap unit) sorted_range table_opts no_ips (str "0.0.0.0:9736") 5 100)
    one_client (by_fd <$> one_read) false /\
  run_events (@kqueue_opt_dispatch empty_pool kernel_env _ _ _ (gmap_HashMap unit) sorted_range table_opts no_ips (str "0.0.0.0:9736") 100)
    one_client one_kread false =
  run_events (@kqueue_dispatch empty_pool kernel_env _ _ _ (gmap_HashMap unit) sorted_range table_opts no_ips (str "0.0.0.0:9736") 100)
    one_client one_kread false.
Proof.
  apply (@optimised_dispatch empty_pool kernel_env _ _ _ (gmap_HashMap unit) sorted_range table_opts no_ips (str "0.0.0.0:9736") 100 5
    one_client one_read one_kread false).
  - split; [right; reflexivity|]. case_match; [|done]. match goal with r : res _ |- _ => destruct r as [[err w']| |] end; [|done..].
    intros _. split; [by left|]. done.
  - split; [right; eexists; split; [reflexivity|by split]|]. case_match; [|done].
    match goal with r : res _ |- _ => destruct r as [[err w']| |] end; [|done..]. intros _. split; [by left|]. done.
Defined.

Lemma pollers_keep_table_witness :
  match @Polling_opt empty_pool kernel_env _ _ _ (gmap_HashMap unit) sorted_range table_opts no_ips (fun m => (map_to_list m).*1)
    (str "0.0.0.0:9736") 100 5 idle_world
    [Events [mkOptEvent (packPollAttachment 6 HAccept) EPOLLIN]; Events one_read] with
  | Ok (_, w') => @table_ok kernel_env _ _ w' /\ @invariant kernel_env kernel_fds _ _ w'
  | _ => False
  end.
Proof.
  destruct (returns_inv (@Polling_opt empty_pool kernel_env _ _ _ (gmap_HashMap unit) sorted_range table_opts no_ips (fun m => (map_to_list m).*1)
    (str "0.0.0.0:9736") 100 5 idle_world
    [Events [mkOptEvent (packPollAttachment 6 HAccept) EPOLLIN]; Events one_read])) as [[r w'] E]; [vm_compute; reflexivity|]. rewrite E.
  exact (proj1 (@pollers_keep_table empty_pool kernel_env kernel_fds _ _ _ (gmap_HashMap unit) sorted_range table_opts no_ips
    (fun m => (map_to_list m).*1) (str "0.0.0.0:9736") 100 5 idle_world idle_inv) _ r w' E).
Defined.
