(* ===== verification/Registration.v ===== *)
(** * Registering descriptors

    The functions of the four pollers that tell the kernel which events of a
    descriptor are wanted: [AddReadWrite], [AddRead], [AddWrite], [ModRead],
    [ModReadWrite] and [Delete] of [core/internal/netpoll/epoll_default_poller.go],
    [epoll_optimized_poller.go], [kqueue_default_poller.go] and
    [kqueue_optimized_poller.go].  epoll keeps one mask per descriptor and replaces it,
    kqueue keeps filters and adds or deletes them one by one; what both kernels do with
    a request is stated by the classes [EpollKernel] and [KqueueKernel].

    The theorem: each of the four builds implements one abstract table of interest, so
    that the loop is told of the same events by any of them. *)

From S2P Require Import Prelude Errors Byteslice Ring LinkedList Elastic Commands Codec Message CodecC CodecS Pool Cluster AuthIp World Conn EventLoop Server Polling Table LoopTable Pollers.

(** ** Requests *)

(** The user data of an epoll event: the descriptor, or a pointer to the attachment. *)
Inductive event_data := DFd (fd : Z) | DPtr (pa : PollAttachment).

Inductive ctl_op : Set := EPOLL_CTL_ADD | EPOLL_CTL_MOD | EPOLL_CTL_DEL.
Record ctl := mkCtl { ctl_do : ctl_op; ctl_fd : Z; ctl_events : Z; ctl_data : option event_data }.

Definition readEvents : Z := Z.lor EPOLLPRI EPOLLIN.
Definition writeEvents : Z := EPOLLOUT.
Definition readWriteEvents : Z := Z.lor readEvents writeEvents.

Module Epoll.
Definition AddReadWrite (pa : PollAttachment) : ctl := mkCtl EPOLL_CTL_ADD (pa_FD pa) readWriteEvents (Some (DFd (pa_FD pa))).
Definition AddRead (pa : PollAttachment) : ctl := mkCtl EPOLL_CTL_ADD (pa_FD pa) readEvents (Some (DFd (pa_FD pa))).
Definition AddWrite (pa : PollAttachment) : ctl := mkCtl EPOLL_CTL_ADD (pa_FD pa) writeEvents (Some (DFd (pa_FD pa))).
Definition ModRead (pa : PollAttachment) : ctl := mkCtl EPOLL_CTL_MOD (pa_FD pa) readEvents (Some (DFd (pa_FD pa))).
Definition ModReadWrite (pa : PollAttachment) : ctl := mkCtl EPOLL_CTL_MOD (pa_FD pa) readWriteEvents (Some (DFd (pa_FD pa))).
Definition Delete (fd : Z) : ctl := mkCtl EPOLL_CTL_DEL fd 0 None.
End Epoll.

Module EpollOpt.
Definition AddReadWrite (pa : PollAttachment) : ctl := mkCtl EPOLL_CTL_ADD (pa_FD pa) readWriteEvents (Some (DPtr pa)).
Definition AddRead (pa : PollAttachment) : ctl := mkCtl EPOLL_CTL_ADD (pa_FD pa) readEvents (Some (DPtr pa)).
Definition AddWrite (pa : PollAttachment) : ctl := mkCtl EPOLL_CTL_ADD (pa_FD pa) writeEvents (Some (DPtr pa)).
Definition ModRead (pa : PollAttachment) : ctl := mkCtl EPOLL_CTL_MOD (pa_FD pa) readEvents (Some (DPtr pa)).
Definition ModReadWrite (pa : PollAttachment) : ctl := mkCtl EPOLL_CTL_MOD (pa_FD pa) readWriteEvents (Some (DPtr pa)).
Definition Delete (fd : Z) : ctl := mkCtl EPOLL_CTL_DEL fd 0 None.
End EpollOpt.

Definition EV_ADD : Z := 1.
Definition EV_DELETE : Z := 2.

(** [uint64(pa.FD)]. *)
Definition ident (pa : PollAttachment) : Z := uwrap64 (pa_FD pa).

Module Kqueue.
Definition AddReadWrite (pa : PollAttachment) : list Kevent :=
  [mkKevent (ident pa) EVFilterRead EV_ADD None; mkKevent (ident pa) EVFilterWrite EV_ADD None].
Definition AddRead (pa : PollAttachment) : list Kevent := [mkKevent (ident pa) EVFilterRead EV_ADD None].
Definition AddWrite (pa : PollAttachment) : list Kevent := [mkKevent (ident pa) EVFilterWrite EV_ADD None].
Definition ModRead (pa : PollAttachment) : list Kevent := [mkKevent (ident pa) EVFilterWrite EV_DELETE None].
Definition ModReadWrite (pa : PollAttachment) : list Kevent := [mkKevent (ident pa) EVFilterWrite EV_ADD None].
(** [Delete] does nothing: closing the descriptor removes its filters. *)
Definition Delete (fd : Z) : list Kevent := [].
End Kqueue.

Module KqueueOpt.
Definition AddReadWrite (pa : PollAttachment) : list Kevent :=
  let ev := mkKevent (ident pa) EVFilterRead EV_ADD (Some pa) in
  [ev; mkKevent (k_Ident ev) EVFilterWrite (k_Flags ev) (k_Udata ev)].
Definition AddRead (pa : PollAttachment) : list Kevent := [mkKevent (ident pa) EVFilterRead EV_ADD (Some pa)].
Definition AddWrite (pa : PollAttachment) : list Kevent := [mkKevent (ident pa) EVFilterWrite EV_ADD (Some pa)].
Definition ModRead (pa : PollAttachment) : list Kevent := [mkKevent (ident pa) EVFilterWrite EV_DELETE (Some pa)].
Definition ModReadWrite (pa : PollAttachment) : list Kevent := [mkKevent (ident pa) EVFilterWrite EV_ADD (Some pa)].
Definition Delete (fd : Z) : list Kevent := [].
End KqueueOpt.

(** ** The kernels *)

(** [epoll_ctl] and [close].  [ek_events] is the interest list. *)
Class EpollKernel := {
  ek : Type;
  ek_events : ek -> Z -> option Z;
  ek_ctl : ek -> ctl -> ek * option Z;
  ek_close : ek -> Z -> ek;
  ek_ctl_spec : forall k c k' err, ek_ctl k c = (k', err) ->
    match err with
    | Some _ => forall fd, ek_events k' fd = ek_events k fd
    | None =>
        match ctl_do c with
        | EPOLL_CTL_ADD => ek_events k (ctl_fd c) = None
        | EPOLL_CTL_MOD | EPOLL_CTL_DEL => is_Some (ek_events k (ctl_fd c))
        end /\
        forall fd, ek_events k' fd =
          if fd =? ctl_fd c then match ctl_do c with EPOLL_CTL_DEL => None | _ => Some (ctl_events c) end
          else ek_events k fd
    end;
  ek_close_spec : forall k fd fd', ek_events (ek_close k fd) fd' = if fd' =? fd then None else ek_events k fd';
}.

(** One change of the filters: [kevent] adds a filter, whether or not it is there, and
    deletes one that is there. *)
Definition change (on : Z -> Z -> bool) (ev : Kevent) : Z -> Z -> bool :=
  fun i f => if (i =? k_Ident ev) && (f =? k_Filter ev) then any_of (k_Flags ev) EV_ADD else on i f.

Class KqueueKernel := {
  kk : Type;
  kk_on : kk -> Z -> Z -> bool;
  kk_event : kk -> list Kevent -> kk * option Z;
  kk_close : kk -> Z -> kk;
  kk_event_spec : forall k evs k', kk_event k evs = (k', None) ->
    forall i f, kk_on k' i f = foldl change (kk_on k) evs i f;
  kk_close_spec : forall k fd i f, kk_on (kk_close k fd) i f = if i =? fd then false else kk_on k i f;
}.

(** ** The calls of the loop *)

(** What the loop asks of its poller; [RClose] is [Delete] and [close] of [closeConn]. *)
Inductive reg_op : Type :=
  | RAddRead (pa : PollAttachment)
  | RAddReadWrite (pa : PollAttachment)
  | RAddWrite (pa : PollAttachment)
  | RModRead (pa : PollAttachment)
  | RModReadWrite (pa : PollAttachment)
  | RClose (fd : Z).
Definition op_fd (o : reg_op) : Z :=
  match o with RAddRead pa | RAddReadWrite pa | RAddWrite pa | RModRead pa | RModReadWrite pa => pa_FD pa | RClose fd => fd end.

Section agree.
Context `{EpollKernel} `{KqueueKernel}.

(** [opt] chooses the optimised poller; [None] when the call returned an error. *)
Definition epoll_step (opt : bool) (k : ek) (o : reg_op) : option ek :=
  let call c := let '(k, err) := ek_ctl k c in match err with None => Some k | Some _ => None end in
  match o with
  | RAddRead pa => call (if opt then EpollOpt.AddRead pa else Epoll.AddRead pa)
  | RAddReadWrite pa => call (if opt then EpollOpt.AddReadWrite pa else Epoll.AddReadWrite pa)
  | RAddWrite pa => call (if opt then EpollOpt.AddWrite pa else Epoll.AddWrite pa)
  | RModRead pa => call (if opt then EpollOpt.ModRead pa else Epoll.ModRead pa)
  | RModReadWrite pa => call (if opt then EpollOpt.ModReadWrite pa else Epoll.ModReadWrite pa)
  | RClose fd =>
      let '(k, err) := ek_ctl k (if opt then EpollOpt.Delete fd else Epoll.Delete fd) in
      match err with None => Some (ek_close k fd) | Some _ => None end
  end.
Definition kqueue_step (opt : bool) (k : kk) (o : reg_op) : option kk :=
  let call evs := let '(k, err) := kk_event k evs in match err with None => Some k | Some _ => None end in
  match o with
  | RAddRead pa => call (if opt then KqueueOpt.AddRead pa else Kqueue.AddRead pa)
  | RAddReadWrite pa => call (if opt then KqueueOpt.AddReadWrite pa else Kqueue.AddReadWrite pa)
  | RAddWrite pa => call (if opt then KqueueOpt.AddWrite pa else Kqueue.AddWrite pa)
  | RModRead pa => call (if opt then KqueueOpt.ModRead pa else Kqueue.ModRead pa)
  | RModReadWrite pa => call (if opt then KqueueOpt.ModReadWrite pa else Kqueue.ModReadWrite pa)
  | RClose fd => Some (kk_close k fd)
  end.

(** The four builds, with the kernel of each. *)
Inductive build : Set := EpollDefault | EpollOptimised | KqueueDefault | KqueueOptimised.
Definition kernel (b : build) : Type :=
  match b with EpollDefault | EpollOptimised => ek | KqueueDefault | KqueueOptimised => kk end.
Definition build_step (b : build) : kernel b -> reg_op -> option (kernel b) :=
  match b with
  | EpollDefault => epoll_step false
  | EpollOptimised => epoll_step true
  | KqueueDefault => kqueue_step false
  | KqueueOptimised => kqueue_step true
  end.
Fixpoint build_run (b : build) (k : kernel b) (os : list reg_op) : option (kernel b) :=
  match os with [] => Some k | o :: os => k ← build_step b k o; build_run b k os end.

(** The loop is told of reads, and of writes, of [fd]. *)
Definition wants (k : ek) (fd mask : Z) : bool := match ek_events k fd with Some m => any_of m mask | None => false end.
Definition watches (b : build) : kernel b -> Z -> bool * bool :=
  match b with
  | EpollDefault | EpollOptimised => fun k fd => (wants k fd EPOLLIN, wants k fd EPOLLOUT)
  | KqueueDefault | KqueueOptimised => fun k fd => (kk_on k fd EVFilterRead, kk_on k fd EVFilterWrite)
  end.

(** *** The table of interest

    What the calls mean: an [Add] is for a descriptor that is not watched, a [Mod] for one
    that is watched for reading. *)
Definition interest : Type := Z -> bool * bool.
Definition watch (t : interest) (fd : Z) (x : bool * bool) : interest := fun i => if i =? fd then x else t i.
Definition means (o : reg_op) : bool * bool :=
  match o with
  | RAddRead _ | RModRead _ => (true, false)
  | RAddReadWrite _ | RModReadWrite _ => (true, true)
  | RAddWrite _ => (false, true)
  | RClose _ => (false, false)
  end.
Definition allowed (t : interest) (o : reg_op) : bool :=
  match o with
  | RAddRead _ | RAddReadWrite _ | RAddWrite _ => bool_decide (t (op_fd o) = (false, false))
  | RModRead _ | RModReadWrite _ => (t (op_fd o)).1
  | RClose _ => true
  end.
Definition interest_step (t : interest) (o : reg_op) : option interest :=
  if allowed t o then Some (watch t (op_fd o) (means o)) else None.
Fixpoint interest_run (t : interest) (os : list reg_op) : option interest :=
  match os with [] => Some t | o :: os => t ← interest_step t o; interest_run t os end.

Lemma uwrap64_id n : 0 <= n < 2 ^ 63 -> uwrap64 n = n.
Proof. intros Hn. unfold uwrap64. apply Z.mod_small. lia. Qed.

(** The events a call leaves registered for its descriptor; [None]: the descriptor is gone. *)
Definition leaves (o : reg_op) : option Z :=
  match o with
  | RAddRead _ | RModRead _ => Some readEvents
  | RAddReadWrite _ | RModReadWrite _ => Some readWriteEvents
  | RAddWrite _ => Some writeEvents
  | RClose _ => None
  end.

Lemma epoll_step_effect opt e o e' :
  epoll_step opt e o = Some e' -> forall fd, ek_events e' fd = if fd =? op_fd o then leaves o else ek_events e fd.
Proof.
  destruct o as [pa|pa|pa|pa|pa|fd]; cbn [epoll_step op_fd leaves]; destruct opt; destruct (ek_ctl e _) as [k [err|]] eqn:E;
    intros [= <-]; apply ek_ctl_spec in E as [Hpre Hpost]; cbn in Hpre, Hpost; intros fd'; rewrite ?ek_close_spec, Hpost;
    by destruct (fd' =? _).
Qed.

(** The same for kqueue: the filters of the descriptor afterwards, from those before. *)
Lemma kqueue_step_effect opt q o q' i f :
  0 <= op_fd o < 2 ^ 63 -> f = EVFilterRead \/ f = EVFilterWrite -> kqueue_step opt q o = Some q' ->
  kk_on q' i f =
    if i =? op_fd o then
      match o with
      | RAddRead _ => (f =? EVFilterRead) || kk_on q i f
      | RAddReadWrite _ => true
      | RModRead _ => negb (f =? EVFilterWrite) && kk_on q i f
      | RAddWrite _ | RModReadWrite _ => (f =? EVFilterWrite) || kk_on q i f
      | RClose _ => false
      end
    else kk_on q i f.
Proof.
  intros Hfd Hf. destruct o as [pa|pa|pa|pa|pa|fd]; cbn [kqueue_step op_fd] in *.
  6: { intros [= <-]. apply kk_close_spec. }
  all: destruct opt; destruct (kk_event q _) as [k [err|]] eqn:E; intros [= <-]; rewrite (kk_event_spec _ _ _ E);
    unfold change; cbn; unfold ident; rewrite uwrap64_id by done; destruct (i =? pa_FD pa) eqn:Ei; cbn; try done;
    destruct Hf as [-> | ->]; done.
Qed.

(** [k] watches what the table says. *)
Definition shows (b : build) (k : kernel b) (t : interest) : Prop := forall fd, 0 <= fd < 2 ^ 63 -> watches b k fd = t fd.

Lemma epoll_step_shows opt e o e' t t' :
  (forall fd, 0 <= fd < 2 ^ 63 -> (wants e fd EPOLLIN, wants e fd EPOLLOUT) = t fd) -> interest_step t o = Some t' ->
  epoll_step opt e o = Some e' -> forall fd, 0 <= fd < 2 ^ 63 -> (wants e' fd EPOLLIN, wants e' fd EPOLLOUT) = t' fd.
Proof.
  intros Ht Hi He fd Hfd. pose proof (epoll_step_effect _ _ _ _ He fd) as Hev. specialize (Ht fd Hfd).
  unfold interest_step in Hi. destruct (allowed t o); simplify_eq. unfold wants in *. rewrite Hev. unfold watch.
  destruct (fd =? op_fd o); [by destruct o|done].
Qed.

Lemma kqueue_step_shows opt q o q' t t' :
  0 <= op_fd o < 2 ^ 63 ->
  (forall fd, 0 <= fd < 2 ^ 63 -> (kk_on q fd EVFilterRead, kk_on q fd EVFilterWrite) = t fd) -> interest_step t o = Some t' ->
  kqueue_step opt q o = Some q' -> forall fd, 0 <= fd < 2 ^ 63 -> (kk_on q' fd EVFilterRead, kk_on q' fd EVFilterWrite) = t' fd.
Proof.
  intros Ho Ht Hi Hq fd Hfd.
  rewrite (kqueue_step_effect _ _ _ _ fd EVFilterRead Ho (or_introl eq_refl) Hq),
    (kqueue_step_effect _ _ _ _ fd EVFilterWrite Ho (or_intror eq_refl) Hq).
  unfold interest_step in Hi. destruct (allowed t o) eqn:Ha; simplify_eq. unfold watch.
  destruct (fd =? op_fd o) eqn:E; [apply Z.eqb_eq in E as ->|by apply Ht]. specialize (Ht _ Ho).
  destruct o; cbn [op_fd allowed means] in *; try apply bool_decide_eq_true in Ha; try done; cbn in *;
    rewrite <- Ht in Ha; cbn in Ha; try injection Ha as Ha Ha'; by rewrite ?Ha, ?Ha'.
Qed.

Lemma build_step_shows b k o k' t t' :
  0 <= op_fd o < 2 ^ 63 -> shows b k t -> interest_step t o = Some t' -> build_step b k o = Some k' -> shows b k' t'.
Proof.
  intros Ho Ht Hi Hk. destruct b; intros fd Hfd;
    first [by apply (epoll_step_shows _ _ _ _ _ _ Ht Hi Hk)|by apply (kqueue_step_shows _ _ _ _ _ _ Ho Ht Hi Hk)].
Qed.

Lemma build_run_shows b os k k' t t' :
  Forall (fun o => 0 <= op_fd o < 2 ^ 63) os -> shows b k t -> interest_run t os = Some t' -> build_run b k os = Some k' ->
  shows b k' t'.
Proof.
  intros Hos. revert k t. induction Hos as [|o os Ho Hos IH]; intros k t Ht Hi Hk; cbn [interest_run build_run] in *; simplify_eq; [done|].
  apply bind_Some in Hi as (t1 & Hi1 & Hi). apply bind_Some in Hk as (k1 & Hk1 & Hk).
  by eapply IH; [eapply build_step_shows|..].
Qed.

(** C23: any two of the four builds, epoll or kqueue, by descriptor or by attachment, watch the same
    descriptors for the same events after the same calls: for every
    sequence of [AddRead], [AddReadWrite], [AddWrite], [ModRead], [ModReadWrite] and closes
    in which an [Add] is for a descriptor that is not watched and a [Mod] for one watched for
    reading, if both start from the same interest and neither kernel refuses a call, both end with
    the interest the calls mean.  (An [AddWrite] of a descriptor that is registered is
    outside: see [AddWrite_registered].) *)
Theorem pollers_agree b1 b2 os t t' (k1 k1' : kernel b1) (k2 k2' : kernel b2)
    (Hfds : Forall (fun o => 0 <= op_fd o < 2 ^ 63) os) (Huse : interest_run t os = Some t')
    (H1 : shows b1 k1 t) (H2 : shows b2 k2 t)
    (Hk1 : build_run b1 k1 os = Some k1') (Hk2 : build_run b2 k2 os = Some k2') :
  forall fd, 0 <= fd < 2 ^ 63 -> watches b1 k1' fd = watches b2 k2' fd /\ watches b1 k1' fd = t' fd.
Proof.
  intros fd Hfd. pose proof (build_run_shows _ _ _ _ _ _ Hfds H1 Huse Hk1 fd Hfd) as E1.
  pose proof (build_run_shows _ _ _ _ _ _ Hfds H2 Huse Hk2 fd Hfd) as E2. by rewrite E1, E2.
Qed.

(** [eventloop.open] asks for writes with [AddWrite] on a descriptor that is registered
    already: epoll refuses and the interest stays, kqueue adds the interest in writes. *)
Lemma AddWrite_registered opt pa :
  (forall e, is_Some (ek_events e (pa_FD pa)) -> epoll_step opt e (RAddWrite pa) = None) /\
  (forall q q', 0 <= pa_FD pa < 2 ^ 63 -> kqueue_step opt q (RAddWrite pa) = Some q' -> kk_on q' (pa_FD pa) EVFilterWrite = true).
Proof.
  split.
  - intros e [m Hm]. cbn. destruct opt; destruct (ek_ctl e _) as [k [err|]] eqn:E; try done;
      apply ek_ctl_spec in E as [Hn _]; cbn in Hn; congruence.
  - intros q q' Hfd Hq. rewrite (kqueue_step_effect _ _ (RAddWrite pa) _ _ EVFilterWrite Hfd (or_intror eq_refl) Hq). cbn. by rewrite Z.eqb_refl.
Qed.
End agree.

(** ** Two kernels *)

Definition map_ctl (k : gmap Z Z) (c : ctl) : gmap Z Z * option Z :=
  match ctl_do c, k !! ctl_fd c with
  | EPOLL_CTL_ADD, None => (<[ctl_fd c := ctl_events c]> k, None)
  | EPOLL_CTL_MOD, Some _ => (<[ctl_fd c := ctl_events c]> k, None)
  | EPOLL_CTL_DEL, Some _ => (delete (ctl_fd c) k, None)
  | EPOLL_CTL_ADD, Some _ => (k, Some 17)
  | _, None => (k, Some 2)
  end.

Program Definition map_epoll : EpollKernel := {|
  ek := gmap Z Z;
  ek_events k fd := k !! fd;
  ek_ctl := map_ctl;
  ek_close k fd := delete fd k;
|}.
Next Obligation.
  intros k c k' err. cbv beta. unfold map_ctl. destruct (ctl_do c), (k !! ctl_fd c) eqn:E; intros [= <- <-]; try done;
    (split; [done|]); intros fd; destruct (fd =? ctl_fd c) eqn:Ef; try (apply Z.eqb_eq in Ef as ->);
    first [by rewrite lookup_insert_eq | by rewrite lookup_delete_eq | rewrite lookup_insert_ne by lia; done | rewrite lookup_delete_ne by lia; done].
Qed.
Next Obligation.
  intros k fd fd'. cbv beta. destruct (fd' =? fd) eqn:E; [apply Z.eqb_eq in E as ->; apply lookup_delete_eq|apply lookup_delete_ne; lia].
Qed.

Program Definition fun_kqueue : KqueueKernel := {|
  kk := Z -> Z -> bool;
  kk_on k := k;
  kk_event k evs := (foldl change k evs, None);
  kk_close k fd := fun i f => if i =? fd then false else k i f;
|}.
Next Obligation. by intros k evs k' [= <-] i f. Qed.
Next Obligation. done. Qed.

Definition pa7 : PollAttachment := conn_attachment 7 1%positive.
Definition pa8 : PollAttachment := conn_attachment 8 2%positive.
Definition pa9 : PollAttachment := conn_attachment 9 3%positive.
Definition reg_ops : list reg_op :=
  [RAddRead pa7; RModReadWrite pa7; RAddRead pa8; RModRead pa7; RAddWrite pa9; RModReadWrite pa8; RClose 7; RAddReadWrite pa7].
Definition no_interest : interest := fun _ => (false, false).

Lemma pollers_agree_witness :
  match @build_run map_epoll fun_kqueue EpollDefault ∅ reg_ops,
        @build_run map_epoll fun_kqueue KqueueOptimised (fun _ _ => false) reg_ops, interest_run no_interest reg_ops with
  | Some e', Some q', Some t' =>
      map t' [7; 8; 9] = [(true, true); (true, true); (false, true)] /\
      forall fd, 0 <= fd < 2 ^ 63 ->
        @watches map_epoll fun_kqueue EpollDefault e' fd = @watches map_epoll fun_kqueue KqueueOptimised q' fd /\
        @watches map_epoll fun_kqueue EpollDefault e' fd = t' fd
  | _, _, _ => False
  end.
Proof.
  destruct (@build_run map_epoll fun_kqueue EpollDefault ∅ reg_ops) as [e'|] eqn:He; [|vm_compute in He; discriminate].
  destruct (@build_run map_epoll fun_kqueue KqueueOptimised (fun _ _ => false) reg_ops) as [q'|] eqn:Hq; [|vm_compute in Hq; discriminate].
  destruct (interest_run no_interest reg_ops) as [t'|] eqn:Ht; [|vm_compute in Ht; discriminate].
  split; [vm_compute in Ht; injection Ht as <-; vm_compute; reflexivity|].
  apply (@pollers_agree map_epoll fun_kqueue EpollDefault KqueueOptimised reg_ops no_interest t' (∅ : gmap Z Z) e' (fun _ _ => false) q').
  - repeat constructor; vm_compute; congruence.
  - exact Ht.
  - intros fd _. cbn. unfold wants. cbn. by rewrite lookup_empty.
  - intros fd _. reflexivity.
  - exact He.
  - exact Hq.
Defined.
