(* ===== verification/Syscalls.v ===== *)
(** * System-call wrappers

    [core/internal/netpoll]: [epollCtl], [epollWait] and [errnoErr] of the poll_opt build,
    and the declarations of [epollevent] for each architecture; [core/internal/io]:
    [Writev], [Readv] and [bytes2iovec].  These files say which bytes of memory the
    kernel gets and returns, so memory is modelled as bytes here.

    The theorems: the Go structure has the layout of the kernel's on every architecture;
    the pointer to an attachment that was registered is the one an event brings back; and
    an array of iovecs describes exactly the bytes of the slices. *)

From S2P Require Import Prelude Errors.

(** ** Integers in memory *)

Inductive byte_order : Set := Little | Big.

(** The [k] bytes of [v]; the integer that bytes stand for. *)
Fixpoint le_bytes (k : nat) (v : Z) : list Z :=
  match k with
  | O => []
  | S k => v mod 256 :: le_bytes k (v / 256)
  end.
Fixpoint le_value (bs : list Z) : Z :=
  match bs with
  | [] => 0
  | b :: bs => b + 256 * le_value bs
  end.
Definition to_memory (o : byte_order) (k : nat) (v : Z) : list Z :=
  match o with Little => le_bytes k v | Big => reverse (le_bytes k v) end.
Definition of_memory (o : byte_order) (bs : list Z) : Z :=
  match o with Little => le_value bs | Big => le_value (reverse bs) end.

Lemma le_bytes_length k v : length (le_bytes k v) = k.
Proof. revert v. induction k as [|k IH]; intros v; [done|]. cbn. by rewrite IH. Qed.
Lemma le_value_bytes k v : 0 <= v < 256 ^ Z.of_nat k -> le_value (le_bytes k v) = v.
Proof.
  revert v. induction k as [|k IH]; intros v Hv; [change (256 ^ Z.of_nat 0) with 1 in Hv; cbn; lia|]. cbn [le_bytes le_value].
  rewrite IH; [pose proof (Z.div_mod v 256); lia|]. rewrite Nat2Z.inj_succ, Z.pow_succ_r in Hv by lia.
  split; [apply Z.div_pos; lia|]. apply Z.div_lt_upper_bound; lia.
Qed.

Lemma to_memory_length o k v : length (to_memory o k v) = k.
Proof. destruct o; cbn [to_memory]; rewrite ?length_reverse; apply le_bytes_length. Qed.
Lemma memory_roundtrip o k v : 0 <= v < 256 ^ Z.of_nat k -> of_memory o (to_memory o k v) = v.
Proof. intros Hv. destruct o; cbn [to_memory of_memory]; rewrite ?reverse_involutive; by apply le_value_bytes. Qed.

Lemma to_of_memory o bs : Forall (fun b => 0 <= b < 256) bs -> to_memory o (length bs) (of_memory o bs) = bs.
Proof.
  assert (forall l, Forall (fun b => 0 <= b < 256) l -> le_bytes (length l) (le_value l) = l) as Hle.
  { intros l. induction 1 as [|b l Hb _ IH]; [done|]. cbn [length le_value le_bytes]. f_equal.
    - rewrite Z.mul_comm, Z.mod_add by lia. by apply Z.mod_small.
    - rewrite Z.mul_comm, Z.div_add, Z.div_small by lia. by rewrite Z.add_0_l. }
  intros Hb. destruct o; cbn [to_memory of_memory]; [by apply Hle|]. rewrite <- (length_reverse bs), Hle; [apply reverse_involutive|].
  by rewrite reverse_Permutation.
Qed.

(** ** Architectures *)

(** [mips64x] and [mipsx] are two byte orders each. *)
Inductive arch : Set :=
  | A386 | Aamd64 | Aarm | Aarm64 | Amips64x (o : byte_order) | Amipsx (o : byte_order)
  | Appc64 | Appc64le | Ariscv64 | As390x.

Definition order_of (a : arch) : byte_order :=
  match a with
  | Amips64x o | Amipsx o => o
  | Appc64 | As390x => Big
  | _ => Little
  end.
(** The size of a pointer. *)
Definition word (a : arch) : nat := match a with A386 | Aarm | Amipsx _ => 4 | _ => 8 end.

(** ** The layout of structures *)

(** The types of the fields of [epollevent]: their size, and the alignment the Go
    compiler gives them; a 64-bit integer is aligned to the word. *)
Inductive ftype : Set := Uint32 | Uint64 | Bytes (n : nat).
Definition fsize (t : ftype) : nat := match t with Uint32 => 4 | Uint64 => 8 | Bytes n => n end.
Definition falign (a : arch) (t : ftype) : nat := match t with Uint32 => 4 | Uint64 => word a | Bytes _ => 1 end.

Inductive field : Set := Fevents | Fpad | Fdata.
#[export] Instance field_eq_dec : EqDecision field.
Proof. solve_decision. Defined.

Definition round_up (n k : nat) : nat := (((n + k - 1) / k) * k)%nat.
Fixpoint offsets (align : ftype -> nat) (off : nat) (fs : list (field * ftype)) : list (field * nat) * nat :=
  match fs with
  | [] => ([], off)
  | (f, t) :: fs =>
      let at_ := round_up off (align t) in
      let '(l, n) := offsets align (at_ + fsize t)%nat fs in ((f, at_) :: l, n)
  end.

Record layout := mkLayout { l_events : nat; l_data : nat; l_size : nat }.
Definition offset_of (l : list (field * nat)) (f : field) : nat :=
  default 0%nat (snd <$> list_find (fun x => x.1 = f) l ≫= fun x => Some (x.1, x.2.2)).
Definition struct_layout (align : ftype -> nat) (fs : list (field * ftype)) : layout :=
  let '(l, n) := offsets align 0 fs in
  mkLayout (offset_of l Fevents) (offset_of l Fdata) (round_up n (foldr (fun x k => Nat.max (align x.2) k) 1%nat fs)).

(** The declarations of the [defs_linux_*.go] files. *)
Definition epollevent_386 : list (field * ftype) := [(Fevents, Uint32); (Fdata, Bytes 8)].
Definition epollevent_amd64 : list (field * ftype) := [(Fevents, Uint32); (Fdata, Bytes 8)].
Definition epollevent_arm : list (field * ftype) := [(Fevents, Uint32); (Fpad, Uint32); (Fdata, Bytes 8)].
Definition epollevent_arm64 : list (field * ftype) := [(Fevents, Uint32); (Fpad, Uint32); (Fdata, Bytes 8)].
Definition epollevent_mips64x : list (field * ftype) := [(Fevents, Uint32); (Fpad, Bytes 4); (Fdata, Bytes 8)].
Definition epollevent_ppc64 : list (field * ftype) := [(Fevents, Uint32); (Fpad, Bytes 4); (Fdata, Bytes 8)].
Definition epollevent_ppc64le : list (field * ftype) := [(Fevents, Uint32); (Fpad, Bytes 4); (Fdata, Bytes 8)].
Definition epollevent_riscv64 : list (field * ftype) := [(Fevents, Uint32); (Fpad, Bytes 4); (Fdata, Bytes 8)].
Definition epollevent_s390x : list (field * ftype) := [(Fevents, Uint32); (Fpad, Bytes 4); (Fdata, Bytes 8)].
Definition epollevent_mipsx : list (field * ftype) := [(Fevents, Uint32); (Fpad, Bytes 4); (Fdata, Uint64)].
Definition epollevent (a : arch) : list (field * ftype) :=
  match a with
  | A386 => epollevent_386
  | Aamd64 => epollevent_amd64
  | Aarm => epollevent_arm
  | Aarm64 => epollevent_arm64
  | Amips64x _ => epollevent_mips64x
  | Appc64 => epollevent_ppc64
  | Appc64le => epollevent_ppc64le
  | Ariscv64 => epollevent_riscv64
  | As390x => epollevent_s390x
  | Amipsx _ => epollevent_mipsx
  end.
Definition go_layout (a : arch) : layout := struct_layout (falign a) (epollevent a).

(** [struct epoll_event] of the kernel: [__poll_t events; __u64 data], packed on x86-64;
    C aligns a 64-bit integer to 8 bytes, to 4 on i386. *)
Definition c_align (a : arch) (t : ftype) : nat :=
  match a, t with
  | Aamd64, _ => 1
  | A386, Uint64 => 4
  | _, Uint64 => 8
  | _, Uint32 => 4
  | _, Bytes _ => 1
  end.
Definition kernel_layout (a : arch) : layout := struct_layout (c_align a) [(Fevents, Uint32); (Fdata, Uint64)].

(** The structures agree with the kernel's on every architecture. *)
Theorem epollevent_layout a : go_layout a = kernel_layout a.
Proof. by destruct a as [| | | |[]|[]| | | |]. Qed.

(** ** Events in memory *)

(** The [n] bytes at [i], and memory with [bs] at [i]. *)
Definition bytes_at (m : list Z) (i n : nat) : list Z := take n (drop i m).
Definition write_at (m : list Z) (i : nat) (bs : list Z) : list Z := take i m ++ bs ++ drop (i + length bs) m.

Lemma write_at_length m i bs : (i + length bs <= length m)%nat -> length (write_at m i bs) = length m.
Proof. intros Hl. unfold write_at. rewrite !length_app, length_take, length_drop. lia. Qed.
Lemma bytes_at_write m i bs : (i + length bs <= length m)%nat -> bytes_at (write_at m i bs) i (length bs) = bs.
Proof.
  intros Hl. unfold bytes_at, write_at. rewrite drop_app_ge by (rewrite length_take; lia).
  rewrite length_take. replace (i - i `min` length m)%nat with 0%nat by lia. rewrite drop_0, take_app_le, take_ge; done || lia.
Qed.
Lemma bytes_at_other m i bs j n :
  (i + length bs <= length m)%nat -> (j + n <= i \/ i + length bs <= j)%nat -> bytes_at (write_at m i bs) j n = bytes_at m j n.
Proof.
  intros Hl Hd. unfold bytes_at, write_at. apply list_eq. intros k.
  destruct (decide (k < n)%nat) as [Hk|Hk]; [|by rewrite !lookup_take_ge by lia].
  rewrite !lookup_take_lt, !lookup_drop by lia. destruct Hd as [Hd|Hd].
  - rewrite lookup_app_l by (rewrite length_take; lia). rewrite lookup_take_lt by lia. done.
  - rewrite lookup_app_r by (rewrite length_take; lia). rewrite lookup_app_r by (rewrite length_take; lia).
    rewrite length_take, lookup_drop. f_equal. lia.
Qed.

(** A variable [ev] of type [epollevent], zero at first, with its mask and its pointer:
    [ev.events = mask] and [*(( **PollAttachment)(unsafe.Pointer(&ev.data))) = pa]. *)
Definition registered (a : arch) (mask pa : Z) : list Z :=
  let l := go_layout a in
  let ev := replicate (l_size l) 0 in
  write_at (write_at ev (l_events l) (to_memory (order_of a) 4 mask)) (l_data l) (to_memory (order_of a) (word a) pa).

(** An element of the list of events that [epollWait] fills. *)
Definition event_mask (a : arch) (ev : list Z) : Z := of_memory (order_of a) (bytes_at ev (l_events (go_layout a)) 4).
Definition event_attachment (a : arch) (ev : list Z) : Z := of_memory (order_of a) (bytes_at ev (l_data (go_layout a)) (word a)).

(** What the kernel does with it: it keeps the eight bytes of [data] of the structure it
    is given, and returns them in an event with the bits that are ready. *)
Definition kernel_data (a : arch) (ev : list Z) : Z := of_memory (order_of a) (bytes_at ev (l_data (kernel_layout a)) 8).
Definition kernel_event (a : arch) (ready data : Z) (old : list Z) : list Z :=
  let l := kernel_layout a in
  write_at (write_at old (l_events l) (to_memory (order_of a) 4 ready)) (l_data l) (to_memory (order_of a) 8 data).
(** The array the kernel fills, over memory [old]: one structure after the other. *)
Fixpoint kernel_events (a : arch) (evs : list (Z * Z)) (old : list Z) : list Z :=
  match evs with
  | [] => old
  | (ready, data) :: evs =>
      let n := l_size (kernel_layout a) in kernel_event a ready data (take n old) ++ kernel_events a evs (drop n old)
  end.
(** [el.events[i]]. *)
Definition nth_event (a : arch) (m : list Z) (i : nat) : list Z := bytes_at m (i * l_size (go_layout a)) (l_size (go_layout a)).

Lemma layout_fits a : l_events (go_layout a) = 0%nat /\ (4 <= l_data (go_layout a))%nat /\ (l_data (go_layout a) + 8 = l_size (go_layout a))%nat.
Proof. destruct a as [| | | |[]|[]| | | |]; vm_compute; split_and!; try done; lia. Qed.
Lemma word_fits a : (word a <= 8)%nat.
Proof. destruct a; cbn; lia. Qed.

Definition is_byte (b : Z) : Prop := 0 <= b < 256.
Lemma to_memory_bytes o k v : Forall is_byte (to_memory o k v).
Proof.
  assert (Forall is_byte (le_bytes k v)) as Hl.
  { revert v. induction k as [|k IH]; intros v; constructor; [unfold is_byte; pose proof (Z.mod_pos_bound v 256); lia|apply IH]. }
  destruct o; cbn [to_memory]; [done|by rewrite reverse_Permutation].
Qed.
Lemma write_at_bytes m i bs : Forall is_byte m -> Forall is_byte bs -> Forall is_byte (write_at m i bs).
Proof. intros Hm Hb. unfold write_at. rewrite !Forall_app. split_and!; [by apply Forall_take|done|by apply Forall_drop]. Qed.
Lemma registered_bytes a mask pa : Forall is_byte (registered a mask pa).
Proof.
  unfold registered. apply write_at_bytes; [apply write_at_bytes|]; try apply to_memory_bytes. by apply Forall_replicate.
Qed.

Lemma bytes_at_length m i n : (i + n <= length m)%nat -> length (bytes_at m i n) = n.
Proof. intros Hl. unfold bytes_at. rewrite length_take, length_drop. lia. Qed.
Lemma take_bytes_at m i n k : (k <= n)%nat -> take k (bytes_at m i n) = bytes_at m i k.
Proof. intros Hk. unfold bytes_at. rewrite take_take. f_equal. lia. Qed.

(** Sides of [write_at] within their memory. *)
Ltac sizes := repeat first [rewrite length_replicate | rewrite to_memory_length | rewrite write_at_length]; lia.

Section event.
Context (a : arch).
#[local] Notation l := (go_layout a).

Lemma registered_length mask pa : length (registered a mask pa) = l_size l.
Proof.
  destruct (layout_fits a) as (He & Hd & Hs). pose proof (word_fits a). unfold registered.
  sizes.
Qed.

(** The kernel gets the mask, and with [data] the pointer. *)
Lemma registered_mask mask pa : 0 <= mask < 2 ^ 32 -> of_memory (order_of a) (bytes_at (registered a mask pa) (l_events l) 4) = mask.
Proof.
  intros Hm. destruct (layout_fits a) as (He & Hd & Hs). pose proof (word_fits a). unfold registered.
  rewrite bytes_at_other by sizes.
  rewrite <- (to_memory_length (order_of a) 4 mask) at 2. rewrite bytes_at_write by sizes.
  by apply memory_roundtrip.
Qed.
Lemma registered_pointer mask pa : bytes_at (registered a mask pa) (l_data l) (word a) = to_memory (order_of a) (word a) pa.
Proof.
  destruct (layout_fits a) as (He & Hd & Hs). pose proof (word_fits a). unfold registered.
  rewrite <- (to_memory_length (order_of a) (word a) pa) at 2. apply bytes_at_write.
  sizes.
Qed.

Lemma kernel_event_mask ready data old :
  0 <= ready < 2 ^ 32 -> length old = l_size l -> event_mask a (kernel_event a ready data old) = ready.
Proof.
  intros Hr Hl. destruct (layout_fits a) as (He & Hd & Hs). unfold event_mask, kernel_event. rewrite <- epollevent_layout.
  rewrite bytes_at_other by sizes.
  rewrite <- (to_memory_length (order_of a) 4 ready) at 2. rewrite bytes_at_write by sizes.
  by apply memory_roundtrip.
Qed.
Lemma kernel_event_pointer ready data old :
  length old = l_size l ->
  event_attachment a (kernel_event a ready data old) = of_memory (order_of a) (take (word a) (to_memory (order_of a) 8 data)).
Proof.
  intros Hl. destruct (layout_fits a) as (He & Hd & Hs). unfold event_attachment, kernel_event. rewrite <- epollevent_layout.
  f_equal. rewrite <- (take_bytes_at _ _ 8) by apply word_fits. f_equal.
  rewrite <- (to_memory_length (order_of a) 8 data) at 2. apply bytes_at_write.
  sizes.
Qed.
Lemma kernel_event_length ready data old : length old = l_size l -> length (kernel_event a ready data old) = l_size l.
Proof.
  intros Hl. destruct (layout_fits a) as (He & Hd & Hs). unfold kernel_event. rewrite <- epollevent_layout.
  sizes.
Qed.

Lemma kernel_events_nth evs old i ready data :
  (length evs * l_size l <= length old)%nat -> evs !! i = Some (ready, data) ->
  exists o, length o = l_size l /\ nth_event a (kernel_events a evs old) i = kernel_event a ready data o.
Proof.
  revert old i. induction evs as [|[r d] evs IH]; intros old i Hl Hi; [done|]. cbn [kernel_events]. rewrite <- epollevent_layout.
  cbn [length] in Hl. set (o := take (l_size l) old). assert (length o = l_size l) as Ho by (subst o; rewrite length_take; lia).
  unfold nth_event, bytes_at. destruct i as [|i].
  - cbn in Hi. simplify_eq. exists o. split; [done|]. rewrite Nat.mul_0_l, drop_0.
    rewrite take_app_le, take_ge by (rewrite kernel_event_length; done || lia). done.
  - destruct (IH (drop (l_size l) old) i) as (o' & Ho' & He); [rewrite length_drop; lia|done|]. exists o'. split; [done|].
    rewrite <- He. unfold nth_event, bytes_at. f_equal.
    rewrite drop_app_ge by (rewrite kernel_event_length by done; lia). f_equal. rewrite kernel_event_length by done. lia.
Qed.

(** The pointer that was registered comes back: whatever the mask and the other events,
    an event with the [data] the kernel read from the structure of [epollCtl] has, as an
    element of the list of [epollWait], the bits that are ready and that pointer. *)
Theorem attachment_roundtrip mask pa evs old i ready :
  0 <= pa < 256 ^ Z.of_nat (word a) -> 0 <= ready < 2 ^ 32 ->
  (length evs * l_size l <= length old)%nat -> evs !! i = Some (ready, kernel_data a (registered a mask pa)) ->
  let ev := nth_event a (kernel_events a evs old) i in event_mask a ev = ready /\ event_attachment a ev = pa.
Proof.
  intros Hpa Hr Hl Hi. destruct (kernel_events_nth evs old i ready _ Hl Hi) as (o & Ho & ->). cbv zeta.
  split; [by apply kernel_event_mask|]. rewrite kernel_event_pointer by done. unfold kernel_data. rewrite <- epollevent_layout.
  destruct (layout_fits a) as (He & Hd & Hs).
  set (bs := bytes_at (registered a mask pa) (l_data l) 8). assert (length bs = 8%nat) as Hb by (apply bytes_at_length; rewrite registered_length; lia).
  rewrite <- Hb, to_of_memory by (apply Forall_take, Forall_drop, registered_bytes).
  subst bs. rewrite take_bytes_at by apply word_fits. rewrite registered_pointer. by apply memory_roundtrip.
Qed.
End event.

(** ** The calls *)

Inductive sysno : Set := SYS_EPOLL_CTL | SYS_EPOLL_WAIT | SYS_EPOLL_PWAIT | SYS_WRITEV | SYS_READV.

(** [errnoErr] returns a value made in advance for the common numbers. *)
Definition EAGAIN : Z := 11.
Definition EINVAL : Z := 22.
Definition ENOENT : Z := 2.
Definition errEAGAIN : error := ESys EAGAIN.
Definition errEINVAL : error := ESys EINVAL.
Definition errENOENT : error := ESys ENOENT.
Definition errnoErr (e : Z) : error :=
  if e =? EAGAIN then errEAGAIN else if e =? EINVAL then errEINVAL else if e =? ENOENT then errENOENT else ESys e.

Lemma errnoErr_same e : errnoErr e = ESys e.
Proof.
  unfold errnoErr. destruct (e =? EAGAIN) eqn:E1; [apply Z.eqb_eq in E1 as ->; done|].
  destruct (e =? EINVAL) eqn:E2; [apply Z.eqb_eq in E2 as ->; done|].
  destruct (e =? ENOENT) eqn:E3; [apply Z.eqb_eq in E3 as ->; done|]. done.
Qed.

Section calls.
(** [unix.Syscall6] and [unix.RawSyscall6]: the number and the arguments, and the result
    with the errno, 0 for success.  [zero] is the address of a variable of the package. *)
Context (Syscall6 RawSyscall6 : sysno -> list Z -> Z * Z) (zero : Z).

Definition epollCtl (epfd op fd event : Z) : option error :=
  let '(_, errno) := RawSyscall6 SYS_EPOLL_CTL [epfd; op; fd; event; 0; 0] in
  if negb (errno =? 0) then Some (errnoErr errno) else None.

(** [events] is the address of the list, [n] its length; [nr] is SYS_EPOLL_WAIT, or
    SYS_EPOLL_PWAIT, without a signal mask, on arm64 and riscv64. *)
Definition epoll_wait (nr : sysno) (epfd events n msec : Z) : Z * option error :=
  let ep := if 0 <? n then events else zero in
  let '(np, errno) :=
    if msec =? 0 then RawSyscall6 nr [epfd; ep; n; 0; 0; 0] else Syscall6 nr [epfd; ep; n; msec; 0; 0] in
  if negb (errno =? 0) then (np, Some (errnoErr errno)) else (np, None).
Definition epollWait : Z -> Z -> Z -> Z -> Z * option error := epoll_wait SYS_EPOLL_WAIT.
Definition epollWait_pwait : Z -> Z -> Z -> Z -> Z * option error := epoll_wait SYS_EPOLL_PWAIT.

(** The wait of the loop, which blocks for up to 200 ms, fails with the errno of the
    call, and the kernel gets the address of the list, never a nil pointer. *)
Lemma epollWait_result nr epfd events n np errno :
  0 < n -> Syscall6 nr [epfd; events; n; 200; 0; 0] = (np, errno) ->
  epoll_wait nr epfd events n 200 = (np, if errno =? 0 then None else Some (ESys errno)).
Proof.
  intros Hn Hc. unfold epoll_wait. replace (0 <? n) with true by lia. change (200 =? 0) with false. cbv iota. rewrite Hc.
  destruct (errno =? 0); cbn; [done|]. by rewrite errnoErr_same.
Qed.

(** *** Scattered bytes *)
Record goslice := mkSlice { s_base : Z; s_len : Z }.
Record Iovec := mkIovec { Base : Z; Len : Z }.

Definition bytes2iovec (bs : list goslice) : list Iovec :=
  map (fun b => mkIovec (if 0 <? s_len b then s_base b else zero) (s_len b)) bs.

(** [Writev] and [Readv] of the BSDs; the address of the array is its list here. *)
Context (RawSyscall : sysno -> Z -> list Iovec -> Z * Z).
Definition iov_call (nr : sysno) (fd : Z) (bs : list goslice) : Z * option error :=
  if len bs =? 0 then (0, None)
  else
    let iov := bytes2iovec bs in
    let '(n, err) := RawSyscall nr fd iov in
    if negb (err =? 0) then (n, Some (ESys err)) else (n, None).
Definition Writev_bsd : Z -> list goslice -> Z * option error := iov_call SYS_WRITEV.
Definition Readv_bsd : Z -> list goslice -> Z * option error := iov_call SYS_READV.

(** Memory, and the bytes that a slice, an iovec and an array of iovecs stand for. *)
Definition memory : Type := Z -> Z.
Definition range_bytes (m : memory) (base n : Z) : list Z := map (fun i => m (base + Z.of_nat i)) (seq 0 (Z.to_nat n)).
Definition slice_bytes (m : memory) (b : goslice) : list Z := range_bytes m (s_base b) (s_len b).
Definition iov_bytes (m : memory) (v : Iovec) : list Z := range_bytes m (Base v) (Len v).

(** The kernel finds in the array exactly the bytes of the slices, in order: an empty
    slice contributes nothing although its base is the address of [zero]. *)
Theorem bytes2iovec_gathers m bs : concat (map (iov_bytes m) (bytes2iovec bs)) = concat (map (slice_bytes m) bs).
Proof.
  unfold bytes2iovec. rewrite map_map. f_equal. apply map_ext. intros b. unfold iov_bytes, slice_bytes. cbn.
  destruct (0 <? s_len b) eqn:E; [done|]. unfold range_bytes. by replace (Z.to_nat (s_len b)) with 0%nat by lia.
Qed.
Lemma bytes2iovec_length m bs : len (concat (map (iov_bytes m) (bytes2iovec bs))) = foldr (fun b n => Z.max 0 (s_len b) + n) 0 bs.
Proof.
  rewrite bytes2iovec_gathers. induction bs as [|b bs IH]; [done|]. cbn. rewrite len_app, IH. f_equal.
  unfold slice_bytes, range_bytes, len. rewrite length_map, length_seq. lia.
Qed.
End calls.

(** ** A pointer of a big-endian 32-bit machine, in the second of two events *)
Lemma attachment_roundtrip_witness :
  let a := Amipsx Big in
  let evs := [(1, 77); (5, kernel_data a (registered a 3 287454020))] in
  let ev := nth_event a (kernel_events a evs (replicate 32 0)) 1 in
  event_mask a ev = 5 /\ event_attachment a ev = 287454020.
Proof.
  exact (attachment_roundtrip (Amipsx Big) 3 287454020 [(1, 77); (5, kernel_data (Amipsx Big) (registered (Amipsx Big) 3 287454020))]
    (replicate 32 0) 1 5 ltac:(cbn; lia) ltac:(lia) ltac:(vm_compute; lia) eq_refl).
Defined.

(** The bytes: the mask, the padding and the pointer in the first half of [data]. *)
Example registered_sample : registered (Amipsx Big) 3 287454020 = [0; 0; 0; 3; 0; 0; 0; 0; 17; 34; 51; 68; 0; 0; 0; 0].
Proof. vm_compute. reflexivity. Qed.
