(* ===== verification/Wakeup.v ===== *)
(** * Waking the poller

    The protocol between [Trigger] and [UrgentTrigger], which any goroutine may call,
    and the loop of [Polling] ([core/internal/netpoll], the four pollers): tasks go into
    one of two queues, the flag [wakeupCall] lets only one caller wake the poller, and
    the loop runs tasks when it was woken.  The pollers differ in what wakes them: an
    eventfd for epoll, a user event for kqueue.  [WakeSource] is what the protocol needs
    of it, and each poller is an instance.

    Every atomic access is a step: a queue operation takes effect when its node
    is linked or unlinked and changes the length counter later, as
    [LockFreeQueue] shows.  The calls that the loop makes itself, from callbacks
    and tasks, are among the interleavings of the other threads.  A write to the
    eventfd succeeds, or fails with EAGAIN when the counter is at its maximum and
    the descriptor readable; triggering the user event succeeds.

    The theorem: whenever the loop is about to sleep and no call is under way,
    every task ever triggered has been taken out and run, in order. *)

From stdpp Require Import relations.
From S2P Require Import Prelude.

Abbreviation task := positive.

Inductive which : Set := Urgent | Async.
#[export] Instance which_eq_dec : EqDecision which.
Proof. solve_decision. Defined.

(** ** What wakes a poller *)

(** [taken]: the wait has returned the event; [drained]: the loop has handled it. *)
Class WakeSource := {
  source : Type;
  quiet : source;                     (* as OpenPoller leaves it *)
  ready : source -> bool;             (* the wait returns its event *)
  signal : source -> source;
  taken : source -> source;
  drained : source -> source;
  MaxAsyncTasksAtOneTime : nat;
}.
Class WakeLaws `{WakeSource} := {
  sound : source -> Prop;
  quiet_sound : sound quiet;
  signal_sound x : sound x -> sound (signal x);
  taken_sound x : sound x -> sound (taken x);
  drained_sound x : sound x -> sound (drained x);
  signal_ready x : sound x -> ready (signal x) = true;
}.

(** The counter of an eventfd: readable when it is positive, reset by a read. *)
Definition maxEfd : Z := 2 ^ 64 - 2.
Definition write_efd (n : Z) : Z := if n <? maxEfd then n + 1 else n.
Definition eventfd (max : nat) : WakeSource := {|
  source := Z;
  quiet := 0;
  ready n := 0 <? n;
  signal := write_efd;
  taken n := n;
  drained _ := 0;
  MaxAsyncTasksAtOneTime := max;
|}.

Lemma write_efd_pos n : 0 <= n -> 0 < write_efd n.
Proof. unfold write_efd, maxEfd. case_if; lia. Qed.
#[export] Program Instance eventfd_laws max : @WakeLaws (eventfd max) := {| sound := fun n : Z => 0 <= n |}.
Solve All Obligations with (intros; cbn in *; try pose proof (write_efd_pos _ ltac:(eassumption)); lia).

(** A user event of kqueue, registered with EV_CLEAR: pending once it is triggered,
    reset when the wait returns it. *)
Definition user_event (max : nat) : WakeSource := {|
  source := bool;
  quiet := false;
  ready b := b;
  signal _ := true;
  taken _ := false;
  drained b := b;
  MaxAsyncTasksAtOneTime := max;
|}.
#[export] Program Instance user_event_laws max : @WakeLaws (user_event max) := {| sound := fun _ : bool => True |}.
Solve All Obligations with done.

Definition epoll_default : WakeSource := eventfd 256.
Definition epoll_optimized : WakeSource := eventfd 256.
Definition kqueue_default : WakeSource := user_event 128.
Definition kqueue_optimized : WakeSource := user_event 128.

(** ** Calls and the loop *)

(** A task queue: the linked tasks and the counter [IsEmpty] reads; [ran] and
    [triggered] record what was taken out and what was put in. *)
Record tqueue := mkTQ { linked : list task; counter : Z; ran : list task; triggered : list task }.

(** A caller of [Trigger] or [UrgentTrigger]. *)
Inductive caller : Set :=
  | CIdle
  | CLink (q : which) (t : task)      (* Enqueue: link the node *)
  | CCount (q : which)                (* Enqueue: atomic.AddInt32(&q.length, 1) *)
  | CFlag                             (* CompareAndSwapInt32(&p.wakeupCall, 0, 1) *)
  | CWrite.                           (* unix.Write(p.efd, b), unix.Kevent(p.fd, note, nil, nil) *)

(** Where the loop is. *)
Inductive looppc : Set :=
  | LWait                             (* unix.EpollWait, unix.Kevent *)
  | LRead                             (* unix.Read(p.efd, p.efdBuf); nothing for kqueue *)
  | LUrgent                           (* urgentAsyncTaskQueue.Dequeue *)
  | LUrgentCount                      (* its counter *)
  | LAsync (k : nat)                  (* asyncTaskQueue.Dequeue, [k] more rounds *)
  | LAsyncCount (k : nat)
  | LStore                            (* StoreInt32(&p.wakeupCall, 0) *)
  | LEmpty1                           (* asyncTaskQueue.IsEmpty *)
  | LEmpty2                           (* urgentAsyncTaskQueue.IsEmpty *)
  | LFlag                             (* CompareAndSwapInt32(&p.wakeupCall, 0, 1) *)
  | LWrite.                           (* wake itself, as in Trigger *)

#[export] Instance looppc_eq_dec : EqDecision looppc.
Proof. solve_decision. Defined.

Section protocol.
Context `{WakeSource}.

Record state := mkState {
  urgent : tqueue;
  async : tqueue;
  wakeup : bool;
  src : source;                       (* what wakes the poller *)
  callers : list caller;
  loop : looppc;
}.

Definition get_queue (s : state) (q : which) : tqueue := match q with Urgent => urgent s | Async => async s end.
Definition set_queue (s : state) (q : which) (x : tqueue) : state :=
  match q with
  | Urgent => mkState x (async s) (wakeup s) (src s) (callers s) (loop s)
  | Async => mkState (urgent s) x (wakeup s) (src s) (callers s) (loop s)
  end.
Definition set_flag (s : state) (b : bool) : state :=
  mkState (urgent s) (async s) b (src s) (callers s) (loop s).
Definition set_src (s : state) (n : source) : state :=
  mkState (urgent s) (async s) (wakeup s) n (callers s) (loop s).
Definition set_caller (s : state) (i : nat) (c : caller) : state :=
  mkState (urgent s) (async s) (wakeup s) (src s) (<[i := c]> (callers s)) (loop s).
Definition set_loop (s : state) (p : looppc) : state :=
  mkState (urgent s) (async s) (wakeup s) (src s) (callers s) p.

Definition enqueue (q : tqueue) (t : task) : tqueue := mkTQ (linked q ++ [t]) (counter q) (ran q) (triggered q ++ [t]).
Definition count (q : tqueue) (d : Z) : tqueue := mkTQ (linked q) (counter q + d) (ran q) (triggered q).
Definition dequeue (q : tqueue) : option tqueue :=
  match linked q with
  | [] => None
  | t :: ts => Some (mkTQ ts (counter q) (ran q ++ [t]) (triggered q))
  end.

(** One step of a caller. *)
Definition call_step (s : state) (i : nat) (c : caller) : option state :=
  match c with
  | CIdle => None
  | CLink q t => Some (set_caller (set_queue s q (enqueue (get_queue s q) t)) i (CCount q))
  | CCount q => Some (set_caller (set_queue s q (count (get_queue s q) 1)) i CFlag)
  | CFlag =>
      if wakeup s then Some (set_caller s i CIdle) else Some (set_caller (set_flag s true) i CWrite)
  | CWrite => Some (set_caller (set_src s (signal (src s))) i CIdle)
  end.

(** One step of the loop.  [others] tells whether other descriptors are ready when
    the poller was not woken: the loop serves them and waits again. *)
Definition loop_step (s : state) (others : bool) : option state :=
  match loop s with
  | LWait => if ready (src s) then Some (set_loop (set_src s (taken (src s))) LRead) else if others then Some s else None
  | LRead => Some (set_loop (set_src s (drained (src s))) LUrgent)
  | LUrgent =>
      match dequeue (urgent s) with
      | Some q => Some (set_loop (set_queue s Urgent q) LUrgentCount)
      | None => Some (set_loop s (LAsync MaxAsyncTasksAtOneTime))
      end
  | LUrgentCount => Some (set_loop (set_queue s Urgent (count (urgent s) (-1))) LUrgent)
  | LAsync 0 => Some (set_loop s LStore)
  | LAsync (S k) =>
      match dequeue (async s) with
      | Some q => Some (set_loop (set_queue s Async q) (LAsyncCount k))
      | None => Some (set_loop s LStore)
      end
  | LAsyncCount k => Some (set_loop (set_queue s Async (count (async s) (-1))) (LAsync k))
  | LStore => Some (set_loop (set_flag s false) LEmpty1)
  | LEmpty1 => Some (set_loop s (if counter (async s) =? 0 then LEmpty2 else LFlag))
  | LEmpty2 => Some (set_loop s (if counter (urgent s) =? 0 then LWait else LFlag))
  | LFlag => Some (if wakeup s then set_loop s LWait else set_loop (set_flag s true) LWrite)
  | LWrite => Some (set_loop (set_src s (signal (src s))) LWait)
  end.

Inductive step : state -> state -> Prop :=
  | step_call s i q t :                                  (* a call of Trigger or UrgentTrigger *)
      callers s !! i = Some CIdle -> step s (set_caller s i (CLink q t))
  | step_caller s i c s' : callers s !! i = Some c -> call_step s i c = Some s' -> step s s'
  | step_loop s others s' : loop_step s others = Some s' -> step s s'.

Definition empty_queue : tqueue := mkTQ [] 0 [] [].
Definition init (n : nat) : state := mkState empty_queue empty_queue false quiet (replicate n CIdle) LWait.

(** ** The invariant *)

(** How many callers have linked a task and not counted it. *)
Definition uncounted (q : which) (c : caller) : Z :=
  match c with CCount q' => if decide (q = q') then 1 else 0 | _ => 0 end.
Definition total (q : which) (cs : list caller) : Z := foldr (fun c n => uncounted q c + n) 0 cs.

(** How many tasks the loop has taken out and not counted. *)
Definition undrained (q : which) (p : looppc) : Z :=
  match q, p with Urgent, LUrgentCount | Async, LAsyncCount _ => 1 | _, _ => 0 end.

(** A caller that has linked its task and will look at the flag. *)
Definition will_flag (c : caller) : bool := match c with CCount _ | CFlag => true | _ => false end.
Definition will_write (c : caller) : bool := match c with CWrite => true | _ => false end.

(** The loop runs the chores before it clears the flag. *)
Definition in_chores (p : looppc) : bool :=
  match p with LRead | LUrgent | LUrgentCount | LAsync _ | LAsyncCount _ | LStore => true | _ => false end.

(** The loop will find tasks in the queues. *)
Definition will_check (s : state) : bool :=
  match loop s with
  | LEmpty1 | LFlag => true
  | LEmpty2 => negb (bool_decide (linked (urgent s) = []))
  | _ => false
  end.

Definition some (f : caller -> bool) (s : state) : Prop := exists i c, callers s !! i = Some c /\ f c = true.

Context `{!WakeLaws}.

Record inv (s : state) : Prop := mkInv {
  inv_log q : ran (get_queue s q) ++ linked (get_queue s q) = triggered (get_queue s q);
  inv_count q : counter (get_queue s q) = len (linked (get_queue s q)) + undrained q (loop s) - total q (callers s);
  inv_src : sound (src s);
  inv_flag : wakeup s = true -> ready (src s) = true \/ some will_write s \/ in_chores (loop s) = true \/ loop s = LWrite;
  inv_tasks q : linked (get_queue s q) <> [] -> some will_flag s \/ wakeup s = true \/ in_chores (loop s) = true \/ will_check s = true;
}.

Lemma uncounted_insert q cs i c c' :
  cs !! i = Some c -> total q (<[i := c']> cs) = total q cs - uncounted q c + uncounted q c'.
Proof.
  revert i. induction cs as [|d cs IH]; intros [|i]; simpl; try done.
  - intros [= ->]. fold (total q cs). lia.
  - intros Hi. fold (total q (<[i := c']> cs)) (total q cs). rewrite (IH _ Hi). lia.
Qed.

Lemma uncounted_pos q cs : 0 < total q cs -> exists i, cs !! i = Some (CCount q).
Proof.
  induction cs as [|c cs IH]; simpl; [lia|]. fold (total q cs). intros Ht.
  destruct (decide (uncounted q c = 0)) as [E|E].
  - destruct IH as [i Hi]; [lia|]. by exists (S i).
  - exists 0%nat. destruct c; simpl in *; try done. by case_decide; subst.
Qed.

Lemma uncounted_nonneg q cs : 0 <= total q cs.
Proof.
  induction cs as [|c cs IH]; simpl; [lia|]. fold (total q cs). destruct c; simpl; try lia. case_decide; lia.
Qed.

(** A caller of kind [f] stays one unless it is the one that moves. *)
Lemma some_move f s s' i c c' :
  callers s !! i = Some c -> callers s' = <[i := c']> (callers s) -> (f c = true -> f c' = true) -> some f s -> some f s'.
Proof.
  intros Hi Hs Hf (j & d & Hj & Hd). destruct (decide (i = j)) as [->|Hne].
  - exists j, c'. rewrite Hs, list_lookup_insert_eq by by eapply lookup_lt_Some. split; [done|]. apply Hf. congruence.
  - exists j, d. by rewrite Hs, list_lookup_insert_ne.
Qed.

Lemma some_new f s s' i c c' :
  callers s !! i = Some c -> callers s' = <[i := c']> (callers s) -> f c' = true -> some f s'.
Proof.
  intros Hi Hs Hf. exists i, c'. by rewrite Hs, list_lookup_insert_eq by by eapply lookup_lt_Some.
Qed.

Lemma get_set_queue s q q' x : get_queue (set_queue s q x) q' = if decide (q = q') then x else get_queue s q'.
Proof. by destruct q, q'. Qed.

(** What a step of a caller from [c] to [c'] has to keep. *)
Lemma inv_caller s i c c' s' :
  inv s -> callers s !! i = Some c -> callers s' = <[i := c']> (callers s) -> loop s' = loop s ->
  (forall q, ran (get_queue s' q) ++ linked (get_queue s' q) = triggered (get_queue s' q)) ->
  (forall q, counter (get_queue s' q) - len (linked (get_queue s' q)) + uncounted q c'
             = counter (get_queue s q) - len (linked (get_queue s q)) + uncounted q c) ->
  sound (src s') ->
  (wakeup s' = true -> ready (src s') = true \/ some will_write s' \/ in_chores (loop s) = true \/ loop s = LWrite) ->
  ((forall q, linked (get_queue s' q) = linked (get_queue s q)) \/ will_flag c' = true) ->
  (will_flag c = true -> will_flag c' = true \/ wakeup s' = true) ->
  (wakeup s = true -> wakeup s' = true) ->
  inv s'.
Proof.
  intros Hs Hi Hc Hl Hlog Hcnt He Hf Hlk Hwf Hwk. split; try done.
  - intros q. specialize (Hcnt q). rewrite Hc, Hl, (uncounted_insert q _ _ _ c' Hi).
    pose proof (inv_count _ Hs q). lia.
  - rewrite Hl. done.
  - intros q Hq. rewrite Hl. destruct (will_flag c') eqn:Hwc; [left; by eapply some_new|].
    destruct Hlk as [Hlk|]; [|done]. rewrite Hlk in Hq. destruct (inv_tasks _ Hs q Hq) as [Hsome|[Hw|[Hin|Hck]]].
    + destruct (will_flag c) eqn:Hwo; [destruct (Hwf eq_refl); [done|by right; left]|].
      left. eapply some_move; [done..| |done]. by rewrite Hwo.
    + right. left. by apply Hwk.
    + by do 2 right; left.
    + do 3 right. unfold will_check in *. rewrite Hl. destruct (loop s); try done.
      specialize (Hlk Urgent). simpl in Hlk. by rewrite Hlk.
Qed.

(** A caller changes the queue [q] to [x] and will look at the flag. *)
Lemma inv_queue s i c c' q x :
  inv s -> callers s !! i = Some c -> will_write c = false -> will_flag c' = true ->
  ran x ++ linked x = triggered x ->
  counter x - len (linked x) + uncounted q c' = counter (get_queue s q) - len (linked (get_queue s q)) + uncounted q c ->
  (forall q', q <> q' -> uncounted q' c = uncounted q' c') ->
  inv (set_caller (set_queue s q x) i c').
Proof.
  intros Hs Hi Hw Hf Hlog Hcnt Hne.
  assert (forall q', get_queue (set_caller (set_queue s q x) i c') q' = if decide (q = q') then x else get_queue s q') as Hget
    by (intros q'; by destruct q, q').
  eapply (inv_caller s i c c'); try done; try (by destruct q).
  - intros q'. rewrite Hget. case_decide; [done|apply Hs].
  - intros q'. rewrite Hget. destruct (decide (q = q')) as [->|Hn]; [done|]. by rewrite (Hne q' Hn).
  - destruct q; apply Hs.
  - intros Hwk. assert (wakeup s = true) as Hw0 by by destruct q.
    destruct (inv_flag _ Hs Hw0) as [?|[?|?]]; [left; by destruct q|right; left|by do 2 right].
    eapply some_move; [exact Hi|by destruct q| |done]. by rewrite Hw.
  - by right.
  - by left.
Qed.

Lemma call_step_inv s i c s' : inv s -> callers s !! i = Some c -> call_step s i c = Some s' -> inv s'.
Proof.
  intros Hs Hi. pose proof (inv_flag _ Hs) as Hfl. pose proof (inv_src _ Hs) as Hef.
  destruct c as [|q t|q| |]; cbn [call_step]; [done| | | |].
  - intros [= <-]. apply (inv_queue s i (CLink q t)); try done; simpl.
    + rewrite app_assoc. f_equal. apply Hs.
    + rewrite decide_True by done. rewrite len_app. unfold len at 2. simpl. lia.
    + intros q' Hn. by rewrite decide_False.
  - intros [= <-]. apply (inv_queue s i (CCount q)); try done; simpl.
    + apply Hs.
    + rewrite decide_True by done. lia.
    + intros q' Hn. by rewrite decide_False.
  - destruct (wakeup s) eqn:Hw; intros [= <-].
    + eapply (inv_caller s i _ CIdle); try done; simpl; try apply Hs; try (by left); try (by right).
      intros _. destruct (Hfl eq_refl) as [?|[?|?]]; [by left|right; left|by do 2 right]. by eapply (some_move _ s).
    + eapply (inv_caller s i _ CWrite); try done; simpl; try apply Hs; try (by left); try (by right).
      intros _. right. left. by eapply (some_new _ s).
  - intros [= <-]. eapply (inv_caller s i _ CIdle); try done; simpl; try apply Hs; try (by left).
    + by apply signal_sound.
    + left. by apply signal_ready.
Qed.

(** A task that is linked and not counted has a caller that will look at the flag. *)
Lemma uncounted_some s q :
  inv s -> counter (get_queue s q) = 0 -> undrained q (loop s) = 0 -> linked (get_queue s q) <> [] -> some will_flag s.
Proof.
  intros Hs Hc Hu Hl. pose proof (inv_count _ Hs q) as Hcnt.
  assert (0 < len (linked (get_queue s q))) by (destruct (linked (get_queue s q)); [done|rewrite len_cons; pose proof (len_nonneg l); lia]).
  destruct (uncounted_pos q (callers s)) as [i Hi]; [lia|]. by exists i, (CCount q).
Qed.

(** The loop moves and only the loop. *)
Lemma inv_loop s s' :
  inv s -> callers s' = callers s ->
  (forall q, ran (get_queue s' q) ++ linked (get_queue s' q) = triggered (get_queue s' q)) ->
  (forall q, counter (get_queue s' q) - len (linked (get_queue s' q)) - undrained q (loop s')
             = counter (get_queue s q) - len (linked (get_queue s q)) - undrained q (loop s)) ->
  sound (src s') ->
  (wakeup s' = true -> ready (src s') = true \/ some will_write s' \/ in_chores (loop s') = true \/ loop s' = LWrite) ->
  (forall q, linked (get_queue s' q) <> [] -> some will_flag s \/ wakeup s' = true \/ in_chores (loop s') = true \/ will_check s' = true) ->
  inv s'.
Proof.
  intros Hs Hc Hlog Hcnt He Hf Ht. split; try done.
  - intros q. specialize (Hcnt q). pose proof (inv_count _ Hs q). rewrite Hc. lia.
  - intros q Hq. destruct (Ht q Hq) as [(i & c & Hi & Hfc)|?]; [|by right]. left. exists i, c. by rewrite Hc.
Qed.

Lemma dequeue_some x y : dequeue x = Some y ->
  exists t, linked x = t :: linked y /\ counter y = counter x /\ ran y = ran x ++ [t] /\ triggered y = triggered x.
Proof. unfold dequeue. destruct (linked x) as [|t ts]; [done|]. intros [= <-]. by exists t. Qed.

(** Taking a task out: the queue with the task gone, the loop about to count. *)
Lemma inv_take s q x p :
  inv s -> dequeue (get_queue s q) = Some x -> in_chores p = true ->
  undrained q (loop s) = 0 -> undrained q p = 1 -> (forall q', q' <> q -> undrained q' p = undrained q' (loop s)) ->
  inv (set_loop (set_queue s q x) p).
Proof.
  intros Hs Hd Hp Hu Hu' Hne. destruct (dequeue_some _ _ Hd) as (t & Hl & Hc & Hr & Ht).
  apply (inv_loop s); try done; try (by destruct q).
  - intros q'. change (get_queue (set_loop ?a p) q') with (get_queue a q'). rewrite get_set_queue.
    case_decide; [subst|apply Hs]. rewrite Hr, Ht, <- app_assoc. simpl. rewrite <- Hl. apply Hs.
  - intros q'. change (get_queue (set_loop ?a p) q') with (get_queue a q'). rewrite get_set_queue. simpl.
    destruct (decide (q = q')) as [->|Hn]; [rewrite Hl, Hc, len_cons; lia|]. rewrite Hne by done. lia.
  - destruct q; apply Hs.
  - intros _. right. right. by left.
  - intros q' _. right. right. by left.
Qed.

(** Counting it. *)
Lemma inv_counted s q p :
  inv s -> in_chores p = true ->
  undrained q (loop s) = 1 -> undrained q p = 0 -> (forall q', q' <> q -> undrained q' p = undrained q' (loop s)) ->
  inv (set_loop (set_queue s q (count (get_queue s q) (-1))) p).
Proof.
  intros Hs Hp Hu Hu' Hne. apply (inv_loop s); try done; try (by destruct q).
  - intros q'. change (get_queue (set_loop ?a p) q') with (get_queue a q'). rewrite get_set_queue.
    case_decide; [subst|]; apply Hs.
  - intros q'. change (get_queue (set_loop ?a p) q') with (get_queue a q'). rewrite get_set_queue. simpl.
    destruct (decide (q = q')) as [->|Hn]; [simpl; lia|]. rewrite Hne by done. lia.
  - destruct q; apply Hs.
  - intros _. right. right. by left.
  - intros q' _. right. right. by left.
Qed.

(** The loop goes on with the chores. *)
Lemma inv_chores s p :
  inv s -> in_chores p = true -> (forall q, undrained q p = undrained q (loop s)) -> inv (set_loop s p).
Proof.
  intros Hs Hp Hu. apply (inv_loop s); try done; try apply Hs.
  - intros q. simpl. rewrite Hu. done.
  - intros _. right. right. by left.
  - intros q' _. right. right. by left.
Qed.

(** The same, when what woke it has changed. *)
Lemma inv_emptied s x p :
  inv s -> sound x -> in_chores p = true -> (forall q, undrained q p = undrained q (loop s)) -> inv (set_loop (set_src s x) p).
Proof.
  intros Hs Hx Hp Hu. apply (inv_loop s); try done; try apply Hs.
  - intros q. simpl. rewrite Hu. by destruct q.
  - intros _. right. right. by left.
  - intros q' _. right. right. by left.
Qed.

(** The loop looks at the queues and the flag after the chores. *)
Lemma loop_check_inv s others s' :
  inv s -> in_chores (loop s) = false -> loop s <> LWait -> loop_step s others = Some s' -> inv s'.
Proof.
  intros Hs Hch Hwait. pose proof (inv_flag _ Hs) as Hfl. pose proof (inv_src _ Hs) as Hef. pose proof (inv_tasks _ Hs) as Htk.
  pose proof (uncounted_some s) as Hun.
  unfold loop_step. destruct (loop s) as [| | | |[|k]|k| | | | |] eqn:Hl; try done.
  - intros [= <-]. apply (inv_loop s); try done; try apply Hs; simpl.
    + intros q. rewrite Hl. by case_if; destruct q.
    + intros Hw. destruct (Hfl Hw) as [?|[?|[Hx|Hx]]]; [by left|by right; left|by rewrite ?Hl in Hx|by rewrite ?Hl in Hx].
    + intros q Hq. unfold will_check. simpl. destruct (counter (async s) =? 0) eqn:E; [|by do 3 right].
      destruct q; [do 3 right; by rewrite bool_decide_eq_false_2|]. left.
      apply (Hun Async Hs); [simpl; lia|by rewrite ?Hl|done].
  - intros [= <-]. apply (inv_loop s); try done; try apply Hs; simpl.
    + intros q. rewrite Hl. by case_if; destruct q.
    + intros Hw. destruct (Hfl Hw) as [?|[?|[Hx|Hx]]]; [by left|by right; left|by rewrite ?Hl in Hx|by rewrite ?Hl in Hx].
    + intros q Hq. unfold will_check. simpl. destruct (counter (urgent s) =? 0) eqn:E; [|by do 3 right].
      assert (linked (urgent s) <> [] -> some will_flag s) as Hu.
      { intros Hne. apply (Hun Urgent Hs); [simpl; lia|by rewrite ?Hl|done]. }
      destruct (Htk q Hq) as [?|[?|[Hx|Hck]]]; [by left|by right; left|by rewrite ?Hl in Hx|]. left. apply Hu.
      unfold will_check in Hck. rewrite Hl in Hck. by case_bool_decide.
  - destruct (wakeup s) eqn:Hw; intros [= <-]; apply (inv_loop s); try done; try apply Hs; simpl.
    + intros q. rewrite Hl. by destruct q.
    + intros _. destruct (Hfl eq_refl) as [?|[?|[Hx|Hx]]]; [by left|by right; left|by rewrite ?Hl in Hx|by rewrite ?Hl in Hx].
    + intros q _. right. by left.
    + intros q. rewrite Hl. by destruct q.
    + by do 3 right.
    + intros q _. right. by left.
  - intros [= <-]. apply (inv_loop s); try done; try apply Hs; simpl.
    + intros q. rewrite Hl. by destruct q.
    + by apply signal_sound.
    + left. by apply signal_ready.
    + intros q Hq. destruct (Htk q Hq) as [?|[?|[Hx|Hck]]]; [by left|by right; left|by rewrite ?Hl in Hx|].
      unfold will_check in Hck. by rewrite Hl in Hck.
Qed.

Lemma loop_step_inv s others s' : inv s -> loop_step s others = Some s' -> inv s'.
Proof.
  intros Hs Hstep. destruct (in_chores (loop s) || bool_decide (loop s = LWait)) eqn:Hch.
  2: { apply orb_false_iff in Hch as [Hch Hw]. apply (loop_check_inv s others); [done..| |done].
       by apply bool_decide_eq_false in Hw. }
  revert Hstep. unfold loop_step. destruct (loop s) as [| | | |[|k]|k| | | | |] eqn:Hl; try done.
  - case_if; [|destruct others; [|done]; by intros [= <-]]. intros [= <-]. apply inv_emptied; [done|by apply taken_sound, Hs|done|].
    rewrite Hl. by intros [].
  - intros [= <-]. apply inv_emptied; [done|by apply drained_sound, Hs|done|]. rewrite Hl. by intros [].
  - destruct (dequeue (urgent s)) as [x|] eqn:Hd; intros [= <-].
    + apply (inv_take s Urgent x); try done; rewrite ?Hl; try done. by intros [] ?.
    + apply inv_chores; [done..|]. rewrite Hl. by intros [].
  - intros [= <-]. apply (inv_counted s Urgent); try done; rewrite ?Hl; try done. by intros [] ?.
  - intros [= <-]. apply inv_chores; [done..|]. rewrite Hl. by intros [].
  - destruct (dequeue (async s)) as [x|] eqn:Hd; intros [= <-].
    + apply (inv_take s Async x); try done; rewrite ?Hl; try done. by intros [] ?.
    + apply inv_chores; [done..|]. rewrite Hl. by intros [].
  - intros [= <-]. apply (inv_counted s Async); try done; rewrite ?Hl; try done. by intros [] ?.
  - intros [= <-]. apply (inv_loop s); try done; try apply Hs; simpl.
    + intros q. rewrite Hl. by destruct q.
    + intros q _. by do 3 right.
Qed.

Lemma step_inv s s' : inv s -> step s s' -> inv s'.
Proof.
  intros Hs Hst. destruct Hst as [s i q t Hi|s i c s' Hi Hc|s others s' Hl].
  - pose proof (inv_flag _ Hs) as Hfl.
    eapply (inv_caller s i CIdle (CLink q t)); try done; try apply Hs; try (by left).
    intros Hw. destruct (Hfl Hw) as [?|[?|?]]; [by left|right; left|by do 2 right].
    eapply some_move; [done..| |done]. done.
  - by eapply call_step_inv.
  - by eapply loop_step_inv.
Qed.

Lemma wake_init n : inv (init n).
Proof.
  assert (total Urgent (replicate n CIdle) = 0 /\ total Async (replicate n CIdle) = 0) as [HU HA].
  { induction n as [|n [IH1 IH2]]; [done|]. simpl. fold (total Urgent (replicate n CIdle)) (total Async (replicate n CIdle)). lia. }
  split; simpl; try done; try apply quiet_sound; intros [|]; simpl; rewrite ?HU, ?HA; done.
Qed.

Lemma wake_reachable n s : rtc step (init n) s -> inv s.
Proof. intros Hr. pattern s. revert s Hr. apply rtc_ind_r; [apply wake_init|]. intros s s' _ Hst Hs. by eapply step_inv. Qed.

(** Executing a schedule. *)
Inductive turn : Set := Call (i : nat) (q : which) (t : task) | Caller (i : nat) | Loop (others : bool).

Definition turn_step (s : state) (k : turn) : option state :=
  match k with
  | Call i q t => match callers s !! i with Some CIdle => Some (set_caller s i (CLink q t)) | _ => None end
  | Caller i => match callers s !! i with Some c => call_step s i c | None => None end
  | Loop o => loop_step s o
  end.

Fixpoint schedule (s : state) (ks : list turn) : option state :=
  match ks with
  | [] => Some s
  | k :: ks => match turn_step s k with Some s' => schedule s' ks | None => None end
  end.

Lemma turns_steps ks s s' : schedule s ks = Some s' -> rtc step s s'.
Proof.
  revert s. induction ks as [|k ks IH]; intros s; cbn [schedule]; [intros [= ->]; apply rtc_refl|].
  destruct (turn_step s k) as [s1|] eqn:Hk; [|done]. intros Hs. eapply rtc_l; [|by apply IH]. clear Hs.
  destruct k as [i q t|i|o]; simpl in Hk.
  - destruct (callers s !! i) as [[]|] eqn:Hi; simplify_eq. by apply step_call.
  - destruct (callers s !! i) as [c|] eqn:Hi; [|done]. by eapply step_caller.
  - by eapply step_loop.
Qed.

(** C10: no wake-up is lost.  However calls of [Trigger] and [UrgentTrigger] from any number of goroutines
    interleave with the loop, of any of the four pollers, when the loop is about to sleep, nothing
    having woken it, and no call is under way, then both queues are empty and every task
    that was ever triggered has been taken out, in the order of the calls.  At all times a queue holds
    exactly the tasks not yet run, in order. *)
Theorem no_lost_wakeup n s (Hr : rtc step (init n) s) :
  (forall q, ran (get_queue s q) ++ linked (get_queue s q) = triggered (get_queue s q)) /\
  (loop s = LWait -> ready (src s) = false -> (forall i c, callers s !! i = Some c -> c = CIdle) ->
   forall q, linked (get_queue s q) = [] /\ ran (get_queue s q) = triggered (get_queue s q) /\ counter (get_queue s q) = 0).
Proof.
  pose proof (wake_reachable n s Hr) as Hs. split; [apply Hs|]. intros Hl He Hidle q.
  assert (forall f, f CIdle = false -> some f s -> False) as Hnone.
  { intros f Hf (i & c & Hi & Hc). by rewrite (Hidle i c Hi), Hf in Hc. }
  assert (wakeup s = false) as Hw.
  { destruct (wakeup s) eqn:Hw; [|done]. destruct (inv_flag _ Hs Hw) as [?|[Hx|[Hx|Hx]]]; [congruence|by destruct (Hnone will_write eq_refl Hx)| |];
      by rewrite Hl in Hx. }
  assert (linked (get_queue s q) = []) as Hq.
  { destruct (linked (get_queue s q)) as [|t ts] eqn:Hq; [done|].
    destruct (inv_tasks _ Hs q) as [Hx|[?|[Hx|Hx]]]; [by rewrite Hq|by destruct (Hnone will_flag eq_refl Hx)|congruence|by rewrite Hl in Hx|].
    unfold will_check in Hx. by rewrite Hl in Hx. }
  split; [done|]. split; [rewrite <- (inv_log _ Hs q), Hq; by rewrite app_nil_r|].
  rewrite (inv_count _ Hs q), Hq, Hl. assert (total q (callers s) = 0) as ->; [|by destruct q].
  pose proof (uncounted_nonneg q (callers s)). destruct (decide (total q (callers s) = 0)) as [|Hne]; [done|].
  destruct (uncounted_pos q (callers s)) as [i Hi]; [lia|]. by apply Hidle in Hi.
Qed.

End protocol.

(** A step of a call, and of the loop, of each poller. *)
Definition epoll_default_call := @call_step epoll_default.
Definition epoll_optimized_call := @call_step epoll_optimized.
Definition kqueue_default_call := @call_step kqueue_default.
Definition kqueue_optimized_call := @call_step kqueue_optimized.

(** A second call arrives while the loop runs the chores of the first and finds the flag set. *)
Definition late_call : list turn :=
  [Call 0 Async 5; Caller 0; Caller 0; Caller 0; Caller 0; Loop false; Loop false; Loop false; Loop false; Loop false;
   Loop false; Call 1 Async 6; Caller 1; Caller 1; Caller 1; Loop false; Loop false; Loop false;
   Loop false; Loop false; Loop false; Loop false; Loop false; Loop false; Loop false; Loop false; Loop false; Loop false]%nat.
Definition after_late_call (k : WakeSource) : @state k := default (init 2) (schedule (init 2) late_call).

Lemma after_late_call_reachable (k : WakeSource) :
  bool_decide (is_Some (schedule (init 2) late_call)) = true -> rtc step (init 2) (after_late_call k).
Proof. intros [s Hs]%bool_decide_eq_true. apply (turns_steps late_call). unfold after_late_call. by rewrite Hs. Qed.

Definition all_ran (k : WakeSource) : Prop :=
  let s := after_late_call k in
  triggered (async s) = [5; 6]%positive /\ linked (async s) = [] /\ ran (async s) = triggered (async s) /\ counter (async s) = 0.

Lemma no_lost_wakeup_witness : all_ran epoll_default /\ all_ran kqueue_default.
Proof.
  split; (split; [vm_compute; reflexivity|]).
  - apply (proj2 (@no_lost_wakeup epoll_default (eventfd_laws 256) 2 _ (after_late_call_reachable epoll_default eq_refl)) ltac:(vm_compute; reflexivity) ltac:(vm_compute; reflexivity)
      ltac:(intros [|[|i]] c; vm_compute; congruence) Async).
  - apply (proj2 (@no_lost_wakeup kqueue_default (user_event_laws 128) 2 _ (after_late_call_reachable kqueue_default eq_refl)) ltac:(vm_compute; reflexivity) ltac:(vm_compute; reflexivity)
      ltac:(intros [|[|i]] c; vm_compute; congruence) Async).
Defined.
