(* ===== verification/RedisConn.v ===== *)
(** * The redis client

    [core/pkg/redis/conn.go]: the synchronous connection the proxy uses to ask a
    node for INFO and to probe it with PING, with [redisInfo] of
    [core/cluster.go].  Commands are buffered and flushed, replies are read one
    by one; an error of the network or of the protocol closes the connection.

    The network is a stream in each direction: [n_in] is what the server sends
    before reads fail with [n_rerr] (its end, or the read deadline), and writes
    succeed until [n_room] bytes have been accepted.  [bufio] is modelled with its
    buffer of 40960 bytes; a read of a line depends only on the stream, because
    the reader slides and refills its buffer.  Operations return a value or an
    error and the new state of the connection. *)

From S2P Require Import Prelude Errors Codec Message CodecS Cluster.

(** ** The connection *)

Record net := mkNet {
  n_in : bytes;
  n_rerr : error;
  n_out : bytes;
  n_room : Z;
  n_werr : error;
  n_closed : bool;
}.

Record rconn := mkRConn {
  rc_err : option error;
  rc_net : net;
  rc_pending : Z;
  rc_readTimeout : Z;
  rc_writeTimeout : Z;
  rc_bw : bytes;                       (* what the writer holds *)
  rc_bwerr : option error;
  rc_lenScratch : list Z;              (* 32 bytes *)
}.

Definition bufsize : Z := 4096 * 10.

Definition set_net (c : rconn) (n : net) : rconn :=
  mkRConn (rc_err c) n (rc_pending c) (rc_readTimeout c) (rc_writeTimeout c) (rc_bw c) (rc_bwerr c) (rc_lenScratch c).
Definition set_bw (c : rconn) (b : bytes) (e : option error) : rconn :=
  mkRConn (rc_err c) (rc_net c) (rc_pending c) (rc_readTimeout c) (rc_writeTimeout c) b e (rc_lenScratch c).
Definition set_pending (c : rconn) (p : Z) : rconn :=
  mkRConn (rc_err c) (rc_net c) p (rc_readTimeout c) (rc_writeTimeout c) (rc_bw c) (rc_bwerr c) (rc_lenScratch c).
Definition set_scratch (c : rconn) (s : list Z) : rconn :=
  mkRConn (rc_err c) (rc_net c) (rc_pending c) (rc_readTimeout c) (rc_writeTimeout c) (rc_bw c) (rc_bwerr c) s.
Definition set_err (c : rconn) (e : option error) : rconn :=
  mkRConn e (rc_net c) (rc_pending c) (rc_readTimeout c) (rc_writeTimeout c) (rc_bw c) (rc_bwerr c) (rc_lenScratch c).
Definition set_in (c : rconn) (i : bytes) : rconn :=
  set_net c (mkNet i (n_rerr (rc_net c)) (n_out (rc_net c)) (n_room (rc_net c)) (n_werr (rc_net c)) (n_closed (rc_net c))).

(** Computations on the connection that may fail with an error. *)
Definition rd (A : Type) : Type := rconn -> res ((A + error) * rconn).
Definition ret {A} (a : A) : rd A := fun c => Ok (inl a, c).
Definition raise {A} (e : error) : rd A := fun c => Ok (inr e, c).
Definition and_then {A B} (m : rd A) (f : A -> rd B) : rd B := fun c =>
  '(r, c) ← m c;
  match r with inl a => f a c | inr e => Ok (inr e, c) end.
(** Run [m]; when it fails, run [h] on the error and fail with the same error. *)
Definition on_error {A} (m : rd A) (h : error -> rconn -> rconn) : rd A := fun c =>
  '(r, c) ← m c;
  match r with inl a => Ok (inl a, c) | inr e => Ok (inr e, h e c) end.
Notation "'let*' x := m 'in' k" := (and_then m (fun x => k)) (at level 200, x pattern, m at level 100, k at level 200).
Notation "m ;;; k" := (and_then m (fun _ => k)) (at level 100, k at level 200, right associativity).

(** ** The network and its buffers *)

Definition net_close (n : net) : net := mkNet (n_in n) (n_rerr n) (n_out n) (n_room n) (n_werr n) true.

Definition errClosed : error := EText (str "use of closed network connection").

(** [net.Conn.Write]: everything, or an error. *)
Definition net_Write (n : net) (p : bytes) : Z * option error * net :=
  if n_closed n then (0, Some errClosed, n)
  else
    let k := Z.min (len p) (Z.max 0 (n_room n)) in
    (k, if k <? len p then Some (n_werr n) else None,
     mkNet (n_in n) (n_rerr n) (n_out n ++ subl p 0 k) (n_room n - k) (n_werr n) false).

Definition SetDeadline : rd unit := fun c =>
  if n_closed (rc_net c) then Ok (inr errClosed, c) else Ok (inl tt, c).

(** [bufio.Writer.Flush]. *)
Definition bw_Flush : rd unit := fun c =>
  match rc_bwerr c with
  | Some e => Ok (inr e, c)
  | None =>
      if len (rc_bw c) =? 0 then Ok (inl tt, c)
      else
        let '(n, err, nt) := net_Write (rc_net c) (rc_bw c) in
        match err with
        | Some e => Ok (inr e, set_bw (set_net c nt) (subl (rc_bw c) n (len (rc_bw c))) (Some e))
        | None => Ok (inl tt, set_bw (set_net c nt) [] None)
        end
  end.

Definition bw_Available (c : rconn) : Z := bufsize - len (rc_bw c).

(** [bufio.Writer.Write]. *)
Fixpoint bw_Write (fuel : nat) (p : bytes) : rd unit := fun c =>
  match fuel with
  | O => OutOfFuel
  | S fuel =>
      match rc_bwerr c with
      | Some e => Ok (inr e, c)
      | None =>
          if bw_Available c <? len p then
            if len (rc_bw c) =? 0 then
              let '(n, err, nt) := net_Write (rc_net c) p in
              bw_Write fuel (subl p n (len p)) (set_bw (set_net c nt) [] err)
            else
              let n := bw_Available c in
              '(_, c) ← bw_Flush (set_bw c (rc_bw c ++ subl p 0 n) None);
              bw_Write fuel (subl p n (len p)) c
          else Ok (inl tt, set_bw c (rc_bw c ++ p) None)
      end
  end.

(** [bufio.Writer.WriteString]: a [net.Conn] is not a [StringWriter], so every part
    goes through the buffer. *)
Fixpoint bw_WriteString (fuel : nat) (s : bytes) : rd unit := fun c =>
  match fuel with
  | O => OutOfFuel
  | S fuel =>
      match rc_bwerr c with
      | Some e => Ok (inr e, c)
      | None =>
          if bw_Available c <? len s then
            let n := bw_Available c in
            '(_, c) ← bw_Flush (set_bw c (rc_bw c ++ subl s 0 n) None);
            bw_WriteString fuel (subl s n (len s)) c
          else Ok (inl tt, set_bw c (rc_bw c ++ s) None)
      end
  end.

(** Every round but the first writes at least a buffer or everything. *)
Definition Write (p : bytes) : rd unit := bw_Write (4 + length p) p.
Definition WriteString (s : bytes) : rd unit := bw_WriteString (4 + length s) s.

(** [bufio.Reader.ReadSlice('\n')]: the slice and, unless it ends the line, whether the
    buffer was full or the read failed. *)
Definition ReadSlice (c : rconn) : bytes * option (option error) * rconn :=
  let s := n_in (rc_net c) in
  let i := IndexByte (subl s 0 bufsize) 10 in
  if negb (i =? -1) then (subl s 0 (i + 1), None, set_in c (subl s (i + 1) (len s)))
  else if bufsize <=? len s then (subl s 0 bufsize, Some None, set_in c (subl s bufsize (len s)))
  else (s, Some (Some (n_rerr (rc_net c))), set_in c []).

(** [io.ReadFull]. *)
Definition ReadFull (n : Z) : rd bytes := fun c =>
  let s := n_in (rc_net c) in
  if n <=? len s then Ok (inl (subl s 0 n), set_in c (subl s n (len s)))
  else
    let e := n_rerr (rc_net c) in
    Ok (inr (if bool_decide (e = EIo EOF) && (0 <? len s) then EText (str "unexpected EOF") else e), set_in c []).

(** ** Commands *)

(** The loop of [writeLen] fills the scratch space from its end; [i] is the next
    index and [n] the digits left. *)
Fixpoint len_loop (fuel : nat) (s : list Z) (i n : Z) : res (list Z * Z) :=
  match fuel with
  | O => OutOfFuel
  | S fuel =>
      s ← set_index s i ((48 + Z.rem n 10) `mod` 2 ^ 8);
      let i := i - 1 in
      let n := Z.quot n 10 in
      if n =? 0 then Ok (s, i) else len_loop fuel s i n
  end.

Definition writeLen (prefix n : Z) : rd unit := fun c =>
  s ← set_index (rc_lenScratch c) (len (rc_lenScratch c) - 1) 10;
  s ← set_index s (len s - 2) 13;
  '(s, i) ← len_loop (length s) s (len s - 3) n;
  s ← set_index s i prefix;
  p ← slice s i (len s);
  Write p (set_scratch c s).

Definition writeString (s : bytes) : rd unit :=
  writeLen 36 (len s) ;;; WriteString s ;;; WriteString crlf.

Definition writeBytes (p : bytes) : rd unit :=
  writeLen 36 (len p) ;;; Write p ;;; WriteString crlf.

Definition writeInt64 (n : Z) : rd unit := writeBytes (Itoa n).

Section args.
(** Values of other types, and how [fmt] and [strconv] print them. *)
Context (float64 other : Type) (FormatFloat : float64 -> bytes) (Fprint : other -> bytes).

(** The dynamic types of an argument; [ArgArgument] implements [Argument], and is printed
    by [fmt] as [text] when it is the result of [RedisArg] itself. *)
Inductive arg : Type :=
  | ArgString (s : bytes)
  | ArgBytes (p : bytes)
  | ArgInt (n : Z)
  | ArgInt64 (n : Z)
  | ArgFloat64 (x : float64)
  | ArgBool (b : bool)
  | ArgNil
  | ArgArgument (RedisArg : arg) (text : bytes)
  | ArgOther (x : other).

Definition writeFloat64 (x : float64) : rd unit := writeBytes (FormatFloat x).

Fixpoint writeArg (a : arg) (argumentTypeOK : bool) : rd unit :=
  match a with
  | ArgString s => writeString s
  | ArgBytes p => writeBytes p
  | ArgInt n | ArgInt64 n => writeInt64 n
  | ArgFloat64 x => writeFloat64 x
  | ArgBool true => writeString (str "1")
  | ArgBool false => writeString (str "0")
  | ArgNil => writeString []
  | ArgArgument r text => if argumentTypeOK then writeArg r false else writeBytes text
  | ArgOther x => writeBytes (Fprint x)
  end.

Fixpoint writeArgs (args : list arg) : rd unit :=
  match args with
  | [] => ret tt
  | a :: args => writeArg a true ;;; writeArgs args
  end.

Definition writeCommand (cmd : bytes) (args : list arg) : rd unit :=
  writeLen 42 (1 + len args) ;;; writeString cmd ;;; writeArgs args.

(** ** Replies *)

Definition protocolError (s : string) : error := EText (str s).

(** The fall-back loop of [readLine] for lines longer than the buffer. *)
Fixpoint long_line (fuel : nat) (acc : bytes) : rd bytes := fun c =>
  match fuel with
  | O => OutOfFuel
  | S fuel =>
      let '(p, err, c) := ReadSlice c in
      match err with
      | None => Ok (inl (acc ++ p), c)
      | Some (Some e) => Ok (inr e, c)
      | Some None => long_line fuel (acc ++ p) c
      end
  end.

(** The end of [readLine]: the line without its terminator. *)
Definition trim_line (p : bytes) : rd bytes := fun c =>
  let i := len p - 2 in
  if i <? 0 then Ok (inr (protocolError "bad response line terminator"), c)
  else
    b ← index p i;
    if negb (b =? 13) then Ok (inr (protocolError "bad response line terminator"), c)
    else l ← slice p 0 i; Ok (inl l, c).

Definition readLine : rd bytes := fun c =>
  let '(p, err, c) := ReadSlice c in
  '(r, c) ←
    match err with
    | None => Ok (inl p, c)
    | Some (Some e) => Ok (inr e, c)
    | Some None => long_line (S (length (n_in (rc_net c)))) p c
    end;
  match r with
  | inr e => Ok (inr e, c)
  | inl p => trim_line p c
  end.

Fixpoint number_loop (p : bytes) (n : Z) : Z + error :=
  match p with
  | [] => inl n
  | b :: p =>
      let n := wrap64 (n * 10) in
      if (b <? 48) || (57 <? b) then inr (protocolError "illegal bytes in length")
      else number_loop p (wrap64 (n + (b - 48)))
  end.

Definition parseLen (p : bytes) : Z + error :=
  if len p =? 0 then inr (protocolError "malformed length")
  else if bool_decide (p = [45; 49]) then inl (-1)
  else number_loop p 0.

Definition parseInt (p : bytes) : Z + error :=
  match p with
  | [] => inr (protocolError "malformed integer")
  | b :: p' =>
      let negate := b =? 45 in
      let p := if negate then p' else p in
      if len p =? 0 then inr (protocolError "malformed integer")
      else
        match number_loop p 0 with
        | inr e => inr e
        | inl n => inl (if negate then wrap64 (- n) else n)
        end
  end.

(** The dynamic types of a reply. *)
Inductive value : Set :=
  | VNil
  | VString (s : bytes)
  | VError (s : bytes)
  | VInt (n : Z)
  | VBytes (p : bytes)
  | VArray (vs : list value).

(** What [make] refuses: more than the address space. *)
Definition maxAlloc : Z := 2 ^ 48.

(** [n] replies in a row. *)
Fixpoint read_array (readReply : rd value) (n : nat) : rd (list value) :=
  match n with
  | O => ret []
  | S n => let* v := readReply in let* vs := read_array readReply n in ret (v :: vs)
  end.

Definition read_bulk (n : Z) : rd value :=
  let* p := ReadFull n in
  let* line := readLine in
  if negb (len line =? 0) then raise (protocolError "bad bulk string format") else ret (VBytes p).

Fixpoint readReply (fuel : nat) : rd value :=
  match fuel with
  | O => fun _ => OutOfFuel
  | S fuel =>
      let* line := readLine in
      match line with
      | [] => raise (protocolError "short response line")
      | b :: rest =>
          if b =? 43 then ret (VString rest)
          else if b =? 45 then ret (VError rest)
          else if b =? 58 then match parseInt rest with inl n => ret (VInt n) | inr e => raise e end
          else if b =? 36 then
            match parseLen rest with
            | inr e => raise e
            | inl n =>
                if n <? 0 then ret VNil
                else if maxAlloc <? n then fun _ => Panic
                else read_bulk n
            end
          else if b =? 42 then
            match parseLen rest with
            | inr e => raise e
            | inl n =>
                if n <? 0 then ret VNil
                else if maxAlloc <? 16 * n then fun _ => Panic
                else let* vs := read_array (readReply fuel) (Z.to_nat n) in ret (VArray vs)
            end
          else raise (protocolError "unexpected response line")
      end
  end.

(** A reply; the fuel is enough because every nested array takes a line. *)
Definition ReadReply : rd value := fun c => readReply (S (length (n_in (rc_net c)))) c.

(** ** The operations *)

Definition errDone : error := EText (str "redigo: closed").

Definition Close (c : rconn) : option error * rconn :=
  match rc_err c with
  | Some e => (Some e, c)
  | None =>
      let e := if n_closed (rc_net c) then Some errClosed else None in
      (e, set_net (set_err c (Some errDone)) (net_close (rc_net c)))
  end.

(** [fatal] closes the connection at the first error. *)
Definition fatal (e : error) (c : rconn) : rconn :=
  match rc_err c with
  | Some _ => c
  | None => set_net (set_err c (Some e)) (net_close (rc_net c))
  end.

Definition SetWriteDeadline : rd unit := fun c =>
  if rc_writeTimeout c =? 0 then Ok (inl tt, c) else on_error SetDeadline fatal c.

Definition Send (cmd : bytes) (args : list arg) : rd unit := fun c =>
  (SetWriteDeadline ;;; on_error (writeCommand cmd args) fatal) (set_pending c (rc_pending c + 1)).

Definition Flush : rd unit := SetWriteDeadline ;;; on_error bw_Flush fatal.

Definition Receive : rd value := fun c =>
  (on_error SetDeadline fatal ;;;
   let* reply := on_error ReadReply fatal in
   fun c =>
     let c := if 0 <? rc_pending c then set_pending c (rc_pending c - 1) else c in
     match reply with
     | VError e => Ok (inr (EReply e), c)
     | _ => Ok (inl reply, c)
     end) c.

(** The loop of [DoWithTimeout] over [k + 1] replies: the last one, and the first
    error among them. *)
Fixpoint read_replies (k : nat) (err : option error) : rd (value * option error) :=
  let* reply := on_error ReadReply fatal in
  let err := match err, reply with None, VError e => Some (EReply e) | _, _ => err end in
  match k with
  | O => ret (reply, err)
  | S k => read_replies k err
  end.

(** [Do]: the reply, which may come with an error reply of an earlier command. *)
Definition Do (cmd : bytes) (args : list arg) : rd (value * option error) := fun c =>
  let pending := rc_pending c in
  let c := set_pending c 0 in
  if bool_decide (cmd = []) && (pending =? 0) then Ok (inl (VNil, None), c)
  else
    (SetWriteDeadline ;;;
     on_error (writeCommand cmd args) fatal ;;;
     on_error bw_Flush fatal ;;;
     on_error SetDeadline fatal ;;;
     read_replies (Z.to_nat pending) None) c.

(** The options of [Dial]; times in nanoseconds. *)
Record dialOptions := mkDialOptions { do_readTimeout : Z; do_writeTimeout : Z; do_connect : Z }.
Definition DialReadTimeout (d : Z) (o : dialOptions) : dialOptions := mkDialOptions d (do_writeTimeout o) (do_connect o).
Definition DialWriteTimeout (d : Z) (o : dialOptions) : dialOptions := mkDialOptions (do_readTimeout o) d (do_connect o).
Definition DialConnectTimeout (d : Z) (o : dialOptions) : dialOptions := mkDialOptions (do_readTimeout o) (do_writeTimeout o) d.
Definition dial_options (options : list (dialOptions -> dialOptions)) : dialOptions :=
  foldl (fun o f => f o) (mkDialOptions (3 * 1000000000) (3 * 1000000000) (30 * 1000000000)) options.

(** [Dial], given the outcome of connecting. *)
Definition Dial (connected : net + error) (passwd : bytes) (readTimeout writeTimeout : Z) : res ((rconn + error)) :=
  match connected with
  | inr e => Ok (inr e)
  | inl n =>
      let c := mkRConn None n 0 readTimeout writeTimeout [] None (replicate 32 0) in
      if bool_decide (passwd = []) then Ok (inl c)
      else
        '(r, c) ← Do (str "AUTH") [ArgString passwd] c;
        match r with
        | inr e | inl (_, Some e) => Ok (inr e)
        | inl (_, None) => Ok (inl c)
        end
  end.

(** ** INFO *)

(** [strings.Split] with the separator CR LF. *)
Fixpoint SplitCRLF (s : bytes) : list bytes :=
  match s with
  | [] => [[]]
  | a :: s' =>
      let go := match SplitCRLF s' with [] => [[a]] | w :: ws => (a :: w) :: ws end in
      match s' with
      | b :: t => if (a =? 13) && (b =? 10) then [] :: SplitCRLF t else go
      | [] => go
      end
  end.

(** [strings.TrimSpace] on ASCII text. *)
Definition is_space (b : Z) : bool := (b =? 32) || ((9 <=? b) && (b <=? 13)).
Fixpoint trim_left (s : bytes) : bytes :=
  match s with b :: s' => if is_space b then trim_left s' else s | [] => [] end.
Definition TrimSpace (s : bytes) : bytes := reverse (trim_left (reverse (trim_left s))).

(** [strings.TrimPrefix]. *)
Definition TrimPrefix (s p : bytes) : bytes := if HasPrefix s p then subl s (len p) (len s) else s.

Definition field (line name : bytes) : option bytes :=
  if HasPrefix line name then Some (TrimSpace (TrimPrefix line name)) else None.

Definition info_line (i : Info) (line : bytes) : Info :=
  let i := match field line (str "loading:") with
           | Some v => mkInfo (i_Version i) (negb (bool_decide (v = str "0"))) (i_MasterLinkStatus i)
           | None => i end in
  let i := match field line (str "master_link_status:") with
           | Some v => mkInfo (i_Version i) (i_Loading i) v
           | None => i end in
  match field line (str "redis_version:") with
  | Some v => mkInfo v (i_Loading i) (i_MasterLinkStatus i)
  | None => i
  end.

Definition info_text (msg : bytes) : res (Info + error) :=
  if len msg <? 1 then Ok (inr (EText (str "redis info empty")))
  else
    b ← index msg 0;
    if b =? 45 then Ok (inr (EText (str "redis info error, ret msg: " ++ msg)))
    else
      s ← slice msg (IndexByte msg 10 + 1) (len msg);
      Ok (inl (fold_left info_line (SplitCRLF s) (mkInfo [] false []))).

Definition conn_Info : rd Info :=
  let* (i, err) := Do (str "info") [] in
  match err, i with
  | Some e, _ => raise e
  | None, VBytes msg =>
      fun c => r ← info_text msg; Ok (r, c)
  | None, _ => raise (EText (str "redis info asset error"))
  end.

(** [redisInfo] of [core/cluster.go]. *)
Definition redisInfo (connected : net + error) (passwd : bytes) : res ((Info + error) * option net) :=
  d ← Dial connected passwd 3000000000 3000000000;
  match d with
  | inr e => Ok (inr e, None)
  | inl c =>
      '(r, c) ← conn_Info c;
      let '(_, c) := Close c in
      Ok (r, Some (rc_net c))
  end.

(** [detect] of [core/redis_pool.go]. *)
Definition detect (connected : net + error) (passwd : bytes) : res (option error) :=
  d ← Dial connected passwd 3000000000 3000000000;
  match d with
  | inr e => Ok (Some e)
  | inl c =>
      '(r, c) ← Do (str "PING") [] c;
      match r with
      | inr e | inl (_, Some e) => Ok (Some e)
      | inl (VString v, None) => Ok (if negb (bool_decide (v = str "PONG")) then Some (EText (str "invalid res" ++ v)) else None)
      | inl (_, None) => Ok (Some (EText (str "unknown res")))
      end
  end.
End args.
