(* ===== verification/RedisClient.v ===== *)
(** * What the redis client promises

    Theorems about [RedisConn]: commands go out whole and in order, each reply
    goes to its command, every read of a reply ends, an error closes the
    connection for good, and INFO and PING are read as the server printed them. *)

From S2P Require Import Prelude Errors Codec Message CodecS Cluster RedisConn.

Abbreviation parseLen := RedisConn.parseLen.
Abbreviation readReply := RedisConn.readReply.

(** ** Running computations *)

Lemma and_then_inl {A B} (m : rd A) (f : A -> rd B) c a c' :
  m c = Ok (inl a, c') -> and_then m f c = f a c'.
Proof. intros H. unfold and_then. by rewrite H, res_bind_Ok. Qed.

Lemma and_then_inr {A B} (m : rd A) (f : A -> rd B) c e c' :
  m c = Ok (inr e, c') -> and_then m f c = Ok (inr e, c').
Proof. intros H. unfold and_then. by rewrite H, res_bind_Ok. Qed.

Lemma on_error_inl {A} (m : rd A) h c a c' : m c = Ok (inl a, c') -> on_error m h c = Ok (inl a, c').
Proof. intros H. unfold on_error. by rewrite H, res_bind_Ok. Qed.

(** ** Writing *)

(** Everything the client has written, sent or not. *)
Definition written (c : rconn) : bytes := n_out (rc_net c) ++ rc_bw c.

(** How much the network takes in all. *)
Definition capacity (c : rconn) : Z := n_room (rc_net c) + len (n_out (rc_net c)).

Record ready (c : rconn) : Prop := mkReady {
  rdy_err : rc_bwerr c = None;
  rdy_open : n_closed (rc_net c) = false;
  rdy_buf : len (rc_bw c) <= bufsize;
  rdy_scratch : length (rc_lenScratch c) = 32%nat;
}.

(** [p] was written, and nothing else happened. *)
Record wrote (c : rconn) (p : bytes) (c' : rconn) : Prop := mkWrote {
  wr_err : rc_err c' = rc_err c;
  wr_pending : rc_pending c' = rc_pending c;
  wr_rt : rc_readTimeout c' = rc_readTimeout c;
  wr_wt : rc_writeTimeout c' = rc_writeTimeout c;
  wr_in : n_in (rc_net c') = n_in (rc_net c);
  wr_rerr : n_rerr (rc_net c') = n_rerr (rc_net c);
  wr_written : written c' = written c ++ p;
  wr_capacity : capacity c' = capacity c;
  wr_ready : ready c';
}.

Definition fits (c : rconn) (p : bytes) : Prop := len (written c) + len p <= capacity c.

Lemma wrote_refl c : ready c -> wrote c [] c.
Proof. intros. split; try done. by rewrite app_nil_r. Qed.

Lemma wrote_trans c p c1 q c2 : wrote c p c1 -> wrote c1 q c2 -> wrote c (p ++ q) c2.
Proof.
  intros [] []. split; try congruence.
  all: try (etransitivity; eassumption). by rewrite app_assoc, <- wr_written0.
Qed.

Lemma fits_app c p q c1 : wrote c p c1 -> fits c (p ++ q) -> fits c1 q.
Proof. unfold fits. intros [] Hf. rewrite wr_written0, wr_capacity0, !len_app in *. lia. Qed.

Lemma fits_l c p q : fits c (p ++ q) -> fits c p.
Proof. unfold fits. rewrite len_app. pose proof (len_nonneg q). lia. Qed.

(** The network takes [p] when there is room. *)
Lemma net_Write_ok n p :
  n_closed n = false -> len p <= n_room n ->
  net_Write n p = (len p, None, mkNet (n_in n) (n_rerr n) (n_out n ++ p) (n_room n - len p) (n_werr n) false).
Proof.
  intros Hc Hr. unfold net_Write. rewrite Hc. pose proof (len_nonneg p).
  replace (Z.min (len p) (Z.max 0 (n_room n))) with (len p) by lia. rewrite Z.ltb_irrefl, subl_full. done.
Qed.

Lemma Flush_ok c p :
  rc_bwerr c = None -> n_closed (rc_net c) = false -> length (rc_lenScratch c) = 32%nat -> fits c p ->
  exists c', bw_Flush c = Ok (inl tt, c') /\ wrote c [] c' /\ rc_bw c' = [].
Proof.
  intros He Hc Hs Hf. unfold bw_Flush. rewrite He. case_if.
  - exists c. assert (rc_bw c = []) as Hb by (apply len_0_nil; lia). split_and!; [done| |done].
    apply wrote_refl. split; try done. rewrite Hb. vm_compute. discriminate.
  - pose proof (len_nonneg p). unfold fits, written, capacity in Hf. rewrite len_app in Hf.
    rewrite net_Write_ok by (done || lia). eexists. split; [done|]. split; [|done].
    split; try done; unfold capacity; simpl. rewrite len_app. lia.
Qed.

(** What a part of [p] moved through the buffer leaves. *)
Lemma wrote_part c p n :
  ready c -> 0 <= n <= len p -> len (rc_bw c) + n <= bufsize ->
  wrote c (subl p 0 n) (set_bw c (rc_bw c ++ subl p 0 n) None).
Proof.
  intros [] Hn Hb. split; try done; unfold written; simpl.
  - by rewrite app_assoc.
  - split; try done. simpl. rewrite len_app, len_subl; lia.
Qed.

Lemma subl_parts (p : bytes) n : 0 <= n <= len p -> subl p 0 n ++ subl p n (len p) = p.
Proof. intros Hn. rewrite subl_split by lia. apply subl_full. Qed.

(** One round of the write loops: the buffer is filled and flushed. *)
Lemma fill_flush c p n :
  ready c -> fits c p -> n = bw_Available c -> n <= len p ->
  exists c1, bw_Flush (set_bw c (rc_bw c ++ subl p 0 n) None) = Ok (inl tt, c1) /\
             wrote c (subl p 0 n) c1 /\ rc_bw c1 = [] /\ fits c1 (subl p n (len p)).
Proof.
  intros Hr Hf Hn Hle. assert (0 <= n) as Hn0 by (unfold bw_Available in Hn; pose proof (rdy_buf _ Hr); lia).
  assert (wrote c (subl p 0 n) (set_bw c (rc_bw c ++ subl p 0 n) None)) as Hw.
  { apply wrote_part; [done|lia|]. unfold bw_Available in Hn. lia. }
  destruct (wr_ready _ _ _ Hw) as [H1 H2 H3 H4].
  assert (fits (set_bw c (rc_bw c ++ subl p 0 n) None) (subl p n (len p))) as Hf1.
  { eapply fits_app; [done|]. by rewrite subl_parts. }
  destruct (Flush_ok _ _ H1 H2 H4 Hf1) as (c1 & Hc1 & Hw1 & Hb1).
  exists c1. split; [done|]. split; [|split; [done|]].
  - rewrite <- (app_nil_r (subl p 0 n)). by eapply wrote_trans.
  - by eapply (fits_app _ []).
Qed.

Lemma bw_Write_ok fuel p c :
  ready c -> fits c p -> (length p + (if Z.eq_dec (bw_Available c) 0%Z then 1 else 0) < fuel)%nat ->
  exists c', bw_Write fuel p c = Ok (inl tt, c') /\ wrote c p c'.
Proof.
  revert p c. induction fuel as [|fuel IH]; intros p c Hr Hf Hl; [lia|]. cbn [bw_Write].
  pose proof (rdy_buf _ Hr) as Hb. rewrite (rdy_err _ Hr). case_if.
  - assert (0 < len p) as Hp by (unfold bw_Available in *; lia). case_if.
    + assert (rc_bw c = []) as Hnil by (apply len_0_nil; lia).
      unfold fits, written, capacity in Hf. rewrite Hnil, app_nil_r in Hf.
      rewrite net_Write_ok by (apply Hr || lia). rewrite (subl_nil p (len p)) by lia.
      set (c1 := set_bw _ [] None). destruct (IH [] c1) as (c' & Hc' & Hw').
      * split; try done; try apply Hr.
      * unfold fits, written, capacity. simpl. rewrite app_nil_r, len_app, len_nil. lia.
      * destruct (Z.eq_dec (bw_Available c1) 0) as [E|]; [vm_compute in E; lia|]. unfold len in *. cbn [length]. lia.
      * exists c'. split; [exact Hc'|]. rewrite <- (app_nil_r p). eapply wrote_trans; [|exact Hw'].
        split; try done; unfold written, capacity; simpl; try apply Hr.
        -- by rewrite Hnil, !app_nil_r.
        -- rewrite len_app. lia.
        -- split; try done; apply Hr.
    + destruct (fill_flush c p (bw_Available c) Hr Hf eq_refl) as (c1 & Hfl & Hw & Hnil & Hf1); [lia|].
      rewrite Hfl, res_bind_Ok.
      destruct (IH (subl p (bw_Available c) (len p)) c1) as (c' & Hc' & Hw'); [apply Hw|done| |].
      * pose proof (len_subl p (bw_Available c) (len p)) as HL. unfold bw_Available in *. rewrite Hnil.
        destruct (Z.eq_dec (bufsize - len []) 0) as [E|]; [vm_compute in E; lia|].
        destruct (Z.eq_dec (bufsize - len (rc_bw c)) 0); unfold len in *; lia.
      * exists c'. split; [done|]. rewrite <- (subl_parts p (bw_Available c)); [by eapply wrote_trans|].
        unfold bw_Available in *. lia.
  - eexists. split; [done|]. pose proof (wrote_part c p (len p) Hr ltac:(pose proof (len_nonneg p); lia)) as Hw.
    rewrite subl_full in Hw. apply Hw. unfold bw_Available in *. lia.
Qed.

Lemma bw_WriteString_ok fuel p c :
  ready c -> fits c p -> (length p + (if Z.eq_dec (bw_Available c) 0%Z then 1 else 0) < fuel)%nat ->
  exists c', bw_WriteString fuel p c = Ok (inl tt, c') /\ wrote c p c'.
Proof.
  revert p c. induction fuel as [|fuel IH]; intros p c Hr Hf Hl; [lia|]. cbn [bw_WriteString].
  pose proof (rdy_buf _ Hr) as Hb. rewrite (rdy_err _ Hr). case_if.
  - destruct (fill_flush c p (bw_Available c) Hr Hf eq_refl) as (c1 & Hfl & Hw & Hnil & Hf1); [lia|].
    rewrite Hfl, res_bind_Ok.
    destruct (IH (subl p (bw_Available c) (len p)) c1) as (c' & Hc' & Hw'); [apply Hw|done| |].
    + pose proof (len_subl p (bw_Available c) (len p)) as HL. unfold bw_Available in *. rewrite Hnil.
      destruct (Z.eq_dec (bufsize - len []) 0) as [E|]; [vm_compute in E; lia|].
      destruct (Z.eq_dec (bufsize - len (rc_bw c)) 0); unfold len in *; lia.
    + exists c'. split; [done|]. rewrite <- (subl_parts p (bw_Available c)); [by eapply wrote_trans|].
      unfold bw_Available in *. lia.
  - eexists. split; [done|]. pose proof (wrote_part c p (len p) Hr ltac:(pose proof (len_nonneg p); lia)) as Hw.
    rewrite subl_full in Hw. apply Hw. unfold bw_Available in *. lia.
Qed.

(** A computation writes [p] whenever there is room for it. *)
Definition writes (m : rd unit) (p : bytes) : Prop :=
  forall c, ready c -> fits c p -> exists c', m c = Ok (inl tt, c') /\ wrote c p c'.

Lemma Write_writes p : writes (Write p) p.
Proof. intros c Hr Hf. apply bw_Write_ok; [done..|]. destruct (Z.eq_dec _ 0); lia. Qed.

Lemma WriteString_writes p : writes (WriteString p) p.
Proof. intros c Hr Hf. apply bw_WriteString_ok; [done..|]. destruct (Z.eq_dec _ 0); lia. Qed.

Lemma ret_writes : writes (ret tt) [].
Proof. intros c Hr Hf. exists c. split; [done|by apply wrote_refl]. Qed.

Lemma seq_writes m k p q : writes m p -> writes k q -> writes (m ;;; k) (p ++ q).
Proof.
  intros Hm Hk c Hr Hf. destruct (Hm c Hr (fits_l _ _ _ Hf)) as (c1 & H1 & W1).
  destruct (Hk c1 (wr_ready _ _ _ W1) (fits_app _ _ _ _ W1 Hf)) as (c2 & H2 & W2).
  exists c2. rewrite (and_then_inl _ _ _ _ _ H1). split; [done|by eapply wrote_trans].
Qed.

(** *** The decimal length *)

Lemma set_index_mid (pre suf : list Z) x y :
  set_index (pre ++ x :: suf) (len pre) y = Ok (pre ++ y :: suf).
Proof.
  unfold set_index. rewrite len_app, len_cons. pose proof (len_nonneg pre). pose proof (len_nonneg suf).
  replace ((0 <=? len pre) && (len pre <? len pre + (1 + len suf))) with true by lia.
  f_equal. unfold len. rewrite Nat2Z.id. by rewrite insert_app_r_alt, Nat.sub_diag by lia.
Qed.

Lemma len_loop_spec f fuel pre suf n :
  0 <= n < 10 ^ Z.of_nat f -> (length (digits f n) <= length pre)%nat -> (length (digits f n) <= fuel)%nat -> (0 < f)%nat ->
  len_loop fuel (pre ++ suf) (len pre - 1) n =
  Ok (take (length pre - length (digits f n)) pre ++ digits f n ++ suf,
      len pre - len (digits f n) - 1).
Proof.
  revert fuel pre suf n. induction f as [|f IH]; intros fuel pre suf n Hn Hp Hfu Hf; [lia|].
  cbn [digits] in *.
  assert (0 < length pre)%nat as Hpos by (destruct (n <? 10); rewrite ?length_app in Hp; simpl in Hp; lia).
  destruct pre as [|x pre _] using rev_ind; [simpl in Hpos; lia|]. rewrite length_app in *. cbn [length] in *.
  destruct fuel as [|fuel]; [destruct (n <? 10); rewrite ?length_app in Hfu; simpl in Hfu; lia|]. cbn [len_loop].
  rewrite <- app_assoc. cbn [app]. replace (len (pre ++ [x]) - 1) with (len pre) by (rewrite len_app; unfold len; simpl; lia).
  rewrite set_index_mid, res_bind_Ok, Z.rem_mod_nonneg, Z.quot_div_nonneg by lia.
  pose proof (Z.mod_pos_bound n 10 ltac:(lia)). rewrite Z.mod_small by lia.
  destruct (n <? 10) eqn:Hlt.
  - rewrite Z.div_small, (Z.mod_small n) by lia. simpl.
    replace (length pre + 1 - 1)%nat with (length pre) by lia. rewrite take_app_length.
    f_equal. f_equal. rewrite len_app. unfold len. simpl. lia.
  - rewrite length_app in Hp, Hfu. cbn [length] in Hp, Hfu.
    assert (0 < n / 10) by (apply Z.div_str_pos; lia). replace (n / 10 =? 0) with false by lia.
    rewrite Nat2Z.inj_succ, Z.pow_succ_r in Hn by lia.
    assert (0 < f)%nat by (destruct f; [simpl in *; lia|lia]).
    rewrite IH; [|split; [lia|apply Z.div_lt_upper_bound; lia]|lia|lia|done].
    rewrite <- app_assoc, length_app. cbn [length app].
    replace (length pre + 1 - (length (digits f (n / 10)) + 1))%nat with (length pre - length (digits f (n / 10)))%nat by lia.
    rewrite take_app_le by lia. f_equal. f_equal. rewrite !len_app. unfold len. simpl. lia.
Qed.

Lemma digits_len f n : (length (digits f n) <= f)%nat.
Proof.
  revert n. induction f as [|f IH]; intros n; cbn [digits]; [done|]. case_if; simpl; [lia|].
  rewrite length_app. specialize (IH (n / 10)). simpl. lia.
Qed.

Lemma writeLen_eq prefix n c :
  ready c -> 0 <= n < 2 ^ 63 ->
  exists s, length s = 32%nat /\ writeLen prefix n c = Write (prefix :: digits 20 n ++ crlf) (set_scratch c s).
Proof.
  intros Hr Hn. pose proof (rdy_scratch _ Hr) as Hs.
  assert (exists pre x y, rc_lenScratch c = pre ++ [x; y] /\ length pre = 30%nat) as (pre & x & y & Heq & Hpre).
  { exists (take 30 (rc_lenScratch c)).
    destruct (drop 30 (rc_lenScratch c)) as [|x [|y [|]]] eqn:E; apply (f_equal length) in E as E';
      rewrite length_drop, Hs in E'; simpl in E'; try lia.
    exists x, y. rewrite <- E, take_drop. split; [done|]. rewrite length_take. lia. }
  unfold writeLen. rewrite Heq.
  replace (len (pre ++ [x; y]) - 1) with (len (pre ++ [x])) by (rewrite !len_app; unfold len; simpl; lia).
  replace (pre ++ [x; y]) with ((pre ++ [x]) ++ [y]) by by rewrite <- app_assoc.
  rewrite set_index_mid, res_bind_Ok, <- app_assoc. cbn [app].
  replace (len (pre ++ [x; 10]) - 2) with (len pre) by (rewrite len_app; unfold len; simpl; lia).
  rewrite set_index_mid, res_bind_Ok.
  replace (len (pre ++ [13; 10]) - 3) with (len pre - 1) by (rewrite len_app; unfold len; simpl; lia).
  pose proof (digits_len 20 n) as Hd.
  assert (0 <= n < 10 ^ Z.of_nat 20) as Hn20 by (split; [lia|]; eapply Z.lt_trans; [apply Hn|done]).
  assert (length (pre ++ [13; 10]) = 32%nat) as H32 by (rewrite length_app, Hpre; done).
  rewrite (len_loop_spec 20 _ pre [13; 10] n Hn20), res_bind_Ok by lia.
  set (ds := digits 20 n) in *. clearbody ds.
  destruct (take (length pre - length ds) pre) as [|z t _] eqn:Ht using rev_ind.
  { apply (f_equal length) in Ht. rewrite length_take in Ht. simpl in Ht. lia. }
  assert (len pre - len ds - 1 = len t) as ->.
  { apply (f_equal length) in Ht. rewrite length_take, length_app in Ht. simpl in Ht. unfold len. lia. }
  rewrite <- app_assoc. cbn [app]. rewrite set_index_mid, res_bind_Ok.
  rewrite slice_Ok by (rewrite len_app, ?len_cons; pose proof (len_nonneg t); pose proof (len_nonneg (ds ++ [13;10])); lia).
  rewrite res_bind_Ok, subl_tail. exists (t ++ prefix :: ds ++ [13; 10]). split.
  - apply (f_equal length) in Ht. rewrite length_take, length_app in Ht. simpl in Ht.
    rewrite length_app. simpl. rewrite length_app. simpl. lia.
  - done.
Qed.

Lemma writeLen_writes prefix n : 0 <= n < 2 ^ 63 -> writes (writeLen prefix n) (prefix :: Itoa n ++ crlf).
Proof.
  intros Hn c Hr Hf. destruct (writeLen_eq prefix n c Hr Hn) as (s & Hs & ->).
  replace (digits 20 n) with (Itoa n) by (unfold Itoa; by replace (n <? 0) with false by lia).
  destruct (Write_writes (prefix :: Itoa n ++ crlf) (set_scratch c s)) as (c' & Hc & Hw); [by destruct Hr|done|].
  exists c'. split; [done|]. by destruct Hw.
Qed.

(** *** Commands *)

Definition sized (p : bytes) : Prop := len p < 2 ^ 63.

Lemma bulk_parts (p : bytes) : bulk p = (36 :: Itoa (len p) ++ crlf) ++ p ++ crlf.
Proof. unfold bulk. by rewrite <- app_comm_cons, <- !app_assoc. Qed.

Lemma writeString_writes p : sized p -> writes (writeString p) (bulk p).
Proof.
  intros Hp. rewrite bulk_parts. apply seq_writes; [apply writeLen_writes; pose proof (len_nonneg p); done|].
  apply seq_writes; apply WriteString_writes.
Qed.

Lemma writeBytes_writes p : sized p -> writes (writeBytes p) (bulk p).
Proof.
  intros Hp. rewrite bulk_parts. apply seq_writes; [apply writeLen_writes; pose proof (len_nonneg p); done|].
  apply seq_writes; [apply Write_writes|apply WriteString_writes].
Qed.

Section args.
Context (float64 other : Type) (FormatFloat : float64 -> bytes) (Fprint : other -> bytes).
Abbreviation arg := (arg float64 other).
Abbreviation writeArg := (writeArg float64 other FormatFloat Fprint).
Abbreviation writeArgs := (writeArgs float64 other FormatFloat Fprint).
Abbreviation writeCommand := (writeCommand float64 other FormatFloat Fprint).
Abbreviation Send := (Send float64 other FormatFloat Fprint).
Abbreviation Do := (Do float64 other FormatFloat Fprint).

(** The text an argument is sent as. *)
Fixpoint arg_text (a : arg) (argumentTypeOK : bool) : bytes :=
  match a with
  | ArgString _ _ s => s
  | ArgBytes _ _ p => p
  | ArgInt _ _ n | ArgInt64 _ _ n => Itoa n
  | ArgFloat64 _ _ x => FormatFloat x
  | ArgBool _ _ b => if b then str "1" else str "0"
  | ArgNil _ _ => []
  | ArgArgument _ _ r text => if argumentTypeOK then arg_text r false else text
  | ArgOther _ _ x => Fprint x
  end.

(** A command on the wire: an array of bulk strings. *)
Definition command (cmd : bytes) (args : list arg) : bytes :=
  42 :: Itoa (1 + len args) ++ crlf ++ bulk cmd ++ concat (map (fun a => bulk (arg_text a true)) args).

Definition command_ok (cmd : bytes) (args : list arg) : Prop :=
  1 + len args < 2 ^ 63 /\ sized cmd /\ Forall (fun a => sized (arg_text a true)) args.

Lemma writeArg_writes a ok : sized (arg_text a ok) -> writes (writeArg a ok) (bulk (arg_text a ok)).
Proof.
  revert ok. induction a as [s|p|n|n|x|b| |r IH text|x]; intros ok Hs; simpl in *;
    try (by apply writeString_writes); try (by apply writeBytes_writes).
  - destruct b; by apply writeString_writes.
  - destruct ok; [by apply IH|by apply writeBytes_writes].
Qed.

Lemma writeCommand_writes cmd args : command_ok cmd args -> writes (writeCommand cmd args) (command cmd args).
Proof.
  intros (Hl & Hc & Ha). unfold command.
  replace (42 :: Itoa (1 + len args) ++ crlf ++ bulk cmd ++ concat (map (fun a => bulk (arg_text a true)) args))
    with ((42 :: Itoa (1 + len args) ++ crlf) ++ bulk cmd ++ concat (map (fun a => bulk (arg_text a true)) args))
    by by rewrite <- app_comm_cons, <- !app_assoc.
  apply seq_writes; [apply writeLen_writes; pose proof (len_nonneg args); lia|].
  apply seq_writes; [by apply writeString_writes|].
  clear Hl. induction Ha as [|a args Ha _ IH]; [apply ret_writes|]. cbn [map concat RedisConn.writeArgs].
  apply seq_writes; [by apply writeArg_writes|done].
Qed.
End args.

(** ** Reading *)

Lemma subl_prefix (l : bytes) a n : subl (l ++ a) 0 n = subl l 0 n ++ subl a 0 (n - len l).
Proof. rewrite !subl_take, take_app. do 2 f_equal. unfold len. lia. Qed.

Lemma subl_in (l : bytes) x n : x ∈ subl l 0 n -> x ∈ l.
Proof. rewrite subl_take. intros H. apply elem_of_take in H as (i & Hi & _). by eapply list_elem_of_lookup_2. Qed.

(** A line in the stream, short or longer than the buffer. *)
Lemma ReadSlice_line c l rest :
  n_in (rc_net c) = l ++ 10 :: rest -> 10 ∉ l ->
  ReadSlice c =
  if len l <? bufsize then (l ++ [10], None, set_in c rest)
  else (subl l 0 bufsize, Some None, set_in c (subl l bufsize (len l) ++ 10 :: rest)).
Proof.
  intros Hin Hl. unfold ReadSlice. rewrite Hin. pose proof (len_nonneg l). pose proof (len_nonneg rest).
  rewrite subl_prefix. destruct (len l <? bufsize) eqn:Hlt.
  - assert (subl l 0 bufsize = l) as -> by (rewrite subl_take; apply take_ge; unfold len, bufsize in *; lia).
    assert (exists r', subl (10 :: rest) 0 (bufsize - len l) = 10 :: r') as [r' ->].
    { rewrite subl_take. destruct (Z.to_nat (bufsize - len l)) as [|k] eqn:E; [|by eexists]. lia. }
    rewrite IndexByte_app by done. replace (len l =? -1) with false by lia. cbn [negb].
    replace (l ++ 10 :: rest) with ((l ++ [10]) ++ rest) by by rewrite <- app_assoc.
    replace (len l + 1) with (len (l ++ [10])) by (rewrite len_app; unfold len; simpl; lia).
    by rewrite subl_head, subl_tail.
  - replace (subl (10 :: rest) 0 (bufsize - len l)) with (@nil Z) by (symmetry; apply subl_nil; lia).
    rewrite app_nil_r, IndexByte_none by (intros Hin'; apply Hl; by eapply subl_in). change (negb (-1 =? -1)) with false. cbv iota.
    replace (bufsize <=? len (l ++ 10 :: rest)) with true by (rewrite len_app, len_cons; lia).
    unfold bufsize in *. by rewrite !subl_drop, drop_app_le by (unfold len in *; lia).
Qed.

Lemma set_in_in c i j : set_in (set_in c i) j = set_in c j.
Proof. done. Qed.

Lemma long_line_ok fuel acc c l rest :
  n_in (rc_net c) = l ++ 10 :: rest -> 10 ∉ l -> (length l < fuel)%nat ->
  long_line fuel acc c = Ok (inl (acc ++ l ++ [10]), set_in c rest).
Proof.
  revert acc c l. induction fuel as [|fuel IH]; intros acc c l Hin Hl Hf; [lia|]. cbn [long_line].
  rewrite (ReadSlice_line c l rest Hin Hl). destruct (len l <? bufsize) eqn:Hlt; [done|].
  assert (len (subl l bufsize (len l)) = len l - bufsize) as HL by (apply len_subl; unfold bufsize in *; lia).
  rewrite (IH _ _ (subl l bufsize (len l))); [|done| |].
  - rewrite set_in_in, <- app_assoc, (app_assoc (subl l 0 bufsize)), subl_parts; [done|]. unfold bufsize in *. lia.
  - intros Hin'. apply Hl. rewrite <- (subl_parts l bufsize) by (unfold bufsize in *; lia). set_solver.
  - unfold len, bufsize in *. lia.
Qed.

Lemma trim_line_ok l c : trim_line (l ++ crlf) c = Ok (inl l, c).
Proof.
  unfold trim_line. replace (len (l ++ crlf) - 2) with (len l) by (rewrite len_app; unfold len; simpl; lia).
  replace (len l <? 0) with false by (pose proof (len_nonneg l); lia).
  rewrite (index_Ok _ _ 13), res_bind_Ok; [|apply len_nonneg|].
  2: { unfold len. by rewrite Nat2Z.id, lookup_app_r, Nat.sub_diag by lia. }
  change (negb (13 =? 13)) with false. cbv iota.
  by rewrite slice_Ok, res_bind_Ok, subl_head by (rewrite ?len_app; pose proof (len_nonneg l); pose proof (len_nonneg crlf); lia).
Qed.

Lemma readLine_ok c l rest :
  n_in (rc_net c) = l ++ crlf ++ rest -> 10 ∉ l -> readLine c = Ok (inl l, set_in c rest).
Proof.
  intros Hin Hl. replace (l ++ crlf ++ rest) with ((l ++ [13]) ++ 10 :: rest) in Hin by by rewrite <- app_assoc.
  assert (10 ∉ l ++ [13]) as Hl' by (rewrite elem_of_app, list_elem_of_singleton; naive_solver lia).
  unfold readLine. rewrite (ReadSlice_line c _ rest Hin Hl').
  assert ((l ++ [13]) ++ [10] = l ++ crlf) as Hc by by rewrite <- app_assoc.
  set (l' := l ++ [13]) in *. destruct (len l' <? bufsize) eqn:Hlt.
  - rewrite res_bind_Ok, Hc. apply trim_line_ok.
  - set (q := subl l' bufsize (len l')).
    rewrite (long_line_ok _ _ _ q rest); [|done| |].
    + rewrite res_bind_Ok, set_in_in. subst q. rewrite app_assoc, subl_parts, Hc by (unfold bufsize in *; lia).
      apply trim_line_ok.
    + intros Hin'. apply Hl'. rewrite <- (subl_parts l' bufsize) by (unfold bufsize in *; lia). set_solver.
    + simpl. rewrite length_app. lia.
Qed.

Lemma ReadFull_ok c p rest :
  n_in (rc_net c) = p ++ rest -> ReadFull (len p) c = Ok (inl p, set_in c rest).
Proof.
  intros Hin. unfold ReadFull. rewrite Hin. pose proof (len_nonneg rest).
  replace (len p <=? len (p ++ rest)) with true by (rewrite len_app; lia). by rewrite subl_head, subl_tail.
Qed.

(** *** Numbers *)

Lemma number_loop_eq p n :
  number_loop p n = match Codec.parseLen_loop p n with
                    | (m, None) => inl m
                    | (_, Some _) => inr (protocolError "illegal bytes in length") end.
Proof.
  revert n. induction p as [|b p IH]; intros n; simpl; [done|].
  destruct ((b <? 48) || (57 <? b)); [done|]. apply IH.
Qed.

Lemma decimal_digits f n : 0 <= n < 10 ^ Z.of_nat f -> decimal (digits f n) = n.
Proof.
  unfold decimal. revert n. induction f as [|f IH]; intros n Hn; [simpl in *; lia|]. cbn [digits].
  rewrite Nat2Z.inj_succ, Z.pow_succ_r in Hn by lia. case_if; [simpl; lia|].
  rewrite fold_left_app, IH by (split; [apply Z.div_pos; lia|apply Z.div_lt_upper_bound; lia]). simpl.
  pose proof (Z.div_mod n 10). lia.
Qed.

Lemma digits_are f n : 0 <= n -> forallb is_digit (digits f n) = true.
Proof.
  intros Hn. apply forallb_forall. intros b Hb. pose proof (digits_range f n Hn) as Hr.
  rewrite Forall_forall in Hr. apply list_elem_of_In, Hr in Hb. unfold is_digit. lia.
Qed.

Lemma number_digits n : 0 <= n <= 2 ^ 63 -> number_loop (digits 20 n) 0 = inl (wrap64 n).
Proof.
  intros Hn. rewrite number_loop_eq, (parseLen_loop_digits _ 0) by (done || (apply digits_are; lia)).
  fold (decimal (digits 20 n)). rewrite decimal_digits; [done|]. split; [lia|].
  eapply Z.le_lt_trans; [apply Hn|done].
Qed.

Lemma length_Itoa n : 0 <= n < 2 ^ 63 -> parseLen (Itoa n) = inl n.
Proof.
  intros Hn. unfold parseLen, RedisConn.parseLen. pose proof (Itoa_len n ltac:(lia)).
  replace (len (Itoa n) =? 0) with false by lia. rewrite bool_decide_eq_false_2.
  - unfold Itoa. replace (n <? 0) with false by lia. by rewrite number_digits, wrap64_id by lia.
  - intros E. pose proof (Itoa_range n ltac:(lia)) as Hr. rewrite E in Hr. apply Forall_cons in Hr as [Hr _]. lia.
Qed.

Lemma parseInt_Itoa n : - 2 ^ 63 <= n < 2 ^ 63 -> parseInt (Itoa n) = inl n.
Proof.
  intros Hn. unfold Itoa. destruct (n <? 0) eqn:Hneg.
  - unfold parseInt. change (45 =? 45) with true. cbv iota beta.
    destruct (digits 20 (- n)) as [|b ds] eqn:E; [by apply digits_nonempty in E; [|lia]|].
    rewrite len_cons. pose proof (len_nonneg ds). replace (1 + len ds =? 0) with false by lia.
    rewrite <- E, number_digits by lia. f_equal.
    transitivity (wrap64 (wrap64 (- n) * -1)); [f_equal; lia|]. rewrite wrap64_mul_l.
    replace (- n * -1) with n by lia. by apply wrap64_id.
  - pose proof (digits_range 20 n ltac:(lia)) as Hr.
    destruct (digits 20 n) as [|b ds] eqn:E; [by apply digits_nonempty in E; [|lia]|].
    unfold parseInt. apply Forall_cons in Hr as [Hb _]. replace (b =? 45) with false by lia. cbv iota.
    rewrite len_cons. pose proof (len_nonneg ds). replace (1 + len ds =? 0) with false by lia.
    rewrite <- E, number_digits by lia. by rewrite wrap64_id by lia.
Qed.

(** *** Replies *)

Fixpoint vencode (v : value) : bytes :=
  match v with
  | VNil => str "$-1" ++ crlf
  | VString s => 43 :: s ++ crlf
  | VError s => 45 :: s ++ crlf
  | VInt n => 58 :: Itoa n ++ crlf
  | VBytes p => bulk p
  | VArray vs => 42 :: Itoa (len vs) ++ crlf ++ concat (map vencode vs)
  end.

(** The replies a server can send. *)
Inductive value_ok : value -> Prop :=
  | ok_vnil : value_ok VNil
  | ok_vstring s : 10 ∉ s -> value_ok (VString s)
  | ok_verror s : 10 ∉ s -> value_ok (VError s)
  | ok_vint n : - 2 ^ 63 <= n < 2 ^ 63 -> value_ok (VInt n)
  | ok_vbytes p : len p <= maxAlloc -> value_ok (VBytes p)
  | ok_varray vs : 16 * len vs <= maxAlloc -> Forall value_ok vs -> value_ok (VArray vs).

Lemma value_ok_ind' (P : value -> Prop) :
  P VNil -> (forall s, 10 ∉ s -> P (VString s)) -> (forall s, 10 ∉ s -> P (VError s)) ->
  (forall n, - 2 ^ 63 <= n < 2 ^ 63 -> P (VInt n)) -> (forall p, len p <= maxAlloc -> P (VBytes p)) ->
  (forall vs, 16 * len vs <= maxAlloc -> Forall value_ok vs -> Forall P vs -> P (VArray vs)) ->
  forall v, value_ok v -> P v.
Proof.
  intros Hn Hs He Hi Hb Ha. fix IH 2. intros v Hv.
  destruct Hv as [|s Hl|s Hl|n Hl|p Hl|vs Hl Hvs]; eauto.
  apply Ha; [done|done|]. clear Hl. revert vs Hvs. fix IHl 2. intros vs [|w ws Hw Hws]; [constructor|].
  constructor; [by apply IH|by apply IHl].
Qed.

Lemma vencode_nonempty v : (0 < length (vencode v))%nat.
Proof. destruct v; simpl; lia. Qed.

Lemma Itoa_no_lf' n : 10 ∉ Itoa n.
Proof.
  unfold Itoa. destruct (n <? 0) eqn:E; [|].
  - apply not_elem_of_cons. split; [lia|]. intros Hin.
    pose proof (digits_range 20 (- n) ltac:(lia)) as Hr. rewrite Forall_forall in Hr. apply Hr in Hin. lia.
  - intros Hin. pose proof (digits_range 20 n ltac:(lia)) as Hr. rewrite Forall_forall in Hr. apply Hr in Hin. lia.
Qed.

(** The bytes of [v] are read as [v], and nothing behind them is touched. *)
Definition reads (m : nat -> rd value) (v : value) : Prop :=
  forall fuel c rest, (length (vencode v) < fuel)%nat -> n_in (rc_net c) = vencode v ++ rest ->
    m fuel c = Ok (inl v, set_in c rest).

(** The head line of a reply. *)
Lemma reply_line {A} c b l rest (k : bytes -> rd A) :
  n_in (rc_net c) = (b :: l ++ crlf) ++ rest -> b <> 10 -> 10 ∉ l ->
  and_then readLine k c = k (b :: l) (set_in c rest).
Proof.
  intros Hin Hb Hl. apply and_then_inl. apply (readLine_ok c (b :: l)).
  - by rewrite Hin, <- app_comm_cons, <- app_assoc.
  - by apply not_elem_of_cons.
Qed.

Lemma read_array_ok fuel vs c rest :
  Forall (reads readReply) vs -> (length (concat (map vencode vs)) < fuel)%nat ->
  n_in (rc_net c) = concat (map vencode vs) ++ rest ->
  read_array (readReply fuel) (length vs) c = Ok (inl vs, set_in c rest).
Proof.
  intros Hvs. revert c. induction Hvs as [|v vs Hv _ IH]; intros c Hf Hin.
  { simpl in *. unfold ret. do 2 f_equal. by destruct c as [? [] ? ? ? ? ? ?]; simpl in *; subst. }
  cbn [map concat length] in *. rewrite length_app in Hf. cbn [read_array].
  rewrite (and_then_inl _ _ _ v (set_in c (concat (map vencode vs) ++ rest))).
  2: { apply Hv; [lia|]. by rewrite Hin, <- app_assoc. }
  rewrite (and_then_inl _ _ _ vs (set_in c rest)); [done|]. by rewrite IH by (done || lia).
Qed.

Lemma readReply_ok v : value_ok v -> reads readReply v.
Proof.
  induction 1 as [|s Hs|s Hs|n Hn|p Hp|vs Hl Hok IH] using value_ok_ind'; intros fuel c rest Hf Hin;
    (destruct fuel as [|fuel]; [lia|]); unfold readReply; cbn [RedisConn.readReply]; cbn [vencode] in *.
  - by rewrite (reply_line c 36 (str "-1") rest) by (done || not_in).
  - by rewrite (reply_line c 43 s rest) by done.
  - by rewrite (reply_line c 45 s rest) by done.
  - rewrite (reply_line c 58 (Itoa n) rest) by (done || apply Itoa_no_lf').
    cbv [Z.eqb Pos.eqb]. by rewrite parseInt_Itoa.
  - rewrite bulk_parts, <- app_assoc in Hin. pose proof (len_nonneg p) as Hlp.
    rewrite (reply_line c 36 (Itoa (len p)) _ _ Hin) by (done || apply Itoa_no_lf').
    cbv [Z.eqb Pos.eqb]. fold parseLen. rewrite length_Itoa by (unfold maxAlloc in *; lia).
    replace (len p <? 0) with false by lia. replace (maxAlloc <? len p) with false by lia.
    unfold read_bulk. rewrite (and_then_inl _ _ _ p (set_in c (crlf ++ rest))).
    2: { rewrite <- app_assoc. by rewrite (ReadFull_ok _ p (crlf ++ rest)). }
    rewrite (and_then_inl _ _ _ [] (set_in c rest)); [done|].
    by rewrite (readLine_ok _ [] rest) by (done || apply not_elem_of_nil).
  - pose proof (len_nonneg vs) as Hlv. rewrite app_comm_cons, app_assoc in Hin. rewrite <- app_assoc in Hin.
    rewrite (reply_line c 42 (Itoa (len vs)) _ _ Hin) by (done || apply Itoa_no_lf').
    cbv [Z.eqb Pos.eqb]. fold parseLen. rewrite length_Itoa by (unfold maxAlloc in *; lia).
    replace (len vs <? 0) with false by lia. replace (maxAlloc <? 16 * len vs) with false by lia.
    rewrite (and_then_inl _ _ _ vs (set_in c rest)); [done|]. unfold len. rewrite Nat2Z.id.
    rewrite (read_array_ok fuel vs _ rest); [done|done| |done].
    simpl in Hf. rewrite length_app in Hf. simpl in Hf. lia.
Qed.

(** *** Every read ends *)

Definition unread (c : rconn) : nat := length (n_in (rc_net c)).

(** The computation ends, having read something when it succeeds. *)
Definition ends {A} (m : rd A) (c : rconn) (strict : bool) : Prop :=
  m c = Panic \/
  exists r c', m c = Ok (r, c') /\ (unread c' <= unread c)%nat /\
    match r with inl _ => strict = true -> (unread c' < unread c)%nat | inr _ => True end.

Lemma ReadSlice_shrinks c :
  exists p err s, ReadSlice c = (p, err, set_in c s) /\ (length s <= unread c)%nat /\
    match err with Some (Some _) => True | _ => (length s < unread c)%nat end.
Proof.
  unfold ReadSlice, unread. set (s := n_in (rc_net c)).
  destruct (IndexByte_spec (subl s 0 bufsize) 10) as [[-> _]|(pre & suf & Hs & _ & ->)].
  - change (negb (-1 =? -1)) with false. cbv iota. destruct (bufsize <=? len s) eqn:E.
    + do 3 eexists. split; [done|]. pose proof (len_subl s bufsize (len s)). unfold len, bufsize in *. lia.
    + do 3 eexists. split; [done|]. simpl. split; [lia|done].
  - pose proof (len_nonneg pre). replace (negb (len pre =? -1)) with true by lia.
    assert (len pre < len s) as Hlt.
    { apply (f_equal length) in Hs. rewrite subl_take, length_take, length_app in Hs. cbn [length] in Hs. unfold len. lia. }
    do 3 eexists. split; [done|]. pose proof (len_subl s (len pre + 1) (len s)) as HL. unfold len in *. lia.
Qed.

Lemma long_line_ends fuel acc c : (unread c < fuel)%nat -> ends (long_line fuel acc) c true.
Proof.
  revert acc c. induction fuel as [|fuel IH]; intros acc c Hf; [lia|]. unfold ends. cbn [long_line].
  destruct (ReadSlice_shrinks c) as (p & err & s & -> & Hs & Hlt). destruct err as [[e|]|].
  - right. exists (inr e), (set_in c s). by split_and!.
  - destruct (IH (acc ++ p) (set_in c s)) as [HP|(r & c' & Hr & Hle & Hst)]; [unfold unread in *; simpl; lia|by left|right].
    exists r, c'. change (unread (set_in c s)) with (length s) in *. split_and!; [done|lia|].
    destruct r; [|done]. intros _. lia.
  - right. eexists _, (set_in c s). split_and!; [done..|]. by intros _.
Qed.

Lemma trim_line_ends p c : ends (trim_line p) c false.
Proof.
  right. unfold trim_line. case_if; [by do 2 eexists|].
  destruct (index_in_range p (len p - 2)) as [b ->]; [lia|]. rewrite res_bind_Ok. case_if; [by do 2 eexists|].
  rewrite slice_Ok, res_bind_Ok by lia. by do 2 eexists.
Qed.

Lemma ends_weaken {A} (m : rd A) c : ends m c true -> ends m c false.
Proof. intros [|(r & c' & ? & ? & ?)]; [by left|right]. exists r, c'. split_and!; [done..|]. by destruct r. Qed.

(** Sequences end, and make progress when their first part does. *)
Lemma and_then_ends {A B} (m : rd A) (k : A -> rd B) c b :
  ends m c b ->
  (forall a c', (unread c' <= unread c)%nat -> (b = true -> (unread c' < unread c)%nat) -> ends (k a) c' false) ->
  ends (and_then m k) c b.
Proof.
  unfold ends, and_then. intros [->|(r & c1 & -> & Hle & Hst)] Hk; [by left|]. rewrite res_bind_Ok.
  destruct r as [a|e]; [|right; by exists (inr e), c1].
  destruct (Hk a c1 Hle Hst) as [->|(r & c2 & -> & Hle2 & _)]; [by left|right].
  exists r, c2. split_and!; [done|lia|]. destruct r; [|done]. intros Hb. specialize (Hst Hb). lia.
Qed.

Lemma ret_ends {A} (a : A) c : ends (ret a) c false.
Proof. right. by exists (inl a), c. Qed.

Lemma raise_ends {A} e c b : ends (raise (A := A) e) c b.
Proof. right. by exists (inr e), c. Qed.

Lemma readLine_ends c : ends readLine c true.
Proof.
  unfold ends, readLine. destruct (ReadSlice_shrinks c) as (p & err & s & -> & Hs & Hlt).
  assert (forall q c', (unread c' < unread c)%nat -> ends (fun c => trim_line q c) c' false -> 
    trim_line q c' = Panic \/ exists r c2, trim_line q c' = Ok (r, c2) /\ (unread c2 <= unread c)%nat /\
      match r with inl _ => true = true -> (unread c2 < unread c)%nat | inr _ => True end) as Htail.
  { intros q c' Hc [|(r & c2 & ? & ? & ?)]; [by left|right]. exists r, c2. split_and!; [done|lia|].
    destruct r; [|done]. intros _. lia. }
  destruct err as [[e|]|].
  - right. exists (inr e), (set_in c s). by split_and!.
  - destruct (long_line_ends (S (length (n_in (rc_net (set_in c s))))) p (set_in c s)) as [->|(r & c' & -> & Hle & Hst)];
      [unfold unread; lia|by left|]. rewrite res_bind_Ok. change (unread (set_in c s)) with (length s) in *.
    destruct r as [q|e]; [|right; exists (inr e), c'; split_and!; [done|lia|done]].
    apply Htail; [specialize (Hst eq_refl); lia|apply trim_line_ends].
  - rewrite res_bind_Ok. apply Htail; [done|apply trim_line_ends].
Qed.

Lemma ReadFull_ends n c : ends (ReadFull n) c false.
Proof.
  right. unfold ReadFull. case_if; do 2 eexists; (split; [done|]); unfold unread; simpl; (split; [|done]); [|lia].
  rewrite <- (subl_full (n_in (rc_net c))) at 2. destruct (decide (0 <= n)).
  - rewrite subl_full. pose proof (len_subl (n_in (rc_net c)) n (len (n_in (rc_net c)))). unfold len in *. lia.
  - unfold subl. rewrite !length_take, !length_drop. lia.
Qed.

Lemma read_array_ends (m : rd value) n c0 c :
  (forall c', (unread c' <= unread c0)%nat -> ends m c' true) -> (unread c <= unread c0)%nat ->
  ends (read_array m n) c false.
Proof.
  intros Hm. revert c. induction n as [|n IH]; intros c Hc; cbn [read_array]; [apply ret_ends|].
  apply and_then_ends; [by apply ends_weaken, Hm|]. intros v c' Hle _.
  apply and_then_ends; [apply IH; lia|]. intros vs c2 _ _. apply ret_ends.
Qed.

Lemma readReply_ends fuel c : (unread c < fuel)%nat -> ends (readReply fuel) c true.
Proof.
  revert c. induction fuel as [|fuel IH]; intros c Hf; [lia|]. unfold readReply. cbn [RedisConn.readReply].
  apply and_then_ends; [apply readLine_ends|]. intros [|b rest] c' Hle Hlt; [apply raise_ends|]. specialize (Hlt eq_refl).
  case_if; [apply ret_ends|]. case_if; [apply ret_ends|].
  case_if; [destruct (parseInt rest); [apply ret_ends|apply raise_ends]|].
  case_if.
  { destruct (RedisConn.parseLen rest) as [n|e]; [|apply raise_ends]. case_if; [apply ret_ends|]. case_if; [by left|].
    unfold read_bulk. apply and_then_ends; [apply ReadFull_ends|]. intros p c1 _ _.
    apply and_then_ends; [apply ends_weaken, readLine_ends|]. intros l c2 _ _. case_if; [apply raise_ends|apply ret_ends]. }
  case_if; [|apply raise_ends].
  destruct (RedisConn.parseLen rest) as [n|e]; [|apply raise_ends]. case_if; [apply ret_ends|]. case_if; [by left|].
  apply and_then_ends; [|intros; apply ret_ends]. apply (read_array_ends _ _ c'); [|done].
  intros c2 Hc2. apply IH. lia.
Qed.

Section client.
Context {float64 other : Type} (FormatFloat : float64 -> bytes) (Fprint : other -> bytes).
Abbreviation arg := (arg float64 other).
Abbreviation writeCommand := (writeCommand float64 other FormatFloat Fprint).
Abbreviation Send := (Send float64 other FormatFloat Fprint).
Abbreviation Do := (Do float64 other FormatFloat Fprint).
Abbreviation command := (command float64 other FormatFloat Fprint).
Abbreviation command_ok := (command_ok float64 other FormatFloat Fprint).

(** ** Pipelines *)

Fixpoint send_all (cmds : list (bytes * list arg)) : rd unit :=
  match cmds with
  | [] => ret tt
  | (cmd, args) :: cmds => Send cmd args ;;; send_all cmds
  end.

Definition commands (cmds : list (bytes * list arg)) : bytes := concat (map (fun x => command x.1 x.2) cmds).

(** The first error among replies. *)
Fixpoint first_error (err : option error) (vs : list value) : option error :=
  match vs with
  | [] => err
  | v :: vs => first_error (match err, v with None, VError e => Some (EReply e) | _, _ => err end) vs
  end.

Lemma ready_pending c p : ready c -> ready (set_pending c p).
Proof. by intros []. Qed.

Lemma SetWriteDeadline_ok c : n_closed (rc_net c) = false -> SetWriteDeadline c = Ok (inl tt, c).
Proof.
  intros Hc. unfold SetWriteDeadline, on_error, SetDeadline. case_if; [done|]. by rewrite Hc, res_bind_Ok.
Qed.

Lemma Send_ok cmd args c :
  command_ok cmd args -> ready c -> fits c (command cmd args) ->
  exists c', Send cmd args c = Ok (inl tt, c') /\ wrote (set_pending c (rc_pending c + 1)) (command cmd args) c'.
Proof.
  intros Hok Hr Hf. unfold RedisConn.Send.
  rewrite (and_then_inl _ _ _ tt (set_pending c (rc_pending c + 1))) by (apply SetWriteDeadline_ok; apply Hr).
  destruct (writeCommand_writes _ _ FormatFloat Fprint cmd args Hok (set_pending c (rc_pending c + 1))) as (c' & Hc & Hw);
    [by apply ready_pending|done|].
  exists c'. by rewrite (on_error_inl _ _ _ _ _ Hc).
Qed.

Lemma send_all_ok cmds c :
  Forall (fun x => command_ok x.1 x.2) cmds -> ready c -> fits c (commands cmds) ->
  exists c', send_all cmds c = Ok (inl tt, c') /\ wrote (set_pending c (rc_pending c + len cmds)) (commands cmds) c'.
Proof.
  intros Hok. revert c. induction Hok as [|[cmd args] cmds Hc _ IH]; intros c Hr Hf; cbn [send_all].
  - exists c. split; [done|]. replace (set_pending c (rc_pending c + len [])) with c by
      (destruct c; unfold set_pending; simpl; f_equal; unfold len; simpl; lia). by apply wrote_refl.
  - unfold commands in Hf. cbn [map concat] in Hf.
    destruct (Send_ok cmd args c Hc Hr (fits_l _ _ _ Hf)) as (c1 & H1 & W1). rewrite (and_then_inl _ _ _ _ _ H1).
    destruct (IH c1 (wr_ready _ _ _ W1)) as (c2 & H2 & W2).
    { eapply fits_app; [exact W1|]. done. }
    exists c2. split; [done|]. unfold commands. cbn [map concat].
    eapply wrote_trans; [|exact W2]. destruct W1. simpl in *. split; simpl; try done.
    + rewrite wr_pending0. rewrite len_cons. lia.
    + by destruct wr_ready0.
Qed.

Lemma ReadReply_ok v c rest :
  value_ok v -> n_in (rc_net c) = vencode v ++ rest -> ReadReply c = Ok (inl v, set_in c rest).
Proof.
  intros Hv Hin. unfold ReadReply. apply readReply_ok; [done| |done]. rewrite Hin, length_app. lia.
Qed.

Lemma read_replies_ok v vs err c rest :
  Forall value_ok (v :: vs) -> n_in (rc_net c) = concat (map vencode (v :: vs)) ++ rest ->
  read_replies (length vs) err c = Ok (inl (List.last (v :: vs) VNil, first_error err (v :: vs)), set_in c rest).
Proof.
  revert v err c. induction vs as [|w vs IH]; intros v err c Hok Hin; apply Forall_cons in Hok as [Hv Hvs];
    cbn [map concat] in Hin; rewrite <- app_assoc in Hin; cbn [length read_replies].
  - rewrite (and_then_inl _ _ _ _ _ (on_error_inl _ _ _ _ _ (ReadReply_ok v c _ Hv Hin))). done.
  - rewrite (and_then_inl _ _ _ _ _ (on_error_inl _ _ _ _ _ (ReadReply_ok v c _ Hv Hin))).
    by rewrite (IH w).
Qed.

Lemma Do_ok cmd args c v vs rest :
  command_ok cmd args -> cmd <> [] -> ready c -> fits c (command cmd args) ->
  Forall value_ok (v :: vs) -> rc_pending c = len vs -> n_in (rc_net c) = concat (map vencode (v :: vs)) ++ rest ->
  exists c', Do cmd args c = Ok (inl (List.last (v :: vs) VNil, first_error None (v :: vs)), c') /\
    rc_err c' = rc_err c /\ rc_pending c' = 0 /\ n_in (rc_net c') = rest /\ n_rerr (rc_net c') = n_rerr (rc_net c) /\
    n_out (rc_net c') = written c ++ command cmd args /\ capacity c' = capacity c /\ ready c' /\ rc_bw c' = [].
Proof.
  intros Hok Hne Hr Hf Hvs Hp Hin. unfold RedisConn.Do. rewrite bool_decide_eq_false_2 by done. cbn [andb].
  set (c0 := set_pending c 0). assert (ready c0) as Hr0 by by apply ready_pending.
  rewrite (and_then_inl _ _ _ tt c0) by (apply SetWriteDeadline_ok; apply Hr0).
  destruct (writeCommand_writes _ _ FormatFloat Fprint cmd args Hok c0 Hr0 Hf) as (c1 & H1 & W1).
  rewrite (and_then_inl _ _ _ _ _ (on_error_inl _ _ _ _ _ H1)).
  pose proof (wr_ready _ _ _ W1) as [R1 R2 R3 R4].
  destruct (Flush_ok c1 [] R1 R2 R4) as (c2 & H2 & W2 & Hb).
  { eapply fits_app; [exact W1|]. by rewrite app_nil_r. }
  rewrite (and_then_inl _ _ _ _ _ (on_error_inl _ _ _ _ _ H2)).
  pose proof (wr_ready _ _ _ W2) as Hr2.
  rewrite (and_then_inl _ _ _ tt c2).
  2: { apply on_error_inl. unfold SetDeadline. by rewrite (rdy_open _ Hr2). }
  pose proof (wrote_trans _ _ _ _ _ W1 W2) as W. rewrite app_nil_r in W.
  rewrite Hp. unfold len. rewrite Nat2Z.id. rewrite (read_replies_ok v vs None c2 rest Hvs).
  2: { rewrite (wr_in _ _ _ W). done. }
  exists (set_in c2 rest). destruct W. unfold written in *. rewrite Hb, app_nil_r in wr_written0.
  split_and!; try done. by destruct Hr2.
Qed.

(** C20: a pipeline of [Send]s and a final [Do].  The commands leave in order, each as an array of
    bulk strings; the answer is the reply to the last command, with the first error
    reply of the pipeline; every reply is consumed, whole, and nothing behind them.
    Arguments and replies are arbitrary: strings with any bytes, nested arrays,
    lines longer than the buffers. *)
Theorem pipeline_replies cmds cmd args c v vs rest
    (Hcmds : Forall (fun x => command_ok x.1 x.2) cmds) (Hcmd : command_ok cmd args) (Hne : cmd <> [])
    (Hr : ready c) (Hp : rc_pending c = 0) (Hf : fits c (commands cmds ++ command cmd args))
    (Hvs : Forall value_ok (v :: vs)) (Hlen : length vs = length cmds)
    (Hin : n_in (rc_net c) = concat (map vencode (v :: vs)) ++ rest) :
  exists c', (send_all cmds ;;; Do cmd args) c = Ok (inl (List.last (v :: vs) VNil, first_error None (v :: vs)), c') /\
    n_out (rc_net c') = written c ++ commands cmds ++ command cmd args /\ n_in (rc_net c') = rest /\
    rc_pending c' = 0 /\ rc_err c' = rc_err c /\ ready c'.
Proof.
  destruct (send_all_ok cmds c Hcmds Hr (fits_l _ _ _ Hf)) as (c1 & H1 & W1). rewrite (and_then_inl _ _ _ _ _ H1).
  destruct (Do_ok cmd args c1 v vs rest Hcmd Hne (wr_ready _ _ _ W1)) as (c2 & H2 & He & Hp2 & Hi & _ & Ho & _ & Hr2 & _).
  - eapply fits_app; [exact W1|]. done.
  - done.
  - rewrite (wr_pending _ _ _ W1). simpl. rewrite Hp. unfold len. lia.
  - by rewrite (wr_in _ _ _ W1).
  - exists c2. split_and!; try done.
    + rewrite Ho, (wr_written _ _ _ W1), <- app_assoc. done.
    + by rewrite He, (wr_err _ _ _ W1).
Qed.

(** ** Errors *)

(** The computation neither closes the connection nor records an error itself. *)
Definition plain {A} (m : rd A) : Prop :=
  forall c r c', m c = Ok (r, c') ->
    rc_err c' = rc_err c /\ rc_writeTimeout c' = rc_writeTimeout c /\ n_closed (rc_net c') = n_closed (rc_net c).

Lemma and_then_plain {A B} (m : rd A) (k : A -> rd B) : plain m -> (forall a, plain (k a)) -> plain (and_then m k).
Proof.
  intros Hm Hk c r c'. unfold and_then. intros H. apply res_bind_inv in H as ([[a|e] c1] & Hx & H).
  - destruct (Hm _ _ _ Hx) as (? & ? & ?). destruct (Hk a _ _ _ H) as (? & ? & ?). split_and!; congruence.
  - simplify_eq. by eapply Hm.
Qed.

Lemma ret_plain {A} (a : A) : plain (ret a).
Proof. by intros c r c' [= <- <-]. Qed.

Lemma raise_plain {A} e : plain (raise (A := A) e).
Proof. by intros c r c' [= <- <-]. Qed.

Lemma net_Write_closed n p : n_closed (net_Write n p).2 = n_closed n.
Proof. unfold net_Write. by destruct (n_closed n) eqn:E. Qed.

Lemma bw_Flush_plain : plain bw_Flush.
Proof.
  intros c r c'. unfold bw_Flush. pose proof (net_Write_closed (rc_net c) (rc_bw c)) as Hn.
  destruct (rc_bwerr c); [by intros [= <- <-]|]. case_if; [by intros [= <- <-]|].
  destruct (net_Write _ _) as [[n err] nt]. simpl in Hn. destruct err; by intros [= <- <-].
Qed.

Lemma bw_Write_plain fuel p : plain (bw_Write fuel p).
Proof.
  revert p. induction fuel as [|fuel IH]; intros p c r c'; cbn [bw_Write]; [done|].
  destruct (rc_bwerr c); [by intros [= <- <-]|]. case_if; [|by intros [= <- <-]]. case_if.
  - pose proof (net_Write_closed (rc_net c) p) as Hn. destruct (net_Write _ _) as [[n err] nt]. simpl in Hn.
    intros H. apply IH in H as (? & ? & ?). simpl in *. split_and!; congruence.
  - intros H. apply res_bind_inv in H as ([r1 c1] & Hx & H). apply bw_Flush_plain in Hx as (? & ? & ?).
    apply IH in H as (? & ? & ?). simpl in *. split_and!; congruence.
Qed.

Lemma bw_WriteString_plain fuel p : plain (bw_WriteString fuel p).
Proof.
  revert p. induction fuel as [|fuel IH]; intros p c r c'; cbn [bw_WriteString]; [done|].
  destruct (rc_bwerr c); [by intros [= <- <-]|]. case_if; [|by intros [= <- <-]].
  intros H. apply res_bind_inv in H as ([r1 c1] & Hx & H). apply bw_Flush_plain in Hx as (? & ? & ?).
  apply IH in H as (? & ? & ?). simpl in *. split_and!; congruence.
Qed.

Lemma writeLen_plain prefix n : plain (writeLen prefix n).
Proof.
  intros c r c' H. unfold writeLen in H. repeat (apply res_bind_inv in H as (? & _ & H)).
  destruct x1 as [s i]. repeat (apply res_bind_inv in H as (? & _ & H)). by apply bw_Write_plain in H.
Qed.

Lemma writeString_plain p : plain (writeString p).
Proof.
  apply and_then_plain; [apply writeLen_plain|]. intros _. apply and_then_plain; intros; apply bw_WriteString_plain.
Qed.

Lemma writeBytes_plain p : plain (writeBytes p).
Proof.
  apply and_then_plain; [apply writeLen_plain|]. intros _.
  apply and_then_plain; intros; [apply bw_Write_plain|apply bw_WriteString_plain].
Qed.

Lemma writeCommand_plain cmd args : plain (writeCommand cmd args).
Proof.
  apply and_then_plain; [apply writeLen_plain|]. intros _.
  apply and_then_plain; [apply writeString_plain|]. intros _.
  induction args as [|a args IH]; [apply ret_plain|]. cbn [writeArgs]. apply and_then_plain; [|done].
  generalize true. induction a as [s|p|n|n|x|b| |r IHr text|x]; intros ok; cbn [writeArg];
    try apply writeString_plain; try apply writeBytes_plain.
  - destruct b; apply writeString_plain.
  - destruct ok; [apply IHr|apply writeBytes_plain].
Qed.

Lemma ReadSlice_plain c : exists p err s, ReadSlice c = (p, err, set_in c s).
Proof. unfold ReadSlice. case_if; [by do 3 eexists|]. case_if; by do 3 eexists. Qed.

Lemma long_line_plain fuel acc : plain (long_line fuel acc).
Proof.
  revert acc. induction fuel as [|fuel IH]; intros acc c r c'; cbn [long_line]; [done|].
  destruct (ReadSlice_plain c) as (p & err & s & ->). destruct err as [[e|]|]; [by intros [= <- <-]| |by intros [= <- <-]].
  intros H. by apply IH in H.
Qed.

Lemma trim_line_plain q : plain (trim_line q).
Proof.
  intros c r c' H. unfold trim_line in H. destruct (len q - 2 <? 0); [by simplify_eq|].
  apply res_bind_inv in H as (b & _ & H). destruct (negb (b =? 13)); [by simplify_eq|].
  apply res_bind_inv in H as (l & _ & H). by simplify_eq.
Qed.

Lemma readLine_plain : plain readLine.
Proof.
  intros c r c'. unfold readLine. destruct (ReadSlice_plain c) as (p & err & s & ->). intros H.
  apply res_bind_inv in H as ([[q|e] c1] & H1 & H).
  - apply trim_line_plain in H as (-> & -> & ->).
    destruct err as [[e|]|]; [done| |by injection H1 as <- <-]. by apply long_line_plain in H1.
  - injection H as <- <-. destruct err as [[e'|]|]; [by injection H1 as <- <-| |done].
    by apply long_line_plain in H1.
Qed.

Lemma ReadFull_plain n : plain (ReadFull n).
Proof. intros c r c'. unfold ReadFull. case_if; by intros [= <- <-]. Qed.

Lemma readReply_plain fuel : plain (readReply fuel).
Proof.
  induction fuel as [|fuel IH]; [done|]. unfold readReply. cbn [RedisConn.readReply].
  apply and_then_plain; [apply readLine_plain|]. intros [|b rest]; [apply raise_plain|].
  case_if; [apply ret_plain|]. case_if; [apply ret_plain|].
  case_if; [destruct (parseInt rest); [apply ret_plain|apply raise_plain]|].
  case_if.
  { destruct (RedisConn.parseLen rest) as [n|e]; [|apply raise_plain]. case_if; [apply ret_plain|]. case_if; [done|].
    apply and_then_plain; [apply ReadFull_plain|]. intros p.
    apply and_then_plain; [apply readLine_plain|]. intros l. case_if; [apply raise_plain|apply ret_plain]. }
  case_if; [|apply raise_plain].
  destruct (RedisConn.parseLen rest) as [n|e]; [|apply raise_plain]. case_if; [apply ret_plain|]. case_if; [done|].
  apply and_then_plain; [|intros; apply ret_plain].
  generalize (Z.to_nat n). intros k. induction k as [|k IHk]; [apply ret_plain|]. cbn [read_array].
  apply and_then_plain; [done|]. intros v. apply and_then_plain; [done|]. intros vs. apply ret_plain.
Qed.

(** The computation fails only by closing the connection with the error. *)
Definition closes {A} (m : rd A) : Prop :=
  forall c r c', m c = Ok (r, c') -> rc_err c = None ->
    match r with
    | inl _ => rc_err c' = None /\ rc_writeTimeout c' = rc_writeTimeout c
    | inr e => rc_err c' = Some e /\ rc_writeTimeout c' = rc_writeTimeout c /\ n_closed (rc_net c') = true
    end.

Lemma on_error_closes {A} (m : rd A) : plain m -> closes (on_error m fatal).
Proof.
  intros Hm c r c' H He. unfold on_error in H. apply res_bind_inv in H as ([[a|e] c1] & Hx & H);
    destruct (Hm _ _ _ Hx) as (H1 & H2 & H3); simplify_eq; [by rewrite H1|].
  unfold fatal. rewrite H1, He. done.
Qed.

Lemma and_then_closes {A B} (m : rd A) (k : A -> rd B) : closes m -> (forall a, closes (k a)) -> closes (and_then m k).
Proof.
  intros Hm Hk c r c' H He. unfold and_then in H. apply res_bind_inv in H as ([[a|e] c1] & Hx & H).
  - destruct (Hm _ _ _ Hx He) as [H1 H2]. specialize (Hk a _ _ _ H H1). rewrite H2 in Hk. done.
  - simplify_eq. by apply (Hm _ _ _ Hx).
Qed.

Lemma SetDeadline_plain : plain SetDeadline.
Proof. intros c r c'. unfold SetDeadline. case_if; by intros [= <- <-]. Qed.

Lemma SetWriteDeadline_closes : closes SetWriteDeadline.
Proof.
  intros c r c'. unfold SetWriteDeadline. case_if; [by intros [= <- <-]|].
  apply on_error_closes, SetDeadline_plain.
Qed.

Lemma ReadReply_closes : closes (on_error ReadReply fatal).
Proof. apply on_error_closes. intros c r c'. apply readReply_plain. Qed.

Lemma read_replies_closes k err : closes (read_replies k err).
Proof.
  revert err. induction k as [|k IH]; intros err; cbn [read_replies];
    (apply and_then_closes; [apply ReadReply_closes|]); intros v; [|apply IH]. by intros c r c' [= <- <-].
Qed.

Lemma Do_closes cmd args : closes (Do cmd args).
Proof.
  intros c r c'. unfold RedisConn.Do. case_if; [by intros [= <- <-]|]. intros H He.
  assert (closes (SetWriteDeadline ;;; on_error (writeCommand cmd args) fatal ;;; on_error bw_Flush fatal ;;;
            on_error SetDeadline fatal ;;; read_replies (Z.to_nat (rc_pending c)) None)) as Hc.
  { apply and_then_closes; [apply SetWriteDeadline_closes|]. intros _.
    apply and_then_closes; [apply on_error_closes, writeCommand_plain|]. intros _.
    apply and_then_closes; [apply on_error_closes, bw_Flush_plain|]. intros _.
    apply and_then_closes; [apply on_error_closes, SetDeadline_plain|]. intros _. apply read_replies_closes. }
  by apply (Hc _ _ _ H).
Qed.

(** On a closed connection the first deadline fails. *)
Lemma SetWriteDeadline_closed c e :
  n_closed (rc_net c) = true -> rc_err c = Some e -> rc_writeTimeout c <> 0 ->
  SetWriteDeadline c = Ok (inr errClosed, c).
Proof.
  intros Hc He Hw. unfold SetWriteDeadline, on_error, SetDeadline. replace (rc_writeTimeout c =? 0) with false by lia.
  rewrite Hc, res_bind_Ok. unfold fatal. by rewrite He.
Qed.

(** C36: an error of the network or of the protocol is final.  A [Do] that fails closes the
    connection and records its error, and every later operation fails at once: nothing more
    is sent, and no stale reply is read as the answer to a later command. *)
Theorem error_is_final cmd args c e c' (He : rc_err c = None) (Hw : rc_writeTimeout c <> 0)
    (Hdo : Do cmd args c = Ok (inr e, c')) :
  rc_err c' = Some e /\ n_closed (rc_net c') = true /\
  (forall cmd' args', cmd' <> [] -> exists c1, Do cmd' args' c' = Ok (inr errClosed, c1) /\ rc_net c1 = rc_net c') /\
  (forall cmd' args', exists c1, Send cmd' args' c' = Ok (inr errClosed, c1) /\ rc_net c1 = rc_net c') /\
  Flush c' = Ok (inr errClosed, c') /\ Receive c' = Ok (inr errClosed, c').
Proof.
  destruct (Do_closes _ _ _ _ _ Hdo He) as (H1 & H2 & H3). rewrite <- H2 in Hw. split_and!; [done..| | | |].
  - intros cmd' args' Hne. exists (set_pending c' 0). split; [|done]. unfold RedisConn.Do.
    rewrite bool_decide_eq_false_2 by done. cbn [andb]. apply and_then_inr. by apply (SetWriteDeadline_closed _ e).
  - intros cmd' args'. exists (set_pending c' (rc_pending c' + 1)). split; [|done].
    apply and_then_inr. by apply (SetWriteDeadline_closed _ e).
  - apply and_then_inr. by apply (SetWriteDeadline_closed _ e).
  - apply and_then_inr. unfold on_error, SetDeadline. rewrite H3, res_bind_Ok. unfold fatal. by rewrite H1.
Qed.
End client.

(** ** INFO and PING *)

(** A connection as the network hands it out, with room for [k] bytes. *)
Definition fresh_net (n : net) (k : Z) : Prop := n_closed n = false /\ n_out n = [] /\ k <= n_room n.

(** The text of INFO: headings, empty lines and fields. *)
Inductive item : Set := Heading (l : bytes) | Blank | Field (name v : bytes).

Definition print_item (i : item) : bytes :=
  match i with
  | Heading l => str "# " ++ l
  | Blank => []
  | Field name v => name ++ 58 :: v
  end.

Definition item_ok (i : item) : Prop :=
  match i with
  | Heading l => 13 ∉ l
  | Blank => True
  | Field name v => 58 ∉ name /\ 13 ∉ name /\ 13 ∉ v
  end.

Definition print_info (head : bytes) (its : list item) : bytes :=
  head ++ crlf ++ concat (map (fun i => print_item i ++ crlf) its).

(** The last value of a field. *)
Fixpoint lookup_field (its : list item) (name : bytes) : option bytes :=
  match its with
  | [] => None
  | i :: its =>
      match lookup_field its name with
      | Some v => Some v
      | None => match i with Field n v => if bool_decide (n = name) then Some (TrimSpace v) else None | _ => None end
      end
  end.

Definition read_info (its : list item) : Info :=
  mkInfo (default [] (lookup_field its (str "redis_version")))
         (match lookup_field its (str "loading") with Some v => negb (bool_decide (v = str "0")) | None => false end)
         (default [] (lookup_field its (str "master_link_status"))).

Lemma SplitCRLF_line l rest : 13 ∉ l -> SplitCRLF (l ++ crlf ++ rest) = l :: SplitCRLF rest.
Proof.
  induction l as [|a l IH]; intros Hl; [done|]. apply not_elem_of_cons in Hl as [Ha Hl].
  rewrite <- app_comm_cons. cbn [SplitCRLF]. rewrite (IH Hl).
  destruct (l ++ crlf ++ rest) as [|b t]; [done|]. by replace (a =? 13) with false by lia.
Qed.

Lemma HasPrefix_field name p v :
  58 ∉ name -> 58 ∉ p -> HasPrefix (name ++ 58 :: v) (p ++ [58]) = bool_decide (name = p).
Proof.
  revert p. induction name as [|a name IH]; intros p Hn Hp.
  - destruct p as [|b p]; [by destruct v|]. apply not_elem_of_cons in Hp as [Hb _]. cbn [app HasPrefix].
    rewrite bool_decide_eq_false_2 by done. by replace (58 =? b) with false by lia.
  - apply not_elem_of_cons in Hn as [Ha Hn]. destruct p as [|b p]; cbn [app HasPrefix].
    + rewrite bool_decide_eq_false_2 by done. by replace (a =? 58) with false by lia.
    + apply not_elem_of_cons in Hp as [Hb Hp]. rewrite (IH p Hn Hp).
      destruct (decide (a = b)) as [->|Hne].
      * rewrite Z.eqb_refl. apply bool_decide_ext. split; congruence.
      * replace (a =? b) with false by lia. by rewrite (bool_decide_eq_false_2 (a :: name = b :: p)) by congruence.
Qed.

Lemma field_item name v p :
  58 ∉ name -> 58 ∉ p ->
  field (name ++ 58 :: v) (p ++ [58]) = if bool_decide (name = p) then Some (TrimSpace v) else None.
Proof.
  intros Hn Hp. unfold field. rewrite (HasPrefix_field _ _ _ Hn Hp) at 1. case_bool_decide as E; [|done]. subst.
  unfold TrimPrefix. rewrite HasPrefix_field, bool_decide_eq_true_2 by done. do 2 f_equal.
  replace (p ++ 58 :: v) with ((p ++ [58]) ++ v) by by rewrite <- app_assoc. apply subl_tail.
Qed.

(** What a line sets. *)
Lemma info_line_item i x :
  item_ok x ->
  info_line i (print_item x) =
  match x with
  | Field name v =>
      mkInfo (if bool_decide (name = str "redis_version") then TrimSpace v else i_Version i)
             (if bool_decide (name = str "loading") then negb (bool_decide (TrimSpace v = str "0")) else i_Loading i)
             (if bool_decide (name = str "master_link_status") then TrimSpace v else i_MasterLinkStatus i)
  | _ => i
  end.
Proof.
  destruct x as [l| |name v]; [done|done|]. intros (Hn & _ & _). unfold info_line. cbn [print_item].
  change (str "loading:") with (str "loading" ++ [58]).
  change (str "master_link_status:") with (str "master_link_status" ++ [58]).
  change (str "redis_version:") with (str "redis_version" ++ [58]).
  rewrite !field_item by (done || not_in).
  by destruct (bool_decide (name = str "loading")), (bool_decide (name = str "master_link_status")),
    (bool_decide (name = str "redis_version")), i.
Qed.

Lemma fold_info its i :
  Forall item_ok its ->
  fold_left info_line (map print_item its) i =
  mkInfo (default (i_Version i) (lookup_field its (str "redis_version")))
         (match lookup_field its (str "loading") with Some v => negb (bool_decide (v = str "0")) | None => i_Loading i end)
         (default (i_MasterLinkStatus i) (lookup_field its (str "master_link_status"))).
Proof.
  intros His. revert i. induction His as [|x its Hx _ IH]; intros i; [by destruct i|].
  cbn [map fold_left lookup_field]. rewrite IH, (info_line_item i x Hx).
  destruct x as [l| |name v];
    destruct (lookup_field its (str "redis_version")), (lookup_field its (str "loading")),
      (lookup_field its (str "master_link_status")); try done; cbn [default i_Version i_Loading i_MasterLinkStatus];
    f_equal; repeat case_bool_decide; done.
Qed.

Lemma SplitCRLF_items its :
  Forall item_ok its ->
  SplitCRLF (concat (map (fun i => print_item i ++ crlf) its)) = map print_item its ++ [[]].
Proof.
  induction 1 as [|x its Hx _ IH]; [done|]. cbn [map concat]. rewrite <- !app_assoc, SplitCRLF_line, IH; [done|].
  destruct x as [l| |name v]; cbn [print_item item_ok] in *.
  - apply not_elem_of_app. split; [not_in|done].
  - apply not_elem_of_nil.
  - destruct Hx as (? & ? & ?). apply not_elem_of_app. split; [done|]. by apply not_elem_of_cons.
Qed.

Lemma info_text_ok head its :
  head <> [] -> head !! 0%nat <> Some 45 -> 10 ∉ head -> Forall item_ok its ->
  info_text (print_info head its) = Ok (inl (read_info its)).
Proof.
  intros Hne Hd Hl His. unfold info_text, print_info. destruct head as [|b head]; [done|].
  rewrite <- app_comm_cons, len_cons. pose proof (len_nonneg (head ++ crlf ++ concat (map (fun i => print_item i ++ crlf) its))).
  replace (1 + _ <? 1) with false by lia. rewrite (index_Ok _ _ b), res_bind_Ok by done.
  replace (b =? 45) with false by (cut (b <> 45); [lia|]; intros ->; done).
  set (body := concat _) in *.
  assert (b :: head ++ crlf ++ body = (b :: head ++ [13]) ++ 10 :: body) as -> by (by rewrite <- app_comm_cons, <- app_assoc).
  apply not_elem_of_cons in Hl as [Hb Hl]. rewrite IndexByte_app.
  2: { apply not_elem_of_cons. split; [done|]. apply not_elem_of_app. split; [done|]. not_in. }
  replace ((b :: head ++ [13]) ++ 10 :: body) with ((b :: head ++ [13; 10]) ++ body)
    by (rewrite <- !app_comm_cons, <- !app_assoc; done).
  replace (len (b :: head ++ [13]) + 1) with (len (b :: head ++ [13; 10]))
    by (rewrite !len_cons, !len_app; unfold len; simpl; lia).
  set (X := b :: head ++ [13; 10]). pose proof (len_nonneg X). pose proof (len_nonneg body).
  replace (1 + len (head ++ crlf ++ body)) with (len (X ++ body))
    by (subst X; rewrite !len_app, len_cons, !len_app; unfold len; simpl; lia).
  rewrite slice_Ok by (rewrite ?len_app; lia).
  rewrite res_bind_Ok, subl_tail. subst body. rewrite (SplitCRLF_items its His), fold_left_app, fold_info by done.
  done.
Qed.

Section sessions.
Context {float64 other : Type} (FormatFloat : float64 -> bytes) (Fprint : other -> bytes).
Abbreviation command := (command float64 other FormatFloat Fprint).

(** What the client sends and receives first: AUTH and its reply, with a password. *)
Definition hello (passwd : bytes) : bytes :=
  if bool_decide (passwd = []) then [] else command (str "AUTH") [ArgString float64 other passwd].
Definition welcome (passwd : bytes) (a : value) : bytes := if bool_decide (passwd = []) then [] else vencode a.

Definition is_verror (v : value) : option bytes := match v with VError e => Some e | _ => None end.

Lemma first_error_one v : first_error None [v] = EReply <$> is_verror v.
Proof. by destruct v. Qed.

(** A connected client: everything so far was sent and answered. *)
Record session (c : rconn) (sent rest : bytes) (k : Z) : Prop := mkSession {
  ss_ready : ready c;
  ss_err : rc_err c = None;
  ss_pending : rc_pending c = 0;
  ss_in : n_in (rc_net c) = rest;
  ss_written : written c = sent;
  ss_flushed : rc_bw c = [];
  ss_room : len sent + k <= capacity c;
}.

Lemma session_Do c sent rest k cmd v :
  session c sent (vencode v ++ rest) k -> cmd <> [] -> sized cmd -> value_ok v -> len (command cmd []) <= k ->
  exists c', Do float64 other FormatFloat Fprint cmd [] c = Ok (inl (v, EReply <$> is_verror v), c') /\
    session c' (sent ++ command cmd []) rest (k - len (command cmd [])).
Proof.
  intros [] Hne Hs Hv Hk.
  destruct (Do_ok FormatFloat Fprint cmd [] c v [] rest) as (c' & Hc & He & Hp & Hi & _ & Ho & Hcap & Hr & Hb); try done.
  - unfold fits. rewrite ss_written0. lia.
  - by constructor.
  - cbn [map concat]. by rewrite app_nil_r.
  - rewrite first_error_one in Hc. exists c'. split; [done|]. split; try done.
    + by rewrite He.
    + unfold written. by rewrite Ho, Hb, app_nil_r, ss_written0.
    + rewrite Hcap, len_app. lia.
Qed.

Lemma Dial_ok n passwd a rest rt wt k :
  fresh_net n (len (hello passwd) + k) -> n_in n = welcome passwd a ++ rest -> value_ok a -> is_verror a = None ->
  sized passwd -> 0 <= k ->
  exists c, Dial float64 other FormatFloat Fprint (inl n) passwd rt wt = Ok (inl c) /\ session c (hello passwd) rest k.
Proof.
  intros (Hc & Ho & Hroom) Hin Ha Hne Hsz Hk. unfold Dial, hello, welcome in *.
  set (c0 := mkRConn None n 0 rt wt [] None (replicate 32 0)).
  assert (ready c0) as Hr0 by (split; [done|done|vm_compute; discriminate|done]).
  assert (written c0 = []) as Hw0 by (unfold written; simpl; by rewrite Ho).
  assert (capacity c0 = n_room n) as Hcap0 by (unfold capacity; simpl; rewrite Ho; unfold len; simpl; lia).
  case_bool_decide as Hpw.
  - exists c0. split; [done|]. split; try done. rewrite Hcap0. exact Hroom.
  - destruct (Do_ok FormatFloat Fprint (str "AUTH") [ArgString float64 other passwd] c0 a [] rest)
      as (c & Hdo & He & Hp & Hi & _ & Hout & Hcap & Hr & Hb); try done.
    + split; [done|]. split; [done|]. by constructor.
    + unfold fits. rewrite Hw0, Hcap0. change (len []) with 0. lia.
    + by constructor.
    + cbn [map concat]. by rewrite app_nil_r.
    + rewrite Hdo, res_bind_Ok, first_error_one, Hne. cbn [fmap option_fmap option_map].
      exists c. split; [done|]. split; try done.
      * unfold written. by rewrite Hout, Hb, app_nil_r, Hw0.
      * by rewrite Hcap, Hcap0.
Qed.

(** C38: [redisInfo] reads what the node printed.  With the password accepted and INFO answered by
    headings, empty lines and fields in any order, the client sends AUTH and INFO and nothing else,
    returns the version, the loading flag and the link status from the last field of each name,
    and closes the connection. *)
Theorem redisInfo_reads n passwd a head its rest
    (Hn : fresh_net n (len (hello passwd) + len (command (str "info") [])))
    (Hin : n_in n = welcome passwd a ++ vencode (VBytes (print_info head its)) ++ rest)
    (Ha : value_ok a) (Hauth : is_verror a = None) (Hpw : sized passwd) (Hsz : len (print_info head its) <= maxAlloc)
    (Hhead : head <> []) (Hdash : head !! 0%nat <> Some 45) (Hlf : 10 ∉ head) (Hits : Forall item_ok its) :
  exists n', redisInfo float64 other FormatFloat Fprint (inl n) passwd = Ok (inl (read_info its), Some n') /\
    n_closed n' = true /\ n_in n' = rest /\ n_out n' = hello passwd ++ command (str "info") [].
Proof.
  unfold redisInfo.
  destruct (Dial_ok n passwd a _ 3000000000 3000000000 _ Hn Hin Ha Hauth Hpw) as (c & -> & Hc); [apply len_nonneg|].
  rewrite res_bind_Ok.
  destruct (session_Do c _ rest _ (str "info") (VBytes (print_info head its)) Hc) as (c1 & Hdo & Hs1);
    [done|done|by constructor|lia|].
  unfold conn_Info. rewrite (and_then_inl _ _ _ _ _ Hdo). cbn [is_verror fmap option_fmap option_map].
  rewrite info_text_ok, res_bind_Ok, res_bind_Ok by done. destruct Hs1 as [Hr He Hp Hi Hw Hb Hroom].
  unfold Close. rewrite He. exists (net_close (rc_net c1)). split_and!; try done. simpl.
  unfold written in Hw. by rewrite Hb, app_nil_r in Hw.
Qed.

(** [detect] finds a node alive exactly when it answers PING with PONG: any other reply, an
    error reply included, counts as a failure, and so does a refused connection. *)
Lemma detect_pong n passwd a v rest err
    (Hn : fresh_net n (len (hello passwd) + len (command (str "PING") [])))
    (Hin : n_in n = welcome passwd a ++ vencode v ++ rest)
    (Ha : value_ok a) (Hauth : is_verror a = None) (Hv : value_ok v) (Hpw : sized passwd) :
  detect float64 other FormatFloat Fprint (inr err) passwd = Ok (Some err) /\
  exists r, detect float64 other FormatFloat Fprint (inl n) passwd = Ok r /\ (r = None <-> v = VString (str "PONG")).
Proof.
  split; [done|]. unfold detect.
  destruct (Dial_ok n passwd a _ 3000000000 3000000000 _ Hn Hin Ha Hauth Hpw) as (c & -> & Hc); [apply len_nonneg|].
  rewrite res_bind_Ok.
  destruct (session_Do c _ rest _ (str "PING") v Hc) as (c1 & Hdo & Hs1); [done|done|done|lia|].
  rewrite Hdo, res_bind_Ok. destruct v as [|s|e|m|p|vs]; cbn [is_verror fmap option_fmap option_map];
    try (eexists; split; [done|]; split; done).
  eexists. split; [done|]. case_bool_decide as Hs; cbn [negb]; [by subst|]. split; [done|]. by intros [= ->].
Qed.
End sessions.

(** ** Samples *)

(** No argument of the proxy's own commands needs [fmt] or a float. *)
Definition no_text (x : Empty_set) : bytes := match x with end.
Definition sample_net (s : bytes) : net := mkNet s (EIo EOF) [] 100000 (EIo EOF) false.
Definition sample_conn (s : bytes) : rconn := mkRConn None (sample_net s) 0 3 3 [] None (replicate 32 0).

Lemma sample_ready s : ready (sample_conn s).
Proof. split; [done|done|vm_compute; discriminate|done]. Qed.

Lemma pipeline_replies_witness :
  exists c', (send_all no_text no_text [(str "GET", [ArgString Empty_set Empty_set (str "k")])] ;;;
              Do Empty_set Empty_set no_text no_text (str "PING") []) (sample_conn (str "-ERR x" ++ crlf ++ str "+PONG" ++ crlf ++ str "tail"))
    = Ok (inl (VString (str "PONG"), Some (EReply (str "ERR x"))), c') /\
    n_out (rc_net c') = str "*2" ++ crlf ++ bulk (str "GET") ++ bulk (str "k") ++ str "*1" ++ crlf ++ bulk (str "PING") /\
    n_in (rc_net c') = str "tail" /\ rc_pending c' = 0 /\ rc_err c' = None /\ ready c'.
Proof.
  apply (pipeline_replies no_text no_text [(str "GET", [ArgString Empty_set Empty_set (str "k")])] (str "PING") []
    (sample_conn (str "-ERR x" ++ crlf ++ str "+PONG" ++ crlf ++ str "tail")) (VError (str "ERR x")) [VString (str "PONG")] (str "tail")).
  - repeat constructor.
  - repeat constructor.
  - discriminate.
  - apply sample_ready.
  - reflexivity.
  - vm_compute. discriminate.
  - repeat constructor; not_in.
  - reflexivity.
  - reflexivity.
Defined.

(** The server hangs up in the middle of a reply. *)
Lemma error_is_final_witness :
  exists e c', Do Empty_set Empty_set no_text no_text (str "PING") [] (sample_conn (str "+PO")) = Ok (inr e, c') /\
    e = EIo EOF /\ rc_err c' = Some e /\ n_closed (rc_net c') = true.
Proof.
  destruct (Do Empty_set Empty_set no_text no_text (str "PING") [] (sample_conn (str "+PO"))) as [[[v|e] c']| |] eqn:E;
    try (vm_compute in E; discriminate).
  exists e, c'. split; [reflexivity|]. split; [vm_compute in E; congruence|].
  destruct (error_is_final no_text no_text (str "PING") [] (sample_conn (str "+PO")) e c' eq_refl ltac:(discriminate) E) as (H1 & H2 & _).
  split; [exact H1|exact H2].
Defined.

Definition sample_items : list item :=
  [Field (str "redis_version") (str "6.2.7"); Blank; Heading (str "Replication"); Field (str "role") (str "slave");
   Field (str "loading") (str "0"); Field (str "master_link_status") (str "up")].
Definition sample_text : bytes := print_info (str "# Server") sample_items.

Lemma redisInfo_reads_witness :
  exists n', redisInfo Empty_set Empty_set no_text no_text
      (inl (sample_net (str "+OK" ++ crlf ++ vencode (VBytes sample_text)))) (str "secret")
    = Ok (inl (mkInfo (str "6.2.7") false (str "up")), Some n') /\ n_closed n' = true /\ n_in n' = [] /\
    n_out n' = hello no_text no_text (str "secret") ++ command Empty_set Empty_set no_text no_text (str "info") [].
Proof.
  apply (redisInfo_reads no_text no_text (sample_net (str "+OK" ++ crlf ++ vencode (VBytes sample_text))) (str "secret")
    (VString (str "OK")) (str "# Server") sample_items []).
  - split; [reflexivity|]. split; [reflexivity|]. vm_compute. discriminate.
  - rewrite app_nil_r. reflexivity.
  - constructor. not_in.
  - reflexivity.
  - reflexivity.
  - vm_compute. discriminate.
  - discriminate.
  - discriminate.
  - not_in.
  - repeat constructor; not_in.
Defined.

Lemma detect_pong_witness :
  detect Empty_set Empty_set no_text no_text (inr (EIo EOF)) [] = Ok (Some (EIo EOF)) /\
  exists r, detect Empty_set Empty_set no_text no_text (inl (sample_net (str "+PONG" ++ crlf))) [] = Ok r /\
    (r = None <-> VString (str "PONG") = VString (str "PONG")).
Proof.
  apply (detect_pong no_text no_text (sample_net (str "+PONG" ++ crlf)) [] VNil (VString (str "PONG")) [] (EIo EOF)).
  - split; [reflexivity|]. split; [reflexivity|]. vm_compute. discriminate.
  - reflexivity.
  - constructor.
  - reflexivity.
  - constructor. not_in.
  - reflexivity.
Defined.
