(* ===== verification/RingPool.v ===== *)
(** * The ring-buffer pool

    [core/pkg/pool/ringbuffer/ringbuffer.go]: buffers are recycled through a
    [sync.Pool], and the pool calibrates itself: it counts the sizes of the
    buffers put back and from time to time sets the size of new buffers and the
    largest size it keeps.  [sync.Pool] may drop a buffer at any time; which
    buffer it hands out, if any, is an argument.  [sort.Sort] is not stable: it is a
    parameter that sorts by the number of calls. *)

From stdpp Require Import sorting.
From S2P Require Import Prelude Errors Byteslice Ring LinkedList Elastic.

Definition minBitSize : Z := 6.
Definition steps : nat := 20.
Definition minSize : Z := Z.shiftl 1 minBitSize.
Definition calibrateCallsThreshold : Z := 42000.

Record Pool := mkPool {
  calls : list Z;                    (* [steps]uint64 *)
  calibrating : Z;
  defaultSize : Z;
  maxSize : Z;
  pool : list Ring.Buffer;
}.

Definition set_pool (p : Pool) (bs : list Ring.Buffer) : Pool :=
  mkPool (calls p) (calibrating p) (defaultSize p) (maxSize p) bs.
Definition set_calls (p : Pool) (cs : list Z) : Pool :=
  mkPool cs (calibrating p) (defaultSize p) (maxSize p) (pool p).

(** The size class of a buffer. *)
Fixpoint index_loop (fuel : nat) (n idx : Z) : res Z :=
  match fuel with
  | O => OutOfFuel
  | S fuel => if 0 <? n then index_loop fuel (Z.shiftr n 1) (idx + 1) else Ok idx
  end.

Definition index (n : Z) : res Z :=
  let n := Z.shiftr (wrap64 (n - 1)) minBitSize in
  idx ← index_loop 65 n 0;
  Ok (if Z.of_nat steps <=? idx then Z.of_nat steps - 1 else idx).

Record callSize := mkCallSize { cs_calls : Z; cs_size : Z }.

(** ** float64

    A positive integer rounded to 53 significant bits, ties to even: the conversion of a
    [uint64] to [float64], and a product of floats up to a power of two. *)
Definition round53 (n : Z) : Z :=
  let e := Z.log2 n - 52 in
  if e <=? 0 then n
  else
    let q := Z.shiftr n e in
    let r := n - Z.shiftl q e in
    let half := Z.shiftl 1 (e - 1) in
    Z.shiftl (if (half <? r) || ((half =? r) && Z.odd q) then q + 1 else q) e.

(** 0.95 is the float [4278419646001971 * 2^-52]. *)
Definition percentile95 : Z := 4278419646001971.

(** [uint64(float64(callsSum) * maxPercentile)]. *)
Definition max_sum (callsSum : Z) : Z := Z.shiftr (round53 (round53 callsSum * percentile95)) 52.

(** [callSizes], as [sort.Sort] sees it: the class that was used most comes first. *)
Definition callSizes_Less (ci : list callSize) (i j : nat) : res bool :=
  match ci !! i, ci !! j with
  | Some a, Some b => Ok (cs_calls b <? cs_calls a)
  | _, _ => Panic
  end.
Definition callSizes_Swap (ci : list callSize) (i j : nat) : res (list callSize) :=
  match ci !! i, ci !! j with
  | Some a, Some b => Ok (<[j := a]> (<[i := b]> ci))
  | _, _ => Panic
  end.

(** Swapping permutes, so what the sort leaves is a permutation. *)
Lemma callSizes_Swap_perm ci i j ci' : callSizes_Swap ci i j = Ok ci' -> ci' ≡ₚ ci.
Proof.
  unfold callSizes_Swap. destruct (ci !! i) as [a|] eqn:Hi, (ci !! j) as [b|] eqn:Hj; try done. intros [= <-].
  by apply Permutation_insert_swap.
Qed.

Section ringpool.
Context `{BytePool} (sort : list callSize -> list callSize).

(** The classes with their calls, smallest size first. *)
Definition classes (cs : list Z) : list callSize :=
  imap (fun i c => mkCallSize c (uwrap64 (Z.shiftl minSize (Z.of_nat i)))) cs.

Definition calls_sum (cs : list Z) : Z := fold_left (fun s c => uwrap64 (s + c)) cs 0.

(** The loop that looks for the largest size to keep. *)
Fixpoint keep_size (a : list callSize) (callsSum maxSum maxSize : Z) : Z :=
  match a with
  | [] => maxSize
  | c :: a =>
      if maxSum <? callsSum then maxSize
      else keep_size a (uwrap64 (callsSum + cs_calls c)) maxSum (if maxSize <? cs_size c then cs_size c else maxSize)
  end.

Definition calibrate (p : Pool) : res Pool :=
  if negb (calibrating p =? 0) then Ok p
  else
    let callsSum := calls_sum (calls p) in
    let a := sort (classes (calls p)) in
    first ← Prelude.index a 0;
    let size := cs_size first in
    Ok (mkPool (replicate (length (calls p)) 0) 0 size (keep_size a 0 (max_sum callsSum) size) (pool p)).

(** [choice] is the buffer [sync.Pool] hands out, if it has one for the caller. *)
Definition Get (p : Pool) (choice : option nat) : res (Ring.Buffer * Pool) :=
  match choice with
  | Some i =>
      match pool p !! i with
      | Some b => Ok (b, set_pool p (delete i (pool p)))
      | None => b ← Ring.New (wrap64 (defaultSize p)); Ok (b, p)
      end
  | None => b ← Ring.New (wrap64 (defaultSize p)); Ok (b, p)
  end.

Definition Put (p : Pool) (b : Ring.Buffer) : res Pool :=
  idx ← index (Ring.Len b);
  n ← Prelude.index (calls p) idx;
  let n := uwrap64 (n + 1) in
  cs ← set_index (calls p) idx n;
  let p := set_calls p cs in
  p ← (if calibrateCallsThreshold <? n then calibrate p else Ok p);
  let max := wrap64 (maxSize p) in
  Ok (if (max =? 0) || (Ring.Cap b <=? max) then set_pool p (Ring.Reset b :: pool p) else p).

(** What [sort.Sort] promises. *)
Context (sort_perm : forall l, sort l ≡ₚ l).
Context (sort_sorted : forall l, Sorted (fun a b => cs_calls b <= cs_calls a) (sort l)).

(** ** Size classes *)

Lemma index_loop_spec fuel n idx :
  0 <= n < 2 ^ (Z.of_nat fuel - 1) -> (0 < fuel)%nat ->
  index_loop fuel n idx = Ok (idx + (if n =? 0 then 0 else Z.log2 n + 1)).
Proof.
  revert n idx. induction fuel as [|fuel IH]; intros n idx Hn Hf; [lia|]. cbn [index_loop]. case_if.
  - replace (n =? 0) with false by lia. destruct fuel as [|fuel]; [simpl in Hn; lia|].
    rewrite IH; [|split; [apply Z.shiftr_nonneg; lia|]|lia].
    2: { rewrite Z.shiftr_div_pow2 by lia. apply Z.div_lt_upper_bound; [lia|].
         replace (2 ^ 1 * 2 ^ (Z.of_nat (S fuel) - 1)) with (2 ^ (Z.of_nat (S (S fuel)) - 1)); [lia|].
         rewrite <- Z.pow_add_r by lia. f_equal. lia. }
    f_equal. destruct (Z.shiftr n 1 =? 0) eqn:E.
    + rewrite Z.shiftr_div_pow2 in E by lia. change (2 ^ 1) with 2 in E. assert (n = 1) as -> by (pose proof (Z.div_mod n 2 ltac:(lia)); pose proof (Z.mod_pos_bound n 2 ltac:(lia)); lia).
      simpl. lia.
    + rewrite Z.log2_shiftr by lia. assert (1 <= Z.log2 n).
      { apply Z.log2_le_pow2; [lia|]. rewrite Z.shiftr_div_pow2 in E by lia.
        destruct (decide (n = 1)) as [->|]; [done|lia]. }
      lia.
  - replace (n =? 0) with true by lia. f_equal. lia.
Qed.

(** The class of a buffer is the smallest that holds it, or the last one. *)
Lemma index_spec n :
  0 <= n < 2 ^ 63 ->
  exists i, index n = Ok i /\ 0 <= i < Z.of_nat steps /\
    (n <= Z.shiftl minSize i \/ i = Z.of_nat steps - 1) /\ (0 < i -> Z.shiftl minSize (i - 1) < n).
Proof.
  intros Hn. unfold index. rewrite wrap64_id by lia. set (m := Z.shiftr (n - 1) minBitSize).
  assert (m = (n - 1) / 64) as Hm by (unfold m; by rewrite Z.shiftr_div_pow2).
  pose proof (Z.div_mod (n - 1) 64 ltac:(lia)) as Hdm. pose proof (Z.mod_pos_bound (n - 1) 64 ltac:(lia)) as Hmb.
  rewrite <- Hm in Hdm. change (Z.of_nat steps) with 20.
  assert (Hsh : forall i, 0 <= i -> Z.shiftl minSize i = 64 * 2 ^ i) by (intros; by rewrite Z.shiftl_mul_pow2).
  destruct (decide (m <= 0)) as [Hle|Hgt].
  { exists 0. assert (m = 0 \/ m = -1) as Hm01 by lia. split_and!; try lia.
    - assert (index_loop 65 m 0 = Ok 0) as -> by (cbn [index_loop]; by replace (0 <? m) with false by lia). done.
    - left. rewrite Hsh; lia. }
  rewrite index_loop_spec; [|change (2 ^ (Z.of_nat 65 - 1)) with (2 ^ 64); lia|lia].
  replace (m =? 0) with false by lia. rewrite res_bind_Ok.
  destruct (Z.log2_spec m ltac:(lia)) as [Hlo Hhi]. pose proof (Z.log2_nonneg m) as Hl0.
  rewrite Z.pow_succ_r in Hhi by lia. eexists. split; [done|]. destruct (20 <=? 0 + (Z.log2 m + 1)) eqn:E.
  - split_and!; try lia. intros _. rewrite Hsh by lia.
    pose proof (Z.pow_le_mono_r 2 18 (Z.log2 m) ltac:(lia) ltac:(lia)). change (20 - 1 - 1) with 18. lia.
  - rewrite !Hsh by lia. replace (0 + (Z.log2 m + 1) - 1) with (Z.log2 m) by lia.
    replace (0 + (Z.log2 m + 1)) with (Z.succ (Z.log2 m)) by lia. rewrite Z.pow_succ_r by lia. split_and!; lia.
Qed.

(** ** Calibration *)

Definition total (l : list callSize) : Z := foldr (fun c s => cs_calls c + s) 0 l.

(** The calls for buffers of at most [m] bytes. *)
Definition covered (l : list callSize) (m : Z) : Z :=
  foldr (fun c s => (if cs_size c <=? m then cs_calls c else 0) + s) 0 l.

Lemma total_perm l l' : l ≡ₚ l' -> total l = total l'.
Proof. induction 1; simpl in *; lia. Qed.

Lemma covered_perm l l' m : l ≡ₚ l' -> covered l m = covered l' m.
Proof. induction 1; simpl in *; lia. Qed.

Definition counts (l : list callSize) : Prop := Forall (fun c => 0 <= cs_calls c) l.

Lemma total_nonneg l : counts l -> 0 <= total l.
Proof. induction 1; simpl in *; lia. Qed.

Lemma covered_nonneg l m : counts l -> 0 <= covered l m.
Proof. induction 1 as [|c l Hc _ IH]; simpl in *; [lia|]. destruct (cs_size c <=? m); lia. Qed.

Lemma keep_size_ge a s ms m : m <= keep_size a s ms m.
Proof.
  revert s m. induction a as [|c a IH]; intros s m; simpl; [lia|]. destruct (ms <? s); [lia|].
  pose proof (IH (uwrap64 (s + cs_calls c)) (if m <? cs_size c then cs_size c else m)) as HI.
  destruct (m <? cs_size c) eqn:E; lia.
Qed.

(** The loop stops with the sizes of more than [ms] calls within its result, or of
    all calls. *)
Lemma keep_size_covers a s ms m :
  counts a -> 0 <= s -> s + total a < 2 ^ 64 ->
  ms < s + covered a (keep_size a s ms m) \/ covered a (keep_size a s ms m) = total a.
Proof.
  intros Hc. revert s m. induction Hc as [|c a Hca Ha IH]; intros s m Hs Hb; simpl in *; [by right|].
  pose proof (total_nonneg a Ha). destruct (ms <? s) eqn:Hms.
  - left. pose proof (covered_nonneg a m Ha). destruct (cs_size c <=? m); lia.
  - unfold uwrap64 at 1 2 3 4. rewrite Z.mod_small by lia.
    set (m' := if m <? cs_size c then cs_size c else m).
    pose proof (keep_size_ge a (s + cs_calls c) ms m') as Hge.
    replace (cs_size c <=? keep_size a (s + cs_calls c) ms m') with true by (subst m'; destruct (m <? cs_size c) eqn:E; lia).
    destruct (IH (s + cs_calls c) m') as [HI|HI]; [lia|lia|left|right]; lia.
Qed.

Lemma keep_size_class a s ms m : keep_size a s ms m = m \/ exists c, c ∈ a /\ keep_size a s ms m = cs_size c.
Proof.
  revert s m. induction a as [|c a IH]; intros s m; simpl; [by left|]. destruct (ms <? s); [by left|].
  destruct (IH (uwrap64 (s + cs_calls c)) (if m <? cs_size c then cs_size c else m)) as [HI|(c' & Hin & HI)].
  - rewrite HI. destruct (m <? cs_size c); [right|by left]. exists c. split; [set_solver|done].
  - right. exists c'. split; [set_solver|done].
Qed.

(** *** Rounding *)

Lemma round53_below n : 0 < n -> 2 ^ 53 * (n - round53 n) <= n.
Proof.
  intros Hn. unfold round53. destruct (Z.log2 n - 52 <=? 0) eqn:E; [lia|].
  destruct (Z.log2_spec n Hn) as [Hlo _]. set (e := Z.log2 n - 52) in *.
  rewrite !Z.shiftl_mul_pow2, Z.shiftr_div_pow2 by lia.
  pose proof (Z.div_mod n (2 ^ e) ltac:(lia)) as Hdm. pose proof (Z.mod_pos_bound n (2 ^ e) ltac:(lia)) as Hmb.
  set (q := n / 2 ^ e) in *. set (r := n mod 2 ^ e) in *.
  assert (2 ^ e = 2 * 2 ^ (e - 1)) as He by (rewrite <- Z.pow_succ_r by lia; f_equal; lia).
  assert (2 ^ 53 * 2 ^ (e - 1) <= n) as Hn53.
  { rewrite <- Z.pow_add_r by lia. replace (53 + (e - 1)) with (Z.log2 n) by lia. lia. }
  replace (n - q * 2 ^ e) with r by lia. rewrite Z.mul_1_l.
  destruct ((2 ^ (e - 1) <? r) || ((2 ^ (e - 1) =? r) && Z.odd q)) eqn:Hup; [|].
  - replace (n - (q + 1) * 2 ^ e) with (r - 2 ^ e) by lia. lia.
  - replace (n - q * 2 ^ e) with r by lia. apply orb_false_iff in Hup as [Hup _].
    transitivity (2 ^ 53 * 2 ^ (e - 1)); [|done]. apply Z.mul_le_mono_nonneg_l; lia.
Qed.

Lemma round53_small n : 0 <= n < 2 ^ 53 -> round53 n = n.
Proof.
  intros Hn. unfold round53. replace (Z.log2 n - 52 <=? 0) with true; [done|]. symmetry. apply Z.leb_le.
  destruct (decide (n = 0)) as [->|]; [done|]. assert (Z.log2 n < 53) by (apply Z.log2_lt_pow2; lia). lia.
Qed.

(** The float computation is 95 per cent of the calls, up to less than one call. *)
Lemma max_sum_bound s : 0 <= s <= 2 ^ 40 -> 19 * s <= 20 * (max_sum s + 1).
Proof.
  intros Hs. unfold max_sum. rewrite (round53_small s) by lia.
  destruct (decide (s = 0)) as [->|Hne]; [vm_compute; discriminate|].
  set (P := s * percentile95). assert (0 < P) as HP by (unfold P, percentile95; lia).
  pose proof (round53_below P HP) as HR. set (R := round53 P) in *. rewrite Z.shiftr_div_pow2 by lia.
  pose proof (Z.div_mod R (2 ^ 52) ltac:(lia)) as Hdm. pose proof (Z.mod_pos_bound R (2 ^ 52) ltac:(lia)) as Hmb.
  set (q := R / 2 ^ 52) in *. unfold P, percentile95 in *. lia.
Qed.

Definition count_ok (c : Z) : Prop := 0 <= c <= calibrateCallsThreshold + 1.

Lemma classes_calls cs : cs_calls <$> classes cs = cs.
Proof.
  unfold classes. apply list_eq. intros i. rewrite list_lookup_fmap, list_lookup_imap. by destruct (cs !! i).
Qed.

Lemma calls_sum_total cs s :
  Forall count_ok cs -> 0 <= s -> s + Z.of_nat (length cs) * 42001 < 2 ^ 64 ->
  fold_left (fun s c => uwrap64 (s + c)) cs s = s + foldr Z.add 0 cs /\
  0 <= foldr Z.add 0 cs <= Z.of_nat (length cs) * 42001.
Proof.
  intros Hcs. revert s. induction Hcs as [|c cs Hc _ IH]; intros s Hs Hb; simpl in *; [lia|].
  unfold count_ok, calibrateCallsThreshold in Hc. unfold uwrap64 at 2. rewrite Z.mod_small by lia.
  destruct (IH (s + c)) as [-> ?]; lia.
Qed.

Lemma total_classes l : total l = foldr Z.add 0 (cs_calls <$> l).
Proof. induction l as [|c l IH]; [done|]. change (cs_calls c + total l = cs_calls c + foldr Z.add 0 (cs_calls <$> l)). by rewrite IH. Qed.

Lemma classes_counts cs : Forall count_ok cs -> counts (classes cs).
Proof.
  intros Hcs. apply Forall_lookup. intros i c Hi. unfold classes in Hi. rewrite list_lookup_imap in Hi.
  destruct (cs !! i) as [n|] eqn:E; [|done]. simplify_eq/=. eapply Forall_lookup_1 in E; [|done]. apply E.
Qed.

(** The size of class [i]. *)
Lemma classes_size cs c :
  (length cs <= steps)%nat -> c ∈ classes cs -> exists i : nat, (i < steps)%nat /\ cs_size c = 64 * 2 ^ Z.of_nat i.
Proof.
  intros Hl Hc. apply list_elem_of_lookup in Hc as [i Hi]. unfold classes in Hi. rewrite list_lookup_imap in Hi.
  destruct (cs !! i) as [n|] eqn:E; [|done]. simplify_eq/=. apply lookup_lt_Some in E. exists i. split; [lia|].
  unfold minSize, minBitSize, uwrap64. rewrite Z.shiftl_mul_pow2 by lia. change (Z.shiftl 1 6) with 64.
  apply Z.mod_small. pose proof (Z.pow_pos_nonneg 2 (Z.of_nat i)). 
  pose proof (Z.pow_le_mono_r 2 (Z.of_nat i) 20). unfold steps in Hl. lia.
Qed.

Lemma sort_first l : l <> [] -> exists c a, sort l = c :: a /\ forall d, d ∈ l -> cs_calls d <= cs_calls c.
Proof.
  intros Hl. destruct (sort l) as [|c a] eqn:E.
  { exfalso. apply Hl. apply Permutation_nil. rewrite <- (sort_perm l), E. done. }
  exists c, a. split; [done|]. intros d Hd. rewrite <- (sort_perm l), E in Hd.
  apply elem_of_cons in Hd as [->|Hd]; [done|].
  pose proof (sort_sorted l) as Hs. rewrite E in Hs. apply Sorted_StronglySorted in Hs; [|intros x y z ? ?; lia].
  apply StronglySorted_inv in Hs as [_ Hs]. rewrite Forall_forall in Hs. by apply Hs.
Qed.

(** What a calibration settles. *)
Record calibrated (p p' : Pool) : Prop := mkCalibrated {
  cal_default : exists c, c ∈ classes (calls p) /\ defaultSize p' = cs_size c /\
    forall d, d ∈ classes (calls p) -> cs_calls d <= cs_calls c;
  cal_max : defaultSize p' <= maxSize p' /\ exists c, c ∈ classes (calls p) /\ maxSize p' = cs_size c;
  cal_covers : 19 * total (classes (calls p)) <= 20 * covered (classes (calls p)) (maxSize p');
  cal_reset : calls p' = replicate (length (calls p)) 0;
  cal_pool : pool p' = pool p;
  cal_done : calibrating p' = 0;
}.

Lemma calibrate_ok p :
  length (calls p) = steps -> Forall count_ok (calls p) -> calibrating p = 0 ->
  exists p', calibrate p = Ok p' /\ calibrated p p'.
Proof.
  intros Hl Hok Hcal. unfold calibrate. rewrite Hcal. cbn [negb Z.eqb].
  destruct (sort_first (classes (calls p))) as (c & a & Hs & Hmax).
  { intros Hn. apply (f_equal length) in Hn. unfold classes in Hn. rewrite length_imap, Hl in Hn. done. }
  rewrite Hs. cbn [Prelude.index]. rewrite (index_Ok _ _ c), res_bind_Ok by done. rewrite <- Hs.
  eexists. split; [done|].
  assert (forall d, d ∈ sort (classes (calls p)) -> d ∈ classes (calls p)) as Hin by (intros d; by rewrite (sort_perm _)).
  assert (c ∈ classes (calls p)) as Hc by (apply Hin; rewrite Hs; set_solver).
  set (K := keep_size (sort (classes (calls p))) 0 (max_sum (calls_sum (calls p))) (cs_size c)).
  pose proof (classes_counts _ Hok) as Hcounts.
  assert (counts (sort (classes (calls p)))) as Hcs by (unfold counts; by rewrite (sort_perm _)).
  destruct (calls_sum_total (calls p) 0 Hok) as [Hsum Hr]; [lia|rewrite Hl; vm_compute; done|].
  fold (calls_sum (calls p)) in Hsum. rewrite <- (classes_calls (calls p)) in Hsum at 2. rewrite <- total_classes in Hsum.
  rewrite <- (classes_calls (calls p)) in Hr at 1 2. rewrite <- total_classes, Hl in Hr. change (Z.of_nat steps * 42001) with 840020 in Hr.
  pose proof (total_perm _ _ (sort_perm (classes (calls p)))) as Htot.
  split; cbn [calls calibrating defaultSize maxSize pool]; try done.
  - by exists c.
  - split; [apply keep_size_ge|]. destruct (keep_size_class (sort (classes (calls p))) 0 (max_sum (calls_sum (calls p))) (cs_size c)) as [E|(d & Hd & E)].
    + exists c. by split.
    + exists d. split; [by apply Hin|done].
  - fold K. rewrite <- (covered_perm _ _ K (sort_perm (classes (calls p)))).
    destruct (keep_size_covers (sort (classes (calls p))) 0 (max_sum (calls_sum (calls p))) (cs_size c) Hcs
                ltac:(lia) ltac:(lia)) as [HC|HC]; fold K in HC.
    + pose proof (max_sum_bound (calls_sum (calls p))) as Hb. lia.
    + rewrite HC, Htot. lia.
Qed.

(** Calibration.  The size of new buffers becomes a size class that was put back most often, and the
    largest size kept covers at least 95 per cent of the buffers put back since the last
    calibration (the multiplication by 0.95 in [float64] rounds within one call); the counters start
    again from zero. *)
Theorem calibrate_covers p p' (Hl : length (calls p) = steps) (Hok : Forall count_ok (calls p))
    (Hcal : calibrating p = 0) (Hp : calibrate p = Ok p') :
  calibrated p p'.
Proof. destruct (calibrate_ok p Hl Hok Hcal) as (q & Hq & Hc). congruence. Qed.

(** ** The invariant *)

Definition size_ok (n : Z) : Prop := n = 0 \/ exists i : nat, (i < steps)%nat /\ n = 64 * 2 ^ Z.of_nat i.

Record inv (p : Pool) : Prop := mkInv {
  inv_calls : length (calls p) = steps;
  inv_counts : Forall (fun c => 0 <= c <= calibrateCallsThreshold) (calls p);
  inv_idle : calibrating p = 0;
  inv_default : size_ok (defaultSize p);
  inv_max : size_ok (maxSize p);
  inv_pool : Forall pool_ring (pool p);
}.

Definition emptyPool : Pool := mkPool (replicate steps 0) 0 0 0 [].

Lemma inv_empty : inv emptyPool.
Proof. split; try done; try (by left). apply Forall_replicate. split; [lia|vm_compute; discriminate]. Qed.

Lemma size_ok_range n : size_ok n -> 0 <= n <= 2 ^ 26.
Proof.
  intros [->|(i & Hi & ->)]; [lia|]. pose proof (Z.pow_pos_nonneg 2 (Z.of_nat i)).
  pose proof (Z.pow_le_mono_r 2 (Z.of_nat i) 20). unfold steps in Hi. lia.
Qed.

Lemma New_pool_ring n : size_ok n -> exists b, Ring.New (wrap64 n) = Ok b /\ pool_ring b.
Proof.
  intros Hn. apply size_ok_range in Hn. rewrite wrap64_id by lia.
  destruct (Ring.New_spec n) as (b & Hb & Hwf & Hc & Hs); [unfold Ring.max_size; lia|].
  exists b. split; [done|]. split; [done|]. split; [done|]. lia.
Qed.

Lemma ring_Get_ok_inv p choice : inv p -> exists b p', Get p choice = Ok (b, p') /\ pool_ring b /\ inv p'.
Proof.
  intros Hp. destruct (New_pool_ring (defaultSize p)) as (b & Hb & Hr); [apply Hp|]. unfold Get.
  assert (exists b0 p', (b ← Ring.New (wrap64 (defaultSize p)); Ok (b, p)) = Ok (b0, p') /\ pool_ring b0 /\ inv p') as Hnew.
  { rewrite Hb, res_bind_Ok. by exists b, p. }
  destruct choice as [i|]; [|done]. destruct (pool p !! i) as [b'|] eqn:E; [|done].
  exists b', (set_pool p (delete i (pool p))). split; [done|]. split; [eapply Forall_lookup_1; [apply Hp|done]|].
  destruct Hp. split; try done. by apply Forall_delete.
Qed.

Lemma ring_Put_ok p b : inv p -> Ring.wf b -> Ring.size b <= 2 ^ 58 -> exists p', Put p b = Ok p' /\ inv p'.
Proof.
  intros Hp Hwf Hsz. unfold Put. pose proof (Ring.wf_len _ Hwf) as Hlen. pose proof (Ring.wf_size _ Hwf) as Hsize.
  destruct (index_spec (Ring.Len b)) as (i & -> & Hi & _); [unfold Ring.Len; lia|]. rewrite res_bind_Ok.
  pose proof (inv_calls _ Hp) as Hl.
  destruct (index_in_range (calls p) i) as [n Hn]; [unfold len; rewrite Hl; done|]. rewrite Hn, res_bind_Ok.
  assert (calls p !! Z.to_nat i = Some n) as Hlk.
  { unfold Prelude.index in Hn. destruct (0 <=? i); [|done]. destruct (calls p !! Z.to_nat i); [by simplify_eq|done]. }
  pose proof (Forall_lookup_1 _ _ _ _ (inv_counts _ Hp) Hlk) as Hnr. unfold calibrateCallsThreshold in Hnr.
  unfold uwrap64. rewrite Z.mod_small by lia.
  unfold set_index. replace ((0 <=? i) && (i <? len (calls p))) with true by (unfold len; rewrite Hl; lia).
  rewrite res_bind_Ok. set (cs := <[Z.to_nat i := n + 1]> (calls p)).
  assert (length cs = steps) as Hcl by (unfold cs; by rewrite length_insert).
  assert (exists p1, (if calibrateCallsThreshold <? n + 1 then calibrate (set_calls p cs) else Ok (set_calls p cs)) = Ok p1 /\ inv p1)
    as (p1 & -> & Hp1).
  { destruct (calibrateCallsThreshold <? n + 1) eqn:E.
    - destruct (calibrate_ok (set_calls p cs)) as (p1 & -> & [Hd [_ Hm] _ Hr Hpo Hdn]); [done| |apply Hp|].
      + apply Forall_insert; [|unfold count_ok, calibrateCallsThreshold; lia].
        eapply Forall_impl; [apply Hp|]. unfold count_ok. simpl. lia.
      + exists p1. split; [done|]. destruct Hd as (c & Hc & Hd & _), Hm as (d & Hdin & Hm). split; try done.
        * rewrite Hr, length_replicate. done.
        * rewrite Hr. apply Forall_replicate. split; [lia|vm_compute; discriminate].
        * right. rewrite Hd. eapply classes_size; [|done]. simpl. lia.
        * right. rewrite Hm. eapply classes_size; [|done]. simpl. lia.
        * rewrite Hpo. apply Hp.
    - exists (set_calls p cs). split; [done|]. destruct Hp. split; try done.
      apply Forall_insert; [done|]. lia. }
  rewrite res_bind_Ok. eexists. split; [done|]. case_if; [|done]. destruct Hp1. split; try done.
  simpl. constructor; [|done]. split; [by apply Ring.wf_Reset|]. split; [apply Ring.contents_Reset|done].
Qed.

(** C40: whatever buffers are put back and whenever [sync.Pool] drops some, [Get] hands out an empty,
    well-formed ring buffer and never panics, the counters never overflow and the sizes stay size classes. *)
Theorem ringpool_invariant p (Hp : inv p) :
  (forall choice, exists b p', Get p choice = Ok (b, p') /\ pool_ring b /\ inv p') /\
  (forall b, Ring.wf b -> Ring.size b <= 2 ^ 58 -> exists p', Put p b = Ok p' /\ inv p') /\
  (forall bs, bs ⊆+ pool p -> inv (set_pool p bs)) /\ inv emptyPool.
Proof.
  split_and!; [|by intros; apply ring_Put_ok| |apply inv_empty].
  - intros choice. by apply ring_Get_ok_inv.
  - intros bs Hbs. destruct Hp. split; try done. simpl.
    apply Forall_forall. intros b Hb. rewrite Forall_forall in inv_pool0. apply inv_pool0. by eapply elem_of_submseteq.
Qed.
End ringpool.

(** A sorting function with the promised behaviour. *)
#[local] Instance calls_dec (a b : callSize) : Decision ((fun a b => cs_calls b <= cs_calls a) a b).
Proof. simpl. apply _. Defined.
#[local] Instance calls_total : Total (fun a b => cs_calls b <= cs_calls a).
Proof. intros a b. destruct (decide (cs_calls b <= cs_calls a)); [by left|right; lia]. Qed.
Definition sort_calls : list callSize -> list callSize := merge_sort (fun a b => cs_calls b <= cs_calls a).

Lemma ringpool_invariant_witness : inv emptyPool /\ exists p', Put sort_calls emptyPool (Ring.mkBuffer [] 0 0 0 true) = Ok p' /\ inv p'.
Proof.
  assert (inv emptyPool) as Hi by exact inv_empty. split; [exact Hi|].
  apply (proj1 (proj2 (ringpool_invariant sort_calls (merge_sort_Permutation _) (Sorted_merge_sort _) emptyPool Hi))).
  - split; cbn; unfold Ring.max_size; try lia; done.
  - cbn. lia.
Defined.

(** Forty thousand small buffers and two thousand large ones. *)
Definition busy_pool : Pool := mkPool (40000 :: 100 :: replicate 17 0 ++ [2000]) 0 0 0 [].

Lemma calibrate_covers_witness :
  exists p', calibrate sort_calls busy_pool = Ok p' /\ defaultSize p' = 64 /\ maxSize p' = 64 /\ calibrated busy_pool p'.
Proof.
  destruct (calibrate sort_calls busy_pool) as [p'| |] eqn:E; try (vm_compute in E; discriminate).
  exists p'. split; [reflexivity|]. split; [vm_compute in E; injection E as <-; reflexivity|].
  split; [vm_compute in E; injection E as <-; reflexivity|].
  apply (calibrate_covers sort_calls (merge_sort_Permutation _) (Sorted_merge_sort _) busy_pool p').
  - reflexivity.
  - repeat constructor; vm_compute; discriminate.
  - reflexivity.
  - exact E.
Defined.
