(* ===== verification/Options.v ===== *)
(** * Configuration and options

    From the configuration file to the options the event loop runs with:
    [config/config.go], [core/options.go], [core/server/options.go], the option
    list of [main.go] and the defaults and the address parsing of [core.Run]
    ([core/gnet.go]).  The YAML parser and the file system are parameters.  The
    theorem says that whatever the file holds, the loop's buffers, limits and
    pools get sizes the other components can work with. *)

From S2P Require Import Prelude Errors Elastic Codec Message CodecS Cluster World.

(** ** [core/options.go] *)

Module Core.

Record Options := mkOptions {
  ReadBufferCap : Z;
  WriteBufferCap : Z;
  TCPKeepAlive : Z;                 (* nanoseconds *)
  SocketRecvBuffer : Z;
  SocketSendBuffer : Z;
  RedisServers : bytes;
  RedisMsgMaxLength : Z;
  RedisConnectionTimeout : Z;
  RedisRequestTimeout : Z;
  RedisServerConnections : Z;
  RedisPasswd : bytes;
  RedisPreconnect : bool;
  RedisSlowlogSlowerThan : Z;
}.

(** [new(Options)]: the zero value. *)
Definition new_Options : Options := mkOptions 0 0 0 0 0 [] 0 0 0 0 [] false 0.

(** [Option]: a function that changes the options it is given. *)
Definition Option : Type := Options -> Options.

Definition loadOptions (options : list Option) : Options :=
  foldl (fun opts option => option opts) new_Options options.

Definition WithTCPKeepAlive (tcpKeepAlive : Z) : Option := fun '(mkOptions rc wc ka rb sb rs ml ct rt sc pw pc sl) =>
  mkOptions rc wc tcpKeepAlive rb sb rs ml ct rt sc pw pc sl.
Definition WithSocketRecvBuffer (recvBuf : Z) : Option := fun '(mkOptions rc wc ka rb sb rs ml ct rt sc pw pc sl) =>
  mkOptions rc wc ka recvBuf sb rs ml ct rt sc pw pc sl.
Definition WithSocketSendBuffer (sendBuf : Z) : Option := fun '(mkOptions rc wc ka rb sb rs ml ct rt sc pw pc sl) =>
  mkOptions rc wc ka rb sendBuf rs ml ct rt sc pw pc sl.
Definition WithRedisServers (addrs : bytes) : Option := fun '(mkOptions rc wc ka rb sb rs ml ct rt sc pw pc sl) =>
  mkOptions rc wc ka rb sb addrs ml ct rt sc pw pc sl.
Definition WithRedisMsgMaxLength (length : Z) : Option := fun '(mkOptions rc wc ka rb sb rs ml ct rt sc pw pc sl) =>
  mkOptions rc wc ka rb sb rs length ct rt sc pw pc sl.
Definition WithRedisPasswd (passwd : bytes) : Option := fun '(mkOptions rc wc ka rb sb rs ml ct rt sc pw pc sl) =>
  mkOptions rc wc ka rb sb rs ml ct rt sc passwd pc sl.
Definition WithRedisPreconnect (preconnect : bool) : Option := fun '(mkOptions rc wc ka rb sb rs ml ct rt sc pw pc sl) =>
  mkOptions rc wc ka rb sb rs ml ct rt sc pw preconnect sl.
Definition WithRedisConnectTimeout (num : Z) : Option := fun '(mkOptions rc wc ka rb sb rs ml ct rt sc pw pc sl) =>
  mkOptions rc wc ka rb sb rs ml num rt sc pw pc sl.
Definition WithRedisRequestTimeout (timeout : Z) : Option := fun '(mkOptions rc wc ka rb sb rs ml ct rt sc pw pc sl) =>
  mkOptions rc wc ka rb sb rs ml ct timeout sc pw pc sl.
Definition WithRedisServerConnections (num : Z) : Option := fun '(mkOptions rc wc ka rb sb rs ml ct rt sc pw pc sl) =>
  mkOptions rc wc ka rb sb rs ml ct rt num pw pc sl.
Definition WithSlowlogSlowerThan (num : Z) : Option := fun '(mkOptions rc wc ka rb sb rs ml ct rt sc pw pc sl) =>
  mkOptions rc wc ka rb sb rs ml ct rt sc pw pc num.

(** The buffer capacities and the defaults [core.Run] ([core/gnet.go]) sets. *)
Definition MaxStreamBufferCap : Z := 64 * 1024.
Definition normalise : Option := fun '(mkOptions _ _ ka rb sb rs ml ct rt sc pw pc sl) =>
  mkOptions MaxStreamBufferCap MaxStreamBufferCap ka rb sb rs
    (if ml <? 1 then 6 * 1024 * 1024 else ml)
    (if ct <? 1 then 200 else ct)
    rt
    (if sc <? 1 then 1 else sc)
    pw pc sl.

End Core.

(** ** [core/server/options.go] *)

Module Srv.

Record Options := mkOptions { Password : bytes; DisableSlave : bool; ServerRetryTimeout : Z }.
Definition new_Options : Options := mkOptions [] false 0.
Definition Option : Type := Options -> Options.
Definition loadOptions (options : list Option) : Options :=
  foldl (fun opts option => option opts) new_Options options.

Definition WithRedisPassword (passwd : bytes) : Option := fun '(mkOptions _ d t) => mkOptions passwd d t.
Definition WithServerRetryTimeout (timeout : Z) : Option := fun '(mkOptions p d _) => mkOptions p d timeout.
Definition WithDisableRedisSlave (disable : bool) : Option := fun '(mkOptions p _ t) => mkOptions p disable t.

End Srv.

(** ** [config/config.go] *)

Record redisConfig := mkRedisConfig {
  Servers : bytes;
  Password : bytes;
  DisableSlave : bool;
  Preconnect : bool;
  MsgMaxLengthLimit : Z;
  ConnTimeout : Z;
  Timeout : Z;
  ServerRetryTimeout : Z;
  ServerConnections : Z;
  SlowlogSlowerThan : Z;
}.
Record Config := mkConfig {
  Port : Z;
  WebPort : Z;
  LogPath : bytes;
  LogLevel : bytes;
  LogExpireDay : Z;
  Redis : redisConfig;
}.

(** The keys of [logging.LevelMapperRev] ([core/pkg/logging/logrus_wrapper.go]). *)
Definition level_names : list bytes := [str "DEBUG"; str "INFO"; str "WARN"; str "ERROR"].

(** The error prints the result of the failed lookup, the zero level, whose
    name is "panic", and not the configured one. *)
Definition validate (c : Config) : option error :=
  if negb (bool_decide (LogLevel c ∈ level_names)) then Some (EText (str "unknown log level panic"))
  else if len (Servers (Redis c)) <? 1 then Some (EText (str "unknown redis addrs"))
  else None.

Section load.
Context (ReadFile : bytes -> bytes + error) (Unmarshal : bytes -> Config + error).

Definition LoadConfig (fileName : bytes) : Config + error :=
  match ReadFile fileName with
  | inr err => inr err
  | inl file =>
      match Unmarshal file with
      | inr err => inr err
      | inl cfg => match validate cfg with Some err => inr err | None => inl cfg end
      end
  end.
End load.

(** ** Addresses *)

(** [strings.ToLower] on ASCII text. *)
Definition ToLower (s : bytes) : bytes := map (fun c => if (65 <=? c) && (c <=? 90) then c + 32 else c) s.

(** The text before and after the first occurrence of [sep]. *)
Fixpoint Cut (s sep : bytes) : option (bytes * bytes) :=
  if HasPrefix s sep then Some ([], drop (length sep) s)
  else
    match s with
    | [] => None
    | c :: s => '(a, b) ← Cut s sep; Some (c :: a, b)
    end.

(** [strings.Split] with a separator of several bytes: every cut removes one, so
    [length s] of them are enough. *)
Fixpoint SplitN (fuel : nat) (s sep : bytes) : list bytes :=
  match fuel with
  | O => [s]
  | S fuel => match Cut s sep with Some (a, b) => a :: SplitN fuel b sep | None => [s] end
  end.
Definition SplitStr (s sep : bytes) : list bytes := SplitN (length s) s sep.

Definition scheme : bytes := str "://".

(** [parseProtoAddr]; [pair[0]] and [pair[1]] are indexed with the bounds check. *)
Definition parseProtoAddr (addr : bytes) : res (bytes * bytes) :=
  let network := str "tcp" in
  let address := ToLower addr in
  if Contains address scheme then
    let pair := SplitStr address scheme in
    network ← index pair 0;
    address ← index pair 1;
    Ok (network, address)
  else Ok (network, address).

(** ** [main.go] *)

Definition server_options (cfg : Config) : Srv.Options :=
  Srv.loadOptions
    [Srv.WithRedisPassword (Password (Redis cfg));
     Srv.WithServerRetryTimeout (ServerRetryTimeout (Redis cfg));
     Srv.WithDisableRedisSlave (DisableSlave (Redis cfg))].

Definition main_options (cfg : Config) : list Core.Option :=
  [Core.WithRedisPasswd (Password (Redis cfg));
   Core.WithRedisServers (Servers (Redis cfg));
   Core.WithRedisPreconnect (Preconnect (Redis cfg));
   Core.WithRedisConnectTimeout (ConnTimeout (Redis cfg));
   Core.WithRedisRequestTimeout (Timeout (Redis cfg));
   Core.WithRedisServerConnections (ServerConnections (Redis cfg));
   Core.WithRedisMsgMaxLength (MsgMaxLengthLimit (Redis cfg));
   Core.WithSlowlogSlowerThan (SlowlogSlowerThan (Redis cfg))].

Definition listen_addr (cfg : Config) : bytes := str "tcp://:" ++ Itoa (Port cfg).

(** The options [core.Run] hands to the engine. *)
Definition Run_options (opts : list Core.Option) : Core.Options := Core.normalise (Core.loadOptions opts).

(** What the event loop and the handler read of both. *)
Definition loop_options (o : Core.Options) (s : Srv.Options) : World.Options :=
  World.mkOptions (Core.WriteBufferCap o) (Core.ReadBufferCap o) (Core.RedisRequestTimeout o)
    (Core.RedisMsgMaxLength o) (Core.RedisPasswd o) (Core.RedisServerConnections o)
    (Srv.DisableSlave s) (Srv.ServerRetryTimeout s).

(** ** Lemmas *)

Lemma HasPrefix_app p s : HasPrefix (p ++ s) p = true.
Proof. induction p as [|c p IH]; simpl; [by destruct s|]. by rewrite Z.eqb_refl. Qed.

Lemma Cut_first s sep c t : HasPrefix sep [c] = true -> c ∉ s -> Cut (s ++ sep ++ t) sep = Some (s, t).
Proof.
  intros Hc. destruct sep as [|x sep]; [done|]. simpl in Hc.
  apply andb_true_iff in Hc as [Hc%Z.eqb_eq _]. subst c. induction s as [|y s IH]; intros Hs.
  - rewrite app_nil_l. destruct (x :: sep) as [|z l] eqn:E; [done|]. rewrite <- app_comm_cons. cbn [Cut].
    rewrite app_comm_cons, HasPrefix_app. by rewrite drop_app_length.
  - apply not_elem_of_cons in Hs as [Hy Hs]. cbn [app Cut HasPrefix].
    rewrite (proj2 (Z.eqb_neq y x)) by done. cbn [andb]. specialize (IH Hs). cbn [app] in IH. by rewrite IH.
Qed.

Lemma Contains_app s sub t : Contains (s ++ sub ++ t) sub = true.
Proof.
  induction s as [|c s IH]; [|cbn [app Contains]; by rewrite IH, orb_true_r].
  pose proof (HasPrefix_app sub t) as Hp. rewrite app_nil_l. destruct (sub ++ t); cbn [Contains]; by rewrite Hp.
Qed.

Lemma Cut_None s sep : Contains s sep = false -> Cut s sep = None.
Proof.
  induction s as [|c s IH]; cbn [Contains Cut]; intros [Hp Hc]%orb_false_iff; rewrite Hp; [done|].
  by rewrite IH.
Qed.

Lemma ToLower_app s t : ToLower (s ++ t) = ToLower s ++ ToLower t.
Proof. apply map_app. Qed.

Lemma ToLower_not_in c s : c < 65 -> c ∉ s -> c ∉ ToLower s.
Proof.
  intros Hc Hs Hin. unfold ToLower in Hin. apply list_elem_of_In, in_map_iff in Hin as (x & Hx & Hin).
  apply list_elem_of_In in Hin. apply Hs. destruct ((65 <=? x) && (x <=? 90)) eqn:E; [lia|by subst].
Qed.

Lemma SplitStr_two a b sep : sep <> [] -> Cut (a ++ sep ++ b) sep = Some (a, b) ->
  Contains b sep = false -> SplitStr (a ++ sep ++ b) sep = [a; b].
Proof.
  intros Hsep Hcut Hb. unfold SplitStr. destruct sep as [|x sep]; [done|].
  rewrite !length_app. cbn [length]. rewrite !Nat.add_succ_l, Nat.add_succ_r. cbn [SplitN]. rewrite Hcut. f_equal.
  destruct (length a + (length sep + length b))%nat; cbn [SplitN]; [done|]. by rewrite Cut_None.
Qed.

(** The scheme and the address of a listening address are taken apart. *)
Lemma parseProtoAddr_scheme network address :
  58 ∉ network -> Contains (ToLower address) scheme = false ->
  parseProtoAddr (network ++ scheme ++ address) = Ok (ToLower network, ToLower address).
Proof.
  intros Hn Ha. unfold parseProtoAddr. rewrite !ToLower_app. change (ToLower scheme) with scheme.
  rewrite Contains_app. apply (ToLower_not_in 58) in Hn; [|lia].
  rewrite SplitStr_two; [done|done|apply (Cut_first _ _ 58); done|done].
Qed.

Lemma parseProtoAddr_plain addr :
  Contains (ToLower addr) scheme = false -> parseProtoAddr addr = Ok (str "tcp", ToLower addr).
Proof. intros Ha. unfold parseProtoAddr. by rewrite Ha. Qed.

Lemma Itoa_bytes n : Forall (fun b => b = 45 \/ 48 <= b <= 57) (Itoa n).
Proof.
  unfold Itoa. case_if; [constructor; [by left|]|];
    (eapply Forall_impl; [apply digits_range; lia|]); simpl; intros; lia.
Qed.

Lemma ToLower_digits s : Forall (fun b => b = 45 \/ 48 <= b <= 57) s -> ToLower s = s.
Proof.
  induction 1 as [|b s Hb Hs IH]; [done|]. cbn [ToLower map]. fold (ToLower s). rewrite IH.
  replace ((65 <=? b) && (b <=? 90)) with false by lia. done.
Qed.

Lemma Contains_absent c s sub : c ∉ s -> Contains s (c :: sub) = false.
Proof.
  induction s as [|b s IH]; intros Hs; [done|]. apply not_elem_of_cons in Hs as [Hb Hs].
  cbn [Contains HasPrefix]. rewrite (proj2 (Z.eqb_neq b c)) by done. by rewrite IH.
Qed.

Lemma colon_scheme s : 58 ∉ s -> 47 ∉ s -> Contains (58 :: s) scheme = false.
Proof.
  intros Hc Hs. cbn [Contains]. change (Contains s scheme) with (Contains s (58 :: [47; 47])).
  rewrite Contains_absent by done. rewrite orb_false_r.
  destruct s as [|b s]; [done|]. apply not_elem_of_cons in Hs as [Hb Hs].
  change (scheme) with [58; 47; 47]. cbn [HasPrefix]. rewrite (proj2 (Z.eqb_neq b 47)) by done. by rewrite andb_false_r.
Qed.

Lemma parse_listen_addr cfg : parseProtoAddr (listen_addr cfg) = Ok (str "tcp", str ":" ++ Itoa (Port cfg)).
Proof.
  pose proof (Itoa_bytes (Port cfg)) as Hd.
  change (listen_addr cfg) with (str "tcp" ++ scheme ++ (58 :: Itoa (Port cfg))).
  change (str ":" ++ Itoa (Port cfg)) with (58 :: Itoa (Port cfg)).
  assert (Hl : ToLower (58 :: Itoa (Port cfg)) = 58 :: Itoa (Port cfg)).
  { change (ToLower (58 :: ?s)) with (58 :: ToLower s). by rewrite ToLower_digits. }
  rewrite parseProtoAddr_scheme; rewrite ?Hl; [done|..].
  - set_solver.
  - apply colon_scheme; intros Hin; rewrite Forall_forall in Hd; specialize (Hd _ Hin); simpl in Hd; lia.
Qed.

(** C37: Whatever the configuration holds, [main] starts the engine with options
    the other components can work with: the stream buffers have 64 KB, so that
    the outbound buffer of a connection can be made; the message limit, the
    number of connections per node and the connect timeout are at least one, and
    are the configured values when these are positive; the loop and the handler
    use the same password; and the listening address is read as the port of the
    configuration on all interfaces. *)
Theorem main_configures cfg :
  let o := Run_options (main_options cfg) in
  let s := server_options cfg in
  let l := loop_options o s in
  let r := Redis cfg in
  (exists b, Elastic.New (WriteBufferCap l) = inl b /\ Elastic.maxStaticBytes b = 65536) /\
  ReadBufferCap l = 65536 /\
  (1 <= RedisMsgMaxLength l /\ (1 <= MsgMaxLengthLimit r -> RedisMsgMaxLength l = MsgMaxLengthLimit r)) /\
  (1 <= RedisServerConnections l /\
   (1 <= ServerConnections r -> RedisServerConnections l = ServerConnections r)) /\
  (1 <= Core.RedisConnectionTimeout o /\ (1 <= ConnTimeout r -> Core.RedisConnectionTimeout o = ConnTimeout r)) /\
  RedisPasswd l = Password r /\ Srv.Password s = Password r /\
  World.DisableSlave l = DisableSlave r /\ World.ServerRetryTimeout l = ServerRetryTimeout r /\
  RedisRequestTimeout l = Timeout r /\ Core.RedisServers o = Servers r /\
  Core.RedisPreconnect o = Preconnect r /\ Core.RedisSlowlogSlowerThan o = SlowlogSlowerThan r /\
  parseProtoAddr (listen_addr cfg) = Ok (str "tcp", str ":" ++ Itoa (Port cfg)).
Proof.
  cbv zeta. destruct cfg as [port wp lp ll le [sv pw ds pc ml ct to rt sc sl]].
  split; [eexists; split; [vm_compute; reflexivity|done]|].
  assert (Hp : forall n d : Z, 1 <= d -> 1 <= (if n <? 1 then d else n) /\ (1 <= n -> (if n <? 1 then d else n) = n)).
  { intros n d Hd. destruct (n <? 1) eqn:E; lia. }
  split; [done|]. split; [apply Hp; lia|]. split; [apply Hp; lia|]. split; [apply Hp; lia|].
  do 8 (split; [done|]). apply parse_listen_addr.
Qed.
