(* ===== verification/Sockets.v ===== *)
(** * Sockets

    [core/internal/socket] and [core/internal/netpoll/fd_unix.go]: the
    translation between addresses and socket addresses, the socket options, the
    creation of the listening socket, and the duplication of descriptors; and
    the part of [engine.Dial] ([core/engine.go]) that turns a dialled connection
    into a descriptor of the event loop.  The kernel is the class [SockKernel],
    whose laws say what each call does to the table of open sockets. *)

From S2P Require Import Prelude Errors Byteslice Codec Cluster.

(** ** Addresses *)

(** A [net.IP] is a byte slice; nil is the empty one. *)
Definition IP : Type := bytes.

Definition ipv4InIPv6Prefix : bytes := [0; 0; 0; 0; 0; 0; 0; 0; 0; 0; 255; 255].

(** [net.IPv4], [net.IPv4zero] and [net.IPv6zero]. *)
Definition IPv4zero : IP := ipv4InIPv6Prefix ++ [0; 0; 0; 0].
Definition IPv6zero : IP := replicate 16 0.

(** [net.IP.To4], [net.IP.To16] and [net.IP.Equal]. *)
Definition To4 (ip : IP) : option IP :=
  if len ip =? 4 then Some ip
  else if (len ip =? 16) && bool_decide (subl ip 0 12 = ipv4InIPv6Prefix) then Some (subl ip 12 16)
  else None.
Definition To16 (ip : IP) : option IP :=
  if len ip =? 4 then Some (ipv4InIPv6Prefix ++ ip) else if len ip =? 16 then Some ip else None.
Definition Equal (ip x : IP) : bool :=
  if len ip =? len x then bool_decide (ip = x)
  else if (len ip =? 4) && (len x =? 16) then
    bool_decide (subl x 0 12 = ipv4InIPv6Prefix) && bool_decide (ip = subl x 12 16)
  else if (len ip =? 16) && (len x =? 4) then
    bool_decide (subl ip 0 12 = ipv4InIPv6Prefix) && bool_decide (subl ip 12 16 = x)
  else false.

Record TCPAddr := mkTCPAddr { a_IP : IP; a_Port : Z; a_Zone : bytes }.

(** The implementations of [unix.Sockaddr]. *)
Inductive Sockaddr : Type :=
  | SockaddrInet4 (Port : Z) (Addr : bytes)
  | SockaddrInet6 (Port : Z) (ZoneId : Z) (Addr : bytes)
  | SockaddrUnix (Name : bytes)
  | SockaddrOther.

Inductive net_Addr : Type := TCP (a : TCPAddr) | Unix (name : bytes).

(** [os.SyscallError] wraps an error number; the setters that do not wrap
    return the bare [unix.Errno], which is another dynamic type. *)
Inductive sockerr : Type :=
  | SyscallError (call : bytes) (errno : Z)
  | Errno (errno : Z)
  | AddrError (what : bytes) (ip : IP)
  | Engine (e : engine_error)
  | Plain (text : bytes).

Definition NewSyscallError (call : bytes) (r : option Z) : option sockerr := SyscallError call <$> r.

Definition AF_INET : Z := 2.
Definition AF_INET6 : Z := 10.

(** The network interfaces of the host: [net.InterfaceByName] and
    [net.InterfaceByIndex], of which the code uses the index and the name.  The
    empty name is never one. *)
Class Interfaces := {
  InterfaceByName : bytes -> option Z;
  InterfaceByIndex : Z -> option bytes;
  interface_names : forall n i, InterfaceByName n = Some i -> InterfaceByIndex i = Some n /\ 0 < i < 2 ^ 31;
  interface_empty : InterfaceByName [] = None;
}.

(** *** [sock_posix.go] *)

Definition ipToSockaddrInet4 (ip : IP) (port : Z) : Sockaddr + sockerr :=
  let ip := if len ip =? 0 then IPv4zero else ip in
  match To4 ip with
  | None => inr (AddrError (str "non-IPv4 address") ip)
  | Some ip4 => inl (SockaddrInet4 port (copy_at (make_bytes 4) 0 ip4))
  end.

Section addresses.
Context `{Interfaces}.

Definition ipToSockaddrInet6 (ip : IP) (port : Z) (zone : bytes) : Sockaddr + sockerr :=
  let ip := if (len ip =? 0) || Equal ip IPv4zero then IPv6zero else ip in
  match To16 ip with
  | None => inr (AddrError (str "non-IPv6 address") ip)
  | Some ip6 =>
      let addr := copy_at (make_bytes 16) 0 ip6 in
      match InterfaceByName zone with
      | None => inl (SockaddrInet6 port 0 addr)
      | Some index => inl (SockaddrInet6 port (uwrap32 index) addr)
      end
  end.

Definition ipToSockaddr (family : Z) (ip : IP) (port : Z) (zone : bytes) : Sockaddr + sockerr :=
  if family =? AF_INET then ipToSockaddrInet4 ip port
  else if family =? AF_INET6 then ipToSockaddrInet6 ip port zone
  else inr (AddrError (str "invalid address family") ip).

(** *** [socktoaddr.go]

    The slices come from the byte-slice pool, with whatever bytes their array
    held before. *)

Definition sockaddrInet4ToIP (p : Byteslice.Pool) (choice : option nat) (addr : bytes) : IP * Byteslice.Pool :=
  let '(g, p) := Byteslice.Get p choice 16 in
  let ip := visible g in
  let ip := copy_at ip 0 (subl ipv4InIPv6Prefix 0 12) in
  (copy_at ip 12 addr, p).

(** The loop of [int2decimal]: [n] is [bp]. *)
Fixpoint int2decimal_loop (n : nat) (i : Z) (b : bytes) : res (nat * bytes) :=
  if 0 <? i then
    match n with
    | O => Panic
    | S n => b ← set_index b (Z.of_nat n) (48 + i mod 10); int2decimal_loop n (i / 10) b
    end
  else Ok (n, b).
Definition int2decimal (p : Byteslice.Pool) (choice : option nat) (i : Z) : res (bytes * Byteslice.Pool) :=
  if i =? 0 then Ok (str "0", p)
  else
    let '(g, p) := Byteslice.Get p choice 32 in
    let b := visible g in
    '(bp, b) ← int2decimal_loop (length b) i b;
    Ok (drop bp b, p).

Definition ip6ZoneToString (p : Byteslice.Pool) (choice : option nat) (zone : Z) : res (bytes * Byteslice.Pool) :=
  if zone =? 0 then Ok ([], p)
  else
    match InterfaceByIndex zone with
    | Some name => Ok (name, p)
    | None => int2decimal p choice (uwrap64 zone)
    end.

Definition sockaddrInet6ToIPAndZone (p : Byteslice.Pool) (ch1 ch2 : option nat) (zoneId : Z) (addr : bytes) :
    res (IP * bytes * Byteslice.Pool) :=
  let '(g, p) := Byteslice.Get p ch1 16 in
  let ip := copy_at (visible g) 0 addr in
  '(zone, p) ← ip6ZoneToString p ch2 zoneId;
  Ok (ip, zone, p).

Definition SockaddrToTCPOrUnixAddr (p : Byteslice.Pool) (ch1 ch2 : option nat) (sa : Sockaddr) :
    res (option net_Addr * Byteslice.Pool) :=
  match sa with
  | SockaddrInet4 port addr =>
      let '(ip, p) := sockaddrInet4ToIP p ch1 addr in
      Ok (Some (TCP (mkTCPAddr ip port [])), p)
  | SockaddrInet6 port zoneId addr =>
      '(ip, zone, p) ← sockaddrInet6ToIPAndZone p ch1 ch2 zoneId addr;
      Ok (Some (TCP (mkTCPAddr ip port zone)), p)
  | SockaddrUnix name => Ok (Some (Unix name), p)
  | SockaddrOther => Ok (None, p)
  end.

(** *** [tcp_socket.go]: the address family *)

Definition determineTCPProto (proto : bytes) (addr : TCPAddr) : bytes + sockerr :=
  if To4 (a_IP addr) is Some _ then inl (str "tcp4")
  else if To16 (a_IP addr) is Some _ then inl (str "tcp6")
  else if bool_decide (proto ∈ [str "tcp"; str "tcp4"; str "tcp6"]) then inl proto
  else inr (Engine ErrUnsupportedTCPProtocol).

(** [net.ResolveTCPAddr] is the name resolution of the host. *)
Definition GetTCPSockAddr (ResolveTCPAddr : bytes -> bytes -> TCPAddr + sockerr) (proto addr : bytes) :
    (Sockaddr * Z * TCPAddr * bool) + sockerr :=
  match ResolveTCPAddr proto addr with
  | inr err => inr err
  | inl tcpAddr =>
      match determineTCPProto proto tcpAddr with
      | inr err => inr err
      | inl tcpVersion =>
          let on family zone ipv6only :=
            match ipToSockaddr family (a_IP tcpAddr) (a_Port tcpAddr) zone with
            | inr err => inr err
            | inl sa => inl (sa, family, tcpAddr, ipv6only)
            end in
          if bool_decide (tcpVersion = str "tcp4") then on AF_INET [] false
          else if bool_decide (tcpVersion = str "tcp6") then on AF_INET6 (a_Zone tcpAddr) true
          else if bool_decide (tcpVersion = str "tcp") then on AF_INET6 (a_Zone tcpAddr) false
          else inr (Engine ErrUnsupportedProtocol)
      end
  end.
End addresses.

(** ** The kernel *)

Record sock := mkSock {
  s_family : Z;
  s_type : Z;
  s_proto : Z;
  s_nonblock : bool;
  s_cloexec : bool;
  s_opts : gmap (Z * Z) Z;                (* level and name *)
  s_linger : option (Z * Z);
  s_bound : option Sockaddr;
  s_backlog : option Z;                   (* of [listen] *)
  s_peer : option Sockaddr;               (* of [connect] *)
}.
Definition new_sock (family type proto : Z) (nonblock cloexec : bool) : sock :=
  mkSock family type proto nonblock cloexec ∅ None None None None.
Definition set_nonblock (b : bool) (s : sock) : sock :=
  mkSock (s_family s) (s_type s) (s_proto s) b (s_cloexec s) (s_opts s) (s_linger s) (s_bound s) (s_backlog s) (s_peer s).
Definition set_cloexec (s : sock) : sock :=
  mkSock (s_family s) (s_type s) (s_proto s) (s_nonblock s) true (s_opts s) (s_linger s) (s_bound s) (s_backlog s) (s_peer s).
Definition set_opt (level name v : Z) (s : sock) : sock :=
  mkSock (s_family s) (s_type s) (s_proto s) (s_nonblock s) (s_cloexec s) (<[(level, name) := v]> (s_opts s))
    (s_linger s) (s_bound s) (s_backlog s) (s_peer s).
Definition set_linger (l : Z * Z) (s : sock) : sock :=
  mkSock (s_family s) (s_type s) (s_proto s) (s_nonblock s) (s_cloexec s) (s_opts s) (Some l) (s_bound s) (s_backlog s) (s_peer s).
Definition set_bound (sa : Sockaddr) (s : sock) : sock :=
  mkSock (s_family s) (s_type s) (s_proto s) (s_nonblock s) (s_cloexec s) (s_opts s) (s_linger s) (Some sa) (s_backlog s) (s_peer s).
Definition set_backlog (n : Z) (s : sock) : sock :=
  mkSock (s_family s) (s_type s) (s_proto s) (s_nonblock s) (s_cloexec s) (s_opts s) (s_linger s) (s_bound s) (Some n) (s_peer s).
Definition set_peer (sa : Sockaddr) (s : sock) : sock :=
  mkSock (s_family s) (s_type s) (s_proto s) (s_nonblock s) (s_cloexec s) (s_opts s) (s_linger s) (s_bound s) (s_backlog s) (Some sa).

(** Flags of the type argument of [socket], and the commands of [fcntl]. *)
Definition SOCK_STREAM : Z := 1.
Definition SOCK_NONBLOCK : Z := 2048.
Definition SOCK_CLOEXEC : Z := 524288.
Definition IPPROTO_TCP : Z := 6.
Definition IPPROTO_IPV6 : Z := 41.
Definition SOL_SOCKET : Z := 1.
Definition TCP_NODELAY : Z := 1.
Definition TCP_KEEPIDLE : Z := 4.
Definition TCP_KEEPINTVL : Z := 5.
Definition SO_REUSEADDR : Z := 2.
Definition SO_SNDBUF : Z := 7.
Definition SO_RCVBUF : Z := 8.
Definition SO_KEEPALIVE : Z := 9.
Definition SO_REUSEPORT : Z := 15.
Definition IPV6_V6ONLY : Z := 26.
Definition EINVAL : Z := 22.
Definition ENOSYS : Z := 38.
Definition ENOPROTOOPT_darwin : Z := 42.
Definition EINPROGRESS : Z := 115.

(** What a call on a descriptor does to the table: its effect when it succeeds,
    nothing when it fails. *)
Definition effect (t : gmap Z sock) (fd : Z) (f : sock -> sock) (r : option Z) : gmap Z sock :=
  match r with None => alter f fd t | Some _ => t end.

(** The system calls, with the table of the open sockets and its laws. *)
Class SockKernel := {
  kern : Type;
  socks : kern -> gmap Z sock;
  k_socket : kern -> Z -> Z -> Z -> kern * (Z + Z);
  k_cloexec : kern -> Z -> kern;                        (* CloseOnExec reports nothing *)
  k_nonblock : kern -> Z -> bool -> kern * option Z;
  k_setsockopt : kern -> Z -> Z -> Z -> Z -> kern * option Z;
  k_setlinger : kern -> Z -> Z * Z -> kern * option Z;
  k_bind : kern -> Z -> Sockaddr -> kern * option Z;
  k_listen : kern -> Z -> Z -> kern * option Z;
  k_connect : kern -> Z -> Sockaddr -> kern * option Z;
  k_dup : kern -> Z -> kern * (Z + Z);
  k_dup_cloexec : kern -> Z -> kern * (Z + Z);          (* fcntl F_DUPFD_CLOEXEC *)
  k_close : kern -> Z -> kern;
  k_socket_law : forall k f ty p k' r, k_socket k f ty p = (k', r) ->
    match r with
    | inl fd => 0 <= fd /\ socks k !! fd = None /\
        socks k' = <[fd := new_sock f (Z.land ty 15) p (Z.testbit ty 11) (Z.testbit ty 19)]> (socks k)
    | inr _ => socks k' = socks k
    end;
  k_cloexec_law : forall k fd, socks (k_cloexec k fd) = alter set_cloexec fd (socks k);
  k_nonblock_law : forall k fd b,
    socks (k_nonblock k fd b).1 = effect (socks k) fd (set_nonblock b) (k_nonblock k fd b).2;
  k_setsockopt_law : forall k fd l n v,
    socks (k_setsockopt k fd l n v).1 = effect (socks k) fd (set_opt l n v) (k_setsockopt k fd l n v).2;
  k_setlinger_law : forall k fd l,
    socks (k_setlinger k fd l).1 = effect (socks k) fd (set_linger l) (k_setlinger k fd l).2;
  k_bind_law : forall k fd sa, socks (k_bind k fd sa).1 = effect (socks k) fd (set_bound sa) (k_bind k fd sa).2;
  k_listen_law : forall k fd n, socks (k_listen k fd n).1 = effect (socks k) fd (set_backlog n) (k_listen k fd n).2;
  k_connect_law : forall k fd sa, socks (k_connect k fd sa).1 = effect (socks k) fd (set_peer sa) (k_connect k fd sa).2;
  k_dup_law : forall k fd k' r, k_dup k fd = (k', r) ->
    match r with
    | inl nfd => exists s, socks k !! fd = Some s /\ socks k !! nfd = None /\ 0 <= nfd /\
        socks k' = <[nfd := mkSock (s_family s) (s_type s) (s_proto s) (s_nonblock s) false (s_opts s)
                              (s_linger s) (s_bound s) (s_backlog s) (s_peer s)]> (socks k)
    | inr _ => socks k' = socks k
    end;
  k_dup_cloexec_law : forall k fd k' r, k_dup_cloexec k fd = (k', r) ->
    match r with
    | inl nfd => exists s, socks k !! fd = Some s /\ socks k !! nfd = None /\ 0 <= nfd /\
        socks k' = <[nfd := set_cloexec s]> (socks k)
    | inr _ => socks k' = socks k
    end;
  k_close_law : forall k fd, socks (k_close k fd) = delete fd (socks k);
}.

Section sockets.
Context `{SockKernel} `{Interfaces}.

(** *** [sockopts_posix.go]

    [unix.SetsockoptInt] passes the low 32 bits of its argument. *)

Definition SetsockoptInt (k : kern) (fd level opt value : Z) : kern * option Z :=
  k_setsockopt k fd level opt (wrap32 value).

(** [os.NewSyscallError] around a call, and the bare error. *)
Definition wrapped (call : string) (x : kern * option Z) : kern * option sockerr :=
  (x.1, NewSyscallError (str call) x.2).
Definition bare (x : kern * option Z) : kern * option sockerr := (x.1, Errno <$> x.2).

(** The next call, unless the last one failed. *)
Definition and_then (x : kern * option sockerr) (f : kern -> kern * option sockerr) : kern * option sockerr :=
  match x with (k, Some err) => (k, Some err) | (k, None) => f k end.
#[local] Notation "'let!' k := x 'in' y" := (and_then x (fun k => y)) (at level 200, k name, y at level 200).

Definition SetNoDelay (k : kern) (fd noDelay : Z) : kern * option sockerr :=
  wrapped "setsockopt" (SetsockoptInt k fd IPPROTO_TCP TCP_NODELAY noDelay).
Definition SetRecvBuffer (k : kern) (fd size : Z) : kern * option sockerr :=
  bare (SetsockoptInt k fd SOL_SOCKET SO_RCVBUF size).
Definition SetSendBuffer (k : kern) (fd size : Z) : kern * option sockerr :=
  bare (SetsockoptInt k fd SOL_SOCKET SO_SNDBUF size).
Definition SetReuseport (k : kern) (fd reusePort : Z) : kern * option sockerr :=
  wrapped "setsockopt" (SetsockoptInt k fd SOL_SOCKET SO_REUSEPORT reusePort).
Definition SetReuseAddr (k : kern) (fd reuseAddr : Z) : kern * option sockerr :=
  wrapped "setsockopt" (SetsockoptInt k fd SOL_SOCKET SO_REUSEADDR reuseAddr).
Definition SetIPv6Only (k : kern) (fd ipv6only : Z) : kern * option sockerr :=
  bare (SetsockoptInt k fd IPPROTO_IPV6 IPV6_V6ONLY ipv6only).
Definition SetLinger (k : kern) (fd sec : Z) : kern * option sockerr :=
  let l := if 0 <=? sec then (1, wrap32 sec) else (0, 0) in
  bare (k_setlinger k fd l).

(** *** [sockopts_unix.go] *)

Definition SetKeepAlivePeriod (k : kern) (fd secs : Z) : kern * option sockerr :=
  if secs <=? 0 then (k, Some (Plain (str "invalid time duration")))
  else
    let! k := wrapped "setsockopt" (SetsockoptInt k fd SOL_SOCKET SO_KEEPALIVE 1) in
    let! k := wrapped "setsockopt" (SetsockoptInt k fd IPPROTO_TCP TCP_KEEPINTVL secs) in
    wrapped "setsockopt" (SetsockoptInt k fd IPPROTO_TCP TCP_KEEPIDLE secs).

(** *** [sockopts_darwin.go]

    The second error is compared with [unix.ENOPROTOOPT], which is a bare
    number, after it has been wrapped.  The numbers are those of Darwin. *)

Definition SetKeepAlivePeriod_darwin (k : kern) (fd secs : Z) : kern * option sockerr :=
  if secs <=? 0 then (k, Some (Plain (str "invalid time duration")))
  else
    let! k := wrapped "setsockopt" (SetsockoptInt k fd 65535 8 1) in
    let last k := wrapped "setsockopt" (SetsockoptInt k fd IPPROTO_TCP 16 secs) in
    match wrapped "setsockopt" (SetsockoptInt k fd IPPROTO_TCP 257 secs) with
    | (k, None) => last k
    | (k, Some (Errno n)) => if n =? ENOPROTOOPT_darwin then last k else (k, Some (Errno n))
    | (k, Some err) => (k, Some err)
    end.

(** *** [sock_cloexec.go] and [sys_cloexec.go]: one socket, two ways *)

Definition sysSocket (k : kern) (family sotype proto : Z) : kern * (Z + Z) :=
  k_socket k family (Z.lor (Z.lor sotype SOCK_NONBLOCK) SOCK_CLOEXEC) proto.

Definition sysSocket_fcntl (k : kern) (family sotype proto : Z) : kern * (Z + Z) :=
  match k_socket k family sotype proto with
  | (k, inr err) => (k, inr err)
  | (k, inl fd) =>
      let k := k_cloexec k fd in
      match k_nonblock k fd true with
      | (k, Some err) => (k_close k fd, inr err)
      | (k, None) => (k, inl fd)
      end
  end.

(** *** [sock_linux.go] and [sock_bsd.go]: the backlog

    [SOMAXCONN] is a constant of the package unix. *)

(** [bufio.Reader.ReadString]: up to and with the delimiter, or an error. *)
Definition ReadString (file : bytes) (delim : Z) : bytes * bool :=
  let i := IndexByte file delim in
  if i =? -1 then (file, false) else (subl file 0 (i + 1), true).

(** [strings.Fields] on ASCII text. *)
Definition is_space (c : Z) : bool := (c =? 32) || ((9 <=? c) && (c <=? 13)).
Fixpoint Fields_go (s cur : bytes) : list bytes :=
  let flush l := match cur with [] => l | _ => rev cur :: l end in
  match s with
  | [] => flush []
  | c :: s => if is_space c then flush (Fields_go s []) else Fields_go s (c :: cur)
  end.
Definition Fields (s : bytes) : list bytes := Fields_go s [].

(** [file]: the content of /proc/sys/net/core/somaxconn, [None] when it cannot be
    opened. *)
Definition maxListenerBacklog (SOMAXCONN : Z) (file : option bytes) : Z :=
  match file with
  | None => SOMAXCONN
  | Some file =>
      let '(line, found) := ReadString file 10 in
      if negb found then SOMAXCONN
      else
        match Fields line with
        | [] => SOMAXCONN
        | f :: _ =>
            let '(n, err) := Atoi f in
            if bool_decide (err <> None) || (n =? 0) then SOMAXCONN
            else if 2 ^ 16 - 1 <? n then 2 ^ 16 - 1
            else n
        end
  end.

(** [sysctl] is the value of the system's parameter and the error. *)
Definition maxListenerBacklog_bsd (SOMAXCONN : Z) (sysctl : Z * option Z) : Z :=
  let '(n, err) := sysctl in
  if (n =? 0) || bool_decide (err <> None) then SOMAXCONN
  else if 2 ^ 16 - 1 <? n then 2 ^ 16 - 1
  else n.

(** *** [socket.go] and [tcp_socket.go] *)

(** [socket.Option]. *)
Record Option := mkOption { SetSockOpt : kern -> Z -> Z -> kern * option sockerr; Opt : Z }.

Fixpoint set_options (k : kern) (fd : Z) (sockOpts : list Option) : kern * option sockerr :=
  match sockOpts with
  | [] => (k, None)
  | o :: sockOpts =>
      let! k := SetSockOpt o k fd (Opt o) in set_options k fd sockOpts
  end.

Section listen.
Context (ResolveTCPAddr : bytes -> bytes -> TCPAddr + sockerr) (listenerBacklogMaxSize : Z).
Context (sysSocket : kern -> Z -> Z -> Z -> kern * (Z + Z)).

(** The body of [tcpSocket] after the socket exists. *)
Definition configure (k : kern) (fd family : Z) (ipv6only : bool) (sa : Sockaddr) (passive : bool)
    (sockOpts : list Option) : kern * option sockerr :=
  let! k := (if (family =? AF_INET6) && ipv6only then SetIPv6Only k fd 1 else (k, None)) in
  let! k := set_options k fd sockOpts in
  if passive then
    let! k := wrapped "bind" (k_bind k fd sa) in
    wrapped "listen" (k_listen k fd listenerBacklogMaxSize)
  else wrapped "connect" (k_connect k fd sa).

(** The deferred function leaves the socket open for EINPROGRESS alone. *)
Definition in_progress (err : sockerr) : bool :=
  match err with SyscallError _ n => n =? EINPROGRESS | _ => false end.

(** The results are the descriptor, the address and the error. *)
Definition tcpSocket (k : kern) (proto addr : bytes) (passive : bool) (sockOpts : list Option) :
    kern * (Z * option TCPAddr * option sockerr) :=
  match GetTCPSockAddr ResolveTCPAddr proto addr with
  | inr err => (k, (0, None, Some err))
  | inl (sa, family, netAddr, ipv6only) =>
      match sysSocket k family SOCK_STREAM IPPROTO_TCP with
      | (k, inr n) => (k, (0, Some netAddr, Some (SyscallError (str "socket") n)))
      | (k, inl fd) =>
          match configure k fd family ipv6only sa passive sockOpts with
          | (k, None) => (k, (fd, Some netAddr, None))
          | (k, Some err) =>
              let k := if in_progress err then k else k_close k fd in
              (k, (fd, Some netAddr, Some err))
          end
      end
  end.
Definition TCPSocket := tcpSocket.
End listen.

(** *** [fd_unix.go]

    [tryDupCloexec] is a global of the package. *)

Definition dupCloseOnExecOld (k : kern) (fd : Z) : kern * (Z * bytes * option Z) :=
  match k_dup k fd with
  | (k, inr err) => (k, (-1, str "dup", Some err))
  | (k, inl newFD) => (k_cloexec k newFD, (newFD, [], None))
  end.

Definition dupCloseOnExec (k : kern) (tryDupCloexec : bool) (fd : Z) :
    kern * bool * (Z * bytes * option Z) :=
  let old k try := let '(k, r) := dupCloseOnExecOld k fd in (k, try, r) in
  if tryDupCloexec then
    match k_dup_cloexec k fd with
    | (k, inl r) => (k, true, (r, [], None))
    | (k, inr err) =>
        if (err =? EINVAL) || (err =? ENOSYS) then old k false
        else (k, true, (-1, str "fcntl", Some err))
    end
  else old k false.
Definition Dup := dupCloseOnExec.

(** *** [engine.Dial]: from a dialled connection to a descriptor of the loop

    [fd0] is the descriptor of the [net.Conn] that [net.DialTimeout] made, which
    a deferred call closes on every path.  The duplicated descriptor is returned,
    or, when one of its options cannot be set, is left open. *)

Definition dial_options (k : kern) (fd TCPKeepAlive SocketSendBuffer SocketRecvBuffer : Z) : kern * option sockerr :=
  let! k := SetNoDelay k fd 1 in
  let! k := wrapped "fcntl nonblock" (k_nonblock k fd true) in
  let! k := (if 0 <? TCPKeepAlive then SetKeepAlivePeriod k fd (Z.quot TCPKeepAlive (10 ^ 9)) else (k, None)) in
  let! k := (if 0 <? SocketSendBuffer then SetSendBuffer k fd SocketSendBuffer else (k, None)) in
  (if 0 <? SocketRecvBuffer then SetRecvBuffer k fd SocketRecvBuffer else (k, None)).

Definition dial_descriptor (k : kern) (fd0 TCPKeepAlive SocketSendBuffer SocketRecvBuffer : Z) :
    kern * (Z + sockerr) :=
  match k_dup k fd0 with
  | (k, inr n) => (k_close k fd0, inr (Errno n))
  | (k, inl DupFD) =>
      match dial_options k DupFD TCPKeepAlive SocketSendBuffer SocketRecvBuffer with
      | (k, Some err) => (k_close k fd0, inr err)
      | (k, None) => (k_close k fd0, inl DupFD)
      end
  end.

(** ** Lemmas: addresses *)

Lemma To16_len ip x : To16 ip = Some x -> len x = 16.
Proof.
  unfold To16. destruct (len ip =? 4) eqn:E4; [|destruct (len ip =? 16) eqn:E16]; intros [= <-]; [|lia].
  rewrite !len_cons. lia.
Qed.

Lemma To4_To16 ip x : To4 ip = Some x -> len x = 4 /\ To16 ip = Some (ipv4InIPv6Prefix ++ x).
Proof.
  unfold To4, To16. destruct (len ip =? 4) eqn:E4; [intros [= <-]; split; [lia|done]|].
  destruct (len ip =? 16) eqn:E16; [|done]. apply Z.eqb_eq in E16. case_bool_decide as Hp; [|done]. intros [= <-].
  split; [rewrite len_subl; lia|]. rewrite <- Hp. f_equal. rewrite subl_split by lia.
  rewrite <- E16. by rewrite subl_full.
Qed.

Lemma copy_whole (dst src : bytes) : len dst = len src -> copy_at dst 0 src = src.
Proof.
  intros Hl. pose proof (len_nonneg src). rewrite copy_at_fits by lia. rewrite !subl_nil by lia. by rewrite app_nil_r.
Qed.

Lemma sockaddrInet4ToIP_spec p choice addr :
  pool_ok p -> len addr = 4 -> (sockaddrInet4ToIP p choice addr).1 = ipv4InIPv6Prefix ++ addr.
Proof.
  intros Hp Ha. unfold sockaddrInet4ToIP. pose proof (Get_visible p choice 16 Hp ltac:(lia)) as Hl.
  destruct (Byteslice.Get p choice 16) as [g p']. cbn [fst] in *. set (b := visible g) in *. clearbody b.
  change (subl ipv4InIPv6Prefix 0 12) with ipv4InIPv6Prefix.
  assert (H12 : len ipv4InIPv6Prefix = 12) by done. assert (Hc : len (copy_at b 0 ipv4InIPv6Prefix) = 16) by
    (rewrite len_copy_at; lia).
  rewrite (copy_at_fits _ addr 12) by lia. rewrite Hc, (subl_nil _ (12 + len addr)) by lia.
  rewrite app_nil_r. f_equal. rewrite (copy_at_fits b) by lia. rewrite (subl_nil b) by lia. cbn [app].
  rewrite <- H12. apply (subl_head ipv4InIPv6Prefix).
Qed.

Lemma int2decimal_loop_spec n i b fuel :
  0 < i < 10 ^ Z.of_nat n -> i < 10 ^ Z.of_nat fuel -> (n <= length b)%nat ->
  exists m b', int2decimal_loop n i b = Ok (m, b') /\ drop m b' = digits fuel i ++ drop n b.
Proof.
  revert i b fuel. induction n as [|n IH]; intros i b fuel Hi Hf Hn; [simpl in Hi; lia|].
  cbn [int2decimal_loop]. rewrite (proj2 (Z.ltb_lt 0 i)) by lia.
  unfold set_index. rewrite (proj2 (Z.leb_le 0 (Z.of_nat n))), (proj2 (Z.ltb_lt (Z.of_nat n) (len b)))
    by (unfold len; lia). cbn [andb mbind res_bind]. rewrite Nat2Z.id. set (b1 := <[n := _]> b).
  assert (Hd : drop n b1 = (48 + i mod 10) :: drop (S n) b).
  { unfold b1. erewrite drop_S by (apply list_lookup_insert_eq; lia). by rewrite drop_insert_lt by lia. }
  destruct fuel as [|fuel]; [simpl in Hf; lia|]. cbn [digits].
  pose proof (Z.div_mod i 10 ltac:(lia)). pose proof (Z.mod_pos_bound i 10 ltac:(lia)).
  rewrite Nat2Z.inj_succ, Z.pow_succ_r in Hi, Hf by lia.
  destruct (i <? 10) eqn:E10.
  - rewrite (Z.mod_small i 10) in Hd by lia. exists n, b1. replace (i / 10) with 0 by lia. split; [|done].
    by destruct n.
  - destruct (IH (i / 10) b1 fuel) as (m & b' & Hr & Hm); [lia|lia|unfold b1; rewrite length_insert; lia|].
    exists m, b'. split; [done|]. rewrite Hm, Hd, <- app_assoc. done.
Qed.

(** The loop prints the number as [strconv.Itoa] does, and never runs off the
    32 bytes of its slice. *)
Lemma int2decimal_Itoa p choice i :
  pool_ok p -> 0 <= i < 2 ^ 64 -> exists p', int2decimal p choice i = Ok (Itoa i, p').
Proof.
  intros Hp Hi. unfold int2decimal, Itoa. destruct (i =? 0) eqn:E0; [apply Z.eqb_eq in E0 as ->; eauto|].
  rewrite (proj2 (Z.ltb_ge i 0)) by lia.
  pose proof (Get_visible p choice 32 Hp ltac:(lia)) as Hl. destruct (Byteslice.Get p choice 32) as [g p'].
  cbn [fst] in *. set (b := visible g) in *. clearbody b.
  destruct (int2decimal_loop_spec (length b) i b 20) as (m & b' & -> & Hm); [|simpl; lia|done|].
  { unfold len in Hl. replace (Z.of_nat (length b)) with 32 by lia. simpl. lia. }
  rewrite drop_all, app_nil_r in Hm. cbn [mbind res_bind]. rewrite Hm. eauto.
Qed.

Lemma ip6ZoneToString_named p choice zone i :
  InterfaceByName zone = Some i -> ip6ZoneToString p choice (uwrap32 i) = Ok (zone, p).
Proof.
  intros Hz. apply interface_names in Hz as [Hi Hr]. unfold ip6ZoneToString, uwrap32.
  rewrite Z.mod_small by lia. rewrite (proj2 (Z.eqb_neq i 0)) by lia. by rewrite Hi.
Qed.

(** ** Lemmas: the kernel's table *)

Lemma effect_at t fd s f r :
  effect (<[fd := s]> t) fd f r = <[fd := match r with None => f s | Some _ => s end]> t.
Proof.
  destruct r; simpl; [done|]. apply map_eq. intros j. destruct (decide (j = fd)) as [->|].
  - by rewrite lookup_alter_eq, !lookup_insert_eq.
  - by rewrite lookup_alter_ne, !lookup_insert_ne.
Qed.

(** A sequence of calls on one descriptor: it leaves all other sockets alone, and
    when it succeeds [P] holds of the socket. *)
Definition leaves (fd : Z) (t : gmap Z sock) (P : sock -> Prop) (x : kern * option sockerr) : Prop :=
  exists s, socks x.1 = <[fd := s]> t /\ (x.2 = None -> P s).

Lemma leaves_then fd t (P Q : sock -> Prop) x f :
  leaves fd t P x -> (forall k s, socks k = <[fd := s]> t -> P s -> leaves fd t Q (f k)) ->
  leaves fd t Q (and_then x f).
Proof.
  intros (s & Hs & HP) Hf. destruct x as [k [e|]]; cbn [and_then fst snd] in *; [by exists s|].
  exact (Hf k s Hs (HP eq_refl)).
Qed.
Lemma leaves_mono fd t (P Q : sock -> Prop) x : (forall s, P s -> Q s) -> leaves fd t P x -> leaves fd t Q x.
Proof. intros HPQ (s & Hs & HP). exists s. eauto. Qed.
Lemma leaves_if fd t (b : bool) x k s f :
  socks k = <[fd := s]> t -> leaves fd t (eq (f s)) x ->
  leaves fd t (eq (if b then f s else s)) (if b then x else (k, None)).
Proof. intros Hk Hx. destruct b; [done|]. by exists s. Qed.

Lemma wrapped_leaves fd t s f call (x : kern * option Z) :
  socks x.1 = effect (<[fd := s]> t) fd f x.2 -> leaves fd t (eq (f s)) (wrapped call x).
Proof. rewrite effect_at. intros Hx. eexists. split; [exact Hx|]. by destruct x as [k [e|]]. Qed.
Lemma bare_leaves fd t s f (x : kern * option Z) :
  socks x.1 = effect (<[fd := s]> t) fd f x.2 -> leaves fd t (eq (f s)) (bare x).
Proof. rewrite effect_at. intros Hx. eexists. split; [exact Hx|]. by destruct x as [k [e|]]. Qed.

(** A setter of one integer option. *)
Definition sets (f : kern -> Z -> Z -> kern * option sockerr) (name : Z * Z) : Prop :=
  forall k fd v t s, socks k = <[fd := s]> t -> leaves fd t (eq (set_opt name.1 name.2 (wrap32 v) s)) (f k fd v).

Lemma sets_wrapped call name :
  sets (fun k fd v => wrapped call (SetsockoptInt k fd name.1 name.2 v)) name.
Proof. intros k fd v t s Ht. apply wrapped_leaves. unfold SetsockoptInt. by rewrite k_setsockopt_law, Ht. Qed.
Lemma sets_bare name : sets (fun k fd v => bare (SetsockoptInt k fd name.1 name.2 v)) name.
Proof. intros k fd v t s Ht. apply bare_leaves. unfold SetsockoptInt. by rewrite k_setsockopt_law, Ht. Qed.
Lemma sets_NoDelay : sets SetNoDelay (IPPROTO_TCP, TCP_NODELAY).
Proof. exact (sets_wrapped "setsockopt" (IPPROTO_TCP, TCP_NODELAY)). Qed.
Lemma sets_ReuseAddr : sets SetReuseAddr (SOL_SOCKET, SO_REUSEADDR).
Proof. exact (sets_wrapped "setsockopt" (SOL_SOCKET, SO_REUSEADDR)). Qed.
Lemma sets_RecvBuffer : sets SetRecvBuffer (SOL_SOCKET, SO_RCVBUF).
Proof. exact (sets_bare (SOL_SOCKET, SO_RCVBUF)). Qed.
Lemma sets_SendBuffer : sets SetSendBuffer (SOL_SOCKET, SO_SNDBUF).
Proof. exact (sets_bare (SOL_SOCKET, SO_SNDBUF)). Qed.
Lemma sets_IPv6Only : sets SetIPv6Only (IPPROTO_IPV6, IPV6_V6ONLY).
Proof. exact (sets_bare (IPPROTO_IPV6, IPV6_V6ONLY)). Qed.

(** What a list of options does to a socket. *)
Definition with_options (s : sock) (opts : list (Option * (Z * Z))) : sock :=
  foldl (fun s '(o, name) => set_opt name.1 name.2 (wrap32 (Opt o)) s) s opts.

Lemma set_options_spec opts : forall k fd t s,
  Forall (fun '(o, name) => sets (SetSockOpt o) name) opts ->
  socks k = <[fd := s]> t -> leaves fd t (eq (with_options s opts)) (set_options k fd opts.*1).
Proof.
  induction opts as [|[o name] opts IH]; intros k fd t s Hf Ht; [by exists s|].
  apply Forall_cons in Hf as [Ho Hf]. eapply leaves_then; [exact (Ho k fd (Opt o) t s Ht)|].
  intros k1 s1 H1 <-. exact (IH _ _ _ _ Hf H1).
Qed.

(** A way to make sockets: a new non-blocking, close-on-exec one, or none. *)
Definition makes_socket (f : kern -> Z -> Z -> Z -> kern * (Z + Z)) : Prop :=
  forall k family k' r, f k family SOCK_STREAM IPPROTO_TCP = (k', r) ->
    match r with
    | inl fd => 0 <= fd /\ socks k !! fd = None /\
        socks k' = <[fd := new_sock family SOCK_STREAM IPPROTO_TCP true true]> (socks k)
    | inr _ => socks k' = socks k
    end.

(** The flags of [socket] and the two later calls make the same socket. *)
Lemma sysSocket_makes : makes_socket sysSocket.
Proof. intros k family k' r Hs. by apply k_socket_law in Hs. Qed.

Lemma sysSocket_fcntl_makes : makes_socket sysSocket_fcntl.
Proof.
  intros k family k' r Hs. unfold sysSocket_fcntl in Hs.
  destruct (k_socket k family SOCK_STREAM IPPROTO_TCP) as [k1 [fd|e]] eqn:E; apply k_socket_law in E.
  2: { by injection Hs as <- <-. }
  destruct E as (Hfd & Hnew & Ht). set (s := new_sock _ _ _ _ _) in Ht.
  pose proof (k_nonblock_law (k_cloexec k1 fd) fd true) as Hn. rewrite k_cloexec_law, Ht in Hn.
  change (alter set_cloexec fd ?t) with (effect t fd set_cloexec None) in Hn. rewrite !effect_at in Hn.
  destruct (k_nonblock (k_cloexec k1 fd) fd true) as [k2 [e|]]; injection Hs as <- <-; cbn [fst snd] in Hn.
  - rewrite k_close_law, Hn. by apply delete_insert_id.
  - done.
Qed.

(** The socket [configure] makes of a fresh one. *)
Definition configured (backlog family : Z) (only : bool) (sa : Sockaddr) (passive : bool)
    (opts : list (Option * (Z * Z))) : sock :=
  let s := new_sock family SOCK_STREAM IPPROTO_TCP true true in
  let s := if (family =? AF_INET6) && only then set_opt IPPROTO_IPV6 IPV6_V6ONLY 1 s else s in
  if passive then set_backlog backlog (set_bound sa (with_options s opts)) else set_peer sa (with_options s opts).

Section listening.
Context (ResolveTCPAddr : bytes -> bytes -> TCPAddr + sockerr) (backlog : Z).

Lemma configure_spec k fd family only sa passive opts t :
  Forall (fun '(o, name) => sets (SetSockOpt o) name) opts ->
  socks k = <[fd := new_sock family SOCK_STREAM IPPROTO_TCP true true]> t ->
  leaves fd t (eq (configured backlog family only sa passive opts))
    (configure backlog k fd family only sa passive opts.*1).
Proof.
  intros Hf Ht. unfold configure, configured.
  eapply leaves_then; [eapply leaves_if; [exact Ht|exact (sets_IPv6Only _ _ _ _ _ Ht)]|].
  intros k1 s1 H1 <-. eapply leaves_then; [exact (set_options_spec _ _ _ _ _ Hf H1)|].
  intros k2 s2 H2 <-. destruct passive.
  - eapply leaves_then; [apply wrapped_leaves; by rewrite k_bind_law, H2|].
    intros k3 s3 H3 <-. apply wrapped_leaves. by rewrite k_listen_law, H3.
  - apply wrapped_leaves. by rewrite k_connect_law, H2.
Qed.

(** [tcpSocket] either makes one socket, configured as the address and the
    options say (non-blocking, close-on-exec, IPv6-only exactly for an IPv6
    address, every option set in order, then bound and listening with the
    backlog, or connected), and changes no other; or it reports an error and
    leaves the table of sockets as it was, so that no descriptor leaks.  The one
    exception is a connection in progress, whose socket stays open for the
    caller.  Both ways to create a socket are covered. *)
Lemma tcpSocket_outcome sysSocket k proto addr passive opts k' fd na err :
  makes_socket sysSocket ->
  Forall (fun '(o, name) => sets (SetSockOpt o) name) opts ->
  tcpSocket ResolveTCPAddr backlog sysSocket k proto addr passive opts.*1 = (k', (fd, na, err)) ->
  match err with
  | None => exists sa family tcpAddr only,
      GetTCPSockAddr ResolveTCPAddr proto addr = inl (sa, family, tcpAddr, only) /\ na = Some tcpAddr /\
      socks k !! fd = None /\ socks k' = <[fd := configured backlog family only sa passive opts]> (socks k)
  | Some err => socks k' = socks k \/
      (in_progress err = true /\ socks k !! fd = None /\ exists s, socks k' = <[fd := s]> (socks k))
  end.
Proof.
  intros Hmk Hf Ht. unfold tcpSocket in Ht.
  destruct (GetTCPSockAddr ResolveTCPAddr proto addr) as [[[[sa family] tcpAddr] only]|e] eqn:Ea.
  2: { injection Ht as <- <- <- <-. by left. }
  destruct (sysSocket k family SOCK_STREAM IPPROTO_TCP) as [k1 [fd1|n]] eqn:E1; apply Hmk in E1.
  2: { injection Ht as <- <- <- <-. by left. }
  destruct E1 as (Hfd & Hnew & H1).
  destruct (configure_spec k1 fd1 family only sa passive opts _ Hf H1) as (s & H2 & Hs).
  destruct (configure backlog k1 fd1 family only sa passive opts.*1) as [k2 [e|]]; cbn [fst snd] in H2, Hs; injection Ht as <- <- <- <-.
  - destruct (in_progress e) eqn:Ep; [right; eauto|left]. rewrite k_close_law, H2. by apply delete_insert_id.
  - rewrite H2, <- (Hs eq_refl). exists sa, family, tcpAddr, only. done.
Qed.
End listening.

Lemma inet4_roundtrip p ch1 ch2 ip port zone sa :
  pool_ok p -> ipToSockaddr AF_INET ip port zone = inl sa ->
  exists ip' p', SockaddrToTCPOrUnixAddr p ch1 ch2 sa = Ok (Some (TCP (mkTCPAddr ip' port [])), p') /\
    (if len ip =? 0 then ip' = IPv4zero else To16 ip = Some ip').
Proof.
  intros Hp Hs. change (ipToSockaddr AF_INET ip port zone) with (ipToSockaddrInet4 ip port) in Hs.
  unfold ipToSockaddrInet4 in Hs. destruct (To4 (if len ip =? 0 then IPv4zero else ip)) as [x|] eqn:Ex; [|done].
  injection Hs as <-. apply To4_To16 in Ex as [Hx Ex]. cbn [SockaddrToTCPOrUnixAddr].
  rewrite copy_whole by (rewrite len_make_bytes; lia).
  pose proof (sockaddrInet4ToIP_spec p ch1 x Hp Hx) as Hip. destruct (sockaddrInet4ToIP p ch1 x) as [y p'].
  cbn [fst] in Hip. subst y. eexists _, _. split; [done|].
  destruct (len ip =? 0); [|done]. change (To16 IPv4zero) with (Some IPv4zero) in Ex. by apply (inj Some) in Ex.
Qed.

Lemma inet6_roundtrip p ch1 ch2 ip port zone sa :
  pool_ok p -> To4 ip = None -> ipToSockaddr AF_INET6 ip port zone = inl sa ->
  exists ip' p', SockaddrToTCPOrUnixAddr p ch1 ch2 sa =
      Ok (Some (TCP (mkTCPAddr ip' port (if InterfaceByName zone is Some _ then zone else []))), p') /\
    (if len ip =? 0 then ip' = IPv6zero else To16 ip = Some ip').
Proof.
  intros Hp H4 Hs. change (ipToSockaddr AF_INET6 ip port zone) with (ipToSockaddrInet6 ip port zone) in Hs.
  assert (Heq : Equal ip IPv4zero = false).
  { unfold Equal, To4 in *. change (len IPv4zero) with 16. destruct (len ip =? 4) eqn:E4; [done|].
    destruct (len ip =? 16) eqn:E16; cbn [andb] in *; [|done].
    apply bool_decide_eq_false_2. intros ->. done. }
  unfold ipToSockaddrInet6 in Hs. rewrite Heq, orb_false_r in Hs.
  destruct (To16 (if len ip =? 0 then IPv6zero else ip)) as [x|] eqn:Ex; [|done].
  pose proof (To16_len _ _ Ex) as Hx. rewrite copy_whole in Hs by (rewrite len_make_bytes; lia).
  pose proof (Get_visible p ch1 16 Hp ltac:(lia)) as Hg.
  assert (Hip : if len ip =? 0 then x = IPv6zero else To16 ip = Some x).
  { destruct (len ip =? 0); [|done]. change (To16 IPv6zero) with (Some IPv6zero) in Ex. by apply (inj Some) in Ex. }
  destruct (InterfaceByName zone) as [i|] eqn:Ei; injection Hs as <-;
    cbn [SockaddrToTCPOrUnixAddr]; unfold sockaddrInet6ToIPAndZone;
    destruct (Byteslice.Get p ch1 16) as [g p']; cbn [fst] in Hg; rewrite copy_whole by lia.
  - rewrite (ip6ZoneToString_named _ _ _ _ Ei). by eexists _, _.
  - by eexists _, _.
Qed.

(** C35: The address of a listener and the address the proxy reports for a
    socket bound to it agree: the socket address built from a resolved address
    converts back to the same port and the same 16-byte IP (the wildcard of the
    chosen family when the address names no host), with the zone of an IPv6
    address kept when it names an interface of the host and dropped otherwise.
    The conversion never panics, whatever bytes the pooled slices held. *)
Theorem sockaddr_roundtrip ResolveTCPAddr proto addr a p ch1 ch2 sa family a' only :
  pool_ok p -> ResolveTCPAddr proto addr = inl a ->
  GetTCPSockAddr ResolveTCPAddr proto addr = inl (sa, family, a', only) ->
  exists ip p',
    SockaddrToTCPOrUnixAddr p ch1 ch2 sa =
      Ok (Some (TCP (mkTCPAddr ip (a_Port a)
        (if family =? AF_INET then [] else if InterfaceByName (a_Zone a) is Some _ then a_Zone a else []))), p') /\
    (if len (a_IP a) =? 0 then ip = (if family =? AF_INET then IPv4zero else IPv6zero)
     else To16 (a_IP a) = Some ip).
Proof.
  intros Hp Hr Hg. unfold GetTCPSockAddr in Hg. rewrite Hr in Hg.
  destruct (determineTCPProto proto a) as [v|e] eqn:Ev; [|done]. unfold determineTCPProto in Ev.
  assert (H4 : v = str "tcp4" \/ To4 (a_IP a) = None).
  { destruct (To4 (a_IP a)); [left; by injection Ev|by right]. }
  destruct (bool_decide (v = str "tcp4")) eqn:E4; [apply bool_decide_eq_true in E4|apply bool_decide_eq_false in E4].
  { destruct (ipToSockaddr AF_INET _ _ _) as [sa'|] eqn:Es; [|done]. injection Hg as <- <- _ _.
    exact (inet4_roundtrip _ _ _ _ _ _ _ Hp Es). }
  destruct H4 as [H4|H4]; [done|].
  assert (H6 : exists b, match ipToSockaddr AF_INET6 (a_IP a) (a_Port a) (a_Zone a) with
    | inl sa => inl (sa, AF_INET6, a, b) | inr e => inr e end = inl (sa, family, a', only)).
  { destruct (bool_decide (v = str "tcp6")); [by exists true|].
    destruct (bool_decide (v = str "tcp")); [by exists false|done]. }
  destruct H6 as [b H6]. destruct (ipToSockaddr AF_INET6 _ _ _) as [sa'|] eqn:Es; [|done].
  injection H6 as <- <- _ _. exact (inet6_roundtrip _ _ _ _ _ _ _ Hp H4 Es).
Qed.

(** ** Descriptors that are duplicated *)

(** The two ways to duplicate give the same descriptor. *)
Lemma Dup_spec k try fd k' try' nfd what err :
  Dup k try fd = (k', try', (nfd, what, err)) ->
  match err with
  | None => exists s, socks k !! fd = Some s /\ socks k !! nfd = None /\ socks k' = <[nfd := set_cloexec s]> (socks k)
  | Some _ => socks k' = socks k /\ nfd = -1
  end.
Proof.
  assert (Hold : forall k0 r, socks k0 = socks k -> dupCloseOnExecOld k0 fd = (k', r) -> r = (nfd, what, err) ->
    match err with
    | None => exists s, socks k !! fd = Some s /\ socks k !! nfd = None /\ socks k' = <[nfd := set_cloexec s]> (socks k)
    | Some _ => socks k' = socks k /\ nfd = -1
    end).
  { intros k0 r Hk Ho ->. unfold dupCloseOnExecOld in Ho. destruct (k_dup k0 fd) as [k1 [n|e]] eqn:E;
      apply k_dup_law in E; injection Ho as <- <- <- <-; [|by rewrite E, Hk].
    destruct E as (s & Hs & Hn & _ & E). rewrite Hk in Hs, Hn. exists s. split_and!; [done..|].
    rewrite k_cloexec_law, E, Hk. change (alter set_cloexec n ?t) with (effect t n set_cloexec None).
    by rewrite effect_at. }
  unfold Dup, dupCloseOnExec. destruct try.
  - destruct (k_dup_cloexec k fd) as [k1 [n|e]] eqn:E; apply k_dup_cloexec_law in E.
    + intros [= <- <- <- <- <-]. destruct E as (s & ? & ? & ? & ?). eauto.
    + case_if; [|intros [= <- <- <- <- <-]; done].
      destruct (dupCloseOnExecOld k1 fd) as [k2 r] eqn:Eo. intros [= <- <- Hr]. exact (Hold _ _ E Eo Hr).
  - destruct (dupCloseOnExecOld k fd) as [k2 r] eqn:Eo. intros [= <- <- Hr]. exact (Hold _ _ eq_refl Eo Hr).
Qed.

Lemma keepalive_leaves k fd secs t s :
  socks k = <[fd := s]> t ->
  leaves fd t (fun s' => s_nonblock s' = s_nonblock s) (SetKeepAlivePeriod k fd secs).
Proof.
  intros Hk. unfold SetKeepAlivePeriod. case_if; [by exists s|].
  eapply leaves_then; [exact (sets_wrapped "setsockopt" (SOL_SOCKET, SO_KEEPALIVE) _ _ _ _ _ Hk)|]. intros k1 s1 H1 <-.
  eapply leaves_then; [exact (sets_wrapped "setsockopt" (IPPROTO_TCP, TCP_KEEPINTVL) _ _ _ _ _ H1)|]. intros k2 s2 H2 <-.
  eapply leaves_mono; [|exact (sets_wrapped "setsockopt" (IPPROTO_TCP, TCP_KEEPIDLE) _ _ _ _ _ H2)]. by intros ? <-.
Qed.

Lemma dial_options_leaves k fd ka sb rb t s :
  socks k = <[fd := s]> t -> leaves fd t (fun s' => s_nonblock s' = true) (dial_options k fd ka sb rb).
Proof.
  intros Hk. unfold dial_options.
  eapply leaves_then; [exact (sets_NoDelay _ _ _ _ _ Hk)|]. intros k1 s1 H1 _.
  eapply leaves_then; [apply wrapped_leaves; by rewrite k_nonblock_law, H1|]. intros k2 s2 H2 Hs2.
  apply (leaves_then _ _ (fun s => s_nonblock s = true)).
  { case_if; [|exists s2; split; [done|by subst s2]]. eapply leaves_mono; [|exact (keepalive_leaves _ _ _ _ _ H2)].
    by subst s2. }
  intros k3 s3 H3 Hs3. apply (leaves_then _ _ (fun s => s_nonblock s = true)).
  { case_if; [|by exists s3]. eapply leaves_mono; [|exact (sets_SendBuffer _ _ _ _ _ H3)]. by intros ? <-. }
  intros k4 s4 H4 Hs4. case_if; [|by exists s4].
  eapply leaves_mono; [|exact (sets_RecvBuffer _ _ _ _ _ H4)]. by intros ? <-.
Qed.

(** The dialled connection is closed on every path.  The duplicated descriptor
    is new and non-blocking; when one of its options cannot be set it is not
    returned, and is not closed either. *)
Lemma dial_descriptor_spec k fd0 ka sb rb :
  match dial_descriptor k fd0 ka sb rb with
  | (k', inl d) => exists s, socks k !! d = None /\ s_nonblock s = true /\ socks k' = <[d := s]> (delete fd0 (socks k))
  | (k', inr _) => socks k' = delete fd0 (socks k) \/
      exists d s, socks k !! d = None /\ socks k' = <[d := s]> (delete fd0 (socks k))
  end.
Proof.
  unfold dial_descriptor. destruct (k_dup k fd0) as [k1 [d|n]] eqn:E; apply k_dup_law in E.
  2: { left. by rewrite k_close_law, E. }
  destruct E as (s & Hs & Hd & _ & E). destruct (dial_options_leaves k1 d ka sb rb _ _ E) as (s' & Hk & Hn).
  assert (Hne : fd0 <> d) by congruence.
  destruct (dial_options k1 d ka sb rb) as [k2 [e|]]; cbn [fst snd] in Hk, Hn.
  - right. exists d, s'. split; [done|]. rewrite k_close_law, Hk. by apply delete_insert_ne.
  - exists s'. split_and!; [done|by apply Hn|]. rewrite k_close_law, Hk. by apply delete_insert_ne.
Qed.

(** On Darwin the option that old systems lack is not skipped: the error is
    wrapped before it is compared. *)
Lemma keepalive_darwin_ENOPROTOOPT k fd secs k1 k2 :
  0 < secs ->
  SetsockoptInt k fd 65535 8 1 = (k1, None) ->
  SetsockoptInt k1 fd IPPROTO_TCP 257 secs = (k2, Some ENOPROTOOPT_darwin) ->
  SetKeepAlivePeriod_darwin k fd secs = (k2, Some (SyscallError (str "setsockopt") ENOPROTOOPT_darwin)).
Proof.
  intros Hs H1 H2. unfold SetKeepAlivePeriod_darwin. rewrite (proj2 (Z.leb_gt secs 0)) by lia.
  rewrite H1. cbn [wrapped and_then fst snd NewSyscallError fmap option_fmap option_map]. by rewrite H2.
Qed.
End sockets.

(** ** A kernel to run *)

(** A table of sockets and the outcomes of the next calls on descriptors; when the
    list runs out, calls succeed.  A new descriptor is above all others. *)
Definition toy : Type := gmap Z sock * list (option Z).
Definition toy_call (k : toy) (fd : Z) (f : sock -> sock) : toy * option Z :=
  match k.2 with
  | [] => ((effect k.1 fd f None, []), None)
  | r :: rs => ((effect k.1 fd f r, rs), r)
  end.
Definition toy_new (t : gmap Z sock) : Z := foldr (fun p => Z.max (p.1 + 1)) 3 (map_to_list t).
Definition toy_dup (f : sock -> sock) (k : toy) (fd : Z) : toy * (Z + Z) :=
  match k.1 !! fd with
  | Some s => ((<[toy_new k.1 := f s]> k.1, k.2), inl (toy_new k.1))
  | None => (k, inr 9)
  end.

Lemma toy_call_law k fd f : (toy_call k fd f).1.1 = effect k.1 fd f (toy_call k fd f).2.
Proof. unfold toy_call. by destruct k.2. Qed.

Lemma toy_new_fresh t : 0 <= toy_new t /\ t !! toy_new t = None.
Proof.
  unfold toy_new. assert (Hl : forall l : list (Z * sock), 3 <= foldr (fun p => Z.max (p.1 + 1)) 3 l /\
    Forall (fun p => p.1 < foldr (fun p => Z.max (p.1 + 1)) 3 l) l).
  { induction l as [|p l [IH1 IH2]]; simpl; [done|]. split; [lia|]. constructor; [lia|].
    eapply Forall_impl; [exact IH2|]. simpl. intros. lia. }
  destruct (Hl (map_to_list t)) as [H1 H2]. split; [lia|]. destruct (t !! _) as [s|] eqn:E; [|done].
  apply elem_of_map_to_list in E. rewrite Forall_forall in H2. specialize (H2 _ E). simpl in H2. lia.
Qed.

Lemma toy_dup_law f k fd k' r : toy_dup f k fd = (k', r) ->
  match r with
  | inl nfd => exists s, k.1 !! fd = Some s /\ k.1 !! nfd = None /\ 0 <= nfd /\ k'.1 = <[nfd := f s]> k.1
  | inr _ => k'.1 = k.1
  end.
Proof.
  unfold toy_dup. destruct (k.1 !! fd) as [s|] eqn:E; intros [= <- <-]; [|done].
  destruct (toy_new_fresh k.1). exists s. done.
Qed.

Program Definition toy_kernel : SockKernel := {|
  kern := toy;
  socks := fst;
  k_socket k f ty p :=
    ((<[toy_new k.1 := new_sock f (Z.land ty 15) p (Z.testbit ty 11) (Z.testbit ty 19)]> k.1, k.2), inl (toy_new k.1));
  k_cloexec k fd := (alter set_cloexec fd k.1, k.2);
  k_nonblock k fd b := toy_call k fd (set_nonblock b);
  k_setsockopt k fd l n v := toy_call k fd (set_opt l n v);
  k_setlinger k fd l := toy_call k fd (set_linger l);
  k_bind k fd sa := toy_call k fd (set_bound sa);
  k_listen k fd n := toy_call k fd (set_backlog n);
  k_connect k fd sa := toy_call k fd (set_peer sa);
  k_dup := toy_dup (fun s => mkSock (s_family s) (s_type s) (s_proto s) (s_nonblock s) false (s_opts s)
                               (s_linger s) (s_bound s) (s_backlog s) (s_peer s));
  k_dup_cloexec := toy_dup set_cloexec;
  k_close k fd := (delete fd k.1, k.2);
  k_nonblock_law _ _ _ := toy_call_law _ _ _;
  k_setsockopt_law _ _ _ _ _ := toy_call_law _ _ _;
  k_setlinger_law _ _ _ := toy_call_law _ _ _;
  k_bind_law _ _ _ := toy_call_law _ _ _;
  k_listen_law _ _ _ := toy_call_law _ _ _;
  k_connect_law _ _ _ := toy_call_law _ _ _;
  k_dup_law _ _ _ _ := toy_dup_law _ _ _ _ _;
  k_dup_cloexec_law _ _ _ _ := toy_dup_law _ _ _ _ _;
|}.
Next Obligation. intros k f ty p k' r [= <- <-]. destruct (toy_new_fresh k.1). done. Qed.
Next Obligation. done. Qed.
Next Obligation. done. Qed.

(** A host with the loopback interface. *)
Program Definition toy_interfaces : Interfaces := {|
  InterfaceByName n := if bool_decide (n = str "lo") then Some 1 else None;
  InterfaceByIndex i := if i =? 1 then Some (str "lo") else None;
|}.
Next Obligation. simpl. intros n i. case_bool_decide as E; [|done]. intros [= <-]. by subst n. Qed.
Next Obligation. done. Qed.

(** Names: ":9000" is the wildcard, anything else the link-local address of [lo]. *)
Definition toy_resolve (_ addr : bytes) : TCPAddr + sockerr :=
  if bool_decide (addr = str ":9000") then inl (mkTCPAddr [] 9000 [])
  else inl (mkTCPAddr ([254; 128] ++ replicate 13 0 ++ [1]) 9000 (str "lo")).

#[local] Existing Instance toy_kernel.
#[local] Existing Instance toy_interfaces.

Definition toy_free : kern := (∅, []).
Definition toy_busy : kern := (∅, [None; None; Some 98]).
Definition link_local : bytes := [254; 128] ++ replicate 13 0 ++ [1].

Lemma sockaddr_roundtrip_witness :
  exists ip p',
    SockaddrToTCPOrUnixAddr ∅ None None (SockaddrInet6 9000 1 link_local) =
      Ok (Some (TCP (mkTCPAddr ip 9000 (str "lo"))), p') /\
    To16 link_local = Some ip.
Proof.
  destruct (sockaddr_roundtrip toy_resolve (str "tcp") (str "x") (mkTCPAddr link_local 9000 (str "lo"))
    ∅ None None (SockaddrInet6 9000 1 link_local) AF_INET6 (mkTCPAddr link_local 9000 (str "lo")) true
    pool_ok_empty ltac:(vm_compute; reflexivity) ltac:(vm_compute; reflexivity)) as (ip & p' & H1 & H2).
  change (if AF_INET6 =? AF_INET then _ else _) with (str "lo") in H1.
  change (To16 link_local = Some ip) in H2. exists ip, p'. split; [exact H1|exact H2].
Defined.

(** The backlog is the system's limit, at most 65535. *)
Example backlog_4096 : maxListenerBacklog 128 (Some (str "4096" ++ [10])) = 4096.
Proof. reflexivity. Qed.
Example backlog_large : maxListenerBacklog 128 (Some (str "  100000 x" ++ [10])) = 65535.
Proof. reflexivity. Qed.
Example backlog_cut : maxListenerBacklog 128 (Some (str "4096")) = 128.
Proof. reflexivity. Qed.
