(* ===== verification/Engine.v ===== *)
(** * Starting the engine

    [core/listener.go], the [OpenPoller] and [Close] of the four pollers
    ([core/internal/netpoll]), and [start] and [serve] of [core/engine.go]: the
    listening socket, the poller with its wake-up descriptor, the pools of the
    configured servers and the connections made in advance.  The theorems: a
    poller that cannot be opened leaves no descriptor behind, and an engine that
    starts has the pools of the configuration and a connection table in the state
    the event loop relies on. *)

From S2P Require Import Prelude Errors Byteslice Ring LinkedList Elastic Commands Codec Message CodecC CodecS Pool Cluster AuthIp World Conn EventLoop Pipelining Server Polling Table LoopTable Options Sockets.

(** ** The listener *)

Section listener.
Context `{SockKernel} `{Interfaces} (ResolveTCPAddr : bytes -> bytes -> TCPAddr + sockerr) (backlog : Z)
  (sysSocket : kern -> Z -> Z -> Z -> kern * (Z + Z)).

Record listener := mkListener {
  ln_once : bool;                   (* [once] has run *)
  ln_fd : Z;
  ln_addr : option TCPAddr;
  ln_address : bytes;
  ln_network : bytes;
  ln_sockOpts : list Sockets.Option;
}.

Definition normalize (k : kern) (ln : listener) : kern * listener * option sockerr :=
  if bool_decide (ln_network ln ∈ [str "tcp"; str "tcp4"; str "tcp6"]) then
    let '(k, (fd, addr, err)) :=
      TCPSocket ResolveTCPAddr backlog sysSocket k (ln_network ln) (ln_address ln) true (ln_sockOpts ln) in
    (k, mkListener (ln_once ln) fd addr (ln_address ln) (str "tcp") (ln_sockOpts ln), err)
  else (k, ln, Some (Engine ErrUnsupportedProtocol)).

Definition close (k : kern) (ln : listener) : kern * listener :=
  if ln_once ln then (k, ln)
  else
    ((if 0 <? ln_fd ln then k_close k (ln_fd ln) else k),
     mkListener true (ln_fd ln) (ln_addr ln) (ln_address ln) (ln_network ln) (ln_sockOpts ln)).

Definition listen_options (o : Core.Options) : list Sockets.Option :=
  [mkOption SetReuseAddr 1; mkOption SetNoDelay 1] ++
  (if 0 <? Core.SocketRecvBuffer o then [mkOption SetRecvBuffer (Core.SocketRecvBuffer o)] else []) ++
  (if 0 <? Core.SocketSendBuffer o then [mkOption SetSendBuffer (Core.SocketSendBuffer o)] else []).

Definition initListener (k : kern) (network addr : bytes) (o : Core.Options) : kern * listener * option sockerr :=
  normalize k (mkListener false 0 None addr network (listen_options o)).

(** The same options with what they set. *)
Definition named_options (o : Core.Options) : list (Sockets.Option * (Z * Z)) :=
  [(mkOption SetReuseAddr 1, (SOL_SOCKET, SO_REUSEADDR)); (mkOption SetNoDelay 1, (IPPROTO_TCP, TCP_NODELAY))] ++
  (if 0 <? Core.SocketRecvBuffer o then [(mkOption SetRecvBuffer (Core.SocketRecvBuffer o), (SOL_SOCKET, SO_RCVBUF))] else []) ++
  (if 0 <? Core.SocketSendBuffer o then [(mkOption SetSendBuffer (Core.SocketSendBuffer o), (SOL_SOCKET, SO_SNDBUF))] else []).

Lemma named_options_sets o :
  (named_options o).*1 = listen_options o /\ Forall (fun '(x, name) => sets (SetSockOpt x) name) (named_options o).
Proof.
  pose proof sets_ReuseAddr. pose proof sets_NoDelay. pose proof sets_RecvBuffer. pose proof sets_SendBuffer.
  unfold named_options, listen_options. by destruct (0 <? Core.SocketRecvBuffer o), (0 <? Core.SocketSendBuffer o);
    (split; [|repeat constructor]).
Qed.

(** C29: The life of the listening socket.  [initListener] accepts the networks tcp,
    tcp4 and tcp6; when it succeeds there is one new socket, non-blocking and
    close-on-exec, with its options set in order, bound to the resolved address and
    listening with the system's backlog; when it fails no socket is left open
    (unless the kernel reports a connection in progress).  [close] removes the
    socket, and closing again, as the loop and [Run] both do, changes nothing.
    Both ways of creating sockets are covered. *)
Theorem listener_lifecycle k network addr o k1 ln err
    (Hmk : makes_socket sysSocket) (Hinit : initListener k network addr o = (k1, ln, err)) :
  match err with
  | Some err => socks k1 = socks k \/ (in_progress err = true /\ exists s, socks k1 = <[ln_fd ln := s]> (socks k))
  | None =>
      network ∈ [str "tcp"; str "tcp4"; str "tcp6"] /\
      (exists sa family tcpAddr only,
        GetTCPSockAddr ResolveTCPAddr network addr = inl (sa, family, tcpAddr, only) /\ ln_addr ln = Some tcpAddr /\
        socks k !! ln_fd ln = None /\
        socks k1 = <[ln_fd ln := configured backlog family only sa true (named_options o)]> (socks k)) /\
      (0 < ln_fd ln -> socks (close k1 ln).1 = socks k) /\
      close (close k1 ln).1 (close k1 ln).2 = close k1 ln
  end.
Proof.
  unfold initListener, normalize in Hinit. cbn [ln_network ln_address ln_sockOpts ln_once] in Hinit.
  case_bool_decide as Hnet; [|injection Hinit as <- <- <-; by left].
  destruct (named_options_sets o) as [Hn Hsets]. rewrite <- Hn in Hinit.
  destruct (TCPSocket _ _ _ _ _ _ _ _) as [k2 [[fd na] err1]] eqn:Et. injection Hinit as <- <- <-.
  apply (tcpSocket_outcome _ _ _ _ _ _ _ _ _ _ _ _ Hmk Hsets) in Et. cbn [ln_fd ln_addr].
  destruct err1 as [e|]; [destruct Et as [->|(? & ? & ?)]; [by left|by right]|].
  destruct Et as (sa & family & tcpAddr & only & Hg & -> & Hnew & Hk). split_and!; [done|by exists sa, family, tcpAddr, only| |done].
  intros Hfd. unfold close. cbn [ln_once ln_fd]. rewrite (proj2 (Z.ltb_lt 0 fd)) by done. cbn [fst].
  rewrite k_close_law, Hk. by apply delete_insert_id.
Qed.
End listener.

(** On the kernel of [Sockets]: the port is free, or the bind fails. *)
Lemma with_snd {A B} (x : A * B) b : x.2 = b -> x = (x.1, b).
Proof. intros <-. by destruct x. Qed.

#[local] Existing Instance toy_kernel.
#[local] Existing Instance toy_interfaces.

Definition listen_sample (k : kern) :=
  initListener toy_resolve 128 sysSocket k (str "tcp") (str ":9000") (Run_options []).

Lemma listener_lifecycle_witness :
  (exists ln, (listen_sample toy_free).1.2 = ln /\ (0 < ln_fd ln -> socks (close (listen_sample toy_free).1.1 ln).1 = ∅)) /\
  socks (listen_sample toy_busy).1.1 = ∅.
Proof.
  split.
  - destruct (listener_lifecycle toy_resolve 128 sysSocket toy_free (str "tcp") (str ":9000") (Run_options [])
      (listen_sample toy_free).1.1 (listen_sample toy_free).1.2 None sysSocket_makes) as (_ & _ & Hc & _).
    + unfold listen_sample. rewrite <- surjective_pairing. apply with_snd. vm_compute. reflexivity.
    + exists (listen_sample toy_free).1.2. split; [done|exact Hc].
  - destruct (listener_lifecycle toy_resolve 128 sysSocket toy_busy (str "tcp") (str ":9000") (Run_options [])
      (listen_sample toy_busy).1.1 (listen_sample toy_busy).1.2 (Some (SyscallError (str "bind") 98)) sysSocket_makes)
      as [Hc|[Hc _]]; [|exact Hc|done].
    unfold listen_sample. rewrite <- surjective_pairing. apply with_snd. vm_compute. reflexivity.
Defined.

(** ** Opening a poller *)

(** The system calls of a poller: making it, making its eventfd, registering a
    descriptor for reading (or the user event of kqueue), closing. *)
Class PollSys (E : Type) := {
  pk_create : E -> E * (Z + Z);
  pk_eventfd : E -> E * (Z + Z);
  pk_ctl : E -> Z -> Z -> E * option Z;
  pk_close : E -> Z -> E * option Z;
}.

Section open.
Context {E : Type} `{PollSys E}.

(** [epoll_default_poller.go]: the poller is its two descriptors. *)
Definition Poller_Close (e : E) (fd efd : Z) : E * option error :=
  match pk_close e fd with
  | (e, Some n) => (e, Some (ESys n))
  | (e, None) => let '(e, r) := pk_close e efd in (e, ESys <$> r)
  end.

(** A failed [eventfd] returns the descriptor -1. *)
Definition OpenPoller (e : E) : E * (Z * Z + error) :=
  match pk_create e with
  | (e, inr n) => (e, inr (ESys n))
  | (e, inl fd) =>
      match pk_eventfd e with
      | (e, inr n) => ((Poller_Close e fd (-1)).1, inr (ESys n))
      | (e, inl efd) =>
          match pk_ctl e fd efd with
          | (e, Some n) => ((Poller_Close e fd efd).1, inr (ESys n))
          | (e, None) => (e, inl (fd, efd))
          end
      end
  end.

(** [epoll_optimized_poller.go]: the eventfd is in an attachment, which is nil
    until it has been made. *)
Definition Poller_Close_opt (e : E) (fd : Z) (epa : option Z) : res (E * option error) :=
  match pk_close e fd with
  | (e, Some n) => Ok (e, Some (ESys n))
  | (e, None) => efd ← (match epa with Some efd => Ok efd | None => Panic end);
                 let '(e, r) := pk_close e efd in Ok (e, ESys <$> r)
  end.
Definition OpenPoller_opt (e : E) : res (E * (Z * Z + error)) :=
  match pk_create e with
  | (e, inr n) => Ok (e, inr (ESys n))
  | (e, inl fd) =>
      match pk_eventfd e with
      | (e, inr n) => '(e, _) ← Poller_Close_opt e fd None; Ok (e, inr (ESys n))
      | (e, inl efd) =>
          match pk_ctl e fd efd with
          | (e, Some n) => '(e, _) ← Poller_Close_opt e fd (Some efd); Ok (e, inr (ESys n))
          | (e, None) => Ok (e, inl (fd, efd))
          end
      end
  end.

(** [kqueue_default_poller.go] and [kqueue_optimized_poller.go]: one descriptor,
    woken by the user event 0. *)
Definition Poller_Close_kqueue (e : E) (fd : Z) : E * option error :=
  let '(e, r) := pk_close e fd in (e, ESys <$> r).
Definition OpenPoller_kqueue (e : E) : E * (Z + error) :=
  match pk_create e with
  | (e, inr n) => (e, inr (ESys n))
  | (e, inl fd) =>
      match pk_ctl e fd 0 with
      | (e, Some n) => ((Poller_Close_kqueue e fd).1, inr (ESys n))
      | (e, None) => (e, inl fd)
      end
  end.
(** The optimised poller of kqueue is opened and closed the same way. *)
Definition Poller_Close_kqueue_opt (e : E) (fd : Z) : E * option error := Poller_Close_kqueue e fd.
Definition OpenPoller_kqueue_opt (e : E) : E * (Z + error) := OpenPoller_kqueue e.
End open.

(** What the calls do to the set of open descriptors. *)
Class PollFds (E : Type) `{PollSys E} := {
  pfds : E -> gset Z;
  create_law : forall e e' r, pk_create e = (e', r) ->
    match r with inl fd => 0 <= fd /\ (fd ∉ pfds e) /\ pfds e' = {[fd]} ∪ pfds e | inr _ => pfds e' = pfds e end;
  eventfd_law : forall e e' r, pk_eventfd e = (e', r) ->
    match r with inl fd => 0 <= fd /\ (fd ∉ pfds e) /\ pfds e' = {[fd]} ∪ pfds e | inr _ => pfds e' = pfds e end;
  ctl_law : forall e p fd, pfds (pk_ctl e p fd).1 = pfds e;
  close_law : forall e fd, pfds (pk_close e fd).1 = pfds e ∖ {[fd]};
  close_open : forall e fd, fd ∈ pfds e -> (pk_close e fd).2 = None;
  pfds_range : forall e, -1 ∉ pfds e;
}.

Section poll_fds.
Context {E : Type} `{PollFds E}.

Lemma Poller_Close_fds e fd efd :
  fd ∈ pfds e -> pfds (Poller_Close e fd efd).1 = pfds e ∖ {[fd; efd]}.
Proof.
  intros Hfd. unfold Poller_Close. pose proof (close_law e fd) as Hq1. pose proof (close_open e fd Hfd) as Hq2.
  destruct (pk_close e fd) as [e1 r1]. cbn [fst snd] in *. subst r1.
  pose proof (close_law e1 efd) as Hq3. destruct (pk_close e1 efd) as [e2 r2]. cbn [fst] in *. rewrite Hq3, Hq1. set_solver.
Qed.

(** What opening a poller leaves behind: its own descriptors, or none. *)
Definition opens {A} (own : A -> gset Z) (e e' : E) (r : A + error) : Prop :=
  match r with
  | inl p => own p ## pfds e /\ pfds e' = own p ∪ pfds e
  | inr _ => pfds e' = pfds e
  end.

Lemma OpenPoller_fds e e' r : OpenPoller e = (e', r) -> opens (fun p : Z * Z => {[p.1; p.2]}) e e' r.
Proof.
  unfold OpenPoller. destruct (pk_create e) as [e1 [fd|n]] eqn:E1; apply create_law in E1; [|by intros [= <- <-]].
  destruct E1 as (Hp & Hfd & Hq1). pose proof (pfds_range e).
  destruct (pk_eventfd e1) as [e2 [efd|n]] eqn:E2; apply eventfd_law in E2.
  2: { intros [= <- <-]. simpl. rewrite Poller_Close_fds by set_solver. rewrite E2, Hq1. set_solver. }
  destruct E2 as (Hp2 & Hefd & Hq2). pose proof (ctl_law e2 fd efd) as Hq3.
  destruct (pk_ctl e2 fd efd) as [e3 [n|]]; intros [= <- <-]; cbn [fst] in Hq3; simpl.
  - rewrite Poller_Close_fds by set_solver. rewrite Hq3, Hq2, Hq1. set_solver.
  - rewrite Hq3, Hq2, Hq1. set_solver.
Qed.

Lemma OpenPoller_kqueue_fds e e' r : OpenPoller_kqueue e = (e', r) -> opens (fun p : Z => {[p]}) e e' r.
Proof.
  unfold OpenPoller_kqueue. destruct (pk_create e) as [e1 [fd|n]] eqn:E1; apply create_law in E1; [|by intros [= <- <-]].
  destruct E1 as (Hp & Hfd & Hq1). pose proof (ctl_law e1 fd 0) as Hq3.
  destruct (pk_ctl e1 fd 0) as [e3 [n|]]; intros [= <- <-]; cbn [fst] in Hq3; simpl.
  - unfold Poller_Close_kqueue. pose proof (close_law e3 fd) as Hq4. destruct (pk_close e3 fd) as [e4 r4].
    cbn [fst] in *. rewrite Hq4, Hq3, Hq1. set_solver.
  - rewrite Hq3, Hq1. set_solver.
Qed.

(** The optimised poller opens like the default one, except that it panics when
    the eventfd cannot be made: [Close] dereferences the attachment. *)
Lemma OpenPoller_opt_fds e :
  match OpenPoller_opt e with
  | Ok x => x = OpenPoller e
  | Panic => exists e1 fd e2 n, pk_create e = (e1, inl fd) /\ pk_eventfd e1 = (e2, inr n)
  | OutOfFuel => False
  end.
Proof.
  unfold OpenPoller_opt, OpenPoller. destruct (pk_create e) as [e1 [fd|n]] eqn:E1; [|done].
  destruct (pk_eventfd e1) as [e2 [efd|n]] eqn:E2.
  - destruct (pk_ctl e2 fd efd) as [e3 [n|]]; [|done]. unfold Poller_Close_opt, Poller_Close.
    destruct (pk_close e3 fd) as [e4 [m|]]; [done|]. cbn [mbind res_bind]. by destruct (pk_close e4 efd).
  - unfold Poller_Close_opt, Poller_Close. destruct (pk_close e2 fd) as [e3 [m|]]; [done|]. cbn [mbind res_bind].
    exists e1, fd, e2, n. done.
Qed.
End poll_fds.

(** ** Starting *)

Section serve.
Context `{BytePool} `{!Env, !Descriptors} {T : Type} `{!LLRB T} `{!HashMap ClusterNode} `{!HashMap unit} `{!MapRange}.
Context (epoll_create1 eventfd : env -> env * (Z + Z)).
Context (o : Core.Options) (srv : Srv.Options) (IpMap : ipMap) (order : gmap bytes Pool -> list bytes).
Implicit Types w : World T.

(** The loop's options. *)
Let opts : World.Options := loop_options o srv.

#[local] Instance env_PollSys : PollSys env := {|
  pk_create := epoll_create1;
  pk_eventfd := eventfd;
  pk_ctl e _ fd := epoll_ctl e AddRead fd;
  pk_close := sys_close;
|}.

(** The loop of [serve] over the servers: a pool and an entry of [ProxyAddrs] each. *)
Definition add_server (x : gmap bytes Pool * list bytes) (addr : bytes) : gmap bytes Pool * list bytes :=
  (<[addr := newPool addr (Core.RedisPasswd o) (Core.RedisServerConnections o) false]> x.1, x.2 ++ [addr]).
Definition server_pools (servers : list bytes) : gmap bytes Pool * list bytes := foldl add_server (∅, []) servers.

(** [EngineGlobal] before the loop: no connections, no tasks, no topology, and an array
    of nil slots. *)
Definition boot_world (e : env) (tree : T) (nodes : ClusterNodes) (servers : list bytes) : World T :=
  let '(pools, addrs) := server_pools servers in
  mkWorld e ∅ 1%positive (mkStore ∅ ∅ 0 0 [] 1%positive) tree [] [] false ∅ 0 0 0 pools addrs [] nodes (slots_Reset []).

(** The preconnect loop of [start], over the pools in the order the map is visited. *)
Fixpoint preconnect w (addrs : list bytes) : res (option error * World T) :=
  match addrs with
  | [] => Ok (None, w)
  | addr :: addrs =>
      match w_ProxyPool w !! addr with
      | None => preconnect w addrs
      | Some pool =>
          '(c, _, w) ← pool_Get opts IpMap w addr pool;
          match c with
          | None => Ok (Some (EText (str "redis preconnect failed, addr: " ++ addr)), w)
          | Some _ => preconnect w addrs
          end
      end
  end.

(** [start]: the error, the poller of [eng.el] (nil until the listener has been
    registered) and the state.  The goroutine of the loop runs [Polling.run]. *)
Definition start w (ln : Z) : res (option error * option (Z * Z) * World T) :=
  let '(e, p) := OpenPoller (w_env w) in
  let w := with_env w e in
  match p with
  | inr err => Ok (Some err, None, w)
  | inl (fd, efd) =>
      match epoll_ctl (w_env w) AddRead ln with
      | (e, Some n) => Ok (Some (ESys n), None, with_env w e)
      | (e, None) =>
          let w := with_env w e in
          '(err, w) ← (if Core.RedisPreconnect o then preconnect w (order (w_ProxyPool w)) else Ok (None, w));
          Ok (err, Some (fd, efd), w)
      end
  end.

(** [closeEventLoops]: [eng.el] is dereferenced. *)
Definition closeEventLoops w (el : option (Z * Z)) : res (World T) :=
  match el with
  | None => Panic
  | Some (fd, efd) => Ok (with_env w (Poller_Close (w_env w) fd efd).1)
  end.

(** [serve] until the loop runs: the poller, or the error.  [OnBoot] of the proxy
    returns [None]; [strings.Split] always returns a server. *)
Definition serve (e : env) (tree : T) (nodes : ClusterNodes) (ln : Z) : res ((Z * Z + error) * World T) :=
  let serverList := Split (Core.RedisServers o) 44 in
  '(err, el, w) ← start (boot_world e tree nodes serverList) ln;
  match err with
  | Some err => w ← closeEventLoops w el; Ok (inr err, w)
  | None => match el with Some p => Ok (inl p, w) | None => Panic end
  end.

(** *** The pools *)

Lemma server_pools_spec servers :
  (server_pools servers).2 = servers /\
  forall addr, (server_pools servers).1 !! addr =
    if decide (addr ∈ servers) then Some (newPool addr (Core.RedisPasswd o) (Core.RedisServerConnections o) false) else None.
Proof.
  unfold server_pools. enough (Hg : forall x, (foldl add_server x servers).2 = x.2 ++ servers /\
    forall addr, (foldl add_server x servers).1 !! addr =
      if decide (addr ∈ servers) then Some (newPool addr (Core.RedisPasswd o) (Core.RedisServerConnections o) false)
      else x.1 !! addr).
  { destruct (Hg (∅, [])) as [Ha Hp]. split; [done|]. intros addr. rewrite Hp. cbn [fst]. by rewrite lookup_empty. }
  induction servers as [|s servers IH]; intros x; cbn [foldl].
  { rewrite app_nil_r. split; [done|]. intros addr. by rewrite decide_False by set_solver. }
  destruct (IH (add_server x s)) as [Ha Hp]. split; [rewrite Ha; cbn; by rewrite <- app_assoc|].
  intros addr. rewrite Hp. destruct (decide (addr ∈ servers)) as [Hin|Hout].
  - by rewrite decide_True by set_solver.
  - cbn. destruct (decide (addr = s)) as [->|Hne].
    + by rewrite lookup_insert_eq, decide_True by set_solver.
    + by rewrite lookup_insert_ne, decide_False by set_solver.
Qed.

Lemma boot_inv e tree nodes servers : invariant (boot_world e tree nodes servers).
Proof.
  unfold boot_world. destruct (server_pools servers) as [pools addrs].
  split; cbn; try done; intros fd [c Hl]; by rewrite lookup_empty in Hl.
Qed.

#[local] Hint Resolve pool_Get_inv : table.
Lemma preconnect_inv w addrs : holds inv_step w (preconnect w addrs).
Proof.
  revert w. induction addrs as [|a addrs IH]; intros w; cbn [preconnect]; [table|].
  destruct (w_ProxyPool w !! a) as [p|]; [|apply IH]. table.
Qed.

(** Opening a connection to a server leaves the pools and their addresses alone. *)
Definition pools_of w : gmap bytes Pool * list bytes := (w_ProxyPool w, w_ProxyAddrs w).

#[local] Ltac ran :=
  repeat first
    [ progress simplify_eq/=
    | match goal with
      | Hr : _ ≫= _ = Ok _ |- _ => bind_inv Hr
      | Hr : match ?x with _ => _ end = Ok _ |- _ => destruct x eqn:?
      end ].

Lemma out_Write_pools w c b w' : out_Write w c b = Ok w' -> pools_of w' = pools_of w.
Proof. unfold out_Write. intros Hr. ran. done. Qed.
Lemma conn_open_pools w c b err w' : conn_open w c b = Ok (err, w') -> pools_of w' = pools_of w.
Proof.
  unfold conn_open. intros Hr. ran;
    try match goal with Hw : out_Write _ _ _ = Ok _ |- _ => apply out_Write_pools in Hw end; done.
Qed.
Lemma do_epoll_pools w op x err w' : do_epoll w op x = Ok (err, w') -> pools_of w' = pools_of w.
Proof. unfold do_epoll. intros Hr. ran. done. Qed.

Lemma server_el_open_pools w c err w' x :
  w_conns w !! c = Some x -> c_connType x = ConnServer ->
  @el_open _ _ T _ _ (server_ConnHandler opts IpMap) w c = Ok (err, w') -> pools_of w' = pools_of w.
Proof.
  intros Hc Ht Hr. unfold el_open in Hr. rewrite (get_conn_Ok _ _ _ Hc), res_bind_Ok, Ht in Hr.
  apply res_bind_inv in Hr as ([[out act] w1] & Ho & Hr).
  assert (pools_of w1 = pools_of w /\ act = ActNone) as [<- ->].
  { cbn [OnSOpened server_ConnHandler] in Ho. unfold server_OnSOpened in Ho. ran; done. }
  clear Ho. apply res_bind_inv in Hr as ([err1 w2] & Ho & Hr).
  assert (pools_of w2 = pools_of w1) as <- by (destruct out; [by eapply conn_open_pools|by simplify_eq]).
  destruct err1 as [e|]; [by simplify_eq|]. bind_inv Hr. apply res_bind_inv in Hr as ([err2 w3] & Ho2 & Hr).
  assert (pools_of w3 = pools_of w2) as <- by (case_if_in Ho2; [by eapply do_epoll_pools|by simplify_eq]).
  by destruct err2; simplify_eq/=.
Qed.

Lemma server_Dial_pools w addr isSlave r w' :
  server_Dial opts IpMap w addr isSlave = Ok (r, w') -> pools_of w' = pools_of w.
Proof.
  intros Hd. unfold server_Dial, Dial in Hd. destruct (net_Dial (w_env w) addr) as [e [[[fd local] remote]|err]];
    [|by simplify_eq]. apply res_bind_inv in Hd as ([[err c] w1] & Hg & Hd).
  assert (pools_of w1 = pools_of w) as <-; [|by destruct err; simplify_eq].
  unfold register in Hg. destruct (alloc_conn _ _) as [c1 w2] eqn:Ea. apply res_bind_inv in Hg as ([err1 w3] & Hg1 & Hg).
  assert (pools_of w3 = pools_of w) as Hp by (apply do_epoll_pools in Hg1; injection Ea as <- <-; done).
  destruct err1 as [e1|].
  - destruct (sys_close _ _) as [e2 r2]. bind_inv Hg. injection Hg as <- <- <-. exact Hp.
  - apply res_bind_inv in Hg as ([err2 w4] & Hg2 & Hg). injection Hg as <- <- <-.
    rewrite <- Hp. eapply server_el_open_pools in Hg2; [exact Hg2| |].
    + unfold do_epoll in Hg1. injection Ea as <- <-. ran; by apply lookup_insert_eq.
    + done.
Qed.

(** A connection of a pool that has none yet. *)
Definition idle_pool (p : Pool) : Prop := conns p [] /\ p_closed p = false /\ 1 <= p_maxActive p.

Lemma pool_Get_first w addr p c p' w' :
  idle_pool p -> pool_Get opts IpMap w addr p = Ok (Some c, p', w') ->
  conns p' [c] /\ pools_of w' = (<[addr := p']> (w_ProxyPool w), w_ProxyAddrs w).
Proof.
  intros (Hc & Hcl & Hm) Hg. unfold pool_Get, Pool.Get in Hg. rewrite Hcl, (conns_count _ _ Hc) in Hg.
  rewrite (proj2 (Z.ltb_lt (len []) (p_maxActive p))) in Hg by (rewrite len_nil; lia).
  apply res_bind_inv in Hg as ([[c1 p1] w1] & Hd & Hg). injection Hg as -> -> <-. unfold dial_front in Hd.
  apply res_bind_inv in Hd as ([[c2|e] w2] & Hd & Hf); [|done].
  destruct (add_conn_spec p [] c2 Hc) as (p2 & Hadd & Hc2 & _). rewrite Hadd in Hf. injection Hf as -> -> ->.
  split; [done|]. apply server_Dial_pools in Hd. unfold pools_of in *. cbn. by injection Hd as -> ->.
Qed.

Lemma preconnect_pools addrs : forall w w',
  NoDup addrs -> (forall a p, a ∈ addrs -> w_ProxyPool w !! a = Some p -> idle_pool p) ->
  preconnect w addrs = Ok (None, w') ->
  w_ProxyAddrs w' = w_ProxyAddrs w /\ dom (w_ProxyPool w') = dom (w_ProxyPool w) /\
  (forall a, a ∉ addrs -> w_ProxyPool w' !! a = w_ProxyPool w !! a) /\
  (forall a p, a ∈ addrs -> w_ProxyPool w' !! a = Some p -> exists c, conns p [c]).
Proof.
  induction addrs as [|a addrs IH]; intros w w' Hnd Hidle Hr; cbn [preconnect] in Hr.
  { injection Hr as <-. split_and!; try done. intros a p Hin. by apply elem_of_nil in Hin. }
  apply NoDup_cons in Hnd as [Ha Hnd].
  assert (Hin : forall b, b ∈ addrs -> b ∈ a :: addrs /\ a <> b) by (intros b Hb; split; [by right|by intros <-]).
  assert (Hidle' : forall b p, b ∈ addrs -> w_ProxyPool w !! b = Some p -> idle_pool p)
    by (intros b p Hb; by apply Hidle, Hin).
  destruct (w_ProxyPool w !! a) as [p|] eqn:Ep.
  - apply res_bind_inv in Hr as ([[c p'] w1] & Hg & Hr). destruct c as [c|]; [|done].
    apply pool_Get_first in Hg as [Hc Hp]; [|eapply Hidle; [by left|exact Ep]].
    unfold pools_of in Hp. injection Hp as Hp Hadd.
    destruct (IH w1 w') as (IH1 & IH2 & IH3 & IH4); [done| |done|].
    { intros b q Hb Hl. rewrite Hp, lookup_insert_ne in Hl by by apply Hin. by eapply Hidle'. }
    split_and!.
    + by rewrite IH1.
    + rewrite IH2, Hp, dom_insert_L. apply elem_of_dom_2 in Ep. clear -Ep. set_solver.
    + intros b [Hb1 Hb2]%not_elem_of_cons. rewrite IH3, Hp, lookup_insert_ne by done. done.
    + intros b q [->|Hb]%elem_of_cons Hl; [|by eapply IH4].
      rewrite IH3, Hp, lookup_insert_eq in Hl by done. injection Hl as <-. by exists c.
  - destruct (IH w w') as (IH1 & IH2 & IH3 & IH4); [done..|]. split_and!; [done..| |].
    + intros b [Hb1 Hb2]%not_elem_of_cons. by apply IH3.
    + intros b q [->|Hb]%elem_of_cons Hl; [|by eapply IH4]. rewrite IH3, Ep in Hl by done. done.
Qed.

Lemma boot_pools e tree nodes servers :
  pools_of (boot_world e tree nodes servers) = server_pools servers /\ w_connections (boot_world e tree nodes servers) = ∅.
Proof. unfold boot_world. by destruct (server_pools servers). Qed.

(** The state the loop starts in, before connections are made in advance. *)
Lemma start_state w ln err el w' :
  start w ln = Ok (err, el, w') ->
  exists e, match el with
    | None => w' = with_env w e /\ err <> None
    | Some _ => if Core.RedisPreconnect o then preconnect (with_env w e) (order (w_ProxyPool w)) = Ok (err, w')
                else w' = with_env w e /\ err = None
    end.
Proof.
  unfold start. intros Hs. destruct (OpenPoller (w_env w)) as [e1 [[fd efd]|err1]]; [|injection Hs as <- <- <-; by exists e1].
  cbn [w_env with_env] in Hs. destruct (epoll_ctl e1 AddRead ln) as [e2 [n|]]; [injection Hs as <- <- <-; by exists e2|].
  exists e2. apply res_bind_inv in Hs as ([err2 w2] & Hp & Hs). injection Hs as <- <- <-.
  destruct (Core.RedisPreconnect o); [exact Hp|]. by injection Hp as <- <-.
Qed.

Lemma with_env_inv w e : w_connections w = ∅ -> invariant w -> invariant (with_env w e).
Proof. intros Hc []. split; try done. cbn. intros fd [c Hl]. rewrite Hc in Hl. by rewrite lookup_empty in Hl. Qed.

Lemma serve_inv e tree nodes ln p w' : serve e tree nodes ln = Ok (inl p, w') -> invariant w'.
Proof.
  unfold serve. intros Hr. apply res_bind_inv in Hr as ([[err el] w1] & Hs & Hr). set (servers := Split _ _) in *.
  destruct err as [err|]; [bind_inv Hr; done|]. destruct el as [q|]; [|done]. injection Hr as -> ->.
  apply start_state in Hs as (e1 & Hs). destruct (boot_pools e tree nodes servers) as [_ Hconns].
  pose proof (with_env_inv _ e1 Hconns (boot_inv e tree nodes servers)) as Hw0.
  destruct (Core.RedisPreconnect o); [exact (preconnect_inv _ _ _ Hs Hw0)|by destruct Hs as [-> _]].
Qed.

(** The configured servers. *)
Definition servers : list bytes := Split (Core.RedisServers o) 44.

(** C28: An engine that starts has the state the event loop is proved from: the
    table of connections matches the open connections and the counters; there is
    a pool for each server of the configuration and no other, in the configured
    order of addresses; and with preconnect every pool holds one connection,
    whatever the order in which the map of pools is visited, while without it no
    connection is open.  When a server cannot be reached the engine does not
    start. *)
Theorem engine_boots e tree nodes ln r w'
    (Horder : forall m, order m ≡ₚ (map_to_list m).*1)
    (Hmax : 1 <= Core.RedisServerConnections o)
    (Hserve : serve e tree nodes ln = Ok (r, w')) :
  match r with
  | inr _ => True
  | inl _ =>
      table_ok w' /\ invariant w' /\ w_ProxyAddrs w' = servers /\
      (forall addr, is_Some (w_ProxyPool w' !! addr) <-> addr ∈ servers) /\
      (if Core.RedisPreconnect o then forall addr p, w_ProxyPool w' !! addr = Some p -> exists c, conns p [c]
       else w_connections w' = ∅)
  end.
Proof.
  destruct r as [p|]; [|done]. pose proof (serve_inv _ _ _ _ _ _ Hserve) as Hw1.
  unfold serve in Hserve. fold servers in Hserve. apply res_bind_inv in Hserve as ([[err el] w1] & Hs & Hr).
  destruct err as [err|]; [bind_inv Hr; done|]. destruct el as [q|]; [|done]. injection Hr as -> ->.
  apply start_state in Hs as (e1 & Hs). set (w0 := boot_world e tree nodes servers) in *.
  destruct (boot_pools e tree nodes servers) as [Hpools Hconns]. fold w0 in Hpools, Hconns.
  destruct (server_pools_spec servers) as [Haddrs Hlook]. rewrite <- Hpools in Haddrs, Hlook.
  cbn [pools_of fst snd] in Haddrs, Hlook.
  assert (Hdom : forall addr, is_Some (w_ProxyPool w0 !! addr) <-> addr ∈ servers).
  { intros addr. rewrite Hlook. case_decide; split; intros Hx; first [by eauto|by destruct Hx]. }
  destruct (Core.RedisPreconnect o).
  - assert (Hnd : NoDup (order (w_ProxyPool w0))) by (rewrite Horder; apply NoDup_fst_map_to_list).
    assert (Hidle : forall a q, a ∈ order (w_ProxyPool w0) -> w_ProxyPool w0 !! a = Some q -> idle_pool q).
    { intros a q _ Hq. rewrite Hlook in Hq. case_decide; [injection Hq as <-|done].
      split_and!; [apply conns_newPool|done|exact Hmax]. }
    destruct (preconnect_pools _ (with_env w0 e1) _ Hnd Hidle Hs) as (Ha & Hd & _ & Hall).
    cbn [w_ProxyAddrs w_ProxyPool with_env] in Ha, Hd, Hall.
    split_and!; [by apply inv_table_ok|done|by rewrite Ha| |].
    + intros addr. rewrite <- Hdom, <- !elem_of_dom, Hd. done.
    + intros addr q Hq. apply (Hall addr q); [|done]. rewrite Horder. apply list_elem_of_fmap.
      assert (addr ∈ dom (w_ProxyPool w0)) as Hin by (rewrite <- Hd; by eapply elem_of_dom_2).
      apply elem_of_dom in Hin as [q0 Hq0]. exists (addr, q0). split; [done|]. by apply elem_of_map_to_list.
  - destruct Hs as [-> _]. split_and!; [by apply inv_table_ok|done..].
Qed.

(** C11: The life of an engine, from [serve] to the end of its loop: whatever the
    events of the rounds, whenever the loop ends with an error (a failed wait or
    the shutdown), [run] closes every connection that was dialled in advance,
    accepted or dialled on demand, and the counters are back at 0. *)
Theorem engine_lifetime fuel lnAddr e tree nodes ln fd efd w xs err w1 cs w'
    (Hserve : serve e tree nodes ln = Ok (inl (fd, efd), w))
    (Hcs : forall w, cs w ≡ₚ (map_to_list (w_connections w)).*2)
    (Hend : Polling opts IpMap order lnAddr efd fuel w xs = Ok (inl err, w1))
    (Hrun : run opts IpMap order lnAddr efd fuel w xs cs = Ok w') :
  w_connections w' = ∅ /\ w_cConnCount w' = 0 /\ w_sConnCount w' = 0 /\
  forall c x, w_conns w' !! c = Some x -> c_opened x = false.
Proof.
  apply serve_inv in Hserve.
  exact (run_loop_closes _ _ _ _ _ _ w xs err w1 cs w' (epoll_dispatch_inv _ _ _ lnAddr efd) Hserve Hcs Hend Hrun).
Qed.

(** When the poller cannot be opened, or the listener cannot be registered,
    [eng.el] is still nil and the error path dereferences it. *)
Lemma serve_panics e tree nodes ln e1 err :
  OpenPoller e = (e1, inr err) -> serve e tree nodes ln = Panic.
Proof.
  intros Ho. unfold serve, start. assert (w_env (boot_world e tree nodes (Split (Core.RedisServers o) 44)) = e) as ->.
  { unfold boot_world. by destruct (server_pools _). }
  by rewrite Ho.
Qed.
End serve.

(** ** Two servers, reached and not *)

(** The kernel of [LoopTable], with fresh descriptors for the poller. *)
Definition kernel_new (e : kernel) : kernel * (Z + Z) := (kernel_open e, inl (fresh (n_fds e))).

Definition two_servers (preconnect : bool) : Core.Options :=
  Run_options [Core.WithRedisServers (str "10.0.0.1:6379,10.0.0.2:6379"); Core.WithRedisPreconnect preconnect].

Definition boot_sample (preconnect : bool) :=
  @serve empty_pool kernel_env (list (Z * fid)) _ (gmap_HashMap ClusterNode) (gmap_HashMap unit)
    kernel_new kernel_new (two_servers preconnect) (Srv.loadOptions []) no_ips (fun m => (map_to_list m).*1)
    (mkKernel ∅ (list_to_set [0; 1; 2; 3]) ∅ 0) [] no_nodes 3.

Definition started {A B C} (x : res ((A + B) * C)) : bool := match x with Ok (inl _, _) => true | _ => false end.
Lemma started_inv {A B C} (x : res ((A + B) * C)) : started x = true -> exists p c, x = Ok (inl p, c).
Proof. destruct x as [[[p|e] c]| |]; try discriminate. by exists p, c. Qed.

Lemma engine_boots_witness :
  exists p w', boot_sample true = Ok (inl p, w') /\ @table_ok kernel_env _ _ w' /\
    w_ProxyAddrs w' = [str "10.0.0.1:6379"; str "10.0.0.2:6379"] /\
    forall addr q, w_ProxyPool w' !! addr = Some q -> exists c, conns q [c].
Proof.
  destruct (started_inv (boot_sample true)) as (p & w' & E); [vm_compute; reflexivity|].
  destruct (@engine_boots empty_pool kernel_env kernel_fds _ _ _ (gmap_HashMap unit) kernel_new kernel_new
    (two_servers true) (Srv.loadOptions []) no_ips (fun m => (map_to_list m).*1)
    (mkKernel ∅ (list_to_set [0; 1; 2; 3]) ∅ 0) [] no_nodes 3 (inl p) w'
    (fun m => Permutation_refl _) ltac:(vm_compute; discriminate) E) as (Ht & _ & Ha & _ & Hc).
  exists p, w'. split_and!; [exact E|exact Ht|exact Ha|exact Hc].
Defined.

(** The two connections made in advance. *)
Example boot_sample_conns :
  (fun x : _ * @World kernel_env _ _ => (map_to_list (w_connections x.2)).*2) <$> boot_sample true = Ok [2%positive; 1%positive].
Proof. vm_compute. reflexivity. Qed.

(** The loop of this engine: a client connects, then the wait fails. *)
Definition booted : @World kernel_env (list (Z * fid)) (gmap_HashMap ClusterNode) :=
  match boot_sample true with Ok (_, w) => w | _ => idle_world end.
Definition booted_opts : World.Options := loop_options (two_servers true) (Srv.loadOptions []).
Definition booted_waits : list (wait epollevent) := [Events [mkEpollEvent 3 EPOLLIN]; Failed 9].
Definition booted_polling :=
  @Polling empty_pool kernel_env _ _ _ (gmap_HashMap unit) sorted_range booted_opts no_ips (fun m => (map_to_list m).*1)
    (str "0.0.0.0:9736") 5 100 booted booted_waits.
Definition booted_run :=
  @run empty_pool kernel_env _ _ _ (gmap_HashMap unit) sorted_range booted_opts no_ips (fun m => (map_to_list m).*1)
    (str "0.0.0.0:9736") 5 100 booted booted_waits all_conns.

Lemma boot_sample_started : boot_sample true = Ok (inl (4, 5), booted).
Proof.
  assert (Hp : (fun x => x.1) <$> boot_sample true = Ok (inl (4, 5))) by (vm_compute; reflexivity).
  unfold booted. destruct (boot_sample true) as [[p w]| |]; [|done..]. by injection Hp as ->.
Qed.

Lemma engine_lifetime_witness :
  match booted_run with
  | Ok w' => w_connections w' = ∅ /\ w_cConnCount w' = 0 /\ w_sConnCount w' = 0 /\
      forall c x, w_conns w' !! c = Some x -> c_opened x = false
  | _ => False
  end.
Proof.
  destruct (returns_inv booted_run) as [w' Er]; [vm_compute; reflexivity|]. rewrite Er.
  destruct (ends_inv booted_polling) as (err & w1 & E); [vm_compute; reflexivity|].
  exact (@engine_lifetime empty_pool kernel_env kernel_fds _ _ _ (gmap_HashMap unit) sorted_range kernel_new kernel_new
    (two_servers true) (Srv.loadOptions []) no_ips (fun m => (map_to_list m).*1) 100 (str "0.0.0.0:9736")
    (mkKernel ∅ (list_to_set [0; 1; 2; 3]) ∅ 0) [] no_nodes 3 4 5 booted booted_waits err w1 all_conns w'
    boot_sample_started (fun w => Permutation_refl _) E Er).
Defined.

(** Before the end the loop had three connections. *)
Example booted_conns :
  (fun x : _ * @World kernel_env _ _ => (w_cConnCount x.2, w_sConnCount x.2)) <$> booted_polling = Ok (1, 2).
Proof. vm_compute. reflexivity. Qed.
