(* ===== verification/Reachable.v ===== *)
(** * The states an engine reaches

    From [serve] on ([core/engine.go]), after any number of rounds of the polling loop
    and whatever the events: the table of connections is consistent, the queues of messages
    and fragments satisfy the invariant of [Queues], and therefore the loops that walk them ([msgTimeout], the write signal,
    the release of answered requests, the callback of a closed server connection) end
    without a panic.  The theorems of [Pipelining] assume the queues of one connection to
    be lists; here that is a consequence. *)

From S2P Require Import Prelude Errors Byteslice Ring LinkedList Elastic Commands Codec Message Forest CodecC CodecS Pool Cluster AuthIp World Conn EventLoop Pipelining Timeouts Server Polling Table LoopTable Options Sockets Engine Queues LoopQueues.

(** ** The queues of one connection *)
Section one.
Context `{BytePool} `{!Env} {T : Type} `{!LLRB T} `{!HashMap ClusterNode} `{!HashMap unit} `{!MapRange}
  (opts : Options) (IpMap : ipMap).
Implicit Types (w : World T) (F : cid * side -> list fid) (M : cid -> list mid).

(** A connection that was not released: it has its three queues. *)
Record unreleased (x : conn) : Prop := {
  ur_msgs : is_Some (c_inMsgQueue x);
  ur_in : is_Some (c_inFragQueue x);
  ur_out : is_Some (c_outFragQueue x);
}.

Lemma queues_outgoing w F M c x :
  queues w F M -> w_conns w !! c = Some x -> unreleased x -> outgoing_queue w x (F (c, Outgoing)) (F (c, Waiting)).
Proof.
  intros Hw Hx [_ [qi Hqi] [qo Hqo]]. pose proof (qu_frags _ _ _ Hw) as Hf. split.
  - exists qo. split; [done|]. apply (fo_repr _ _ _ Hf (c, Outgoing)). by rewrite (frag_queue_at _ _ _ _ Hx).
  - exists qi. split; [done|]. apply (fo_repr _ _ _ Hf (c, Waiting)). by rewrite (frag_queue_at _ _ _ _ Hx).
  - intros f Ho Hi. by pose proof (fo_disjoint _ _ _ Hf _ _ _ Ho Hi).
Qed.
Lemma queues_pending w F M c x : queues w F M -> w_conns w !! c = Some x -> unreleased x -> pending w x (M c).
Proof.
  intros Hw Hx [[q Hq] _ _]. exists q. split; [done|]. apply (fo_repr _ _ _ (qu_msgs _ _ _ Hw)). by rewrite (msg_queue_at _ _ _ Hx).
Qed.

(** What the callback of a closed connection follows in a fragment exists. *)
Lemma queues_frag_ok w F M f : queues w F M -> frag_ok w f.
Proof.
  intros Hw y o Hy Ho. split; [by eapply qu_owner|]. pose proof (qu_store _ _ _ Hw) as Hs.
  destruct (so_owned _ Hs f y Hy) as [m Hm]; [by exists o|]. exists m. split; [done|]. by eapply so_peer.
Qed.

Lemma DequeueInFrag_queue w c r w' :
  DequeueInFrag w c = Ok (r, w') -> exists x q, w_conns w' !! c = Some x /\ c_inFragQueue x = Some q.
Proof.
  intros Hd. unfold DequeueInFrag in Hd. bind_inv Hd. apply get_conn_inv in Ha. bind_inv Hd. unfold the_queue in Ha0.
  destruct (c_inFragQueue a) as [q|] eqn:Eq; [|done]. destruct (q_head a0); [|simplify_eq; by eexists _, _].
  bind_inv Hd. destruct a1 as [q1 h]. bind_inv Hd. simplify_eq. cbn. rewrite lookup_insert_eq. by eexists _, q1.
Qed.

Lemma drop_frags_total fuel w F M c x q :
  queues w F M -> w_conns w !! c = Some x -> c_inFragQueue x = Some q -> (length (F (c, Waiting)) < fuel)%nat ->
  exists w', drop_frags fuel w c = Ok w'.
Proof.
  revert w F x q. induction fuel as [|fuel IH]; intros w F x q Hw Hx Hq Hf; [lia|]. cbn [drop_frags].
  destruct (DequeueInFrag_ok w F M c x q Hw Hx Hq) as (w1 & Hd & Hw1 & _). rewrite Hd, res_bind_Ok.
  destruct (F (c, Waiting)) as [|f ls] eqn:Hls; cbn [hd_error drop] in *; [by eexists|]. rewrite (skipn_O ls) in *.
  destruct (DequeueInFrag_queue _ _ _ _ Hd) as (x1 & q1 & Hx1 & Hq1).
  assert (exists w', drop_frags fuel w1 c = Ok w') as [w' Hw'].
  { apply (IH w1 _ x1 q1 Hw1 Hx1 Hq1). rewrite upd_eq. cbn in Hf. lia. }
  assert (is_Some (frags (w_store w1) !! f)) as [y Hy].
  { apply DequeueInFrag_step with (F := F) (M := M) in Hd as (_ & _ & Hg); [|done].
    destruct (forest_elem _ _ _ (c, Waiting) f (qu_frags _ _ _ Hw)) as [z Hz]; [rewrite Hls; left|].
    destruct (gr_peer _ _ _ _ _ _ _ _ Hg f z Hz) as (y & Hy & _). by exists y. }
  rewrite (get_frag_Ok _ _ _ Hy), res_bind_Ok. destruct (f_Owner y) as [o|] eqn:Ho; [|by exists w'].
  destruct (queues_frag_ok _ _ _ f Hw1 y o Hy Ho) as ([xo Hxo] & m & Hm & msg & Hmsg).
  rewrite (get_conn_Ok _ _ _ Hxo), res_bind_Ok. case_if; [by exists w'|]. rewrite Hm. cbn [deref].
  rewrite res_bind_Ok, (get_msg_Ok _ _ _ Hmsg), res_bind_Ok. by exists w'.
Qed.

Lemma server_OnSClosed_queue w c err w' :
  server_OnSClosed w c err = Ok w' -> exists x q, w_conns w' !! c = Some x /\ c_inFragQueue x = Some q.
Proof.
  intros Hc. unfold server_OnSClosed in Hc. bind_inv Hc. bind_inv Hc. revert Hc. generalize (S (Z.to_nat (q_count a0))). clear.
  intros fuel. revert w. induction fuel as [|fuel IH]; intros w Hd; cbn [drop_frags] in Hd; [done|]. bind_inv Hd. destruct a as [fr w1].
  destruct fr as [f|]; [|simplify_eq; by eapply DequeueInFrag_queue]. bind_inv Hd. destruct (f_Owner a); [|by eapply IH].
  bind_inv Hd. case_if_in Hd; [by eapply IH|]. bind_inv Hd. bind_inv Hd. by eapply IH.
Qed.

(** The callback of a server connection that closes: no fragment waits on it any more. *)
Lemma OnSClosed_total w F M c x err :
  queues w F M -> w_conns w !! c = Some x -> unreleased x ->
  exists w' F' M', server_OnSClosed w c err = Ok w' /\ queues w' F' M' /\ F' (c, Waiting) = [].
Proof.
  intros Hw Hx [_ [q Hq] _]. pose proof (fo_repr _ _ _ (qu_frags _ _ _ Hw) (c, Waiting) q) as Hr.
  rewrite (frag_queue_at _ _ _ _ Hx) in Hr. specialize (Hr Hq). unfold server_OnSClosed.
  rewrite (get_conn_Ok _ _ _ Hx), res_bind_Ok, Hq. cbn [the_queue]. rewrite res_bind_Ok, (qr_count _ _ _ Hr).
  destruct (drop_frags_total (S (Z.to_nat (len (F (c, Waiting))))) w F M c x q Hw Hx Hq) as [w' Hw']; [unfold len; lia|].
  destruct (drop_frags_empties _ _ _ _ _ _ Hw Hw') as (F' & M' & Hq' & _ & Hn). by exists w', F', M'.
Qed.

(** *** Timeouts *)
Lemma fail_frags_total s fs : (forall g, g ∈ fs -> is_Some (frags s !! g)) -> exists s', fail_frags s fs = Ok s'.
Proof. intros Hfs. destruct (fail_frags_spec s fs Hfs) as (s' & Hs & _). by exists s'. Qed.

Lemma delete_smaller (t : T) k f l : items t = (k, f) :: l -> (length (items (tree_Delete t k)) < length (items t))%nat.
Proof.
  intros Hi. rewrite tree_Delete_items, Hi, filter_cons_False by (cbn; naive_solver). cbn. pose proof (length_filter (fun kf => kf.1 <> k) l). lia.
Qed.

Lemma msgTimeout_total fuel w F M :
  queues w F M -> (length (items (w_timeouts w)) < fuel)%nat -> exists w', msgTimeout fuel w = Ok w'.
Proof.
  revert w. induction fuel as [|fuel IH]; intros w Hw Hf; [lia|]. cbn [msgTimeout].
  unfold getFromTimeoutQueue. rewrite tree_Min_items.
  destruct (items (w_timeouts w)) as [|[k f] l] eqn:Hi; cbn [hd_error fmap option_fmap option_map snd]; [by eexists|].
  destruct (qu_timeout _ _ _ Hw k f) as (c & y & _ & Hy & Hk & [o Ho]); [rewrite Hi; left|].
  rewrite (get_frag_Ok _ _ _ Hy), res_bind_Ok.
  pose proof (delete_smaller _ _ _ _ Hi) as Hsm. rewrite Hi in Hsm.
  assert (deleteFromTimeoutQueue (w_store w) (w_timeouts w) f = Ok (tree_Delete (w_timeouts w) k)) as Ht.
  { unfold deleteFromTimeoutQueue. by rewrite (get_frag_Ok _ _ _ Hy), res_bind_Ok, Hk. }
  set (t := tree_Delete _ _) in *. rewrite Ht, res_bind_Ok.
  assert (forall w2, same w w2 -> w_timeouts w2 = t -> exists w', msgTimeout fuel w2 = Ok w') as Hgo.
  { intros w2 Hs Et. apply IH; [by eapply same_queues|]. rewrite Et. lia. }
  case_if; [apply Hgo; [by eapply delete_same|done]|]. destruct (now w) as [time w1] eqn:En. case_if; [by eexists|].
  assert (w_store w1 = w_store w /\ w_conns w1 = w_conns w) as [Est Ecs].
  { unfold now in En. destruct (time_Now _). by simplify_eq. }
  destruct (queues_frag_ok _ _ _ f Hw y o Hy Ho) as ([xo Hxo] & m & Hm & msg & Hmsg).
  rewrite Hm. cbn [deref]. rewrite res_bind_Ok. cbn [w_store with_timeouts].
  assert (get_msg (w_store w1) m = Ok msg) as Hgm by (rewrite Est; by apply get_msg_Ok). rewrite Hgm, res_bind_Ok.
  destruct (fail_frags_total (w_store w1) (range (m_Body msg)).*2) as [s Hs].
  { intros g Hg. rewrite range_perm in Hg. apply list_elem_of_fmap in Hg as ([i g'] & -> & Hg%elem_of_map_to_list). rewrite Est.
    destruct (so_body _ (qu_store _ _ _ Hw) m msg i g' Hmsg Hg) as (z & Hz & _). by exists z. }
  rewrite Hs, res_bind_Ok. pose proof (expire_same _ _ _ _ _ _ _ _ Ht En Hgm Hs) as Hs2. set (w2 := with_store _ _) in *.
  rewrite Ho. assert (get_conn w2 o = Ok xo) as -> by (apply get_conn_Ok; cbn; by rewrite Ecs). rewrite res_bind_Ok.
  case_if; [by apply Hgo|]. apply Hgo; [etrans; [exact Hs2|by apply Trigger_same]|].
  unfold AsyncWrite, Trigger, wake_up. cbn. case_match; [done|]. by destruct (wake _).
Qed.

(** *** All together *)

(** What the loop may do next in a state [w]: fail what is due; and for every connection
    that was not released, whose queues are lists of different fragments and messages,
    send what is queued on it, release its answered requests, or drop what waits on it. *)
Record never_stuck w : Prop := {
  ns_timeouts : exists w', msgTimeout (S (length (items (w_timeouts w)))) w = Ok w';
  ns_conn : forall c x, w_conns w !! c = Some x -> unreleased x ->
    exists out waiting msgs, outgoing_queue w x out waiting /\ pending w x msgs /\
      (exists w', take_out opts (S (length out)) w c [] = Ok (map (req_of w) out, w')) /\
      (exists w', release_msgs (S (length msgs)) w c = Ok w' /\ pool (w_store w') = rev msgs ++ pool (w_store w)) /\
      (forall err, exists w' x', server_OnSClosed w c err = Ok w' /\ w_conns w' !! c = Some x' /\
         exists q, c_inFragQueue x' = Some q /\ q_count q = 0);
}.

Lemma queues_never_stuck w F M : queues w F M -> never_stuck w.
Proof.
  intros Hw. split; [apply (msgTimeout_total _ _ F M Hw); lia|]. intros c x Hx Hu.
  pose proof (queues_outgoing _ _ _ _ _ Hw Hx Hu) as Ho. pose proof (queues_pending _ _ _ _ _ Hw Hx Hu) as Hp.
  exists (F (c, Outgoing)), (F (c, Waiting)), (M c). split_and!; [done|done|..].
  - destruct (take_out_spec opts (S (length (F (c, Outgoing)))) w c x _ _ [] Hx Ho) as (w' & x' & Ht & _); [lia|]. by exists w'.
  - destruct (release_msgs_spec (S (length (M c))) w c x _ Hx Hp) as (w' & q & Hr & _ & _ & _ & Hpl & _); [lia|]. by exists w'.
  - intros err. destruct (OnSClosed_total w F M c x err Hw Hx Hu) as (w' & F' & M' & Hc & Hw' & Hn).
    destruct (server_OnSClosed_queue w c err w' Hc) as (x' & q & Hx' & Hq). exists w', x'. split_and!; [done..|]. exists q.
    split; [done|]. pose proof (fo_repr _ _ _ (qu_frags _ _ _ Hw') (c, Waiting) q) as Hr.
    rewrite (frag_queue_at _ _ _ _ Hx') in Hr. rewrite (qr_count _ _ _ (Hr Hq)), Hn. done.
Qed.
End one.

(** ** From [serve] on *)
Section engine.
Context `{BytePool} `{!Env} {T : Type} `{!LLRB T} `{!HashMap ClusterNode} `{!HashMap unit} `{!MapRange}.
Context (epoll_create1 eventfd : env -> env * (Z + Z)).
Context (o : Core.Options) (srv : Srv.Options) (IpMap : ipMap) (order : gmap bytes Pool -> list bytes).
Implicit Types (w : World T) (F : cid * side -> list fid) (M : cid -> list mid).
Let opts : World.Options := loop_options o srv.

Lemma empty_forest {A I} `{Linked A} (h : gmap positive A) (qs : I -> option Queue) :
  (forall i, qs i = None) -> forest h qs (fun _ => []).
Proof. intros Hn. split; [intros i q Hq; by rewrite Hn in Hq|done|]. intros i j k Hk. by apply elem_of_nil in Hk. Qed.

Lemma empty_store : store_ok (mkStore ∅ ∅ 0 0 [] 1%positive).
Proof.
  split; cbn; try done; [constructor|by intros m Hm%elem_of_nil|..]; intros *; by rewrite lookup_empty.
Qed.

(** Before the loop there is nothing in any queue, and the pools are empty. *)
Lemma boot_queues e (tree : T) nodes servers :
  items tree = [] -> queues (boot_world o e tree nodes servers) (fun _ => []) (fun _ => []).
Proof.
  intros Ht. unfold boot_world. pose proof (server_pools_spec o servers) as [_ Hp]. destruct (server_pools o servers) as [pools addrs].
  cbn in Hp. split; cbn; try done; try (intros *; by rewrite lookup_empty).
  - apply empty_store.
  - apply empty_forest. intros i. unfold frag_queue. cbn. by rewrite lookup_empty.
  - apply empty_forest. intros i. unfold msg_queue. cbn. by rewrite lookup_empty.
  - by intros m c Hm%elem_of_nil.
  - intros k f Hin. rewrite Ht in Hin. by apply elem_of_nil in Hin.
  - by intros c Hc%elem_of_nil.
  - intros c (a & p & n & x & Ha & Hn & _). cbn in Ha. rewrite Hp in Ha. by case_decide; simplify_eq.
Qed.

Lemma preconnect_keeps w addrs : holds keeps w (preconnect o srv IpMap w addrs).
Proof.
  revert w. induction addrs as [|a addrs IH]; intros w; cbn [preconnect]; [by apply holds_Ok|].
  destruct (w_ProxyPool w !! a) as [p|] eqn:Ep; [|apply IH]. apply holds_pure; intros [[c p2] w2] Hg.
  assert (keeps w w2) as Hk.
  { intros F M Hw. destruct (pool_Get_served _ _ _ _ _ _ _ _ _ _ Hw (pool_nodes _ _ _ _ _ Hw Ep) Hg) as (F2 & M2 & Hw2 & Hg2 & _).
    by exists F2, M2. }
  destruct c; [|by apply holds_Ok]. eapply holds_trans; [apply _|exact Hk|apply IH].
Qed.

Lemma serve_queues e (tree : T) nodes ln p w :
  items tree = [] -> serve epoll_create1 eventfd o srv IpMap order e tree nodes ln = Ok (inl p, w) -> exists F M, queues w F M.
Proof.
  intros Ht Hr. unfold serve in Hr. apply res_bind_inv in Hr as ([[err el] w1] & Hs & Hr). set (servers := Split _ _) in *.
  destruct err as [err|]; [bind_inv Hr; done|]. destruct el as [q|]; [|done]. injection Hr as -> ->.
  apply start_state in Hs as (e1 & Hs). set (w0 := boot_world _ _ _ _ _) in *.
  assert (queues (with_env w0 e1) (fun _ => []) (fun _ => [])) as Hw0.
  { eapply same_queues; [|by apply boot_queues]. subst w0. solve_same. }
  destruct (Core.RedisPreconnect o); [|destruct Hs as [-> _]; by eexists _, _].
  destruct (preconnect_keeps _ _ _ Hs _ _ Hw0) as (F & M & Hw & _). by exists F, M.
Qed.

(** ** The goroutines of the engine

    The polling loop, the loop over the topology ([loopClusterNodes]) and the monitors of
    the pools.  The last two share with the first only the topology, its channel and the
    bans of the pools; a round, a message and a probe are the steps that interleave. *)
Context (redisInfo : bytes -> Info + error) (fuel : nat) (lnAddr : bytes) (efd : Z).

Record engine_state := mkEngineState {
  en_world : World T;
  en_size : Z;                 (* of the event list *)
  en_chores : bool;
  en_topology : bool;          (* the loop over the topology still runs *)
  en_error : option error;     (* the polling loop returned it *)
}.

Inductive engine_step : Type :=
| Round (x : wait epollevent)
| Topology
| Probe (addr : bytes) (first second : option error) (time : Z).

Definition with_nodes w (nodes : ClusterNodes) : World T :=
  with_ticker w (w_nextTicker w) (w_ProxyAddrs w) nodes (w_Slots2Node w).

(** A step that is not enabled does nothing. *)
Definition step_engine (s : engine_state) (st : engine_step) : res engine_state :=
  let w := en_world s in
  match st with
  | Round x =>
      match en_error s with
      | Some _ => Ok s
      | None =>
          '(r, w) ← poll_round opts IpMap order fuel epoll_limits (epoll_dispatch opts IpMap lnAddr efd fuel) w (en_size s) (en_chores s) x;
          match r with
          | inl e => Ok (mkEngineState w (en_size s) (en_chores s) (en_topology s) (Some e))
          | inr (size, chores) => Ok (mkEngineState w size chores (en_topology s) None)
          end
      end
  | Topology =>
      match w_clusterChan w with
      | msg :: ch =>
          if en_topology s then
            '(go, nodes) ← loop_step redisInfo (w_ClusterNodes w) msg;
            Ok (mkEngineState (with_chan (with_nodes w nodes) ch) (en_size s) (en_chores s) go (en_error s))
          else Ok s
      | [] => Ok s
      end
  | Probe addr d1 d2 time =>
      match w_ProxyPool w !! addr with
      | Some p =>
          match monitor_tick p d1 d2 time with
          | Some p => Ok (mkEngineState (with_pools w (<[addr := p]> (w_ProxyPool w))) (en_size s) (en_chores s) (en_topology s) (en_error s))
          | None => Ok s
          end
      | None => Ok s
      end
  end.

Fixpoint run_engine (s : engine_state) (steps : list engine_step) : res engine_state :=
  match steps with
  | [] => Ok s
  | st :: steps => s ← step_engine s st; run_engine s steps
  end.

(** The engine as [serve] starts it. *)
Definition served_engine w : engine_state := mkEngineState w (newEventList (InitPollEventsCap epoll_limits)) false true None.

(** Without steps of the other goroutines this is [Polling]. *)
Lemma run_engine_polls s xs r w' :
  en_error s = None ->
  poll opts IpMap order fuel epoll_limits (epoll_dispatch opts IpMap lnAddr efd fuel) (en_world s) (en_size s) (en_chores s) xs = Ok (r, w') ->
  exists s', run_engine s (map Round xs) = Ok s' /\ en_world s' = w' /\
    match r with inl e => en_error s' = Some e | inr _ => en_error s' = None end.
Proof.
  assert (forall xs s, en_error s <> None -> run_engine s (map Round xs) = Ok s) as Hend.
  { intros ys. induction ys as [|y ys IH]; intros t Ht; [done|]. cbn [map run_engine]. unfold step_engine.
    destruct (en_error t) eqn:E; [|done]. rewrite res_bind_Ok. apply IH. congruence. }
  revert s. induction xs as [|x xs IH]; intros s Hs Hp; cbn [poll map run_engine] in *; [simplify_eq; by exists s|].
  bind_inv Hp. destruct a as [r1 w1]. unfold step_engine. rewrite Hs, Ha, res_bind_Ok. destruct r1 as [e|[size chores]].
  - simplify_eq. rewrite res_bind_Ok, Hend by done. by eexists.
  - rewrite res_bind_Ok. by apply IH.
Qed.

Lemma monitor_nodes p d1 d2 t p' : monitor_tick p d1 d2 t = Some p' -> p_nodes p' = p_nodes p.
Proof. unfold monitor_tick. intros Hm. by repeat case_match; simplify_eq. Qed.

Lemma step_engine_keeps s st s' : step_engine s st = Ok s' -> keeps (en_world s) (en_world s').
Proof.
  intros Hs. destruct st as [x| |addr d1 d2 t]; cbn in Hs.
  - destruct (en_error s); [by simplify_eq|]. bind_inv Hs. destruct a as [r w1].
    apply (poll_round_keeps _ _ _ _ _ _ (epoll_dispatch_keeps _ _ _ lnAddr efd)) in Ha. by destruct r as [e|[size b]]; simplify_eq.
  - destruct (w_clusterChan _) as [|msg ch]; [by simplify_eq|]. case_if_in Hs; [|by simplify_eq]. bind_inv Hs. destruct a as [go nodes].
    simplify_eq. apply same_keeps. cbn. by split.
  - destruct (w_ProxyPool _ !! addr) as [p|] eqn:Ep; [|by simplify_eq]. destruct (monitor_tick _ _ _ _) as [p'|] eqn:Em; simplify_eq; [|done].
    apply same_keeps. eapply put_pool_same; [done|by eapply monitor_nodes].
Qed.
Lemma run_engine_keeps s steps s' : run_engine s steps = Ok s' -> keeps (en_world s) (en_world s').
Proof.
  revert s. induction steps as [|st steps IH]; intros s Hr; cbn [run_engine] in Hr; [by simplify_eq|]. bind_inv Hr.
  etrans; [by eapply step_engine_keeps|by apply IH].
Qed.

(** The table of connections, as in [LoopTable]. *)
Lemma step_engine_inv `{!Descriptors} s st s' : step_engine s st = Ok s' -> inv_step (en_world s) (en_world s').
Proof.
  intros Hs. destruct st as [x| |addr d1 d2 t]; cbn in Hs.
  - destruct (en_error s); [by simplify_eq|]. bind_inv Hs. destruct a as [r w1].
    apply (poll_round_inv _ _ _ _ _ _ (epoll_dispatch_inv _ _ _ lnAddr efd)) in Ha. by destruct r as [e|[size b]]; simplify_eq.
  - destruct (w_clusterChan _) as [|msg ch]; [by simplify_eq|]. case_if_in Hs; [|by simplify_eq]. bind_inv Hs. destruct a as [go nodes].
    simplify_eq. apply stable_inv. cbn. by split.
  - destruct (w_ProxyPool _ !! addr) as [p|] eqn:Ep; [|by simplify_eq]. destruct (monitor_tick _ _ _ _) as [p'|] eqn:Em; simplify_eq; [|done].
    apply stable_inv. cbn. by split.
Qed.
Lemma run_engine_inv `{!Descriptors} s steps s' : run_engine s steps = Ok s' -> inv_step (en_world s) (en_world s').
Proof.
  revert s. induction steps as [|st steps IH]; intros s Hr; cbn [run_engine] in Hr; [by simplify_eq|]. bind_inv Hr.
  intros Hi. apply (IH _ Hr). by eapply step_engine_inv.
Qed.

(** C6: in every state an engine reaches, from [serve] over any rounds of the polling
    loop, whatever the events, interleaved with the loop over the topology and the
    monitors of the pools, the table [connections] holds exactly the open connections,
    each under its descriptor, and (as long as there are fewer than 2^31) the two
    counters are the numbers of open client and server connections and
    [CountConnections] is the size of the table. *)
Theorem engine_connections `{!Descriptors} e (tree : T) nodes ln fd w steps s
    (Hserve : serve epoll_create1 eventfd o srv IpMap order e tree nodes ln = Ok (inl (fd, efd), w))
    (Hrun : run_engine (served_engine w) steps = Ok s) :
  table_ok (en_world s).
Proof. apply inv_table_ok, (run_engine_inv _ _ _ Hrun). by eapply serve_inv. Qed.

Lemma engine_reaches e (tree : T) nodes ln fd w steps s :
  items tree = [] -> serve epoll_create1 eventfd o srv IpMap order e tree nodes ln = Ok (inl (fd, efd), w) ->
  run_engine (served_engine w) steps = Ok s -> exists F M, queues (en_world s) F M.
Proof.
  intros Ht Hs Hp. destruct (serve_queues _ _ _ _ _ _ Ht Hs) as (F & M & Hw).
  destruct (run_engine_keeps _ _ _ Hp F M Hw) as (F' & M' & Hw' & _). by exists F', M'.
Qed.

(** C7: in every state an engine reaches, from [serve] (with an empty timeout queue) over
    any rounds of the polling loop, whatever the events, interleaved with the loop over
    the topology and the monitors of the pools, the queues are consistent:
    there are lists [F] of fragments (waiting and outgoing, per connection) and [M] of
    messages such that every queue is the well-formed linked list of its elements, in
    order, with its counter; no fragment is in two queues and no message is; a message in
    the pool of recycled messages is in no queue; only server connections have fragments;
    the timeout queue holds only fragments that wait for a reply and have an owner, each
    under its own expiry time; owners are connections and messages of fragments exist;
    and the connections of the pools, and those asked for the topology, are to servers. *)
Theorem engine_queues e (tree : T) nodes ln fd w steps s (Htree : items tree = [])
    (Hserve : serve epoll_create1 eventfd o srv IpMap order e tree nodes ln = Ok (inl (fd, efd), w))
    (Hrun : run_engine (served_engine w) steps = Ok s) :
  exists F M, queues (en_world s) F M.
Proof. by eapply engine_reaches. Qed.

(** C8: in every state an engine reaches, [msgTimeout] ends without a panic, within the
    number of pending timeouts; and for every connection that was not released the
    fragments it sends next and waits for, and the requests of its client, are lists of
    different elements, on which the write signal takes all outgoing requests in order,
    answered requests are released to the pool, and the callback of a closed server
    connection drops all waiting fragments: each of these loops ends, within the length
    of its queue, without a panic. *)
Theorem engine_never_stuck e (tree : T) nodes ln fd w steps s (Htree : items tree = [])
    (Hserve : serve epoll_create1 eventfd o srv IpMap order e tree nodes ln = Ok (inl (fd, efd), w))
    (Hrun : run_engine (served_engine w) steps = Ok s) :
  never_stuck opts (en_world s).
Proof. destruct (engine_reaches _ _ _ _ _ _ _ _ Htree Hserve Hrun) as (F & M & Hw). by eapply queues_never_stuck. Qed.
End engine.

(** ** An engine at work

    Two servers.  The ticker asks the first one for the topology; its answer gives it the
    slot of the key [foo] and a slave.  A client asks for [foo]; the request goes to the
    slave, on a new connection, and waits for its reply. *)
Definition busy_env : Env := kernel_at 300000000.
Definition bulk (p : bytes) : bytes := str "$" ++ Itoa (len p) ++ crlf ++ p ++ crlf.
Definition busy_nodes : bytes :=
  str "n1 10.0.0.1:6379@16379 myself,master - 0 0 1 connected 12182" ++ [10] ++
  str "n2 10.0.0.2:6379@16379 master - 0 0 2 connected 0" ++ [10] ++
  str "n3 10.0.0.3:6379@16379 slave n1 0 0 1 connected" ++ [10].
Definition get_foo : bytes := str "*2" ++ crlf ++ bulk (str "get") ++ bulk (str "foo").

Definition busy_options : Core.Options :=
  Run_options [Core.WithRedisServers (str "10.0.0.1:6379,10.0.0.2:6379"); Core.WithRedisPreconnect true; Core.WithRedisRequestTimeout 60000].

Definition busy_kernel : kernel :=
  mkKernel ∅ (list_to_set [0; 1; 2; 3]) (list_to_map [(7, [bulk busy_nodes]); (8, [get_foo]);
    (9, [str "+OK" ++ crlf ++ bulk (str "bar")])]) 0.
Definition busy_serve :=
  @serve empty_pool busy_env (list (Z * fid)) _ (gmap_HashMap ClusterNode) (gmap_HashMap unit)
    kernel_new kernel_new busy_options (Srv.loadOptions []) no_ips (fun m => (map_to_list m).*1) busy_kernel [] no_nodes 3.
Definition busy_world : @World busy_env (list (Z * fid)) (gmap_HashMap ClusterNode) :=
  match busy_serve with Ok (_, w) => w | _ => @mkWorld busy_env (list (Z * fid)) (gmap_HashMap ClusterNode) busy_kernel ∅ 1%positive (mkStore ∅ ∅ 0 0 [] 1%positive) [] [] [] false ∅ 0 0 0 ∅ [] [] no_nodes [] end.
Definition busy_run :=
  @run_engine empty_pool busy_env (list (Z * fid)) _ (gmap_HashMap ClusterNode) (gmap_HashMap unit) sorted_range
    busy_options (Srv.loadOptions []) no_ips (fun m => (map_to_list m).*1) sample_info 100 (str "0.0.0.0:9736") 5
    (served_engine busy_world).
Definition wakes : wait epollevent := Events [mkEpollEvent 5 EPOLLIN].
Definition readable (fd : Z) : wait epollevent := Events [mkEpollEvent fd EPOLLIN].
Definition busy_steps : list engine_step :=
  [Round Interrupted; Round wakes; Round (readable 7); Topology; Probe (str "10.0.0.2:6379") None None 0;
   Round (readable 3); Round Interrupted; Round Interrupted; Round (readable 8); Round wakes].

Lemma busy_served : busy_serve = Ok (inl (4, 5), busy_world).
Proof.
  assert (Hp : (fun x => x.1) <$> busy_serve = Ok (inl (4, 5))) by (vm_compute; reflexivity).
  unfold busy_world. destruct busy_serve as [[p w]| |]; [|done..]. by injection Hp as ->.
Qed.

(** The request and its timeout, and the reply once it comes. *)
Example busy_waits :
  (fun s : @engine_state busy_env _ _ => (map_to_list (w_connections (en_world s)), w_timeouts (en_world s), wire (w_env (en_world s)) 8)) <$>
    busy_run busy_steps =
  Ok ([(7, 2%positive); (9, 4%positive); (6, 1%positive); (8, 3%positive)], [(64200000000, 3%positive)], []).
Proof. vm_compute. reflexivity. Qed.
Example busy_answered :
  (fun s : @engine_state busy_env _ _ => (w_timeouts (en_world s), wire (w_env (en_world s)) 8)) <$>
    busy_run (busy_steps ++ [Round (readable 9)]) = Ok ([], bulk (str "bar")).
Proof. vm_compute. reflexivity. Qed.

Lemma engine_connections_witness :
  match busy_run busy_steps with Ok s => @table_ok busy_env _ _ (en_world s) | _ => False end.
Proof.
  destruct (returns_inv (busy_run busy_steps)) as [s E]; [vm_compute; reflexivity|]. rewrite E.
  exact (@engine_connections empty_pool busy_env _ _ _ (gmap_HashMap unit) sorted_range kernel_new kernel_new busy_options
    (Srv.loadOptions []) no_ips (fun m => (map_to_list m).*1) sample_info 100 (str "0.0.0.0:9736") 5 (kernel_fds_at 300000000)
    busy_kernel [] no_nodes 3 4 busy_world busy_steps s busy_served E).
Defined.

Lemma engine_queues_witness :
  match busy_run busy_steps with
  | Ok s => exists F M, @queues busy_env _ _ _ (en_world s) F M
  | _ => False
  end.
Proof.
  destruct (returns_inv (busy_run busy_steps)) as [s E]; [vm_compute; reflexivity|]. rewrite E.
  exact (@engine_queues empty_pool busy_env _ _ _ (gmap_HashMap unit) sorted_range kernel_new kernel_new busy_options
    (Srv.loadOptions []) no_ips (fun m => (map_to_list m).*1) sample_info 100 (str "0.0.0.0:9736") 5
    busy_kernel [] no_nodes 3 4 busy_world busy_steps s eq_refl busy_served E).
Defined.

Lemma engine_never_stuck_witness :
  match busy_run busy_steps with
  | Ok s => @never_stuck busy_env _ _ _ sorted_range (loop_options busy_options (Srv.loadOptions [])) (en_world s)
  | _ => False
  end.
Proof.
  destruct (returns_inv (busy_run busy_steps)) as [s E]; [vm_compute; reflexivity|]. rewrite E.
  exact (@engine_never_stuck empty_pool busy_env _ _ _ (gmap_HashMap unit) sorted_range kernel_new kernel_new busy_options
    (Srv.loadOptions []) no_ips (fun m => (map_to_list m).*1) sample_info 100 (str "0.0.0.0:9736") 5
    busy_kernel [] no_nodes 3 4 busy_world busy_steps s eq_refl busy_served E).
Defined.
