(* ===== verification/Lifecycle.v ===== *)
(** * Shutting down

    [stop], [waitForShutdown], [signalShutdown] and [startEventLoop] of
    [core/engine.go], [Stop] of [core/gnet.go] and the end of [run]
    ([core/reactor_default_linux.go]): the main goroutine, the goroutine of the
    loop and any number of callers of [Stop] meet over a [sync.Once], a
    [sync.Cond], a [sync.WaitGroup] and an atomic flag.  Every operation on these
    is one step of one goroutine; any interleaving is a run.

    What the program does not decide are steps of the environment: events on the
    sockets, the end of the work on them (which may never come, see
    [Timeouts.sread_spins]), a failing poll, a wake-up that cannot be written, the end of
    a context.

    The theorems: the flag [inShutdown] is set, and [Stop] returns nil, only when
    the loop has ended and the poller is closed; after a signal that reaches the main
    goroutine the goroutines take a bounded number of steps, and then everything is
    shut down, unless the loop is still at work on events or the wake-up failed; and a
    signal that comes before the main goroutine waits is lost. *)

From S2P Require Import Prelude Errors.

(** ** Goroutines *)

(** A caller inside [once.Do(f)], where [f] locks, signals and unlocks. *)
Inductive once_pc : Set := OEnter | OLock | OSignal | OUnlock | OExit.

(** The main goroutine: the end of [serve], then [stop].  [MAdd], [MRelease],
    [MWaiting] and [MRelock] are the parts of [cond.Wait]. *)
Inductive main_pc : Set :=
  | MStore | MLock | MAdd | MRelease | MWaiting | MRelock | MUnlock
  | MOnShutdown | MTrigger | MWgWait | MClose | MSet | MReturned.

(** The loop: [Polling], in the wait or at work on what the wait returned, tasks included if
    [chores]; then the deferred calls of [run], then [wg.Done]. *)
Inductive loop_pc : Set := LPolling | LRound (chores : bool) | LCloseSockets | LCloseLn | LOnce (o : once_pc) | LWgDone | LEnd.

(** A caller of [Stop], and what it returns. *)
Inductive stop_result : Set := StopNil | StopInShutdown | StopCtx.
Inductive stop_pc : Set := SLoad | SOnce (o : once_pc) | SCheck | SPoll | SReturned (r : stop_result).

Inductive tid : Set := TMain | TLoop | TStop (i : nat).
#[export] Instance tid_eq_dec : EqDecision tid.
Proof. solve_decision. Defined.

(** [sync.Once]: not begun, being run by a goroutine, done. *)
Inductive once_state : Set := ONone | ORunning (t : tid) | ODone.

Record state := mkState {
  main : main_pc;
  loop : loop_pc;
  stops : list stop_pc;
  once : once_state;
  cond_L : option tid;              (* who holds [cond.L] *)
  registered : bool;                (* the main goroutine is on the notify list *)
  notified : bool;                  (* it has been taken from the list by [Signal] *)
  wg : Z;
  inShutdown : bool;
  stored : bool;                    (* the engine is in [allEngines] *)
  urgent : bool;                    (* the shutdown task has been queued *)
  awake : bool;                     (* the poller has a wake-up to report *)
  failed : bool;                    (* [UrgentTrigger] could not write the wake-up *)
  sockets_open : bool;
  ln_open : bool;
  poller_open : bool;
}.

Definition with_main (s : state) (p : main_pc) : state :=
  mkState p (loop s) (stops s) (once s) (cond_L s) (registered s) (notified s) (wg s) (inShutdown s) (stored s)
    (urgent s) (awake s) (failed s) (sockets_open s) (ln_open s) (poller_open s).
Definition with_loop (s : state) (p : loop_pc) : state :=
  mkState (main s) p (stops s) (once s) (cond_L s) (registered s) (notified s) (wg s) (inShutdown s) (stored s)
    (urgent s) (awake s) (failed s) (sockets_open s) (ln_open s) (poller_open s).
Definition with_stop (s : state) (i : nat) (p : stop_pc) : state :=
  mkState (main s) (loop s) (<[i := p]> (stops s)) (once s) (cond_L s) (registered s) (notified s) (wg s) (inShutdown s)
    (stored s) (urgent s) (awake s) (failed s) (sockets_open s) (ln_open s) (poller_open s).
Definition with_lock (s : state) (l : option tid) : state :=
  mkState (main s) (loop s) (stops s) (once s) l (registered s) (notified s) (wg s) (inShutdown s) (stored s)
    (urgent s) (awake s) (failed s) (sockets_open s) (ln_open s) (poller_open s).
Definition with_once (s : state) (o : once_state) : state :=
  mkState (main s) (loop s) (stops s) o (cond_L s) (registered s) (notified s) (wg s) (inShutdown s) (stored s)
    (urgent s) (awake s) (failed s) (sockets_open s) (ln_open s) (poller_open s).
Definition with_notify (s : state) (r n : bool) : state :=
  mkState (main s) (loop s) (stops s) (once s) (cond_L s) r n (wg s) (inShutdown s) (stored s)
    (urgent s) (awake s) (failed s) (sockets_open s) (ln_open s) (poller_open s).
Definition with_flags (s : state) (w : Z) (sh st ur so ln po : bool) : state :=
  mkState (main s) (loop s) (stops s) (once s) (cond_L s) (registered s) (notified s) w sh st ur (awake s) (failed s) so ln po.
Definition with_wake (s : state) (a f : bool) : state :=
  mkState (main s) (loop s) (stops s) (once s) (cond_L s) (registered s) (notified s) (wg s) (inShutdown s) (stored s)
    (urgent s) a f (sockets_open s) (ln_open s) (poller_open s).

(** ** Steps *)

Definition lock (t : tid) (s : state) : option state :=
  match cond_L s with None => Some (with_lock s (Some t)) | Some _ => None end.

(** [cond.Signal]: the waiter, if there is one on the list, is taken from it. *)
Definition Signal (s : state) : state :=
  if registered s then with_notify s false true else s.

(** One step of [signalShutdown]: where the caller goes next, or [None] when it
    must wait.  [inr] is the return. *)
Definition signalShutdown (t : tid) (o : once_pc) (s : state) : option ((once_pc + unit) * state) :=
  match o with
  | OEnter =>
      match once s with
      | ODone => Some (inr (), s)
      | ONone => Some (inl OLock, with_once s (ORunning t))
      | ORunning _ => None
      end
  | OLock => s ← lock t s; Some (inl OSignal, s)
  | OSignal => Some (inl OUnlock, Signal s)
  | OUnlock => Some (inl OExit, with_lock s None)
  | OExit => Some (inr (), with_once s ODone)
  end.

(** [UrgentTrigger] queues the shutdown task before it writes the wake-up. *)
Definition queue_task (s : state) : state :=
  with_flags s (wg s) (inShutdown s) (stored s) true (sockets_open s) (ln_open s) (poller_open s).

(** [serve] after [start], and [stop] with [waitForShutdown]; [MTrigger] is an [UrgentTrigger]
    that succeeds, see [env] for one that fails. *)
Definition next_main (s : state) : option state :=
  match main s with
  | MStore => Some (with_main (with_flags s (wg s) (inShutdown s) true (urgent s) (sockets_open s) (ln_open s) (poller_open s)) MLock)
  | MLock => s ← lock TMain s; Some (with_main s MAdd)
  | MAdd => Some (with_main (with_notify s true (notified s)) MRelease)
  | MRelease => Some (with_main (with_lock s None) MWaiting)
  | MWaiting => if notified s then Some (with_main s MRelock) else None
  | MRelock => s ← lock TMain s; Some (with_main s MUnlock)
  | MUnlock => Some (with_main (with_lock s None) MOnShutdown)
  | MOnShutdown => Some (with_main s MTrigger)
  | MTrigger => Some (with_main (with_wake (queue_task s) true (failed s)) MWgWait)
  | MWgWait => if wg s =? 0 then Some (with_main s MClose) else None
  | MClose => Some (with_main (with_flags s (wg s) (inShutdown s) (stored s) (urgent s) (sockets_open s) (ln_open s) false) MSet)
  | MSet => Some (with_main (with_flags s (wg s) true (stored s) (urgent s) (sockets_open s) (ln_open s) (poller_open s)) MReturned)
  | MReturned => None
  end.

(** [run]: the wait returns when there is a wake-up to report (that none is lost is
    [Wakeup.no_lost_wakeup]); the end of the work on what it returned is up to the
    environment ([env]). *)
Definition next_loop (s : state) : option state :=
  match loop s with
  | LPolling => if awake s then Some (with_loop (with_wake s false (failed s)) (LRound true)) else None
  | LRound _ => None
  | LCloseSockets => Some (with_loop (with_flags s (wg s) (inShutdown s) (stored s) (urgent s) false (ln_open s) (poller_open s)) LCloseLn)
  | LCloseLn => Some (with_loop (with_flags s (wg s) (inShutdown s) (stored s) (urgent s) (sockets_open s) false (poller_open s)) (LOnce OEnter))
  | LOnce o =>
      '(r, s) ← signalShutdown TLoop o s;
      Some (with_loop s (match r with inl o => LOnce o | inr _ => LWgDone end))
  | LWgDone => Some (with_loop (with_flags s (wg s - 1) (inShutdown s) (stored s) (urgent s) (sockets_open s) (ln_open s) (poller_open s)) LEnd)
  | LEnd => None
  end.

(** [Stop].  Its deferred [allEngines.Delete] is part of its return.  A tick that finds
    the flag unset changes nothing, so [SPoll] waits for the flag (or for
    the context, [env]). *)
Definition next_stop (i : nat) (s : state) : option state :=
  p ← stops s !! i;
  match p with
  | SLoad => Some (with_stop s i (if stored s then SOnce OEnter else SReturned StopInShutdown))
  | SOnce o =>
      '(r, s) ← signalShutdown (TStop i) o s;
      Some (with_stop s i (match r with inl o => SOnce o | inr _ => SCheck end))
  | SCheck =>
      if inShutdown s
      then Some (with_stop (with_flags s (wg s) true false (urgent s) (sockets_open s) (ln_open s) (poller_open s)) i (SReturned StopInShutdown))
      else Some (with_stop s i SPoll)
  | SPoll =>
      if inShutdown s
      then Some (with_stop (with_flags s (wg s) true false (urgent s) (sockets_open s) (ln_open s) (poller_open s)) i (SReturned StopNil))
      else None
  | SReturned _ => None
  end.

Definition next (t : tid) (s : state) : option state :=
  match t with TMain => next_main s | TLoop => next_loop s | TStop i => next_stop i s end.

(** The program's steps. *)
Definition step (s s' : state) : Prop := exists t, next t s = Some s'.

(** The steps of the environment: the wait returns events, with or without a wake-up for other
    tasks; the work on them ends, and the polling with it if the tasks were run and
    the shutdown task was among them; the polling fails; the wake-up of [UrgentTrigger]
    cannot be written, which [stop] logs; the context of a [Stop] ends. *)
Inductive env (s : state) : state -> Prop :=
  | env_events chores : loop s = LPolling -> env s (with_loop s (LRound chores))
  | env_round chores : loop s = LRound chores ->
      env s (with_loop s (if chores && urgent s then LCloseSockets else LPolling))
  | env_poll_fails : loop s = LPolling -> env s (with_loop s LCloseSockets)
  | env_trigger_fails : main s = MTrigger -> env s (with_main (with_wake (queue_task s) (awake s) true) MWgWait)
  | env_ctx i : stops s !! i = Some SPoll ->
      env s (with_stop (with_flags s (wg s) (inShutdown s) false (urgent s) (sockets_open s) (ln_open s) (poller_open s)) i (SReturned StopCtx)).

(** After [start]: the loop runs, [n] goroutines will call [Stop]. *)
Definition init (n : nat) : state :=
  mkState MStore LPolling (replicate n SLoad) ONone None false false 1 false false false false false true true true.

Definition reachable (s : state) : Prop := exists n, rtc (fun s s' => step s s' \/ env s s') (init n) s.

(** ** Who holds what *)

(** Where a goroutine is inside [signalShutdown]. *)
Definition signalling (t : tid) (s : state) : option once_pc :=
  match t with
  | TMain => None
  | TLoop => match loop s with LOnce o => Some o | _ => None end
  | TStop i => match stops s !! i with Some (SOnce o) => Some o | _ => None end
  end.

(** The goroutine is between [cond.L.Lock] and [cond.L.Unlock], and inside the
    function of [once.Do]. *)
Definition critical (t : tid) (s : state) : bool :=
  match t with
  | TMain => match main s with MAdd | MRelease | MUnlock => true | _ => false end
  | _ => match signalling t s with Some (OSignal | OUnlock) => true | _ => false end
  end.
Definition running (t : tid) (s : state) : bool :=
  match signalling t s with Some (OLock | OSignal | OUnlock | OExit) => true | _ => false end.

(** [step_cases Hn] takes a step of the goroutine of [Hn] apart. *)
Ltac step_cases Hn :=
  unfold next, next_main, next_loop, next_stop, signalShutdown, lock, Signal, queue_task in Hn; cbn in Hn;
  repeat (match type of Hn with
    | (?x ≫= _) = _ => match x with context [match ?y with _ => _ end] => destruct y eqn:? | _ => destruct x eqn:? end
    | match ?x with _ => _ end = _ => destruct x eqn:?
    | context [match ?x with _ => _ end] => destruct x eqn:?
    end; cbn in Hn; try discriminate Hn);
  simplify_eq; cbn in *; subst.

(** A step of one goroutine leaves the others where they are. *)
Lemma step_others t t' s s' :
  next t s = Some s' -> t' <> t -> critical t' s' = critical t' s /\ running t' s' = running t' s.
Proof.
  intros Hn Hne. destruct s as [m l st on cl rg nt w sh sd ur aw fa so ln po].
  assert (signalling t' s' = signalling t' (mkState m l st on cl rg nt w sh sd ur aw fa so ln po) /\ (t <> TMain -> main s' = m)) as [He Hm].
  { destruct t as [| |i]; step_cases Hn; (split; [destruct t' as [| |j]; try done|done]); cbn;
      rewrite list_lookup_insert_ne by congruence; done. }
  unfold critical, running. rewrite He. destruct t' as [| |j]; [|done..]. by rewrite Hm.
Qed.

(** What a goroutine's own step does to the lock and to the once. *)
Lemma step_lock t s s' :
  next t s = Some s' ->
  (cond_L s' = cond_L s /\ critical t s' = critical t s) \/
  (cond_L s = None /\ cond_L s' = Some t /\ critical t s' = true) \/
  (critical t s = true /\ cond_L s' = None /\ critical t s' = false).
Proof.
  intros Hn. destruct s as [m l st on cl rg nt w sh sd ur aw fa so ln po].
  destruct t as [| |i]; step_cases Hn; unfold critical, signalling; cbn;
    rewrite ?list_lookup_insert_eq by (by eapply lookup_lt_Some);
    repeat match goal with E : st !! _ = Some _ |- _ => rewrite E end; tauto.
Qed.
Lemma step_once t s s' :
  next t s = Some s' ->
  (once s' = once s /\ running t s' = running t s) \/
  (once s = ONone /\ once s' = ORunning t /\ running t s' = true) \/
  (running t s = true /\ once s' = ODone /\ running t s' = false).
Proof.
  intros Hn. destruct s as [m l st on cl rg nt w sh sd ur aw fa so ln po].
  destruct t as [| |i]; step_cases Hn; unfold running, signalling; cbn;
    rewrite ?list_lookup_insert_eq by (by eapply lookup_lt_Some);
    repeat match goal with E : st !! _ = Some _ |- _ => rewrite E end; tauto.
Qed.

(** ** The invariant *)

(** The positions of the main goroutine after the wait for the loop, of the loop
    after its sockets are closed. *)
Definition main_after (m : main_pc) : bool := match m with MClose | MSet | MReturned => true | _ => false end.
Definition main_closed (m : main_pc) : bool := match m with MSet | MReturned => true | _ => false end.
Definition main_done (m : main_pc) : bool := match m with MReturned => true | _ => false end.
Definition triggered (m : main_pc) : bool := match m with MWgWait | MClose | MSet | MReturned => true | _ => false end.
Definition woken (m : main_pc) : bool :=
  match m with MStore | MLock | MAdd | MRelease | MWaiting => false | _ => true end.
Definition loop_ended (l : loop_pc) : bool := match l with LEnd => true | _ => false end.
Definition sockets_closed (l : loop_pc) : bool := match l with LPolling | LRound _ | LCloseSockets => false | _ => true end.
Definition ln_closed (l : loop_pc) : bool := match l with LPolling | LRound _ | LCloseSockets | LCloseLn => false | _ => true end.
Definition polling (l : loop_pc) : bool := match l with LPolling | LRound _ => true | _ => false end.

Record inv (s : state) : Prop := {
  iv_lock : forall t, cond_L s = Some t <-> critical t s = true;
  iv_once : forall t, once s = ORunning t <-> running t s = true;
  iv_wg : wg s = if loop_ended (loop s) then 0 else 1;
  iv_after : main_after (main s) = true -> loop s = LEnd;
  iv_sockets : sockets_open s = negb (sockets_closed (loop s));
  iv_ln : ln_open s = negb (ln_closed (loop s));
  iv_poller : poller_open s = negb (main_closed (main s));
  iv_flag : inShutdown s = main_done (main s);
  iv_woken : woken (main s) = true -> notified s = true;
  iv_urgent : triggered (main s) = true -> urgent s = true;
  iv_wake : triggered (main s) = true -> failed s = true \/ awake s = true \/ loop s = LRound true \/ polling (loop s) = false;
  iv_nil : forall i, stops s !! i = Some (SReturned StopNil) -> inShutdown s = true;
}.

Lemma init_inv n : inv (init n).
Proof.
  assert (Hst : forall i p, stops (init n) !! i = Some p -> p = SLoad) by (intros i p Hl; by apply lookup_replicate in Hl as [-> _]).
  assert (Hsig : forall t, signalling t (init n) = None).
  { intros [| |i]; [done..|]. unfold signalling. destruct (stops (init n) !! i) eqn:E; [|done]. by apply Hst in E as ->. }
  split; try done.
  - intros t. split; [done|]. unfold critical. rewrite Hsig. by destruct t.
  - intros t. split; [done|]. unfold running. by rewrite Hsig.
  - intros i Hl. by apply Hst in Hl.
Qed.

Lemma holder_step {A} (own : A -> option tid) (crit : tid -> A -> bool) t (s s' : A) :
  (forall t', t' <> t -> crit t' s' = crit t' s) ->
  (own s' = own s /\ crit t s' = crit t s) \/ (own s = None /\ own s' = Some t /\ crit t s' = true) \/
  (crit t s = true /\ own s' = None /\ crit t s' = false) ->
  (forall t, own s = Some t <-> crit t s = true) -> forall t, own s' = Some t <-> crit t s' = true.
Proof.
  intros Hoth Hown Hi u. destruct (decide (u = t)) as [->|Hne].
  - destruct Hown as [[Ho Hc]|[(Ho & Ho' & Hc)|(Hc & Ho & Hc')]]; [by rewrite Ho, Hc|split; congruence|split; congruence].
  - rewrite (Hoth u Hne). destruct Hown as [[Ho Hc]|[(Ho & Ho' & Hc)|(Hc & Ho & Hc')]]; [by rewrite Ho| |].
    + rewrite Ho', <- Hi, Ho. split; congruence.
    + rewrite Ho, <- Hi. apply Hi in Hc. split; congruence.
Qed.

Definition once_owner (s : state) : option tid := match once s with ORunning t => Some t | _ => None end.

Lemma next_inv t s s' : next t s = Some s' -> inv s -> inv s'.
Proof.
  intros Hn [Hl Ho Hwg Haf Hso Hln Hpo Hfl Hwo Hur Hwk Hnil]. split.
  - apply (holder_step cond_L critical t s s'); [intros t' Hne; by apply (step_others t)|by apply step_lock|done].
  - assert (Hoo : forall s t, once_owner s = Some t <-> once s = ORunning t) by (intros [] u; unfold once_owner; cbn; destruct once0; split; congruence).
    intros u. rewrite <- Hoo. revert u. apply (holder_step once_owner running t s s');
      [intros t' Hne; by apply (step_others t)| |intros u; by rewrite Hoo].
    unfold once_owner. destruct (step_once _ _ _ Hn) as [[-> ?]|[(-> & -> & ?)|(? & -> & ?)]]; tauto.
  - destruct s, t; cbn in *; step_cases Hn; try done; lia.
  - destruct s, t; cbn in *; step_cases Hn; try done; intros Hm;
      try (specialize (Haf Hm); congruence); by destruct loop0.
  - destruct s, t; cbn in *; step_cases Hn; done.
  - destruct s, t; cbn in *; step_cases Hn; done.
  - destruct s, t; cbn in *; step_cases Hn; done.
  - destruct s, t; cbn in *; step_cases Hn; try done; congruence.
  - destruct s, t; cbn in *; step_cases Hn; done.
  - destruct s, t; cbn in *; step_cases Hn; done.
  - destruct s, t; cbn in *; step_cases Hn; try done; naive_solver.
  - intros j. destruct s, t; cbn in *; step_cases Hn; try (intros Hj; by apply Hnil in Hj); intros Hj;
      apply list_lookup_insert_Some in Hj as [(-> & ? & _)|[_ Hj]]; try done; by apply Hnil in Hj.
Qed.

(** The loop goes on polling, or stops. *)
Lemma polled_inv s l :
  inv s -> polling (loop s) = true -> polling l = true \/ l = LCloseSockets ->
  (triggered (main s) = true -> failed s = true \/ awake s = true \/ l = LRound true \/ polling l = false) ->
  inv (with_loop s l).
Proof.
  intros [Hl Ho Hwg Haf Hso Hln Hpo Hfl Hwo Hur _ Hnil] Hp Hl' Hwk.
  assert (Hsig : forall t, signalling t (with_loop s l) = signalling t s).
  { intros []; cbn; try done. destruct (loop s); try done; destruct l; try done; by destruct Hl'. }
  split; cbn; try done.
  - intros t. rewrite Hl. unfold critical. by rewrite Hsig.
  - intros t. rewrite Ho. unfold running. by rewrite Hsig.
  - destruct (loop s); try done; destruct l; try done; by destruct Hl'.
  - intros Hm. specialize (Haf Hm). by rewrite Haf in Hp.
  - destruct (loop s); try done; destruct l; try done; by destruct Hl'.
  - destruct (loop s); try done; destruct l; try done; by destruct Hl'.
Qed.

Lemma env_inv s s' : env s s' -> inv s -> inv s'.
Proof.
  intros Hf Hi. destruct Hf as [b Hp|b Hp|Hp|Hp|i Hp].
  - apply polled_inv; [done|by rewrite Hp|by left|]. intros Ht. pose proof (iv_wake _ Hi Ht) as Hw. rewrite Hp in Hw. naive_solver.
  - apply polled_inv; [done|by rewrite Hp|destruct (b && urgent s); auto|]. intros Ht.
    pose proof (iv_wake _ Hi Ht) as Hw. rewrite (iv_urgent _ Hi Ht), andb_true_r. rewrite Hp in Hw.
    destruct b; [by right; right; right|]. naive_solver.
  - apply polled_inv; [done|by rewrite Hp|by right|]. intros _. by do 3 right.
  - assert (forall t, critical t (with_main (with_wake (queue_task s) (awake s) true) MWgWait) = critical t s) as Hc
      by (intros [| |i]; cbn; [by rewrite Hp|done..]).
    destruct Hi as [Hl Ho Hwg Haf Hso Hln Hpo Hfl Hwo Hur Hwk Hnil]. rewrite Hp in *.
    split; cbn; try done; [intros t; by rewrite Hc|auto..].
  - destruct Hi as [Hl Ho Hwg Haf Hso Hln Hpo Hfl Hwo Hur Hwk Hnil].
    match goal with |- inv ?x => set (s1 := x) end.
    assert (Hsig : forall t, signalling t s1 = signalling t s).
    { intros [| |j]; [done..|]. cbn. destruct (decide (i = j)) as [<-|Hne].
      - by rewrite list_lookup_insert_eq, Hp by (by eapply lookup_lt_Some).
      - by rewrite list_lookup_insert_ne. }
    split; cbn; try done.
    + intros t. rewrite Hl. unfold critical. by rewrite Hsig.
    + intros t. rewrite Ho. unfold running. by rewrite Hsig.
    + intros j Hj. apply list_lookup_insert_Some in Hj as [(_ & ? & _)|[_ Hj]]; [done|by apply Hnil in Hj].
Qed.

Lemma shutdown_inv s : reachable s -> inv s.
Proof.
  intros [n Hr]. pose proof (init_inv n) as Hi. induction Hr as [|s1 s2 s3 [[t Hs]|Hf] _ IH]; [done| |];
    apply IH; [by eapply next_inv|by eapply env_inv].
Qed.

(** C21: In every interleaving, the poller is closed only after the loop has
    ended; and once [inShutdown] is set, or some [Stop] has returned nil, the
    loop has ended, its connections and the listener are closed, the poller is
    closed and [stop] has returned. *)
Theorem shutdown_is_complete s (Hr : reachable s) :
  (poller_open s = false -> loop s = LEnd) /\
  (inShutdown s = true \/ (exists i, stops s !! i = Some (SReturned StopNil)) ->
   main s = MReturned /\ loop s = LEnd /\ wg s = 0 /\ sockets_open s = false /\ ln_open s = false /\ poller_open s = false).
Proof.
  apply shutdown_inv in Hr as []. split.
  - rewrite iv_poller0. intros Hp. apply iv_after0. by destruct (main s).
  - intros Hs. assert (Hm : main s = MReturned).
    { assert (inShutdown s = true) as Hf by (destruct Hs as [|[i Hi]]; [done|by eapply iv_nil0]).
      rewrite iv_flag0 in Hf. by destruct (main s). }
    rewrite Hm in *. specialize (iv_after0 eq_refl). rewrite iv_after0 in *. done.
Qed.

(** ** Termination *)

Definition once_rank (o : once_pc) : nat := match o with OEnter => 5 | OLock => 4 | OSignal => 3 | OUnlock => 2 | OExit => 1 end.
Definition main_rank (m : main_pc) : nat :=
  match m with
  | MStore => 13 | MLock => 12 | MAdd => 11 | MRelease => 10 | MWaiting => 9 | MRelock => 8 | MUnlock => 7
  | MOnShutdown => 6 | MTrigger => 5 | MWgWait => 3 | MClose => 2 | MSet => 1 | MReturned => 0
  end.
Definition loop_rank (l : loop_pc) : nat :=
  match l with LPolling | LRound _ => 9 | LCloseSockets => 8 | LCloseLn => 7 | LOnce o => once_rank o + 1 | LWgDone => 1 | LEnd => 0 end.
Definition stop_rank (p : stop_pc) : nat :=
  match p with SLoad => 8 | SOnce o => once_rank o + 2 | SCheck => 2 | SPoll => 1 | SReturned _ => 0 end.

(** Every step of the program brings the goroutines nearer to their ends. *)
Definition distance (s : state) : nat :=
  main_rank (main s) + loop_rank (loop s) + (if awake s then 1 else 0) + sum_list_with stop_rank (stops s).

Lemma sum_insert {A} (f : A -> nat) l i x y :
  l !! i = Some x -> (sum_list_with f (<[i := y]> l) + f x = sum_list_with f l + f y)%nat.
Proof.
  revert i. induction l as [|a l IH]; intros [|i] Hl; simplify_eq/=; [lia|]. specialize (IH _ Hl). lia.
Qed.

Lemma step_distance s s' : step s s' -> (distance s' < distance s)%nat.
Proof.
  intros [t Hn]. unfold distance. destruct s as [m l st on cl rg nt w sh sd ur aw fa so ln po].
  destruct t as [| |i]; step_cases Hn; try lia;
    match goal with E : st !! i = Some ?x |- context [<[i := ?y]> st] =>
      pose proof (sum_insert stop_rank st i x y E); cbn in *; lia end.
Qed.

Lemma env_distance s s' : env s s' -> (distance s' <= distance s)%nat.
Proof.
  intros He. unfold distance. destruct He as [b Hl|b Hl|Hl|Hm|i Hp]; cbn; rewrite ?Hl, ?Hm; cbn; try lia.
  - destruct b, (urgent s); cbn; lia.
  - pose proof (sum_insert stop_rank (stops s) i SPoll (SReturned StopCtx) Hp). cbn in *. lia.
Qed.

(** ** Progress *)

Definition stuck (s : state) : Prop := forall t, next t s = None.

Lemma step_or_stuck s : (exists s', step s s') \/ stuck s.
Proof.
  destruct (decide (Exists (fun t => is_Some (next t s)) (TMain :: TLoop :: map TStop (seq 0 (length (stops s)))))) as [He|Hne].
  - left. apply Exists_exists in He as (t & _ & s' & Ht). exists s'. by exists t.
  - right. intros t. destruct (next t s) as [s'|] eqn:E; [|done]. exfalso. apply Hne.
    apply Exists_exists. exists t. split; [|by eexists]. destruct t as [| |i]; [set_solver..|].
    do 2 apply list_elem_of_further. apply list_elem_of_fmap. exists i. split; [done|]. apply elem_of_seq.
    cbn in E. unfold next_stop in E. destruct (stops s !! i) eqn:El; [|done]. apply lookup_lt_Some in El. lia.
Qed.

(** In a stuck state nobody holds the lock or is inside the once. *)
Lemma stuck_free s : inv s -> stuck s -> cond_L s = None /\ (forall t, once s <> ORunning t).
Proof.
  intros Hi Hst. assert (Hfree : cond_L s = None).
  { destruct (cond_L s) as [t|] eqn:E; [|done]. exfalso. pose proof (proj1 (iv_lock _ Hi t) E) as Hc. specialize (Hst t).
    unfold critical, signalling in Hc. destruct t as [| |i]; cbn in Hst; unfold next_main, next_loop, next_stop in Hst.
    - by destruct (main s).
    - by destruct (loop s) as [| | | |[]| |].
    - destruct (stops s !! i) as [[|[]| | |]|]; done. }
  split; [done|]. intros t Ho. apply (iv_once _ Hi) in Ho. specialize (Hst t). unfold running, signalling in Ho.
  destruct t as [| |i]; cbn in Hst; unfold next_main, next_loop, next_stop in Hst.
  - done.
  - destruct (loop s) as [| | | |[]| |]; try done. cbn in Hst. unfold lock in Hst. by rewrite Hfree in Hst.
  - destruct (stops s !! i) as [[|[]| | |]|]; try done. cbn in Hst. unfold lock in Hst. by rewrite Hfree in Hst.
Qed.

(** The end of everything. *)
Definition all_done (s : state) : Prop :=
  main s = MReturned /\ loop s = LEnd /\ inShutdown s = true /\ Forall (fun p => exists r, p = SReturned r) (stops s).

Lemma stuck_done s :
  inv s -> notified s = true -> stuck s -> all_done s \/ (exists chores, loop s = LRound chores) \/ failed s = true.
Proof.
  intros Hi Hno Hst. destruct (failed s) eqn:Hfa; [by right; right|].
  assert ((exists chores, loop s = LRound chores) \/ ~ exists chores, loop s = LRound chores) as [|Hround];
    [destruct (loop s); first [by left; eexists|right; by intros []]|by right; left|]. left. destruct (stuck_free s Hi Hst) as [Hfree Honce].
  assert (Henter : forall t, signalShutdown t OEnter s <> None).
  { intros t. cbn. destruct (once s) as [|u|] eqn:E; [done|by specialize (Honce u)|done]. }
  assert (Hloop : triggered (main s) = true -> loop s = LEnd).
  { intros Hu. pose proof (Hst TLoop) as Hl. cbn in Hl. unfold next_loop in Hl.
    pose proof (iv_wake _ Hi Hu) as Hw. rewrite Hfa in Hw.
    destruct (loop s) as [|b| | |o| |] eqn:E; try done; [|by destruct Hround; eexists|].
    { destruct Hw as [?|[Ha|[?|?]]]; try done. by rewrite Ha in Hl. }
    exfalso. destruct o; try done.
    - specialize (Henter TLoop). destruct (signalShutdown TLoop OEnter s) as [[]|]; done.
    - cbn in Hl. unfold lock in Hl. by rewrite Hfree in Hl. }
  assert (Hm : main s = MReturned).
  { pose proof (Hst TMain) as Hm. cbn in Hm. unfold next_main, lock in Hm. rewrite Hfree in Hm.
    destruct (main s) eqn:E; try done; [by rewrite Hno in Hm|].
    assert (loop s = LEnd) as He by (by apply Hloop).
    pose proof (iv_wg _ Hi) as Hw. rewrite He in Hw. by rewrite Hw in Hm. }
  assert (Hsh : inShutdown s = true) by (rewrite (iv_flag _ Hi); by rewrite Hm).
  split_and!; [done|apply (iv_after _ Hi); by rewrite Hm|done|]. apply Forall_lookup. intros i p Hp.
  pose proof (Hst (TStop i)) as Hs. cbn in Hs. unfold next_stop in Hs. rewrite Hp in Hs. cbn in Hs.
  destruct p as [|o| | |r]; [done| |by rewrite Hsh in Hs..|by exists r]. exfalso. destruct o; try done.
  - specialize (Henter (TStop i)). destruct (signalShutdown (TStop i) OEnter s) as [[]|]; done.
  - cbn in Hs. unfold lock in Hs. by rewrite Hfree in Hs.
Qed.

Lemma notified_kept s s' : step s s' \/ env s s' -> notified s = true -> notified s' = true.
Proof.
  intros [[t Hn]|Hf] Hno; [|by destruct Hf]. destruct s, t; cbn in *; step_cases Hn; done.
Qed.

(** [n] steps of the program, among any steps of the environment. *)
Inductive counted : nat -> state -> state -> Prop :=
  | counted_0 s : counted 0 s s
  | counted_step n s1 s2 s3 : step s1 s2 -> counted n s2 s3 -> counted (S n) s1 s3
  | counted_env n s1 s2 s3 : env s1 s2 -> counted n s2 s3 -> counted n s1 s3.

Lemma counted_distance n s s' : counted n s s' -> (n + distance s' <= distance s)%nat.
Proof.
  induction 1 as [|n s1 s2 s3 Hs _ IH|n s1 s2 s3 Hs _ IH]; [lia|apply step_distance in Hs; lia|].
  apply env_distance in Hs. lia.
Qed.

(** C12: Once the signal has reached the main goroutine, the shutdown completes as far as the
    program decides: whatever the interleaving with the environment, the goroutines take
    at most [distance s] further steps; and in a state where none can take a step, [stop] has
    returned, the loop has ended and every call of [Stop] has returned, unless the loop is at
    work on the events of a round that has not ended, or [UrgentTrigger] could not
    write the wake-up, after which [stop] waits for a loop that is not told. *)
Theorem shutdown_completes s (Hr : reachable s) (Hn : notified s = true) :
  (forall n s', counted n s s' -> (n <= distance s)%nat) /\
  (forall s', rtc (fun s s' => step s s' \/ env s s') s s' ->
     (exists s'', step s' s'') \/ all_done s' \/ (exists chores, loop s' = LRound chores) \/ failed s' = true).
Proof.
  split; [intros n s' Hs; apply counted_distance in Hs; lia|]. intros s' Hs. apply shutdown_inv in Hr.
  assert (inv s' /\ notified s' = true) as [Hi Hno].
  { clear -Hr Hn Hs. induction Hs as [|s1 s2 s3 Hs _ IH]; [done|].
    apply IH; [destruct Hs as [[t Hs]|Hs]; [by eapply next_inv|by eapply env_inv]|by apply (notified_kept s1)]. }
  destruct (step_or_stuck s') as [|Hst]; [by left|right; by apply stuck_done].
Qed.

(** *** A signal nobody waits for *)

(** [signalShutdown] has run and the main goroutine was not on the notify list. *)
Definition lost (s : state) : Prop := once s = ODone /\ notified s = false.

Lemma lost_kept s s' : step s s' \/ env s s' -> inv s -> lost s -> lost s'.
Proof.
  intros [[t Hn]|Hf] Hi [Ho Hno]; [|by destruct Hf]. assert (Hrun : forall u, running u s = false).
  { intros u. destruct (running u s) eqn:E; [|done]. apply (iv_once _ Hi) in E. by rewrite Ho in E. }
  specialize (Hrun t). unfold running, signalling in Hrun. unfold lost.
  destruct s, t; cbn in *; step_cases Hn; try done; by rewrite Heqo in Hrun.
Qed.

(** A signal that comes before the main goroutine waits is lost for good:
    [once] never signals again, so that whatever happens afterwards, [stop] never
    returns from its wait, [inShutdown] stays 0, and no [Stop] ever returns nil. *)
Theorem lost_signal_hangs s (Hr : reachable s) (Hl : lost s) s' (Hs : rtc (fun s s' => step s s' \/ env s s') s s') :
  woken (main s') = false /\ inShutdown s' = false /\ forall i, stops s' !! i <> Some (SReturned StopNil).
Proof.
  apply shutdown_inv in Hr. assert (inv s' /\ lost s') as [Hi [_ Hno]].
  { induction Hs as [|s1 s2 s3 Hs _ IH]; [done|].
    apply IH; [destruct Hs as [[t Hn]|Hf]; [by eapply next_inv|by eapply env_inv]|by eapply lost_kept]. }
  assert (Hw : woken (main s') = false).
  { destruct (woken (main s')) eqn:E; [|done]. apply (iv_woken _ Hi) in E. congruence. }
  assert (Hf : inShutdown s' = false) by (rewrite (iv_flag _ Hi); by destruct (main s')).
  split_and!; [done..|]. intros i Hp. apply (iv_nil _ Hi) in Hp. congruence.
Qed.

(** ** Runs *)

(** The steps of the goroutines of a schedule. *)
Fixpoint run_schedule (s : state) (ts : list tid) : option state :=
  match ts with [] => Some s | t :: ts => s ← next t s; run_schedule s ts end.

Lemma run_schedule_steps ts : forall s s', run_schedule s ts = Some s' -> rtc step s s'.
Proof.
  induction ts as [|t ts IH]; intros s s' Hr; cbn in Hr; [by injection Hr as ->|].
  destruct (next t s) as [s1|] eqn:E; [|done]. eapply rtc_l; [by exists t|]. by apply IH.
Qed.
Lemma run_schedule_reachable n ts s : run_schedule (init n) ts = Some s -> reachable s.
Proof.
  intros Hr%run_schedule_steps. exists n. eapply rtc_subrel; [|exact Hr]. by left.
Qed.

(** A schedule, a step of the environment and another schedule. *)
Lemma reachable_env n ts s s1 ts' s' :
  run_schedule (init n) ts = Some s -> env s s1 -> run_schedule s1 ts' = Some s' -> reachable s'.
Proof.
  intros Hs%run_schedule_steps He Hs'%run_schedule_steps. exists n.
  assert (forall a b, rtc step a b -> rtc (fun s s' => step s s' \/ env s s') a b) as Hsub
    by (intros a b; apply rtc_subrel; by left).
  etrans; [by apply Hsub|]. eapply rtc_l; [by right|by apply Hsub].
Qed.

(** The main goroutine waits, then one [Stop] signals and everything ends. *)
Definition orderly : list tid :=
  replicate 4 TMain ++ replicate 7 (TStop 0) ++ replicate 5 TMain ++ [TLoop].
Definition orderly_round : state := default (init 1) (run_schedule (init 1) orderly).
(** The round of the wake-up ends with the shutdown task. *)
Definition orderly_rest : list tid := replicate 4 TLoop ++ replicate 3 TMain ++ [TStop 0].
Definition orderly_end : state := default (init 1) (run_schedule (with_loop orderly_round LCloseSockets) orderly_rest).

Lemma orderly_reachable : reachable orderly_end.
Proof.
  apply (reachable_env 1 orderly orderly_round (with_loop orderly_round LCloseSockets) orderly_rest);
    [vm_compute; reflexivity|apply (env_round orderly_round true); vm_compute; reflexivity|vm_compute; reflexivity].
Qed.

Lemma shutdown_is_complete_witness :
  stops orderly_end = [SReturned StopNil] /\ loop orderly_end = LEnd /\ poller_open orderly_end = false.
Proof.
  destruct (shutdown_is_complete orderly_end orderly_reachable) as [_ Hc].
  destruct Hc as (_ & Hl & _ & _ & _ & Hp); [left; vm_compute; reflexivity|].
  split; [vm_compute; reflexivity|]. split; [exact Hl|exact Hp].
Defined.

(** The signal has just reached the main goroutine. *)
Definition signalled : state := default (init 1) (run_schedule (init 1) (replicate 4 TMain ++ replicate 4 (TStop 0))).

Lemma shutdown_completes_witness :
  notified signalled = true /\ distance signalled = 22%nat /\
  (forall n s', counted n signalled s' -> (n <= distance signalled)%nat) /\
  forall s', rtc (fun s s' => step s s' \/ env s s') signalled s' ->
    (exists s'', step s' s'') \/ all_done s' \/ (exists chores, loop s' = LRound chores) \/ failed s' = true.
Proof.
  assert (Hr : reachable signalled).
  { apply (run_schedule_reachable 1 (replicate 4 TMain ++ replicate 4 (TStop 0))). vm_compute. reflexivity. }
  assert (Hn : notified signalled = true) by (vm_compute; reflexivity).
  split; [exact Hn|]. split; [vm_compute; reflexivity|]. exact (shutdown_completes signalled Hr Hn).
Defined.

(** [Stop] signals between [allEngines.Store] and the wait. *)
Definition early : state := default (init 1) (run_schedule (init 1) (TMain :: replicate 7 (TStop 0))).

Lemma lost_signal_hangs_witness :
  stops early = [SPoll] /\
  forall s', rtc (fun s s' => step s s' \/ env s s') early s' -> inShutdown s' = false.
Proof.
  assert (Hr : reachable early) by (apply (run_schedule_reachable 1 (TMain :: replicate 7 (TStop 0))); vm_compute; reflexivity).
  assert (Hl : lost early) by (split; vm_compute; reflexivity).
  split; [vm_compute; reflexivity|]. intros s' Hs. exact (proj1 (proj2 (lost_signal_hangs early Hr Hl s' Hs))).
Defined.
