(* ===== verification/Stats.v ===== *)
(** * Statistics

    [core/stats.go]: the metrics of the proxy, the counting of commands and the
    gauges that are set once a second.  A metric vector is a map from label values
    to numbers; the Prometheus library fails ([Panic]) when a vector is nil, when
    the number of label values is wrong and when two registered metrics have the
    same name.  Gauges are rationals, [None] being NaN: the counts they are set to
    are far below the 53 bits of a float. *)

From Stdlib Require Import QArith.
From S2P Require Import Prelude Errors Commands Message Cluster World Table LoopTable.
Open Scope Z_scope.

(** ** Metrics *)

Inductive kind : Set := Counter | Gauge | Histogram.
Record desc := mkDesc { d_kind : kind; d_ns : bytes; d_name : bytes; d_labels : list bytes }.

(** A [*CounterVec], [*GaugeVec] or [*HistogramVec]; [None] is nil. *)
Definition vec : Type := option desc.

Record ProxyStats := mkStats {
  Request : vec;
  TotalConnections : vec;
  CurrConnections : vec;
  TotalRequests : vec;
  ClientConnectionsClientEof : vec;
  ClientConnectionsClientErr : vec;
  ServerEjects : vec;
  ForwardErr : vec;
  Fragments : vec;
  ReqCmd : vec;
  RedisServerEof : vec;
  RedisServerErr : vec;
  RedisServerActive : vec;
  RedisServerCreateConnError : vec;
  TimeoutTree : vec;
}.

(** [prometheus.MustRegister] on an empty registry: the fully qualified names
    must differ. *)
Fixpoint MustRegister (registry : list bytes) (ms : list vec) : res (list bytes) :=
  match ms with
  | [] => Ok registry
  | None :: _ => Panic
  | Some d :: ms =>
      let name := d_ns d ++ str "_" ++ d_name d in
      if bool_decide (name ∈ registry) then Panic else MustRegister (registry ++ [name]) ms
  end.

Definition NewProxyStats (namespace : bytes) : res (ProxyStats * list bytes) :=
  let counter name labels := Some (mkDesc Counter namespace (str name) (str <$> labels)) in
  let gauge name labels := Some (mkDesc Gauge namespace (str name) (str <$> labels)) in
  let stats := {|
    TotalConnections := counter "total_connections" [];
    CurrConnections := gauge "curr_connections" ["type"];
    TotalRequests := counter "total_requests" [];
    Request := Some (mkDesc Histogram namespace (str "request_latency") []);
    ClientConnectionsClientEof := counter "client_connections_client_eof" [];
    ClientConnectionsClientErr := counter "client_connections_client_err" [];
    ReqCmd := counter "cmd" ["cmd"];
    Fragments := counter "fragments" ["cmd"];
    RedisServerEof := counter "redis_connections_eof" ["addr"];
    RedisServerErr := counter "redis_connections_err" ["addr"];
    RedisServerCreateConnError := counter "redis_connections_create_conn_error" ["addr"];
    RedisServerActive := gauge "redis_connections_active" ["addr"];
    TimeoutTree := gauge "timeout_tree" ["type"];
    ServerEjects := None;
    ForwardErr := None |} in
  registry ← MustRegister []
    [TotalConnections stats; CurrConnections stats; TotalRequests stats;
     ClientConnectionsClientEof stats; ClientConnectionsClientErr stats;
     RedisServerCreateConnError stats; RedisServerEof stats; RedisServerErr stats;
     RedisServerActive stats; Request stats; TimeoutTree stats; ReqCmd stats];
  Ok (stats, registry).

(** [GlobalStats]. *)
Definition GlobalStats : res (ProxyStats * list bytes) := NewProxyStats (str "rcproxy").

(** ** Counting commands *)

(** [WithLabelValues(l).Inc()] on a vector with one label. *)
Definition Inc (m : gmap bytes Z) (l : bytes) : gmap bytes Z := <[l := default 0 (m !! l) + 1]> m.

Definition ReqCmdIncr (m : gmap bytes Z) (cmd : Command) : gmap bytes Z :=
  match cmd with
  | ReqDel => Inc m (Transform2Str cmd)
  | ReqGet | ReqSet | ReqMget | ReqMset | ReqSort => Inc (Inc m (Transform2Str cmd)) (str "string")
  | ReqSetex | ReqSetnx | ReqSetrange | ReqGetrange | ReqStrlen => Inc m (str "string")
  | ReqBitcount | ReqSetbit | ReqGetbit => Inc m (str "bitmap")
  | ReqIncr | ReqDecr | ReqDecrby | ReqIncrby | ReqIncrbyfloat => Inc m (str "incr_decr")
  | ReqHexists | ReqHget | ReqHgetall | ReqHkeys | ReqHlen | ReqHmget | ReqHmset | ReqHdel
  | ReqHincrby | ReqHincrbyfloat | ReqHset | ReqHsetnx | ReqHscan | ReqHvals => Inc m (str "hashs")
  | ReqLrem => Inc (Inc m (Transform2Str cmd)) (str "lists")
  | ReqLpush | ReqRpush | ReqRpushx | ReqLpushx | ReqLpop | ReqRpop | ReqRpoplpush
  | ReqLrange | ReqLset | ReqLtrim | ReqLindex | ReqLlen | ReqLinsert => Inc m (str "lists")
  | ReqSadd | ReqSpop | ReqSrem | ReqSscan | ReqSmove
  | ReqSrandmember | ReqScard | ReqSismember | ReqSmembers
  | ReqSunion | ReqSdiff | ReqSinter | ReqSinterstore | ReqSdiffstore | ReqSunionstore => Inc m (str "sets")
  | ReqZadd | ReqZcount | ReqZincrby | ReqZscan | ReqZcard | ReqZscore
  | ReqZrange | ReqZrank | ReqZrangebyscore | ReqZrevrange | ReqZrangebylex | ReqZrevrank
  | ReqZinterstore | ReqZrevrangebyscore | ReqZunionstore | ReqZremrangebyscore
  | ReqZrem | ReqZremrangebylex | ReqZremrangebyrank => Inc m (str "sortedsets")
  | _ => Inc m (str "other")
  end.

(** ** The gauges *)

(** One tick of [statsLoop]: [height] is what [HeightStats] of the tree reports. *)
Section tick.
Context `{!Env} {T : Type} `{!LLRB T} `{!HashMap ClusterNode}.

Definition not_NaN (x : option Q) : option Q := Some (default 0%Q x).

(** [lengthOfTimeoutQueue] of [core/message.go]. *)
Definition lengthOfTimeoutQueue (t : T) : Q := inject_Z (len (items t)).

Abbreviation gauges := (gmap (bytes * bytes) (option Q)).
Definition statsLoop_tick (g : gauges) (height : option Q * option Q) (w : World T) : gauges :=
  let '(depth, stddev) := height in
  let tree k v := <[(str "timeout_tree", str k) := v]> in
  let conns k v := <[(str "curr_connections", str k) := v]> in
  let cConnCount := inject_Z (w_cConnCount w) in
  let sConnCount := inject_Z (w_sConnCount w) in
  conns "total" (Some (cConnCount + sConnCount)%Q)
    (conns "server" (Some sConnCount)
      (conns "client" (Some cConnCount)
        (tree "stddev" (not_NaN stddev)
          (tree "depth" (not_NaN depth)
            (tree "length" (Some (lengthOfTimeoutQueue (w_timeouts w))) g))))).
End tick.

(** ** The slow log

    [slowLogCheck] of [core/message.go]: the latency that is observed, in
    milliseconds, and whether the request is logged; [since] is in nanoseconds. *)
Definition slowLogCheck (RedisSlowlogSlowerThan : Z) (f : Frag) (since : Z) : option Z * bool :=
  match f_Owner f, f_Peer f with
  | Some _, Some _ =>
      if RedisSlowlogSlowerThan <? 1 then (None, false)
      else
        let costTime := Z.quot since (10 ^ 6) in
        (Some costTime, negb (costTime <? RedisSlowlogSlowerThan))
  | _, _ => (None, false)
  end.

(** ** Lemmas *)

(** A request is logged exactly when the log is on and it took the threshold or
    longer. *)
Lemma slowLogCheck_spec threshold f since o m :
  f_Owner f = Some o -> f_Peer f = Some m -> 0 <= since ->
  (slowLogCheck threshold f since).2 = true <-> 1 <= threshold /\ threshold * 10 ^ 6 <= since.
Proof.
  intros Ho Hm Hs. unfold slowLogCheck. rewrite Ho, Hm. destruct (threshold <? 1) eqn:E; cbn [snd]; [split; [done|lia]|].
  rewrite negb_true_iff, Z.ltb_ge, Z.quot_div_nonneg by lia. split.
  - intros Ht. split; [lia|]. pose proof (Z.mul_div_le since (10 ^ 6) ltac:(lia)). lia.
  - intros [_ Ht]. apply Z.div_le_lower_bound; lia.
Qed.

(** The metrics can be made, and the vectors take the labels they are used with. *)
Lemma GlobalStats_ok : exists s names, GlobalStats = Ok (s, names) /\
  Forall (fun v => d_labels <$> v = Some [])
    [TotalConnections s; TotalRequests s; Request s; ClientConnectionsClientEof s; ClientConnectionsClientErr s] /\
  Forall (fun v => (length ∘ d_labels) <$> v = Some 1%nat)
    [CurrConnections s; ReqCmd s; Fragments s; RedisServerEof s; RedisServerErr s; RedisServerActive s;
     RedisServerCreateConnError s; TimeoutTree s] /\
  str "rcproxy_fragments" ∉ names.
Proof.
  eexists _, _. split; [vm_compute; reflexivity|]. split_and!.
  - by repeat constructor.
  - by repeat constructor.
  - apply (bool_decide_unpack _). vm_compute. done.
Qed.

(** The groups of commands. *)
Definition groups : list bytes :=
  [str "del"; str "string"; str "bitmap"; str "incr_decr"; str "hashs"; str "lists"; str "sets"; str "sortedsets"; str "other"].
Definition count (m : gmap bytes Z) (l : bytes) : Z := default 0 (m !! l).
Definition total (m : gmap bytes Z) : Z := foldr (fun l n => count m l + n) 0 groups.

(** How often a label occurs in a list. *)
Definition occurs (l : bytes) (ls : list bytes) : Z := len (filter (eq l) ls).

Lemma count_Incs ls : forall m k, count (foldl Inc m ls) k = count m k + occurs k ls.
Proof.
  induction ls as [|l ls IH]; intros m k; cbn [foldl]; [unfold occurs; rewrite filter_nil, len_nil; lia|].
  rewrite IH. unfold count, Inc, occurs. rewrite filter_cons. case_decide as E.
  - subst. rewrite lookup_insert_eq, len_cons. simpl. lia.
  - by rewrite lookup_insert_ne.
Qed.

Lemma ReqCmdIncr_count m cmd k : count (ReqCmdIncr m cmd) k = count m k + count (ReqCmdIncr ∅ cmd) k.
Proof.
  assert (Hl : exists ls, forall m, ReqCmdIncr m cmd = foldl Inc m ls).
  { destruct cmd; first [by exists [Transform2Str ReqDel] | by exists [str "string"] | by exists [str "bitmap"]
      | by exists [str "incr_decr"] | by exists [str "hashs"] | by exists [str "lists"] | by exists [str "sets"]
      | by exists [str "sortedsets"] | by exists [str "other"]
      | match goal with |- context [ReqCmdIncr _ ?c] =>
          first [by exists [Transform2Str c; str "string"] | by exists [Transform2Str c; str "lists"]] end]. }
  destruct Hl as [ls Hl]. rewrite !Hl, !count_Incs. unfold count. rewrite lookup_empty. cbn [default]. lia.
Qed.

Lemma total_step m cmd : total (ReqCmdIncr m cmd) = total m + 1.
Proof.
  assert (Ht : total (ReqCmdIncr ∅ cmd) = 1) by (destruct cmd; vm_compute; reflexivity).
  unfold total, groups in *. cbn [foldr] in *. rewrite !(ReqCmdIncr_count m). lia.
Qed.

(** The commands that have a counter of their own. *)
Definition tracked : list Command := [ReqDel; ReqGet; ReqSet; ReqMget; ReqMset; ReqSort; ReqLrem].

Lemma tracked_step m cmd c : c ∈ tracked ->
  count (ReqCmdIncr m cmd) (Transform2Str c) = count m (Transform2Str c) + if decide (cmd = c) then 1 else 0.
Proof.
  intros Hc. rewrite ReqCmdIncr_count. f_equal. unfold tracked in Hc. rewrite !elem_of_cons, elem_of_nil in Hc.
  destruct Hc as [->|[->|[->|[->|[->|[->|[->|[]]]]]]]]; destruct cmd; vm_compute; reflexivity.
Qed.

(** Every request is counted once by group: after any sequence of commands the
    counters of the nine groups add up to the number of commands, and each of the
    seven commands with a counter of its own has been counted as often as it
    came. *)
Theorem commands_counted cs :
  let m := foldl ReqCmdIncr ∅ cs in
  total m = len cs /\ forall c, c ∈ tracked -> count m (Transform2Str c) = len (filter (eq c) cs).
Proof.
  induction cs as [|cmd cs IH] using rev_ind; [split; [reflexivity|]; intros c Hc; done|].
  cbv zeta in *. destruct IH as [IH1 IH2]. rewrite foldl_app. cbn [foldl]. split.
  - rewrite total_step, IH1, len_app. done.
  - intros c Hc. rewrite tracked_step, IH2, filter_app, len_app by done. f_equal. rewrite filter_cons, filter_nil.
    by repeat case_decide.
Qed.

(** ** The gauges show the connections *)

Section gauges.
Context `{!Env, !Descriptors} {T : Type} `{!LLRB T} `{!HashMap ClusterNode}.

(** While the table's invariant holds, the gauge of all connections is the size of
    the connection table. *)
Lemma statsLoop_total g height (w : World T) :
  invariant w -> Z.of_nat (base.size (w_connections w)) < 2 ^ 31 ->
  statsLoop_tick g height w !! (str "curr_connections", str "total") =
    Some (Some (inject_Z (w_cConnCount w) + inject_Z (w_sConnCount w))%Q) /\
  w_cConnCount w + w_sConnCount w = Z.of_nat (base.size (w_connections w)).
Proof.
  intros Hw Hsz. split.
  - unfold statsLoop_tick. destruct height. cbv zeta beta. by rewrite lookup_insert_eq.
  - destruct (inv_table_ok w Hw) as [_ Hc]. destruct (Hc Hsz) as (_ & _ & Hcount). exact Hcount.
Qed.

(** An empty tree has no height: the gauges show 0. *)
Lemma statsLoop_NaN g (w : World T) :
  statsLoop_tick g (None, None) w !! (str "timeout_tree", str "depth") = Some (Some 0%Q).
Proof. unfold statsLoop_tick. cbv zeta beta iota. rewrite !lookup_insert_ne by (vm_compute; discriminate). by rewrite lookup_insert_eq. Qed.
End gauges.
