(* ===== verification/Web.v ===== *)
(** * The web endpoints

    [web]: the handlers that show the topology and the whitelist.  The router and
    the encoding to JSON are gin's; a handler is the value it hands over.  The
    theorem says what the topology page shows. *)

From S2P Require Import Prelude Errors Codec Message Cluster AuthIp.

(** ** [web/cluster.go] *)

Record ClusterNodeRes := mkRes { r_node : ClusterNode; Slavers : list ClusterNode }.

Definition is_master (n : ClusterNode) : bool := bool_decide (n_Role n = Master).
Definition is_slave (n : ClusterNode) : bool := bool_decide (n_Role n = Slave).

(** The two loops: the masters, then every slave at each master it names. *)
Definition masters (nodes : list ClusterNode) : list ClusterNodeRes :=
  foldl (fun res node => if is_master node then res ++ [mkRes node []] else res) [] nodes.
Definition add_slave (res : list ClusterNodeRes) (node : ClusterNode) : list ClusterNodeRes :=
  if is_slave node then
    map (fun m => if bool_decide (n_MasterId node = n_Name (r_node m))
                  then mkRes (r_node m) (Slavers m ++ [node]) else m) res
  else res.

Definition HandleClusters_nodes (clusterNodes : list ClusterNode) : list ClusterNodeRes :=
  foldl add_slave (masters clusterNodes) clusterNodes.

Section handlers.
Context `{HashMap ClusterNode}.

Definition HandleClusters (c : ClusterNodes) : list ClusterNodeRes := HandleClusters_nodes (GetClusterNodes c).
End handlers.

(** ** [web/authip.go] *)

Definition HandleAuthIp `{HashMap unit} (IpMap : ipMap) : list bytes := (hm_Iter (ips IpMap)).*1.

(** ** [web/version.go]: nothing sets [BasicCfg] *)

Record BasicConfig := mkBasic { CommitSHA : bytes; Tag : bytes; BuildTime : bytes }.
Definition BasicCfg : BasicConfig := mkBasic [] [] [].
Definition HandleVersion : BasicConfig := BasicCfg.

(** ** What the pages show *)

Lemma masters_spec nodes : masters nodes = (fun n => mkRes n []) <$> filter (fun n => is_master n = true) nodes.
Proof.
  unfold masters. enough (Hg : forall res, foldl (fun res node => if is_master node then res ++ [mkRes node []] else res) res nodes =
    res ++ ((fun n => mkRes n []) <$> filter (fun n => is_master n = true) nodes)) by (by rewrite Hg).
  induction nodes as [|n nodes IH]; intros res; cbn [foldl]; [by rewrite app_nil_r|].
  rewrite IH, filter_cons. destruct (is_master n); [|by rewrite decide_False].
  rewrite decide_True by done. cbn. by rewrite <- app_assoc.
Qed.

(** The slaves of one master among the nodes. *)
Definition slaves_of (m : ClusterNode) (nodes : list ClusterNode) : list ClusterNode :=
  filter (fun n => is_slave n = true /\ n_MasterId n = n_Name m) nodes.

Lemma add_slaves_spec nodes : forall res,
  foldl add_slave res nodes = (fun r => mkRes (r_node r) (Slavers r ++ slaves_of (r_node r) nodes)) <$> res.
Proof.
  induction nodes as [|n nodes IH]; intros res; cbn [foldl].
  { rewrite <- (list_fmap_id res) at 1. apply list_fmap_ext. intros i [m sl] _. cbn. by rewrite app_nil_r. }
  rewrite IH. unfold add_slave. destruct (is_slave n) eqn:Es.
  - change (map ?f res) with (f <$> res). rewrite <- list_fmap_compose. apply list_fmap_ext. intros i [m sl] _.
    unfold compose. cbn [r_node Slavers]. case_bool_decide as Em; cbn [r_node Slavers]; unfold slaves_of; rewrite filter_cons.
    + rewrite decide_True by done. by rewrite <- app_assoc.
    + by rewrite decide_False by tauto.
  - apply list_fmap_ext. intros i [m sl] _. cbn [r_node Slavers]. unfold slaves_of. rewrite filter_cons, decide_False; [done|].
    intros [Hs _]. congruence.
Qed.

(** The topology page lists every master of the server map once, each with
    exactly the slaves that name it as their master, in the order in which the
    map is visited; whatever that order is, a node of the map is on the page
    exactly when it is a master or names a master of the map. *)
Theorem HandleClusters_groups `{HashMap ClusterNode} (c : ClusterNodes) :
  let nodes := GetClusterNodes c in
  HandleClusters c = (fun m => mkRes m (slaves_of m nodes)) <$> filter (fun n => is_master n = true) nodes /\
  forall n, (exists r, r ∈ HandleClusters c /\ (n = r_node r \/ n ∈ Slavers r)) <->
    (exists k, hm_view (ServerMap c) !! k = Some n) /\
    (n_Role n = Master \/ n_Role n = Slave /\
      exists k m, hm_view (ServerMap c) !! k = Some m /\ n_Role m = Master /\ n_Name m = n_MasterId n).
Proof.
  cbv zeta. assert (Heq : HandleClusters c = (fun m => mkRes m (slaves_of m (GetClusterNodes c))) <$>
    filter (fun n => is_master n = true) (GetClusterNodes c)).
  { unfold HandleClusters, HandleClusters_nodes. rewrite masters_spec, add_slaves_spec, <- list_fmap_compose. done. }
  split; [exact Heq|]. assert (Hin : forall n, n ∈ GetClusterNodes c <-> exists k, hm_view (ServerMap c) !! k = Some n).
  { intros n. unfold GetClusterNodes. rewrite list_elem_of_fmap. split.
    - intros ([k v] & -> & Hk). exists k. apply elem_of_map_to_list. by rewrite <- hm_Iter_perm.
    - intros [k Hk]. exists (k, n). split; [done|]. rewrite hm_Iter_perm. by apply elem_of_map_to_list. }
  intros n. rewrite Heq. split.
  - intros (r & (m & -> & [Hm Hmn]%list_elem_of_filter)%list_elem_of_fmap & Hn). apply bool_decide_eq_true in Hm.
    destruct Hn as [->|[[Hs Hid] Hn]%list_elem_of_filter]; cbn.
    + split; [by apply Hin|by left].
    + apply bool_decide_eq_true in Hs. split; [by apply Hin|]. right. split; [done|].
      apply Hin in Hmn as [k Hk]. by exists k, m.
  - intros [Hn Hr]. apply Hin in Hn. destruct Hr as [Hm|(Hs & k & m & Hk & Hm & Hid)].
    + exists (mkRes n (slaves_of n (GetClusterNodes c))). split; [|by left]. apply list_elem_of_fmap. exists n.
      split; [done|]. apply list_elem_of_filter. split; [by apply bool_decide_eq_true|done].
    + exists (mkRes m (slaves_of m (GetClusterNodes c))). split.
      * apply list_elem_of_fmap. exists m. split; [done|]. apply list_elem_of_filter.
        split; [by apply bool_decide_eq_true|]. apply Hin. by exists k.
      * right. apply list_elem_of_filter. split; [split; [by apply bool_decide_eq_true|done]|done].
Qed.

Lemma HandleAuthIp_keys `{HashMap unit} (i : ipMap) ip :
  ip ∈ HandleAuthIp i <-> is_Some (hm_view (ips i) !! ip).
Proof.
  unfold HandleAuthIp. rewrite hm_Iter_perm, list_elem_of_fmap. split.
  - intros ([k v] & -> & Hk). apply elem_of_map_to_list in Hk. by exists v.
  - intros [v Hv]. exists (ip, v). split; [done|]. by apply elem_of_map_to_list.
Qed.
