(* ===== verification/Logging.v ===== *)
(** * Logging

    [core/pkg/logging]: which messages are written and where, the options of the
    logger and the format of a line.  logrus gates a message by its level and calls
    the formatter; the texts of [fmt] and of the clock, the files and the call
    stack are arguments. *)

From S2P Require Import Prelude Errors Codec CodecS Cluster RedisConn Options.

(** ** Levels *)

Inductive Level : Set := PanicLevel | FatalLevel | ErrorLevel | WarnLevel | InfoLevel | DebugLevel | TraceLevel.
Definition level_code (l : Level) : Z :=
  match l with
  | PanicLevel => 0 | FatalLevel => 1 | ErrorLevel => 2 | WarnLevel => 3 | InfoLevel => 4 | DebugLevel => 5 | TraceLevel => 6
  end.
Definition level_String (l : Level) : bytes :=
  match l with
  | PanicLevel => str "panic" | FatalLevel => str "fatal" | ErrorLevel => str "error" | WarnLevel => str "warning"
  | InfoLevel => str "info" | DebugLevel => str "debug" | TraceLevel => str "trace"
  end.
#[export] Instance Level_eq_dec : EqDecision Level.
Proof. solve_decision. Defined.

(** [LevelMapperRev]. *)
Definition LevelMapperRev (s : bytes) : option Level :=
  if bool_decide (s = str "DEBUG") then Some DebugLevel
  else if bool_decide (s = str "INFO") then Some InfoLevel
  else if bool_decide (s = str "WARN") then Some WarnLevel
  else if bool_decide (s = str "ERROR") then Some ErrorLevel
  else None.

(** ** The logger *)

(** [logger]: the levels of the two [logrus.Logger]s.  [logObj] is an [option]. *)
Record logger := mkLogger { iWriter : Level; fWriter : Level }.

Definition IsLevelEnabled (logger_level l : Level) : bool := level_code l <=? level_code logger_level.

Inductive sink : Set := Stdout | LogFile | WfFile.

(** What a call writes: the sink, the level (of a file's line) and the text. *)
Definition output : Type := option (sink * Level * bytes).

(** logrus writes an entry when its level is enabled. *)
Definition logrus_log (file : sink) (logger_level l : Level) (text : bytes) : output :=
  if IsLevelEnabled logger_level l then Some (file, l, text) else None.
Definition print (l : Level) (prefix : string) (text : bytes) : output := Some (Stdout, l, str prefix ++ text).

Section log.
Context (logObj : option logger).

(** [Debug] and [Debugf] and the like differ in how the text is made. *)
Definition Debug (text : bytes) : output :=
  match logObj with None => print DebugLevel "[DEBUG] " text | Some o => logrus_log LogFile (iWriter o) DebugLevel text end.
Definition Debugf (text : bytes) : output :=
  match logObj with
  | None => print DebugLevel "[DEBUG] " text
  | Some o => if IsLevelEnabled (iWriter o) DebugLevel then logrus_log LogFile (iWriter o) DebugLevel text else None
  end.
(** The function is called only when its text is written. *)
Definition Debugfunc (f : unit -> bytes) : output * bool :=
  match logObj with
  | None => (print DebugLevel "[DEBUG] " (f ()), true)
  | Some o =>
      if IsLevelEnabled (iWriter o) DebugLevel then (logrus_log LogFile (iWriter o) DebugLevel (f ()), true) else (None, false)
  end.
Definition Info (text : bytes) : output :=
  match logObj with
  | None => print InfoLevel "[INFO] " text
  | Some o => if IsLevelEnabled (iWriter o) InfoLevel then logrus_log LogFile (iWriter o) InfoLevel text else None
  end.
Definition Infof := Info.
Definition Warn (text : bytes) : output :=
  match logObj with
  | None => print WarnLevel "[WARN] " text
  | Some o => if IsLevelEnabled (fWriter o) WarnLevel then logrus_log WfFile (fWriter o) WarnLevel text else None
  end.
Definition Warnf := Warn.
Definition Error (text : bytes) : output :=
  match logObj with
  | None => print ErrorLevel "[ERROR] " text
  | Some o => if IsLevelEnabled (fWriter o) ErrorLevel then logrus_log WfFile (fWriter o) ErrorLevel text else None
  end.
Definition Errorf := Error.
End log.

(** ** Options and initialisation *)

Record logOptions := mkLogOptions { path : bytes; level : bytes; expireDay : Z }.
Definition defaultLogOptions : logOptions := mkLogOptions (str "log") (str "DEBUG") 7.

Definition WithPath (v : bytes) (o : logOptions) : logOptions := mkLogOptions v (level o) (expireDay o).
Definition WithExpireDay (v : Z) (o : logOptions) : logOptions := mkLogOptions (path o) (level o) v.
Definition WithLogLevel (l : bytes) (o : logOptions) : logOptions := mkLogOptions (path o) l (expireDay o).

Section initialise.
Context (MkdirAll : bytes -> option error) (Getwd : bytes + error) (PathJoin : list bytes -> bytes).
(** [rotatelogs.New] with the pattern and the age of the files. *)
Context (rotatelogs_New : bytes -> Z -> option error).

(** [newWriter]: a new logger has the level info. *)
Definition newWriter (filepath fileName : bytes) (expireDay : Z) : Level + error :=
  match (if HasPrefix filepath (str "/") then inl (PathJoin [filepath; fileName])
         else match Getwd with inr err => inr err | inl pwd => inl (PathJoin [pwd; filepath; fileName]) end) with
  | inr err => inr err
  | inl fileWithFullPath =>
      match rotatelogs_New (fileWithFullPath ++ str ".%Y%m%d%H") (wrap64 (expireDay * 24 * 3600 * 10 ^ 9)) with
      | Some err => inr err
      | None => inl InfoLevel
      end
  end.

Definition InitializeLogger (logObj : option logger) (opt : list (logOptions -> logOptions)) : option logger * option error :=
  match logObj with
  | Some o => (Some o, None)
  | None =>
      let opts := foldl (fun o f => f o) defaultLogOptions opt in
      match MkdirAll (path opts) with
      | Some err => (None, Some err)
      | None =>
          match newWriter (path opts) (str "rcproxy.log") (expireDay opts) with
          | inr err => (None, Some err)
          | inl iw =>
              match newWriter (path opts) (str "rcproxy.log.wf") (expireDay opts) with
              | inr err => (None, Some err)
              | inl fw =>
                  match LevelMapperRev (level opts) with
                  | Some v => (Some (mkLogger v v), None)
                  | None => (Some (mkLogger iw fw), None)
                  end
              end
          end
      end
  end.
End initialise.

(** ** Lines *)

Definition defaultMaxLength : Z := 8192.
Definition TitleSlowLog : bytes := str "[SLOWLOG]".

(** [strings.LastIndex] with a separator of one byte. *)
Fixpoint LastIndexByte (s : bytes) (c : Z) : Z :=
  match s with
  | [] => -1
  | x :: s => let i := LastIndexByte s c in if i =? -1 then (if x =? c then 0 else -1) else i + 1
  end.

(** The closure [getPackageName]: what follows the last slash is cut at its
    first period.  Every round makes the name shorter. *)
Fixpoint getPackageName_loop (fuel : nat) (f : bytes) : res bytes :=
  match fuel with
  | O => OutOfFuel
  | S fuel =>
      let lastPeriod := LastIndexByte f 46 in
      let lastSlash := LastIndexByte f 47 in
      if lastSlash <? lastPeriod then f ← slice f 0 lastPeriod; getPackageName_loop fuel f
      else Ok f
  end.
Definition getPackageName (f : bytes) : res bytes := getPackageName_loop (S (length f)) f.

Record Frame := mkFrame { fr_Function : bytes; fr_File : bytes; fr_Line : Z }.

(** [getCaller]: [frames.Next] returns a frame and whether there are more, and the
    loop ends when there are not, so the outermost frame is never looked at. *)
Fixpoint getCaller (l : Level) (frames : list Frame) : res (list Frame) :=
  match frames with
  | [] | [_] => Ok []
  | f :: frames =>
      pkg ← getPackageName (fr_Function f);
      if Contains pkg (str "rcproxy/core/pkg/log") || Contains pkg (str "sirupsen/logrus") then getCaller l frames
      else if negb (bool_decide (l = ErrorLevel)) then Ok [f]
      else fms ← getCaller l frames; Ok (f :: fms)
  end.

(** [strings.TrimSuffix] of a newline, and [strings.ToUpper] on a level's name. *)
Definition TrimNewline (s : bytes) : bytes :=
  match last s with Some c => if c =? 10 then subl s 0 (len s - 1) else s | None => s end.
Definition ToUpper (s : bytes) : bytes := map (fun c => if (97 <=? c) && (c <=? 122) then c - 32 else c) s.

Section format.
(** [filepath.Base]. *)
Context (Base : bytes -> bytes).

Definition location (f : Frame) : bytes :=
  TrimPrefix (fr_Function f) (str "rcproxy/") ++ str " " ++ Base (fr_File f) ++ str ":" ++ Itoa (fr_Line f).

(** [Format]: the line, and the message left in the entry.  The message to print is
    taken before the entry's is cut. *)
Definition Format (l : Level) (Message time : bytes) (Buffer : bytes) (frames : list Frame) : res (bytes * bytes) :=
  let message := TrimNewline Message in
  Message ← (if defaultMaxLength <? len Message then slice Message 0 defaultMaxLength else Ok Message);
  let b := Buffer ++ ToUpper (level_String l) ++ str " " ++ time ++ str " " in
  if HasPrefix message TitleSlowLog then Ok (b ++ message ++ [10], Message)
  else
    callers ← getCaller l frames;
    let b := match callers with f :: _ => b ++ location f ++ str " " | [] => b end in
    let b := b ++ message ++ [10] in
    let b := if 1 <? len callers
             then b ++ concat (map (fun c => str "        " ++ location c ++ [10]) callers) else b in
    Ok (b, Message).
End format.

(** ** What is written *)

(** A logger that was initialised with a configured level. *)
Definition configured_level (logObj : option logger) (v : Level) : Prop := logObj = Some (mkLogger v v).

(** [main] initialises the logger with the configured level, which [validate] has
    accepted: then both files have that level. *)
Lemma InitializeLogger_level MkdirAll Getwd PathJoin rotate cfg lp ex o err :
  validate cfg = None ->
  InitializeLogger MkdirAll Getwd PathJoin rotate None [WithPath lp; WithExpireDay ex; WithLogLevel (LogLevel cfg)] = (o, err) ->
  match err with
  | Some _ => o = None
  | None => exists v, LevelMapperRev (LogLevel cfg) = Some v /\ configured_level o v
  end.
Proof.
  intros Hv. unfold InitializeLogger. cbn [foldl WithPath WithExpireDay WithLogLevel path level expireDay].
  destruct (MkdirAll lp) as [e|]; [by intros [= <- <-]|].
  destruct (newWriter _ _ _ lp _ ex) as [iw|e]; [|by intros [= <- <-]].
  destruct (newWriter _ _ _ lp _ ex) as [fw|e]; [|by intros [= <- <-]].
  unfold validate in Hv. case_bool_decide as Hin; [clear Hv|done]. unfold level_names in Hin.
  rewrite !elem_of_cons, elem_of_nil in Hin.
  destruct Hin as [-> | [-> | [-> | [-> | []]]]]; intros [= <- <-]; by eexists.
Qed.

(** With the configured level, exactly the messages of that level and the more
    severe ones are written: warnings and errors to the file of warnings, the
    others to the log file; the function of [Debugfunc] is called exactly when its
    text is written. *)
Lemma messages_by_level logObj v text :
  configured_level logObj v ->
  Debug logObj text = (if level_code DebugLevel <=? level_code v then Some (LogFile, DebugLevel, text) else None) /\
  Debugf logObj text = Debug logObj text /\
  Debugfunc logObj (fun _ => text) = (Debug logObj text, level_code DebugLevel <=? level_code v) /\
  Info logObj text = (if level_code InfoLevel <=? level_code v then Some (LogFile, InfoLevel, text) else None) /\
  Warn logObj text = (if level_code WarnLevel <=? level_code v then Some (WfFile, WarnLevel, text) else None) /\
  Error logObj text = (if level_code ErrorLevel <=? level_code v then Some (WfFile, ErrorLevel, text) else None).
Proof. intros ->. by destruct v. Qed.

(** *** The formatter *)

Lemma LastIndexByte_range s c : -1 <= LastIndexByte s c < len s.
Proof.
  induction s as [|x s IH]; cbn [LastIndexByte]; [unfold len; simpl; lia|]. rewrite len_cons.
  destruct (LastIndexByte s c =? -1) eqn:E; [destruct (x =? c); lia|lia].
Qed.

(** The loop ends: it returns a prefix of the name without a period after its
    last slash. *)
Lemma getPackageName_spec f :
  exists p, getPackageName f = Ok p /\ p `prefix_of` f /\ LastIndexByte p 46 <= LastIndexByte p 47.
Proof.
  unfold getPackageName. assert (Hl : (length f < S (length f))%nat) by lia. revert Hl. generalize (S (length f)) as fuel.
  intros fuel. revert f. induction fuel as [|fuel IH]; intros f Hf; [lia|]. cbn [getPackageName_loop].
  destruct (LastIndexByte f 47 <? LastIndexByte f 46) eqn:E; [|exists f; split_and!; [done..|lia]].
  pose proof (LastIndexByte_range f 46). pose proof (LastIndexByte_range f 47). rewrite slice_Ok by lia. cbn [mbind res_bind].
  destruct (IH (subl f 0 (LastIndexByte f 46))) as (p & Hp & Hpre & Hle).
  { pose proof (len_subl f 0 (LastIndexByte f 46) ltac:(lia) ltac:(lia)) as Hs. unfold len in *. lia. }
  exists p. split_and!; [done| |done]. etrans; [exact Hpre|]. rewrite subl_take. apply prefix_take.
Qed.

Lemma getCaller_total l frames : exists fms, getCaller l frames = Ok fms /\ fms `sublist_of` frames.
Proof.
  induction frames as [|f [|g frames] IH]; [by exists []|exists []; split; [done|apply sublist_nil_l]|].
  destruct IH as (fms & Hf & Hs). change (getCaller l (f :: g :: frames)) with
    (pkg ← getPackageName (fr_Function f);
     if Contains pkg (str "rcproxy/core/pkg/log") || Contains pkg (str "sirupsen/logrus") then getCaller l (g :: frames)
     else if negb (bool_decide (l = ErrorLevel)) then Ok [f]
     else fms ← getCaller l (g :: frames); Ok (f :: fms)).
  destruct (getPackageName_spec (fr_Function f)) as (p & -> & _). rewrite Hf. cbn [mbind res_bind].
  case_if; [exists fms; split; [done|by apply sublist_cons]|].
  case_if; [exists [f]; split; [done|apply sublist_skip, sublist_nil_l]|].
  exists (f :: fms). split; [done|by apply sublist_skip].
Qed.

(** [Format] always returns a line, whatever the call stack: the level, the
    time, the position of the caller, then the whole message without its newline;
    the frames it reports are frames of the stack.  The limit of 8192 bytes does
    not apply to what is printed, only to the copy of the message in the entry. *)
Theorem Format_line Base l Message time Buffer frames :
  exists fms rest,
    fms `sublist_of` frames /\
    Format Base l Message time Buffer frames =
      Ok (Buffer ++ ToUpper (level_String l) ++ str " " ++ time ++ str " " ++
            (match fms with f :: _ => location Base f ++ str " " | [] => [] end) ++ TrimNewline Message ++ [10] ++ rest,
          take (Z.to_nat defaultMaxLength) Message).
Proof.
  unfold Format. assert (Hm : (if defaultMaxLength <? len Message then slice Message 0 defaultMaxLength else Ok Message) =
    Ok (take (Z.to_nat defaultMaxLength) Message)).
  { case_if; [rewrite slice_Ok by (unfold defaultMaxLength in *; lia); by rewrite subl_take|].
    rewrite take_ge; [done|unfold defaultMaxLength, len in *; lia]. }
  rewrite Hm. cbn [mbind res_bind]. case_if.
  - exists [], []. split; [apply sublist_nil_l|]. by rewrite !app_nil_l, !app_nil_r, <- !app_assoc.
  - destruct (getCaller_total l frames) as (fms & -> & Hs). cbn [mbind res_bind].
    exists fms, (if 1 <? len fms then concat (map (fun c => str "        " ++ location Base c ++ [10]) fms) else []).
    split; [done|]. do 2 f_equal. destruct fms as [|f fms]; case_if; by rewrite ?app_nil_r, ?app_nil_l, <- ?app_assoc.
Qed.
