(* ===== verification/Main.v ===== *)
(** * The program

    [main.go]: the flags, the build information and the order in which [main] starts the
    parts.  What a part does is in its own file; here are its outcomes and the traces
    they lead to.  [path.Join], the router of the web server and the process id are
    parameters. *)

From S2P Require Import Prelude Errors Codec Commands Options Logging.

(** ** Flags and build information *)
Record flags := mkFlags { configPath : bytes; basicConfigFile : bytes; authIpConfigFile : bytes; version : bool; help : bool }.
Definition default_flags : flags := mkFlags (str "conf") (str "rc.yaml") (str "authip.yaml") false false.

Record build := mkBuild { CommitSHA : bytes; Tag : bytes; BuildTime : bytes }.
Definition or_unknown (s : bytes) : bytes := if len s <? 1 then str "unknown" else s.
(** The package's [init]. *)
Definition init_build (b : build) : build := mkBuild (or_unknown (CommitSHA b)) (or_unknown (Tag b)) (or_unknown (BuildTime b)).

(** ** What the program does *)
Inductive event : Type :=
  | Print (text : bytes)
  | Usage
  | Exit (code : Z)
  | Log (text : bytes)
  | Watch (dir file : bytes)          (* authip.LoopIPWhiteList *)
  | Web (addr : bytes)                (* the goroutine of the web server *)
  | Engine (cfg : Config).            (* core.Run *)

Definition lf : bytes := [10].

(** The events of [parseCli], and whether the process ends there. *)
Definition parseCli (b : build) (f : flags) : list event * bool :=
  if version f then
    ([Print (str "version: " ++ Tag b ++ lf ++ str "commit: " ++ CommitSHA b ++ lf ++ str "time: " ++ BuildTime b ++ lf); Exit 0], true)
  else if help f then ([Usage; Exit 0], true)
  else ([], false).

(** [H] claims a list of other events to have one. *)
Ltac not_event H := repeat (apply elem_of_cons in H as [H|H]; [discriminate H|]); by apply elem_of_nil in H.

Section main.
Context (Join : bytes -> bytes -> bytes) (ReadFile : bytes -> bytes + error) (Unmarshal : bytes -> Config + error).
Context (InitLogger : list (logOptions -> logOptions) -> option error) (LoopIPWhiteList : bytes -> bytes -> option error).
Context (banner : bytes) (Getpid : Z).

(** [text e] is the line an error is logged with; the texts of the other lines are left out. *)
Context (text : error -> bytes).

Definition main (b : build) (f : flags) : list event :=
  let b := init_build b in
  let '(cli, ends) := parseCli b f in
  if ends then cli
  else
    match LoadConfig ReadFile Unmarshal (Join (configPath f) (basicConfigFile f)) with
    | inr err => [Log (text err)]
    | inl cfg =>
        match InitLogger [WithPath (LogPath cfg); WithExpireDay (LogExpireDay cfg); WithLogLevel (LogLevel cfg)] with
        | Some err => [Log (text err)]
        | None =>
            [Print banner; Print (str "rcproxy version: " ++ Tag b ++ lf);
             Print (str "rcproxy started with port: " ++ Itoa (Port cfg) ++ str ", pid: " ++ Itoa Getpid ++ lf);
             Watch (configPath f) (authIpConfigFile f)] ++
            match LoopIPWhiteList (configPath f) (authIpConfigFile f) with
            | Some err => [Log (text err)]
            | None => (if 0 <? WebPort cfg then [Web (str ":" ++ Itoa (WebPort cfg))] else []) ++ [Engine cfg]
            end
        end
    end.

(** The engine starts last and at most once: with a configuration that was read and
    validated, after the log and the whitelist are there and the web server, which is
    started exactly when its port is positive; with any error, or with [-v] or [-h], neither
    it nor the web server starts. *)
Theorem main_starts b f cfg l1 l2 :
  main b f = l1 ++ Engine cfg :: l2 ->
  l2 = [] /\ (forall c, Engine c ∉ l1) /\ version f = false /\ help f = false /\
  LoadConfig ReadFile Unmarshal (Join (configPath f) (basicConfigFile f)) = inl cfg /\ validate cfg = None /\
  Watch (configPath f) (authIpConfigFile f) ∈ l1 /\ LoopIPWhiteList (configPath f) (authIpConfigFile f) = None /\
  (forall a, Web a ∈ l1 <-> a = str ":" ++ Itoa (WebPort cfg) /\ 0 < WebPort cfg).
Proof.
  intros Hm. assert (Engine cfg ∈ main b f) as Hin by (rewrite Hm; apply elem_of_app; right; left). unfold main, parseCli in *.
  destruct (version f); [not_event Hin|]. destruct (help f); [not_event Hin|].
  destruct (LoadConfig _ _ _) as [cfg'|err] eqn:El; [|not_event Hin]. destruct (InitLogger _) as [err|]; [not_event Hin|].
  set (pre := [Print banner; _; _; _]) in *.
  assert ((forall c, Engine c ∉ pre) /\ (forall a, Web a ∉ pre) /\ Watch (configPath f) (authIpConfigFile f) ∈ pre) as (Hpe & Hpw & Hpx).
  { subst pre. split_and!; [intros c Hc; not_event Hc|intros a Hc; not_event Hc|do 3 right; left]. }
  clearbody pre. remember (str ":" ++ Itoa (WebPort cfg')) as port eqn:Hport.
  destruct (LoopIPWhiteList _ _) as [err|]; [apply elem_of_app in Hin as [Hin|Hin]; [by apply Hpe in Hin|not_event Hin]|].
  set (web := if 0 <? WebPort cfg' then [Web port] else []) in *.
  assert (forall c, Engine c ∉ pre ++ web) as Hweb.
  { intros c Hc. apply elem_of_app in Hc as [Hc|Hc]; [by apply Hpe in Hc|]. subst web. destruct (0 <? _); not_event Hc. }
  rewrite app_assoc in Hm.
  assert (l2 = [] /\ l1 = pre ++ web /\ cfg' = cfg) as (-> & -> & <-).
  { destruct (decide (l2 = [])) as [->|Hne]; [apply app_inj_tail in Hm as [-> Hm]; by injection Hm as ->|].
    exfalso. destruct (exists_last Hne) as (l3 & e & ->). rewrite app_comm_cons, app_assoc in Hm.
    apply app_inj_tail in Hm as [Hm _]. apply (Hweb cfg). rewrite Hm. apply elem_of_app. right. left. }
  split_and!; try done; [|apply elem_of_app; by left|].
  - unfold LoadConfig in El. destruct (ReadFile _); [|done]. destruct (Unmarshal _) as [c|]; [|done]. destruct (validate c) eqn:E; congruence.
  - intros a. rewrite <- Hport. subst web. rewrite elem_of_app. destruct (0 <? WebPort cfg') eqn:E.
    + rewrite list_elem_of_singleton. split; [|intros [-> _]; by right]. intros [Hw|Hw]; [by apply Hpw in Hw|].
      injection Hw as ->. split; [done|lia].
    + rewrite elem_of_nil. split; [intros [Hw|[]]; by apply Hpw in Hw|]. intros [_ Hw]. lia.
Qed.
End main.
